(* ===== verification/_CoqProject ===== *)
-Q . S2P
Prelude.v
RustStr.v
Routing.v
NameQueue.v
SerialMap.v
Zbus.v
SimpleZbus.v
Errors.v
Message.v
MatchRules.v
MatchRuleProofs.v
Portal.v
World.v
SimpleEnv.v
Router.v
Multiplexer.v
Frames.v
MuxCalls.v
MuxRules.v
MuxNames.v
Race.v
Isolation.v
Auth.v
Client.v
ClientProofs.v
Stream.v
MuxInv.v
RaceRules.v
Interleave.v
InterleaveRules.v
InterleaveCalls.v
Session.v
Channels.v
Locks.v
Startup.v
UnitTests.v
IntegrationTests.v
