(* ===== verification/Prelude.v ===== *)
(** * kapsule-dbus-mux: a verification development

    ** The program

    kapsule-dbus-mux gives the applications of a container one D-Bus socket in
    place of two buses.  It listens for clients, authenticates them, answers
    the methods of the bus daemon itself, sends every other method call to the
    container's bus or to the host's session bus, and brings replies and
    signals back.  Its parts (Rust, under src/src/):

    - [routing.rs] decides the bus of a destination; [name_queue.rs] decides
      which client owns a well-known name and who waits for it;
    - [serial_map.rs] numbers the calls on each bus and remembers whose they
      are; [router.rs] forwards calls and correlates replies with it;
    - [message.rs] reads, clones and builds messages; [match_rules.rs] parses
      match rules, matches signals and counts the rules installed on the buses;
      [portal_request.rs] tracks XDG portal requests, whose responses come back
      under the multiplexer's name;
    - [auth.rs] is the SASL exchange; [client.rs] accepts a client, cuts its
      byte stream into messages and runs the task that owns its socket;
    - [bus_connection.rs] talks to one bus; [multiplexer.rs] holds the shared
      state, handles every message and runs the main loop; [error.rs] has the
      error types.  [main.rs] starts it and ends it; [build.rs] is glue.

    A client's task reads frames and sends them to the main loop, which calls
    the handlers; handlers use the router, the tables and the two bus
    connections, and put messages into the channels of clients.

    ** The files

    - [Prelude]: results, machine integers, labelled transition systems with
      traces and simulation, automation, lemmas on lists and maps.
    - [RustStr]: the [str] methods the sources use, on UTF-8 bytes, with their
      lemmas.
    - [Routing], [NameQueue], [SerialMap], [Errors], [Message], [MatchRules],
      [Portal], [Auth], [Client]: the component of the same name; one
      definition per function of the source, named after it where that is free
      (prefixes: [sm_] SerialMap, [cmr_] ClientMatchRules, [prt_]
      PortalRequestTracker, [cc_] ClientConnection, [ch_] ClientHandler).
      [MatchRuleProofs] and [ClientProofs] hold theorems on two of them, [Stream]
      those on the way of a whole stream of messages through [Client].
    - [Zbus]: what the sources use of the zbus crate, as a class of operations;
      [ZbusLaws] states its documented behaviour.  [SimpleZbus] implements both.
    - [World]: the state of the multiplexer (structs of [multiplexer.rs],
      [router.rs], [bus_connection.rs]) and the monad of the handlers; [Env] is
      what they learn from outside, [SimpleEnv] an instance of it.
    - [Router], [Multiplexer]: the functions of [router.rs] and
      [multiplexer.rs] in that monad, whole, with their errors and early
      returns.  [Frames] is a calculus of what a handler leaves alone, with a
      class ([Tolerates]) by which an invariant says what it does not depend on.
      [MuxCalls], [MuxRules] and [MuxNames] hold the theorems about calls and
      signals, match rules, and names; [MuxInv] the invariant of the whole state;
      [Isolation] what clients cannot do to each other; [Session] the way from a
      client's bytes to its answers.
    - [Channels]: the main loop and the client tasks as a transition system
      around the bounded channels between them, over the handlers of
      [Multiplexer].
    - [Locks]: which locks every function takes, in which mode and order, and
      what it waits for meanwhile, as programs under tokio's fair queues.
    - [Interleave]: the handlers as programs over atomic actions and all
      interleavings of the main loop's handler with the tasks of clients, with
      the invariants of the state; [InterleaveRules]: the accounts of match rules
      that interrupted handlers keep; [InterleaveCalls]: calls and replies;
      [Race] and [RaceRules]: what a disconnection inside RequestName and inside
      AddMatch does.
    - [Startup]: [Multiplexer::new] with its socket file, [Drop], and [main].
    - [UnitTests], [IntegrationTests]: the unit tests of the sources and those
      integration tests that need no bus daemon, evaluated on the model.

    ** What is proved

    - State: every state that start-up and any inputs lead to, each handled
      without interruption, is well formed
      ([MuxInv.wf_mux]): names of clients, queues, rules and their reference
      counts, serials.  However handlers interrupt each other, between any two of
      their actions, the parts of the state stay well formed, and run one after
      the other the actions are the handlers.
    - Isolation: whatever other clients do, and wherever their handlers
      interrupt each other, a client keeps its record and its places in queues.
    - Locks: no interleaving of main loop and tasks ends in a circle of tasks
      that wait for each other's locks.
    - Routing: the table follows the buses over every history of name changes;
      the host never takes a well-known name away from the container.
    - Names: the queue manager refines, call by call, the specification of a
      name as the ordered list of its owners (module [NameQueue.Spec]); its
      invariant; waiters are served in order; the order of a hash map does not
      show.  RequestName against every answer of the container bus; what a
      disconnection leaves in the clients, queues, portal requests and routes,
      and that it leaves the calls in flight.
    - Calls: serials never repeat within 2^32 - 1 draws, sequentially and with
      the atomic increments of concurrent threads interleaved; the byte patch of
      a serial changes the serial alone; over every history a reply goes to the
      caller it belongs to and to nobody else; every call is answered or
      forwarded exactly once; a call and its reply, end to end.  In every
      interleaving of interrupted handlers, what is sent and delivered is, input
      by input, what the input calls for: a call is forwarded or its caller
      answered, a reply delivered to its caller, as long as the caller stays.  A
      client that authenticates and makes calls to the daemon, cut anywhere,
      one after the answer to the other, finds one answer to each on its socket.
    - Signals: exactly the clients with a rule whose filters accept a signal get
      it, and a portal response, rewritten, exactly the client that waits for
      it; [matches] agrees with the match rules of the D-Bus specification
      outside of named cases, in which it is shown to depart from it; printing
      and parsing a rule; the parser
      terminates; over every run of the main loop the number of references to a
      rule is the number of its users and of the references leaked, and the
      rule is installed on both buses if and only if that is positive; in every
      interleaving, between two inputs, no rule of a connected client is missing
      on a bus.
    - Channels: tasks and main loop keep the order of the channels, and the main
      loop gets to the end of every input while the inbound channel has room.
    - Start and end: the socket is removed when a bus or Ctrl-C ends the
      multiplexer and the removal is not refused, and a start replaces what an
      earlier one left.
    - Clients: authentication ends, and does not depend on how the stream is cut;
      no byte after BEGIN is lost; a poll of the read is a function of the bytes
      not delivered yet; framing accounts for every byte; a stream of messages,
      from the first byte of the authentication on and cut anywhere, comes out
      of the task as those messages, if messages to the client are written
      between frames only; messages with file descriptors are written whole.
    - Where the code does not do what it or its documentation means to, a theorem
      states what it does: reads cancelled in the middle of a frame, sizes that
      wrap around, UIDs accepted and reported as claimed, services behind the multiplexer
      that cannot be called, rules added twice or too late, names released twice
      or granted though refused, unique names forgotten, portal tokens
      rewritten, the root namespace, senders by well-known name, empty queues
      of names without owner, replies to foreign serials, a replaced
      owner whose credentials are still reported, a name owned by a client that
      is gone, references to rules that an interrupted AddMatch miscounts, a
      connection object whose channel is closed from the start, a deadlock of main loop and client task, a socket left behind.

    ** Conventions, bounds and fuel

    - [u8], [u32] and [u64] are [Z] with [wrap8], [wrap32] and [wrap64] written
      where the code adds or truncates, as in a release build.  An index out of
      range is an outcome ([Client.Panic]) where it can happen, and excluded by
      a lemma where it cannot ([MatchRuleProofs.arg_path_slice_bounds]).
    - Recursion that is not structural takes fuel: [parse_loop] the length of
      the rule, [auth_loop] the number of bytes of the input, both proved
      enough for every input; [to_dec] the 20 digits of a [u64].
    - In [Multiplexer] a handler runs without interruption, and so does the work
      of a client task before and after its handler ([register_client],
      [disconnect_client]); [Multiplexer.run] is a fold over the inputs
      [select!] wakes up with, in any order.  Interleaving is modelled for the
      atomic counter ([SerialMap.gen_step]), the task of a client
      ([Client.task_step]), the waiting of main loop and tasks for channels
      ([Channels.exec], with the lock on the clients held meanwhile), the
      waiting for locks ([Locks]), and the handlers action by action
      ([Interleave]; an action is what happens under one guard, or one call to
      a bus).
    - The capacities of the channels are the constants of the code, 1024 and
      256; nothing is bounded for the sake of the proofs.
    - The iteration order of hash maps and sets, the clock, the answers of the
      bus daemons, failures of sockets and channels, the room in rustix'
      ancillary buffer, the hex crate and the process' identity are parameters;
      [Env] may answer differently after every event.  The order and capacity of
      tokio's channels and the fairness of its locks are part of the model.

    ** What is not modelled

    The receiving of file descriptors (the code has none); log output, among it
    [debug_rules]; the parsing of the command line by clap and the set-up of
    logging in [main.rs]; of the unit tests, the random GUID and the derived
    Debug output; the integration tests that start bus daemons; the build
    script, which sets the version text of a log line; signals other than Ctrl-C
    and panics of the main thread.  The properties over runs
    of [Multiplexer.run] that the files on interleaving do not restate (the
    exact number of references to a rule, connected owners of
    queued names) hold of handlers that are not interrupted; [Race] and
    [RaceRules] show that two of them fail otherwise. *)

From stdpp Require Export base tactics option list numbers strings gmap sets fin_maps fin_map_dom.
From Stdlib Require Export ZArith Lia.

(** ** Fallible code: Rust's [Result] *)

Inductive result (E A : Type) : Type :=
| Ok (a : A)
| Err (e : E).
Arguments Ok {E A} a.
Arguments Err {E A} e.

Declare Scope rust_scope.
Delimit Scope rust_scope with rust.
Open Scope rust_scope.

(** The [?] operator: continue with the value of [Ok], return an [Err] early. *)
Notation "'let?' x ':=' c 'in' k" :=
  (match c with Ok x => k | Err e => Err e end)
  (at level 10, x pattern, c at level 100, k at level 200) : rust_scope.

Definition is_ok {E A} (r : result E A) : bool :=
  match r with Ok _ => true | Err _ => false end.

(** ** Machine integers *)

Definition u8_modulus : Z := 2 ^ 8.
Definition u32_modulus : Z := 2 ^ 32.
Definition u64_modulus : Z := 2 ^ 64.
Definition wrap8 (z : Z) : Z := z mod u8_modulus.
Definition wrap32 (z : Z) : Z := z mod u32_modulus.
Definition wrap64 (z : Z) : Z := z mod u64_modulus.

(** ** Labelled transition systems

    A component that changes state is run as a sequence of labelled steps; the
    label carries the call and its reply, so that two systems with the same
    traces answer every client alike. *)

Section Lts.
Context {S L : Type} (step : S -> L -> S -> Prop).

Inductive trace : S -> list L -> S -> Prop :=
| trace_nil s : trace s [] s
| trace_cons s l s' ls s'' : step s l s' -> trace s' ls s'' -> trace s (l :: ls) s''.

Lemma trace_invariant (I : S -> Prop) :
  (forall s l s', I s -> step s l s' -> I s') ->
  forall s ls s', I s -> trace s ls s' -> I s'.
Proof. intros Hstep s ls s' HI Htr. induction Htr; eauto. Qed.

Lemma trace_app s ls s' ls' s'' :
  trace s ls s' -> trace s' ls' s'' -> trace s (ls ++ ls') s''.
Proof. intros Htr Htr'. induction Htr; simpl; eauto using trace. Qed.
End Lts.

(** A simulation of single steps lifts to traces with the same labels. *)
Lemma trace_simulation {S1 S2 L} (step1 : S1 -> L -> S1 -> Prop) (step2 : S2 -> L -> S2 -> Prop)
    (R : S1 -> S2 -> Prop) :
  (forall s1 l s1' s2, R s1 s2 -> step1 s1 l s1' -> exists s2', step2 s2 l s2' /\ R s1' s2') ->
  forall s1 ls s1' s2, R s1 s2 -> trace step1 s1 ls s1' ->
  exists s2', trace step2 s2 ls s2' /\ R s1' s2'.
Proof.
  intros Hsim s1 ls s1' s2 HR Htr. revert s2 HR.
  induction Htr as [s|s l t ls u Hst Htr IH]; intros s2 HR.
  - eauto using trace.
  - destruct (Hsim _ _ _ _ HR Hst) as (t2 & Hst2 & HR2).
    destruct (IH _ HR2) as (u2 & Htr2 & HR3). eauto using trace.
Qed.

Lemma trace_mono {S L} (step1 step2 : S -> L -> S -> Prop) s ls s' :
  (forall s l s', step1 s l s' -> step2 s l s') -> trace step1 s ls s' -> trace step2 s ls s'.
Proof. intros Hst. induction 1; econstructor; eauto. Qed.

(** ** Automation *)

Create HintDb mux.

(** Case analysis on the next [match] or [if] of the goal or of a hypothesis. *)
Ltac split_match :=
  repeat (case_match; simplify_eq/=).

(** Turn boolean tests of the code into the propositions they decide. *)
Ltac bool_facts :=
  repeat match goal with
  | H : (_ =? _)%Z = true |- _ => apply Z.eqb_eq in H
  | H : (_ =? _)%Z = false |- _ => apply Z.eqb_neq in H
  | H : (_ <? _)%nat = true |- _ => apply Nat.ltb_lt in H
  | H : (_ <? _)%nat = false |- _ => apply Nat.ltb_ge in H
  | H : _ && _ = true |- _ => apply andb_true_iff in H as [? ?]
  | H : _ || _ = false |- _ => apply orb_false_iff in H as [? ?]
  | H : negb _ = true |- _ => apply negb_true_iff in H
  | H : negb _ = false |- _ => apply negb_false_iff in H
  end.

(** ** Generic lemmas *)

Lemma lookup_fold_delete {A} (ns : list string) (m : gmap string A) (n : string) :
  fold_left (fun m n => delete n m) ns m !! n = if decide (n ∈ ns) then None else m !! n.
Proof.
  revert m. induction ns as [|k ns IH]; intros m; cbn [fold_left].
  - case_decide; [set_solver | done].
  - rewrite IH. destruct (decide (n = k)) as [->|Hne].
    + rewrite lookup_delete_eq. repeat case_decide; set_solver.
    + rewrite lookup_delete_ne by done. repeat case_decide; set_solver.
Qed.

Section Filter.
Context {A : Type} (P : A -> Prop) `{!forall x, Decision (P x)}.

Lemma list_filter_all_id (l : list A) : Forall P l -> filter P l = l.
Proof. induction 1; [done |]. rewrite filter_cons_True by done. by f_equal. Qed.

Lemma list_filter_all_nil (l : list A) : Forall (fun x => ~ P x) l -> filter P l = [].
Proof. induction 1; [done |]. by rewrite filter_cons_False. Qed.
End Filter.

(** Filtering by a boolean test respects permutations. *)
#[export] Instance List_filter_Permutation {A} (f : A -> bool) :
  Proper (Permutation ==> Permutation) (List.filter f).
Proof.
  intros l l' Hp. induction Hp as [|x l l' Hp IH|x y l|l1 l2 l3 _ IH1 _ IH2]; simpl.
  - done.
  - by destruct (f x); [constructor |].
  - destruct (f x), (f y); done || constructor.
  - by etrans.
Qed.

(** [get_mut] as an insertion. *)
Lemma alter_as_insert `{Countable K} {A} (f : A -> A) (m : gmap K A) (k : K) (a : A) :
  m !! k = Some a -> alter f k m = <[k := f a]> m.
Proof.
  intros Ha. apply map_eq. intros k'. destruct (decide (k = k')) as [<-|Hne].
  - by rewrite lookup_alter_eq, lookup_insert_eq, Ha.
  - by rewrite lookup_alter_ne, lookup_insert_ne.
Qed.

Lemma alter_absent `{Countable K} {A} (f : A -> A) (m : gmap K A) (k : K) :
  m !! k = None -> alter f k m = m.
Proof. intros Hk. apply alter_id. congruence. Qed.

(** How many entries satisfy a predicate, when one entry changes. *)
Lemma size_filter_set `{Countable K} {A} (P : A -> Prop) `{!forall a, Decision (P a)} (m : gmap K A) k a b :
  m !! k = Some a ->
  (size (filter (fun kv => P kv.2) (<[k := b]> m)) + (if decide (P a) then 1 else 0)
   = size (filter (fun kv => P kv.2) m) + (if decide (P b) then 1 else 0))%nat.
Proof.
  intros Ha.
  assert (forall c (m' : gmap K A), m' !! k = None ->
    (size (filter (fun kv => P kv.2) (<[k := c]> m'))
     = size (filter (fun kv => P kv.2) m') + (if decide (P c) then 1 else 0))%nat) as Hins.
  { intros c m' Hm. destruct (decide (P c)).
    - rewrite map_filter_insert_True, map_size_insert_None; [lia | | done].
      apply map_lookup_filter_None. auto.
    - rewrite map_filter_insert_False, delete_id by done. lia. }
  rewrite <- (insert_delete_id m k a Ha) at 2. rewrite <- (insert_delete_eq m k b).
  rewrite !Hins by apply lookup_delete_eq. lia.
Qed.
