(* ===== verification/RustStr.v ===== *)
(** * The [str] operations the multiplexer uses

    A Rust [&str] is its UTF-8 bytes: here a [string], one [ascii] per byte.
    Each definition follows the documented behaviour of the standard library
    method it is named after, on bytes. *)

From S2P Require Import Prelude.
From Stdlib Require Import Ascii.

(** ** Prefixes and suffixes *)

Fixpoint strip_prefix (p s : string) : option string :=
  match p, s with
  | EmptyString, _ => Some s
  | String a p', String b s' => if Ascii.eqb a b then strip_prefix p' s' else None
  | String _ _, EmptyString => None
  end.

Definition starts_with (s p : string) : bool :=
  match strip_prefix p s with Some _ => true | None => false end.

Fixpoint ends_with (s p : string) : bool :=
  String.eqb s p ||
  match s with
  | EmptyString => false
  | String _ s' => ends_with s' p
  end.

Definition is_empty (s : string) : bool :=
  match s with EmptyString => true | String _ _ => false end.

Lemma strip_prefix_Some p s r : strip_prefix p s = Some r <-> s = p +:+ r.
Proof.
  revert s. induction p as [|a p IH]; intros s; simpl.
  - split; [by intros [= ->] | by intros ->].
  - destruct s as [|b s]; [split; [done | intros H; discriminate H] |].
    destruct (Ascii.eqb_spec a b) as [->|Hne].
    + rewrite IH. split; [by intros -> | intros H; by injection H].
    + split; [done | intros H; injection H; congruence].
Qed.

Lemma starts_with_iff s p : starts_with s p = true <-> exists r, s = p +:+ r.
Proof.
  unfold starts_with. split.
  - destruct (strip_prefix p s) as [r|] eqn:E; [| done]. intros _. exists r.
    by apply strip_prefix_Some.
  - intros [r Hr]. apply strip_prefix_Some in Hr. by rewrite Hr.
Qed.

Lemma ends_with_iff s p : ends_with s p = true <-> exists r, s = r +:+ p.
Proof.
  revert p. induction s as [|a s IH]; intros p; cbn [ends_with]; rewrite orb_true_iff, String.eqb_eq.
  - split.
    + intros [->|H]; [by exists "" | discriminate].
    + intros [[|b r] Hr]; [by left | discriminate Hr].
  - rewrite IH. split.
    + intros [->|[r ->]]; [by exists "" | by exists (String a r)].
    + intros [[|b r] Hr]; [by left |]. injection Hr as -> ->. right. by exists r.
Qed.

(** ** Slices and searches *)

(** [s.find(c)]: the byte index of the first [c]. *)
Fixpoint find_char (c : ascii) (s : string) : option nat :=
  match s with
  | EmptyString => None
  | String a s' => if Ascii.eqb a c then Some 0 else S <$> find_char c s'
  end.

(** [&s[..n]] and [&s[n..]], for [n] within the string. *)
Fixpoint str_take (n : nat) (s : string) : string :=
  match n, s with
  | S n', String a s' => String a (str_take n' s')
  | _, _ => ""
  end.

Fixpoint str_drop (n : nat) (s : string) : string :=
  match n, s with
  | O, _ => s
  | S n', String _ s' => str_drop n' s'
  | S _, EmptyString => ""
  end.

Fixpoint str_contains_char (c : ascii) (s : string) : bool :=
  match s with
  | EmptyString => false
  | String a s' => Ascii.eqb a c || str_contains_char c s'
  end.

(** ** White space

    [trim] removes characters with the Unicode property White_Space.  In UTF-8
    these are the bytes 9 to 13 and 32, and the sequences C2 85, C2 A0,
    E1 9A 80, E2 80 80 to E2 80 8A, E2 80 A8, E2 80 A9, E2 80 AF, E2 81 9F and
    E3 80 80. *)

Definition byte_val (c : ascii) : Z := Z.of_N (N_of_ascii c).

Definition in_range (lo hi z : Z) : bool := (lo <=? z)%Z && (z <=? hi)%Z.

Definition ws1 (a : ascii) : bool :=
  let x := byte_val a in in_range 9 13 x || (x =? 32)%Z.

Definition ws2 (a b : ascii) : bool :=
  (byte_val a =? 0xC2)%Z && ((byte_val b =? 0x85)%Z || (byte_val b =? 0xA0)%Z).

Definition ws3 (a b c : ascii) : bool :=
  let x := byte_val a in let y := byte_val b in let z := byte_val c in
  ((x =? 0xE1)%Z && (y =? 0x9A)%Z && (z =? 0x80)%Z) ||
  ((x =? 0xE2)%Z && (y =? 0x80)%Z &&
     (in_range 0x80 0x8A z || (z =? 0xA8)%Z || (z =? 0xA9)%Z || (z =? 0xAF)%Z)) ||
  ((x =? 0xE2)%Z && (y =? 0x81)%Z && (z =? 0x9F)%Z) ||
  ((x =? 0xE3)%Z && (y =? 0x80)%Z && (z =? 0x80)%Z).

Fixpoint trim_start (s : string) : string :=
  match s with
  | EmptyString => ""
  | String a s1 =>
      if ws1 a then trim_start s1
      else match s1 with
           | EmptyString => s
           | String b s2 =>
               if ws2 a b then trim_start s2
               else match s2 with
                    | EmptyString => s
                    | String c s3 => if ws3 a b c then trim_start s3 else s
                    end
           end
  end.

(** A string is cut where only white space is left. *)
Fixpoint trim_end (s : string) : string :=
  match s with
  | EmptyString => ""
  | String a s' => if is_empty (trim_start s) then "" else String a (trim_end s')
  end.

Definition trim (s : string) : string := trim_end (trim_start s).

(** ** Replacement *)

(** [s.trim_start_matches(c)]. *)
Fixpoint trim_start_matches (c : ascii) (s : string) : string :=
  match s with
  | EmptyString => ""
  | String a s' => if Ascii.eqb a c then trim_start_matches c s' else s
  end.

(** [s.replace(c, to)] for a character [c]. *)
Fixpoint replace_char (c : ascii) (to : string) (s : string) : string :=
  match s with
  | EmptyString => ""
  | String a s' => (if Ascii.eqb a c then to else String a "") +:+ replace_char c to s'
  end.

(** A UTF-8 continuation byte does not start a character. *)
Definition is_continuation (a : ascii) : bool := in_range 0x80 0xBF (byte_val a).

(** [s.replace("", to)] inserts [to] before every character and at the end. *)
Fixpoint replace_empty (to : string) (s : string) : string :=
  match s with
  | EmptyString => to
  | String a s' => (if is_continuation a then "" else to) +:+ String a (replace_empty to s')
  end.

(** [s.replace(from, to)] for a string [from]: matches are found from left to
    right and do not overlap.  [skip] counts the bytes of the current match
    that are still to be passed over. *)
Fixpoint replace_from (skip : nat) (from to s : string) : string :=
  match s with
  | EmptyString => ""
  | String a s' =>
      match skip with
      | S k => replace_from k from to s'
      | O => if starts_with s from
             then to +:+ replace_from (String.length from - 1) from to s'
             else String a (replace_from 0 from to s')
      end
  end.

Definition str_replace (from to s : string) : string :=
  if is_empty from then replace_empty to s else replace_from 0 from to s.

(** ** Numbers *)

Definition digit_val (c : ascii) : option Z :=
  let d := (byte_val c - 48)%Z in if in_range 0 9 d then Some d else None.

Fixpoint parse_digits (max acc : Z) (s : string) : option Z :=
  match s with
  | EmptyString => Some acc
  | String c s' =>
      match digit_val c with
      | None => None
      | Some d =>
          let acc' := (acc * 10 + d)%Z in
          if (max <? acc')%Z then None else parse_digits max acc' s'
      end
  end.

(** [s.parse::<uN>()] with largest value [max]: at least one digit, an optional
    leading [+]; [None] stands for the [ParseIntError]. *)
Definition parse_uint (max : Z) (s : string) : option Z :=
  match s with
  | EmptyString => None
  | String c s' =>
      if Ascii.eqb c "+" then
        if is_empty s' then None else parse_digits max 0 s'
      else parse_digits max 0 s
  end.

Definition digit_char (d : Z) : ascii := ascii_of_N (Z.to_N (48 + d)).

(** [n.to_string()]: the digits of [n], most significant first; [fuel] bounds
    their number. *)
Fixpoint dec_digits (fuel : nat) (n : Z) (acc : string) : string :=
  match fuel with
  | O => acc
  | S fuel' =>
      let acc' := String (digit_char (n mod 10)) acc in
      if (n / 10 =? 0)%Z then acc' else dec_digits fuel' (n / 10) acc'
  end.

(** A [u64] has at most 20 digits. *)
Definition to_dec (n : Z) : string := dec_digits 20 n "".

Example trim_ex : trim "  type='signal' ,  " = "type='signal' ,". Proof. reflexivity. Qed.
Example replace_ex : str_replace "1_88" "mux_3" "/r/1_88/t" = "/r/mux_3/t". Proof. reflexivity. Qed.
Example to_dec_ex : to_dec 1000 = "1000" /\ to_dec 0 = "0". Proof. done. Qed.
Example parse_uint_ex :
  parse_uint 255 "255" = Some 255%Z /\ parse_uint 255 "256" = None /\ parse_uint 255 "+7" = Some 7%Z /\
  parse_uint 255 "" = None /\ parse_uint 255 "-1" = None.
Proof. done. Qed.

(** ** Lemmas on slices *)

Lemma str_app_cons a s t : String a s +:+ t = String a (s +:+ t).
Proof. done. Qed.

Lemma str_app_nil_l s : "" +:+ s = s.
Proof. done. Qed.

Lemma str_app_nil_r s : s +:+ "" = s.
Proof. induction s as [|a s IH]; [done |]. by rewrite str_app_cons, IH. Qed.

Lemma str_app_assoc s t u : (s +:+ t) +:+ u = s +:+ (t +:+ u).
Proof. induction s as [|a s IH]; [done |]. by rewrite !str_app_cons, IH. Qed.

Lemma str_length_app s t : String.length (s +:+ t) = (String.length s + String.length t)%nat.
Proof. induction s as [|a s IH]; [done |]. rewrite str_app_cons. simpl. by rewrite IH. Qed.

Lemma str_take_app p s : str_take (String.length p) (p +:+ s) = p.
Proof. induction p as [|a p IH]; [by destruct s |]. rewrite str_app_cons. simpl. by rewrite IH. Qed.

Lemma str_drop_app p s : str_drop (String.length p) (p +:+ s) = s.
Proof. induction p as [|a p IH]; [done |]. rewrite str_app_cons. by simpl. Qed.

Lemma str_drop_S_app p c s : str_drop (S (String.length p)) (p +:+ String c s) = s.
Proof. induction p as [|a p IH]; [done |]. rewrite str_app_cons. by simpl. Qed.

Lemma str_drop_length n s : (String.length (str_drop n s) <= String.length s)%nat.
Proof. revert s. induction n as [|n IH]; intros [|a s]; simpl; try lia. specialize (IH s). lia. Qed.

Lemma find_char_app c p s :
  str_contains_char c p = false -> find_char c (p +:+ String c s) = Some (String.length p).
Proof.
  induction p as [|a p IH]; simpl; intros H.
  - by rewrite Ascii.eqb_refl.
  - apply orb_false_iff in H as [Ha Hp]. by rewrite Ha, (IH Hp).
Qed.

Lemma find_char_None c s : find_char c s = None <-> str_contains_char c s = false.
Proof.
  induction s as [|a s IH]; simpl; [done |].
  destruct (Ascii.eqb a c); simpl; [done |]. rewrite <- IH. by rewrite fmap_None.
Qed.

Lemma find_char_split c s i :
  find_char c s = Some i ->
  exists p r, s = p +:+ String c r /\ i = String.length p /\ str_contains_char c p = false.
Proof.
  revert i. induction s as [|a s IH]; simpl; intros i H; [done |].
  destruct (Ascii.eqb_spec a c) as [->|Hne]; simplify_eq.
  - by exists "", s.
  - apply fmap_Some in H as (j & Hj & ->). destruct (IH _ Hj) as (p & r & -> & -> & Hp).
    exists (String a p), r. split_and!; [done | done |]. simpl. rewrite Hp.
    by destruct (Ascii.eqb_spec a c).
Qed.

Lemma str_contains_char_app c s t :
  str_contains_char c (s +:+ t) = str_contains_char c s || str_contains_char c t.
Proof. induction s as [|a s IH]; [done |]. rewrite str_app_cons. simpl. by rewrite IH, orb_assoc. Qed.

(** ** Lemmas on white space *)

(** The rest of a string that starts with a white-space character. *)
Definition strip_ws (s : string) : option string :=
  match s with
  | EmptyString => None
  | String a s1 =>
      if ws1 a then Some s1
      else match s1 with
           | EmptyString => None
           | String b s2 =>
               if ws2 a b then Some s2
               else match s2 with
                    | EmptyString => None
                    | String c s3 => if ws3 a b c then Some s3 else None
                    end
           end
  end.

Lemma trim_start_unfold s :
  trim_start s = match strip_ws s with Some r => trim_start r | None => s end.
Proof.
  destruct s as [|a [|b [|c s]]]; simpl; try done; destruct (ws1 a); try done;
    destruct (ws2 a b); try done. by destruct (ws3 a b c).
Qed.

Lemma strip_ws_length s r : strip_ws s = Some r -> (String.length r < String.length s)%nat.
Proof.
  destruct s as [|a [|b [|c s]]]; simpl; intros H; repeat case_match; simplify_eq; simpl; lia.
Qed.

(** Induction on the removal of white space. *)
Lemma trim_start_ind (P : string -> string -> Prop) :
  (forall s, strip_ws s = None -> P s s) ->
  (forall s r, strip_ws s = Some r -> P r (trim_start r) -> P s (trim_start r)) ->
  forall s, P s (trim_start s).
Proof.
  intros H0 H1. assert (forall n s, String.length s < n -> P s (trim_start s))%nat as H.
  { induction n as [|n IH]; intros s Hs; [lia |]. rewrite trim_start_unfold.
    destruct (strip_ws s) as [r|] eqn:E; [| by apply H0].
    apply H1; [done |]. apply IH. apply strip_ws_length in E. lia. }
  intros s. apply (H (S (String.length s))). lia.
Qed.

Lemma trim_start_length s : (String.length (trim_start s) <= String.length s)%nat.
Proof.
  apply (trim_start_ind (fun s t => String.length t <= String.length s)%nat); [lia |].
  intros s' r E Hr. apply strip_ws_length in E. lia.
Qed.

Lemma trim_start_idem s : trim_start (trim_start s) = trim_start s.
Proof.
  apply (trim_start_ind (fun _ t => trim_start t = t)); [| done].
  intros s' E. by rewrite trim_start_unfold, E.
Qed.

Lemma trim_end_length s : (String.length (trim_end s) <= String.length s)%nat.
Proof. induction s as [|a s IH]; cbn [trim_end]; [done |]. case_match; simpl; lia. Qed.

Lemma trim_length s : (String.length (trim s) <= String.length s)%nat.
Proof. unfold trim. pose proof (trim_end_length (trim_start s)). pose proof (trim_start_length s). lia. Qed.

(** Tokens of printable ASCII characters are not touched by [trim]. *)
Definition ascii_graph (a : ascii) : bool := in_range 33 126 (byte_val a).

Fixpoint all_chars (f : ascii -> bool) (s : string) : bool :=
  match s with
  | EmptyString => true
  | String a s' => f a && all_chars f s'
  end.

Lemma all_chars_app f s t : all_chars f (s +:+ t) = all_chars f s && all_chars f t.
Proof. induction s as [|a s IH]; [done |]. rewrite str_app_cons. simpl. by rewrite IH, andb_assoc. Qed.

Lemma strip_ws_graph a s : ascii_graph a = true -> strip_ws (String a s) = None.
Proof.
  unfold ascii_graph, in_range. intros [H1%Z.leb_le H2%Z.leb_le]%andb_true_iff.
  assert (ws1 a = false) as E1.
  { unfold ws1, in_range. apply orb_false_iff. split; [| apply Z.eqb_neq; lia].
    apply andb_false_iff. right. apply Z.leb_gt. lia. }
  simpl. rewrite E1. destruct s as [|b s]; [done |].
  assert (forall v, (126 < v)%Z -> (byte_val a =? v)%Z = false) as Hne by (intros; apply Z.eqb_neq; lia).
  unfold ws2. rewrite Hne by lia. simpl. destruct s as [|c s]; [done |].
  unfold ws3. rewrite !Hne by lia. done.
Qed.

Lemma trim_start_graph a s : ascii_graph a = true -> trim_start (String a s) = String a s.
Proof. intros H. by rewrite trim_start_unfold, strip_ws_graph. Qed.

Lemma trim_end_graph s : all_chars ascii_graph s = true -> trim_end s = s.
Proof.
  induction s as [|a s IH]; [done |]. cbn [all_chars trim_end].
  intros [Ha Hs]%andb_true_iff. rewrite trim_start_graph by done. simpl. by rewrite IH.
Qed.

Lemma trim_graph s : all_chars ascii_graph s = true -> trim s = s.
Proof.
  intros H. unfold trim. destruct s as [|a s]; [done |].
  rewrite trim_start_graph; [by apply trim_end_graph |].
  by apply andb_true_iff in H as [? _].
Qed.

(** ** Lemmas on numbers *)

Lemma digit_val_char d : (0 <= d <= 9)%Z -> digit_val (digit_char d) = Some d.
Proof.
  intros H. assert (d = 0 \/ d = 1 \/ d = 2 \/ d = 3 \/ d = 4 \/ d = 5 \/ d = 6 \/ d = 7 \/
    d = 8 \/ d = 9)%Z as Hd by lia. by repeat destruct Hd as [->|Hd]; [..|subst].
Qed.

Lemma parse_digits_dec max fuel n acc :
  (0 < fuel)%nat -> (0 <= n < 10 ^ Z.of_nat fuel)%Z -> (n <= max)%Z ->
  parse_digits max 0 (dec_digits fuel n acc) = parse_digits max n acc.
Proof.
  revert n acc. induction fuel as [|fuel IH]; intros n acc Hf Hn Hmax; [lia |].
  cbn [dec_digits]. pose proof (Z.mod_pos_bound n 10 ltac:(lia)).
  pose proof (Z.div_mod n 10 ltac:(lia)).
  destruct (Z.eqb_spec (n / 10) 0) as [E|E].
  - cbn [parse_digits]. rewrite digit_val_char by lia.
    replace (0 * 10 + n mod 10)%Z with n by lia.
    by rewrite (proj2 (Z.ltb_ge max n)) by lia.
  - pose proof (Z.div_pos n 10 ltac:(lia) ltac:(lia)).
    rewrite IH.
    + cbn [parse_digits]. rewrite digit_val_char by lia.
      replace (n / 10 * 10 + n mod 10)%Z with n by lia.
      by rewrite (proj2 (Z.ltb_ge max n)) by lia.
    + destruct fuel; [| lia]. simpl in Hn. lia.
    + rewrite Nat2Z.inj_succ, Z.pow_succ_r in Hn by lia. lia.
    + lia.
Qed.

(** Decimal round trip. *)
Lemma parse_uint_to_dec max n :
  (0 <= n <= max)%Z -> (n < 10 ^ 20)%Z -> parse_uint max (to_dec n) = Some n.
Proof.
  intros Hn Hb. assert (parse_digits max 0 (to_dec n) = Some n) as H.
  { unfold to_dec. rewrite parse_digits_dec; [done | lia | | lia]. split; [lia | exact Hb]. }
  unfold parse_uint. destruct (to_dec n) as [|c s] eqn:E.
  - simpl in H. assert (n = 0)%Z as -> by congruence. done.
  - destruct (Ascii.eqb_spec c "+") as [->|]; [| done]. by vm_compute in H.
Qed.

Lemma to_dec_inj n m :
  (0 <= n < 10 ^ 20)%Z -> (0 <= m < 10 ^ 20)%Z -> to_dec n = to_dec m -> n = m.
Proof.
  intros Hn Hm E.
  pose proof (parse_uint_to_dec (10 ^ 20) n ltac:(lia) ltac:(lia)) as H1.
  pose proof (parse_uint_to_dec (10 ^ 20) m ltac:(lia) ltac:(lia)) as H2.
  rewrite E in H1. congruence.
Qed.

Lemma parse_uint_range max s n : (0 <= max)%Z -> parse_uint max s = Some n -> (0 <= n <= max)%Z.
Proof.
  intros Hmax. assert (forall s acc, (0 <= acc <= max)%Z -> parse_digits max acc s = Some n ->
    (0 <= n <= max)%Z) as H.
  { clear s. induction s as [|c s IH]; intros acc Ha; simpl; [intros [= <-]; lia |].
    unfold digit_val, in_range.
    destruct ((0 <=? _)%Z && _) eqn:E; [| done]. apply andb_true_iff in E as [?%Z.leb_le ?%Z.leb_le].
    destruct (max <? _)%Z eqn:Hlt; [done |]. apply Z.ltb_ge in Hlt. apply IH. lia. }
  unfold parse_uint. destruct s as [|c s]; [done |].
  case_match; [case_match; [done |] |]; apply H; lia.
Qed.
