(* ===== verification/Routing.v ===== *)
(** * The routing table (src/src/routing.rs)

    Decides for every destination whether a message goes to the container bus
    or to the host bus.  The table holds the names owned on either bus, the
    host's activatable names and a registry of unique names. *)

From S2P Require Import Prelude RustStr.

(** ** Data *)

Inductive Route := Container | Host.

#[export] Instance Route_eq_dec : EqDecision Route.
Proof. solve_decision. Defined.
#[export] Instance Route_countable : Countable Route.
Proof.
  refine (inj_countable' (fun r => match r with Container => true | Host => false end)
    (fun b : bool => if b then Container else Host) _).
  by intros [].
Defined.

Record UniqueNameRegistry := mkUniqueNameRegistry {
  names : gmap string Route;
}.

Definition UniqueNameRegistry_new : UniqueNameRegistry := mkUniqueNameRegistry ∅.

Definition register (name : string) (route : Route) (self : UniqueNameRegistry)
    : UniqueNameRegistry :=
  mkUniqueNameRegistry (<[name := route]> (names self)).

Definition unregister (name : string) (self : UniqueNameRegistry) : UniqueNameRegistry :=
  mkUniqueNameRegistry (delete name (names self)).

Definition registry_route_for (name : string) (self : UniqueNameRegistry) : option Route :=
  names self !! name.

Record RoutingTable := mkRoutingTable {
  container_names : gset string;
  host_names : gset string;
  host_activatable : gset string;
  unique_names : UniqueNameRegistry;
}.

Definition RoutingTable_new : RoutingTable :=
  mkRoutingTable ∅ ∅ ∅ UniqueNameRegistry_new.

Definition RoutingTable_default : RoutingTable := RoutingTable_new.

(** [impl Display for Route] *)
Definition route_text (route : Route) : string :=
  match route with
  | Container => "Container"
  | Host => "Host"
  end.

(** ** Lookup *)

Definition route_for_unique_name (name : string) (self : RoutingTable) : Route :=
  default Host (registry_route_for name (unique_names self)).

Definition route_for (destination : string) (self : RoutingTable) : Route :=
  if starts_with destination ":" then route_for_unique_name destination self
  else if bool_decide (destination ∈ container_names self) then Container
  else if bool_decide (destination ∈ host_names self) then Host
  else if bool_decide (destination ∈ host_activatable self) then Host
  else Host.

(** ** Updates *)

Definition register_unique_name (name : string) (route : Route) (self : RoutingTable)
    : RoutingTable :=
  mkRoutingTable (container_names self) (host_names self) (host_activatable self)
    (register name route (unique_names self)).

Definition unregister_unique_name (name : string) (self : RoutingTable) : RoutingTable :=
  mkRoutingTable (container_names self) (host_names self) (host_activatable self)
    (unregister name (unique_names self)).

Definition on_container_name_change (name old_owner new_owner : string) (self : RoutingTable)
    : RoutingTable :=
  let uniq := if negb (is_empty old_owner) then unregister old_owner (unique_names self)
              else unique_names self in
  if is_empty new_owner then
    mkRoutingTable (container_names self ∖ {[name]}) (host_names self)
      (host_activatable self) uniq
  else
    mkRoutingTable ({[name]} ∪ container_names self) (host_names self)
      (host_activatable self) (register new_owner Container uniq).

Definition on_host_name_change (name old_owner new_owner : string) (self : RoutingTable)
    : RoutingTable :=
  let uniq := if negb (is_empty old_owner) then unregister old_owner (unique_names self)
              else unique_names self in
  if is_empty new_owner then
    mkRoutingTable (container_names self) (host_names self ∖ {[name]})
      (host_activatable self) uniq
  else
    mkRoutingTable (container_names self) ({[name]} ∪ host_names self)
      (host_activatable self) (register new_owner Host uniq).

Definition set_container_names (ns : list string) (self : RoutingTable) : RoutingTable :=
  mkRoutingTable (list_to_set ns) (host_names self) (host_activatable self) (unique_names self).

Definition set_host_names (ns : list string) (self : RoutingTable) : RoutingTable :=
  mkRoutingTable (container_names self) (list_to_set ns) (host_activatable self)
    (unique_names self).

Definition set_host_activatable (ns : list string) (self : RoutingTable) : RoutingTable :=
  mkRoutingTable (container_names self) (host_names self) (list_to_set ns) (unique_names self).

(** ** Queries *)

(** [all_names] returns the set as a [Vec] in hash order; here the order of
    [elements]. *)
Definition all_names (self : RoutingTable) : list string :=
  elements (container_names self ∪ host_names self).

Definition table_name_has_owner (name : string) (self : RoutingTable) : bool :=
  bool_decide (name ∈ container_names self) || bool_decide (name ∈ host_names self).

Definition get_name_owner_route (name : string) (self : RoutingTable) : option Route :=
  if bool_decide (name ∈ container_names self) then Some Container
  else if bool_decide (name ∈ host_names self) then Some Host
  else None.

Definition is_container_name (name : string) (self : RoutingTable) : bool :=
  bool_decide (name ∈ container_names self).

Definition is_host_name (name : string) (self : RoutingTable) : bool :=
  bool_decide (name ∈ host_names self).

(** ** The contract: the table follows the two buses

    A bus maps the names it knows to the unique name of their owner.  The
    signal [NameOwnerChanged name old new] reports a change on bus [route]; an
    empty string stands for no owner. *)

Record Buses := mkBuses {
  bus_container : gmap string string;
  bus_host : gmap string string;
}.

Definition bus_of (route : Route) (b : Buses) : gmap string string :=
  match route with Container => bus_container b | Host => bus_host b end.

Record NameOwnerChange := mkNameOwnerChange {
  noc_route : Route;
  noc_name : string;
  noc_old : string;
  noc_new : string;
}.

(** A change on one bus, as the bus daemon announces it. *)
Definition bus_change (b : Buses) (e : NameOwnerChange) : Buses :=
  let upd m := if is_empty (noc_new e) then delete (noc_name e) m
               else <[noc_name e := noc_new e]> m in
  match noc_route e with
  | Container => mkBuses (upd (bus_container b)) (bus_host b)
  | Host => mkBuses (bus_container b) (upd (bus_host b))
  end.

(** What the multiplexer's bus handler does with the signal. *)
Definition apply_change (t : RoutingTable) (e : NameOwnerChange) : RoutingTable :=
  match noc_route e with
  | Container => on_container_name_change (noc_name e) (noc_old e) (noc_new e) t
  | Host => on_host_name_change (noc_name e) (noc_old e) (noc_new e) t
  end.

(** The table agrees with the buses on every well-known name. *)
Definition tracks (t : RoutingTable) (b : Buses) : Prop :=
  forall n, starts_with n ":" = false ->
    (n ∈ container_names t <-> is_Some (bus_container b !! n)) /\
    (n ∈ host_names t <-> is_Some (bus_host b !! n)).

(** [sync_routing_table] (multiplexer.rs): the table built from the name lists
    of the two buses. *)
Definition not_unique (n : string) : bool := negb (starts_with n ":").

Definition sync_routing_table {E} (container_list host_list activatable : result E (list string))
    (table : RoutingTable) : result E RoutingTable :=
  let? container := container_list in
  let table := set_container_names (List.filter not_unique container) table in
  let? host := host_list in
  let table := set_host_names (List.filter not_unique host) table in
  let? act := activatable in
  Ok (set_host_activatable act table).

(** ** Lemmas *)

Lemma route_for_well_known n t :
  starts_with n ":" = false ->
  route_for n t = if bool_decide (n ∈ container_names t) then Container else Host.
Proof. intros Hn. unfold route_for. rewrite Hn. split_match; done. Qed.

Lemma apply_change_container_names t e n :
  n ∈ container_names (apply_change t e) <->
  match noc_route e with
  | Container => if is_empty (noc_new e) then n ∈ container_names t /\ n <> noc_name e
                 else n = noc_name e \/ n ∈ container_names t
  | Host => n ∈ container_names t
  end.
Proof.
  destruct e as [[] name old new]; unfold apply_change, on_container_name_change, on_host_name_change;
    destruct new; simpl; set_solver.
Qed.

Lemma apply_change_host_names t e n :
  n ∈ host_names (apply_change t e) <->
  match noc_route e with
  | Host => if is_empty (noc_new e) then n ∈ host_names t /\ n <> noc_name e
            else n = noc_name e \/ n ∈ host_names t
  | Container => n ∈ host_names t
  end.
Proof.
  destruct e as [[] name old new]; unfold apply_change, on_container_name_change, on_host_name_change;
    destruct new; simpl; set_solver.
Qed.

Lemma bus_update_is_Some (m : gmap string string) (k v n : string) :
  is_Some ((if is_empty v then delete k m else <[k := v]> m) !! n) <->
  if is_empty v then is_Some (m !! n) /\ n <> k else n = k \/ is_Some (m !! n).
Proof.
  destruct v; simpl.
  - rewrite lookup_delete_is_Some. naive_solver.
  - rewrite lookup_insert_is_Some. destruct (decide (n = k)); naive_solver.
Qed.

Lemma tracks_apply_change t b e : tracks t b -> tracks (apply_change t e) (bus_change b e).
Proof.
  intros H n Hn. destruct (H n Hn) as [Hc Hh].
  rewrite apply_change_container_names, apply_change_host_names.
  unfold bus_change. destruct e as [[] k old new]; simpl; rewrite bus_update_is_Some;
    destruct (is_empty new); rewrite Hc, Hh; split; done.
Qed.

Lemma tracks_changes es t b :
  tracks t b -> tracks (fold_left apply_change es t) (fold_left bus_change es b).
Proof.
  revert t b. induction es as [|e es IH]; intros t b H; [done |].
  apply IH. by apply tracks_apply_change.
Qed.

(** The two name lists are what [ListNames] returns: the keys of the bus. *)
Lemma tracks_sync {E} cl hl al b t t' :
  (forall n, n ∈ cl <-> is_Some (bus_container b !! n)) ->
  (forall n, n ∈ hl <-> is_Some (bus_host b !! n)) ->
  sync_routing_table (E := E) (Ok cl) (Ok hl) (Ok al) t = Ok t' ->
  tracks t' b.
Proof.
  intros Hc Hh [= <-] n Hn. simpl.
  rewrite !elem_of_list_to_set, !list_elem_of_In, !filter_In, <- !list_elem_of_In, Hc, Hh.
  unfold not_unique. rewrite Hn. naive_solver.
Qed.

(** ** Properties *)

(** C7. From the start-up synchronisation on, as long as every
    NameOwnerChanged signal is processed in order, the table routes each
    well-known name to the container exactly when the container bus owns it,
    and answers NameHasOwner, GetNameOwner's choice of bus and ListNames as the
    two buses together would. *)
Theorem routing_follows_buses (cl hl al : list string) (b : Buses) (t : RoutingTable)
    (es : list NameOwnerChange) (n : string) :
  (forall n, n ∈ cl <-> is_Some (bus_container b !! n)) ->
  (forall n, n ∈ hl <-> is_Some (bus_host b !! n)) ->
  sync_routing_table (E := unit) (Ok cl) (Ok hl) (Ok al) RoutingTable_new = Ok t ->
  starts_with n ":" = false ->
  let t' := fold_left apply_change es t in
  let b' := fold_left bus_change es b in
  (route_for n t' = Container <-> is_Some (bus_container b' !! n)) /\
  (table_name_has_owner n t' = true <->
     is_Some (bus_container b' !! n) \/ is_Some (bus_host b' !! n)) /\
  (get_name_owner_route n t' = None <-> bus_container b' !! n = None /\ bus_host b' !! n = None) /\
  (n ∈ all_names t' <-> is_Some (bus_container b' !! n) \/ is_Some (bus_host b' !! n)).
Proof.
  intros Hc Hh Hs Hn t' b'.
  destruct (tracks_changes es _ _ (tracks_sync _ _ _ _ _ _ Hc Hh Hs) n Hn) as [Tc Th].
  fold t' b' in Tc, Th.
  assert (Hnc : bus_container b' !! n = None <-> n ∉ container_names t')
    by (rewrite Tc, eq_None_not_Some; done).
  assert (Hnh : bus_host b' !! n = None <-> n ∉ host_names t')
    by (rewrite Th, eq_None_not_Some; done).
  rewrite route_for_well_known by done. rewrite <- Tc, <- Th, Hnc, Hnh.
  unfold table_name_has_owner, get_name_owner_route, all_names.
  rewrite elem_of_elements, elem_of_union.
  repeat case_bool_decide; naive_solver.
Qed.

Definition ex_buses : Buses :=
  mkBuses {["org.a" := ":1.5"]} {["org.a" := ":1.9"]}.

Lemma routing_follows_buses_witness :
  let t' := fold_left apply_change [mkNameOwnerChange Container "org.a" ":1.5" ""]
    (set_host_activatable [] (set_host_names ["org.a"] (set_container_names ["org.a"]
      RoutingTable_new))) in
  route_for "org.a" t' = Host /\
  (table_name_has_owner "org.a" t' = true <->
     is_Some (bus_container (fold_left bus_change
        [mkNameOwnerChange Container "org.a" ":1.5" ""] ex_buses) !! "org.a") \/
     is_Some (bus_host (fold_left bus_change
        [mkNameOwnerChange Container "org.a" ":1.5" ""] ex_buses) !! "org.a")).
Proof.
  intros t'. split; [vm_compute; reflexivity |].
  apply (routing_follows_buses ["org.a"] ["org.a"] [] ex_buses
    (set_host_activatable [] (set_host_names ["org.a"] (set_container_names ["org.a"]
      RoutingTable_new))) [mkNameOwnerChange Container "org.a" ":1.5" ""] "org.a");
    try (vm_compute; reflexivity).
  - intros n. unfold ex_buses. simpl. rewrite list_elem_of_singleton, lookup_singleton_is_Some.
    naive_solver.
  - intros n. unfold ex_buses. simpl. rewrite list_elem_of_singleton, lookup_singleton_is_Some.
    naive_solver.
Defined.

(** Container priority: the route of a well-known name depends on the
    container's names only, so no change on the host bus, acquisition included,
    can divert a name. *)
Lemma host_change_never_reroutes n name old new t :
  starts_with n ":" = false ->
  route_for n (on_host_name_change name old new t) = route_for n t.
Proof.
  intros Hn. rewrite !route_for_well_known by done.
  pose proof (apply_change_container_names t (mkNameOwnerChange Host name old new) n) as H.
  simpl in H. unfold apply_change in H. simpl in H. by rewrite (bool_decide_ext _ _ H).
Qed.

Lemma host_change_never_reroutes_witness :
  route_for "org.a" (on_host_name_change "org.a" "" ":1.7"
    (on_container_name_change "org.a" "" ":1.5" RoutingTable_new)) = Container.
Proof.
  etransitivity; [apply (host_change_never_reroutes "org.a" "org.a" "" ":1.7") |];
    vm_compute; reflexivity.
Defined.

(** A name that the container acquires is routed to it at once, with its
    owner's unique name; when the container releases it, the name falls back to
    the host. *)
Lemma container_acquire_release n o old t :
  starts_with n ":" = false -> starts_with o ":" = true ->
  let acquired := on_container_name_change n old o t in
  route_for n acquired = Container /\ route_for o acquired = Container /\
  route_for n (on_container_name_change n o "" acquired) = Host /\
  (forall n', starts_with n' ":" = false -> n' <> n ->
     route_for n' (on_container_name_change n o "" acquired) = route_for n' t).
Proof.
  intros Hn Ho acquired. destruct o as [|a o]; [done |]. split_and!.
  - rewrite route_for_well_known by done. by rewrite bool_decide_true by set_solver.
  - unfold route_for. rewrite Ho. unfold route_for_unique_name, registry_route_for, acquired,
      on_container_name_change. simpl. by rewrite lookup_insert_eq.
  - rewrite route_for_well_known by done. by rewrite bool_decide_false by set_solver.
  - intros n' Hn' Hne. rewrite !route_for_well_known by done.
    erewrite bool_decide_ext; [done |]. set_solver.
Qed.

Lemma container_acquire_release_witness :
  route_for ":1.5" (on_container_name_change "org.a" "" ":1.5" RoutingTable_new) = Container.
Proof. apply (container_acquire_release "org.a" ":1.5" ""); vm_compute; reflexivity. Defined.

(** Finding: releasing one of its names makes the table forget the unique
    name of a connection that is still there and owns another name on the
    container: calls to the other name still go to the container while calls to
    the connection itself go to the host. *)
Lemma release_forgets_connection n n' o t :
  starts_with n ":" = false -> starts_with n' ":" = false -> n' <> n ->
  starts_with o ":" = true ->
  let owns_both := on_container_name_change n' "" o (on_container_name_change n "" o t) in
  let after := on_container_name_change n o "" owns_both in
  route_for o owns_both = Container /\ route_for n' after = Container /\ route_for o after = Host.
Proof.
  intros Hn Hn' Hne Ho owns_both after. destruct o as [|a o]; [done |]. split_and!.
  - unfold route_for. rewrite Ho. unfold route_for_unique_name, registry_route_for. simpl.
    by rewrite lookup_insert_eq.
  - rewrite route_for_well_known by done. by rewrite bool_decide_true by set_solver.
  - unfold route_for. rewrite Ho. unfold route_for_unique_name, registry_route_for. simpl.
    by rewrite lookup_delete_eq.
Qed.

Lemma release_forgets_connection_witness :
  route_for ":1.5" (on_container_name_change "org.a" ":1.5" ""
    (on_container_name_change "org.b" "" ":1.5"
      (on_container_name_change "org.a" "" ":1.5" RoutingTable_new))) = Host.
Proof.
  apply (release_forgets_connection "org.a" "org.b" ":1.5" RoutingTable_new);
    first [vm_compute; reflexivity | discriminate].
Defined.
