(* ===== verification/NameQueue.v ===== *)
(** * Name ownership queues (src/src/name_queue.rs)

    The component that decides which client of the multiplexer owns a
    well-known name and which clients wait for it.  [NameQueueManager] maps a
    name to a [NameQueue] (a primary owner and its waiters, in order); its
    operations are [request_name], [release_name], [remove_client] and three
    queries.  Module [Spec] states the contract: a name is a list of entries
    whose head owns it. *)

From S2P Require Import Prelude.

(** ** Constants of the D-Bus specification *)

Module request_name_flags.
Definition ALLOW_REPLACEMENT : Z := 0x1.
Definition REPLACE_EXISTING : Z := 0x2.
Definition DO_NOT_QUEUE : Z := 0x4.
End request_name_flags.

Module request_name_reply.
Definition PRIMARY_OWNER : Z := 1.
Definition IN_QUEUE : Z := 2.
Definition EXISTS : Z := 3.
Definition ALREADY_OWNER : Z := 4.
End request_name_reply.

Module release_name_reply.
Definition RELEASED : Z := 1.
Definition NON_EXISTENT : Z := 2.
Definition NOT_OWNER : Z := 3.
End release_name_reply.

(** ** Data *)

Record QueueEntry := mkQueueEntry {
  qe_client_id : Z;
  qe_unique_name : string;
  qe_allow_replacement : bool;
}.

Record NameQueue := mkNameQueue {
  primary_owner : option QueueEntry;
  waiters : list QueueEntry;
}.

(** [#[derive(Default)]] of [NameQueue]. *)
Definition NameQueue_default : NameQueue := mkNameQueue None [].

Record NameQueueManager := mkNameQueueManager {
  queues : gmap string NameQueue;
}.

Record RequestNameResult := mkRequestNameResult {
  rq_reply_code : Z;
  rq_forward_to_bus : bool;
  rq_replaced_owner : option string;
}.

Record ReleaseNameResult := mkReleaseNameResult {
  rl_reply_code : Z;
  rl_forward_to_bus : bool;
  rl_new_owner : option (Z * string);
}.

#[export] Instance QueueEntry_eq_dec : EqDecision QueueEntry.
Proof. solve_decision. Defined.
#[export] Instance NameQueue_eq_dec : EqDecision NameQueue.
Proof. solve_decision. Defined.

(** ** Queries on one queue *)

Definition all_owners (q : NameQueue) : list string :=
  match primary_owner q with
  | Some owner => [qe_unique_name owner]
  | None => []
  end ++ map qe_unique_name (waiters q).

Definition contains_client (q : NameQueue) (client_id : Z) : bool :=
  match primary_owner q with
  | Some owner => (qe_client_id owner =? client_id)%Z
  | None => false
  end || existsb (fun e => (qe_client_id e =? client_id)%Z) (waiters q).

Definition is_primary_owner (q : NameQueue) (client_id : Z) : bool :=
  match primary_owner q with
  | Some o => (qe_client_id o =? client_id)%Z
  | None => false
  end.

(** [VecDeque::retain(|e| e.client_id != client_id)]. *)
Definition retain_other (client_id : Z) (es : list QueueEntry) : list QueueEntry :=
  List.filter (fun e => negb (qe_client_id e =? client_id)%Z) es.

(** ** The manager *)

Definition NameQueueManager_new : NameQueueManager := mkNameQueueManager ∅.

Definition has_flag (flags flag : Z) : bool := negb (Z.land flags flag =? 0)%Z.

Definition request_name (name : string) (client_id : Z) (unique_name : string) (flags : Z)
    (self : NameQueueManager) : NameQueueManager * RequestNameResult :=
  let allow_replacement := has_flag flags request_name_flags.ALLOW_REPLACEMENT in
  let replace_existing := has_flag flags request_name_flags.REPLACE_EXISTING in
  let do_not_queue := has_flag flags request_name_flags.DO_NOT_QUEUE in
  let queue := default NameQueue_default (queues self !! name) in
  let put q := mkNameQueueManager (<[name := q]> (queues self)) in
  if is_primary_owner queue client_id then
    (put queue, mkRequestNameResult request_name_reply.ALREADY_OWNER false None)
  else if contains_client queue client_id then
    (put queue, mkRequestNameResult request_name_reply.IN_QUEUE false None)
  else
    let entry := mkQueueEntry client_id unique_name allow_replacement in
    match primary_owner queue with
    | None =>
        (put (mkNameQueue (Some entry) (waiters queue)),
         mkRequestNameResult request_name_reply.PRIMARY_OWNER true None)
    | Some current_owner =>
        if replace_existing && qe_allow_replacement current_owner then
          (put (mkNameQueue (Some entry) (current_owner :: waiters queue)),
           mkRequestNameResult request_name_reply.PRIMARY_OWNER true
             (Some (qe_unique_name current_owner)))
        else if do_not_queue then
          (put queue, mkRequestNameResult request_name_reply.EXISTS false None)
        else
          (put (mkNameQueue (Some current_owner) (waiters queue ++ [entry])),
           mkRequestNameResult request_name_reply.IN_QUEUE false None)
    end.

Definition release_name (name : string) (client_id : Z)
    (self : NameQueueManager) : NameQueueManager * ReleaseNameResult :=
  match queues self !! name with
  | None => (self, mkReleaseNameResult release_name_reply.NON_EXISTENT false None)
  | Some queue =>
      if is_primary_owner queue client_id then
        match waiters queue with
        | next :: rest =>
            (mkNameQueueManager (<[name := mkNameQueue (Some next) rest]> (queues self)),
             mkReleaseNameResult release_name_reply.RELEASED false
               (Some (qe_client_id next, qe_unique_name next)))
        | [] =>
            (mkNameQueueManager (delete name (queues self)),
             mkReleaseNameResult release_name_reply.RELEASED true None)
        end
      else
        let initial_len := length (waiters queue) in
        let ws := retain_other client_id (waiters queue) in
        let self' := mkNameQueueManager
          (<[name := mkNameQueue (primary_owner queue) ws]> (queues self)) in
        if (length ws <? initial_len)%nat then
          (self', mkReleaseNameResult release_name_reply.RELEASED false None)
        else
          (self', mkReleaseNameResult release_name_reply.NOT_OWNER false None)
  end.

Definition list_queued_owners (name : string) (self : NameQueueManager) : list string :=
  match queues self !! name with
  | Some q => all_owners q
  | None => []
  end.

Definition name_has_owner (name : string) (self : NameQueueManager) : bool :=
  match queues self !! name with
  | Some q => match primary_owner q with Some _ => true | None => false end
  | None => false
  end.

Definition get_primary_owner (name : string) (self : NameQueueManager) : option (Z * string) :=
  match queues self !! name with
  | Some q =>
      match primary_owner q with
      | Some o => Some (qe_client_id o, qe_unique_name o)
      | None => None
      end
  | None => None
  end.

(** *** [remove_client]

    The body of the [for (name, queue) in &mut self.queues] loop.  Its
    accumulator holds the queues, [results] and [empty_queues]. *)

Record RemoveClientAcc := mkRemoveClientAcc {
  rc_queues : gmap string NameQueue;
  rc_results : list (string * option (Z * string));
  rc_empty_queues : list string;
}.

Definition remove_client_visit (client_id : Z) (acc : RemoveClientAcc) (name : string)
    : RemoveClientAcc :=
  match rc_queues acc !! name with
  | None => acc
  | Some queue =>
      if is_primary_owner queue client_id then
        match waiters queue with
        | next :: rest =>
            mkRemoveClientAcc
              (<[name := mkNameQueue (Some next) rest]> (rc_queues acc))
              (rc_results acc ++ [(name, Some (qe_client_id next, qe_unique_name next))])
              (rc_empty_queues acc)
        | [] =>
            mkRemoveClientAcc
              (<[name := mkNameQueue None []]> (rc_queues acc))
              (rc_results acc ++ [(name, None)])
              (rc_empty_queues acc ++ [name])
        end
      else
        let ws := retain_other client_id (waiters queue) in
        mkRemoveClientAcc
          (<[name := mkNameQueue (primary_owner queue) ws]> (rc_queues acc))
          (rc_results acc)
          (match primary_owner queue, ws with
           | None, [] => rc_empty_queues acc ++ [name]
           | _, _ => rc_empty_queues acc
           end)
  end.

(** [remove_client], with the order in which the [HashMap] is iterated as its
    argument [order]: Rust leaves that order unspecified. *)
Definition remove_client_in (order : list string) (client_id : Z) (self : NameQueueManager)
    : NameQueueManager * list (string * option (Z * string)) :=
  let acc := fold_left (remove_client_visit client_id) order
               (mkRemoveClientAcc (queues self) [] []) in
  (mkNameQueueManager (fold_left (fun m n => delete n m) (rc_empty_queues acc) (rc_queues acc)),
   rc_results acc).

(** One admissible order: the one in which [gmap] enumerates its keys. *)
Definition remove_client (client_id : Z) (self : NameQueueManager)
    : NameQueueManager * list (string * option (Z * string)) :=
  remove_client_in (map_to_list (queues self)).*1 client_id self.

(** ** The contract *)

Module Spec.

(** A name's queue is the list of its owner and waiters; the empty list means
    that nobody owns the name.  A request of somebody who is in the list already
    is answered as the code answers it (IN_QUEUE, or ALREADY_OWNER for the owner)
    and changes nothing: its flags are not updated and REPLACE_EXISTING of a
    waiter has no effect, where the D-Bus specification updates the flags. *)
Definition request (e : QueueEntry) (replace_existing do_not_queue : bool) (l : list QueueEntry)
    : list QueueEntry * RequestNameResult :=
  match l with
  | [] => ([e], mkRequestNameResult request_name_reply.PRIMARY_OWNER true None)
  | owner :: ws =>
      if decide (qe_client_id owner = qe_client_id e) then
        (l, mkRequestNameResult request_name_reply.ALREADY_OWNER false None)
      else if decide (qe_client_id e ∈ map qe_client_id ws) then
        (l, mkRequestNameResult request_name_reply.IN_QUEUE false None)
      else if replace_existing && qe_allow_replacement owner then
        (e :: l, mkRequestNameResult request_name_reply.PRIMARY_OWNER true
                   (Some (qe_unique_name owner)))
      else if do_not_queue then
        (l, mkRequestNameResult request_name_reply.EXISTS false None)
      else (l ++ [e], mkRequestNameResult request_name_reply.IN_QUEUE false None)
  end.

(** Leaving a queue keeps the order of the others, whoever leaves. *)
Definition leave (client_id : Z) (l : list QueueEntry) : list QueueEntry :=
  filter (fun e => qe_client_id e <> client_id) l.

(** Who owns the name after its owner left. *)
Definition successor (l : list QueueEntry) : option (Z * string) :=
  match l with
  | _ :: next :: _ => Some (qe_client_id next, qe_unique_name next)
  | _ => None
  end.

Definition owned_by (client_id : Z) (l : list QueueEntry) : Prop :=
  qe_client_id <$> head l = Some client_id.

#[export] Instance owned_by_dec client_id l : Decision (owned_by client_id l).
Proof. unfold owned_by. apply _. Defined.

Definition release (client_id : Z) (l : list QueueEntry) : list QueueEntry * ReleaseNameResult :=
  (leave client_id l,
   if decide (l = []) then
     mkReleaseNameResult release_name_reply.NON_EXISTENT false None
   else if decide (owned_by client_id l) then
     mkReleaseNameResult release_name_reply.RELEASED
       (match successor l with None => true | Some _ => false end) (successor l)
   else if decide (client_id ∈ map qe_client_id l) then
     mkReleaseNameResult release_name_reply.RELEASED false None
   else mkReleaseNameResult release_name_reply.NOT_OWNER false None).

End Spec.

(** ** Abstraction, invariant and runs *)

Definition queue_entries (q : NameQueue) : list QueueEntry :=
  option_list (primary_owner q) ++ waiters q.

Definition owners (self : NameQueueManager) (name : string) : list QueueEntry :=
  match queues self !! name with
  | Some q => queue_entries q
  | None => []
  end.

(** A stored queue has an owner, and no client stands in it twice. *)
Definition queue_ok (q : NameQueue) : Prop :=
  is_Some (primary_owner q) /\ NoDup (map qe_client_id (queue_entries q)).

Definition manager_ok (self : NameQueueManager) : Prop :=
  map_Forall (fun _ q => queue_ok q) (queues self).

#[export] Instance queue_ok_dec q : Decision (queue_ok q).
Proof. unfold queue_ok. apply _. Defined.
#[export] Instance manager_ok_dec m : Decision (manager_ok m).
Proof. unfold manager_ok. apply _. Defined.

Inductive call :=
| CRequest (name : string) (client_id : Z) (unique_name : string) (flags : Z) (r : RequestNameResult)
| CRelease (name : string) (client_id : Z) (r : ReleaseNameResult)
| CRemove (client_id : Z) (r : list (string * option (Z * string))).

(** A call on the manager with its reply; [remove_client] may iterate its map
    in any order. *)
Inductive manager_step : NameQueueManager -> call -> NameQueueManager -> Prop :=
| step_request self n c u f self' r :
    request_name n c u f self = (self', r) ->
    manager_step self (CRequest n c u f r) self'
| step_release self n c self' r :
    release_name n c self = (self', r) ->
    manager_step self (CRelease n c r) self'
| step_remove self order c self' r :
    order ≡ₚ (map_to_list (queues self)).*1 ->
    remove_client_in order c self = (self', r) ->
    manager_step self (CRemove c r) self'.

(** The same calls on the specification, whose state gives every name its list. *)
Inductive spec_step : (string -> list QueueEntry) -> call -> (string -> list QueueEntry) -> Prop :=
| spec_step_request s n c u f s' :
    let e := mkQueueEntry c u (has_flag f request_name_flags.ALLOW_REPLACEMENT) in
    let out := Spec.request e (has_flag f request_name_flags.REPLACE_EXISTING)
                 (has_flag f request_name_flags.DO_NOT_QUEUE) (s n) in
    s' n = out.1 ->
    (forall n', n' <> n -> s' n' = s n') ->
    spec_step s (CRequest n c u f out.2) s'
| spec_step_release s n c s' :
    s' n = (Spec.release c (s n)).1 ->
    (forall n', n' <> n -> s' n' = s n') ->
    spec_step s (CRelease n c (Spec.release c (s n)).2) s'
| spec_step_remove s c r s' :
    (forall n, s' n = Spec.leave c (s n)) ->
    NoDup r.*1 ->
    (forall n o, (n, o) ∈ r <-> Spec.owned_by c (s n) /\ o = Spec.successor (s n)) ->
    spec_step s (CRemove c r) s'.

(** ** Lemmas on one queue *)

Lemma queue_ok_inv q :
  queue_ok q ->
  exists o ws, q = mkNameQueue (Some o) ws /\
    qe_client_id o ∉ map qe_client_id ws /\ NoDup (map qe_client_id ws).
Proof.
  intros [[o Ho] Hnd]. destruct q as [p ws]. simpl in *. subst p.
  apply NoDup_cons in Hnd. naive_solver.
Qed.

Lemma queue_ok_intro o ws :
  qe_client_id o ∉ map qe_client_id ws -> NoDup (map qe_client_id ws) ->
  queue_ok (mkNameQueue (Some o) ws).
Proof. intros ??. split; [by eexists |]. by apply NoDup_cons. Qed.

Lemma existsb_client c ws :
  existsb (fun e => (qe_client_id e =? c)%Z) ws = bool_decide (c ∈ map qe_client_id ws).
Proof.
  apply eq_bool_prop_intro. rewrite bool_decide_spec.
  induction ws as [|e ws IH]; simpl.
  - split; [done | by intros ?%not_elem_of_nil].
  - rewrite elem_of_cons, orb_True, IH, Is_true_true, Z.eqb_eq. naive_solver.
Qed.

Lemma retain_other_leave c ws : retain_other c ws = Spec.leave c ws.
Proof.
  unfold retain_other, Spec.leave. induction ws as [|e ws IH]; simpl; [done |].
  rewrite filter_cons. rewrite IH.
  destruct (Z.eqb_spec (qe_client_id e) c); simpl; case_decide; naive_solver.
Qed.

Lemma leave_absent c ws : c ∉ map qe_client_id ws -> Spec.leave c ws = ws.
Proof.
  induction ws as [|e ws IH]; intros Hn; simpl in *; [done |].
  apply not_elem_of_cons in Hn as [Hne Hn]. unfold Spec.leave.
  rewrite filter_cons_True by done. f_equal. by apply IH.
Qed.

Lemma leave_length c ws :
  (length (Spec.leave c ws) < length ws)%nat <-> c ∈ map qe_client_id ws.
Proof.
  split; intros H.
  - destruct (decide (c ∈ map qe_client_id ws)) as [|Hn]; [done |].
    rewrite (leave_absent _ _ Hn) in H. lia.
  - apply list_elem_of_fmap in H as (e & -> & He).
    unfold Spec.leave. apply length_filter_lt with e; naive_solver.
Qed.

Lemma leave_ids c ws x :
  x ∈ map qe_client_id (Spec.leave c ws) <-> x ∈ map qe_client_id ws /\ x <> c.
Proof.
  unfold Spec.leave. rewrite !list_elem_of_fmap.
  setoid_rewrite list_elem_of_filter. naive_solver.
Qed.

Lemma leave_NoDup c ws :
  NoDup (map qe_client_id ws) -> NoDup (map qe_client_id (Spec.leave c ws)).
Proof.
  induction ws as [|e ws IH]; intros Hnd; [done |].
  apply NoDup_cons in Hnd as [Hn Hnd]. unfold Spec.leave. rewrite filter_cons.
  case_decide; simpl; [| by apply IH].
  apply NoDup_cons; split; [| by apply IH].
  intros Hin. apply leave_ids in Hin. naive_solver.
Qed.

Lemma queue_ok_append o ws e :
  queue_ok (mkNameQueue (Some o) ws) ->
  qe_client_id e <> qe_client_id o -> qe_client_id e ∉ map qe_client_id ws ->
  queue_ok (mkNameQueue (Some o) (ws ++ [e])).
Proof.
  intros (o' & ws' & [= <- <-] & Hn & Hnd)%queue_ok_inv Hne Hni.
  apply queue_ok_intro; rewrite map_app; simpl.
  - rewrite elem_of_app, list_elem_of_singleton. naive_solver.
  - apply NoDup_app. split_and!; [done | | apply NoDup_singleton].
    intros x Hx ->%list_elem_of_singleton. done.
Qed.

Lemma queue_ok_leave o ws c :
  queue_ok (mkNameQueue (Some o) ws) -> queue_ok (mkNameQueue (Some o) (retain_other c ws)).
Proof.
  intros (o' & ws' & [= <- <-] & Hn & Hnd)%queue_ok_inv.
  rewrite retain_other_leave. apply queue_ok_intro; [| by apply leave_NoDup].
  rewrite leave_ids. naive_solver.
Qed.

#[export] Hint Resolve queue_ok_append queue_ok_leave queue_ok_intro leave_NoDup : mux.

(** ** Lemmas on the operations *)

Lemma owners_insert self n q n' :
  owners (mkNameQueueManager (<[n := q]> (queues self))) n' =
  if decide (n' = n) then queue_entries q else owners self n'.
Proof. unfold owners. simpl. case_decide; simplify_map_eq; done. Qed.

Lemma owners_delete self n n' :
  owners (mkNameQueueManager (delete n (queues self))) n' =
  if decide (n' = n) then [] else owners self n'.
Proof. unfold owners. simpl. case_decide; simplify_map_eq; done. Qed.

Lemma owners_nil self n : manager_ok self -> owners self n = [] -> queues self !! n = None.
Proof.
  intros Hok. unfold owners. destruct (queues self !! n) as [q|] eqn:E; [| done].
  apply Hok in E. apply queue_ok_inv in E as (o & ws & -> & _). done.
Qed.

(** The shape of a lookup in a well-formed manager. *)
Lemma manager_lookup self n :
  manager_ok self ->
  (queues self !! n = None /\ owners self n = []) \/
  (exists o ws, queues self !! n = Some (mkNameQueue (Some o) ws) /\ owners self n = o :: ws /\
     queue_ok (mkNameQueue (Some o) ws)).
Proof.
  intros Hok. unfold owners. destruct (queues self !! n) as [q|] eqn:E; [right | by left].
  apply Hok in E as Hq. pose proof (queue_ok_inv q Hq) as (o & ws & -> & _ & _).
  naive_solver.
Qed.

Lemma manager_ok_insert self n q :
  manager_ok self -> queue_ok q -> manager_ok (mkNameQueueManager (<[n := q]> (queues self))).
Proof. intros Hm Hq. by apply map_Forall_insert_2. Qed.

Lemma manager_ok_delete self n :
  manager_ok self -> manager_ok (mkNameQueueManager (delete n (queues self))).
Proof. intros Hm. by apply map_Forall_delete. Qed.

#[export] Hint Resolve manager_ok_insert manager_ok_delete : mux.

Lemma request_name_spec self n c u f :
  manager_ok self ->
  let e := mkQueueEntry c u (has_flag f request_name_flags.ALLOW_REPLACEMENT) in
  let out := Spec.request e (has_flag f request_name_flags.REPLACE_EXISTING)
               (has_flag f request_name_flags.DO_NOT_QUEUE) (owners self n) in
  let self' := (request_name n c u f self).1 in
  manager_ok self' /\ (request_name n c u f self).2 = out.2 /\
  forall n', owners self' n' = if decide (n' = n) then out.1 else owners self n'.
Proof.
  intros Hok. destruct (manager_lookup self n Hok) as [[E Ho]|(o & ws & E & Ho & Hq)];
    rewrite Ho; unfold request_name; rewrite E; simpl.
  - split_and!; [| done | intros n'; apply owners_insert].
    apply manager_ok_insert; [done |]. apply queue_ok_intro; [apply not_elem_of_nil | constructor].
  - pose proof (queue_ok_inv _ Hq) as (o' & ws' & [= <- <-] & Hn & Hnd).
    unfold is_primary_owner, contains_client. simpl. rewrite existsb_client.
    destruct (Z.eqb_spec (qe_client_id o) c) as [Hc|Hc]; simpl; case_decide; try done;
      [eauto using owners_insert with mux |].
    case_bool_decide; case_decide; try done; [eauto using owners_insert with mux |].
    destruct (_ && _); simpl; [| destruct (has_flag _ _); simpl];
      split_and!; try done; try (intros; apply owners_insert); auto with mux.
    apply manager_ok_insert; [done |]. apply queue_ok_intro; simpl; [| by apply NoDup_cons].
    rewrite elem_of_cons. naive_solver.
Qed.

Lemma release_name_spec self n c :
  manager_ok self ->
  let out := Spec.release c (owners self n) in
  let self' := (release_name n c self).1 in
  manager_ok self' /\ (release_name n c self).2 = out.2 /\
  forall n', owners self' n' = if decide (n' = n) then out.1 else owners self n'.
Proof.
  intros Hok. destruct (manager_lookup self n Hok) as [[E Ho]|(o & ws & E & Ho & Hq)];
    rewrite Ho; unfold release_name; rewrite E; simpl.
  - split_and!; [done | done |]. intros n'. case_decide; [by subst | done].
  - pose proof (queue_ok_inv _ Hq) as (o' & ws' & [= <- <-] & Hn & Hnd).
    unfold is_primary_owner, Spec.owned_by, Spec.leave. simpl. rewrite filter_cons.
    destruct (Z.eqb_spec (qe_client_id o) c) as [Hc|Hc]; simpl.
    + rewrite (decide_False (P := qe_client_id o <> c)) by naive_solver.
      rewrite (decide_True (P := Some _ = Some c)) by congruence.
      fold (Spec.leave c ws). rewrite leave_absent by congruence.
      destruct ws as [|w ws]; simpl; split_and!; try done; auto with mux.
      * intros n'. apply owners_delete.
      * apply manager_ok_insert; [done |]. apply NoDup_cons in Hnd as [??]. auto with mux.
      * intros n'. apply owners_insert.
    + rewrite (decide_True (P := qe_client_id o <> c)) by done.
      rewrite (decide_False (P := Some _ = Some c)) by congruence.
      rewrite retain_other_leave. fold (Spec.leave c ws).
      destruct (Nat.ltb_spec (length (Spec.leave c ws)) (length ws)) as [Hl|Hl]; simpl;
        (split_and!; [| | intros n'; apply owners_insert];
         [rewrite <- retain_other_leave; auto with mux |]).
      * apply leave_length in Hl. rewrite decide_True by (by apply elem_of_cons; right). done.
      * rewrite decide_False; [done |]. rewrite elem_of_cons, <- leave_length. naive_solver lia.
Qed.

(** *** [remove_client]

    What one visit does to the queue it visits, and what it reports. *)

Definition visited_queue (c : Z) (q : NameQueue) : NameQueue :=
  if is_primary_owner q c then
    match waiters q with
    | next :: rest => mkNameQueue (Some next) rest
    | [] => NameQueue_default
    end
  else mkNameQueue (primary_owner q) (retain_other c (waiters q)).

Definition visit_report (c : Z) (q : NameQueue) : option (option (Z * string)) :=
  if is_primary_owner q c then
    Some (match waiters q with
          | next :: _ => Some (qe_client_id next, qe_unique_name next)
          | [] => None
          end)
  else None.

Definition queue_is_empty (q : NameQueue) : bool := bool_decide (q = NameQueue_default).

Definition report_of (c : Z) (m : gmap string NameQueue) (n : string)
    : option (string * option (Z * string)) :=
  q ← m !! n; o ← visit_report c q; Some (n, o).

Definition emptied_by (c : Z) (m : gmap string NameQueue) (n : string) : option string :=
  q ← m !! n; if queue_is_empty (visited_queue c q) then Some n else None.

Lemma remove_client_visit_spec c acc n q :
  rc_queues acc !! n = Some q ->
  remove_client_visit c acc n =
  mkRemoveClientAcc (<[n := visited_queue c q]> (rc_queues acc))
    (rc_results acc ++ option_list (report_of c (rc_queues acc) n))
    (rc_empty_queues acc ++ option_list (emptied_by c (rc_queues acc) n)).
Proof.
  intros E. unfold remove_client_visit, report_of, emptied_by, visited_queue, visit_report,
    queue_is_empty. rewrite E; simpl.
  destruct (is_primary_owner q c); simpl.
  - destruct (waiters q); simpl; by rewrite ?app_nil_r.
  - destruct (primary_owner q); simpl; [by rewrite !app_nil_r |].
    destruct (retain_other c (waiters q)); simpl; by rewrite ?app_nil_r.
Qed.

(** The loop visits each queue once, so its effect is the visit of every queue
    as it was at the start. *)
Lemma remove_client_loop_spec c order m acc :
  NoDup order ->
  (forall n, n ∈ order -> rc_queues acc !! n = m !! n /\ is_Some (m !! n)) ->
  let acc' := fold_left (remove_client_visit c) order acc in
  (forall n, rc_queues acc' !! n =
     if decide (n ∈ order) then visited_queue c <$> m !! n else rc_queues acc !! n) /\
  rc_results acc' = rc_results acc ++ omap (report_of c m) order /\
  rc_empty_queues acc' = rc_empty_queues acc ++ omap (emptied_by c m) order.
Proof.
  revert acc. induction order as [|k order IH]; intros acc Hnd Hm; cbn [fold_left].
  { split_and!; [| by rewrite app_nil_r | by rewrite app_nil_r].
    intros n. case_decide; [set_solver | done]. }
  apply NoDup_cons in Hnd as [Hk Hnd].
  destruct (Hm k ltac:(set_solver)) as [E [q Eq]]. rewrite Eq in E.
  assert (report_of c (rc_queues acc) k = report_of c m k) as Hr by (unfold report_of; congruence).
  assert (emptied_by c (rc_queues acc) k = emptied_by c m k) as He by (unfold emptied_by; congruence).
  rewrite (remove_client_visit_spec _ _ _ _ E), Hr, He.
  match goal with |- context [fold_left _ order ?a] => destruct (IH a Hnd) as (H1 & H2 & H3) end.
  { intros n Hn. simpl. rewrite lookup_insert_ne by set_solver. apply Hm. set_solver. }
  split_and!.
  - intros n. rewrite H1; simpl. destruct (decide (n = k)) as [->|Hne].
    + rewrite decide_False by done. rewrite decide_True by set_solver. by simplify_map_eq.
    + rewrite lookup_insert_ne by done. assert (n ∈ k :: order <-> n ∈ order) by set_solver.
      repeat case_decide; tauto.
  - rewrite H2; simpl. destruct (report_of c m k); simpl; by rewrite <- app_assoc.
  - rewrite H3; simpl. destruct (emptied_by c m k); simpl; by rewrite <- app_assoc.
Qed.

Lemma remove_client_in_spec order c self :
  order ≡ₚ (map_to_list (queues self)).*1 ->
  let m := queues self in
  let out := remove_client_in order c self in
  (forall n, queues out.1 !! n =
     q ← m !! n; if queue_is_empty (visited_queue c q) then None else Some (visited_queue c q)) /\
  out.2 = omap (report_of c m) order.
Proof.
  intros Hperm. unfold remove_client_in. simpl.
  assert (Hin : forall n, n ∈ order <-> is_Some (queues self !! n)).
  { intros n. rewrite Hperm, list_elem_of_fmap. split.
    - intros ([k q] & -> & Hkq%elem_of_map_to_list). eauto.
    - intros [q Hq]. exists (n, q). split; [done |]. by apply elem_of_map_to_list. }
  destruct (remove_client_loop_spec c order (queues self)
    (mkRemoveClientAcc (queues self) [] [])) as (H1 & H2 & H3).
  { rewrite Hperm. apply NoDup_fst_map_to_list. }
  { intros n Hn. split; [done | by apply Hin]. }
  rewrite H2, H3. split; [| done]. intros n. rewrite lookup_fold_delete, H1. simpl.
  destruct (queues self !! n) as [q|] eqn:E; simpl.
  - assert (n ∈ order) as Hn by (apply Hin; eauto). rewrite (decide_True (P := n ∈ order)) by done.
    assert (n ∈ omap (emptied_by c (queues self)) order <->
            queue_is_empty (visited_queue c q) = true) as Hiff.
    { rewrite list_elem_of_omap. unfold emptied_by. split.
      - intros (k & _ & Hk). apply bind_Some in Hk as (q' & Hq' & Hk).
        case_match; simplify_eq; done.
      - intros Hq. exists n. rewrite E; simpl. rewrite Hq. done. }
    destruct (queue_is_empty _); case_decide; naive_solver.
  - repeat case_decide; try done.
Qed.

Lemma visited_queue_ok c q :
  queue_ok q -> queue_is_empty (visited_queue c q) = false -> queue_ok (visited_queue c q).
Proof.
  intros Hq He. pose proof (queue_ok_inv q Hq) as (o & ws & -> & Hn & Hnd).
  unfold queue_is_empty, visited_queue, is_primary_owner in *. simpl in *.
  destruct (_ =? _)%Z; [| auto with mux].
  destruct ws as [|w ws]; [done |]. apply NoDup_cons in Hnd as [??]. auto with mux.
Qed.

Lemma visited_queue_entries c q :
  queue_ok q ->
  (if queue_is_empty (visited_queue c q) then [] else queue_entries (visited_queue c q)) =
  Spec.leave c (queue_entries q).
Proof.
  intros Hq. pose proof (queue_ok_inv q Hq) as (o & ws & -> & Hn & Hnd).
  unfold queue_is_empty, visited_queue, is_primary_owner, queue_entries, Spec.leave. simpl.
  rewrite filter_cons. fold (Spec.leave c ws).
  destruct (Z.eqb_spec (qe_client_id o) c) as [<-|Hc]; case_decide; try done.
  - rewrite leave_absent by done. destruct ws; done.
  - simpl. by rewrite retain_other_leave.
Qed.

Lemma visit_report_spec c q o :
  queue_ok q ->
  visit_report c q = Some o <->
  Spec.owned_by c (queue_entries q) /\ o = Spec.successor (queue_entries q).
Proof.
  intros Hq. pose proof (queue_ok_inv q Hq) as (p & ws & -> & Hn & Hnd).
  unfold visit_report, is_primary_owner, Spec.owned_by, queue_entries. simpl.
  destruct (Z.eqb_spec (qe_client_id p) c); simpl; [| naive_solver].
  destruct ws; naive_solver.
Qed.

Lemma remove_client_in_refines order c self :
  manager_ok self -> order ≡ₚ (map_to_list (queues self)).*1 ->
  let out := remove_client_in order c self in
  manager_ok out.1 /\ (forall n, owners out.1 n = Spec.leave c (owners self n)) /\
  NoDup out.2.*1 /\
  (forall n o, (n, o) ∈ out.2 <->
     Spec.owned_by c (owners self n) /\ o = Spec.successor (owners self n)).
Proof.
  intros Hok Hperm. destruct (remove_client_in_spec order c self Hperm) as [Hq Hr].
  simpl in *. rewrite Hr. split_and!.
  - intros n q. rewrite Hq. destruct (queues self !! n) as [q0|] eqn:E; simpl; [| done].
    destruct (queue_is_empty _) eqn:He; [done |]. intros [= <-].
    apply visited_queue_ok; [by apply (Hok n) | done].
  - intros n. unfold owners at 1. rewrite Hq. unfold owners.
    destruct (queues self !! n) as [q|] eqn:E; simpl; [| done].
    rewrite <- visited_queue_entries by (by apply (Hok n)). by destruct (queue_is_empty _).
  - assert (NoDup order) as Hnd by (rewrite Hperm; apply NoDup_fst_map_to_list).
    clear Hperm Hq Hr. induction order as [|k order IH]; simpl; [constructor |].
    apply NoDup_cons in Hnd as [Hk Hnd].
    destruct (report_of c (queues self) k) as [[k' o]|] eqn:E; simpl; [| by apply IH].
    unfold report_of in E. apply bind_Some in E as (q & _ & E).
    apply bind_Some in E as (? & _ & [= <- <-]).
    apply NoDup_cons. split; [| by apply IH]. intros Hin. apply Hk.
    apply list_elem_of_fmap in Hin as ([k' o'] & -> & Hin). simpl.
    apply list_elem_of_omap in Hin as (k2 & Hk2 & E). unfold report_of in E.
    apply bind_Some in E as (? & _ & E). apply bind_Some in E as (? & _ & [= -> ->]). done.
  - intros n o. rewrite list_elem_of_omap. unfold report_of, owners. split.
    + intros (k & Hk & E). apply bind_Some in E as (q & Eq & E).
      apply bind_Some in E as (? & E & [= -> ->]). rewrite Eq.
      apply visit_report_spec; [by apply (Hok n) | done].
    + intros Ho. destruct (queues self !! n) as [q|] eqn:Eq; [| by destruct Ho].
      exists n. split.
      * rewrite Hperm, list_elem_of_fmap. exists (n, q). split; [done |]. by apply elem_of_map_to_list.
      * rewrite Eq. simpl. apply visit_report_spec in Ho; [| by apply (Hok n)]. by rewrite Ho.
Qed.

Lemma manager_step_simulates self l self' s :
  manager_ok self -> (forall n, owners self n = s n) -> manager_step self l self' ->
  spec_step s l (owners self') /\ manager_ok self'.
Proof.
  intros Hok Hs Hstep.
  destruct Hstep as [self n c u f self' r E|self n c self' r E|self order c self' r Hp E].
  - pose proof (request_name_spec self n c u f Hok) as (Hok' & Hr & Ho). rewrite E in *.
    simpl in *. split; [| done]. rewrite Hr, Hs in *. constructor.
    + rewrite Ho. by rewrite decide_True.
    + intros n' Hn'. rewrite Ho, decide_False, Hs by done. done.
  - pose proof (release_name_spec self n c Hok) as (Hok' & Hr & Ho). rewrite E in *.
    simpl in *. split; [| done]. rewrite Hr. rewrite (Hs n) in *. constructor.
    + rewrite Ho. by rewrite decide_True.
    + intros n' Hn'. rewrite Ho, decide_False, Hs by done. done.
  - pose proof (remove_client_in_refines order c self Hok Hp) as (Hok' & Ho & Hnd & Hr).
    rewrite E in *. simpl in *. split; [| done]. constructor; [| done |].
    + intros n. by rewrite Ho, Hs.
    + intros n o. by rewrite <- Hs.
Qed.

(** ** Properties *)

(** C1. Refinement: whatever calls arrive, in whatever order the map is
    iterated, the manager gives the replies of the list specification and its
    queues are the specification's lists. *)
Theorem name_queue_refines_spec calls self :
  trace manager_step NameQueueManager_new calls self ->
  exists s, trace spec_step (fun _ => []) calls s /\ forall n, owners self n = s n.
Proof.
  intros Htr.
  destruct (trace_simulation manager_step spec_step
    (fun m s => manager_ok m /\ forall n, owners m n = s n)) with
    (s1 := NameQueueManager_new) (ls := calls) (s1' := self)
    (s2 := fun _ : string => @nil QueueEntry) as (s & Hs & _ & HR).
  - intros m l m' s [Hok Hs] Hst.
    destruct (manager_step_simulates _ _ _ _ Hok Hs Hst) as [Hsp Hok'].
    exists (owners m'). done.
  - split; [apply map_Forall_empty | done].
  - done.
  - eauto.
Qed.

Definition ex_calls_state : NameQueueManager :=
  (release_name "org.a" 1 (request_name "org.a" 2 ":mux.2" 0
    (request_name "org.a" 1 ":mux.1" 0 NameQueueManager_new).1).1).1.

Lemma name_queue_refines_spec_witness :
  exists s, trace spec_step (fun _ => [])
    [CRequest "org.a" 1 ":mux.1" 0 (mkRequestNameResult 1 true None);
     CRequest "org.a" 2 ":mux.2" 0 (mkRequestNameResult 2 false None);
     CRelease "org.a" 1 (mkReleaseNameResult 1 false (Some (2%Z, ":mux.2")))] s /\
    forall n, owners ex_calls_state n = s n.
Proof.
  apply (name_queue_refines_spec _ ex_calls_state). unfold ex_calls_state.
  repeat (eapply trace_cons; [constructor; vm_compute; reflexivity |]). apply trace_nil.
Defined.

(** Invariant: in every reachable manager each stored queue has a primary
    owner and no client stands in the same queue twice. *)
Lemma name_queue_invariant calls self :
  trace manager_step NameQueueManager_new calls self -> manager_ok self.
Proof.
  apply (trace_invariant manager_step manager_ok).
  - intros s l s' Hok Hst. by eapply manager_step_simulates.
  - apply map_Forall_empty.
Qed.

Lemma name_queue_invariant_witness :
  manager_ok (request_name "org.a" 1 ":mux.1" 0 NameQueueManager_new).1.
Proof.
  apply (name_queue_invariant [CRequest "org.a" 1 ":mux.1" 0 (mkRequestNameResult 1 true None)]).
  eapply trace_cons; [constructor; vm_compute; reflexivity | apply trace_nil].
Defined.

(** The result of [remove_client] does not depend on the order in which
    the [HashMap] is iterated: the final queues are equal and the reported
    ownership changes are the same up to order. *)
Lemma remove_client_order_independent order order' c self :
  order ≡ₚ (map_to_list (queues self)).*1 -> order' ≡ₚ (map_to_list (queues self)).*1 ->
  (remove_client_in order c self).1 = (remove_client_in order' c self).1 /\
  (remove_client_in order c self).2 ≡ₚ (remove_client_in order' c self).2.
Proof.
  intros H1 H2.
  destruct (remove_client_in_spec order c self H1) as [Hq1 Hr1].
  destruct (remove_client_in_spec order' c self H2) as [Hq2 Hr2]. split.
  - destruct (remove_client_in order c self).1 as [m1], (remove_client_in order' c self).1 as [m2].
    f_equal. apply map_eq. intros n. simpl in *. by rewrite Hq1, Hq2.
  - rewrite Hr1, Hr2. apply omap_Permutation. by rewrite H1, H2.
Qed.

Definition ex_two_names : NameQueueManager :=
  (request_name "org.b" 1 ":mux.1" 0 (request_name "org.a" 1 ":mux.1" 0 NameQueueManager_new).1).1.

Lemma remove_client_order_independent_witness :
  (remove_client_in ["org.a"; "org.b"] 1 ex_two_names).1 =
    (remove_client_in ["org.b"; "org.a"] 1 ex_two_names).1 /\
  (remove_client_in ["org.a"; "org.b"] 1 ex_two_names).2 ≡ₚ
    (remove_client_in ["org.b"; "org.a"] 1 ex_two_names).2.
Proof.
  apply (remove_client_order_independent ["org.a"; "org.b"] ["org.b"; "org.a"] 1 ex_two_names);
    apply (bool_decide_unpack _); vm_compute; exact I.
Defined.

(** When the upstream bus refuses a RequestName that the queue granted,
    the [release_name] issued by the error path restores the manager exactly,
    also when the grant had replaced another owner. *)
Lemma release_reverts_granted_request n c u f self :
  manager_ok self ->
  rq_forward_to_bus (request_name n c u f self).2 = true ->
  (release_name n c (request_name n c u f self).1).1 = self.
Proof.
  intros Hok. destruct self as [m]. unfold request_name, release_name. simpl.
  destruct (manager_lookup (mkNameQueueManager m) n Hok) as [[E _]|(o & ws & E & _ & Hq)];
    simpl in E; rewrite E; unfold is_primary_owner, contains_client; simpl.
  - rewrite lookup_insert_eq. simpl. rewrite Z.eqb_refl. intros _. simpl.
    rewrite delete_insert_eq, delete_id by done. done.
  - destruct (Z.eqb_spec (qe_client_id o) c); simpl; [done |].
    destruct (existsb _ _); simpl; [done |].
    destruct (_ && _); simpl; [| by destruct (has_flag _ _)].
    intros _. rewrite lookup_insert_eq. simpl. rewrite Z.eqb_refl. simpl.
    rewrite insert_insert_eq. by rewrite insert_id.
Qed.

Definition ex_replaceable : NameQueueManager :=
  (request_name "org.a" 1 ":mux.1" 1 NameQueueManager_new).1.

Lemma release_reverts_granted_request_witness :
  rq_replaced_owner (request_name "org.a" 2 ":mux.2" 2 ex_replaceable).2 = Some ":mux.1" /\
  (release_name "org.a" 2 (request_name "org.a" 2 ":mux.2" 2 ex_replaceable).1).1 = ex_replaceable.
Proof.
  split; [vm_compute; reflexivity |].
  apply release_reverts_granted_request; [| vm_compute; reflexivity].
  apply (bool_decide_unpack _); vm_compute; exact I.
Defined.

Lemma get_primary_owner_head self n :
  manager_ok self ->
  get_primary_owner n self = (fun e => (qe_client_id e, qe_unique_name e)) <$> head (owners self n).
Proof.
  intros Hok. unfold get_primary_owner.
  destruct (manager_lookup self n Hok) as [[E Ho]|(o & ws & E & Ho & _)]; by rewrite E, Ho.
Qed.

(** A RequestName is forwarded to the upstream bus exactly when it makes
    the caller the primary owner in place of nobody or of somebody else; the
    other names keep their owners. *)
Lemma request_forwards_iff_owner_changes n c u f self :
  manager_ok self ->
  let self' := (request_name n c u f self).1 in
  (rq_forward_to_bus (request_name n c u f self).2 = true <->
   get_primary_owner n self' = Some (c, u) /\
   fst <$> get_primary_owner n self <> Some c) /\
  (rq_forward_to_bus (request_name n c u f self).2 = false ->
   get_primary_owner n self' = get_primary_owner n self) /\
  (forall n', n' <> n -> get_primary_owner n' self' = get_primary_owner n' self).
Proof.
  intros Hok. simpl. pose proof (request_name_spec self n c u f Hok) as (Hok' & Hr & Ho).
  rewrite !get_primary_owner_head by done. rewrite Hr, (Ho n), decide_True by done.
  split_and!; [| | intros n' Hn'; by rewrite !get_primary_owner_head, Ho, decide_False by done].
  - destruct (owners self n) as [|o ws] eqn:E; simpl; [naive_solver |].
    split_match; naive_solver.
  - destruct (owners self n) as [|o ws] eqn:E; simpl; [done |]. by split_match.
Qed.

Lemma request_forwards_iff_owner_changes_witness :
  get_primary_owner "org.a" (request_name "org.a" 2 ":mux.2" 2 ex_replaceable).1 =
    Some (2%Z, ":mux.2") /\
  fst <$> get_primary_owner "org.a" ex_replaceable <> Some 2%Z.
Proof.
  apply request_forwards_iff_owner_changes; [| vm_compute; reflexivity].
  apply (bool_decide_unpack _); vm_compute; exact I.
Defined.

(** Clients that leave one after the other. *)
Definition release_all (n : string) (cs : list Z) (self : NameQueueManager) : NameQueueManager :=
  fold_left (fun m c => (release_name n c m).1) cs self.

Lemma release_all_owners n cs self :
  manager_ok self ->
  manager_ok (release_all n cs self) /\
  owners (release_all n cs self) n = fold_left (fun l c => Spec.leave c l) cs (owners self n).
Proof.
  revert self. induction cs as [|c cs IH]; intros self Hok; [done |].
  pose proof (release_name_spec self n c Hok) as (Hok' & _ & Ho).
  unfold release_all in *. cbn [fold_left]. destruct (IH _ Hok') as [H1 H2]. split; [done |].
  rewrite H2, Ho, decide_True by done. done.
Qed.

Lemma fold_leave_filter cs l :
  fold_left (fun l c => Spec.leave c l) cs l = filter (fun e => qe_client_id e ∉ cs) l.
Proof.
  revert l. induction cs as [|c cs IH]; intros l; cbn [fold_left].
  - symmetry. apply list_filter_all_id. apply Forall_forall. intros e _. apply not_elem_of_nil.
  - rewrite IH. unfold Spec.leave. rewrite list_filter_filter.
    apply list_filter_iff. intros e. rewrite not_elem_of_cons. naive_solver.
Qed.

(** No waiter is starved or overtaken: once every client ahead of it has
    released the name, in whatever order they do, the waiter is the primary
    owner and those behind it keep their places. *)
Lemma waiter_becomes_owner n self ahead e behind cs :
  manager_ok self ->
  owners self n = ahead ++ e :: behind ->
  cs ≡ₚ map qe_client_id ahead ->
  get_primary_owner n (release_all n cs self) = Some (qe_client_id e, qe_unique_name e) /\
  owners (release_all n cs self) n = e :: behind.
Proof.
  intros Hok Ho Hcs. destruct (release_all_owners n cs self Hok) as [Hok' Hall].
  enough (owners (release_all n cs self) n = e :: behind) as H.
  { split; [| done]. by rewrite get_primary_owner_head, H. }
  assert (NoDup (map qe_client_id (owners self n))) as Hnd.
  { destruct (manager_lookup self n Hok) as [[_ ->]|(o & ws & _ & -> & Hq)]; [constructor |].
    apply queue_ok_inv in Hq as (? & ? & [= <- <-] & ? & ?). by apply NoDup_cons. }
  rewrite Ho, map_app in Hnd. apply NoDup_app in Hnd as (_ & Hdisj & _).
  rewrite Hall, Ho, fold_leave_filter, filter_app.
  rewrite list_filter_all_nil.
  - simpl. apply list_filter_all_id. apply Forall_forall. intros x Hx. rewrite Hcs.
    intros Hin. apply (Hdisj _ Hin). by apply list_elem_of_fmap_2.
  - apply Forall_forall. intros x Hx Hn. apply Hn. rewrite Hcs. by apply list_elem_of_fmap_2.
Qed.

Definition ex_three : NameQueueManager :=
  (request_name "org.a" 3 ":mux.3" 0 (request_name "org.a" 2 ":mux.2" 0
    (request_name "org.a" 1 ":mux.1" 0 NameQueueManager_new).1).1).1.

Lemma waiter_becomes_owner_witness :
  get_primary_owner "org.a" (release_all "org.a" [2%Z; 1%Z] ex_three) = Some (3%Z, ":mux.3") /\
  owners (release_all "org.a" [2%Z; 1%Z] ex_three) "org.a" = [mkQueueEntry 3 ":mux.3" false].
Proof.
  apply (waiter_becomes_owner "org.a" ex_three
    [mkQueueEntry 1 ":mux.1" false; mkQueueEntry 2 ":mux.2" false]
    (mkQueueEntry 3 ":mux.3" false) []); [| vm_compute; reflexivity | apply Permutation_swap].
  apply (bool_decide_unpack _); vm_compute; exact I.
Defined.
