(* ===== verification/SerialMap.v ===== *)
(** * Serial numbers and pending calls (src/src/serial_map.rs)

    Every call forwarded to a bus gets a serial number of that bus connection;
    [SerialMap] remembers which client made it, so that the reply can be given
    back under the client's own serial.  Time is in nanoseconds, read by the
    caller: an operation that calls [Instant::now] takes [now] as an argument. *)

From S2P Require Import Prelude Routing.

#[local] Open Scope Z_scope.

(** ** Data *)

Record SerialKey := mkSerialKey {
  sk_route : Route;
  sk_serial : Z;
}.

#[export] Instance SerialKey_eq_dec : EqDecision SerialKey.
Proof. solve_decision. Defined.
#[export] Instance SerialKey_countable : Countable SerialKey.
Proof.
  refine (inj_countable' (fun k => (sk_route k, sk_serial k)) (fun p => mkSerialKey p.1 p.2) _).
  by intros [].
Defined.

Record PendingCall := mkPendingCall {
  pc_client_id : Z;
  pc_client_serial : Z;
  pc_timestamp : Z;
}.

Record SerialMap := mkSerialMap {
  pending : gmap SerialKey PendingCall;
  sm_timeout : Z;
}.

Definition from_secs (s : Z) : Z := s * 1000000000.

(** [Instant::duration_since] saturates at zero. *)
Definition duration_since (now earlier : Z) : Z := Z.max 0 (now - earlier).

(** ** Operations *)

Definition with_timeout (timeout : Z) : SerialMap := mkSerialMap ∅ timeout.

Definition SerialMap_new : SerialMap := with_timeout (from_secs 30).

Definition SerialMap_default : SerialMap := SerialMap_new.

Definition sm_insert (now : Z) (route : Route) (forwarded_serial client_id client_serial : Z)
    (self : SerialMap) : SerialMap :=
  mkSerialMap
    (<[mkSerialKey route forwarded_serial := mkPendingCall client_id client_serial now]>
      (pending self))
    (sm_timeout self).

Definition sm_remove (route : Route) (reply_serial : Z) (self : SerialMap)
    : SerialMap * option PendingCall :=
  let key := mkSerialKey route reply_serial in
  (mkSerialMap (delete key (pending self)) (sm_timeout self), pending self !! key).

(** The predicate of [retain]: the call is still within its timeout. *)
Definition unexpired (now timeout : Z) (call : PendingCall) : Prop :=
  duration_since now (pc_timestamp call) < timeout.

#[export] Instance unexpired_dec now timeout call : Decision (unexpired now timeout call).
Proof. unfold unexpired. apply _. Defined.

Definition sm_cleanup_expired (now : Z) (self : SerialMap) : SerialMap * nat :=
  let before := size (pending self) in
  let kept := filter (fun kv => unexpired now (sm_timeout self) kv.2) (pending self) in
  (mkSerialMap kept (sm_timeout self), (before - size kept)%nat).

Definition sm_len (self : SerialMap) : nat := size (pending self).

Definition sm_is_empty (self : SerialMap) : bool := bool_decide (pending self = ∅).

Definition pending_for_client (client_id : Z) (self : SerialMap) : nat :=
  length (List.filter (fun call => (pc_client_id call =? client_id)%Z)
    (map_to_list (pending self)).*2).

(** ** Serial numbers

    The counter is an [AtomicU32]; [fetch_add] returns the old value and wraps
    around. *)

Record SerialGenerator := mkSerialGenerator {
  counter : Z;
}.

Definition SerialGenerator_new : SerialGenerator := mkSerialGenerator 1.

Definition SerialGenerator_default : SerialGenerator := SerialGenerator_new.

Definition fetch_add (self : SerialGenerator) : SerialGenerator * Z :=
  (mkSerialGenerator (wrap32 (counter self + 1)), counter self).

Definition next (self : SerialGenerator) : SerialGenerator * Z :=
  let '(g, serial) := fetch_add self in
  if (serial =? 0)%Z then fetch_add g else (g, serial).

(** The serials of [k] calls in a row. *)
Fixpoint serials (k : nat) (g : SerialGenerator) : list Z :=
  match k with
  | O => []
  | S k => (next g).2 :: serials k (next g).1
  end.

(** *** Threads sharing the generator

    [next] is one or two atomic [fetch_add]s; other threads may run between
    them.  [waiting] holds the threads that read 0 and are about to retry,
    [issued] what the finished calls returned. *)

Record GenWorld := mkGenWorld {
  gw_gen : SerialGenerator;
  gw_waiting : gset nat;
  gw_issued : list Z;
}.

Inductive gen_step : GenWorld -> nat -> GenWorld -> Prop :=
| gen_first w tid g serial :
    tid ∉ gw_waiting w -> fetch_add (gw_gen w) = (g, serial) -> serial <> 0 ->
    gen_step w tid (mkGenWorld g (gw_waiting w) (serial :: gw_issued w))
| gen_zero w tid g serial :
    tid ∉ gw_waiting w -> fetch_add (gw_gen w) = (g, serial) -> serial = 0 ->
    gen_step w tid (mkGenWorld g ({[tid]} ∪ gw_waiting w) (gw_issued w))
| gen_retry w tid g serial :
    tid ∈ gw_waiting w -> fetch_add (gw_gen w) = (g, serial) ->
    gen_step w tid (mkGenWorld g (gw_waiting w ∖ {[tid]}) (serial :: gw_issued w)).

(** ** Lemmas *)

(** The serial the next call returns. *)
Definition upcoming (g : SerialGenerator) : Z := if (counter g =? 0) then 1 else counter g.

Lemma next_upcoming g : (next g).2 = upcoming g.
Proof.
  unfold next, fetch_add, upcoming, wrap32. simpl.
  destruct (Z.eqb_spec (counter g) 0) as [->|]; done.
Qed.

Lemma next_counter g :
  0 <= counter g < u32_modulus -> 0 <= counter (next g).1 < u32_modulus.
Proof.
  intros H. unfold next, fetch_add, wrap32. simpl.
  destruct (_ =? _); apply Z.mod_pos_bound; unfold u32_modulus; lia.
Qed.

(** Serials cycle through 1 .. 2^32 - 1. *)
Lemma upcoming_next g :
  0 <= counter g < u32_modulus ->
  upcoming (next g).1 = upcoming g mod (u32_modulus - 1) + 1.
Proof.
  intros H. unfold next, fetch_add, upcoming, wrap32. simpl. unfold u32_modulus in *.
  destruct (Z.eqb_spec (counter g) 0) as [->|Hc]; [done |]. simpl.
  destruct (Z.eq_dec (counter g) (2 ^ 32 - 1)) as [->|Hne]; [done |].
  rewrite !Z.mod_small by lia. destruct (Z.eqb_spec (counter g + 1) 0); lia.
Qed.

Lemma upcoming_range g : 0 <= counter g < u32_modulus -> 1 <= upcoming g <= u32_modulus - 1.
Proof. unfold upcoming, u32_modulus. intros H. destruct (Z.eqb_spec (counter g) 0); lia. Qed.

Lemma serials_lookup k g i :
  0 <= counter g < u32_modulus -> (i < k)%nat ->
  serials k g !! i = Some ((upcoming g - 1 + Z.of_nat i) mod (u32_modulus - 1) + 1).
Proof.
  revert g i. induction k as [|k IH]; intros g i Hg Hi; [lia |].
  pose proof (upcoming_range g Hg) as Hr. unfold u32_modulus in *. cbn [serials].
  destruct i as [|i]; simpl.
  - rewrite next_upcoming. f_equal. rewrite Z.mod_small by lia. lia.
  - rewrite IH by (try apply next_counter; try done; lia).
    rewrite upcoming_next by done. unfold u32_modulus. f_equal. f_equal.
    replace (upcoming g mod (2 ^ 32 - 1) + 1 - 1) with (upcoming g mod (2 ^ 32 - 1)) by lia.
    rewrite Zplus_mod_idemp_l. f_equal. lia.
Qed.

Lemma serials_length k g : length (serials k g) = k.
Proof. revert g. induction k; intros; simpl; auto. Qed.

Lemma serials_nodup k g :
  0 <= counter g < u32_modulus -> Z.of_nat k <= u32_modulus - 1 -> NoDup (serials k g).
Proof.
  intros Hg Hk. apply NoDup_alt. intros i j s Hi Hj.
  assert (i < k)%nat as Li by (apply lookup_lt_Some in Hi; by rewrite serials_length in Hi).
  assert (j < k)%nat as Lj by (apply lookup_lt_Some in Hj; by rewrite serials_length in Hj).
  rewrite (serials_lookup k g) in Hi, Hj by done. rewrite <- Hj in Hi. injection Hi as Hi.
  pose proof (upcoming_range g Hg). unfold u32_modulus in *.
  assert ((2 ^ 32 - 1 | Z.of_nat i - Z.of_nat j)) as [q Hq].
  { apply Z.mod_divide; [lia |].
    replace (Z.of_nat i - Z.of_nat j) with
      ((upcoming g - 1 + Z.of_nat i) - (upcoming g - 1 + Z.of_nat j)) by lia.
    rewrite Zminus_mod. replace ((upcoming g - 1 + Z.of_nat i) mod (2 ^ 32 - 1))
      with ((upcoming g - 1 + Z.of_nat j) mod (2 ^ 32 - 1)) by lia.
    by rewrite Z.sub_diag. }
  nia.
Qed.

(** ** Properties *)

(** Serial numbers are valid and do not repeat: the calls of a generator
    return values from 1 to 2^32 - 1, never the invalid 0, and any 2^32 - 1
    calls in a row return different ones, across the wrap-around included. *)
Lemma serials_nonzero_distinct k g :
  0 <= counter g < u32_modulus ->
  Forall (fun s => 1 <= s <= u32_modulus - 1) (serials k g) /\
  (Z.of_nat k <= u32_modulus - 1 -> NoDup (serials k g)).
Proof.
  intros Hg. split.
  - apply Forall_lookup. intros i s Hs.
    assert (i < k)%nat as Hi by (apply lookup_lt_Some in Hs; by rewrite serials_length in Hs).
    rewrite (serials_lookup k g i Hg Hi) in Hs. injection Hs as <-.
    pose proof (Z.mod_pos_bound (upcoming g - 1 + Z.of_nat i) (u32_modulus - 1)).
    unfold u32_modulus in *. lia.
  - by apply serials_nodup.
Qed.

Lemma serials_nonzero_distinct_witness :
  NoDup (serials 3 (mkSerialGenerator (2 ^ 32 - 1))) /\
  serials 3 (mkSerialGenerator (2 ^ 32 - 1)) = [2 ^ 32 - 1; 1; 2].
Proof.
  split; [| vm_compute; reflexivity].
  apply (serials_nonzero_distinct 3 (mkSerialGenerator (2 ^ 32 - 1)));
    [split; vm_compute; congruence | vm_compute; congruence].
Defined.

(** Position of a [fetch_add] within a window that started at counter [c0]. *)
Definition nth_read (c0 : Z) (i : nat) : Z := (c0 + Z.of_nat i) mod u32_modulus.

Lemma nth_read_inj c0 i j :
  Z.of_nat i < u32_modulus -> Z.of_nat j < u32_modulus -> nth_read c0 i = nth_read c0 j -> i = j.
Proof.
  unfold nth_read, u32_modulus. intros Hi Hj H.
  pose proof (Z.div_mod (c0 + Z.of_nat i) (2 ^ 32) ltac:(lia)).
  pose proof (Z.div_mod (c0 + Z.of_nat j) (2 ^ 32) ltac:(lia)).
  assert (Z.of_nat i - Z.of_nat j =
    2 ^ 32 * ((c0 + Z.of_nat i) / 2 ^ 32 - (c0 + Z.of_nat j) / 2 ^ 32)) by lia.
  nia.
Qed.

(** What holds after [n] atomic steps of a window: every issued serial is the
    read of one earlier step, no two of the same, and a thread waits only if
    an earlier step read 0. *)
Definition gen_window (c0 : Z) (n : nat) (w : GenWorld) : Prop :=
  counter (gw_gen w) = nth_read c0 n /\
  NoDup (gw_issued w) /\
  (forall s, s ∈ gw_issued w -> s <> 0 /\ exists i, (i < n)%nat /\ s = nth_read c0 i) /\
  (gw_waiting w <> ∅ -> exists i, (i < n)%nat /\ nth_read c0 i = 0).

Lemma nth_read_succ c0 n : wrap32 (nth_read c0 n + 1) = nth_read c0 (S n).
Proof. unfold nth_read, wrap32. rewrite Zplus_mod_idemp_l. f_equal. lia. Qed.

Lemma gen_window_issue c0 n w waiting :
  Z.of_nat n < u32_modulus -> gen_window c0 n w -> nth_read c0 n <> 0 ->
  (waiting <> ∅ -> gw_waiting w <> ∅) ->
  gen_window c0 (S n) (mkGenWorld (fetch_add (gw_gen w)).1 waiting
    ((fetch_add (gw_gen w)).2 :: gw_issued w)).
Proof.
  intros Hn (Hc & Hnd & Hi & Hw) Hz Hwt. unfold fetch_add. simpl. rewrite Hc.
  split_and!; simpl.
  - apply nth_read_succ.
  - apply NoDup_cons. split; [| done]. intros (_ & i & Hlt & Heq)%Hi.
    apply nth_read_inj in Heq; lia.
  - intros s [->|Hs]%elem_of_cons; [split; [done |]; exists n; split; [lia | done] |].
    destruct (Hi s Hs) as (? & i & ? & ?). split; [done |]. exists i. split; [lia | done].
  - intros H. destruct (Hw (Hwt H)) as (i & ? & ?). exists i. split; [lia | done].
Qed.

Lemma gen_window_step c0 n w tid w' :
  Z.of_nat n < u32_modulus -> gen_window c0 n w -> gen_step w tid w' -> gen_window c0 (S n) w'.
Proof.
  intros Hn Hw Hst. pose proof Hw as (Hc & Hnd & Hi & Hwait).
  destruct Hst as [w tid g s Ht E Hs|w tid g s Ht E ->|w tid g s Ht E].
  - change g with (g, s).1. change (s :: gw_issued w) with ((g, s).2 :: gw_issued w).
    rewrite <- E. apply gen_window_issue; try done. injection E as _ <-. by rewrite <- Hc.
  - injection E as <- E. split_and!; simpl.
    + rewrite Hc. apply nth_read_succ.
    + done.
    + intros s Hs. destruct (Hi s Hs) as (? & i & ? & ?). split; [done |]. exists i. split; [lia | done].
    + intros _. exists n. split; [lia | congruence].
  - change g with (g, s).1. change (s :: gw_issued w) with ((g, s).2 :: gw_issued w).
    rewrite <- E. apply gen_window_issue; try done.
    + intros Hz. destruct Hwait as (i & Hlt & Hi0); [set_solver |].
      assert (i = n) by (apply (nth_read_inj c0); lia || congruence). lia.
    + set_solver.
Qed.

Lemma gen_window_trace c0 n w tids w' :
  Z.of_nat (n + length tids) <= u32_modulus -> gen_window c0 n w -> trace gen_step w tids w' ->
  gen_window c0 (n + length tids) w'.
Proof.
  intros Hn Hw Htr. revert n Hn Hw. induction Htr as [w|w t w1 ts w2 Hst Htr IH]; intros n Hn Hw.
  - by rewrite Nat.add_0_r.
  - simpl in *. rewrite <- Nat.add_succ_comm. apply IH; [lia |].
    eapply gen_window_step; [lia | done | done].
Qed.

(** C25. The generator is safe to share: however the atomic steps of concurrent
    [next] calls interleave, over a window of at most 2^32 atomic steps no two
    calls get the same serial and none gets 0, even when the counter wraps
    between the two steps of a call. *)
Theorem concurrent_serials_distinct c0 tids w :
  0 <= c0 < u32_modulus ->
  Z.of_nat (length tids) <= u32_modulus ->
  trace gen_step (mkGenWorld (mkSerialGenerator c0) ∅ []) tids w ->
  NoDup (gw_issued w) /\ 0 ∉ gw_issued w.
Proof.
  intros Hc Hn Htr. 
  destruct (gen_window_trace c0 0 (mkGenWorld (mkSerialGenerator c0) ∅ []) tids w)
    as (_ & Hnd & Hi & _); [done | | done |].
  - split_and!; simpl.
    + unfold nth_read. rewrite Z.mod_small; lia.
    + constructor.
    + by intros s ?%not_elem_of_nil.
    + done.
  - split; [done |]. by intros [? _]%Hi.
Qed.

Lemma concurrent_serials_distinct_witness :
  NoDup [2; 1] /\ 0 ∉ [2; 1].
Proof.
  (* thread 0 reads 0, thread 1 takes 1 in between, thread 0 retries and gets 2 *)
  refine (concurrent_serials_distinct 0 [0%nat; 1%nat; 0%nat]
    (mkGenWorld (mkSerialGenerator 3) ∅ [2; 1]) _ _ _).
  - split; vm_compute; congruence.
  - vm_compute; congruence.
  - eapply trace_cons; [eapply (gen_zero _ 0%nat); [set_solver | reflexivity | reflexivity] |].
    eapply trace_cons; [eapply (gen_first _ 1%nat); [set_solver | reflexivity | done] |].
    eapply trace_cons; [eapply (gen_retry _ 0%nat); [set_solver | reflexivity] |]. simpl.
    replace (({[0%nat]} ∪ ∅) ∖ {[0%nat]} : gset nat) with (∅ : gset nat) by set_solver.
    apply trace_nil.
Defined.

(** [cleanup_expired] drops exactly the calls that are at least a timeout
    old, leaves the others as they are and returns how many it dropped. *)
Lemma cleanup_expired_exact now self k call :
  (pending (sm_cleanup_expired now self).1 !! k = Some call <->
     pending self !! k = Some call /\ now - pc_timestamp call < sm_timeout self /\
     0 < sm_timeout self) /\
  (sm_len (sm_cleanup_expired now self).1 + (sm_cleanup_expired now self).2)%nat = sm_len self.
Proof.
  unfold sm_cleanup_expired, sm_len. simpl. split.
  - rewrite map_lookup_filter_Some. unfold unexpired, duration_since. simpl. naive_solver lia.
  - assert (size (filter (fun kv => unexpired now (sm_timeout self) kv.2) (pending self))
      <= size (pending self))%nat; [| lia].
    apply map_subseteq_size, map_filter_subseteq.
Qed.

(** Insert/lookup round trip: a reply finds the call recorded under its
    bus and serial, once; calls recorded under another bus or serial are not
    affected by either operation. *)
Lemma serial_map_roundtrip now r s c cs self r' s' :
  let m := sm_insert now r s c cs self in
  (sm_remove r s m).2 = Some (mkPendingCall c cs now) /\
  (sm_remove r s (sm_remove r s m).1).2 = None /\
  ((r', s') <> (r, s) ->
     (sm_remove r' s' m).2 = (sm_remove r' s' self).2 /\
     (sm_remove r' s' (sm_remove r s m).1).2 = (sm_remove r' s' self).2).
Proof.
  intros m. unfold sm_remove, m, sm_insert. simpl.
  split_and!; [by rewrite lookup_insert_eq | by rewrite lookup_delete_eq |].
  intros Hne. rewrite lookup_delete_ne, !lookup_insert_ne by congruence. done.
Qed.
