(* ===== verification/Zbus.v ===== *)
(** * The interface to zbus

    The multiplexer reads, builds and forwards messages through the zbus crate,
    whose code is not part of the repository.  [Zbus] lists the operations the
    sources call, as parameters; [ZbusLaws] states the documented behaviour the
    theorems rely on.  [SimpleZbus] is a concrete implementation that satisfies
    the laws, for evaluating the definitions on examples. *)

From S2P Require Import Prelude.

#[local] Open Scope Z_scope.

(** [zbus::message::Type]. *)
Inductive MessageType := MethodCall | MethodReturn | ErrorReply | Signal.

#[export] Instance MessageType_eq_dec : EqDecision MessageType.
Proof. solve_decision. Defined.

(** [zvariant::Endian]. *)
Inductive Endian := Little | Big.

(** [zvariant::Value], as far as the sources tell its variants apart. *)
Inductive Value := VStr (s : string) | VObjectPath (p : string) | VOther.

(** The Rust types message bodies are deserialized to. *)
Inductive body_type :=
| BStr            (* String *)
| BU32            (* u32 *)
| BBool           (* bool *)
| BStrs           (* Vec<String> *)
| BStrU32         (* (String, u32) *)
| BStr1           (* (String,) *)
| BStr2           (* (String, String) *)
| BStr3           (* (String, String, String) *)
| BStructure      (* zvariant::Structure: its fields *)
| BPath           (* ObjectPath *)
| BPath1          (* (ObjectPath,) *)
| BResponse.      (* (u32, HashMap<String, OwnedValue>): the response code *)

Definition body_val (t : body_type) : Type :=
  match t with
  | BStr | BStr1 | BPath | BPath1 => string
  | BU32 | BResponse => Z
  | BBool => bool
  | BStrs => list string
  | BStrU32 => string * Z
  | BStr2 => string * string
  | BStr3 => string * string * string
  | BStructure => list Value
  end.

(** The bodies the multiplexer serializes. *)
Inductive Body :=
| BodyUnit
| BodyStr (s : string)
| BodyU32 (n : Z)
| BodyBool (b : bool)
| BodyStrs (l : list string)
| BodyText (message : string)            (* the 1-tuple of an error reply *)
| BodyDict (entries : list (string * Z)). (* HashMap<String, OwnedValue> of u32 values *)

(** The header fields of a message, or those set in a builder. *)
Record Fields := mkFields {
  f_type : MessageType;
  f_destination : option string;
  f_sender : option string;
  f_interface : option string;
  f_member : option string;
  f_path : option string;
  f_reply_serial : option Z;
}.

Definition set_destination (d : string) (f : Fields) : Fields :=
  mkFields (f_type f) (Some d) (f_sender f) (f_interface f) (f_member f) (f_path f)
    (f_reply_serial f).

Definition set_path (p : string) (f : Fields) : Fields :=
  mkFields (f_type f) (f_destination f) (f_sender f) (f_interface f) (f_member f) (Some p)
    (f_reply_serial f).

Definition set_reply_serial (r : option Z) (f : Fields) : Fields :=
  mkFields (f_type f) (f_destination f) (f_sender f) (f_interface f) (f_member f) (f_path f) r.

Class Zbus := {
  Message : Type;
  Builder : Type;
  ZError : Type;
  Fd : Type;
  Signature : Type;
  zerror_text : ZError -> string;
  (* the name of a [MethodError], if the error is one *)
  method_error_name : ZError -> option string;
  (* header *)
  msg_fields : Message -> Fields;
  serial_num : Message -> Z;
  (* raw bytes *)
  data_bytes : Message -> list Z;
  from_bytes : Endian -> list Z -> result ZError Message;
  (* body *)
  deserialize : forall t : body_type, Message -> result ZError (body_val t);
  body_bytes : Message -> list Z;
  signature : Message -> Signature;
  body_fds : Message -> list Fd;
  try_to_owned : Fd -> result string Fd;
  (* builders *)
  new_method_return : Message -> result ZError Builder;
  new_error : Message -> string -> result ZError Builder;
  builder_from : Message -> Builder;
  b_destination : string -> Builder -> result ZError Builder;
  b_path : string -> Builder -> result ZError Builder;
  b_reply_serial : option Z -> Builder -> Builder;
  b_serial : Z -> Builder -> Builder;
  b_build : Body -> Builder -> result ZError Message;
  b_build_raw : list Z -> Signature -> list Fd -> Builder -> result ZError Message;
  (* the fields a builder has been given so far *)
  builder_fields : Builder -> Fields;
  (* checked name types: [try_from(&str)] gives the name back or an error text *)
  bus_name_try_from : string -> result string string;
  error_name_try_from : string -> result string string;
  object_path_try_from : string -> result string string;
}.

(** ** Serial numbers on the wire *)

Definition le_bytes (n : Z) : list Z :=
  [n mod 256; n / 256 mod 256; n / 65536 mod 256; n / 16777216 mod 256].

Definition be_bytes (n : Z) : list Z := reverse (le_bytes n).

Definition le_value (bs : list Z) : Z :=
  match bs with
  | [a; b; c; d] => a + 256 * b + 65536 * c + 16777216 * d
  | _ => 0
  end.

Definition be_value (bs : list Z) : Z := le_value (reverse bs).

(** Byte 0 is ['l'] in a little-endian message; bytes 8 to 11 are its serial. *)
Definition is_little (bs : list Z) : bool := bool_decide (bs !! 0%nat = Some 108).

Definition wire_serial (bs : list Z) : Z :=
  let field := take 4 (drop 8 bs) in
  if is_little bs then le_value field else be_value field.

Lemma le_bytes_value n : 0 <= n < u32_modulus -> le_value (le_bytes n) = n.
Proof.
  unfold le_value, le_bytes, u32_modulus. intros H.
  pose proof (Z.div_mod n 256 ltac:(lia)). pose proof (Z.div_mod (n / 256) 256 ltac:(lia)).
  pose proof (Z.div_mod (n / 256 / 256) 256 ltac:(lia)).
  change 65536 with (256 * 256). change 16777216 with (256 * 256 * 256).
  rewrite <- !Z.div_div by lia.
  rewrite (Z.mod_small (n / 256 / 256 / 256)); [lia |].
  split; [repeat apply Z.div_pos; lia |]. rewrite !Z.div_div by lia.
  apply Z.div_lt_upper_bound; lia.
Qed.

Lemma be_bytes_value n : 0 <= n < u32_modulus -> be_value (be_bytes n) = n.
Proof. intros H. unfold be_value, be_bytes. rewrite reverse_involutive. by apply le_bytes_value. Qed.

(** ** Documented behaviour *)

Class ZbusLaws `{Zbus} : Prop := {
  new_method_return_fields m b :
    new_method_return m = Ok b ->
    f_type (builder_fields b) = MethodReturn /\
    f_reply_serial (builder_fields b) = Some (serial_num m);
  new_error_fields m n b :
    new_error m n = Ok b ->
    f_type (builder_fields b) = ErrorReply /\
    f_reply_serial (builder_fields b) = Some (serial_num m);
  builder_from_fields m : builder_fields (builder_from m) = msg_fields m;
  b_destination_fields d b b' :
    b_destination d b = Ok b' -> builder_fields b' = set_destination d (builder_fields b);
  b_path_fields p b b' :
    b_path p b = Ok b' -> builder_fields b' = set_path p (builder_fields b);
  b_reply_serial_fields r b :
    builder_fields (b_reply_serial r b) = set_reply_serial r (builder_fields b);
  b_serial_fields n b : builder_fields (b_serial n b) = builder_fields b;
  b_build_fields x b m : b_build x b = Ok m -> msg_fields m = builder_fields b;
  b_build_raw_spec bs sig fds b m :
    b_build_raw bs sig fds b = Ok m ->
    msg_fields m = builder_fields b /\ body_bytes m = bs /\ signature m = sig /\ body_fds m = fds;
  from_bytes_data e bs m : from_bytes e bs = Ok m -> data_bytes m = bs;
  (* a checked name is the string it was made from *)
  bus_name_id d n : bus_name_try_from d = Ok n -> n = d;
  error_name_id d n : error_name_try_from d = Ok n -> n = d;
  object_path_id p q : object_path_try_from p = Ok q -> q = p;
  (* a message has at least its 16-byte fixed header, and its serial is a NonZeroU32 there *)
  data_bytes_length m : (16 <= length (data_bytes m))%nat;
  serial_num_wire m : serial_num m = wire_serial (data_bytes m);
  serial_num_range m : 1 <= serial_num m < u32_modulus;
  (* everything but the serial is outside bytes 8 to 11 *)
  same_outside_serial m m' :
    take 8 (data_bytes m) = take 8 (data_bytes m') ->
    drop 12 (data_bytes m) = drop 12 (data_bytes m') ->
    msg_fields m = msg_fields m' /\ body_bytes m = body_bytes m';
}.
