(* ===== verification/SimpleZbus.v ===== *)
(** * A concrete zbus for examples

    An implementation of the [Zbus] interface that satisfies [ZbusLaws] and
    computes: witnesses instantiate the theorems with it.  A message is its
    header fields, its serial and a body given by a tag, strings and numbers;
    its byte form is the fixed header followed by one code for the rest.  It
    stands for no code of the repository. *)

From S2P Require Import Prelude RustStr Zbus.

#[local] Open Scope Z_scope.

(** ** Bodies *)

Record SBody := mkSBody { sb_tag : nat; sb_strs : list string; sb_nums : list Z }.

Definition s_unit : SBody := mkSBody 0 [] [].
Definition s_str (s : string) : SBody := mkSBody 1 [s] [].
Definition s_u32 (n : Z) : SBody := mkSBody 2 [] [n].
Definition s_str_u32 (s : string) (n : Z) : SBody := mkSBody 3 [s] [n].
Definition s_strs (l : list string) : SBody := mkSBody 4 l [].
Definition s_str3 (a b c : string) : SBody := mkSBody 5 [a; b; c] [].
Definition s_str2 (a b : string) : SBody := mkSBody 10 [a; b] [].
Definition s_path (p : string) : SBody := mkSBody 6 [p] [].
Definition s_bool (b : bool) : SBody := mkSBody 7 [] [if b then 1 else 0].
Definition s_dict (l : list (string * Z)) : SBody := mkSBody 8 l.*1 l.*2.

(** A body of file descriptors. *)
Definition s_handles (l : list Z) : SBody := mkSBody 9 [] l.
Definition s_fds (b : SBody) : list Z := if decide (sb_tag b = 9%nat) then sb_nums b else [].

Definition s_deserialize (t : body_type) (b : SBody) : result string (body_val t) :=
  let bad := "signature mismatch" in
  match t return result string (body_val t) with
  | BStr => match b with mkSBody 1 [s] [] => Ok s | _ => Err bad end
  | BU32 => match b with mkSBody 2 [] [n] => Ok n | _ => Err bad end
  | BBool => match b with mkSBody 7 [] [n] => Ok (negb (n =? 0)) | _ => Err bad end
  | BStrs => match b with mkSBody 4 l [] => Ok l | _ => Err bad end
  | BStrU32 => match b with mkSBody 3 [s] [n] => Ok (s, n) | _ => Err bad end
  | BStr1 => match b with mkSBody 1 [s] [] => Ok s | _ => Err bad end
  | BStr2 => match b with mkSBody 10 [x; y] [] => Ok (x, y) | _ => Err bad end
  | BStr3 => match b with mkSBody 5 [x; y; z] [] => Ok (x, y, z) | _ => Err bad end
  | BStructure =>
      match b with
      | mkSBody 1 [s] [] => Ok [VStr s]
      | mkSBody 3 [s] [_] => Ok [VStr s; VOther]
      | mkSBody 5 [x; y; z] [] => Ok [VStr x; VStr y; VStr z]
      | mkSBody 10 [x; y] [] => Ok [VStr x; VStr y]
      | mkSBody 6 [p] [] => Ok [VObjectPath p]
      | _ => Err bad
      end
  | BPath => match b with mkSBody 6 [p] [] => Ok p | _ => Err bad end
  | BPath1 => Err bad
  | BResponse => match b with mkSBody 2 [] [n] => Ok n | _ => Err bad end
  end.

Definition s_body_of (b : Body) : SBody :=
  match b with
  | BodyUnit => s_unit
  | BodyStr s => s_str s
  | BodyU32 n => s_u32 n
  | BodyBool b => s_bool b
  | BodyStrs l => s_strs l
  | BodyText t => s_str t
  | BodyDict l => s_dict l
  end.

(** ** Messages *)

Record SMessage := mkSMessage { sg_fields : Fields; sg_serial : Z; sg_body : SBody }.

(** Serials outside the range of NonZeroU32 read as 1. *)
Definition s_serial (m : SMessage) : Z :=
  if decide (1 <= sg_serial m < u32_modulus) then sg_serial m else 1.

Definition type_code (t : MessageType) : nat :=
  match t with MethodCall => 0 | MethodReturn => 1 | ErrorReply => 2 | Signal => 3 end%nat.

Definition s_item {A} `{Countable A} (x : A) : Z := Zpos (encode x).

Definition s_body_code (b : SBody) : list Z :=
  [s_item (sb_tag b); s_item (sb_strs b); s_item (sb_nums b)].

Definition s_code (f : Fields) : list Z :=
  [s_item (type_code (f_type f)); s_item (f_destination f); s_item (f_sender f);
   s_item (f_interface f); s_item (f_member f); s_item (f_path f); s_item (f_reply_serial f)].

(** Ten items follow the fixed header, as its body length says. *)
Definition s_data (m : SMessage) : list Z :=
  [108; 0; 0; 0; 10; 0; 0; 0] ++ le_bytes (s_serial m) ++ [0; 0; 0; 0] ++
  s_code (sg_fields m) ++ s_body_code (sg_body m).

Definition type_of_code (n : nat) : MessageType :=
  match n with 0 => MethodCall | 1 => MethodReturn | 2 => ErrorReply | _ => Signal end%nat.

Definition s_unitem {A} `{Countable A} (z : Z) : option A :=
  match z with Zpos p => decode p | _ => None end.

Definition s_decode_body (l : list Z) : option SBody :=
  match l with
  | [a; b; c] => x ← s_unitem a; y ← s_unitem b; z ← s_unitem c; Some (mkSBody x y z)
  | _ => None
  end.

Definition s_decode (l : list Z) : option Fields :=
  match l with
  | [t; d; s; i; mb; p; r] =>
      t ← s_unitem t; d ← s_unitem d; s ← s_unitem s; i ← s_unitem i;
      mb ← s_unitem mb; p ← s_unitem p; r ← s_unitem r;
      Some (mkFields (type_of_code t) d s i mb p r)
  | _ => None
  end.

Definition s_from_bytes (e : Endian) (bs : list Z) : result string SMessage :=
  match s_decode (take 7 (drop 16 bs)), s_decode_body (drop 23 bs) with
  | Some f, Some b =>
      let m := mkSMessage f (le_value (take 4 (drop 8 bs))) b in
      if decide (s_data m = bs) then Ok m else Err "malformed"
  | _, _ => Err "malformed"
  end.

Record SBuilder := mkSBuilder { sbl_fields : Fields; sbl_serial : Z }.

Definition SimpleZbus : Zbus := {|
  Message := SMessage;
  Builder := SBuilder;
  ZError := string;
  Fd := Z;
  Signature := unit;
  zerror_text := id;
  method_error_name := fun _ => None;
  msg_fields := sg_fields;
  serial_num := s_serial;
  data_bytes := s_data;
  from_bytes := s_from_bytes;
  deserialize := fun t m => s_deserialize t (sg_body m);
  body_bytes := fun m => s_body_code (sg_body m);
  signature := fun _ => tt;
  body_fds := fun m => s_fds (sg_body m);
  try_to_owned := fun fd => Ok fd;
  new_method_return := fun m =>
    Ok (mkSBuilder (mkFields MethodReturn (f_sender (sg_fields m)) None None None None
                      (Some (s_serial m))) 1);
  new_error := fun m _ =>
    Ok (mkSBuilder (mkFields ErrorReply (f_sender (sg_fields m)) None None None None
                      (Some (s_serial m))) 1);
  builder_from := fun m => mkSBuilder (sg_fields m) 1;
  b_destination := fun d b => Ok (mkSBuilder (set_destination d (sbl_fields b)) (sbl_serial b));
  b_path := fun p b => Ok (mkSBuilder (set_path p (sbl_fields b)) (sbl_serial b));
  b_reply_serial := fun r b => mkSBuilder (set_reply_serial r (sbl_fields b)) (sbl_serial b);
  b_serial := fun n b => mkSBuilder (sbl_fields b) n;
  b_build := fun x b => Ok (mkSMessage (sbl_fields b) (sbl_serial b) (s_body_of x));
  b_build_raw := fun bs _ fds b =>
    match s_decode_body bs with
    | Some body =>
        if decide (bs = s_body_code body /\ fds = s_fds body)
        then Ok (mkSMessage (sbl_fields b) (sbl_serial b) body) else Err "malformed"
    | None => Err "malformed"
    end;
  builder_fields := sbl_fields;
  bus_name_try_from := fun s => Ok s;
  error_name_try_from := fun s => Ok s;
  object_path_try_from := fun s =>
    if starts_with s "/" then Ok s else Err "not an object path";
|}.

(** ** The laws *)

Lemma s_unitem_item {A} `{Countable A} (x : A) : s_unitem (s_item x) = Some x.
Proof. apply decode_encode. Qed.

Lemma s_decode_code f : s_decode (s_code f) = Some f.
Proof.
  unfold s_decode, s_code. rewrite !s_unitem_item. destruct f as [[] ? ? ? ? ? ?]; done.
Qed.

Lemma s_decode_body_code b : s_decode_body (s_body_code b) = Some b.
Proof. unfold s_decode_body, s_body_code. rewrite !s_unitem_item. by destruct b. Qed.

Lemma s_serial_range m : 1 <= s_serial m < u32_modulus.
Proof. unfold s_serial. case_decide; [done | unfold u32_modulus; lia]. Qed.

Lemma SimpleZbusLaws : @ZbusLaws SimpleZbus.
Proof.
  constructor; simpl; try (by intros; simplify_eq/=).
  - intros bs sig fds b m E. destruct (s_decode_body bs) as [body|] eqn:Eb; [| done].
    case_decide as Hd; [| done]. destruct Hd as [-> ->]. injection E as <-. simpl. by destruct sig.
  - intros e bs m. unfold s_from_bytes. destruct (s_decode _) as [f|]; [| done].
    destruct (s_decode_body _) as [b|]; [| done]. case_decide; [| done]. congruence.
  - intros p q. destruct (starts_with p "/"); naive_solver.
  - intros m. lia.
  - intros m. unfold wire_serial. simpl.
    symmetry. apply (le_bytes_value (s_serial m)). pose proof (s_serial_range m). lia.
  - apply s_serial_range.
  - intros m m' _ E.
    assert (s_code (sg_fields m) = s_code (sg_fields m')) as E1 by (unfold s_code; simplify_eq/=; congruence).
    assert (s_body_code (sg_body m) = s_body_code (sg_body m')) as E2
      by (unfold s_body_code; simplify_eq/=; congruence).
    split; [| done]. apply (f_equal s_decode) in E1. rewrite !s_decode_code in E1. congruence.
Qed.

(** ** Example messages *)

Definition s_call (sender : string) (n : Z) (dest member : string) (body : SBody) : @Message SimpleZbus :=
  mkSMessage (mkFields MethodCall (Some dest) (Some sender) (Some "org.freedesktop.DBus")
    (Some member) (Some "/org/freedesktop/DBus") None) n body.

Definition s_reply (n reply_to : Z) (body : SBody) : @Message SimpleZbus :=
  mkSMessage (mkFields MethodReturn None None None None None (Some reply_to)) n body.

Definition s_signal (iface member path : string) (dest : option string) (body : SBody) : @Message SimpleZbus :=
  mkSMessage (mkFields Signal dest (Some ":1.20") (Some iface) (Some member) (Some path) None) 5 body.
