(* ===== verification/Errors.v ===== *)
(** * Error types (src/src/error.rs)

    The crate's [Error] with its variants and the texts [thiserror] derives for
    them; the texts reach clients in error replies. *)

From S2P Require Import Prelude RustStr Zbus.

(** [std::io::Error]: the kinds the sources test or produce. *)
Inductive IoErrorKind := UnexpectedEof | InvalidInput | InvalidDataKind | WriteZero | OtherIo.

Record IoError := mkIoError {
  io_kind : IoErrorKind;
  io_text : string;
}.

Inductive AuthError :=
| UnsupportedMechanism (mechanism : string)
| ExpectedNullByte
| ExpectedBegin
| InvalidData (text : string)
| AuthTimeout
| UidMismatch (expected actual : Z).

Inductive RoutingError :=
| NoRoute (destination : string)
| UpdateFailed (text : string)
| InvalidDestination (text : string).

Inductive ClientError :=
| Disconnected
| InvalidMessage (text : string)
| NotAuthenticated
| UnknownClient (id : Z)
| TooManyPending.

Inductive MessageError :=
| MissingHeader (field : string)
| InvalidSerial
| NoReplySerial
| DeserializeFailed (text : string)
| SerializeFailed (text : string)
| BuildFailed (text : string).

Inductive Error `{Zbus} :=
| Io (e : IoError)
| DBus (e : ZError)
| Auth (e : AuthError)
| Routing (e : RoutingError)
| Client (e : ClientError)
| MessageErr (e : MessageError)
| Config (text : string)
| Shutdown
| ConnectionClosed (name : string).

Definition auth_error_text (e : AuthError) : string :=
  match e with
  | UnsupportedMechanism m => "Unsupported authentication mechanism: " +:+ m
  | ExpectedNullByte => "Expected null byte at start of authentication"
  | ExpectedBegin => "Expected BEGIN after authentication"
  | InvalidData t => "Invalid auth data: " +:+ t
  | AuthTimeout => "Authentication timed out"
  | UidMismatch expected actual =>
      "UID mismatch: expected " +:+ to_dec expected +:+ ", got " +:+ to_dec actual
  end.

Definition routing_error_text (e : RoutingError) : string :=
  match e with
  | NoRoute d => "No route found for destination: " +:+ d
  | UpdateFailed t => "Failed to update routing table: " +:+ t
  | InvalidDestination t => "Invalid destination name: " +:+ t
  end.

Definition client_error_text (e : ClientError) : string :=
  match e with
  | Disconnected => "Client disconnected"
  | InvalidMessage t => "Invalid message from client: " +:+ t
  | NotAuthenticated => "Client not authenticated"
  | UnknownClient id => "Unknown client ID: " +:+ to_dec id
  | TooManyPending => "Too many pending requests from client"
  end.

Definition message_error_text (e : MessageError) : string :=
  match e with
  | MissingHeader f => "Missing message header field: " +:+ f
  | InvalidSerial => "Invalid serial number"
  | NoReplySerial => "Reply message missing reply serial"
  | DeserializeFailed t => "Failed to deserialize message body: " +:+ t
  | SerializeFailed t => "Failed to serialize message body: " +:+ t
  | BuildFailed t => "Failed to build message: " +:+ t
  end.

Definition error_text `{Zbus} (e : Error) : string :=
  match e with
  | Io e => "I/O error: " +:+ io_text e
  | DBus e => "D-Bus error: " +:+ zerror_text e
  | Auth e => "Authentication error: " +:+ auth_error_text e
  | Routing e => "Routing error: " +:+ routing_error_text e
  | Client e => "Client error: " +:+ client_error_text e
  | MessageErr e => "Message error: " +:+ message_error_text e
  | Config t => "Configuration error: " +:+ t
  | Shutdown => "Multiplexer shut down"
  | ConnectionClosed n => "Connection to " +:+ n +:+ " closed unexpectedly"
  end.

(** The [?] operator on a zbus result. *)
Definition lift_zbus `{Zbus} {A} (r : result ZError A) : result Error A :=
  match r with Ok a => Ok a | Err e => Err (DBus e) end.
