(* ===== verification/Message.v ===== *)
(** * Message utilities (src/src/message.rs)

    The [MessageExt] queries, the three functions that clone a message with
    one header field changed, the parser of NameOwnerChanged bodies and the
    builders of replies and errors. *)

From S2P Require Import Prelude RustStr Zbus Errors SimpleZbus.
From Stdlib Require Import Ascii.

#[local] Open Scope Z_scope.

(** ** Error names *)

Module error_names.
Definition UNKNOWN_METHOD : string := "org.freedesktop.DBus.Error.UnknownMethod".
Definition NAME_HAS_NO_OWNER : string := "org.freedesktop.DBus.Error.NameHasNoOwner".
Definition SERVICE_UNKNOWN : string := "org.freedesktop.DBus.Error.ServiceUnknown".
Definition FAILED : string := "org.freedesktop.DBus.Error.Failed".
Definition ACCESS_DENIED : string := "org.freedesktop.DBus.Error.AccessDenied".
Definition INVALID_ARGS : string := "org.freedesktop.DBus.Error.InvalidArgs".
Definition NO_REPLY : string := "org.freedesktop.DBus.Error.NoReply".
Definition MATCH_RULE_NOT_FOUND : string := "org.freedesktop.DBus.Error.MatchRuleNotFound".
Definition MATCH_RULE_INVALID : string := "org.freedesktop.DBus.Error.MatchRuleInvalid".
Definition UNIX_PROCESS_ID_UNKNOWN : string := "org.freedesktop.DBus.Error.UnixProcessIdUnknown".
End error_names.

Section Message.
Context `{ZB : Zbus}.

(** ** [MessageExt] *)

Definition destination_str (m : Message) : option string := f_destination (msg_fields m).
Definition sender_str (m : Message) : option string := f_sender (msg_fields m).
Definition interface_str (m : Message) : option string := f_interface (msg_fields m).
Definition member_str (m : Message) : option string := f_member (msg_fields m).
Definition path_str (m : Message) : option string := f_path (msg_fields m).
Definition serial (m : Message) : Z := serial_num m.
Definition reply_serial (m : Message) : option Z := f_reply_serial (msg_fields m).
Definition msg_type (m : Message) : MessageType := f_type (msg_fields m).

Definition is_method_call (m : Message) : bool := bool_decide (msg_type m = MethodCall).
Definition is_method_return (m : Message) : bool := bool_decide (msg_type m = MethodReturn).
Definition is_error (m : Message) : bool := bool_decide (msg_type m = ErrorReply).
Definition is_signal (m : Message) : bool := bool_decide (msg_type m = Signal).

Definition is_dbus_daemon_call (m : Message) : bool :=
  bool_decide (destination_str m = Some "org.freedesktop.DBus").

Definition is_name_owner_changed (m : Message) : bool :=
  is_signal m && bool_decide (interface_str m = Some "org.freedesktop.DBus") &&
  bool_decide (member_str m = Some "NameOwnerChanged").

End Message.

(** The trait and its two implementations; an [Arc] is looked through. *)
Class MessageExt (A : Type) := {
  ext_destination_str : A -> option string;
  ext_sender_str : A -> option string;
  ext_interface_str : A -> option string;
  ext_member_str : A -> option string;
  ext_path_str : A -> option string;
  ext_serial : A -> Z;
  ext_reply_serial : A -> option Z;
  ext_is_method_call : A -> bool;
  ext_is_method_return : A -> bool;
  ext_is_error : A -> bool;
  ext_is_signal : A -> bool;
  ext_is_dbus_daemon_call : A -> bool;
  ext_is_name_owner_changed : A -> bool;
}.

Record Arc (A : Type) := mkArc { as_ref : A }.
Arguments as_ref {A}.

Definition Message_ext `{ZB : Zbus} : MessageExt Message := {|
  ext_destination_str := destination_str;
  ext_sender_str := sender_str;
  ext_interface_str := interface_str;
  ext_member_str := member_str;
  ext_path_str := path_str;
  ext_serial := serial;
  ext_reply_serial := reply_serial;
  ext_is_method_call := is_method_call;
  ext_is_method_return := is_method_return;
  ext_is_error := is_error;
  ext_is_signal := is_signal;
  ext_is_dbus_daemon_call := is_dbus_daemon_call;
  ext_is_name_owner_changed := is_name_owner_changed;
|}.
#[export] Existing Instance Message_ext.

Definition Arc_ext `{ZB : Zbus} : MessageExt (Arc Message) := {|
  ext_destination_str self := ext_destination_str (as_ref self);
  ext_sender_str self := ext_sender_str (as_ref self);
  ext_interface_str self := ext_interface_str (as_ref self);
  ext_member_str self := ext_member_str (as_ref self);
  ext_path_str self := ext_path_str (as_ref self);
  ext_serial self := ext_serial (as_ref self);
  ext_reply_serial self := ext_reply_serial (as_ref self);
  ext_is_method_call self := ext_is_method_call (as_ref self);
  ext_is_method_return self := ext_is_method_return (as_ref self);
  ext_is_error self := ext_is_error (as_ref self);
  ext_is_signal self := ext_is_signal (as_ref self);
  ext_is_dbus_daemon_call self := ext_is_dbus_daemon_call (as_ref self);
  ext_is_name_owner_changed self := ext_is_name_owner_changed (as_ref self);
|}.
#[export] Existing Instance Arc_ext.

Section Clones.
Context `{ZB : Zbus}.

(** ** Cloning with a changed field *)

Definition clone_message_with_serial (msg : Message) (new_serial : Z) : result Error Message :=
  if new_serial =? 0 then Err (MessageErr InvalidSerial)
  else
    let bytes := data_bytes msg in
    let little_endian := is_little bytes in
    let serial_bytes := if little_endian then le_bytes new_serial else be_bytes new_serial in
    let bytes' := take 8 bytes ++ serial_bytes ++ drop 12 bytes in
    let endian := if little_endian then Little else Big in
    lift_zbus (from_bytes endian bytes').

Definition clone_fd (fd : Fd) : result Error Fd :=
  match try_to_owned fd with
  | Ok owned => Ok owned
  | Err e => Err (MessageErr (BuildFailed ("Failed to clone fd: " +:+ e)))
  end.

Fixpoint clone_fds (fds : list Fd) : result Error (list Fd) :=
  match fds with
  | [] => Ok []
  | fd :: rest =>
      let? owned := clone_fd fd in
      let? cloned := clone_fds rest in
      Ok (owned :: cloned)
  end.

Definition clone_fds_from_body (msg : Message) : result Error (list Fd) :=
  clone_fds (body_fds msg).

(** [if let Some(serial) = NonZeroU32::new(..) { builder = builder.serial(serial) }]. *)
Definition keep_serial (msg : Message) (b : Builder) : Builder :=
  if serial_num msg =? 0 then b else b_serial (serial_num msg) b.

(** The common tail of the clone functions: the original body bytes, cloned
    file descriptors and signature. *)
Definition build_with_body_of (msg : Message) (b : Builder) : result Error Message :=
  let? fds := clone_fds_from_body msg in
  lift_zbus (b_build_raw (body_bytes msg) (signature msg) fds b).

Definition clone_reply_with_serial (msg : Message) (new_reply_serial : Z) : result Error Message :=
  if new_reply_serial =? 0 then Err (MessageErr InvalidSerial)
  else
    build_with_body_of msg
      (keep_serial msg (b_reply_serial (Some new_reply_serial) (builder_from msg))).

(** [.map_err(|e| MessageError::BuildFailed(e.to_string()))?]. *)
Definition build_failed {A} (r : result ZError A) : result Error A :=
  match r with Ok a => Ok a | Err e => Err (MessageErr (BuildFailed (zerror_text e))) end.

Definition clone_signal_with_destination (msg : Message) (new_destination : string)
    : result Error Message :=
  let? b := build_failed (b_destination new_destination (builder_from msg)) in
  build_with_body_of msg (keep_serial msg b).

Definition unique_name_to_path_component (unique_name : string) : string :=
  replace_char "."%char "_" (trim_start_matches ":"%char unique_name).

Definition clone_portal_response_signal (msg : Message)
    (mux_unique_name client_unique_name : string) : result Error Message :=
  let mux_path_component := unique_name_to_path_component mux_unique_name in
  let client_path_component := unique_name_to_path_component client_unique_name in
  let original_path := default "" (path_str msg) in
  let new_path := str_replace mux_path_component client_path_component original_path in
  let? new_path_obj :=
    match object_path_try_from new_path with
    | Ok p => Ok p
    | Err e => Err (MessageErr (BuildFailed ("Invalid path: " +:+ e)))
    end in
  let? b := build_failed (b_destination client_unique_name (builder_from msg)) in
  let? b := build_failed (b_path new_path_obj b) in
  build_with_body_of msg (keep_serial msg b).

(** ** Bodies *)

Definition parse_name_owner_changed (msg : Message) : result Error (string * string * string) :=
  match deserialize BStr3 msg with
  | Ok v => Ok v
  | Err e => Err (MessageErr (DeserializeFailed (zerror_text e)))
  end.

(** ** Replies *)

Definition create_method_return (request : Message) (body : Body) : result Error Message :=
  let? b := lift_zbus (new_method_return request) in
  lift_zbus (b_build body b).

Definition create_error (request : Message) (error_name error_message : string)
    : result Error Message :=
  let? b := lift_zbus (new_error request error_name) in
  lift_zbus (b_build (BodyText error_message) b).

Record MethodReturnBuilder := mkMethodReturnBuilder {
  mrb_original : Message;
  mrb_destination : option string;
}.

Definition MethodReturnBuilder_new (original : Message) : MethodReturnBuilder :=
  mkMethodReturnBuilder original None.

Definition mrb_set_destination (dest : string) (self : MethodReturnBuilder) : MethodReturnBuilder :=
  mkMethodReturnBuilder (mrb_original self) (Some dest).

(** The destination both builders set when they have one. *)
Definition builder_with_destination (dest : option string) (b : Builder) : result Error Builder :=
  match dest with
  | None => Ok b
  | Some d =>
      match bus_name_try_from d with
      | Ok n => lift_zbus (b_destination n b)
      | Err e => Err (MessageErr (DeserializeFailed ("Invalid destination: " +:+ e)))
      end
  end.

Definition mrb_build (body : Body) (self : MethodReturnBuilder) : result Error Message :=
  let? b := lift_zbus (new_method_return (mrb_original self)) in
  let? b := builder_with_destination (mrb_destination self) b in
  lift_zbus (b_build body b).

Definition mrb_build_empty (self : MethodReturnBuilder) : result Error Message :=
  mrb_build BodyUnit self.

Record ErrorBuilder := mkErrorBuilder {
  eb_original : Message;
  eb_destination : option string;
  eb_error_name : string;
}.

Definition ErrorBuilder_new (original : Message) (error_name : string) : ErrorBuilder :=
  mkErrorBuilder original None error_name.

Definition eb_set_destination (dest : string) (self : ErrorBuilder) : ErrorBuilder :=
  mkErrorBuilder (eb_original self) (Some dest) (eb_error_name self).

Definition eb_build (message : string) (self : ErrorBuilder) : result Error Message :=
  let? error_name :=
    match error_name_try_from (eb_error_name self) with
    | Ok n => Ok n
    | Err e => Err (MessageErr (DeserializeFailed ("Invalid error name: " +:+ e)))
    end in
  let? b := lift_zbus (new_error (eb_original self) error_name) in
  let? b := builder_with_destination (eb_destination self) b in
  lift_zbus (b_build (BodyText message) b).

End Clones.

(** ** Lemmas *)

(** The bytes with the serial field overwritten. *)
Lemma patched_bytes (bs : list Z) (field : list Z) :
  (12 <= length bs)%nat -> length field = 4%nat ->
  let bs' := take 8 bs ++ field ++ drop 12 bs in
  is_little bs' = is_little bs /\ take 4 (drop 8 bs') = field /\
  take 8 bs' = take 8 bs /\ drop 12 bs' = drop 12 bs.
Proof.
  intros Hl Hf bs'. assert (length (take 8 bs) = 8%nat) as H8 by (rewrite length_take; lia).
  unfold bs'. split_and!.
  - unfold is_little. apply bool_decide_ext. rewrite lookup_app_l by lia.
    by rewrite lookup_take_lt by lia.
  - rewrite drop_app_le, drop_ge by lia. simpl. rewrite take_app_le by lia. apply take_ge. lia.
  - rewrite take_app_le by lia. apply take_ge. lia.
  - rewrite drop_app_ge by lia. rewrite H8. rewrite drop_app_ge by lia. by rewrite Hf.
Qed.

Section Properties.
Context `{ZL : ZbusLaws}.

Lemma clone_with_serial_ok msg n :
  0 <= n < u32_modulus -> forall m, clone_message_with_serial msg n = Ok m ->
  serial m = n /\ msg_fields m = msg_fields msg /\ body_bytes m = body_bytes msg /\
  take 8 (data_bytes m) = take 8 (data_bytes msg) /\
  drop 12 (data_bytes m) = drop 12 (data_bytes msg).
Proof.
  intros Hn m. unfold clone_message_with_serial.
  destruct (Z.eqb_spec n 0) as [|Hnz]; [done |]. unfold lift_zbus.
  set (field := if is_little (data_bytes msg) then le_bytes n else be_bytes n).
  destruct (from_bytes _ _) as [m'|e] eqn:E; [| done]. intros [= ->].
  apply from_bytes_data in E.
  pose proof (data_bytes_length msg) as Hl.
  assert (length field = 4%nat) as Hf by (unfold field; by destruct (is_little _)).
  destruct (patched_bytes (data_bytes msg) field) as (Hlt & Hfld & Ht & Hd); [lia | done |].
  rewrite <- E in *. destruct (same_outside_serial m msg Ht Hd) as [Hfs Hb].
  split_and!; try done.
  unfold serial. rewrite serial_num_wire. unfold wire_serial. rewrite Hfld, Hlt. unfold field.
  destruct (is_little (data_bytes msg)); [by apply le_bytes_value | by apply be_bytes_value].
Qed.

(** C26. [clone_message_with_serial] changes the serial and nothing else: a
    successful clone carries the new serial, and its header fields, body and
    bytes outside positions 8 to 11 are the original's.  Serial 0 is refused. *)
Theorem clone_message_with_serial_spec msg n :
  0 <= n < u32_modulus ->
  (n = 0 -> clone_message_with_serial msg n = Err (MessageErr InvalidSerial)) /\
  (forall m, clone_message_with_serial msg n = Ok m ->
     serial m = n /\ msg_fields m = msg_fields msg /\ body_bytes m = body_bytes msg /\
     take 8 (data_bytes m) = take 8 (data_bytes msg) /\
     drop 12 (data_bytes m) = drop 12 (data_bytes msg)).
Proof.
  intros Hn. split; [by intros -> | by apply clone_with_serial_ok].
Qed.

Lemma keep_serial_fields msg b : builder_fields (keep_serial msg b) = builder_fields b.
Proof. unfold keep_serial. case_match; [done | apply b_serial_fields]. Qed.

Lemma build_with_body_of_spec msg b m :
  build_with_body_of msg b = Ok m ->
  msg_fields m = builder_fields b /\ body_bytes m = body_bytes msg /\ signature m = signature msg.
Proof.
  unfold build_with_body_of, lift_zbus.
  destruct (clone_fds_from_body msg) as [fds|]; [| done].
  destruct (b_build_raw _ _ fds b) as [m'|] eqn:E; [| done]. intros [= ->].
  apply b_build_raw_spec in E. naive_solver.
Qed.

Lemma clone_reply_ok msg n m :
  clone_reply_with_serial msg n = Ok m ->
  msg_fields m = set_reply_serial (Some n) (msg_fields msg) /\
  body_bytes m = body_bytes msg /\ signature m = signature msg.
Proof.
  unfold clone_reply_with_serial. destruct (n =? 0); [done |].
  intros (-> & ? & ?)%build_with_body_of_spec.
  by rewrite keep_serial_fields, b_reply_serial_fields, builder_from_fields.
Qed.

(** [clone_reply_with_serial] changes the reply serial and nothing else of
    header, signature and body. *)
Lemma clone_reply_with_serial_spec msg n m :
  clone_reply_with_serial msg n = Ok m ->
  msg_fields m = set_reply_serial (Some n) (msg_fields msg) /\
  body_bytes m = body_bytes msg /\ signature m = signature msg.
Proof. apply clone_reply_ok. Qed.

Lemma builder_with_destination_spec dest b b' :
  builder_with_destination (Some dest) b = Ok b' ->
  builder_fields b' = set_destination dest (builder_fields b).
Proof.
  unfold builder_with_destination, lift_zbus. intros Hb.
  destruct (bus_name_try_from dest) as [n|] eqn:En; [| done].
  apply bus_name_id in En as ->.
  destruct (b_destination dest b) as [b1|] eqn:Eb; [| done]. simplify_eq.
  by apply b_destination_fields.
Qed.

(** The replies the multiplexer makes up answer the request they are for. *)
Lemma mrb_build_spec req dest body m :
  mrb_build body (mrb_set_destination dest (MethodReturnBuilder_new req)) = Ok m ->
  msg_type m = MethodReturn /\ reply_serial m = Some (serial req) /\ destination_str m = Some dest.
Proof.
  unfold mrb_build, lift_zbus. cbn [mrb_original mrb_destination mrb_set_destination
    MethodReturnBuilder_new].
  destruct (new_method_return req) as [b|] eqn:E1; [| done].
  destruct (builder_with_destination _ b) as [b'|] eqn:E2; [| done].
  destruct (b_build body b') as [m'|] eqn:E3; [| done]. intros [= ->].
  apply builder_with_destination_spec in E2. apply b_build_fields in E3.
  apply new_method_return_fields in E1 as [H1 H2].
  unfold msg_type, reply_serial, destination_str, serial. by rewrite E3, E2.
Qed.

Lemma eb_build_spec req name dest text m :
  eb_build text (eb_set_destination dest (ErrorBuilder_new req name)) = Ok m ->
  msg_type m = ErrorReply /\ reply_serial m = Some (serial req) /\ destination_str m = Some dest.
Proof.
  unfold eb_build, lift_zbus. cbn [eb_original eb_destination eb_error_name eb_set_destination
    ErrorBuilder_new].
  destruct (error_name_try_from name) as [n|] eqn:E0; [| done].
  destruct (new_error req n) as [b|] eqn:E1; [| done].
  destruct (builder_with_destination _ b) as [b'|] eqn:E2; [| done].
  destruct (b_build _ b') as [m'|] eqn:E3; [| done]. intros [= ->].
  apply builder_with_destination_spec in E2. apply b_build_fields in E3.
  apply new_error_fields in E1 as [H1 H2].
  unfold msg_type, reply_serial, destination_str, serial. by rewrite E3, E2.
Qed.

End Properties.

(** ** Witnesses *)

Section Witnesses.
#[local] Existing Instance SimpleZbus.
#[local] Existing Instance SimpleZbusLaws.

Definition ex_call : @Message SimpleZbus := s_call ":mux.1" 7 "org.a" "Frob" (s_str "x").

Lemma clone_message_with_serial_spec_witness :
  let m := s_call ":mux.1" 9999 "org.a" "Frob" (s_str "x") in
  serial m = 9999 /\ msg_fields m = msg_fields ex_call /\ body_bytes m = body_bytes ex_call /\
  take 8 (data_bytes m) = take 8 (data_bytes ex_call) /\
  drop 12 (data_bytes m) = drop 12 (data_bytes ex_call).
Proof.
  apply (clone_message_with_serial_spec ex_call 9999); [unfold u32_modulus; lia | reflexivity].
Defined.

Lemma clone_reply_with_serial_spec_witness :
  let m := s_reply 3 42 (s_str "y") in
  msg_fields m = set_reply_serial (Some 42) (msg_fields (s_reply 3 9 (s_str "y"))) /\
  body_bytes m = body_bytes (s_reply 3 9 (s_str "y")) /\
  signature m = signature (s_reply 3 9 (s_str "y")).
Proof.
  apply (clone_reply_with_serial_spec (s_reply 3 9 (s_str "y")) 42). reflexivity.
Defined.

End Witnesses.
