(* ===== verification/MatchRules.v ===== *)
(** * Match rules (src/src/match_rules.rs)

    Parsing of match rule strings, matching of messages against a rule, the
    rules of one client and the reference counts of the rules installed on the
    upstream buses. *)

From S2P Require Import Prelude RustStr Zbus Errors Message SimpleZbus.
From Stdlib Require Import Ascii.

(** ** Data *)

Record MatchRule := mkMatchRule {
  rule_string : string;
  mr_type : option string;
  mr_sender : option string;
  mr_interface : option string;
  mr_member : option string;
  mr_path : option string;
  mr_path_namespace : option string;
  mr_destination : option string;
  mr_args : gmap Z string;
  mr_arg_paths : gmap Z string;
  mr_arg0namespace : option string;
  mr_eavesdrop : bool;
}.

Inductive MatchRuleError :=
| InvalidFormat (msg : string)
| InvalidArgIndex (key : string).

Definition match_rule_error_text (e : MatchRuleError) : string :=
  match e with
  | InvalidFormat msg => "Invalid match rule format: " +:+ msg
  | InvalidArgIndex key => "Invalid argument index: " +:+ key
  end.

(** The rule without filters that [parse] starts from. *)
Definition empty_rule (rule : string) : MatchRule :=
  mkMatchRule rule None None None None None None None ∅ ∅ None false.

(** ** Parsing *)

(** One assignment [result.field = ...] of [parse] for each field. *)
Definition set_type v r := mkMatchRule (rule_string r) (Some v) (mr_sender r) (mr_interface r)
  (mr_member r) (mr_path r) (mr_path_namespace r) (mr_destination r) (mr_args r) (mr_arg_paths r)
  (mr_arg0namespace r) (mr_eavesdrop r).
Definition set_sender v r := mkMatchRule (rule_string r) (mr_type r) (Some v) (mr_interface r)
  (mr_member r) (mr_path r) (mr_path_namespace r) (mr_destination r) (mr_args r) (mr_arg_paths r)
  (mr_arg0namespace r) (mr_eavesdrop r).
Definition set_interface v r := mkMatchRule (rule_string r) (mr_type r) (mr_sender r) (Some v)
  (mr_member r) (mr_path r) (mr_path_namespace r) (mr_destination r) (mr_args r) (mr_arg_paths r)
  (mr_arg0namespace r) (mr_eavesdrop r).
Definition set_member v r := mkMatchRule (rule_string r) (mr_type r) (mr_sender r) (mr_interface r)
  (Some v) (mr_path r) (mr_path_namespace r) (mr_destination r) (mr_args r) (mr_arg_paths r)
  (mr_arg0namespace r) (mr_eavesdrop r).
Definition set_rule_path v r := mkMatchRule (rule_string r) (mr_type r) (mr_sender r)
  (mr_interface r) (mr_member r) (Some v) (mr_path_namespace r) (mr_destination r) (mr_args r)
  (mr_arg_paths r) (mr_arg0namespace r) (mr_eavesdrop r).
Definition set_path_namespace v r := mkMatchRule (rule_string r) (mr_type r) (mr_sender r)
  (mr_interface r) (mr_member r) (mr_path r) (Some v) (mr_destination r) (mr_args r)
  (mr_arg_paths r) (mr_arg0namespace r) (mr_eavesdrop r).
Definition set_rule_destination (d : option string) r := mkMatchRule (rule_string r) (mr_type r)
  (mr_sender r) (mr_interface r) (mr_member r) (mr_path r) (mr_path_namespace r) d (mr_args r)
  (mr_arg_paths r) (mr_arg0namespace r) (mr_eavesdrop r).
Definition insert_arg n v r := mkMatchRule (rule_string r) (mr_type r) (mr_sender r)
  (mr_interface r) (mr_member r) (mr_path r) (mr_path_namespace r) (mr_destination r)
  (<[n := v]> (mr_args r)) (mr_arg_paths r) (mr_arg0namespace r) (mr_eavesdrop r).
Definition insert_arg_path n v r := mkMatchRule (rule_string r) (mr_type r) (mr_sender r)
  (mr_interface r) (mr_member r) (mr_path r) (mr_path_namespace r) (mr_destination r)
  (mr_args r) (<[n := v]> (mr_arg_paths r)) (mr_arg0namespace r) (mr_eavesdrop r).
Definition set_arg0namespace v r := mkMatchRule (rule_string r) (mr_type r) (mr_sender r)
  (mr_interface r) (mr_member r) (mr_path r) (mr_path_namespace r) (mr_destination r)
  (mr_args r) (mr_arg_paths r) (Some v) (mr_eavesdrop r).
Definition set_eavesdrop b r := mkMatchRule (rule_string r) (mr_type r) (mr_sender r)
  (mr_interface r) (mr_member r) (mr_path r) (mr_path_namespace r) (mr_destination r)
  (mr_args r) (mr_arg_paths r) (mr_arg0namespace r) b.

(** [num_str.parse::<u8>()] followed by the test [num > 63]. *)
Definition arg_index (key num_str : string) : result MatchRuleError Z :=
  match parse_uint 255 num_str with
  | None => Err (InvalidArgIndex key)
  | Some num => if (63 <? num)%Z then Err (InvalidArgIndex key) else Ok num
  end.

(** The bounds of the slice [&key[3..key.len() - 4]] of an [argNpath] key. *)
Definition arg_path_slice (key : string) : nat * nat := (3, String.length key - 4)%nat.

Definition slice (s : string) (lo hi : nat) : string := str_take (hi - lo) (str_drop lo s).

(** The [match key] of [parse]. *)
Definition process_pair (key value : string) (r : MatchRule) : result MatchRuleError MatchRule :=
  if String.eqb key "type" then Ok (set_type value r)
  else if String.eqb key "sender" then Ok (set_sender value r)
  else if String.eqb key "interface" then Ok (set_interface value r)
  else if String.eqb key "member" then Ok (set_member value r)
  else if String.eqb key "path" then Ok (set_rule_path value r)
  else if String.eqb key "path_namespace" then Ok (set_path_namespace value r)
  else if String.eqb key "destination" then Ok (set_rule_destination (Some value) r)
  else if String.eqb key "eavesdrop" then Ok (set_eavesdrop (String.eqb value "true") r)
  else if String.eqb key "arg0namespace" then Ok (set_arg0namespace value r)
  else if starts_with key "arg" && ends_with key "path" then
    let '(lo, hi) := arg_path_slice key in
    let? num := arg_index key (slice key lo hi) in
    Ok (insert_arg_path num value r)
  else if starts_with key "arg" then
    let? num := arg_index key (str_drop 3 key) in
    Ok (insert_arg num value r)
  else Ok r.

(** One key and value from the front of [remaining], and what is left. *)
Definition parse_pair (remaining : string)
    : result MatchRuleError (string * string * string) :=
  match find_char "="%char remaining with
  | None => Err (InvalidFormat ("Missing '=' in: " +:+ remaining))
  | Some eq_pos =>
      let key := trim (str_take eq_pos remaining) in
      let remaining := trim_start (str_drop (S eq_pos) remaining) in
      if starts_with remaining "'" then
        match find_char "'"%char (str_drop 1 remaining) with
        | None => Err (InvalidFormat "Unclosed quote")
        | Some end_ => Ok (key, slice remaining 1 (end_ + 1), str_drop (end_ + 2) remaining)
        end
      else
        let end_ := default (String.length remaining) (find_char ","%char remaining) in
        Ok (key, trim (str_take end_ remaining), str_drop end_ remaining)
  end.

(** The [while !remaining.is_empty()] loop; [None] when [fuel] runs out. *)
Fixpoint parse_loop (fuel : nat) (remaining : string) (r : MatchRule)
    : option (result MatchRuleError MatchRule) :=
  match fuel with
  | O => None
  | S fuel' =>
      if is_empty remaining then Some (Ok r)
      else
        let remaining := trim_start remaining in
        let remaining := if starts_with remaining "," then trim_start (str_drop 1 remaining)
                         else remaining in
        if is_empty remaining then Some (Ok r)
        else match parse_pair remaining with
             | Err e => Some (Err e)
             | Ok (key, value, rest) =>
                 match process_pair key value r with
                 | Err e => Some (Err e)
                 | Ok r' => parse_loop fuel' rest r'
                 end
             end
  end.

(** Each iteration consumes a byte, so the length of the rule is fuel enough
    (theorem [parse_loop_terminates]). *)
Definition parse (rule : string) : result MatchRuleError MatchRule :=
  let r := empty_rule rule in
  if is_empty (trim rule) then Ok r
  else default (Err (InvalidFormat "")) (parse_loop (S (String.length rule)) (trim rule) r).

(** ** Matching *)

(** An absent filter accepts everything. *)
Definition check {A} (filter : option A) (accept : A -> bool) : bool :=
  match filter with Some f => accept f | None => true end.

(** [Some(x) if x == *filter => {}, Some(_) => return false, None => return false]. *)
Definition field_is (field : option string) (filter : string) : bool :=
  match field with Some x => String.eqb x filter | None => false end.

Definition type_str (t : MessageType) : string :=
  match t with
  | MethodCall => "method_call"
  | MethodReturn => "method_return"
  | ErrorReply => "error"
  | Signal => "signal"
  end.

(** [path != *ns && !path.starts_with(&format!("{}/", ns))] returns false. *)
Definition in_namespace (field : option string) (separator : string) (ns : string) : bool :=
  match field with
  | Some x => String.eqb x ns || starts_with x (ns +:+ separator)
  | None => false
  end.

Definition matches_path_filter (arg_value filter : string) : bool :=
  if String.eqb arg_value filter then true
  else if ends_with filter "/" && starts_with arg_value filter then true
  else if ends_with arg_value "/" && starts_with filter arg_value then true
  else false.

Definition max_of (l : list Z) : option Z :=
  foldr (fun k m => Some (match m with Some m => Z.max k m | None => k end)) None l.

Definition max_idx (r : MatchRule) : Z :=
  let max_idx := default 0%Z (max_of ((map_to_list (mr_args r)).*1 ++ (map_to_list (mr_arg_paths r)).*1)) in
  if bool_decide (is_Some (mr_arg0namespace r)) then Z.max max_idx 0 else max_idx.

(** The string of an argument, the empty string for other types. *)
Definition value_str (v : Value) : string :=
  match v with VStr s => s | VObjectPath p => p | VOther => "" end.

(** The loop over [structure.fields().iter().enumerate()], [idx as u8] truncating. *)
Fixpoint collect_args (max_idx : Z) (idx : nat) (fields : list Value) : list string :=
  match fields with
  | [] => []
  | field :: rest =>
      if (max_idx <? wrap8 (Z.of_nat idx))%Z then []
      else value_str field :: collect_args max_idx (S idx) rest
  end.

Section Matching.
Context `{ZB : Zbus}.

Definition extract_string_args (r : MatchRule) (msg : Message) : result unit (list string) :=
  match deserialize BStructure msg with
  | Ok fields => Ok (collect_args (max_idx r) 0 fields)
  | Err _ =>
  match deserialize BStr msg with
  | Ok s => Ok [s]
  | Err _ =>
  match deserialize BStr3 msg with
  | Ok (s1, s2, s3) => Ok [s1; s2; s3]
  | Err _ =>
  match deserialize BStr2 msg with
  | Ok (s1, s2) => Ok [s1; s2]
  | Err _ =>
  match deserialize BStr1 msg with
  | Ok s1 => Ok [s1]
  | Err _ => Err tt
  end end end end end.

Definition has_arg_filters (r : MatchRule) : bool :=
  negb (bool_decide (mr_args r = ∅)) || negb (bool_decide (mr_arg_paths r = ∅)) ||
  bool_decide (is_Some (mr_arg0namespace r)).

(** The lookup [args.get(idx)] of a [Vec]. *)
Definition arg_get (args : list string) (idx : Z) : option string := args !! Z.to_nat idx.

Definition matches_args (r : MatchRule) (msg : Message) : bool :=
  if has_arg_filters r then
    match extract_string_args r msg with
    | Ok args =>
        forallb (fun '(idx, expected) => field_is (arg_get args idx) expected)
          (map_to_list (mr_args r)) &&
        forallb (fun '(idx, path_filter) =>
                   match arg_get args idx with
                   | Some actual => matches_path_filter actual path_filter
                   | None => false
                   end) (map_to_list (mr_arg_paths r)) &&
        check (mr_arg0namespace r) (in_namespace (head args) ".")
    | Err _ => false
    end
  else true.

Definition matches (r : MatchRule) (msg : Message) : bool :=
  check (mr_type r) (fun f => String.eqb f (type_str (msg_type msg))) &&
  check (mr_sender r) (field_is (sender_str msg)) &&
  check (mr_interface r) (field_is (interface_str msg)) &&
  check (mr_member r) (field_is (member_str msg)) &&
  check (mr_path r) (field_is (path_str msg)) &&
  check (mr_path_namespace r) (in_namespace (path_str msg) "/") &&
  check (mr_destination r) (fun f =>
    match destination_str msg with
    | Some dest => String.eqb dest f
    | None => is_empty f
    end) &&
  matches_args r msg.

Definition matches_ignoring_destination (r : MatchRule) (msg : Message) : bool :=
  check (mr_type r) (fun f => String.eqb f (type_str (msg_type msg))) &&
  check (mr_sender r) (field_is (sender_str msg)) &&
  check (mr_interface r) (field_is (interface_str msg)) &&
  check (mr_member r) (field_is (member_str msg)) &&
  check (mr_path r) (field_is (path_str msg)) &&
  check (mr_path_namespace r) (in_namespace (path_str msg) "/") &&
  matches_args r msg.

End Matching.

(** ** The rules of a client *)

Record ClientMatchRules := mkClientMatchRules { rules : list MatchRule }.

Definition ClientMatchRules_new : ClientMatchRules := mkClientMatchRules [].

Definition cmr_add (rule : MatchRule) (self : ClientMatchRules) : ClientMatchRules :=
  if negb (existsb (fun r => String.eqb (rule_string r) (rule_string rule)) (rules self))
  then mkClientMatchRules (rules self ++ [rule]) else self.

Definition cmr_remove (rs : string) (self : ClientMatchRules) : ClientMatchRules * bool :=
  let len_before := length (rules self) in
  let rules' := filter (fun r => rule_string r <> rs) (rules self) in
  (mkClientMatchRules rules', (length rules' <? len_before)%nat).

Definition cmr_matches `{Zbus} (self : ClientMatchRules) (msg : Message) : bool :=
  existsb (fun r => matches r msg) (rules self).

Definition cmr_matches_ignoring_destination `{Zbus} (self : ClientMatchRules) (msg : Message) : bool :=
  existsb (fun r => matches_ignoring_destination r msg) (rules self).

Definition cmr_is_empty (self : ClientMatchRules) : bool := bool_decide (length (rules self) = 0%nat).

Definition cmr_len (self : ClientMatchRules) : nat := length (rules self).

Definition rule_strings (self : ClientMatchRules) : list string := rule_string <$> rules self.

(** ** Reference counts of upstream rules *)

Record MatchRuleRefCount := mkMatchRuleRefCount { counts : gmap (string * string) nat }.

Definition MatchRuleRefCount_new : MatchRuleRefCount := mkMatchRuleRefCount ∅.

Definition increment (bus rule : string) (self : MatchRuleRefCount) : MatchRuleRefCount * bool :=
  let key := (bus, rule) in
  let count := (default 0 (counts self !! key) + 1)%nat in
  (mkMatchRuleRefCount (<[key := count]> (counts self)), (count =? 1)%nat).

Definition decrement (bus rule : string) (self : MatchRuleRefCount) : MatchRuleRefCount * bool :=
  let key := (bus, rule) in
  match counts self !! key with
  | Some count =>
      if (0 <? count)%nat then
        let count' := (count - 1)%nat in
        if (count' =? 0)%nat then (mkMatchRuleRefCount (delete key (counts self)), true)
        else (mkMatchRuleRefCount (<[key := count']> (counts self)), false)
      else (self, false)
  | None => (self, false)
  end.

Definition rules_for_bus (bus : string) (self : MatchRuleRefCount) : list string :=
  (fun '((_, rule), _) => rule) <$>
    filter (fun '((b, _), count) => b = bus /\ (0 < count)%nat) (map_to_list (counts self)).

Fixpoint remove_client_rules (bus : string) (rs : list string) (self : MatchRuleRefCount)
    : MatchRuleRefCount * list string :=
  match rs with
  | [] => (self, [])
  | rule :: rest =>
      let '(self', last) := decrement bus rule self in
      let '(self'', to_remove) := remove_client_rules bus rest self' in
      (self'', if last then rule :: to_remove else to_remove)
  end.
