(* ===== verification/MatchRuleProofs.v ===== *)
(** * Theorems on match rules (src/src/match_rules.rs)

    Termination and bounds of the parser, the meaning of a rule and its relation
    to the D-Bus specification, printing and parsing back, and the reference
    counts of upstream rules. *)

From S2P Require Import Prelude RustStr Zbus Errors Message SimpleZbus MatchRules.
From Stdlib Require Import Ascii.

(** ** Parsing terminates and stays in bounds *)

Lemma str_drop_S_length n s :
  s <> "" -> (String.length (str_drop (S n) s) < String.length s)%nat.
Proof. destruct s as [|a s]; [done |]. intros _. simpl. pose proof (str_drop_length n s). lia. Qed.

Lemma parse_pair_shrinks rem k v rest :
  rem <> "" -> parse_pair rem = Ok (k, v, rest) -> (String.length rest < String.length rem)%nat.
Proof.
  intros Hne. unfold parse_pair. destruct (find_char "=" rem) as [i|]; [| done].
  pose proof (str_drop_S_length i rem Hne). pose proof (trim_start_length (str_drop (S i) rem)).
  set (t := trim_start (str_drop (S i) rem)) in *. intros Hp.
  assert (exists n, rest = str_drop n t) as [n ->].
  { destruct (starts_with t "'"); [| injection Hp as _ _ <-; by eexists].
    destruct (find_char "'" (str_drop 1 t)); [injection Hp as _ _ <-; by eexists | done]. }
  pose proof (str_drop_length n t). lia.
Qed.

Lemma skip_comma_length s :
  (String.length (let s := trim_start s in
     if starts_with s "," then trim_start (str_drop 1 s) else s) <= String.length s)%nat.
Proof.
  cbv zeta. pose proof (trim_start_length s). case_match; [| lia].
  pose proof (trim_start_length (str_drop 1 (trim_start s))).
  pose proof (str_drop_length 1 (trim_start s)). lia.
Qed.

Lemma is_empty_false s : is_empty s = false -> s <> "".
Proof. by destruct s. Qed.

Lemma parse_loop_enough fuel rem r :
  (String.length rem < fuel)%nat -> is_Some (parse_loop fuel rem r).
Proof.
  revert rem r. induction fuel as [|fuel IH]; intros rem r Hf; [lia |]. cbn [parse_loop].
  destruct (is_empty rem); [by eexists |].
  pose proof (skip_comma_length rem) as Hs. cbv zeta in Hs.
  set (rem' := if starts_with (trim_start rem) "," then _ else _) in *.
  destruct (is_empty rem') eqn:E; [by eexists |]. apply is_empty_false in E.
  destruct (parse_pair rem') as [[[k v] rest]|e] eqn:Ep; [| by eexists].
  apply parse_pair_shrinks in Ep; [| done].
  destruct (process_pair k v r) as [r'|e]; [| by eexists]. apply IH. lia.
Qed.

Lemma parse_loop_fuel fuel fuel' rem r x :
  (fuel <= fuel')%nat -> parse_loop fuel rem r = Some x -> parse_loop fuel' rem r = Some x.
Proof.
  revert fuel' rem r. induction fuel as [|fuel IH]; intros [|fuel'] rem r Hle H; try done; [lia |].
  cbn [parse_loop] in *. destruct (is_empty rem); [done |].
  set (rem' := if starts_with (trim_start rem) "," then _ else _) in *.
  destruct (is_empty rem'); [done |].
  destruct (parse_pair rem') as [[[k v] rest]|e]; [| done].
  destruct (process_pair k v r) as [r'|e]; [| done]. apply IH; [lia | done].
Qed.

(** C29. The loop of [parse] terminates: an iteration consumes at least one byte,
    so for every rule the loop reaches its end, with the same result for any
    fuel above the length of the rule; [parse] returns that result. *)
Theorem parse_loop_terminates rule fuel :
  (String.length rule < fuel)%nat ->
  exists res, parse_loop fuel (trim rule) (empty_rule rule) = Some res /\ parse rule = res.
Proof.
  intros Hf. pose proof (trim_length rule).
  destruct (parse_loop_enough (S (String.length rule)) (trim rule) (empty_rule rule))
    as [res Hres]; [lia |].
  exists res. split; [apply (parse_loop_fuel (S (String.length rule))); [lia | done] |].
  unfold parse. rewrite Hres. cbn [default]. case_match eqn:E; [| done].
  cbn [parse_loop] in Hres. rewrite E in Hres. congruence.
Qed.

Lemma parse_loop_terminates_witness :
  exists res, parse_loop 100 (trim " type='signal' , arg0=x") (empty_rule " type='signal' , arg0=x")
    = Some res /\ parse " type='signal' , arg0=x" = res.
Proof. apply parse_loop_terminates. vm_compute. lia. Defined.

(** The rules [parse] can make: argument indexes are 0 to 63. *)
Definition index_ok (m : gmap Z string) : Prop := map_Forall (fun i _ => (0 <= i <= 63)%Z) m.
Definition rule_ok (r : MatchRule) : Prop := index_ok (mr_args r) /\ index_ok (mr_arg_paths r).

Lemma arg_index_ok key s n : arg_index key s = Ok n -> (0 <= n <= 63)%Z.
Proof.
  unfold arg_index. destruct (parse_uint 255 s) as [m|] eqn:E; [| done].
  apply parse_uint_range in E; [| lia]. case_match eqn:Eb; [done |]. intros [= <-].
  apply Z.ltb_ge in Eb. lia.
Qed.

Lemma process_pair_ok k v r r' : rule_ok r -> process_pair k v r = Ok r' -> rule_ok r'.
Proof.
  unfold process_pair, arg_path_slice. intros [Ha Hp] H.
  repeat (case_match; [by simplify_eq |]).
  destruct (starts_with k "arg" && ends_with k "path");
    [| destruct (starts_with k "arg"); [| by simplify_eq]];
    destruct (arg_index k _) as [n|e] eqn:E; simplify_eq/=; apply arg_index_ok in E;
    split; simpl; try done; by apply map_Forall_insert_2.
Qed.

Lemma parse_loop_ok fuel rem r r' : rule_ok r -> parse_loop fuel rem r = Some (Ok r') -> rule_ok r'.
Proof.
  revert rem r. induction fuel as [|fuel IH]; intros rem r Hr H; [done |]. cbn [parse_loop] in H.
  destruct (is_empty rem); [by simplify_eq |].
  set (rem' := if starts_with (trim_start rem) "," then _ else _) in *.
  destruct (is_empty rem'); [by simplify_eq |].
  destruct (parse_pair rem') as [[[k v] rest]|e]; [| done].
  destruct (process_pair k v r) as [r1|e] eqn:E; [| done]. eauto using process_pair_ok.
Qed.

Lemma empty_rule_ok s : rule_ok (empty_rule s).
Proof. split; apply map_Forall_empty. Qed.

Lemma parse_ok rule r : parse rule = Ok r -> rule_ok r.
Proof.
  unfold parse. case_match; [intros [= <-]; apply empty_rule_ok |].
  destruct (parse_loop _ _ _) as [res|] eqn:E; [| done]. simpl. intros ->.
  eapply parse_loop_ok; [apply empty_rule_ok | done].
Qed.

(** The slice of an [argNpath] key is well formed: it cannot panic. *)
Lemma arg_path_slice_bounds key :
  starts_with key "arg" && ends_with key "path" = true ->
  (fst (arg_path_slice key) <= snd (arg_path_slice key) <= String.length key)%nat.
Proof.
  intros [[a ->]%starts_with_iff [b Hb]%ends_with_iff]%andb_true_iff.
  cbn [fst snd arg_path_slice].
  assert (3 <= String.length b)%nat.
  { destruct b as [|c [|c' [|c'' b]]]; simpl; try lia; simplify_eq/=. }
  rewrite Hb, str_length_app. change (String.length "path") with 4%nat. lia.
Qed.

(** Keys of the form [argN] and [argNpath] are recognised as such. *)
Definition all_digits (s : string) : bool :=
  all_chars (fun c => in_range 48 57 (byte_val c)) s.

Lemma dec_digits_all fuel n acc :
  (0 <= n)%Z -> all_digits acc = true -> all_digits (dec_digits fuel n acc) = true.
Proof.
  revert n acc. induction fuel as [|fuel IH]; intros n acc Hn Ha; cbn [dec_digits]; [done |].
  assert (all_digits (String (digit_char (n mod 10)) acc) = true) as Hd.
  { unfold all_digits. cbn [all_chars]. apply andb_true_iff. split; [| done].
    pose proof (Z.mod_pos_bound n 10 ltac:(lia)) as Hm.
    assert (forall d, (0 <= d < 10)%Z -> in_range 48 57 (byte_val (digit_char d)) = true) as Hc.
    { intros d Hd. assert (d = 0 \/ d = 1 \/ d = 2 \/ d = 3 \/ d = 4 \/ d = 5 \/ d = 6 \/ d = 7 \/
        d = 8 \/ d = 9)%Z as Hcs by lia. by repeat destruct Hcs as [->|Hcs]; [..|subst]. }
    by apply Hc. }
  case_match; [done |]. apply IH; [apply Z.div_pos; lia | done].
Qed.

Lemma to_dec_digits n : (0 <= n)%Z -> all_digits (to_dec n) = true.
Proof. intros Hn. by apply dec_digits_all. Qed.

Lemma digits_no_char c s :
  all_digits s = true -> in_range 48 57 (byte_val c) = false -> str_contains_char c s = false.
Proof.
  unfold all_digits. induction s as [|a s IH]; simpl; [done |].
  intros [Ha Hs]%andb_true_iff Hc. apply orb_false_iff. split; [| auto].
  destruct (Ascii.eqb_spec a c); congruence.
Qed.

Lemma eqb_contains c s t :
  str_contains_char c s = false -> str_contains_char c t = true -> String.eqb s t = false.
Proof. intros Hs Ht. apply String.eqb_neq. congruence. Qed.

Definition fixed_keys : list string :=
  ["type"; "sender"; "interface"; "member"; "path"; "path_namespace"; "destination"; "eavesdrop";
   "arg0namespace"].

Lemma process_pair_other k v r :
  k ∉ fixed_keys ->
  process_pair k v r
  = if starts_with k "arg" && ends_with k "path" then
      let? num := arg_index k (slice k 3 (String.length k - 4)) in Ok (insert_arg_path num v r)
    else if starts_with k "arg" then
      let? num := arg_index k (str_drop 3 k) in Ok (insert_arg num v r)
    else Ok r.
Proof.
  intros Hk. unfold process_pair, arg_path_slice.
  repeat match goal with
  | |- context [String.eqb k ?t] =>
      destruct (String.eqb_spec k t) as [->|_]; [exfalso; apply Hk; unfold fixed_keys; set_solver |]
  end. done.
Qed.

Lemma arg_key_other s : str_contains_char "m" s = false -> "arg" +:+ s ∉ fixed_keys.
Proof.
  intros Hs Hin. unfold fixed_keys in Hin. rewrite !elem_of_cons in Hin.
  destruct Hin as [|[|[|[|[|[|[|[|[E|[]%elem_of_nil]]]]]]]]]; try discriminate.
  apply (f_equal (str_contains_char "m")) in E. rewrite str_contains_char_app, Hs in E.
  discriminate E.
Qed.

Lemma starts_with_app p s : starts_with (p +:+ s) p = true.
Proof. apply starts_with_iff. by exists s. Qed.

Lemma process_pair_arg s v r :
  all_digits s = true ->
  process_pair ("arg" +:+ s) v r
  = (let? n := arg_index ("arg" +:+ s) s in Ok (insert_arg n v r)).
Proof.
  intros Hs. rewrite process_pair_other by by apply arg_key_other, digits_no_char.
  rewrite starts_with_app. destruct (ends_with _ "path") eqn:E; [| done].
  apply ends_with_iff in E as [t E]. apply (f_equal (str_contains_char "p")) in E.
  rewrite !str_contains_char_app, (digits_no_char "p" s), (orb_comm _ (_ "p"%char "path")) in E by done.
  discriminate E.
Qed.

Lemma process_pair_arg_path s v r :
  all_digits s = true ->
  process_pair ("arg" +:+ s +:+ "path") v r
  = (let? n := arg_index ("arg" +:+ s +:+ "path") s in Ok (insert_arg_path n v r)).
Proof.
  intros Hs. rewrite process_pair_other.
  2:{ apply arg_key_other. by rewrite str_contains_char_app, (digits_no_char "m" s). }
  assert (ends_with ("arg" +:+ s +:+ "path") "path" = true) as ->
    by (apply ends_with_iff; exists ("arg" +:+ s); by rewrite str_app_assoc).
  rewrite starts_with_app. cbn [andb]. unfold slice.
  change (str_drop 3 ("arg" +:+ s +:+ "path")) with (s +:+ "path"). rewrite !str_length_app.
  replace (String.length "arg" + (String.length s + String.length "path") - 4 - 3)%nat
    with (String.length s) by (simpl; lia).
  by rewrite str_take_app.
Qed.

Lemma parse_digits_mono max max' acc s n :
  (max <= max')%Z -> parse_digits max acc s = Some n -> parse_digits max' acc s = Some n.
Proof.
  intros Hm. revert acc. induction s as [|c s IH]; intros acc; simpl; [done |].
  destruct (digit_val c) as [d|]; [| done]. destruct (Z.ltb_spec max (acc * 10 + d)); [done |].
  destruct (Z.ltb_spec max' (acc * 10 + d)); [lia | apply IH].
Qed.

Lemma parse_uint_mono max max' s n :
  (max <= max')%Z -> parse_uint max s = Some n -> parse_uint max' s = Some n.
Proof.
  intros Hm. unfold parse_uint. destruct s as [|c s]; [done |].
  destruct (Ascii.eqb c "+"); [case_match; [done |] |]; by apply parse_digits_mono.
Qed.

(** Argument indexes stay in the range 0 to 63 of the D-Bus specification:
    every rule that [parse] accepts has only such indexes, and a key [argN]
    or [argNpath] with a larger [N] is refused with the key in the error. *)
Lemma parse_arg_indexes :
  (forall rule r i v, parse rule = Ok r ->
     mr_args r !! i = Some v \/ mr_arg_paths r !! i = Some v -> (0 <= i <= 63)%Z) /\
  (forall n v r, (64 <= n < 10 ^ 20)%Z ->
     process_pair ("arg" +:+ to_dec n) v r = Err (InvalidArgIndex ("arg" +:+ to_dec n)) /\
     process_pair ("arg" +:+ to_dec n +:+ "path") v r
       = Err (InvalidArgIndex ("arg" +:+ to_dec n +:+ "path"))).
Proof.
  split.
  - intros rule r i v [Ha Hp]%parse_ok [H|H]; [by apply Ha in H | by apply Hp in H].
  - intros n v r Hn. rewrite process_pair_arg, process_pair_arg_path by (apply to_dec_digits; lia).
    assert (forall key, arg_index key (to_dec n) = Err (InvalidArgIndex key)) as He.
    { intros key. unfold arg_index. destruct (parse_uint 255 (to_dec n)) as [m|] eqn:E; [| done].
      apply (parse_uint_mono 255 (10 ^ 20)) in E; [| lia]. rewrite parse_uint_to_dec in E by lia.
      injection E as <-. by rewrite (proj2 (Z.ltb_lt 63 n)) by lia. }
    by rewrite !He.
Qed.

(** ** Matching *)

(** The [argNpath] relation of the D-Bus specification: equal, or one of the
    two ends with a slash and is a prefix of the other. *)
Definition path_related (a f : string) : Prop :=
  a = f \/ (exists d r, f = d +:+ "/" /\ a = f +:+ r) \/ (exists d r, a = d +:+ "/" /\ f = a +:+ r).

Lemma matches_path_filter_iff a f : matches_path_filter a f = true <-> path_related a f.
Proof.
  unfold matches_path_filter, path_related. destruct (String.eqb_spec a f) as [->|Hne]; [naive_solver |].
  destruct (ends_with f "/" && starts_with a f) eqn:E1.
  { apply andb_true_iff in E1 as [[d ?]%ends_with_iff [r ?]%starts_with_iff]. naive_solver. }
  destruct (ends_with a "/" && starts_with f a) eqn:E2.
  { apply andb_true_iff in E2 as [[d ?]%ends_with_iff [r ?]%starts_with_iff]. naive_solver. }
  split; [done |]. intros [?|[(d & r & Hf & Ha)|(d & r & Ha & Hf)]]; [done | |].
  - rewrite (proj2 (ends_with_iff f "/")), (proj2 (starts_with_iff a f)) in E1 by eauto. done.
  - rewrite (proj2 (ends_with_iff a "/")), (proj2 (starts_with_iff f a)) in E2 by eauto. done.
Qed.

Lemma max_of_ge l k : k ∈ l -> exists m, max_of l = Some m /\ (k <= m)%Z.
Proof.
  induction l as [|a l IH]; [set_solver |]. intros [->|Hk]%elem_of_cons; simpl.
  - destruct (max_of l); eexists; split; try done; lia.
  - destruct (IH Hk) as (m & -> & ?). eexists; split; [done | lia].
Qed.

Lemma max_of_le l b m : Forall (fun k => (k <= b)%Z) l -> max_of l = Some m -> (m <= b)%Z.
Proof.
  revert m. induction l as [|a l IH]; intros m Hl; simpl; [done |]. inversion_clear Hl.
  intros [= <-]. destruct (max_of l) as [m'|]; [| done]. specialize (IH m' ltac:(done) eq_refl). lia.
Qed.

Lemma max_idx_bounds r :
  rule_ok r ->
  (0 <= max_idx r <= 63)%Z /\
  forall i v, mr_args r !! i = Some v \/ mr_arg_paths r !! i = Some v -> (i <= max_idx r)%Z.
Proof.
  intros [Ha Hp]. unfold max_idx.
  set (l := (map_to_list (mr_args r)).*1 ++ (map_to_list (mr_arg_paths r)).*1).
  assert (Forall (fun k => 0 <= k <= 63)%Z l) as Hl.
  { assert (forall m, index_ok m -> Forall (fun k => 0 <= k <= 63)%Z (map_to_list m).*1) as Hf.
    { intros m Hm. apply Forall_fmap, Forall_forall. intros [i v] Hi%elem_of_map_to_list.
      by apply Hm in Hi. }
    apply Forall_app. auto. }
  assert (0 <= default 0 (max_of l) <= 63)%Z as Hb.
  { destruct l as [|k l'] eqn:El; [simpl; lia |]. rewrite <- El in *.
    destruct (max_of_ge l k) as (m & Em & Hk); [rewrite El; set_solver |].
    rewrite Em. simpl. assert (k ∈ l) as Hin by (rewrite El; set_solver).
    rewrite Forall_forall in Hl. pose proof (Hl k Hin). split; [lia |].
    apply (max_of_le l 63); [| done]. apply Forall_forall. intros k' Hk'. apply Hl in Hk'. lia. }
  assert (forall i v, mr_args r !! i = Some v \/ mr_arg_paths r !! i = Some v ->
    (i <= default 0 (max_of l))%Z) as Hi.
  { intros i v H. destruct (max_of_ge l i) as (m & -> & ?); [| done]. unfold l.
    rewrite elem_of_app, !list_elem_of_fmap.
    destruct H as [H|H]; [left | right]; exists (i, v); by rewrite elem_of_map_to_list. }
  case_bool_decide; (split; [lia |]); [| done]. intros i v H'. specialize (Hi i v H'). lia.
Qed.

(** Arguments up to [max_idx] are collected in place, later ones left out. *)
Lemma collect_args_lookup m idx fields i :
  (0 <= m <= 63)%Z -> (idx + i <= Z.to_nat m)%nat ->
  collect_args m idx fields !! i = value_str <$> fields !! i.
Proof.
  intros Hm. revert idx i. induction fields as [|f fs IH]; intros idx i Hi; simpl; [done |].
  assert ((m <? wrap8 (Z.of_nat idx))%Z = false) as ->.
  { apply Z.ltb_ge. unfold wrap8, u8_modulus. rewrite Z.mod_small; lia. }
  destruct i as [|i]; simpl; [done |]. apply IH. lia.
Qed.

Lemma forallb_map_to_list {A} (f : Z * A -> bool) (m : gmap Z A) :
  forallb f (map_to_list m) = true <-> forall i v, m !! i = Some v -> f (i, v) = true.
Proof.
  rewrite forallb_forall. setoid_rewrite <- list_elem_of_In. split.
  - intros H i v Hi. apply H. by apply elem_of_map_to_list.
  - intros H [i v] Hi. apply H. by apply elem_of_map_to_list in Hi.
Qed.

Lemma check_iff {A} (f : option A) p : check f p = true <-> forall x, f = Some x -> p x = true.
Proof. destruct f as [x|]; simpl; [| naive_solver]. split; [by intros ? ? [= <-] | auto]. Qed.

Lemma field_is_iff f x : field_is f x = true <-> f = Some x.
Proof. destruct f as [y|]; simpl; [| done]. rewrite String.eqb_eq. naive_solver. Qed.

Lemma in_namespace_iff f sep ns :
  in_namespace f sep ns = true <->
  exists x, f = Some x /\ (x = ns \/ exists rest, x = ns +:+ sep +:+ rest).
Proof.
  destruct f as [x|]; simpl; [| naive_solver].
  rewrite orb_true_iff, String.eqb_eq, starts_with_iff. setoid_rewrite str_app_assoc. naive_solver.
Qed.

Section MatchSpec.
Context `{ZB : Zbus}.

(** All arguments of a message with their types, as far as zbus decodes them;
    without the cut at [max_idx]. *)
Definition typed_args (msg : Message) : option (list Value) :=
  match deserialize BStructure msg with
  | Ok fields => Some fields
  | Err _ =>
  match deserialize BStr msg with
  | Ok s => Some [VStr s]
  | Err _ =>
  match deserialize BStr3 msg with
  | Ok (s1, s2, s3) => Some [VStr s1; VStr s2; VStr s3]
  | Err _ =>
  match deserialize BStr2 msg with
  | Ok (s1, s2) => Some [VStr s1; VStr s2]
  | Err _ => match deserialize BStr1 msg with Ok s1 => Some [VStr s1] | Err _ => None end
  end end end end.

(** ... and as the strings the code compares. *)
Definition string_args (msg : Message) : option (list string) :=
  match typed_args msg with Some l => Some (value_str <$> l) | None => None end.

(** What a rule asks of the arguments of a message. *)
Definition args_spec (r : MatchRule) (msg : Message) : Prop :=
  (mr_args r = ∅ /\ mr_arg_paths r = ∅ /\ mr_arg0namespace r = None) \/
  exists args, string_args msg = Some args /\
    (forall i v, mr_args r !! i = Some v -> args !! Z.to_nat i = Some v) /\
    (forall i f, mr_arg_paths r !! i = Some f ->
       exists a, args !! Z.to_nat i = Some a /\ path_related a f) /\
    (forall ns, mr_arg0namespace r = Some ns ->
       exists a, args !! 0%nat = Some a /\ (a = ns \/ exists rest, a = ns +:+ "." +:+ rest)).

(** What the filters of a rule ask of a message as the code reads them, the
    destination apart: the sender as a string, arguments as strings. *)
Definition rule_spec_no_destination (r : MatchRule) (msg : Message) : Prop :=
  (forall t, mr_type r = Some t -> t = type_str (msg_type msg)) /\
  (forall s, mr_sender r = Some s -> sender_str msg = Some s) /\
  (forall i, mr_interface r = Some i -> interface_str msg = Some i) /\
  (forall m, mr_member r = Some m -> member_str msg = Some m) /\
  (forall p, mr_path r = Some p -> path_str msg = Some p) /\
  (forall ns, mr_path_namespace r = Some ns ->
     exists p, path_str msg = Some p /\ (p = ns \/ exists rest, p = ns +:+ "/" +:+ rest)) /\
  args_spec r msg.

Definition rule_spec (r : MatchRule) (msg : Message) : Prop :=
  rule_spec_no_destination r msg /\
  forall d, mr_destination r = Some d ->
    destination_str msg = Some d \/ (d = "" /\ destination_str msg = None).

Lemma extract_string_args_prefix r msg :
  rule_ok r ->
  match string_args msg with
  | None => extract_string_args r msg = Err tt
  | Some all => exists args, extract_string_args r msg = Ok args /\
      forall i, (i <= Z.to_nat (max_idx r))%nat -> args !! i = all !! i
  end.
Proof.
  intros Hr. pose proof (max_idx_bounds r Hr) as [Hb _].
  unfold string_args, typed_args, extract_string_args.
  destruct (deserialize BStructure msg) as [fields|].
  { eexists; split; [done |]. intros i Hi. rewrite collect_args_lookup by (done || lia).
    by rewrite list_lookup_fmap. }
  destruct (deserialize BStr msg) as [s|]; [by eexists |].
  destruct (deserialize BStr3 msg) as [[[s1 s2] s3]|]; [by eexists |].
  destruct (deserialize BStr2 msg) as [[s1 s2]|]; [by eexists |].
  destruct (deserialize BStr1 msg) as [s|]; [by eexists | done].
Qed.

Lemma has_arg_filters_false r :
  has_arg_filters r = false <->
  mr_args r = ∅ /\ mr_arg_paths r = ∅ /\ mr_arg0namespace r = None.
Proof.
  unfold has_arg_filters. rewrite !orb_false_iff, !negb_false_iff, !bool_decide_eq_true,
    bool_decide_eq_false, <- eq_None_not_Some. naive_solver.
Qed.

Lemma matches_args_iff r msg : rule_ok r -> matches_args r msg = true <-> args_spec r msg.
Proof.
  intros Hr. pose proof (max_idx_bounds r Hr) as [Hb Hi].
  unfold matches_args, args_spec. rewrite <- has_arg_filters_false.
  destruct (has_arg_filters r) eqn:Ef; [| naive_solver].
  pose proof (extract_string_args_prefix r msg Hr) as He.
  destruct (string_args msg) as [all|]; [| rewrite He; naive_solver].
  destruct He as (args & -> & Hpre).
  assert (forall i v, mr_args r !! i = Some v \/ mr_arg_paths r !! i = Some v ->
    arg_get args i = all !! Z.to_nat i) as Hget.
  { intros i v H. apply Hpre. apply Hi in H. lia. }
  assert (head args = all !! 0%nat) as -> by (rewrite <- Hpre by lia; by destruct args).
  rewrite !andb_true_iff, !forallb_map_to_list, check_iff. setoid_rewrite in_namespace_iff.
  split.
  - intros [[H1 H2] H3]. right. exists all. split_and!; [done | | | done].
    + intros i v Hv. specialize (H1 i v Hv). apply field_is_iff in H1.
      by rewrite (Hget i v) in H1 by auto.
    + intros i f Hf. specialize (H2 i f Hf). cbv beta iota in H2. rewrite (Hget i f) in H2 by auto.
      destruct (all !! Z.to_nat i) as [a|]; [| done]. exists a. by rewrite <- matches_path_filter_iff.
  - intros [?|(args' & [= <-] & H1 & H2 & H3)]; [done |]. split_and!; [| | done].
    + intros i v Hv. apply field_is_iff. rewrite (Hget i v) by auto. auto.
    + intros i f Hf. rewrite (Hget i f) by auto. destruct (H2 i f Hf) as (a & -> & ?).
      by apply matches_path_filter_iff.
Qed.

Lemma matches_ignoring_destination_iff r msg :
  rule_ok r -> matches_ignoring_destination r msg = true <-> rule_spec_no_destination r msg.
Proof.
  intros Hr. unfold matches_ignoring_destination, rule_spec_no_destination.
  rewrite !andb_true_iff, !check_iff, matches_args_iff by done.
  setoid_rewrite field_is_iff. setoid_rewrite in_namespace_iff. setoid_rewrite String.eqb_eq. tauto.
Qed.

Lemma matches_split r msg :
  matches r msg = matches_ignoring_destination r msg &&
    check (mr_destination r) (fun f =>
      match destination_str msg with Some dest => String.eqb dest f | None => is_empty f end).
Proof.
  unfold matches, matches_ignoring_destination. rewrite <- !andb_assoc.
  do 6 f_equal. apply andb_comm.
Qed.

Lemma matches_iff r msg : rule_ok r -> matches r msg = true <-> rule_spec r msg.
Proof.
  intros Hr. rewrite matches_split, andb_true_iff, matches_ignoring_destination_iff, check_iff by done.
  unfold rule_spec. apply and_iff_compat_l. apply forall_proper. intros d.
  destruct (destination_str msg) as [x|].
  - rewrite String.eqb_eq. naive_solver.
  - destruct d; naive_solver.
Qed.

(** *** The D-Bus specification *)

Section DBus.

(** Who owns which name on the bus the message comes from. *)
Context (owner : string -> option string).

Definition arguments (msg : Message) : list Value := default [] (typed_args msg).

(** What the chapter on match rules of the D-Bus specification says of each key:
    a sender is given by its unique name or by a name it owns; every path is in
    the namespace of the root; [argN] and [arg0namespace] are about arguments of
    type STRING, [argNpath] about those of type STRING or OBJECT_PATH. *)
Record dbus_match (r : MatchRule) (msg : Message) : Prop := mkDBusMatch {
  dm_type t : mr_type r = Some t -> type_str (msg_type msg) = t;
  dm_sender s : mr_sender r = Some s -> exists u, sender_str msg = Some u /\ (u = s \/ owner s = Some u);
  dm_interface i : mr_interface r = Some i -> interface_str msg = Some i;
  dm_member m : mr_member r = Some m -> member_str msg = Some m;
  dm_path p : mr_path r = Some p -> path_str msg = Some p;
  dm_path_namespace ns : mr_path_namespace r = Some ns ->
    exists p, path_str msg = Some p /\ (ns = "/" \/ p = ns \/ exists rest, p = ns +:+ "/" +:+ rest);
  dm_destination d : mr_destination r = Some d -> destination_str msg = Some d;
  dm_arg i v : mr_args r !! i = Some v -> arguments msg !! Z.to_nat i = Some (VStr v);
  dm_arg_path i f : mr_arg_paths r !! i = Some f ->
    exists a, (arguments msg !! Z.to_nat i = Some (VStr a) \/ arguments msg !! Z.to_nat i = Some (VObjectPath a)) /\
      path_related a f;
  dm_arg0namespace ns : mr_arg0namespace r = Some ns ->
    exists a, arguments msg !! 0%nat = Some (VStr a) /\ (a = ns \/ exists rest, a = ns +:+ "." +:+ rest);
}.

(** The rule and the message are none of the cases in which the code departs
    from the specification: the sender filter is no name that the sender owns
    without being called so, the namespace is not the root, no filter asks for
    an empty destination or argument, and no object path is where [argN] or
    [arg0namespace] looks for a string. *)
Record regular (r : MatchRule) (msg : Message) : Prop := mkRegular {
  rg_sender s u : mr_sender r = Some s -> sender_str msg = Some u -> owner s = Some u -> s = u;
  rg_path_namespace : mr_path_namespace r <> Some "/";
  rg_destination : mr_destination r <> Some "";
  rg_arg i v p : mr_args r !! i = Some v -> v <> "" /\ arguments msg !! Z.to_nat i <> Some (VObjectPath p);
  rg_arg_path i f : mr_arg_paths r !! i = Some f -> f <> "";
  rg_arg0namespace ns p : mr_arg0namespace r = Some ns -> ns <> "" /\ arguments msg !! 0%nat <> Some (VObjectPath p);
}.

(** An argument the code reads as the string [a]. *)
Lemma arg_string msg args i a :
  string_args msg = Some args -> args !! i = Some a ->
  exists x, arguments msg !! i = Some x /\ value_str x = a.
Proof.
  unfold string_args, arguments. destruct (typed_args msg) as [l|]; [| done]. intros [= <-]. cbn [default from_option].
  rewrite list_lookup_fmap. destruct (l !! i) as [x|] eqn:Hx; [| done]. intros [= <-]. by exists x.
Qed.

Lemma string_arg msg i x :
  arguments msg !! i = Some x -> exists args, string_args msg = Some args /\ args !! i = Some (value_str x).
Proof.
  unfold string_args, arguments. destruct (typed_args msg) as [l|]; cbn [default from_option]; [| done].
  unfold id. intros Hx. eexists. split; [done |]. by rewrite list_lookup_fmap, Hx.
Qed.

(** No argument that is not a string is empty or an object path for these filters. *)
Lemma value_str_VStr x a : value_str x = a -> a <> "" -> (forall p, x <> VObjectPath p) -> x = VStr a.
Proof. destruct x as [s|p|]; cbn; intros <- Ha Hp; [done | by destruct (Hp p) | done]. Qed.

Lemma path_related_nonempty f : path_related "" f -> f = "".
Proof. intros [<-|[(d & r & -> & Hf)|(d & r & Hd & _)]]; [done | |]; destruct d; done. Qed.

Lemma args_dbus r msg :
  regular r msg -> args_spec r msg <->
  (forall i v, mr_args r !! i = Some v -> arguments msg !! Z.to_nat i = Some (VStr v)) /\
  (forall i f, mr_arg_paths r !! i = Some f ->
     exists a, (arguments msg !! Z.to_nat i = Some (VStr a) \/ arguments msg !! Z.to_nat i = Some (VObjectPath a)) /\
       path_related a f) /\
  (forall ns, mr_arg0namespace r = Some ns ->
     exists a, arguments msg !! 0%nat = Some (VStr a) /\ (a = ns \/ exists rest, a = ns +:+ "." +:+ rest)).
Proof.
  intros Hreg. split.
  - intros [(-> & -> & ->)|(args & Ha & H1 & H2 & H3)].
    { split_and!; [| | done]; intros i v; by rewrite lookup_empty. }
    split_and!.
    + intros i v Hv. destruct (arg_string msg args _ _ Ha (H1 i v Hv)) as (x & Hx & Hs). rewrite Hx. f_equal.
      apply value_str_VStr; [done | by eapply rg_arg |]. intros p ->. by apply (rg_arg _ _ Hreg i v p Hv).
    + intros i f Hf. destruct (H2 i f Hf) as (a & Hi & Hr). destruct (arg_string msg args _ _ Ha Hi) as (x & Hx & Hs).
      exists a. split; [| done]. rewrite Hx. destruct x as [s|p|]; cbn in Hs; subst; [by left | by right |].
      apply path_related_nonempty in Hr. by destruct (rg_arg_path _ _ Hreg i f Hf).
    + intros ns Hns. destruct (H3 ns Hns) as (a & Hi & Hr). destruct (arg_string msg args _ _ Ha Hi) as (x & Hx & Hs).
      destruct (rg_arg0namespace _ _ Hreg ns "" Hns) as [Hne _]. exists a. split; [| done]. rewrite Hx. f_equal.
      apply value_str_VStr; [done | |].
      * intros ->. destruct Hr as [<-|[rest Hr]]; [done | by destruct ns].
      * intros p ->. by apply (rg_arg0namespace _ _ Hreg ns p Hns).
  - intros (H1 & H2 & H3). destruct (has_arg_filters r) eqn:Hf; [right | left; by apply has_arg_filters_false].
    assert (exists i x, arguments msg !! i = Some x) as (i0 & x0 & Hx0).
    { unfold has_arg_filters in Hf. rewrite !orb_true_iff, !negb_true_iff, !bool_decide_eq_false, bool_decide_eq_true in Hf.
      destruct Hf as [[Hf|Hf]|[ns Hf]].
      - apply map_choose in Hf as (i & v & Hv). eauto.
      - apply map_choose in Hf as (i & f & Hv). destruct (H2 i f Hv) as (a & [Ha|Ha] & _); eauto.
      - destruct (H3 ns Hf) as (a & Ha & _). eauto. }
    destruct (string_arg msg i0 x0 Hx0) as (args & Hargs & _). exists args. split; [done |].
    assert (forall i x, arguments msg !! i = Some x -> args !! i = Some (value_str x)) as Hget.
    { intros i x Hx. destruct (string_arg msg i x Hx) as (args' & Ha' & ?). congruence. }
    split_and!.
    + intros i v Hv. exact (Hget _ _ (H1 i v Hv)).
    + intros i f Hv. destruct (H2 i f Hv) as (a & [Ha|Ha] & Hr); exists a; split; try done; exact (Hget _ _ Ha).
    + intros ns Hns. destruct (H3 ns Hns) as (a & Ha & Hr). exists a. split; [exact (Hget _ _ Ha) | done].
Qed.

Lemma rule_spec_dbus r msg : regular r msg -> rule_spec r msg <-> dbus_match r msg.
Proof.
  intros Hreg. unfold rule_spec, rule_spec_no_destination. rewrite (args_dbus r msg Hreg). split.
  - intros ((Ht & Hs & Hi & Hm & Hp & Hn & Ha & Hap & Ha0) & Hd). split; try done.
    + intros t H. by rewrite (Ht t H).
    + intros x H. exists x. split; [by apply Hs | by left].
    + intros ns H. destruct (Hn ns H) as (p & ? & ?). exists p. naive_solver.
    + intros d H. destruct (Hd d H) as [?|[-> _]]; [done |]. by destruct (rg_destination _ _ Hreg).
  - intros [Ht Hs Hi Hm Hp Hn Hd Ha Hap Ha0]. split_and!; try done.
    + intros t H. by rewrite (Ht t H).
    + intros x H. destruct (Hs x H) as (u & Hu & [->|Ho]); [done |]. by rewrite (rg_sender _ _ Hreg x u H Hu Ho).
    + intros ns H. destruct (Hn ns H) as (p & Hp' & [->|?]); [| by exists p]. by destruct (rg_path_namespace _ _ Hreg).
    + intros d H. left. by apply Hd.
Qed.

(** C21. [matches] and the D-Bus specification.  For every rule string that parses,
    a message matches exactly when it does by the specification, over all
    arguments of the message (that only the arguments up to the largest index
    asked for are extracted, with an index truncated to a byte, does not show),
    except in the cases [regular] names.  In two of them the code refuses
    messages the rule is for: a sender filter is compared with the unique name
    of the sender as a string, so that a filter on a well-known name refuses the
    messages of the owner of that name, which carry its unique name; and
    path_namespace='/' refuses the messages of every object but the root. *)
Theorem matches_follows_dbus rule r msg :
  parse rule = Ok r ->
  (regular r msg -> matches r msg = true <-> dbus_match r msg) /\
  (forall s u, mr_sender r = Some s -> sender_str msg = Some u -> s <> u -> matches r msg = false) /\
  (forall p, mr_path_namespace r = Some "/" -> path_str msg = Some p -> p <> "/" -> starts_with p "//" = false ->
     matches r msg = false).
Proof.
  intros Hr. pose proof (matches_iff r msg (parse_ok rule r Hr)) as Hm. split_and!.
  - intros Hreg. rewrite Hm. by apply rule_spec_dbus.
  - intros s u Hs Hu Hne. apply not_true_iff_false. rewrite Hm. intros ((_ & H & _) & _).
    specialize (H s Hs). congruence.
  - intros p Hn Hp Hne Hsl. apply not_true_iff_false. rewrite Hm. intros ((_ & _ & _ & _ & _ & H & _) & _).
    destruct (H "/" Hn) as (q & Hq & [->|[rest ->]]); [congruence |]. rewrite Hp in Hq. injection Hq as ->.
    done.
Qed.
End DBus.

(** [matches_ignoring_destination] is [matches] for the rule without its
    destination filter, for every rule and message. *)
Lemma ignoring_destination_drops_filter r msg :
  matches_ignoring_destination r msg = matches (set_rule_destination None r) msg.
Proof. by rewrite matches_split, andb_true_r. Qed.

(** [path_namespace='/'] matches the root path only: a signal of any other
    object is refused, although every object path is below the root. *)
Lemma root_namespace_matches_root_only r msg p :
  parse "path_namespace='/'" = Ok r -> path_str msg = Some p -> starts_with p "//" = false ->
  matches r msg = bool_decide (p = "/").
Proof.
  intros [= <-] Hp Hs.
  assert (forall rule, matches (set_path_namespace "/" (empty_rule rule)) msg
                       = in_namespace (path_str msg) "/" "/") as Hm.
  { intros rule. unfold matches. cbn -[in_namespace matches_args].
    destruct (in_namespace _ _ _); reflexivity. }
  etransitivity; [apply (Hm "path_namespace='/'") |]. rewrite Hp. unfold in_namespace.
  change ("/" +:+ "/") with "//". rewrite Hs, orb_false_r.
  destruct (String.eqb_spec p "/"); by case_bool_decide.
Qed.

End MatchSpec.

(** ** Printing and parsing back *)

Definition pair_str (kv : string * string) : string :=
  kv.1 +:+ "='" +:+ kv.2 +:+ "'".

Fixpoint tail_str (pairs : list (string * string)) : string :=
  match pairs with [] => "" | kv :: rest => "," +:+ pair_str kv +:+ tail_str rest end.

(** The usual text of a rule: [key='value'] pairs separated by commas. *)
Definition render (pairs : list (string * string)) : string :=
  match pairs with [] => "" | kv :: rest => pair_str kv +:+ tail_str rest end.

Definition key_ok (k : string) : bool :=
  all_chars ascii_graph k && negb (str_contains_char "=" k) && negb (str_contains_char "," k).

Definition pair_ok (kv : string * string) : bool :=
  key_ok kv.1 && negb (str_contains_char "'" kv.2).

Fixpoint process_all (pairs : list (string * string)) (r : MatchRule)
    : result MatchRuleError MatchRule :=
  match pairs with
  | [] => Ok r
  | (k, v) :: rest => let? r' := process_pair k v r in process_all rest r'
  end.

Lemma parse_pair_render k v rest :
  pair_ok (k, v) = true -> parse_pair (pair_str (k, v) +:+ rest) = Ok (k, v, rest).
Proof.
  unfold pair_ok, key_ok, pair_str. cbn [fst snd]. intros H. bool_facts.
  rewrite !str_app_assoc, !str_app_cons, !str_app_nil_l. unfold parse_pair.
  rewrite find_char_app, str_take_app, str_drop_S_app, trim_graph by done.
  rewrite trim_start_graph by done. set (q := v +:+ String "'" rest).
  change (starts_with (String "'" q) "'") with true. cbv iota.
  change (str_drop 1 (String "'" q)) with q. unfold q at 1. rewrite find_char_app by done.
  unfold slice. replace (String.length v + 1 - 1)%nat with (String.length v) by lia.
  replace (String.length v + 2)%nat with (S (S (String.length v))) by lia.
  change (str_drop 1 (String "'" q)) with q.
  change (str_drop (S (S (String.length v))) (String "'" q)) with (str_drop (S (String.length v)) q).
  unfold q. by rewrite str_take_app, str_drop_S_app.
Qed.

(** A key does not start with white space or a comma. *)
Lemma pair_str_start kv s :
  pair_ok kv = true ->
  exists a t, pair_str kv +:+ s = String a t /\ ascii_graph a = true /\ Ascii.eqb a "," = false.
Proof.
  destruct kv as [[|a k] v]; unfold pair_ok, key_ok, pair_str; cbn [fst snd].
  - intros _. by do 2 eexists.
  - cbn [all_chars str_contains_char]. intros H. bool_facts.
    rewrite str_app_cons, str_app_cons. by do 2 eexists.
Qed.

Lemma parse_loop_tail pairs fuel r :
  forallb pair_ok pairs = true -> (length pairs < fuel)%nat ->
  parse_loop fuel (tail_str pairs) r = Some (process_all pairs r).
Proof.
  revert fuel r. induction pairs as [|[k v] pairs IH]; intros [|fuel] r; cbn [length forallb]; intros Hp Hf;
    try lia; [done |]. apply andb_true_iff in Hp as [Hkv Hp].
  cbn [tail_str parse_loop process_all].
  destruct (pair_str_start (k, v) (tail_str pairs) Hkv) as (a & t & E & Ha & Hc).
  pose proof (parse_pair_render k v (tail_str pairs) Hkv) as Hpp. rewrite E in *.
  change ("," +:+ String a t) with (String "," (String a t)). cbn [is_empty].
  rewrite trim_start_graph by done. change (starts_with (String "," _) ",") with true. cbv iota.
  change (str_drop 1 (String "," ?s)) with s. rewrite trim_start_graph by done. cbn [is_empty].
  rewrite Hpp. destruct (process_pair k v r); [| done]. apply IH; [done | lia].
Qed.

Lemma parse_loop_render pairs fuel r :
  forallb pair_ok pairs = true -> (length pairs < fuel)%nat ->
  parse_loop fuel (render pairs) r = Some (process_all pairs r).
Proof.
  destruct pairs as [|[k v] pairs], fuel as [|fuel]; cbn [length forallb]; intros Hp Hf; try lia;
    [done |]. apply andb_true_iff in Hp as [Hkv Hp]. cbn [render parse_loop process_all].
  destruct (pair_str_start (k, v) (tail_str pairs) Hkv) as (a & t & E & Ha & Hc).
  pose proof (parse_pair_render k v (tail_str pairs) Hkv) as Hpp. rewrite E in *.
  cbn [is_empty]. rewrite trim_start_graph by done.
  assert (starts_with (String a t) "," = false) as ->.
  { unfold starts_with. cbn [strip_prefix]. rewrite Ascii.eqb_sym, Hc. done. }
  cbn [is_empty]. rewrite Hpp. destruct (process_pair k v r); [| done].
  apply parse_loop_tail; [done | lia].
Qed.

Lemma trim_start_quote s :
  str_contains_char "'" s = true -> str_contains_char "'" (trim_start s) = true.
Proof.
  apply (trim_start_ind (fun s t => str_contains_char "'" s = true ->
    str_contains_char "'" t = true)); [done |].
  intros s' r E IH Hs. apply IH. clear IH.
  destruct s' as [|a s1]; [done |]. cbn [strip_ws] in E.
  assert (forall a s, a <> "'"%char -> str_contains_char "'" (String a s) = str_contains_char "'" s) as Hne.
  { intros x y Hx. simpl. by destruct (Ascii.eqb_spec x "'"). }
  destruct (ws1 a) eqn:E1; [injection E as <-; rewrite Hne in Hs by (by intros ->); done |].
  destruct s1 as [|b s2]; [done |].
  destruct (ws2 a b) eqn:E2.
  { injection E as <-. unfold ws2 in E2. bool_facts. rewrite !Hne in Hs; [done | |]; intros ->; done. }
  destruct s2 as [|c s3]; [done |]. destruct (ws3 a b c) eqn:E3; [| done]. injection E as <-.
  assert (byte_val "'" = 39)%Z as Hq by done. unfold ws3, in_range in E3. cbv zeta in E3.
  rewrite !orb_true_iff, !andb_true_iff, !orb_true_iff, !andb_true_iff, !Z.eqb_eq, !Z.leb_le in E3.
  rewrite !Hne in Hs; [done | | |]; intros ->; rewrite Hq in E3; lia.
Qed.

Lemma trim_end_quote s : trim_end (s +:+ "'") = s +:+ "'".
Proof.
  induction s as [|a s IH]; [done |]. rewrite str_app_cons. cbn [trim_end]. rewrite IH.
  destruct (is_empty _) eqn:E; [| done].
  assert (str_contains_char "'" (trim_start (String a (s +:+ "'"))) = true) as Hc.
  { apply trim_start_quote. simpl. rewrite str_contains_char_app. by rewrite !orb_true_r. }
  by destruct (trim_start _).
Qed.

Lemma tail_str_quote pairs : exists t, "'" +:+ tail_str pairs = t +:+ "'".
Proof.
  induction pairs as [|kv pairs [t IH]]; [by exists "" |]. cbn [tail_str]. unfold pair_str.
  rewrite !str_app_assoc. rewrite IH. rewrite <- !str_app_assoc. by eexists.
Qed.

Lemma trim_render pairs : forallb pair_ok pairs = true -> trim (render pairs) = render pairs.
Proof.
  destruct pairs as [|kv pairs]; [done |]. cbn [forallb render].
  intros [Hkv _]%andb_true_iff. unfold trim.
  destruct (pair_str_start kv (tail_str pairs) Hkv) as (a & t & E & Ha & _).
  rewrite E, trim_start_graph by done. rewrite <- E. unfold pair_str.
  rewrite !str_app_assoc. destruct (tail_str_quote pairs) as [u Hu]. rewrite Hu.
  rewrite <- !str_app_assoc. apply trim_end_quote.
Qed.

Lemma pair_str_length kv : (3 <= String.length (pair_str kv))%nat.
Proof. unfold pair_str. rewrite !str_length_app. simpl. lia. Qed.

Lemma tail_str_length pairs : (length pairs <= String.length (tail_str pairs))%nat.
Proof.
  induction pairs as [|kv pairs IH]; [done |]. cbn [tail_str length].
  rewrite !str_length_app. simpl. lia.
Qed.

Lemma render_length pairs : (length pairs <= String.length (render pairs))%nat.
Proof.
  destruct pairs as [|kv pairs]; [done |]. cbn [length render].
  pose proof (pair_str_length kv). pose proof (tail_str_length pairs). rewrite str_length_app. lia.
Qed.

(** [parse] of a well-formed text processes its pairs in order. *)
Lemma parse_render pairs :
  forallb pair_ok pairs = true ->
  parse (render pairs) = process_all pairs (empty_rule (render pairs)).
Proof.
  intros Hp. unfold parse. rewrite trim_render by done.
  destruct pairs as [|kv pairs]; [done |].
  assert (is_empty (render (kv :: pairs)) = false) as ->.
  { cbn [render forallb] in *. apply andb_true_iff in Hp as [Hkv _].
    by destruct (pair_str_start kv (tail_str pairs) Hkv) as (a & t & -> & _). }
  rewrite parse_loop_render; [done | done |]. pose proof (render_length (kv :: pairs)). lia.
Qed.

(** The pairs that describe a rule. *)
Definition opt_pair (k : string) (v : option string) : list (string * string) :=
  match v with Some v => [(k, v)] | None => [] end.

Definition arg_pairs (suffix : string) (m : gmap Z string) : list (string * string) :=
  (fun '(i, v) => ("arg" +:+ to_dec i +:+ suffix, v)) <$> map_to_list m.

Definition pairs_of (r : MatchRule) : list (string * string) :=
  opt_pair "type" (mr_type r) ++ opt_pair "sender" (mr_sender r) ++
  opt_pair "interface" (mr_interface r) ++ opt_pair "member" (mr_member r) ++
  opt_pair "path" (mr_path r) ++ opt_pair "path_namespace" (mr_path_namespace r) ++
  opt_pair "destination" (mr_destination r) ++ opt_pair "arg0namespace" (mr_arg0namespace r) ++
  [("eavesdrop", if mr_eavesdrop r then "true" else "false")] ++
  arg_pairs "" (mr_args r) ++ arg_pairs "path" (mr_arg_paths r).

Definition print_rule (r : MatchRule) : string := render (pairs_of r).

Definition with_args (a p : gmap Z string) (r : MatchRule) : MatchRule :=
  mkMatchRule (rule_string r) (mr_type r) (mr_sender r) (mr_interface r) (mr_member r) (mr_path r)
    (mr_path_namespace r) (mr_destination r) a p (mr_arg0namespace r) (mr_eavesdrop r).

Definition with_rule_string (s : string) (r : MatchRule) : MatchRule :=
  mkMatchRule s (mr_type r) (mr_sender r) (mr_interface r) (mr_member r) (mr_path r)
    (mr_path_namespace r) (mr_destination r) (mr_args r) (mr_arg_paths r) (mr_arg0namespace r)
    (mr_eavesdrop r).

Lemma process_all_app l1 l2 r :
  process_all (l1 ++ l2) r = (let? r' := process_all l1 r in process_all l2 r').
Proof.
  revert r. induction l1 as [|[k v] l1 IH]; intros r; [done |]. cbn [app process_all].
  destruct (process_pair k v r); [apply IH | done].
Qed.

Lemma arg_index_to_dec key i : (0 <= i <= 63)%Z -> arg_index key (to_dec i) = Ok i.
Proof.
  intros Hi. unfold arg_index. rewrite parse_uint_to_dec by lia.
  by rewrite (proj2 (Z.ltb_ge 63 i)) by lia.
Qed.

(** Processing the pairs of a map of arguments inserts the map. *)
Lemma process_arg_pairs (suffix : string) (ins : Z -> string -> MatchRule -> MatchRule)
    (get : MatchRule -> gmap Z string) (put : gmap Z string -> MatchRule -> MatchRule) :
  (forall i v r, (0 <= i <= 63)%Z ->
     process_pair ("arg" +:+ to_dec i +:+ suffix) v r = Ok (ins i v r)) ->
  (forall r, put (get r) r = r) ->
  (forall m i v r, put (m ∪ get (ins i v r)) (ins i v r) = put (m ∪ <[i := v]> (get r)) r) ->
  forall m r, index_ok m -> process_all (arg_pairs suffix m) r = Ok (put (m ∪ get r) r).
Proof.
  intros Hproc Hid Hins m r Hm. unfold arg_pairs.
  pose proof (NoDup_fst_map_to_list m) as Hnd.
  assert (Forall (fun '(i, _) => 0 <= i <= 63)%Z (map_to_list m)) as Hl.
  { apply Forall_forall. intros [i v] Hi%elem_of_map_to_list. by apply Hm in Hi. }
  rewrite <- (list_to_map_to_list m) at 2. revert r Hnd Hl.
  induction (map_to_list m) as [|[i v] l IH]; intros r Hnd Hl; cbn [fmap list_fmap process_all].
  - simpl. rewrite (left_id_L ∅ (∪)). by rewrite Hid.
  - inversion_clear Hl. cbn [fmap list_fmap fst] in Hnd. apply NoDup_cons in Hnd as [Hni Hnd].
    rewrite Hproc by done. rewrite IH by done. rewrite Hins. f_equal. f_equal.
    cbn [list_to_map foldr curry uncurry]. rewrite <- insert_union_r, insert_union_l; [done |].
    by apply not_elem_of_list_to_map_1.
Qed.

Lemma process_args m r :
  index_ok m -> process_all (arg_pairs "" m) r = Ok (with_args (m ∪ mr_args r) (mr_arg_paths r) r).
Proof.
  apply (process_arg_pairs "" insert_arg mr_args (fun a r => with_args a (mr_arg_paths r) r)).
  - intros i v r' Hi. rewrite str_app_nil_r, process_pair_arg by (apply to_dec_digits; lia).
    by rewrite arg_index_to_dec.
  - by intros [].
  - done.
Qed.

Lemma process_arg_paths m r :
  index_ok m ->
  process_all (arg_pairs "path" m) r = Ok (with_args (mr_args r) (m ∪ mr_arg_paths r) r).
Proof.
  apply (process_arg_pairs "path" insert_arg_path mr_arg_paths (fun p r => with_args (mr_args r) p r)).
  - intros i v r' Hi. rewrite process_pair_arg_path by (apply to_dec_digits; lia).
    by rewrite arg_index_to_dec.
  - by intros [].
  - done.
Qed.

Lemma process_pairs_of s r :
  rule_ok r -> process_all (pairs_of r) (empty_rule s) = Ok (with_rule_string s r).
Proof.
  intros [Ha Hp]. unfold pairs_of.
  destruct r as [s0 t se i mb pa ns d ar ap a0 ea]. cbn [mr_type mr_sender mr_interface mr_member
    mr_path mr_path_namespace mr_destination mr_arg0namespace mr_eavesdrop mr_args mr_arg_paths] in *.
  assert (forall l r', process_all (l ++ arg_pairs "" ar ++ arg_pairs "path" ap) r'
    = (let? r'' := process_all l r' in
       Ok (with_args (ar ∪ mr_args r'') (ap ∪ mr_arg_paths r'') r''))) as Htail.
  { intros l r'. rewrite process_all_app. destruct (process_all l r') as [r''|]; [| done].
    rewrite process_all_app, process_args by done. by rewrite process_arg_paths. }
  rewrite !app_assoc. rewrite <- (app_assoc _ (arg_pairs "" ar)). rewrite Htail.
  assert (process_all (((((((((opt_pair "type" t ++ opt_pair "sender" se) ++ opt_pair "interface" i) ++
    opt_pair "member" mb) ++ opt_pair "path" pa) ++ opt_pair "path_namespace" ns) ++
    opt_pair "destination" d) ++ opt_pair "arg0namespace" a0) ++
    [("eavesdrop", if ea then "true" else "false")])) (empty_rule s)
    = Ok (mkMatchRule s t se i mb pa ns d ∅ ∅ a0 ea)) as ->.
  { by destruct t, se, i, mb, pa, ns, d, a0, ea. }
  unfold with_args, with_rule_string. cbn. by rewrite !(right_id_L ∅ (∪)).
Qed.

Lemma all_digits_graph s : all_digits s = true -> all_chars ascii_graph s = true.
Proof.
  unfold all_digits. induction s as [|a s IH]; simpl; [done |].
  intros [Ha Hs]%andb_true_iff. rewrite IH, andb_true_r by done. revert Ha.
  unfold ascii_graph, in_range. rewrite !andb_true_iff, !Z.leb_le. lia.
Qed.

Lemma pairs_of_keys r kv : rule_ok r -> kv ∈ pairs_of r -> key_ok kv.1 = true.
Proof.
  intros [Ha Hp] Hin. unfold pairs_of, opt_pair, arg_pairs in Hin.
  rewrite !elem_of_app in Hin.
  assert (forall i suffix, (0 <= i)%Z -> key_ok suffix = true ->
    key_ok ("arg" +:+ to_dec i +:+ suffix) = true) as Harg.
  { intros i suffix Hi. unfold key_ok. pose proof (to_dec_digits i Hi) as Hd.
    rewrite !str_contains_char_app, !(digits_no_char _ (to_dec i) Hd), !all_chars_app by done.
    by rewrite (all_digits_graph _ Hd). }
  destruct Hin as [Hin|[Hin|[Hin|[Hin|[Hin|[Hin|[Hin|[Hin|[Hin|[Hin|Hin]]]]]]]]]];
    try (case_match; [| by apply elem_of_nil in Hin]; apply list_elem_of_singleton in Hin; by subst);
    try (apply list_elem_of_singleton in Hin; by subst).
  all: apply list_elem_of_fmap in Hin as ([i v] & -> & Hi%elem_of_map_to_list);
    (apply Ha in Hi || apply Hp in Hi); apply Harg; [lia | done].
Qed.

(** C22. Every rule can be written down and is parsed back: [parse] of the text
    [key='value',...] of a rule whose values contain no quote gives the rule
    back, each filter and each argument index in its place, with the text
    itself as its [rule_string]. *)
Theorem parse_print_roundtrip r :
  rule_ok r -> (forall k v, (k, v) ∈ pairs_of r -> str_contains_char "'" v = false) ->
  parse (print_rule r) = Ok (with_rule_string (print_rule r) r).
Proof.
  intros Hr Hv. unfold print_rule. rewrite parse_render; [by apply process_pairs_of |].
  apply forallb_forall. intros [k v] Hin%list_elem_of_In. unfold pair_ok.
  rewrite (pairs_of_keys r (k, v)) by done. cbn [snd]. by rewrite (Hv k v).
Qed.

Definition ex_rule : MatchRule :=
  mkMatchRule "" (Some "signal") None (Some "org.freedesktop.DBus") None None (Some "/org/a")
    None {[2%Z := "it, = well"; 63%Z := ""]} {[0%Z := "/a/"]} (Some "org.kde") true.

Lemma parse_print_roundtrip_witness :
  parse (print_rule ex_rule) = Ok (with_rule_string (print_rule ex_rule) ex_rule).
Proof.
  apply parse_print_roundtrip.
  - split; apply (bool_decide_unpack _); vm_compute; exact I.
  - intros k v Hin. assert (forallb (fun '(_, v) => negb (str_contains_char "'" v)) (pairs_of ex_rule) = true)
      as Hall by (vm_compute; reflexivity).
    rewrite forallb_forall in Hall. apply negb_true_iff. apply (Hall (k, v)). by apply list_elem_of_In.
Defined.

Example parse_ex :
  parse " type='signal' , eavesdrop=true,arg7path='/x/' " =
  Ok (insert_arg_path 7 "/x/" (set_eavesdrop true (set_type "signal"
    (empty_rule " type='signal' , eavesdrop=true,arg7path='/x/' ")))) /\
  parse "type" = Err (InvalidFormat "Missing '=' in: type").
Proof. split; reflexivity. Qed.

(** ** The rules of a client *)

Lemma existsb_rule_string s l :
  existsb (fun r => String.eqb (rule_string r) s) l = bool_decide (s ∈ rule_string <$> l).
Proof.
  apply eq_true_iff_eq. rewrite existsb_exists, bool_decide_eq_true, list_elem_of_fmap.
  setoid_rewrite String.eqb_eq. setoid_rewrite <- list_elem_of_In. naive_solver.
Qed.

Lemma cmr_add_strings rule self :
  rule_strings (cmr_add rule self) =
  if bool_decide (rule_string rule ∈ rule_strings self) then rule_strings self
  else rule_strings self ++ [rule_string rule].
Proof.
  unfold cmr_add, rule_strings. rewrite existsb_rule_string.
  case_bool_decide; simpl; [done |]. by rewrite fmap_app.
Qed.

Lemma cmr_add_nodup rule self :
  NoDup (rule_strings self) -> NoDup (rule_strings (cmr_add rule self)).
Proof.
  intros Hn. rewrite cmr_add_strings. case_bool_decide; [done |].
  apply NoDup_app. split_and!; [done | set_solver | apply NoDup_singleton].
Qed.

Lemma cmr_remove_strings s self :
  rule_strings (cmr_remove s self).1 = filter (fun x => x <> s) (rule_strings self).
Proof.
  unfold cmr_remove, rule_strings. cbn [fst rules].
  induction (rules self) as [|r l IH]; [done |]. rewrite fmap_cons.
  destruct (decide (rule_string r = s)).
  - by rewrite !filter_cons_False by auto.
  - rewrite !filter_cons_True by done. by rewrite fmap_cons, IH.
Qed.

Lemma cmr_remove_found s self :
  (cmr_remove s self).2 = bool_decide (s ∈ rule_strings self).
Proof.
  unfold cmr_remove, rule_strings. cbn [snd]. apply eq_true_iff_eq.
  rewrite Nat.ltb_lt, bool_decide_eq_true, list_elem_of_fmap. split.
  - intros Hlt. destruct (decide (Exists (fun r => rule_string r = s) (rules self))) as [He|He].
    + apply Exists_exists in He as (r & ? & ?). naive_solver.
    + apply not_Exists_Forall in He; [| apply _].
      rewrite list_filter_all_id in Hlt; [lia | done].
  - intros (r & -> & Hin). eapply length_filter_lt; [done |]. by intros Hx.
Qed.

(** ** Reference counts *)

Definition count_of (self : MatchRuleRefCount) (key : string * string) : nat :=
  default 0%nat (counts self !! key).

Definition counts_ok (self : MatchRuleRefCount) : Prop :=
  map_Forall (fun _ n => 0 < n)%nat (counts self).

Lemma increment_spec bus rule self :
  counts_ok self ->
  let '(self', first) := increment bus rule self in
  counts_ok self' /\ first = bool_decide (count_of self (bus, rule) = 0%nat) /\
  forall key, count_of self' key
    = if decide (key = (bus, rule)) then S (count_of self key) else count_of self key.
Proof.
  intros Hok. unfold increment, counts_ok, count_of. cbn [counts]. split_and!.
  - apply map_Forall_insert_2; [lia | done].
  - apply eq_true_iff_eq. rewrite Nat.eqb_eq, bool_decide_eq_true. lia.
  - intros key. case_decide as E; [subst; rewrite lookup_insert_eq; apply Nat.add_1_r |].
    by rewrite lookup_insert_ne.
Qed.

Lemma decrement_spec bus rule self :
  counts_ok self ->
  let '(self', last) := decrement bus rule self in
  counts_ok self' /\ last = bool_decide (count_of self (bus, rule) = 1%nat) /\
  forall key, count_of self' key
    = if decide (key = (bus, rule)) then pred (count_of self key) else count_of self key.
Proof.
  intros Hok. unfold decrement, counts_ok, count_of.
  destruct (counts self !! (bus, rule)) as [n|] eqn:E.
  2:{ split_and!; [done | done |]. intros key. case_decide; [by subst; rewrite E | done]. }
  pose proof (Hok _ _ E) as Hn. simpl in Hn. rewrite (proj2 (Nat.ltb_lt 0 n)) by done.
  destruct (Nat.eqb_spec (n - 1) 0); cbn [counts from_option id]; split_and!.
  - by apply map_Forall_delete.
  - case_bool_decide; [done | lia].
  - intros key. case_decide as Ek; [subst; rewrite lookup_delete_eq, E; simpl; lia |].
    by rewrite lookup_delete_ne.
  - apply map_Forall_insert_2; [lia | done].
  - case_bool_decide; [lia | done].
  - intros key. case_decide as Ek; [subst; rewrite lookup_insert_eq, E; simpl; lia |].
    by rewrite lookup_insert_ne.
Qed.

(** How often [rule] occurs in [rs]. *)
Definition occurrences (rule : string) (rs : list string) : nat :=
  length (filter (fun r => r = rule) rs).

Lemma occurrences_cons rule r rs :
  occurrences rule (r :: rs) = ((if decide (r = rule) then 1 else 0) + occurrences rule rs)%nat.
Proof.
  unfold occurrences. case_decide; [by rewrite filter_cons_True | by rewrite filter_cons_False].
Qed.

Lemma remove_client_rules_spec bus rs self :
  counts_ok self ->
  let '(self', gone) := remove_client_rules bus rs self in
  counts_ok self' /\
  (forall b rule, count_of self' (b, rule)
    = if decide (b = bus) then (count_of self (b, rule) - occurrences rule rs)%nat
      else count_of self (b, rule)) /\
  (forall rule, rule ∈ gone <->
     (0 < count_of self (bus, rule))%nat /\ count_of self' (bus, rule) = 0%nat).
Proof.
  revert self. induction rs as [|r rs IH]; intros self Hok; cbn [remove_client_rules].
  - split_and!; [done | |].
    + intros b rule. change (occurrences rule []) with 0%nat. case_decide; lia.
    + intros rule. split; [by intros ?%elem_of_nil | lia].
  - pose proof (decrement_spec bus r self Hok) as Hd.
    destruct (decrement bus r self) as [self1 last]. destruct Hd as (Hok1 & Hlast & Hc1).
    specialize (IH self1 Hok1). destruct (remove_client_rules bus rs self1) as [self2 gone].
    destruct IH as (Hok2 & Hc2 & Hg). split_and!; [done | |].
    + intros b rule. rewrite Hc2, Hc1, occurrences_cons.
      repeat case_decide; simplify_eq; congruence || lia.
    + intros rule. assert (rule ∈ (if last then r :: gone else gone) <->
        (rule = r /\ count_of self (bus, r) = 1%nat) \/ rule ∈ gone) as ->.
      { destruct last; symmetry in Hlast; rewrite ?bool_decide_eq_true, ?bool_decide_eq_false in Hlast;
          [rewrite elem_of_cons; naive_solver | naive_solver]. }
      specialize (Hc2 bus rule). rewrite decide_True in Hc2 by done.
      rewrite Hg, Hc1. rewrite Hc1 in Hc2.
      destruct (decide (rule = r)) as [->|Hne].
      * rewrite decide_True in Hc2 |- * by done. split; [intros [[_ ?]|?]; lia |]. intros ?.
        destruct (decide (count_of self (bus, r) = 1%nat)); [by left | right; lia].
      * rewrite decide_False in Hc2 |- * by congruence. naive_solver lia.
Qed.

(** A history of the references clients take and drop, with the rules that the
    replies make the multiplexer install on the upstream buses. *)
Inductive ref_op :=
| RefAdd (bus rule : string)
| RefDel (bus rule : string)
| RefDelAll (bus : string) (rs : list string).

Record RefWorld := mkRefWorld {
  rw_counts : MatchRuleRefCount;
  rw_installed : gset (string * string);
}.

Definition ref_run1 (w : RefWorld) (op : ref_op) : RefWorld :=
  match op with
  | RefAdd bus rule =>
      let '(c, first) := increment bus rule (rw_counts w) in
      mkRefWorld c (if first then {[(bus, rule)]} ∪ rw_installed w else rw_installed w)
  | RefDel bus rule =>
      let '(c, last) := decrement bus rule (rw_counts w) in
      mkRefWorld c (if last then rw_installed w ∖ {[(bus, rule)]} else rw_installed w)
  | RefDelAll bus rs =>
      let '(c, gone) := remove_client_rules bus rs (rw_counts w) in
      mkRefWorld c (rw_installed w ∖ list_to_set (pair bus <$> gone))
  end.

(** The references a history leaves on a rule, counted from the history. *)
Definition refs1 (b rule : string) (n : nat) (op : ref_op) : nat :=
  match op with
  | RefAdd bus r => if decide ((b, rule) = (bus, r)) then S n else n
  | RefDel bus r => if decide ((b, rule) = (bus, r)) then pred n else n
  | RefDelAll bus rs => if decide (b = bus) then (n - occurrences rule rs)%nat else n
  end.

Definition refs (b rule : string) (ops : list ref_op) : nat := fold_left (refs1 b rule) ops 0%nat.

Lemma rules_for_bus_iff bus rule self :
  rule ∈ rules_for_bus bus self <-> (0 < count_of self (bus, rule))%nat.
Proof.
  unfold rules_for_bus, count_of. rewrite list_elem_of_fmap. split.
  - intros ([[b r] n] & -> & Hin). apply list_elem_of_filter in Hin as [[-> Hn] Hin%elem_of_map_to_list].
    by rewrite Hin.
  - destruct (counts self !! (bus, rule)) as [n|] eqn:E; simpl; [| lia]. intros Hn.
    exists ((bus, rule), n). split; [done |]. rewrite list_elem_of_filter, elem_of_map_to_list. done.
Qed.

Definition ref_ok (w : RefWorld) : Prop :=
  counts_ok (rw_counts w) /\
  forall key, key ∈ rw_installed w <-> (0 < count_of (rw_counts w) key)%nat.

Lemma ref_run1_ok w op :
  ref_ok w ->
  ref_ok (ref_run1 w op) /\
  forall b rule, count_of (rw_counts (ref_run1 w op)) (b, rule)
    = refs1 b rule (count_of (rw_counts w) (b, rule)) op.
Proof.
  intros [Hok Hin]. unfold ref_ok. destruct op as [bus r|bus r|bus rs]; cbn [ref_run1 refs1].
  - pose proof (increment_spec bus r _ Hok) as H. destruct (increment _ _ _) as [c first].
    destruct H as (Hok' & -> & Hc). cbn [rw_counts rw_installed]. split; [| done].
    split; [done |]. intros key. rewrite Hc.
    case_bool_decide; rewrite ?elem_of_union, ?elem_of_singleton, Hin; case_decide; subst; naive_solver lia.
  - pose proof (decrement_spec bus r _ Hok) as H. destruct (decrement _ _ _) as [c last].
    destruct H as (Hok' & -> & Hc). cbn [rw_counts rw_installed]. split; [| done].
    split; [done |]. intros key. rewrite Hc.
    case_bool_decide; rewrite ?elem_of_difference, ?elem_of_singleton, Hin; case_decide; subst;
      naive_solver lia.
  - pose proof (remove_client_rules_spec bus rs _ Hok) as H.
    destruct (remove_client_rules _ _ _) as [c gone].
    destruct H as (Hok' & Hc & Hg). cbn [rw_counts rw_installed]. split; [| done].
    split; [done |]. intros [b rule].
    rewrite elem_of_difference, elem_of_list_to_set, list_elem_of_fmap, Hin.
    destruct (decide (b = bus)) as [->|Hne].
    + assert ((exists y, (bus, rule) = (bus, y) /\ y ∈ gone) <-> rule ∈ gone) as -> by naive_solver.
      rewrite Hg. pose proof (Hc bus rule) as Hc'. rewrite decide_True in Hc' by done. lia.
    + rewrite Hc, decide_False by done. naive_solver.
Qed.

(** The upstream buses carry the rules that clients use, and no others: after
    any history of references taken and dropped, the rules the replies of
    [increment], [decrement] and [remove_client_rules] have installed on a
    bus are exactly those with more references taken than dropped, which are
    also those [rules_for_bus] lists. *)
Lemma installed_iff_referenced ops bus rule :
  let w := fold_left ref_run1 ops (mkRefWorld MatchRuleRefCount_new ∅) in
  ((bus, rule) ∈ rw_installed w <-> (0 < refs bus rule ops)%nat) /\
  (rule ∈ rules_for_bus bus (rw_counts w) <-> (0 < refs bus rule ops)%nat).
Proof.
  assert (forall w, ref_ok w ->
    let w' := fold_left ref_run1 ops w in
    ref_ok w' /\ count_of (rw_counts w') (bus, rule)
      = fold_left (refs1 bus rule) ops (count_of (rw_counts w) (bus, rule))) as H.
  { induction ops as [|op ops IH]; intros w Hw; [done |]. cbn [fold_left].
    destruct (ref_run1_ok w op Hw) as [Hw' Hc]. rewrite <- Hc. by apply IH. }
  specialize (H (mkRefWorld MatchRuleRefCount_new ∅)) as [[_ Hin] Hc].
  { split; [apply map_Forall_empty |]. intros key. split; [set_solver |]. unfold count_of. simpl.
    rewrite lookup_empty. simpl. lia. }
  cbv zeta. unfold refs. rewrite Hin, rules_for_bus_iff, Hc. done.
Qed.

(** ** Witnesses *)

Section Witnesses.
#[local] Existing Instance SimpleZbus.
#[local] Existing Instance SimpleZbusLaws.

Definition ex_signal : @Message SimpleZbus :=
  s_signal "org.freedesktop.DBus" "NameOwnerChanged" "/org/freedesktop/DBus" None
    (s_str3 "org.kde.a" "" ":1.7").

Definition ex_rule_string : string := "type='signal',sender=':1.20',arg0namespace='org.kde',arg2=':1.7'".

Definition ex_dbus_rule : MatchRule :=
  insert_arg 2 ":1.7" (set_arg0namespace "org.kde" (set_sender ":1.20" (set_type "signal" (empty_rule ex_rule_string)))).

Lemma ex_regular : regular (fun _ => Some ":1.9") ex_dbus_rule ex_signal.
Proof.
  split; try done.
  - by intros s u [= <-] [= <-].
  - intros i v p Hi. destruct (decide (i = 2%Z)) as [->|Hne]; [by injection Hi as <- |].
    by cbn in Hi; rewrite lookup_insert_ne in Hi.
  - intros ns p [= <-]. done.
Qed.

Lemma matches_follows_dbus_witness :
  parse ex_rule_string = Ok ex_dbus_rule /\ matches ex_dbus_rule ex_signal = true /\
  dbus_match (fun _ => Some ":1.9") ex_dbus_rule ex_signal.
Proof.
  assert (parse ex_rule_string = Ok ex_dbus_rule) as Hp by (vm_compute; reflexivity).
  destruct (matches_follows_dbus (fun _ => Some ":1.9") ex_rule_string ex_dbus_rule ex_signal Hp) as (H & _).
  split; [exact Hp |]. split; [vm_compute; reflexivity |]. apply H; [exact ex_regular | vm_compute; reflexivity].
Defined.

Lemma root_namespace_matches_root_only_witness :
  exists r, parse "path_namespace='/'" = Ok r /\ matches r ex_signal = false.
Proof.
  eexists. split; [reflexivity |].
  apply (root_namespace_matches_root_only _ ex_signal "/org/freedesktop/DBus"); reflexivity.
Defined.
End Witnesses.
