(* ===== verification/Portal.v ===== *)
(** * Portal requests (src/src/portal_request.rs)

    The tracker of XDG portal request handles, the tests that recognise portal
    messages, and what [clone_portal_response_signal] of src/src/message.rs
    does to the path of a Response signal. *)

From S2P Require Import Prelude RustStr Zbus SimpleZbus Errors Message SerialMap.
From Stdlib Require Import Ascii.

#[local] Open Scope Z_scope.

(** ** The tracker *)

Record PendingPortalRequest := mkPendingPortalRequest {
  ppr_client_id : Z;
  ppr_timestamp : Z;
}.

Record PortalRequestTracker := mkPortalRequestTracker {
  requests : gmap string PendingPortalRequest;
  prt_timeout : Z;
}.

Definition PortalRequestTracker_new : PortalRequestTracker :=
  mkPortalRequestTracker ∅ (from_secs 300).

Definition prt_register (now : Z) (request_path : string) (client_id : Z)
    (self : PortalRequestTracker) : PortalRequestTracker :=
  mkPortalRequestTracker
    (<[request_path := mkPendingPortalRequest client_id now]> (requests self)) (prt_timeout self).

Definition lookup_and_remove (request_path : string) (self : PortalRequestTracker)
    : PortalRequestTracker * option Z :=
  (mkPortalRequestTracker (delete request_path (requests self)) (prt_timeout self),
   ppr_client_id <$> requests self !! request_path).

Definition prt_cleanup_expired (now : Z) (self : PortalRequestTracker)
    : PortalRequestTracker * nat :=
  let before := size (requests self) in
  let kept := filter (fun kv => ~ prt_timeout self <= duration_since now (ppr_timestamp kv.2))
                (requests self) in
  (mkPortalRequestTracker kept (prt_timeout self), (before - size kept)%nat).

Definition prt_remove_client (client_id : Z) (self : PortalRequestTracker)
    : PortalRequestTracker * nat :=
  let before := size (requests self) in
  let kept := filter (fun kv => ppr_client_id kv.2 <> client_id) (requests self) in
  (mkPortalRequestTracker kept (prt_timeout self), (before - size kept)%nat).

(** ** Portal messages *)

Definition request_prefix : string := "/org/freedesktop/portal/desktop/request/".

(** The interfaces without the request pattern. *)
Definition plain_portal_interfaces : list string :=
  ["org.freedesktop.portal.Request"; "org.freedesktop.portal.Session";
   "org.freedesktop.portal.Settings"; "org.freedesktop.portal.ProxyResolver";
   "org.freedesktop.portal.NetworkMonitor"; "org.freedesktop.portal.MemoryMonitor";
   "org.freedesktop.portal.PowerProfileMonitor"].

Section Messages.
Context `{ZB : Zbus}.

Definition is_portal_request_method (msg : Message) : bool :=
  if negb (is_method_call msg) then false
  else match interface_str msg with
       | None => false
       | Some interface =>
           if negb (starts_with interface "org.freedesktop.portal.") then false
           else negb (existsb (String.eqb interface) plain_portal_interfaces)
       end.

Definition is_portal_response_signal (msg : Message) : bool :=
  if negb (is_signal msg) then false
  else bool_decide (interface_str msg = Some "org.freedesktop.portal.Request") &&
       bool_decide (member_str msg = Some "Response").

Definition decode_portal_response (msg : Message) : option Z :=
  match deserialize BResponse msg with Ok code => Some code | Err _ => None end.

Definition handle_path (path : string) : option string :=
  if starts_with path request_prefix then Some path else None.

Definition extract_request_handle (msg : Message) : option string :=
  if negb (is_method_return msg) then None
  else
    let first := match deserialize BPath msg with Ok path => handle_path path | Err _ => None end in
    match first with
    | Some path => Some path
    | None => match deserialize BPath1 msg with Ok path => handle_path path | Err _ => None end
    end.

End Messages.

(** * Theorems *)

(** ** Delivery of responses *)

(** What happens to the tracker, and the pending request for one path after a
    history, as a reader of the history alone would tell it. *)
Inductive portal_op :=
| PortalReg (now : Z) (path : string) (client_id : Z)
| PortalLookup (path : string)
| PortalCleanup (now : Z)
| PortalDrop (client_id : Z).

Definition portal_run1 (t : PortalRequestTracker) (op : portal_op) : PortalRequestTracker :=
  match op with
  | PortalReg now path c => prt_register now path c t
  | PortalLookup path => (lookup_and_remove path t).1
  | PortalCleanup now => (prt_cleanup_expired now t).1
  | PortalDrop c => (prt_remove_client c t).1
  end.

Definition portal_pending1 (path : string) (p : option (Z * Z)) (op : portal_op) : option (Z * Z) :=
  match op with
  | PortalReg now path' c => if decide (path' = path) then Some (c, now) else p
  | PortalLookup path' => if decide (path' = path) then None else p
  | PortalCleanup now =>
      match p with
      | Some (c, since) => if decide (from_secs 300 <= now - since) then None else p
      | None => None
      end
  | PortalDrop c =>
      match p with
      | Some (c', since) => if decide (c' = c) then None else p
      | None => None
      end
  end.

Definition portal_pending (path : string) (ops : list portal_op) : option (Z * Z) :=
  fold_left (portal_pending1 path) ops None.

Definition entry_of (t : PortalRequestTracker) (path : string) : option (Z * Z) :=
  (fun p => (ppr_client_id p, ppr_timestamp p)) <$> requests t !! path.

Lemma portal_run1_entry t op path :
  prt_timeout t = from_secs 300 ->
  prt_timeout (portal_run1 t op) = from_secs 300 /\
  entry_of (portal_run1 t op) path = portal_pending1 path (entry_of t path) op.
Proof.
  intros Ht. unfold entry_of. destruct op as [now p c|p|now|c]; cbn [portal_run1 portal_pending1].
  - split; [done |]. unfold prt_register. cbn [requests].
    case_decide; [subst; by rewrite lookup_insert_eq | by rewrite lookup_insert_ne].
  - split; [done |]. unfold lookup_and_remove. cbn [requests fst].
    case_decide; [subst; by rewrite lookup_delete_eq | by rewrite lookup_delete_ne].
  - split; [done |]. unfold prt_cleanup_expired. cbn [requests fst]. rewrite Ht, map_lookup_filter.
    destruct (requests t !! path) as [[c s]|]; [| done].
    cbn [fmap option_fmap option_map mbind option_bind ppr_client_id ppr_timestamp].
    unfold duration_since, from_secs. cbn [snd ppr_timestamp].
    destruct (decide (300 * 1000000000 <= now - s)).
    + rewrite (option_guard_False (~ _)) by lia. done.
    + rewrite (option_guard_True (~ _)) by lia. done.
  - split; [done |]. unfold prt_remove_client. cbn [requests fst]. rewrite map_lookup_filter.
    destruct (requests t !! path) as [[c' s]|]; [| done].
    cbn [fmap option_fmap option_map mbind option_bind ppr_client_id ppr_timestamp snd].
    case_decide.
    + by rewrite (option_guard_False (~ _)) by auto.
    + by rewrite (option_guard_True (~ _)) by auto.
Qed.

(** C23. A Response signal goes to the client that registered its path last,
    unless that client is gone, the request is five minutes old or the
    response was already delivered; a second lookup of the path finds
    nothing. *)
Theorem portal_response_owner ops path :
  let t := fold_left portal_run1 ops PortalRequestTracker_new in
  (lookup_and_remove path t).2 = fst <$> portal_pending path ops /\
  (lookup_and_remove path (lookup_and_remove path t).1).2 = None.
Proof.
  assert (forall t, prt_timeout t = from_secs 300 ->
    entry_of (fold_left portal_run1 ops t) path = fold_left (portal_pending1 path) ops (entry_of t path))
    as H.
  { induction ops as [|op ops IH]; intros t Ht; [done |]. cbn [fold_left].
    destruct (portal_run1_entry t op path Ht) as [Ht' <-]. by apply IH. }
  cbv zeta. unfold portal_pending. split.
  - specialize (H PortalRequestTracker_new eq_refl).
    change (entry_of PortalRequestTracker_new path) with (@None (Z * Z)) in H. rewrite <- H.
    unfold entry_of, lookup_and_remove. cbn [snd].
    by destruct (requests (fold_left portal_run1 ops PortalRequestTracker_new) !! path).
  - unfold lookup_and_remove. cbn [fst snd requests]. by rewrite lookup_delete_eq.
Qed.

(** A handle is taken only from a method return whose body is an object path
    below the portal's request directory, and is that path. *)
Lemma request_handle_is_portal_path `{ZB : Zbus} msg path :
  extract_request_handle msg = Some path <->
  msg_type msg = MethodReturn /\ starts_with path request_prefix = true /\
  (deserialize BPath msg = Ok path \/
   (deserialize BPath1 msg = Ok path /\
    forall p, deserialize BPath msg = Ok p -> starts_with p request_prefix = false)).
Proof.
  unfold extract_request_handle, is_method_return, handle_path.
  case_bool_decide as Ht; cbn [negb]; [| split; [done | by intros [? _]]].
  assert (forall r : result ZError string,
    match r with Ok q => if starts_with q request_prefix then Some q else None | Err _ => None end
      = Some path <-> r = Ok path /\ starts_with path request_prefix = true) as Hr.
  { intros [q|e]; [| split; [done | by intros [? _]]].
    destruct (starts_with q request_prefix) eqn:Eq.
    - split; [by intros [= <-] | by intros [[= <-] _]].
    - split; [done | intros [[= <-] ?]; congruence]. }
  pose proof (Hr (deserialize BPath msg)) as H1. pose proof (Hr (deserialize BPath1 msg)) as H2.
  destruct (deserialize BPath msg) as [p|]; [destruct (starts_with p request_prefix) eqn:Ep |].
  - split; [intros [= <-]; auto |]. intros (_ & _ & [E|[_ Hp]]); [congruence |].
    specialize (Hp p eq_refl). congruence.
  - rewrite H2. split; [intros [? ?]; split_and!; [done | done | right; split; [done |]] |].
    + intros p' [= <-]. done.
    + intros (_ & Hs & [[= <-]|[? _]]); [congruence | done].
  - rewrite H2. split; [intros [? ?]; split_and!; [done | done | right; by split] |].
    intros (_ & Hs & [?|[? _]]); done.
Qed.

(** ** The path of a response *)

Fixpoint occurs (p s : string) : bool :=
  starts_with s p || match s with EmptyString => false | String _ s' => occurs p s' end.

Lemma replace_from_skip p from to s :
  replace_from (String.length p) from to (p +:+ s) = replace_from 0 from to s.
Proof. induction p as [|a p IH]; [done |]. rewrite str_app_cons. simpl. apply IH. Qed.

Lemma replace_from_hit c f to s :
  replace_from 0 (String c f) to (String c f +:+ s) = to +:+ replace_from 0 (String c f) to s.
Proof.
  rewrite str_app_cons. cbn [replace_from].
  assert (starts_with (String c (f +:+ s)) (String c f) = true) as ->
    by (apply starts_with_iff; by exists s).
  cbn [String.length]. rewrite Nat.sub_1_r. cbn [Nat.pred]. by rewrite replace_from_skip.
Qed.

Lemma replace_from_miss c f to p s :
  str_contains_char c p = false ->
  replace_from 0 (String c f) to (p +:+ s) = p +:+ replace_from 0 (String c f) to s.
Proof.
  induction p as [|a p IH]; [done |]. cbn [str_contains_char].
  intros [Ha Hp]%orb_false_iff. rewrite !str_app_cons. cbn [replace_from].
  assert (starts_with (String a (p +:+ s)) (String c f) = false) as ->.
  { unfold starts_with. cbn [strip_prefix]. by rewrite Ascii.eqb_sym, Ha. }
  by rewrite IH.
Qed.

Lemma replace_from_none from to s : occurs from s = false -> replace_from 0 from to s = s.
Proof.
  induction s as [|a s IH]; [done |]. cbn [occurs]. intros [H1 H2]%orb_false_iff.
  cbn [replace_from]. rewrite H1. by rewrite IH.
Qed.

Lemma str_replace_once c f to p s :
  str_contains_char c p = false -> occurs (String c f) s = false ->
  str_replace (String c f) to (p +:+ String c f +:+ s) = p +:+ to +:+ s.
Proof.
  intros Hp Hs. unfold str_replace. cbn [is_empty].
  by rewrite replace_from_miss, replace_from_hit, replace_from_none.
Qed.

Section Rewriting.
Context `{ZL : ZbusLaws}.

Lemma clone_portal_response_signal_spec msg mux client m :
  clone_portal_response_signal msg mux client = Ok m ->
  msg_fields m
    = set_path (str_replace (unique_name_to_path_component mux)
                  (unique_name_to_path_component client) (default "" (path_str msg)))
        (set_destination client (msg_fields msg)) /\
  body_bytes m = body_bytes msg /\ signature m = signature msg.
Proof.
  unfold clone_portal_response_signal, build_failed. cbv zeta.
  destruct (object_path_try_from _) as [p|] eqn:Ep; [| done]. apply object_path_id in Ep as ->.
  destruct (b_destination client _) as [b|] eqn:Eb; [| done]. apply b_destination_fields in Eb.
  destruct (b_path _ b) as [b'|] eqn:Eb'; [| done]. apply b_path_fields in Eb'.
  intros (-> & ? & ?)%build_with_body_of_spec.
  by rewrite keep_serial_fields, Eb', Eb, builder_from_fields.
Qed.

(** C24. A Response signal is rewritten for the client that waits for it: when the
    path is [.../request/<mux>/<token>] for the multiplexer's unique name and
    the token does not contain that name, the path becomes
    [.../request/<client>/<token>], the destination the client's unique
    name, and the other header fields, signature and body stay. *)
Theorem portal_response_rewritten msg mux client c f token m :
  unique_name_to_path_component mux = String c f -> str_contains_char c request_prefix = false ->
  path_str msg = Some (request_prefix +:+ String c f +:+ "/" +:+ token) ->
  occurs (String c f) ("/" +:+ token) = false ->
  clone_portal_response_signal msg mux client = Ok m ->
  path_str m = Some (request_prefix +:+ unique_name_to_path_component client +:+ "/" +:+ token) /\
  destination_str m = Some client /\ msg_type m = msg_type msg /\ sender_str m = sender_str msg /\
  interface_str m = interface_str msg /\ member_str m = member_str msg /\
  body_bytes m = body_bytes msg /\ signature m = signature msg.
Proof.
  intros Hmux Hc Hp Ho (Hf & Hb & Hs)%clone_portal_response_signal_spec.
  unfold path_str, destination_str, msg_type, sender_str, interface_str, member_str in *.
  rewrite Hf, Hp, Hmux. cbn [set_path set_destination f_path f_destination f_type f_sender
    f_interface f_member default from_option]. unfold id. by rewrite str_replace_once.
Qed.

(** The rewriting replaces every occurrence of the multiplexer's name in the
    path, also one inside the token: a client whose token contains it gets
    its response on a path with another token than the one it chose. *)
Lemma portal_token_rewritten msg mux client c f a b m :
  unique_name_to_path_component mux = String c f -> str_contains_char c request_prefix = false ->
  str_contains_char c ("/" +:+ a) = false -> occurs (String c f) b = false ->
  path_str msg = Some (request_prefix +:+ String c f +:+ ("/" +:+ a) +:+ String c f +:+ b) ->
  clone_portal_response_signal msg mux client = Ok m ->
  path_str m = Some (request_prefix +:+ unique_name_to_path_component client +:+ "/" +:+ a +:+
                     unique_name_to_path_component client +:+ b).
Proof.
  intros Hmux Hc Ha Ho Hp (Hf & _)%clone_portal_response_signal_spec.
  unfold path_str in *. rewrite Hf, Hp, Hmux. cbn [set_path f_path default from_option]. unfold id.
  unfold str_replace. cbn [is_empty]. rewrite replace_from_miss, replace_from_hit by done.
  rewrite replace_from_miss, replace_from_hit, replace_from_none by done. by rewrite str_app_assoc.
Qed.

End Rewriting.

(** ** Witnesses *)

Section Witnesses.
#[local] Existing Instance SimpleZbus.
#[local] Existing Instance SimpleZbusLaws.

Definition ex_response (path : string) (dest : string) : @Message SimpleZbus :=
  s_signal "org.freedesktop.portal.Request" "Response" path (Some dest) (s_u32 0).

Lemma portal_response_rewritten_witness :
  path_str (ex_response "/org/freedesktop/portal/desktop/request/mux_3/tok" ":mux.3")
  = Some (request_prefix +:+ unique_name_to_path_component ":mux.3" +:+ "/" +:+ "tok").
Proof.
  apply (portal_response_rewritten
    (ex_response "/org/freedesktop/portal/desktop/request/1_88/tok" ":1.88") ":1.88" ":mux.3"
    "1"%char "_88" "tok"); reflexivity.
Defined.

Lemma portal_token_rewritten_witness :
  path_str (ex_response "/org/freedesktop/portal/desktop/request/mux_3/tmux_3x" ":mux.3")
  = Some (request_prefix +:+ unique_name_to_path_component ":mux.3" +:+ "/" +:+ "t" +:+
          unique_name_to_path_component ":mux.3" +:+ "x").
Proof.
  apply (portal_token_rewritten
    (ex_response "/org/freedesktop/portal/desktop/request/1_8/t1_8x" ":1.8") ":1.8" ":mux.3"
    "1"%char "_8" "t" "x"); reflexivity.
Defined.
End Witnesses.
