(* ===== verification/World.v ===== *)
(** * The state of the multiplexer and its effects

    The structs of src/src/multiplexer.rs, src/src/router.rs and
    src/src/bus_connection.rs, and the small state monad the handlers are
    written in.  [container_conn], [host_conn] and [routing_table] are shared
    between the multiplexer and its router through [Arc]: there is one copy of
    each here, in the router.

    What a handler does outside its own state is recorded in a log: calls to the
    bus daemons, messages forwarded to a bus, messages put into a client's
    channel.  What it learns from outside comes from [Env], which may answer
    differently after every event. *)

From S2P Require Import Prelude RustStr Zbus Errors Message Routing NameQueue SerialMap MatchRules Portal.

#[local] Open Scope Z_scope.

(** ** Data *)

Record ClientCredentials := mkClientCredentials {
  uid : Z;
  pid : option Z;
  gid : Z;
}.

(** [tx] is the client's key in the log. *)
Record ClientInfo := mkClientInfo {
  unique_name : string;
  owned_names : gset string;
  match_rules : ClientMatchRules;
  credentials : ClientCredentials;
}.

Record BusConnection := mkBusConnection {
  bc_unique_name : option string;
  serial_gen : SerialGenerator;
}.

Record MessageRouter := mkMessageRouter {
  container_conn : BusConnection;
  host_conn : BusConnection;
  routing_table : RoutingTable;
  serial_map : SerialMap;
}.

Definition MessageRouter_new (container_conn host_conn : BusConnection) (routing_table : RoutingTable)
    : MessageRouter :=
  mkMessageRouter container_conn host_conn routing_table SerialMap_new.

Record Multiplexer := mkMultiplexer {
  router : MessageRouter;
  clients : gmap Z ClientInfo;
  guid : string;
  match_rule_refcount : MatchRuleRefCount;
  name_queue : NameQueueManager;
  portal_requests : PortalRequestTracker;
}.

(** The methods of org.freedesktop.DBus the multiplexer calls itself. *)
Inductive BusRequest :=
| CallRequestName (name : string) (flags : Z)
| CallReleaseName (name : string)
| CallAddMatch (rule : string)
| CallRemoveMatch (rule : string)
| CallListNames
| CallListActivatableNames
| CallGetNameOwner (name : string)
| CallNameHasOwner (name : string).

#[export] Instance BusRequest_eq_dec : EqDecision BusRequest.
Proof. solve_decision. Defined.

Section World.
Context `{ZB : Zbus}.

Inductive Event :=
| EvCall (route : Route) (req : BusRequest)
| EvSend (route : Route) (msg : Message)
| EvDeliver (client_id : Z) (msg : Message)
| EvTick.

(** What comes from outside, given the events so far. *)
Class Env := {
  bus_answer : list Event -> Route -> BusRequest -> result ZError Message;
  bus_send : list Event -> Route -> Message -> result ZError unit;
  tx_send : list Event -> Z -> Message -> bool;
  clock : list Event -> Z;
  (* the iteration order of the HashMaps *)
  clients_order : gmap Z ClientInfo -> list Z;
  queues_order : NameQueueManager -> list string;
  names_order : gset string -> list string;
  machine_id_file : option string;
  process_id : Z;
  getuid : Z;
  getgid : Z;
}.

(** A HashMap or HashSet is iterated once over each of its keys. *)
Class EnvLaws {E : Env} : Prop := {
  clients_order_all m : clients_order m ≡ₚ elements (dom m);
  queues_order_all q : queues_order q ≡ₚ (map_to_list (queues q)).*1;
  names_order_all n : names_order n ≡ₚ elements n;
}.

Record World := mkWorld {
  mux : Multiplexer;
  log : list Event;
}.

(** ** The monad *)

Definition M (A : Type) : Type := World -> A * World.

Definition ret {A} (a : A) : M A := fun w => (a, w).

Definition bind {A B} (m : M A) (f : A -> M B) : M B :=
  fun w => let '(a, w') := m w in f a w'.

Definition get {A} (f : Multiplexer -> A) : M A := fun w => (f (mux w), w).

Definition modify (f : Multiplexer -> Multiplexer) : M unit :=
  fun w => (tt, mkWorld (f (mux w)) (log w)).

(** An operation that returns the new state of a component and a value. *)
Definition update {S A} (read : Multiplexer -> S) (write : S -> Multiplexer -> Multiplexer)
    (f : S -> S * A) : M A :=
  fun w => let '(s, a) := f (read (mux w)) in (a, mkWorld (write s (mux w)) (log w)).

Definition emit (e : Event) : M unit := fun w => (tt, mkWorld (mux w) (log w ++ [e])).

Context {E : Env}.

Definition now : M Z := fun w => (clock (log w), w).

(** [connection.call_method(...).await] *)
Definition call_method (route : Route) (req : BusRequest) : M (result ZError Message) :=
  fun w => (bus_answer (log w) route req, mkWorld (mux w) (log w ++ [EvCall route req])).

(** [info.tx.send(msg).await]: whether the channel took the message. *)
Definition send_to (client_id : Z) (msg : Message) : M bool :=
  fun w =>
    if tx_send (log w) client_id msg
    then (true, mkWorld (mux w) (log w ++ [EvDeliver client_id msg]))
    else (false, w).

End World.

Notation "'let!' x ':=' m 'in' k" := (bind m (fun x => k))
  (at level 10, x pattern, m at level 100, k at level 200) : rust_scope.
Notation "'try!' x ':=' m 'in' k" :=
  (bind m (fun r => match r with Ok x => k | Err e => ret (Err e) end))
  (at level 10, x pattern, m at level 100, k at level 200) : rust_scope.
Notation "m ';!' k" := (bind m (fun _ => k))
  (at level 60, right associativity) : rust_scope.

(** ** Components of the state *)

Definition with_router (r : MessageRouter) (s : Multiplexer) : Multiplexer :=
  mkMultiplexer r (clients s) (guid s) (match_rule_refcount s) (name_queue s) (portal_requests s).
Definition with_clients (c : gmap Z ClientInfo) (s : Multiplexer) : Multiplexer :=
  mkMultiplexer (router s) c (guid s) (match_rule_refcount s) (name_queue s) (portal_requests s).
Definition with_refcount (r : MatchRuleRefCount) (s : Multiplexer) : Multiplexer :=
  mkMultiplexer (router s) (clients s) (guid s) r (name_queue s) (portal_requests s).
Definition with_name_queue (q : NameQueueManager) (s : Multiplexer) : Multiplexer :=
  mkMultiplexer (router s) (clients s) (guid s) (match_rule_refcount s) q (portal_requests s).
Definition with_portal (p : PortalRequestTracker) (s : Multiplexer) : Multiplexer :=
  mkMultiplexer (router s) (clients s) (guid s) (match_rule_refcount s) (name_queue s) p.

Definition with_table (t : RoutingTable) (s : Multiplexer) : Multiplexer :=
  let r := router s in
  with_router (mkMessageRouter (container_conn r) (host_conn r) t (serial_map r)) s.
Definition with_serial_map (m : SerialMap) (s : Multiplexer) : Multiplexer :=
  let r := router s in
  with_router (mkMessageRouter (container_conn r) (host_conn r) (routing_table r) m) s.

Definition table (s : Multiplexer) : RoutingTable := routing_table (router s).
Definition serials_pending (s : Multiplexer) : SerialMap := serial_map (router s).

Definition conn (route : Route) (s : Multiplexer) : BusConnection :=
  match route with Container => container_conn (router s) | Host => host_conn (router s) end.

Definition with_conn (route : Route) (b : BusConnection) (s : Multiplexer) : Multiplexer :=
  let r := router s in
  with_router
    match route with
    | Container => mkMessageRouter b (host_conn r) (routing_table r) (serial_map r)
    | Host => mkMessageRouter (container_conn r) b (routing_table r) (serial_map r)
    end s.

Definition with_owned_names (n : gset string) (i : ClientInfo) : ClientInfo :=
  mkClientInfo (unique_name i) n (match_rules i) (credentials i).
Definition with_match_rules (r : ClientMatchRules) (i : ClientInfo) : ClientInfo :=
  mkClientInfo (unique_name i) (owned_names i) r (credentials i).

(** ** The bus connections *)

Section BusConnection.
Context `{ZB : Zbus} {E : Env}.

Definition next_serial (route : Route) : M Z :=
  update (conn route) (with_conn route) (fun b =>
    let '(g, n) := next (serial_gen b) in (mkBusConnection (bc_unique_name b) g, n)).

Definition conn_send (route : Route) (msg : Message) : M (result Error unit) :=
  fun w =>
    match bus_send (log w) route msg with
    | Ok _ => (Ok tt, mkWorld (mux w) (log w ++ [EvSend route msg]))
    | Err e => (Err (DBus e), w)
    end.

(** [.await?.body().deserialize()?] *)
Definition body_of (t : body_type) (reply : result ZError Message) : result Error (body_val t) :=
  let? msg := lift_zbus reply in lift_zbus (deserialize t msg).

Definition list_names (route : Route) : M (result Error (list string)) :=
  let! reply := call_method route CallListNames in ret (body_of BStrs reply).

Definition list_activatable_names (route : Route) : M (result Error (list string)) :=
  let! reply := call_method route CallListActivatableNames in ret (body_of BStrs reply).

Definition get_name_owner (route : Route) (name : string) : M (result Error (option string)) :=
  let! reply := call_method route (CallGetNameOwner name) in
  ret match reply with
      | Ok msg =>
          let? owner := lift_zbus (deserialize BStr msg) in
          Ok (Some owner)
      | Err e =>
          if bool_decide (method_error_name e = Some "org.freedesktop.DBus.Error.NameHasNoOwner")
          then Ok None else Err (DBus e)
      end.

Definition conn_name_has_owner (route : Route) (name : string) : M (result Error bool) :=
  let! reply := call_method route (CallNameHasOwner name) in ret (body_of BBool reply).

Definition subscribe_name_changes (route : Route) : M (result Error unit) :=
  let! reply := call_method route (CallAddMatch
    "type='signal',sender='org.freedesktop.DBus',interface='org.freedesktop.DBus',member='NameOwnerChanged'") in
  ret (let? _ := lift_zbus reply in Ok tt).

End BusConnection.
