(* ===== verification/SimpleEnv.v ===== *)
(** * A concrete environment for examples

    Two bus daemons that accept everything, a clock that counts events and
    hash maps iterated in key order: the witnesses of the theorems about the
    router and the multiplexer run in it.  It stands for no code of the
    repository. *)

From S2P Require Import Prelude RustStr Zbus SimpleZbus Errors Message Routing NameQueue SerialMap MatchRules Portal World.

#[local] Open Scope Z_scope.

Section SimpleEnv.
#[local] Existing Instance SimpleZbus.

(** The body a friendly bus daemon answers with. *)
Definition simple_body (req : BusRequest) : SBody :=
  match req with
  | CallRequestName _ _ => s_u32 1
  | CallReleaseName _ => s_u32 1
  | CallAddMatch _ | CallRemoveMatch _ => s_unit
  | CallListNames => s_strs ["org.freedesktop.DBus"]
  | CallListActivatableNames => s_strs []
  | CallGetNameOwner _ => s_str ":1.7"
  | CallNameHasOwner _ => s_bool true
  end.

(** [answer] says how the bus daemons reply. *)
Definition env_with (answer : Route -> BusRequest -> result string (@Message SimpleZbus)) : Env := {|
  bus_answer := fun _ route req => answer route req;
  bus_send := fun _ _ _ => Ok tt;
  tx_send := fun _ _ _ => true;
  clock := fun l => Z.of_nat (length l);
  clients_order := fun m => elements (dom m);
  queues_order := fun q => (map_to_list (queues q)).*1;
  names_order := fun n => elements n;
  machine_id_file := Some "4d3c";
  process_id := 77;
  getuid := 1000;
  getgid := 1000;
|}.

Definition SimpleEnv : Env := env_with (fun _ req => Ok (s_reply 1 1 (simple_body req))).

Lemma env_with_laws answer : @EnvLaws SimpleZbus (env_with answer).
Proof. split; done. Qed.

Definition s_mux : Multiplexer :=
  mkMultiplexer
    (mkMessageRouter (mkBusConnection (Some ":1.88") SerialGenerator_new)
       (mkBusConnection (Some ":1.9") SerialGenerator_new) RoutingTable_new SerialMap_new)
    ∅ "0123" MatchRuleRefCount_new NameQueueManager_new PortalRequestTracker_new.

Definition s_world : @World SimpleZbus := mkWorld s_mux [].

End SimpleEnv.
