(* ===== verification/Router.v ===== *)
(** * The message router (src/src/router.rs)

    Forwarding of method calls with a fresh serial and correlation of the
    replies, over the state of [World]. *)

From S2P Require Import Prelude RustStr Zbus SimpleZbus Errors Message Routing SerialMap NameQueue MatchRules Portal World SimpleEnv.

#[local] Open Scope Z_scope.

Section Router.
Context `{ZB : Zbus} {E : Env}.

Definition router_route_for (destination : string) : M Route :=
  get (fun s => Routing.route_for destination (table s)).

Definition forward_method_call (client_id : Z) (msg : Message) (route : Route)
    : M (result Error unit) :=
  let client_serial := serial msg in
  let! forwarded_serial := next_serial route in
  match clone_message_with_serial msg forwarded_serial with
  | Err e => ret (Err e)
  | Ok forwarded_msg =>
      let! sent := conn_send route forwarded_msg in
      match sent with
      | Err e => ret (Err e)
      | Ok _ =>
          let! t := now in
          modify (fun s => with_serial_map
            (sm_insert t route forwarded_serial client_id client_serial (serials_pending s)) s) ;!
          ret (Ok tt)
      end
  end.

Definition handle_reply (msg : Message) (route : Route) : M (result Error (option (Z * Z))) :=
  match reply_serial msg with
  | None => ret (Err (MessageErr NoReplySerial))
  | Some rs =>
      let! pending := update serials_pending with_serial_map (sm_remove route rs) in
      ret (Ok ((fun p => (pc_client_id p, pc_client_serial p)) <$> pending))
  end.

Definition router_cleanup_expired : M nat :=
  let! t := now in
  update serials_pending with_serial_map (sm_cleanup_expired t).

(** * Correlation of calls and replies *)

(** The router as a transition system.  The label of a forwarded call carries
    the caller, its serial, the serial the call was sent with and the time it
    was recorded; [LOther] stands for what the rest of the multiplexer does. *)
Inductive router_label :=
| LForward (route : Route) (client_id client_serial forwarded_serial t : Z)
| LFailed (route : Route)
| LReply (route : Route) (rs : Z) (answer : option (Z * Z))
| LCleanup (t : Z)
| LOther.

Inductive router_step : World -> router_label -> World -> Prop :=
| rs_forward w c msg route w' m :
    forward_method_call c msg route w = (Ok tt, w') -> log w' = log w ++ [EvSend route m] ->
    router_step w (LForward route c (serial msg) (serial m) (clock (log w'))) w'
| rs_failed w c msg route e w' :
    forward_method_call c msg route w = (Err e, w') -> router_step w (LFailed route) w'
| rs_reply w msg route rs answer w' :
    reply_serial msg = Some rs -> handle_reply msg route w = (Ok answer, w') ->
    router_step w (LReply route rs answer) w'
| rs_cleanup w n w' :
    router_cleanup_expired w = (n, w') -> router_step w (LCleanup (clock (log w))) w'
| rs_other w w' :
    (forall r, serial_gen (conn r (mux w')) = serial_gen (conn r (mux w))) ->
    serials_pending (mux w') = serials_pending (mux w) -> router_step w LOther w'.

(** The call that waits for a reply with serial [s] on [route], told from the
    labels: its caller, the caller's serial and when it was recorded. *)
Definition outstanding1 (route : Route) (s : Z) (p : option (Z * Z * Z)) (l : router_label)
    : option (Z * Z * Z) :=
  match l with
  | LForward r c cs fs t => if decide ((r, fs) = (route, s)) then Some (c, cs, t) else p
  | LReply r rs _ => if decide ((r, rs) = (route, s)) then None else p
  | LCleanup t =>
      match p with
      | Some (c, cs, since) => if decide (from_secs 30 <= t - since) then None else p
      | None => None
      end
  | LFailed _ | LOther => p
  end.

Definition outstanding (route : Route) (s : Z) (ls : list router_label) : option (Z * Z * Z) :=
  fold_left (outstanding1 route s) ls None.

(** The serials drawn for [route], and those that were sent. *)
Definition draws (route : Route) (l : router_label) : bool :=
  match l with LForward r _ _ _ _ | LFailed r => bool_decide (r = route) | _ => false end.

Definition drawn (route : Route) (ls : list router_label) : nat :=
  length (List.filter (draws route) ls).

Definition sent_serial (route : Route) (l : router_label) : option Z :=
  match l with
  | LForward r _ _ fs _ => if decide (r = route) then Some fs else None
  | _ => None
  end.

Definition sent_serials (route : Route) (ls : list router_label) : list Z :=
  omap (sent_serial route) ls.

(** What the serial map holds for a serial. *)
Definition entry (w : World) (route : Route) (s : Z) : option (Z * Z * Z) :=
  (fun p => (pc_client_id p, pc_client_serial p, pc_timestamp p)) <$>
    pending (serials_pending (mux w)) !! mkSerialKey route s.

Definition gen (route : Route) (w : World) : SerialGenerator := serial_gen (conn route (mux w)).

(** What a step with a label does, seen from one route: one serial is drawn for
    a call, the entries follow the label, and a reply is answered with the entry
    it finds. *)
Record router_effect (route : Route) (w : World) (l : router_label) (w' : World) : Prop := mkRouterEffect {
  re_timeout : sm_timeout (serials_pending (mux w')) = from_secs 30;
  re_gen : gen route w' = if draws route l then (next (gen route w)).1 else gen route w;
  re_sent fs : sent_serial route l = Some fs -> draws route l = true /\ fs = (next (gen route w)).2;
  re_entry s : entry w' route s = outstanding1 route s (entry w route s) l;
  re_answer s answer : l = LReply route s answer -> answer = fst <$> entry w route s;
}.

(** From a state whose time limit and counter are in order. *)
Definition obeys (route : Route) (w : World) (l : router_label) (w' : World) : Prop :=
  sm_timeout (serials_pending (mux w)) = from_secs 30 -> 0 <= counter (gen route w) < u32_modulus ->
  router_effect route w l w'.

Definition is_forward (route : Route) (s : Z) (l : router_label) : bool :=
  match l with LForward r _ _ fs _ => bool_decide ((r, fs) = (route, s)) | _ => false end.

Definition is_answer (route : Route) (s : Z) (l : router_label) : bool :=
  match l with LReply r rs (Some _) => bool_decide ((r, rs) = (route, s)) | _ => false end.

Definition number (p : router_label -> bool) (ls : list router_label) : nat :=
  length (List.filter p ls).

(** The serials sent are pairwise different; a reply is given to the client
    whose call is outstanding under its serial, under that client's own serial,
    and to nobody when there is none; the call so answered was forwarded for
    that client and is the only one with the serial; and no call is answered
    twice. *)
Definition correlated (route : Route) (ls : list router_label) : Prop :=
  NoDup (sent_serials route ls) /\
  (forall l1 s answer l2, ls = l1 ++ LReply route s answer :: l2 ->
     answer = fst <$> outstanding route s l1 /\
     forall c cs, answer = Some (c, cs) ->
       (exists t, LForward route c cs s t ∈ l1) /\
       (forall c' cs' t', LForward route c' cs' s t' ∈ ls -> c' = c /\ cs' = cs)) /\
  (forall s, (number (is_answer route s) ls <= 1)%nat).

End Router.

(** ** Lemmas *)

Section Lemmas.
Context {ZB : Zbus} {ZL : ZbusLaws} {E : Env}.

Lemma conn_with_conn r r' b s :
  conn r (with_conn r' b s) = if decide (r = r') then b else conn r s.
Proof. by destruct r, r'. Qed.

Lemma conn_with_serial_map r m s : conn r (with_serial_map m s) = conn r s.
Proof. by destruct r. Qed.

(** The effects of [forward_method_call] on the router. *)
Lemma forward_spec c msg route w res w' :
  forward_method_call c msg route w = (res, w') ->
  let '(g, fs) := next (gen route w) in
  (forall r, gen r w' = if decide (r = route) then g else gen r w) /\
  sm_timeout (serials_pending (mux w')) = sm_timeout (serials_pending (mux w)) /\
  match res with
  | Err _ => log w' = log w /\ serials_pending (mux w') = serials_pending (mux w)
  | Ok _ => exists m, clone_message_with_serial msg fs = Ok m /\
      log w' = log w ++ [EvSend route m] /\
      pending (serials_pending (mux w'))
        = <[mkSerialKey route fs := mkPendingCall c (serial msg) (clock (log w'))]>
            (pending (serials_pending (mux w)))
  end.
Proof.
  unfold forward_method_call, bind, next_serial, update, gen.
  destruct (next (serial_gen (conn route (mux w)))) as [g fs] eqn:Eg.
  assert (forall b s, serials_pending (with_conn route b s) = serials_pending s) as Hsp
    by (intros; by destruct route).
  assert (forall u r, serial_gen (conn r (with_conn route (mkBusConnection u g) (mux w)))
    = if decide (r = route) then g else serial_gen (conn r (mux w))) as Hgen.
  { intros u r. rewrite conn_with_conn. by case_decide. }
  destruct (clone_message_with_serial msg fs) as [m|e] eqn:Em.
  2:{ intros [= <- <-]. cbn [mux log]. rewrite Hsp. split_and!; auto. }
  unfold conn_send. cbn [log mux]. destruct (bus_send (log w) route m) as [[]|e].
  2:{ intros [= <- <-]. cbn [mux log]. rewrite Hsp. split_and!; auto. }
  unfold now, modify, ret. cbn [mux log]. intros [= <- <-]. cbn [mux log].
  split_and!.
  - intros r. by rewrite conn_with_serial_map.
  - by destruct route.
  - exists m. split_and!; [done | done | by destruct route].
Qed.

Lemma forward_frame c msg route w :
  clients (mux (forward_method_call c msg route w).2) = clients (mux w).
Proof.
  unfold forward_method_call, bind, next_serial, update.
  destruct (next (serial_gen (conn route (mux w)))) as [g fs].
  destruct (clone_message_with_serial msg fs) as [m|e]; [| by destruct route].
  unfold conn_send. cbn [log mux]. destruct (bus_send (log w) route m) as [[]|e]; by destruct route.
Qed.

(** ** The effect of each step *)

Lemma effect_forward route r c cs n fs t g w w' :
  next (gen r w) = (g, fs) -> (r = route -> n = fs) ->
  (forall r', gen r' w' = if decide (r' = r) then g else gen r' w) ->
  sm_timeout (serials_pending (mux w')) = sm_timeout (serials_pending (mux w)) ->
  pending (serials_pending (mux w')) = <[mkSerialKey r fs := mkPendingCall c cs t]> (pending (serials_pending (mux w))) ->
  obeys route w (LForward r c cs n t) w'.
Proof.
  intros En Hn Hgen Hto Hp Ht Hg. split; cbn [draws sent_serial outstanding1]; [by rewrite Hto | | | | done].
  - rewrite Hgen. case_decide; case_bool_decide; subst; try done. by rewrite En.
  - intros fs'. case_decide; [| done]. subst. intros [= <-]. rewrite bool_decide_eq_true_2, En by done. auto.
  - intros s. unfold entry. rewrite Hp. destruct (decide (r = route)) as [->|Hr].
    + rewrite (Hn eq_refl). case_decide as Hd.
      * injection Hd as ->. by rewrite lookup_insert_eq.
      * by rewrite lookup_insert_ne by congruence.
    + rewrite decide_False by congruence. by rewrite lookup_insert_ne by congruence.
Qed.

Lemma effect_failed route r w w' :
  (forall r', gen r' w' = if decide (r' = r) then (next (gen r w)).1 else gen r' w) ->
  serials_pending (mux w') = serials_pending (mux w) ->
  obeys route w (LFailed r) w'.
Proof.
  intros Hgen Hsp Ht Hg. split; cbn [draws sent_serial outstanding1]; unfold entry; rewrite ?Hsp; try done.
  rewrite Hgen. case_decide; case_bool_decide; subst; done.
Qed.

Lemma effect_reply route r rs w w' :
  (forall r', gen r' w' = gen r' w) -> serials_pending (mux w') = (sm_remove r rs (serials_pending (mux w))).1 ->
  obeys route w (LReply r rs (fst <$> entry w r rs)) w'.
Proof.
  intros Hgen Hsp Ht Hg. split; cbn [draws sent_serial outstanding1]; unfold entry; rewrite ?Hsp; try done.
  - intros s. cbn. case_decide as Hd.
    + injection Hd as -> ->. by rewrite lookup_delete_eq.
    + by rewrite lookup_delete_ne by congruence.
  - by intros s answer [= -> -> <-].
Qed.

Lemma effect_cleanup route t w w' :
  (forall r', gen r' w' = gen r' w) ->
  serials_pending (mux w') = (sm_cleanup_expired t (serials_pending (mux w))).1 ->
  obeys route w (LCleanup t) w'.
Proof.
  intros Hgen Hsp Ht Hg. split; cbn [draws sent_serial outstanding1]; unfold entry; rewrite ?Hsp; try done.
  intros s. cbn. rewrite map_lookup_filter, Ht.
  destruct (pending (serials_pending (mux w)) !! mkSerialKey route s) as [[c cs t']|]; [| done].
  cbn [fmap option_fmap option_map mbind option_bind pc_client_id pc_client_serial pc_timestamp snd].
  unfold unexpired, duration_since, from_secs. cbn [pc_timestamp].
  case_decide; [rewrite option_guard_False by lia | rewrite option_guard_True by lia]; done.
Qed.

Lemma effect_other route w w' :
  (forall r', gen r' w' = gen r' w) -> serials_pending (mux w') = serials_pending (mux w) ->
  obeys route w LOther w'.
Proof.
  intros Hgen Hsp Ht Hg. split; cbn [draws sent_serial outstanding1]; unfold entry; rewrite ?Hsp; done.
Qed.

Lemma router_step_obeys w l w' route : router_step w l w' -> obeys route w l w'.
Proof.
  intros Hst. destruct Hst as [w c msg r w' m Hf Hlog|w c msg r e w' Hf|w msg r rs answer w' Hrs Hh|w n w' Hc|w w' Hgen Hsp].
  - apply forward_spec in Hf. destruct (next (gen r w)) as [g fs] eqn:En.
    destruct Hf as (Hgen & Hto & m' & Hm & Hlog' & Hp).
    rewrite Hlog in Hlog'. apply app_inj_tail in Hlog' as [_ [= <-]].
    intros Ht Hg. apply (effect_forward _ _ _ _ _ fs _ g); try done. intros ->.
    eapply clone_with_serial_ok; [| done]. pose proof (upcoming_range _ Hg).
    rewrite <- next_upcoming, En in *. simpl in *. lia.
  - apply forward_spec in Hf. destruct (next (gen r w)) as [g fs] eqn:En. destruct Hf as (Hgen & _ & _ & Hsp).
    apply effect_failed; [| done]. intros r'. by rewrite En.
  - unfold handle_reply, bind, update, sm_remove, ret in Hh. rewrite Hrs in Hh. injection Hh as <- <-.
    replace ((fun p => (pc_client_id p, pc_client_serial p)) <$> _) with (fst <$> entry w r rs);
      [| unfold entry; by destruct (pending (serials_pending (mux w)) !! _)].
    apply effect_reply; [intros r'; unfold gen; apply f_equal, conn_with_serial_map | done].
  - unfold router_cleanup_expired, bind, now, update in Hc.
    injection Hc as <- <-. apply effect_cleanup; [intros r'; unfold gen; apply f_equal, conn_with_serial_map | done].
  - by apply effect_other.
Qed.

Lemma router_trace_spec w ls w' route :
  trace (obeys route) w ls w' ->
  sm_timeout (serials_pending (mux w)) = from_secs 30 ->
  0 <= counter (gen route w) < u32_modulus ->
  sent_serials route ls `sublist_of` serials (drawn route ls) (gen route w) /\
  (forall l1 s answer l2, ls = l1 ++ LReply route s answer :: l2 ->
     answer = fst <$> fold_left (outstanding1 route s) l1 (entry w route s)).
Proof.
  intros Htr. induction Htr as [w|w l w1 ls w2 Hst Htr IH]; intros Ht Hg.
  { split; [done |]. intros l1 s answer l2 H. by destruct l1. }
  destruct (Hst Ht Hg) as [Ht1 Hg1 Hsent He Ha].
  assert (0 <= counter (gen route w1) < u32_modulus) as Hc1.
  { rewrite Hg1. case_match; [by apply next_counter | done]. }
  destruct (IH Ht1 Hc1) as [Hsub Hans]. split.
  - unfold sent_serials, drawn in *. cbn [omap list_omap List.filter].
    destruct (sent_serial route l) as [fs|] eqn:El.
    + destruct (Hsent fs eq_refl) as [Hd ->]. rewrite Hd in *. rewrite Hg1 in Hsub.
      cbn [length serials]. by constructor.
    + destruct (draws route l); rewrite Hg1 in Hsub; [| done].
      cbn [length serials]. by constructor.
  - intros [|l' l1] s answer l2 Hls.
    + injection Hls as Hl _. by apply Ha in Hl.
    + injection Hls as <- Hls. cbn [fold_left]. rewrite <- He. by eapply Hans.
Qed.

Lemma number_snoc p ls l : number p (ls ++ [l]) = (number p ls + if p l then 1 else 0)%nat.
Proof. unfold number. rewrite List.filter_app, length_app. simpl. by destruct (p l). Qed.

(** Calls are answered at most as often as they are forwarded. *)
Lemma answers_le_forwards route s ls :
  (forall l1 answer l2, ls = l1 ++ LReply route s answer :: l2 ->
     answer = fst <$> outstanding route s l1) ->
  (number (is_answer route s) ls + match outstanding route s ls with Some _ => 1 | None => 0 end
     <= number (is_forward route s) ls)%nat.
Proof.
  unfold outstanding. induction ls as [|l ls IH] using rev_ind; intros Hans; [done |].
  rewrite !number_snoc, fold_left_app. cbn [fold_left].
  assert (number (is_answer route s) ls + match fold_left (outstanding1 route s) ls None with Some _ => 1 | None => 0 end
    <= number (is_forward route s) ls)%nat as IH'.
  { apply IH. intros l1 answer l2 ->. apply (Hans l1 answer (l2 ++ [l])). by rewrite <- app_assoc. }
  destruct l as [r c cs fs t|r|r rs answer|t|]; cbn [is_answer is_forward outstanding1].
  - case_bool_decide; case_decide; try done; lia.
  - lia.
  - case_decide as Hd.
    + injection Hd as -> ->. specialize (Hans ls answer [] eq_refl). rewrite Hans.
      destruct (fold_left (outstanding1 route s) ls None) as [[]|]; simpl; [| lia].
      rewrite bool_decide_eq_true_2 by done. lia.
    + destruct answer; [rewrite bool_decide_eq_false_2 by done |]; lia.
  - destruct (fold_left (outstanding1 route s) ls None) as [[[c cs] t0]|]; [| lia].
    case_decide; lia.
  - lia.
Qed.

(** An outstanding call was forwarded. *)
Lemma outstanding_forwarded route s ls c cs t :
  outstanding route s ls = Some (c, cs, t) -> LForward route c cs s t ∈ ls.
Proof.
  unfold outstanding. induction ls as [|l ls IH] using rev_ind; [done |].
  rewrite fold_left_app. cbn [fold_left]. rewrite elem_of_app, list_elem_of_singleton.
  destruct l as [r c' cs' fs t'|r|r rs answer|t'|]; cbn [outstanding1].
  - case_decide as Hd; [injection Hd as -> ->; intros [= -> -> ->]; auto | auto].
  - auto.
  - case_decide; [done | auto].
  - destruct (fold_left (outstanding1 route s) ls None) as [[[c0 cs0] t0]|]; [| done].
    case_decide; [done |]. auto.
  - auto.
Qed.

Lemma forward_sent route s c cs t ls :
  LForward route c cs s t ∈ ls -> s ∈ sent_serials route ls.
Proof.
  intros H. unfold sent_serials. apply list_elem_of_omap. exists (LForward route c cs s t).
  split; [done |]. cbn [sent_serial]. by rewrite decide_True.
Qed.

Lemma sent_once route s ls :
  NoDup (sent_serials route ls) -> (number (is_forward route s) ls <= 1)%nat /\
  forall c cs t c' cs' t', LForward route c cs s t ∈ ls -> LForward route c' cs' s t' ∈ ls ->
    c' = c /\ cs' = cs.
Proof.
  induction ls as [|l ls IH]; intros Hnd.
  { split; [unfold number; simpl; lia |]. set_solver. }
  unfold sent_serials in Hnd. cbn [omap list_omap] in Hnd.
  destruct (sent_serial route l) as [fs|] eqn:El.
  - apply NoDup_cons in Hnd as [Hni Hnd]. destruct (IH Hnd) as [Hn Hu].
    destruct l as [r c0 cs0 fs0 t0| | | |]; try done. cbn [sent_serial] in El.
    case_decide as Hr; [| done]. injection El as ->. subst r.
    unfold number in *. cbn [List.filter is_forward]. destruct (decide (fs = s)) as [->|Hne].
    + assert (forall c cs t, LForward route c cs s t ∉ ls) as Hno.
      { intros c cs t H. apply Hni. by eapply forward_sent. }
      rewrite bool_decide_eq_true_2 by done. split.
      * cbn [length]. destruct (List.filter (is_forward route s) ls) as [|l' ?] eqn:Ef; [done |].
        assert (l' ∈ List.filter (is_forward route s) ls) as Hl' by (rewrite Ef; set_solver).
        apply list_elem_of_In, filter_In in Hl' as [Hin Hf]. apply list_elem_of_In in Hin.
        destruct l'; try done. cbn in Hf. apply bool_decide_eq_true in Hf as [= -> ->].
        by apply Hno in Hin.
      * intros c cs t c' cs' t' [E1|K1]%elem_of_cons [E2|K2]%elem_of_cons;
          try (by apply Hno in K1); try (by apply Hno in K2). by simplify_eq.
    + rewrite bool_decide_eq_false_2 by congruence. split; [done |].
      intros c cs t c' cs' t' [[=]|K1]%elem_of_cons [[=]|K2]%elem_of_cons; [congruence..|].
      by eapply Hu.
  - destruct (IH Hnd) as [Hn Hu]. unfold number in *. cbn [List.filter].
    assert (is_forward route s l = false) as ->.
    { destruct l; try done. cbn in *. case_decide; [done |]. by rewrite bool_decide_eq_false_2 by congruence. }
    split; [done |]. intros c cs t c' cs' t' [E1|K1]%elem_of_cons [E2|K2]%elem_of_cons;
      try (by eapply Hu); subst l; cbn in El; by rewrite decide_True in El.
Qed.

(** A router that has not forwarded anything yet. *)
Definition router_init (w : World) : Prop :=
  serials_pending (mux w) = SerialMap_new /\ forall r, gen r w = SerialGenerator_new.

Lemma trace_correlated w ls w' route :
  router_init w -> trace (obeys route) w ls w' -> Z.of_nat (drawn route ls) <= u32_modulus - 1 ->
  correlated route ls.
Proof.
  intros [Hsp Hg] Htr Hd.
  assert (0 <= counter (gen route w) < u32_modulus) as Hc by (rewrite Hg; done).
  destruct (router_trace_spec w ls w' route Htr) as [Hsub Hans]; [by rewrite Hsp | done |].
  assert (NoDup (sent_serials route ls)) as Hnd by (eapply sublist_NoDup; [by apply serials_nodup | done]).
  assert (forall s, entry w route s = None) as He.
  { intros s. unfold entry. rewrite Hsp. cbn. by rewrite lookup_empty. }
  assert (forall l1 s answer l2, ls = l1 ++ LReply route s answer :: l2 ->
    answer = fst <$> outstanding route s l1) as Hans'.
  { intros l1 s answer l2 H. unfold outstanding. rewrite <- (He s). by eapply Hans. }
  split_and!; [done | |].
  - intros l1 s answer l2 Hls. pose proof (Hans' _ _ _ _ Hls) as Ha. split; [done |].
    intros c cs Hcs. rewrite Hcs in Ha.
    destruct (outstanding route s l1) as [[[c0 cs0] t]|] eqn:Eo; [| done].
    injection Ha as -> ->. apply outstanding_forwarded in Eo. split; [by eexists |].
    intros c' cs' t' H'. eapply (sent_once route s ls Hnd); [| done].
    rewrite Hls. apply elem_of_app. by left.
  - intros s. pose proof (answers_le_forwards route s ls (fun l1 answer l2 => Hans' l1 s answer l2)).
    destruct (sent_once route s ls Hnd) as [? _]. lia.
Qed.
(** C2. Replies reach the caller, and nobody else: in every history of forwarded
    calls, failed calls, replies and clean-ups with at most 2^32 - 1 serials
    drawn on a bus, the serials sent to the bus are pairwise different; a
    reply is given to the client whose call is outstanding under its serial,
    under that client's own serial, and to nobody when there is none; the
    call so answered was forwarded for that client and is the only one ever
    forwarded with the serial; and no call is answered twice. *)
Theorem reply_correlation w ls w' route :
  router_init w -> trace router_step w ls w' -> Z.of_nat (drawn route ls) <= u32_modulus - 1 ->
  correlated route ls.
Proof.
  intros Hi Htr. apply (trace_correlated w ls w'); [done |]. revert Htr. apply trace_mono.
  intros. by apply router_step_obeys.
Qed.
End Lemmas.

(** ** Witness *)

Section Witness.
#[local] Existing Instance SimpleZbus.
#[local] Existing Instance SimpleZbusLaws.
#[local] Existing Instance SimpleEnv.

(** Two clients use the same serial on the same bus; the second is answered first. *)
Definition ex_w1 : World := (forward_method_call 1 (s_call ":mux.1" 5 "org.a" "F" s_unit) Host s_world).2.
Definition ex_w2 : World := (forward_method_call 2 (s_call ":mux.2" 5 "org.a" "G" s_unit) Host ex_w1).2.
Definition ex_w3 : World := (handle_reply (s_reply 9 2 s_unit) Host ex_w2).2.

Definition ex_labels : list router_label :=
  [LForward Host 1 5 1 1; LForward Host 2 5 2 2; LReply Host 2 (Some (2, 5))].

Lemma ex_trace : trace router_step s_world ex_labels ex_w3.
Proof.
  apply (trace_cons _ _ _ ex_w1); [| apply (trace_cons _ _ _ ex_w2);
    [| apply (trace_cons _ _ _ ex_w3); [| apply trace_nil]]].
  - exact (rs_forward s_world 1 (s_call ":mux.1" 5 "org.a" "F" s_unit) Host ex_w1
      (s_call ":mux.1" 1 "org.a" "F" s_unit) eq_refl eq_refl).
  - exact (rs_forward ex_w1 2 (s_call ":mux.2" 5 "org.a" "G" s_unit) Host ex_w2
      (s_call ":mux.2" 2 "org.a" "G" s_unit) eq_refl eq_refl).
  - exact (rs_reply ex_w2 (s_reply 9 2 s_unit) Host 2 _ _ eq_refl eq_refl).
Qed.

Lemma reply_correlation_witness :
  NoDup (sent_serials Host ex_labels) /\
  (forall l1 s answer l2, ex_labels = l1 ++ LReply Host s answer :: l2 ->
     answer = fst <$> outstanding Host s l1 /\
     forall c cs, answer = Some (c, cs) ->
       (exists t, LForward Host c cs s t ∈ l1) /\
       (forall c' cs' t', LForward Host c' cs' s t' ∈ ex_labels -> c' = c /\ cs' = cs)) /\
  (forall s, (number (is_answer Host s) ex_labels <= 1)%nat).
Proof.
  apply (reply_correlation s_world ex_labels ex_w3 Host).
  - split; [reflexivity | intros []; reflexivity].
  - apply ex_trace.
  - vm_compute. congruence.
Defined.
End Witness.
