(* ===== verification/Multiplexer.v ===== *)
(** * The multiplexer (src/src/multiplexer.rs)

    Every handler of the multiplexer as a program in the monad of [World]: the
    methods of org.freedesktop.DBus, messages from clients and from the buses,
    new clients and their disconnection, and the main loop over a sequence of
    inputs.  Logging is left out. *)

From S2P Require Import Prelude RustStr Zbus Errors Message Routing NameQueue SerialMap MatchRules Portal World Router.
From Stdlib Require Import Ascii.

#[local] Open Scope Z_scope.

Section Multiplexer.
Context `{ZB : Zbus} {E : Env}.

(** ** Replies made by the multiplexer *)

Definition send_reply_to_client (client_id : Z) (original_msg : Message) (body : Body) : M unit :=
  let! cs := get clients in
  match cs !! client_id with
  | Some info =>
      match mrb_build body (mrb_set_destination (unique_name info)
              (MethodReturnBuilder_new original_msg)) with
      | Ok msg => let! _ := send_to client_id msg in ret tt
      | Err _ => ret tt
      end
  | None => ret tt
  end.

Definition send_error_to_client (client_id : Z) (original_msg : Message)
    (error_name message : string) : M unit :=
  let! cs := get clients in
  match cs !! client_id with
  | Some info =>
      match eb_build message (eb_set_destination (unique_name info)
              (ErrorBuilder_new original_msg error_name)) with
      | Ok msg => let! _ := send_to client_id msg in ret tt
      | Err _ => ret tt
      end
  | None => ret tt
  end.

(** The common start of the handlers: the body of the call, or an InvalidArgs
    error. *)
Definition with_body (t : body_type) (client_id : Z) (msg : Message) (k : body_val t -> M unit)
    : M unit :=
  match deserialize t msg with
  | Ok v => k v
  | Err e =>
      send_error_to_client client_id msg error_names.INVALID_ARGS
        ("Invalid arguments: " +:+ zerror_text e)
  end.

(** [if let Some(info) = clients.get_mut(&client_id) { ... }] *)
Definition update_client (client_id : Z) (f : ClientInfo -> ClientInfo) : M unit :=
  modify (fun s => with_clients (alter f client_id (clients s)) s).

Definition update_table (f : RoutingTable -> RoutingTable) : M unit :=
  modify (fun s => with_table (f (table s)) s).

Definition add_owned (name : string) (i : ClientInfo) : ClientInfo :=
  with_owned_names ({[name]} ∪ owned_names i) i.
Definition drop_owned (name : string) (i : ClientInfo) : ClientInfo :=
  with_owned_names (owned_names i ∖ {[name]}) i.

(** ** Methods of org.freedesktop.DBus *)

Fixpoint find_credentials (p : ClientInfo -> bool) (infos : list ClientInfo)
    : option ClientCredentials :=
  match infos with
  | [] => None
  | info :: rest => if p info then Some (credentials info) else find_credentials p rest
  end.

(** [clients.values()], in the iteration order of the map. *)
Definition clients_values (cs : gmap Z ClientInfo) : list ClientInfo :=
  omap (fun c => cs !! c) (clients_order cs).

Definition find_client_credentials (name : string) : M (option ClientCredentials) :=
  let! cs := get clients in
  match find_credentials (fun info => String.eqb (unique_name info) name) (clients_values cs) with
  | Some creds => ret (Some creds)
  | None => ret (find_credentials (fun info => bool_decide (name ∈ owned_names info)) (clients_values cs))
  end.

Definition handle_hello (client_id : Z) (msg : Message) : M unit :=
  let! cs := get clients in
  match cs !! client_id with
  | Some info =>
      match mrb_build (BodyStr (unique_name info)) (mrb_set_destination (unique_name info)
              (MethodReturnBuilder_new msg)) with
      | Ok reply_msg => let! _ := send_to client_id reply_msg in ret tt
      | Err _ => ret tt
      end
  | None => ret tt
  end.

(** [handle_request_name], after the queue has decided. *)
Definition request_on_bus (client_id : Z) (msg : Message) (name : string) (flags : Z) (unique : string)
    (queue_result : RequestNameResult) : M unit :=
  if rq_forward_to_bus queue_result then
    let! result := call_method Container (CallRequestName name flags) in
    match result with
    | Ok reply =>
        let bus_reply_code : Z :=
          match deserialize BU32 reply with Ok code => code | Err _ => 0 end in
        (if (bus_reply_code =? request_name_reply.PRIMARY_OWNER)
            || (bus_reply_code =? request_name_reply.ALREADY_OWNER)
         then update_table (on_container_name_change name "" unique) ;!
              update_client client_id (add_owned name)
         else ret tt) ;!
        send_reply_to_client client_id msg (BodyU32 (rq_reply_code queue_result))
    | Err e =>
        let! _ := update name_queue with_name_queue (release_name name client_id) in
        send_error_to_client client_id msg error_names.FAILED
          ("RequestName failed: " +:+ zerror_text e)
    end
  else send_reply_to_client client_id msg (BodyU32 (rq_reply_code queue_result)).

(** [handle_request_name], after the client's unique name has been read and the
    lock on the clients released. *)
Definition request_name_as (client_id : Z) (msg : Message) (name : string) (flags : Z) (unique : string)
    : M unit :=
  let! queue_result := update name_queue with_name_queue (request_name name client_id unique flags) in
  request_on_bus client_id msg name flags unique queue_result.

Definition handle_request_name (client_id : Z) (msg : Message) : M unit :=
  with_body BStrU32 client_id msg (fun '(name, flags) =>
    let! cs := get clients in
    match cs !! client_id with
    | None => ret tt
    | Some c => request_name_as client_id msg name flags (unique_name c)
    end).

Definition handle_release_name (client_id : Z) (msg : Message) : M unit :=
  with_body BStr client_id msg (fun name =>
    let! queue_result := update name_queue with_name_queue (release_name name client_id) in
    (match rl_new_owner queue_result with
     | Some (new_owner_id, new_owner_name) =>
         update_table (on_container_name_change name "" new_owner_name) ;!
         update_client client_id (drop_owned name) ;!
         update_client new_owner_id (add_owned name)
     | None =>
         if rl_forward_to_bus queue_result then
           let! unique := get (fun s => unique_name <$> clients s !! client_id) in
           let! result := call_method Container (CallReleaseName name) in
           match result with
           | Ok _ =>
               (match unique with
                | Some u => update_table (on_container_name_change name u "")
                | None => ret tt
                end) ;!
               update_client client_id (drop_owned name)
           | Err _ => ret tt
           end
         else update_client client_id (drop_owned name)
     end) ;!
    send_reply_to_client client_id msg (BodyU32 (rl_reply_code queue_result))).

Definition handle_list_names (client_id : Z) (msg : Message) : M unit :=
  let! names := get (fun s => all_names (table s)) in
  send_reply_to_client client_id msg (BodyStrs names).

Definition handle_list_activatable_names (client_id : Z) (msg : Message) : M unit :=
  let! r := list_activatable_names Host in
  match r with
  | Ok names => send_reply_to_client client_id msg (BodyStrs names)
  | Err e =>
      send_error_to_client client_id msg error_names.FAILED
        ("ListActivatableNames failed: " +:+ error_text e)
  end.

Definition handle_get_name_owner (client_id : Z) (msg : Message) : M unit :=
  with_body BStr client_id msg (fun name =>
    let! route := get (fun s => get_name_owner_route name (table s)) in
    let conn := match route with Some Container => Container | Some Host | None => Host end in
    let! owner := get_name_owner conn name in
    match owner with
    | Ok (Some owner) => send_reply_to_client client_id msg (BodyStr owner)
    | Ok None =>
        send_error_to_client client_id msg error_names.NAME_HAS_NO_OWNER
          ("Name " +:+ name +:+ " has no owner")
    | Err e =>
        send_error_to_client client_id msg error_names.FAILED
          ("GetNameOwner failed: " +:+ error_text e)
    end).

Definition handle_name_has_owner (client_id : Z) (msg : Message) : M unit :=
  with_body BStr client_id msg (fun name =>
    let! has_owner := get (fun s => table_name_has_owner name (table s)) in
    send_reply_to_client client_id msg (BodyBool has_owner)).

Definition handle_get_id (client_id : Z) (msg : Message) : M unit :=
  let! g := get guid in
  send_reply_to_client client_id msg (BodyStr g).

Definition handle_ping (client_id : Z) (msg : Message) : M unit :=
  send_reply_to_client client_id msg BodyUnit.

Definition handle_get_machine_id (client_id : Z) (msg : Message) : M unit :=
  let machine_id := trim (default "00000000000000000000000000000000" machine_id_file) in
  send_reply_to_client client_id msg (BodyStr machine_id).

Definition handle_get_connection_unix_user (client_id : Z) (msg : Message) : M unit :=
  with_body BStr client_id msg (fun name =>
    if String.eqb name "org.freedesktop.DBus" then send_reply_to_client client_id msg (BodyU32 0)
    else
      let! creds := find_client_credentials name in
      match creds with
      | Some creds => send_reply_to_client client_id msg (BodyU32 (uid creds))
      | None =>
          send_error_to_client client_id msg error_names.NAME_HAS_NO_OWNER
            ("Could not get UID of name '" +:+ name +:+ "': no such name")
      end).

Definition handle_get_connection_unix_process_id (client_id : Z) (msg : Message) : M unit :=
  with_body BStr client_id msg (fun name =>
    if String.eqb name "org.freedesktop.DBus"
    then send_reply_to_client client_id msg (BodyU32 process_id)
    else
      let! creds := find_client_credentials name in
      match creds with
      | Some creds =>
          match pid creds with
          | Some pid => send_reply_to_client client_id msg (BodyU32 pid)
          | None =>
              send_error_to_client client_id msg error_names.UNIX_PROCESS_ID_UNKNOWN
                ("Could not get PID of name '" +:+ name +:+ "': not available")
          end
      | None =>
          send_error_to_client client_id msg error_names.NAME_HAS_NO_OWNER
            ("Could not get PID of name '" +:+ name +:+ "': no such name")
      end).

(** The dictionary of credentials, its entries in the order of insertion. *)
Definition credentials_dict (uid : Z) (pid : option Z) (gid : Z) : Body :=
  BodyDict ([("UnixUserID", uid)] ++
            match pid with Some pid => [("ProcessID", pid)] | None => [] end ++
            [("UnixGroupID", gid)]).

Definition handle_get_connection_credentials (client_id : Z) (msg : Message) : M unit :=
  with_body BStr client_id msg (fun name =>
    if String.eqb name "org.freedesktop.DBus" then
      send_reply_to_client client_id msg (credentials_dict getuid (Some process_id) getgid)
    else
      let! creds := find_client_credentials name in
      match creds with
      | Some creds =>
          send_reply_to_client client_id msg (credentials_dict (uid creds) (pid creds) (gid creds))
      | None =>
          send_error_to_client client_id msg error_names.NAME_HAS_NO_OWNER
            ("Could not get credentials of name '" +:+ name +:+ "': no such name")
      end).

Definition handle_list_queued_owners (client_id : Z) (msg : Message) : M unit :=
  with_body BStr client_id msg (fun name =>
    let! owners := get (fun s => list_queued_owners name (name_queue s)) in
    send_reply_to_client client_id msg (BodyStrs owners)).

(** The introspection data, with single quotes standing for double quotes. *)
Definition introspect_text : string :=
"<!DOCTYPE node PUBLIC '-//freedesktop//DTD D-BUS Object Introspection 1.0//EN'
'http://www.freedesktop.org/standards/dbus/1.0/introspect.dtd'>
<node>
  <interface name='org.freedesktop.DBus'>
    <method name='Hello'>
      <arg direction='out' type='s'/>
    </method>
    <method name='RequestName'>
      <arg direction='in' type='s'/>
      <arg direction='in' type='u'/>
      <arg direction='out' type='u'/>
    </method>
    <method name='ReleaseName'>
      <arg direction='in' type='s'/>
      <arg direction='out' type='u'/>
    </method>
    <method name='ListNames'>
      <arg direction='out' type='as'/>
    </method>
    <method name='ListActivatableNames'>
      <arg direction='out' type='as'/>
    </method>
    <method name='GetNameOwner'>
      <arg direction='in' type='s'/>
      <arg direction='out' type='s'/>
    </method>
    <method name='NameHasOwner'>
      <arg direction='in' type='s'/>
      <arg direction='out' type='b'/>
    </method>
    <method name='GetId'>
      <arg direction='out' type='s'/>
    </method>
    <method name='GetConnectionUnixUser'>
      <arg direction='in' type='s'/>
      <arg direction='out' type='u'/>
    </method>
    <method name='GetConnectionCredentials'>
      <arg direction='in' type='s'/>
      <arg direction='out' type='a{sv}'/>
    </method>
    <method name='ListQueuedOwners'>
      <arg direction='in' type='s'/>
      <arg direction='out' type='as'/>
    </method>
    <method name='AddMatch'>
      <arg direction='in' type='s'/>
    </method>
    <method name='RemoveMatch'>
      <arg direction='in' type='s'/>
    </method>
    <signal name='NameOwnerChanged'>
      <arg type='s'/>
      <arg type='s'/>
      <arg type='s'/>
    </signal>
    <signal name='NameAcquired'>
      <arg type='s'/>
    </signal>
    <signal name='NameLost'>
      <arg type='s'/>
    </signal>
  </interface>
  <interface name='org.freedesktop.DBus.Peer'>
    <method name='Ping'/>
    <method name='GetMachineId'>
      <arg direction='out' type='s'/>
    </method>
  </interface>
  <interface name='org.freedesktop.DBus.Introspectable'>
    <method name='Introspect'>
      <arg direction='out' type='s'/>
    </method>
  </interface>
</node>".

Definition introspect_xml : string :=
  replace_char "'"%char (String (ascii_of_nat 34) "") introspect_text.

Definition handle_introspect (client_id : Z) (msg : Message) : M unit :=
  send_reply_to_client client_id msg (BodyStr introspect_xml).

(** The key of a bus in the reference counts. *)
Definition bus_key (route : Route) : string :=
  match route with Container => "container" | Host => "host" end.

(** One [if refcount.increment(...) { let _ = ...call_method(AddMatch) }]. *)
Definition add_upstream (route : Route) (rule : string) : M unit :=
  let! first := update match_rule_refcount with_refcount (increment (bus_key route) rule) in
  if first then let! _ := call_method route (CallAddMatch rule) in ret tt else ret tt.

(** One [if refcount.decrement(...) { let _ = ...call_method(RemoveMatch) }]. *)
Definition remove_upstream (route : Route) (rule : string) : M unit :=
  let! last := update match_rule_refcount with_refcount (decrement (bus_key route) rule) in
  if last then let! _ := call_method route (CallRemoveMatch rule) in ret tt else ret tt.

(** [handle_add_match], after the rule has been added to the client's and the
    lock on the clients released. *)
Definition install_rule (client_id : Z) (msg : Message) (rule_string : string) : M unit :=
  add_upstream Container rule_string ;!
  add_upstream Host rule_string ;!
  send_reply_to_client client_id msg BodyUnit.

Definition handle_add_match (client_id : Z) (msg : Message) : M unit :=
  with_body BStr client_id msg (fun rule_string =>
    match parse rule_string with
    | Err e =>
        send_error_to_client client_id msg error_names.MATCH_RULE_INVALID
          ("Invalid match rule: " +:+ match_rule_error_text e)
    | Ok rule =>
        update_client client_id (fun info => with_match_rules (cmr_add rule (match_rules info)) info) ;!
        install_rule client_id msg rule_string
    end).

Definition handle_remove_match (client_id : Z) (msg : Message) : M unit :=
  with_body BStr client_id msg (fun rule_string =>
    let! cs := get clients in
    let! removed :=
      match cs !! client_id with
      | Some info =>
          let '(rs, removed) := cmr_remove rule_string (match_rules info) in
          update_client client_id (with_match_rules rs) ;! ret removed
      | None => ret false
      end in
    if negb removed then
      send_error_to_client client_id msg error_names.MATCH_RULE_NOT_FOUND "Match rule not found"
    else
      remove_upstream Container rule_string ;!
      remove_upstream Host rule_string ;!
      send_reply_to_client client_id msg BodyUnit).

Definition handle_get_all (client_id : Z) (msg : Message) : M unit :=
  send_reply_to_client client_id msg (BodyDict []).

Definition handle_dbus_method (client_id : Z) (msg : Message) : M unit :=
  let member := default "" (member_str msg) in
  if String.eqb member "Hello" then handle_hello client_id msg
  else if String.eqb member "RequestName" then handle_request_name client_id msg
  else if String.eqb member "ReleaseName" then handle_release_name client_id msg
  else if String.eqb member "ListNames" then handle_list_names client_id msg
  else if String.eqb member "ListActivatableNames" then handle_list_activatable_names client_id msg
  else if String.eqb member "GetNameOwner" then handle_get_name_owner client_id msg
  else if String.eqb member "NameHasOwner" then handle_name_has_owner client_id msg
  else if String.eqb member "GetId" then handle_get_id client_id msg
  else if String.eqb member "Ping" then handle_ping client_id msg
  else if String.eqb member "GetMachineId" then handle_get_machine_id client_id msg
  else if String.eqb member "GetConnectionUnixUser" then
    handle_get_connection_unix_user client_id msg
  else if String.eqb member "GetConnectionUnixProcessID" then
    handle_get_connection_unix_process_id client_id msg
  else if String.eqb member "GetConnectionCredentials" then
    handle_get_connection_credentials client_id msg
  else if String.eqb member "ListQueuedOwners" then handle_list_queued_owners client_id msg
  else if String.eqb member "AddMatch" then handle_add_match client_id msg
  else if String.eqb member "RemoveMatch" then handle_remove_match client_id msg
  else if String.eqb member "Introspect" then handle_introspect client_id msg
  else if String.eqb member "GetAll" then handle_get_all client_id msg
  else
    let! r := forward_method_call client_id msg Container in
    match r with
    | Ok _ => ret tt
    | Err _ =>
        send_error_to_client client_id msg error_names.UNKNOWN_METHOD ("Unknown method: " +:+ member)
    end.

(** ** Messages from clients *)

Definition handle_client_message (client_id : Z) (msg : Message) : M unit :=
  if is_dbus_daemon_call msg && is_method_call msg then handle_dbus_method client_id msg
  else
    let destination := default "" (destination_str msg) in
    let! route := router_route_for destination in
    if is_method_call msg then
      let! r := forward_method_call client_id msg route in
      match r with
      | Ok _ => ret tt
      | Err e =>
          send_error_to_client client_id msg error_names.FAILED
            ("Failed to forward: " +:+ error_text e)
      end
    else ret tt.

(** ** Messages from the buses *)

Definition handle_bus_reply (msg : Message) (route : Route) : M unit :=
  let is_err := is_error msg in
  let! r := handle_reply msg route in
  match r with
  | Ok (Some (client_id, client_serial)) =>
      (if negb is_err then
         match extract_request_handle msg with
         | Some request_path =>
             let! t := now in
             modify (fun s => with_portal
               (prt_register t request_path client_id (portal_requests s)) s)
         | None => ret tt
         end
       else ret tt) ;!
      let reply_msg :=
        match clone_reply_with_serial msg client_serial with Ok m => m | Err _ => msg end in
      let! cs := get clients in
      match cs !! client_id with
      | Some info => let! _ := send_to client_id reply_msg in ret tt
      | None => ret tt
      end
  | Ok None => ret tt
  | Err _ => ret tt
  end.

(** The Response signal of a tracked portal request; [true] when it is handled. *)
Definition handle_portal_response (msg : Message) : M bool :=
  if is_portal_response_signal msg then
    match path_str msg with
    | Some path =>
        let! client := update portal_requests with_portal (lookup_and_remove path) in
        match client with
        | Some client_id =>
            let! cs := get clients in
            (match cs !! client_id with
             | Some info =>
                 let! host := get (conn Host) in
                 let mux_unique_name := default "" (bc_unique_name host) in
                 let rewritten_msg :=
                   match clone_portal_response_signal msg mux_unique_name (unique_name info) with
                   | Ok m => m
                   | Err _ => msg
                   end in
                 let! _ := send_to client_id rewritten_msg in ret tt
             | None => ret tt
             end) ;!
            ret true
        | None => ret false
        end
    | None => ret false
    end
  else ret false.

Definition is_unicast_to_mux (msg : Message) (route : Route) (s : Multiplexer) : bool :=
  match destination_str msg, route with
  | Some dest, Host =>
      match bc_unique_name (conn Host s) with Some n => String.eqb n dest | None => false end
  | Some dest, Container =>
      match bc_unique_name (conn Container s) with Some n => String.eqb n dest | None => false end
  | None, _ => false
  end.

Definition should_forward (msg : Message) (unicast : bool) (info : ClientInfo) : bool :=
  if unicast then cmr_matches_ignoring_destination (match_rules info) msg
  else cmr_matches (match_rules info) msg.

(** The loop over [clients.iter()]. *)
Fixpoint forward_signal (msg : Message) (unicast : bool) (cs : gmap Z ClientInfo) (order : list Z)
    : M unit :=
  match order with
  | [] => ret tt
  | client_id :: rest =>
      (match cs !! client_id with
       | Some info =>
           if should_forward msg unicast info
           then let! _ := send_to client_id msg in ret tt else ret tt
       | None => ret tt
       end) ;!
      forward_signal msg unicast cs rest
  end.

Definition handle_bus_signal (msg : Message) (route : Route) : M unit :=
  let! handled := handle_portal_response msg in
  if handled then ret tt
  else
    let! unicast := get (is_unicast_to_mux msg route) in
    let! cs := get clients in
    forward_signal msg unicast cs (clients_order cs).

Definition handle_bus_message (msg : Message) (route : Route) : M unit :=
  if is_name_owner_changed msg then
    match parse_name_owner_changed msg with
    | Ok (name, old_owner, new_owner) =>
        match route with
        | Container => update_table (on_container_name_change name old_owner new_owner)
        | Host => update_table (on_host_name_change name old_owner new_owner)
        end
    | Err _ => ret tt
    end
  else
    (if is_method_return msg || is_error msg then handle_bus_reply msg route else ret tt) ;!
    (if is_signal msg then handle_bus_signal msg route else ret tt).

(** ** Clients come and go *)

(** What [ClientHandler::accept] hands over. *)
Record Accepted := mkAccepted {
  ac_client_id : Z;
  ac_unique_name : string;
  ac_credentials : ClientCredentials;
}.

Definition register_client (h : Accepted) : M unit :=
  modify (fun s => with_clients
    (<[ac_client_id h :=
        mkClientInfo (ac_unique_name h) ∅ ClientMatchRules_new (ac_credentials h)]> (clients s)) s).

Fixpoint release_match_rules (rs : list string) : M unit :=
  match rs with
  | [] => ret tt
  | rule :: rest =>
      remove_upstream Container rule ;! remove_upstream Host rule ;! release_match_rules rest
  end.

(** The loop over [queue_results]. *)
Fixpoint transfer_names (unique : string) (results : list (string * option (Z * string))) : M unit :=
  match results with
  | [] => ret tt
  | (name, Some (new_owner_id, new_owner_name)) :: rest =>
      update_table (on_container_name_change name unique new_owner_name) ;!
      update_client new_owner_id (add_owned name) ;!
      transfer_names unique rest
  | (name, None) :: rest =>
      update_table (on_container_name_change name unique "") ;!
      (let! _ := call_method Container (CallReleaseName name) in ret tt) ;!
      transfer_names unique rest
  end.

(** The loop over the names that were owned without a queue. *)
Fixpoint release_unqueued (unique : string) (names : list string) : M unit :=
  match names with
  | [] => ret tt
  | name :: rest =>
      (let! queue := get name_queue in
       if name_has_owner name queue then ret tt
       else
         update_table (on_container_name_change name unique "") ;!
         (let! _ := call_method Container (CallReleaseName name) in ret tt)) ;!
      release_unqueued unique rest
  end.

(** The second half of a disconnection: portal requests and names. *)
Definition leave_queues (client_id : Z) (unique : string) (owned : list string) : M unit :=
  (let! _ := update portal_requests with_portal (prt_remove_client client_id) in ret tt) ;!
  let! queue_results := (fun w =>
    update name_queue with_name_queue
      (remove_client_in (queues_order (name_queue (mux w))) client_id) w) in
  transfer_names unique queue_results ;!
  release_unqueued unique owned.

(** What the client task does when [handler.run] returns. *)
Definition disconnect_client (h : Accepted) : M unit :=
  let client_id := ac_client_id h in
  let! cs := get clients in
  let '(owned, rs) :=
    match cs !! client_id with
    | Some info => (names_order (owned_names info), rule_strings (match_rules info))
    | None => ([], [])
    end in
  modify (fun s => with_clients (delete client_id (clients s)) s) ;!
  release_match_rules rs ;!
  leave_queues client_id (ac_unique_name h) owned.

(** ** The main loop *)

(** The periodic clean-up of pending calls and portal requests. *)
Definition cleanup_tick : M unit :=
  emit EvTick ;!
  (let! _ := router_cleanup_expired in ret tt) ;!
  let! t := now in
  let! _ := update portal_requests with_portal (prt_cleanup_expired t) in ret tt.

(** What [select!] can wake up with; the end of a client task is an input too. *)
Inductive Input :=
| InAccept (client : result Error Accepted)
| InDisconnect (client : Accepted)
| InBus (route : Route) (received : result Error (option Message))
| InClient (client_id : Z) (msg : Message)
| InTick.

Definition bus_title (route : Route) : string :=
  match route with Container => "container bus" | Host => "host bus" end.

(** One round of the loop; [Some e] when [run] returns the error [e]. *)
Definition run_step (i : Input) : M (option Error) :=
  match i with
  | InAccept (Ok h) => register_client h ;! ret None
  | InAccept (Err _) => ret None
  | InDisconnect h => disconnect_client h ;! ret None
  | InBus route (Ok (Some msg)) => handle_bus_message msg route ;! ret None
  | InBus route (Ok None) => ret (Some (ConnectionClosed (bus_title route)))
  | InBus route (Err e) => ret (Some e)
  | InClient client_id msg => handle_client_message client_id msg ;! ret None
  | InTick => cleanup_tick ;! ret None
  end.

Fixpoint run (inputs : list Input) : M (option Error) :=
  match inputs with
  | [] => ret None
  | i :: rest =>
      let! stop := run_step i in
      match stop with Some e => ret (Some e) | None => run rest end
  end.

(** ** Start *)

Definition sync_tables : M (result Error unit) :=
  try! container := list_names Container in
  update_table (set_container_names (List.filter not_unique container)) ;!
  try! host := list_names Host in
  update_table (set_host_names (List.filter not_unique host)) ;!
  try! activatable := list_activatable_names Host in
  update_table (set_host_activatable activatable) ;!
  ret (Ok tt).

(** The state before the start, for the names the buses gave the connections. *)
Definition fresh (container_name host_name : option string) (server_guid : string) : Multiplexer :=
  mkMultiplexer
    (MessageRouter_new (mkBusConnection container_name SerialGenerator_new)
       (mkBusConnection host_name SerialGenerator_new) RoutingTable_new)
    ∅ server_guid MatchRuleRefCount_new NameQueueManager_new PortalRequestTracker_new.

Definition Multiplexer_new : M (result Error unit) :=
  try! _ := sync_tables in
  try! _ := subscribe_name_changes Container in
  subscribe_name_changes Host.

End Multiplexer.
