(* ===== verification/Frames.v ===== *)
(** * What the handlers leave alone

    A calculus for invariants of the multiplexer's state: [preserves I m] says
    that the program [m] keeps the property [I].  A handler keeps [I] when the
    few writes it makes do; [Tolerates] names those writes, so that an invariant
    states once which parts of the state it does not depend on. *)

From S2P Require Import Prelude RustStr Zbus Errors Message Routing NameQueue SerialMap MatchRules Portal World Router Multiplexer.

#[local] Open Scope Z_scope.

(** [I] does not mind a write of the component [write] stores. *)
Class Tolerates {S} (write : S -> Multiplexer -> Multiplexer) (I : Multiplexer -> Prop) : Prop :=
  tolerates x s : I s -> I (write x s).

(** Neither does it mind a change of one client by [f]. *)
Class ToleratesClient (f : ClientInfo -> ClientInfo) (I : Multiplexer -> Prop) : Prop :=
  tolerates_client c s : I s -> I (with_clients (alter f c (clients s)) s).

Section Frames.
Context {ZB : Zbus} {E : Env} (I : Multiplexer -> Prop).

Definition preserves {A} (m : M A) : Prop := forall w, I (mux w) -> I (mux (m w).2).

(** ** The monad *)

Lemma preserves_ret {A} (a : A) : preserves (ret a).
Proof. by intros w Hw. Qed.

Lemma preserves_get {A} (f : Multiplexer -> A) : preserves (get f).
Proof. by intros w Hw. Qed.

Lemma preserves_now : preserves now.
Proof. by intros w Hw. Qed.

Lemma preserves_emit e : preserves (emit e).
Proof. by intros w Hw. Qed.

Lemma preserves_call route req : preserves (call_method route req).
Proof. by intros w Hw. Qed.

Lemma preserves_send c msg : preserves (send_to c msg).
Proof. intros w Hw. unfold send_to. by case_match. Qed.

Lemma preserves_conn_send route msg : preserves (conn_send route msg).
Proof. intros w Hw. unfold conn_send. by case_match. Qed.

Lemma preserves_bind {A B} (m : M A) (k : A -> M B) :
  preserves m -> (forall a, preserves (k a)) -> preserves (bind m k).
Proof.
  intros Hm Hk w Hw. unfold bind. specialize (Hm w Hw). destruct (m w) as [a w1]. by apply Hk.
Qed.

Lemma preserves_modify f : (forall s, I s -> I (f s)) -> preserves (modify f).
Proof. intros Hf w Hw. by apply Hf. Qed.

Lemma preserves_update {S A} read (write : S -> Multiplexer -> Multiplexer) (f : S -> S * A)
    {T : Tolerates write I} :
  preserves (update read write f).
Proof. intros w Hw. unfold update. destruct (f _) as [x a]. by apply T. Qed.

Lemma preserves_table f {T : Tolerates with_table I} : preserves (update_table f).
Proof. intros w Hw. by apply T. Qed.

Lemma preserves_client c f {T : ToleratesClient f I} : preserves (update_client c f).
Proof. intros w Hw. by apply T. Qed.

End Frames.

Create HintDb frames.

(** Walk through a program, branch by branch. *)
Ltac walk :=
  repeat first
    [ solve [eauto with frames]
    | apply preserves_ret | apply preserves_get | apply preserves_now | apply preserves_emit
    | apply preserves_call | apply preserves_send | apply preserves_conn_send
    | apply preserves_update; apply _
    | apply preserves_table; apply _
    | apply preserves_client; apply _
    | apply preserves_bind; [| intros ?]
    | apply preserves_modify; intros ? ?; by apply tolerates
    | case_match ].

Section Handlers.
Context {ZB : Zbus} {E : Env} (I : Multiplexer -> Prop).

(** ** Replies *)

Lemma preserves_reply c msg body : preserves I (send_reply_to_client c msg body).
Proof. unfold send_reply_to_client. walk. Qed.

Lemma preserves_error c msg name text : preserves I (send_error_to_client c msg name text).
Proof. unfold send_error_to_client. walk. Qed.

Lemma preserves_with_body t c msg k :
  (forall v, preserves I (k v)) -> preserves I (with_body t c msg k).
Proof. intros Hk. unfold with_body. case_match; [done | apply preserves_error]. Qed.

Lemma preserves_find name : preserves I (find_client_credentials name).
Proof. unfold find_client_credentials. walk. Qed.

#[local] Hint Resolve preserves_reply preserves_error preserves_find preserves_with_body : frames.

(** ** The router *)

Lemma preserves_forward c msg route {T1 : Tolerates (with_conn route) I} {T2 : Tolerates with_serial_map I} :
  preserves I (forward_method_call c msg route).
Proof. unfold forward_method_call, next_serial. walk. Qed.

Lemma preserves_handle_reply msg route {T : Tolerates with_serial_map I} :
  preserves I (handle_reply msg route).
Proof. unfold handle_reply. walk. Qed.

(** ** Methods of the daemon *)

(** The methods that change the state of the multiplexer. *)
Definition state_methods : list string := ["RequestName"; "ReleaseName"; "AddMatch"; "RemoveMatch"].

Lemma preserves_other_method c msg :
  preserves I (forward_method_call c msg Container) ->
  default "" (member_str msg) ∉ state_methods -> preserves I (handle_dbus_method c msg).
Proof.
  intros Hf Hm. unfold handle_dbus_method. set (member := default "" (member_str msg)) in *.
  assert (forall x, x ∈ state_methods -> String.eqb member x = false) as Hne.
  { intros x Hx. apply String.eqb_neq. intros ->. done. }
  assert ((String.eqb member "RequestName" = false /\ String.eqb member "ReleaseName" = false) /\
          String.eqb member "AddMatch" = false /\ String.eqb member "RemoveMatch" = false)
    as [[-> ->] [-> ->]] by (repeat split; apply Hne; repeat constructor).
  repeat (case_match; [unfold handle_hello, handle_list_names, handle_list_activatable_names,
    list_activatable_names, handle_get_name_owner, get_name_owner, handle_name_has_owner, handle_get_id,
    handle_ping, handle_get_machine_id, handle_get_connection_unix_user,
    handle_get_connection_unix_process_id, handle_get_connection_credentials, handle_list_queued_owners,
    handle_introspect, handle_get_all; walk; apply preserves_with_body; intros ?; walk |]).
  walk.
Qed.

Lemma preserves_request_name c msg {T1 : Tolerates with_name_queue I} {T2 : Tolerates with_table I}
    {T3 : forall name, ToleratesClient (add_owned name) I} :
  preserves I (handle_request_name c msg).
Proof. unfold handle_request_name, request_name_as, request_on_bus. apply preserves_with_body. intros [name flags]. walk. Qed.

Lemma preserves_release_name c msg {T1 : Tolerates with_name_queue I} {T2 : Tolerates with_table I}
    {T3 : forall name, ToleratesClient (add_owned name) I}
    {T4 : forall name, ToleratesClient (drop_owned name) I} :
  preserves I (handle_release_name c msg).
Proof. unfold handle_release_name. apply preserves_with_body. intros name. walk. Qed.

Lemma preserves_add_upstream route rule {T : Tolerates with_refcount I} :
  preserves I (add_upstream route rule).
Proof. unfold add_upstream. walk. Qed.

Lemma preserves_remove_upstream route rule {T : Tolerates with_refcount I} :
  preserves I (remove_upstream route rule).
Proof. unfold remove_upstream. walk. Qed.

#[local] Hint Resolve preserves_add_upstream preserves_remove_upstream : frames.

Lemma preserves_add_match c msg {T1 : Tolerates with_refcount I}
    {T2 : forall f : ClientMatchRules -> ClientMatchRules,
            ToleratesClient (fun i => with_match_rules (f (match_rules i)) i) I} :
  preserves I (handle_add_match c msg).
Proof.
  unfold handle_add_match, install_rule. apply preserves_with_body. intros rule. case_match; [| walk].
  apply preserves_bind; [| intros; walk]. intros w Hw. by apply (T2 (cmr_add a)).
Qed.

Lemma preserves_remove_match c msg {T1 : Tolerates with_refcount I}
    {T2 : forall f : ClientMatchRules -> ClientMatchRules,
            ToleratesClient (fun i => with_match_rules (f (match_rules i)) i) I} :
  preserves I (handle_remove_match c msg).
Proof.
  unfold handle_remove_match. apply preserves_with_body. intros rule.
  apply preserves_bind; [walk | intros cs]. apply preserves_bind; [| intros ?; walk].
  case_match; [| walk]. case_match. apply preserves_bind; [| intros; walk].
  intros w Hw. by apply (T2 (fun _ => c1)).
Qed.

(** ** Messages of the buses and the clock *)

Lemma preserves_forward_signal msg unicast cs order : preserves I (forward_signal msg unicast cs order).
Proof.
  induction order as [|c order IH]; cbn [forward_signal]; [walk |].
  apply preserves_bind; [walk | done].
Qed.

#[local] Hint Resolve preserves_forward_signal : frames.

Lemma preserves_bus_message msg route {T1 : Tolerates with_table I} {T2 : Tolerates with_portal I} :
  preserves I (handle_reply msg route) -> preserves I (handle_bus_message msg route).
Proof.
  intros Hr. unfold handle_bus_message, handle_bus_reply, handle_bus_signal, handle_portal_response. walk.
Qed.

Lemma preserves_cleanup {T : Tolerates with_portal I} :
  preserves I router_cleanup_expired -> preserves I cleanup_tick.
Proof. intros Hc. unfold cleanup_tick. walk. Qed.

(** ** A disconnection, after the client is gone from the table *)

Lemma preserves_release_rules rs {T : Tolerates with_refcount I} : preserves I (release_match_rules rs).
Proof.
  induction rs as [|rule rs IH]; cbn [release_match_rules]; [walk |].
  apply preserves_bind; [walk | intros _]. apply preserves_bind; [walk | done].
Qed.

Lemma preserves_transfer unique results {T1 : Tolerates with_table I}
    {T2 : forall name, ToleratesClient (add_owned name) I} :
  preserves I (transfer_names unique results).
Proof.
  induction results as [|[name [[id new]|]] rest IH]; cbn [transfer_names]; [walk | |];
    (apply preserves_bind; [walk | intros _]); (apply preserves_bind; [walk | done]).
Qed.

Lemma preserves_unqueued unique names {T : Tolerates with_table I} :
  preserves I (release_unqueued unique names).
Proof.
  induction names as [|name rest IH]; cbn [release_unqueued]; [walk |].
  apply preserves_bind; [walk | done].
Qed.

Lemma preserves_leave c unique owned {T1 : Tolerates with_table I} {T2 : Tolerates with_portal I}
    {T3 : Tolerates with_name_queue I} {T4 : forall name, ToleratesClient (add_owned name) I} :
  preserves I (leave_queues c unique owned).
Proof.
  unfold leave_queues. apply preserves_bind; [walk | intros _]. apply preserves_bind.
  - intros w Hw. by apply (preserves_update I name_queue with_name_queue).
  - intros results. apply preserves_bind; [by apply preserves_transfer | intros _; by apply preserves_unqueued].
Qed.
End Handlers.

(** ** Operations on the queues *)

(** An invariant of well-formed queues is kept by an operation on them when it
    is kept by the operation's specification. *)
Section Queues.
Context {ZB : Zbus} {E : Env} {EL : EnvLaws} (I : Multiplexer -> Prop).
Hypothesis queues_wf : forall s, I s -> manager_ok (name_queue s).

Lemma preserves_queue_request n c u f :
  (forall s q, I s -> manager_ok q ->
     (forall n', owners q n' =
        if decide (n' = n)
        then (Spec.request (mkQueueEntry c u (has_flag f request_name_flags.ALLOW_REPLACEMENT))
                (has_flag f request_name_flags.REPLACE_EXISTING) (has_flag f request_name_flags.DO_NOT_QUEUE)
                (owners (name_queue s) n)).1
        else owners (name_queue s) n') ->
     I (with_name_queue q s)) ->
  preserves I (update name_queue with_name_queue (request_name n c u f)).
Proof.
  intros HI w Hw. unfold update.
  destruct (request_name_spec (name_queue (mux w)) n c u f (queues_wf _ Hw)) as (Hok & _ & Ho).
  destruct (request_name n c u f _) as [q r]. by apply HI.
Qed.

Lemma preserves_queue_release n c :
  (forall s q, I s -> manager_ok q ->
     (forall n', owners q n' =
        if decide (n' = n) then Spec.leave c (owners (name_queue s) n) else owners (name_queue s) n') ->
     I (with_name_queue q s)) ->
  preserves I (update name_queue with_name_queue (release_name n c)).
Proof.
  intros HI w Hw. unfold update.
  destruct (release_name_spec (name_queue (mux w)) n c (queues_wf _ Hw)) as (Hok & _ & Ho).
  destruct (release_name n c _) as [q r]. by apply HI.
Qed.

Lemma preserves_queue_remove c :
  (forall s q, I s -> manager_ok q ->
     (forall n, owners q n = Spec.leave c (owners (name_queue s) n)) -> I (with_name_queue q s)) ->
  preserves I (fun w => update name_queue with_name_queue
    (remove_client_in (queues_order (name_queue (mux w))) c) w).
Proof.
  intros HI w Hw. unfold update.
  destruct (remove_client_in_refines (queues_order (name_queue (mux w))) c _ (queues_wf _ Hw)
    (queues_order_all _)) as (Hok & Ho & _).
  destruct (remove_client_in _ _ _) as [q results]. by apply HI.
Qed.

(** RequestName, ReleaseName and a disconnection, when the operations on the
    queues and the removal of the client are known. *)
Lemma preserves_request_name_by c msg {T2 : Tolerates with_table I}
    {T3 : forall name, ToleratesClient (add_owned name) I} :
  (forall n u f, preserves I (update name_queue with_name_queue (request_name n c u f))) ->
  (forall n, preserves I (update name_queue with_name_queue (release_name n c))) ->
  preserves I (handle_request_name c msg).
Proof.
  intros Hq Hl. pose proof (preserves_reply I). pose proof (preserves_error I).
  unfold handle_request_name, request_name_as, request_on_bus. apply preserves_with_body. intros [n f].
  apply preserves_bind; [walk | intros cs]. case_match; [| walk].
  apply preserves_bind; [apply Hq | intros r]. specialize (Hl n). walk.
Qed.

Lemma preserves_release_name_by c msg {T2 : Tolerates with_table I}
    {T3 : forall name, ToleratesClient (add_owned name) I}
    {T4 : forall name, preserves I (update_client c (drop_owned name))} :
  (forall n, preserves I (update name_queue with_name_queue (release_name n c))) ->
  preserves I (handle_release_name c msg).
Proof.
  intros Hl. pose proof (preserves_reply I). pose proof (preserves_error I).
  unfold handle_release_name. apply preserves_with_body. intros n.
  apply preserves_bind; [apply Hl | intros r; specialize (T4 n); walk].
Qed.

Lemma preserves_disconnect_by h {T1 : Tolerates with_table I} {T2 : Tolerates with_portal I}
    {T3 : Tolerates with_refcount I} {T4 : forall name, ToleratesClient (add_owned name) I} :
  (forall s, I s -> I (with_clients (delete (ac_client_id h) (clients s)) s)) ->
  preserves I (fun w => update name_queue with_name_queue
    (remove_client_in (queues_order (name_queue (mux w))) (ac_client_id h)) w) ->
  preserves I (disconnect_client h).
Proof.
  intros Hd Hq. unfold disconnect_client. apply preserves_bind; [walk | intros cs]. case_match.
  apply preserves_bind; [by apply preserves_modify |].
  intros _. apply preserves_bind; [by apply preserves_release_rules; apply _ | intros _].
  unfold leave_queues. apply preserves_bind; [walk | intros _]. apply preserves_bind; [done |].
  intros results. apply preserves_bind; [apply preserves_transfer; apply _ |].
  intros _. apply preserves_unqueued; apply _.
Qed.
End Queues.

(** ** Runs *)

Section Run.
Context {ZB : Zbus} {E : Env} (I : Multiplexer -> Prop).

Lemma preserves_client_message c msg :
  (forall route, preserves I (forward_method_call c msg route)) ->
  preserves I (handle_dbus_method c msg) -> preserves I (handle_client_message c msg).
Proof.
  intros Hf Hd. unfold handle_client_message, router_route_for. case_match; [done |].
  apply preserves_bind; [walk | intros route]. case_match; [| walk].
  apply preserves_bind; [done | intros r]. case_match; [walk | apply preserves_error].
Qed.

(** The methods of the daemon, when the four that write are known. *)
Lemma preserves_dbus_method c msg :
  preserves I (forward_method_call c msg Container) ->
  preserves I (handle_request_name c msg) -> preserves I (handle_release_name c msg) ->
  preserves I (handle_add_match c msg) -> preserves I (handle_remove_match c msg) ->
  preserves I (handle_dbus_method c msg).
Proof.
  intros Hf H1 H2 H3 H4. destruct (decide (default "" (member_str msg) ∈ state_methods)) as [Hm|Hm];
    [| by apply preserves_other_method].
  unfold state_methods in Hm. rewrite !elem_of_cons, elem_of_nil in Hm. unfold handle_dbus_method.
  by destruct Hm as [->|[->|[->|[->|[]]]]].
Qed.

(** What one input may do. *)
Variant input_preserves : Input -> Prop :=
| ip_accept h : preserves I (register_client h) -> input_preserves (InAccept (Ok h))
| ip_reject e : input_preserves (InAccept (Err e))
| ip_disconnect h : preserves I (disconnect_client h) -> input_preserves (InDisconnect h)
| ip_bus route msg : preserves I (handle_bus_message msg route) -> input_preserves (InBus route (Ok (Some msg)))
| ip_closed route : input_preserves (InBus route (Ok None))
| ip_failed route e : input_preserves (InBus route (Err e))
| ip_client c msg : preserves I (handle_client_message c msg) -> input_preserves (InClient c msg)
| ip_tick : preserves I cleanup_tick -> input_preserves InTick.

Lemma input_preserves_accept h : input_preserves (InAccept (Ok h)) -> preserves I (register_client h).
Proof. by inversion 1. Qed.

Lemma preserves_run inputs : Forall input_preserves inputs -> preserves I (run inputs).
Proof.
  induction 1 as [|i inputs Hi _ IH]; cbn [run]; [apply preserves_ret |].
  apply preserves_bind; [| intros [e|]; [apply preserves_ret | done]].
  by destruct Hi; cbn [run_step]; try apply preserves_ret; (apply preserves_bind; [| intros; apply preserves_ret]).
Qed.

End Run.
