(* ===== verification/MuxCalls.v ===== *)
(** * Calls through the multiplexer

    Every method call of a connected client is answered by the multiplexer or
    forwarded to a bus, once; replies and signals of the buses reach the
    clients they are for.  The first part is a small calculus of the effects a
    handler may have on the log. *)

From S2P Require Import Prelude RustStr Zbus SimpleZbus Errors Message Routing NameQueue SerialMap MatchRules MatchRuleProofs Portal World SimpleEnv Router Multiplexer.
From Stdlib Require Import Ascii.

#[local] Open Scope Z_scope.

(** ** Effects *)

Section Effects.
Context {ZB : Zbus} {E : Env}.

(** The messages put into the channels of clients, and those sent to buses. *)
Definition deliveries (evs : list Event) : list (Z * Message) :=
  omap (fun e => match e with EvDeliver c m => Some (c, m) | _ => None end) evs.

Definition sends (evs : list Event) : list (Route * Message) :=
  omap (fun e => match e with EvSend r m => Some (r, m) | _ => None end) evs.

Lemma deliveries_app l1 l2 : deliveries (l1 ++ l2) = deliveries l1 ++ deliveries l2.
Proof. unfold deliveries. by rewrite omap_app. Qed.

Lemma sends_app l1 l2 : sends (l1 ++ l2) = sends l1 ++ sends l2.
Proof. unfold sends. by rewrite omap_app. Qed.

(** Client [c] is connected under the unique name [u]. *)
Definition connected (c : Z) (u : string) (s : Multiplexer) : Prop :=
  exists info, clients s !! c = Some info /\ unique_name info = u.

(** From a state with [c] connected as [u], [m] keeps it so and adds events
    that satisfy [Q] to the log. *)
Definition effect {A} (c : Z) (u : string) (Q : list Event -> Prop) (m : M A) : Prop :=
  forall w, connected c u (mux w) ->
    connected c u (mux (m w).2) /\ exists evs, log (m w).2 = log w ++ evs /\ Q evs.

(** Neither deliveries nor forwarded messages. *)
Definition no_message (evs : list Event) : Prop := deliveries evs = [] /\ sends evs = [].

(** One reply of the multiplexer to [msg], to [c] only. *)
Definition is_answer_to (msg : Message) (u : string) (r : Message) : Prop :=
  (msg_type r = MethodReturn \/ msg_type r = ErrorReply) /\
  reply_serial r = Some (serial msg) /\ destination_str r = Some u.

Definition answered (c : Z) (u : string) (msg : Message) (evs : list Event) : Prop :=
  sends evs = [] /\ exists r, deliveries evs = [(c, r)] /\ is_answer_to msg u r.

Section Rules.
Context (c : Z) (u : string) (msg : Message).

Abbreviation quiet := (effect c u no_message).
Abbreviation answers := (effect c u (answered c u msg)).

Lemma quiet_ret {A} (a : A) : quiet (ret a).
Proof. intros w Hw. split; [done |]. exists []. by rewrite app_nil_r. Qed.

Lemma quiet_get {A} (f : Multiplexer -> A) : quiet (get f).
Proof. intros w Hw. split; [done |]. exists []. by rewrite app_nil_r. Qed.

Lemma effect_bind {A B} (Q : list Event -> Prop) (m : M A) (k : A -> M B) :
  quiet m -> (forall evs evs', no_message evs -> Q evs' -> Q (evs ++ evs')) ->
  (forall a, effect c u Q (k a)) -> effect c u Q (bind m k).
Proof.
  intros Hm HQ Hk w Hw. unfold bind. destruct (Hm w Hw) as (Hw1 & evs & Hlog & Hno).
  destruct (m w) as [a w1]. cbn [snd] in *. destruct (Hk a w1 Hw1) as (Hw2 & evs' & Hlog' & HQ').
  split; [done |]. exists (evs ++ evs'). split; [by rewrite Hlog', Hlog, app_assoc | auto].
Qed.

Lemma no_message_app evs evs' : no_message evs -> no_message evs' -> no_message (evs ++ evs').
Proof. intros [H1 H2] [H3 H4]. split; [by rewrite deliveries_app, H1, H3 | by rewrite sends_app, H2, H4]. Qed.

Lemma answered_app evs evs' :
  no_message evs -> answered c u msg evs' -> answered c u msg (evs ++ evs').
Proof.
  intros [H1 H2] (H3 & r & H4 & H5). unfold answered. rewrite sends_app, H2, H3.
  split; [done |]. exists r. by rewrite deliveries_app, H1, H4.
Qed.

Lemma quiet_bind {A B} (m : M A) (k : A -> M B) :
  quiet m -> (forall a, quiet (k a)) -> quiet (bind m k).
Proof. intros Hm Hk. apply effect_bind; [done | apply no_message_app | done]. Qed.

Lemma answers_bind {A B} (m : M A) (k : A -> M B) :
  quiet m -> (forall a, answers (k a)) -> answers (bind m k).
Proof. intros Hm Hk. apply effect_bind; [done | apply answered_app | done]. Qed.

Lemma quiet_call route req : quiet (call_method route req).
Proof. intros w Hw. split; [done |]. exists [EvCall route req]. done. Qed.

Lemma quiet_modify f :
  (forall s, connected c u s -> connected c u (f s)) -> quiet (modify f).
Proof. intros Hf w Hw. split; [by apply Hf |]. exists []. by rewrite app_nil_r. Qed.

Lemma quiet_update {S A} (read : Multiplexer -> S) write (f : S -> S * A) :
  (forall x s, clients (write x s) = clients s) -> quiet (update read write f).
Proof.
  intros Hf w Hw. unfold update. destruct (f (read (mux w))) as [s a]. cbn [snd mux log].
  split; [unfold connected; by rewrite Hf |]. exists []. by rewrite app_nil_r.
Qed.

Lemma quiet_update_client c' f :
  (forall i, unique_name (f i) = unique_name i) -> quiet (update_client c' f).
Proof.
  intros Hf. apply quiet_modify. intros s (info & Hi & Hu). unfold connected. cbn [clients with_clients].
  destruct (decide (c' = c)) as [->|Hne].
  - exists (f info). rewrite lookup_alter_eq, Hi. split; [done | by rewrite Hf].
  - exists info. by rewrite lookup_alter_ne.
Qed.

Lemma quiet_update_table f : quiet (update_table f).
Proof. apply quiet_modify. done. Qed.

Lemma quiet_find name : quiet (find_client_credentials name).
Proof.
  unfold find_client_credentials. apply quiet_bind; [apply quiet_get |]. intros cs.
  case_match; apply quiet_ret.
Qed.

(** The client can be answered: its channel is open and zbus builds replies to
    [msg] for it. *)
Definition mux_error_names : list string :=
  [error_names.UNKNOWN_METHOD; error_names.NAME_HAS_NO_OWNER; error_names.FAILED;
   error_names.INVALID_ARGS; error_names.MATCH_RULE_NOT_FOUND; error_names.MATCH_RULE_INVALID;
   error_names.UNIX_PROCESS_ID_UNKNOWN].

Record answerable : Prop := mkAnswerable {
  channel_open l m : tx_send l c m = true;
  can_reply body :
    is_ok (mrb_build body (mrb_set_destination u (MethodReturnBuilder_new msg))) = true;
  can_error name text : name ∈ mux_error_names ->
    is_ok (eb_build text (eb_set_destination u (ErrorBuilder_new msg name))) = true;
}.

Context {ZL : ZbusLaws}.
Context (Hans : answerable).

Lemma answers_send r : is_answer_to msg u r -> answers (let! _ := send_to c r in ret tt).
Proof.
  intros Hr w Hw. unfold bind, send_to, ret. rewrite channel_open by done. cbn [snd mux log].
  split; [done |]. exists [EvDeliver c r]. split; [done |]. split; [done |]. by exists r.
Qed.

(** A client that is connected is found. *)
Lemma answers_lookup (k : ClientInfo -> M unit) (d : M unit) :
  (forall info, unique_name info = u -> answers (k info)) ->
  answers (let! cs := get clients in match cs !! c with Some info => k info | None => d end).
Proof.
  intros Hk w Hw. unfold bind, get. destruct Hw as (info & Hi & Hu). rewrite Hi.
  apply (Hk info Hu). by exists info.
Qed.

Lemma answers_built body :
  answers match mrb_build body (mrb_set_destination u (MethodReturnBuilder_new msg)) with
          | Ok r => let! _ := send_to c r in ret tt
          | Err _ => ret tt
          end.
Proof.
  pose proof (can_reply Hans body) as Hok. destruct (mrb_build body _) as [r|] eqn:Er; [| done].
  apply mrb_build_spec in Er as (H1 & H2 & H3). apply answers_send. split_and!; auto.
Qed.

Lemma answers_reply body : answers (send_reply_to_client c msg body).
Proof.
  unfold send_reply_to_client. apply answers_lookup. intros info ->. apply answers_built.
Qed.

Lemma answers_error name text :
  name ∈ mux_error_names -> answers (send_error_to_client c msg name text).
Proof.
  intros Hn. unfold send_error_to_client. apply answers_lookup. intros info ->.
  pose proof (can_error Hans name text Hn) as Hok. destruct (eb_build text _) as [r|] eqn:Er; [| done].
  apply eb_build_spec in Er as (H1 & H2 & H3). apply answers_send. split_and!; auto.
Qed.

Lemma answers_with_body t k : (forall v, answers (k v)) -> answers (with_body t c msg k).
Proof.
  intros Hk. unfold with_body. destruct (deserialize t msg); [done |].
  apply answers_error. unfold mux_error_names. set_solver.
Qed.

Lemma answers_hello : answers (handle_hello c msg).
Proof. unfold handle_hello. apply answers_lookup. intros info ->. apply answers_built. Qed.

(** Decompose a handler into its quiet parts and its answer. *)
Ltac effects :=
  repeat first
    [ done
    | apply answers_reply
    | apply answers_error; unfold mux_error_names; set_solver
    | apply quiet_ret
    | apply quiet_get
    | apply quiet_call
    | apply quiet_find
    | apply quiet_update_table
    | apply quiet_update; done
    | apply quiet_update_client; done
    | apply answers_with_body; intros ?
    | apply answers_bind; [| intros ?]
    | apply quiet_bind; [| intros ?]
    | case_match ].

Lemma quiet_list_activatable route : quiet (list_activatable_names route).
Proof. unfold list_activatable_names. effects. Qed.

Lemma quiet_get_name_owner route name : quiet (get_name_owner route name).
Proof. unfold get_name_owner. effects. Qed.

Lemma quiet_add_upstream route rule : quiet (add_upstream route rule).
Proof. unfold add_upstream. effects. Qed.

Lemma quiet_remove_upstream route rule : quiet (remove_upstream route rule).
Proof. unfold remove_upstream. effects. Qed.

Lemma answers_request_name : answers (handle_request_name c msg).
Proof.
  unfold handle_request_name, request_name_as, request_on_bus. apply answers_with_body. intros [name flags].
  apply answers_lookup. intros info Hu. effects.
Qed.

Lemma answers_release_name : answers (handle_release_name c msg).
Proof. unfold handle_release_name. effects. Qed.

Lemma answers_add_match : answers (handle_add_match c msg).
Proof.
  unfold handle_add_match, install_rule. apply answers_with_body. intros rs. case_match; [| effects].
  repeat (apply answers_bind; [first [apply quiet_add_upstream | effects] | intros _]). effects.
Qed.

Lemma answers_remove_match : answers (handle_remove_match c msg).
Proof.
  unfold handle_remove_match. apply answers_with_body. intros rs.
  apply answers_bind; [effects | intros cs]. apply answers_bind; [effects | intros removed].
  case_match; [effects |].
  repeat (apply answers_bind; [first [apply quiet_remove_upstream | effects] | intros _]). effects.
Qed.

Lemma answers_activatable : answers (handle_list_activatable_names c msg).
Proof.
  unfold handle_list_activatable_names. apply answers_bind; [apply quiet_list_activatable |].
  intros r. effects.
Qed.

Lemma answers_name_owner : answers (handle_get_name_owner c msg).
Proof.
  unfold handle_get_name_owner. apply answers_with_body. intros name.
  apply answers_bind; [effects | intros route]. cbv zeta.
  apply answers_bind; [apply quiet_get_name_owner | intros owner]. effects.
Qed.

(** The methods the multiplexer answers itself. *)
Definition daemon_methods : list string :=
  ["Hello"; "RequestName"; "ReleaseName"; "ListNames"; "ListActivatableNames"; "GetNameOwner";
   "NameHasOwner"; "GetId"; "Ping"; "GetMachineId"; "GetConnectionUnixUser";
   "GetConnectionUnixProcessID"; "GetConnectionCredentials"; "ListQueuedOwners"; "AddMatch";
   "RemoveMatch"; "Introspect"; "GetAll"].

Lemma answers_dispatch name :
  member_str msg = Some name -> name ∈ daemon_methods -> answers (handle_dbus_method c msg).
Proof.
  intros Hm Hin. unfold handle_dbus_method. rewrite Hm. cbn [default from_option id].
  unfold daemon_methods in Hin. rewrite !elem_of_cons in Hin.
  destruct Hin as [->|[->|[->|[->|[->|[->|[->|[->|[->|[->|[->|[->|[->|[->|[->|[->|[->|[->|[]%elem_of_nil]]]]]]]]]]]]]]]]]];
    cbn -[daemon_methods handle_hello].
  - apply answers_hello.
  - apply answers_request_name.
  - apply answers_release_name.
  - unfold handle_list_names. effects.
  - apply answers_activatable.
  - apply answers_name_owner.
  - unfold handle_name_has_owner. effects.
  - unfold handle_get_id. effects.
  - unfold handle_ping. effects.
  - unfold handle_get_machine_id. effects.
  - unfold handle_get_connection_unix_user. effects.
  - unfold handle_get_connection_unix_process_id. effects.
  - unfold handle_get_connection_credentials. effects.
  - unfold handle_list_queued_owners. effects.
  - apply answers_add_match.
  - apply answers_remove_match.
  - unfold handle_introspect. effects.
  - unfold handle_get_all. effects.
Qed.

End Rules.
End Effects.

(** ** Calls of clients *)

Section Calls.
Context {ZB : Zbus} {ZL : ZbusLaws} {E : Env}.

(** The bus a call is forwarded to. *)
Definition call_route (msg : Message) (s : Multiplexer) : Route :=
  if is_dbus_daemon_call msg then Container
  else Routing.route_for (default "" (destination_str msg)) (table s).

(** [msg] of client [c] was sent to [route] with nothing but its serial
    changed, to the next serial of that connection, which is used up, and waits
    for its reply. *)
Definition forwarded (c : Z) (route : Route) (msg : Message) (w w' : World) (evs : list Event) : Prop :=
  deliveries evs = [] /\
  exists m t, sends evs = [(route, m)] /\ msg_fields m = msg_fields msg /\
    body_bytes m = body_bytes msg /\
    next (gen route w) = (gen route w', serial m) /\ 1 <= serial m < u32_modulus /\
    forall r n, entry w' r n =
      if decide (r = route /\ n = serial m) then Some (c, serial msg, t) else entry w r n.

Lemma forward_effect c msg route w :
  0 <= counter (gen route w) < u32_modulus ->
  let '(r, w') := forward_method_call c msg route w in
  match r with
  | Ok _ => exists evs, log w' = log w ++ evs /\ forwarded c route msg w w' evs
  | Err _ => log w' = log w
  end.
Proof.
  intros Hg. destruct (forward_method_call c msg route w) as [r w'] eqn:Ef.
  apply forward_spec in Ef. pose proof (upcoming_range _ Hg) as Hr. rewrite <- next_upcoming in Hr. unfold forwarded.
  destruct (next (gen route w)) as [g fs] eqn:En. cbn [snd] in Hr. destruct Ef as (Hgen & _ & Hres).
  destruct r as [[]|e]; [| by destruct Hres].
  destruct Hres as (m & Hm & Hlog & Hp).
  apply clone_with_serial_ok in Hm as (Hs & Hf & Hb & _); [| lia].
  exists [EvSend route m]. split; [done |]. split; [done |]. exists m, (clock (log w')).
  split_and!; try done; try lia.
  - rewrite Hgen, decide_True by done. by rewrite Hs.
  - intros r' n. unfold entry. rewrite Hp, Hs. case_decide as Hd.
    + destruct Hd as [-> ->]. by rewrite lookup_insert_eq.
    + rewrite lookup_insert_ne; [done |]. by intros [= <- <-]; apply Hd.
Qed.

Lemma forward_or_error c u msg route name (text : Error -> string) w :
  connected c u (mux w) -> answerable c u msg -> name ∈ mux_error_names ->
  0 <= counter (gen route w) < u32_modulus ->
  let w' := ((let! r := forward_method_call c msg route in
              match r with
              | Ok _ => ret tt
              | Err e => send_error_to_client c msg name (text e)
              end) w).2 in
  exists evs, log w' = log w ++ evs /\
    (forwarded c route msg w w' evs \/
     answered c u msg evs /\ exists e, (forward_method_call c msg route w).1 = Err e).
Proof.
  intros Hc Ha Hn Hg. cbv zeta. unfold bind. pose proof (forward_effect c msg route w Hg) as Hf.
  pose proof (forward_frame c msg route w) as Hfr.
  destruct (forward_method_call c msg route w) as [[[]|e] w1]; cbn [snd fst] in *.
  - destruct Hf as (evs & Hlog & Hfw). exists evs. auto.
  - destruct (answers_error c u msg Ha name (text e) Hn w1) as (_ & evs & Hlog & Hans).
    { unfold connected in *. by rewrite Hfr. }
    exists evs. rewrite Hlog, Hf. eauto.
Qed.

Lemma dispatch_other c msg :
  default "" (member_str msg) ∉ daemon_methods ->
  handle_dbus_method c msg =
    (let! r := forward_method_call c msg Container in
     match r with
     | Ok _ => ret tt
     | Err _ => send_error_to_client c msg error_names.UNKNOWN_METHOD
                  ("Unknown method: " +:+ default "" (member_str msg))
     end).
Proof.
  intros Hn. unfold handle_dbus_method. set (name := default "" (member_str msg)) in *.
  repeat match goal with
  | |- context [String.eqb name ?t] =>
      destruct (String.eqb_spec name t) as [Heq|_];
        [exfalso; apply Hn; rewrite Heq; unfold daemon_methods; set_solver |]
  end. done.
Qed.

(** C6. No call is lost: a method call of a connected client whose channel is
    open and to which zbus builds replies ([answerable]) is either answered
    by the multiplexer, with exactly one reply, to that client only, that
    carries the call's serial and the client's name; or sent once to the bus
    its destination is routed to, unchanged but for its serial, which is the
    next one the generator of that connection gives out (a non-zero one, used
    up by the call), and recorded as the client's under that serial, while
    every other entry of the calls in flight is as before.  The methods of the
    daemon are answered; other calls are answered (with an error) only when
    they cannot be forwarded. *)
Theorem call_answered_or_forwarded c u msg w :
  connected c u (mux w) -> answerable c u msg -> is_method_call msg = true ->
  (forall r, 0 <= counter (gen r w) < u32_modulus) ->
  let w' := (handle_client_message c msg w).2 in
  let own := is_dbus_daemon_call msg && bool_decide (default "" (member_str msg) ∈ daemon_methods) in
  let route := call_route msg (mux w) in
  exists evs, log w' = log w ++ evs /\
    if own then answered c u msg evs
    else forwarded c route msg w w' evs \/
         answered c u msg evs /\ exists e, (forward_method_call c msg route w).1 = Err e.
Proof.
  intros Hc Ha Hm Hg. cbv zeta. unfold handle_client_message, call_route. rewrite Hm, andb_true_r.
  destruct (is_dbus_daemon_call msg); cbn [andb].
  - case_bool_decide as Hin.
    + destruct (member_str msg) as [name|] eqn:En.
      2:{ apply (bool_decide_pack _) in Hin. by vm_compute in Hin. }
      destruct (answers_dispatch c u msg Ha name En Hin w Hc) as (_ & evs & Hlog & Hans). eauto.
    + rewrite dispatch_other by done.
      apply (forward_or_error c u msg Container _ (fun _ => _)); auto.
      unfold mux_error_names. set_solver.
  - unfold bind at 1, router_route_for, get.
    apply (forward_or_error c u msg _ _ (fun e => "Failed to forward: " +:+ error_text e)); auto.
    unfold mux_error_names. set_solver.
Qed.

End Calls.

(** ** Messages of the buses *)

Section Bus.
Context {ZB : Zbus} {ZL : ZbusLaws} {E : Env}.
Context (Hopen : forall l c m, tx_send l c m = true).

Lemma send_to_open c m w :
  (let! _ := send_to c m in ret tt) w = (tt, mkWorld (mux w) (log w ++ [EvDeliver c m])).
Proof. unfold bind, send_to, ret. by rewrite Hopen. Qed.

Lemma reply_is_no_signal msg :
  is_method_return msg || is_error msg = true ->
  is_signal msg = false /\ is_name_owner_changed msg = false.
Proof.
  unfold is_name_owner_changed, is_signal, is_method_return, is_error.
  destruct (msg_type msg); done.
Qed.

Lemma bind_run {A B} (m : M A) (k : A -> M B) w a w' : m w = (a, w') -> bind m k w = k a w'.
Proof. intros Hm. unfold bind. by rewrite Hm. Qed.

Lemma handle_reply_run msg route s w :
  reply_serial msg = Some s ->
  handle_reply msg route w
  = (Ok (fst <$> entry w route s),
     mkWorld (with_serial_map (sm_remove route s (serials_pending (mux w))).1 (mux w)) (log w)).
Proof.
  intros Hs. unfold handle_reply. rewrite Hs. unfold bind, update, sm_remove, ret, entry. cbn [fst].
  by destruct (pending (serials_pending (mux w)) !! _).
Qed.

(** The registration of a portal request changes the tracker only. *)
Lemma register_handle_run msg c w :
  exists p, (if negb (is_error msg) then
     match extract_request_handle msg with
     | Some request_path =>
         let! t := now in
         modify (fun s => with_portal (prt_register t request_path c (portal_requests s)) s)
     | None => ret tt
     end else ret tt) w = (tt, mkWorld (with_portal p (mux w)) (log w)).
Proof.
  assert (mkWorld (with_portal (portal_requests (mux w)) (mux w)) (log w) = w) as Hid
    by (by destruct w as [[]]).
  destruct (negb (is_error msg)); [| exists (portal_requests (mux w)); cbn [mbind option_bind]; by rewrite Hid].
  destruct (extract_request_handle msg); [by eexists | exists (portal_requests (mux w)); cbn [mbind option_bind]; by rewrite Hid].
Qed.

(** What becomes of a reply that answers an outstanding call. *)
Lemma reply_delivered msg route s c cs t u w :
  is_method_return msg || is_error msg = true -> reply_serial msg = Some s ->
  entry w route s = Some (c, cs, t) -> connected c u (mux w) ->
  let r := match clone_reply_with_serial msg cs with Ok m => m | Err _ => msg end in
  let w' := (handle_bus_message msg route w).2 in
  log w' = log w ++ [EvDeliver c r] /\ entry w' route s = None /\ clients (mux w') = clients (mux w).
Proof.
  intros Hty Hs He (info & Hi & _). destruct (reply_is_no_signal msg Hty) as [Hsig Hnoc].
  cbv zeta. unfold handle_bus_message. rewrite Hnoc, Hty, Hsig. unfold handle_bus_reply.
  pose proof (handle_reply_run msg route s w Hs) as Hr. rewrite He in Hr.
  set (w1 := mkWorld _ (log w)) in Hr.
  destruct (register_handle_run msg c w1) as [p Hp].
  set (w2 := mkWorld _ (log w1)) in Hp.
  set (r := match clone_reply_with_serial msg cs with Ok m => m | Err _ => msg end).
  erewrite bind_run; [| erewrite bind_run; [| exact Hr]; cbn [fmap option_fmap option_map fst];
    erewrite bind_run; [| exact Hp]; erewrite bind_run; [| reflexivity];
    change (clients (mux w2)) with (clients (mux w)); rewrite Hi; apply send_to_open].
  cbn [ret snd log mux]. split_and!; [done | | done].
  unfold entry. cbn. unfold serials_pending. by rewrite lookup_delete_eq.
Qed.

Lemma forward_sends_one c msg route w :
  (forward_method_call c msg route w).1 = Ok tt ->
  exists m, log (forward_method_call c msg route w).2 = log w ++ [EvSend route m].
Proof.
  destruct (forward_method_call c msg route w) as [r w'] eqn:Ef. cbn [fst snd]. intros ->.
  apply forward_spec in Ef. destruct (next (gen route w)) as [g fs].
  destruct Ef as (_ & _ & m & _ & Hlog & _). eauto.
Qed.

(** C5. A call and its reply, end to end: a call of a connected client to another
    service goes out on the bus its destination is routed to; whatever reply
    or error the bus then sends to the serial that went out is delivered to
    that client and nobody else, answering the client's own serial, with
    the other header fields, the signature and the body the bus sent; and the
    call is settled. *)
Theorem call_reply_roundtrip c u msg w :
  connected c u (mux w) -> is_method_call msg = true -> is_dbus_daemon_call msg = false ->
  (forall r, 0 <= counter (gen r w) < u32_modulus) ->
  let route := Routing.route_for (default "" (destination_str msg)) (table (mux w)) in
  (forward_method_call c msg route w).1 = Ok tt ->
  let w1 := (handle_client_message c msg w).2 in
  exists m, log w1 = log w ++ [EvSend route m] /\
  forall reply r,
    is_method_return reply || is_error reply = true -> reply_serial reply = Some (serial m) ->
    clone_reply_with_serial reply (serial msg) = Ok r ->
    let w2 := (handle_bus_message reply route w1).2 in
    log w2 = log w1 ++ [EvDeliver c r] /\ entry w2 route (serial m) = None /\
    msg_fields r = set_reply_serial (Some (serial msg)) (msg_fields reply) /\
    body_bytes r = body_bytes reply /\ signature r = signature reply.
Proof.
  intros Hc Hm Hd Hg route Hf. cbv zeta.
  assert ((handle_client_message c msg w).2 = (forward_method_call c msg route w).2) as ->.
  { unfold handle_client_message. rewrite Hd, Hm. cbn [andb].
    unfold bind, router_route_for, get. fold route.
    destruct (forward_method_call c msg route w) as [[[]|e] w1]; [done | done]. }
  destruct (forward_sends_one c msg route w Hf) as [m Hlog]. exists m. split; [done |].
  pose proof (forward_effect c msg route w (Hg route)) as He. pose proof (forward_frame c msg route w) as Hfr.
  destruct (forward_method_call c msg route w) as [r0 w1]. cbn [fst snd] in *. subst r0.
  destruct He as (evs & Hlog' & _ & m' & t & Hs & _ & _ & _ & _ & Hent).
  rewrite Hlog in Hlog'. apply app_inv_head in Hlog' as <-. injection Hs as <-.
  specialize (Hent route (serial m)). rewrite decide_True in Hent by done.
  intros reply r Hty Hrs Hcl.
  destruct (reply_delivered reply route (serial m) c (serial msg) t u w1 Hty Hrs Hent) as (H1 & H2 & _).
  { unfold connected. by rewrite Hfr. }
  rewrite Hcl in H1. split_and!; [done | done | | |]; by apply clone_reply_ok in Hcl as (? & ? & ?).
Qed.

(** A reply that nobody waits for goes nowhere. *)
Lemma reply_unclaimed msg route s w :
  is_method_return msg || is_error msg = true -> reply_serial msg = Some s -> entry w route s = None ->
  log (handle_bus_message msg route w).2 = log w.
Proof.
  intros Hty Hs He. destruct (reply_is_no_signal msg Hty) as [Hsig Hnoc].
  unfold handle_bus_message. rewrite Hnoc, Hty, Hsig. unfold handle_bus_reply.
  pose proof (handle_reply_run msg route s w Hs) as Hr. rewrite He in Hr.
  erewrite bind_run; [| erewrite bind_run; [| exact Hr]; reflexivity]. done.
Qed.

(** C38. Finding: the first reply on a bus that carries the serial of a call in
    flight is taken for its answer, whoever it answers: it is delivered to the caller
    with the caller's serial, and the next reply with that serial is
    delivered to nobody.  Serials of the multiplexer's own calls on the same
    connection come from another counter, so such a reply can be one to the
    multiplexer itself. *)
Theorem first_reply_settles r1 r2 route s c cs t u w :
  is_method_return r1 || is_error r1 = true -> is_method_return r2 || is_error r2 = true ->
  reply_serial r1 = Some s -> reply_serial r2 = Some s ->
  entry w route s = Some (c, cs, t) -> connected c u (mux w) ->
  log (run [InBus route (Ok (Some r1)); InBus route (Ok (Some r2))] w).2
  = log w ++ [EvDeliver c (match clone_reply_with_serial r1 cs with Ok m => m | Err _ => r1 end)].
Proof.
  intros H1 H2 Hs1 Hs2 He Hc.
  destruct (reply_delivered r1 route s c cs t u w H1 Hs1 He Hc) as (Hl & He1 & _).
  set (w1 := (handle_bus_message r1 route w).2) in *.
  pose proof (reply_unclaimed r2 route s w1 H2 Hs2 He1) as Hl2.
  cbn [run run_step]. unfold bind, ret. unfold w1 in *.
  destruct (handle_bus_message r1 route w) as [[] w']. cbn [snd] in *.
  destruct (handle_bus_message r2 route w') as [[] w'']. cbn [snd] in *. congruence.
Qed.

(** ** Signals *)

(** The client that waits for this Response signal. *)
Definition tracked (msg : Message) (s : Multiplexer) : option Z :=
  if is_portal_response_signal msg then
    path ← path_str msg; ppr_client_id <$> requests (portal_requests s) !! path
  else None.

(** The message carries the unique name of the multiplexer on that bus as its
    destination. *)
Definition addressed_to_mux (msg : Message) (route : Route) (s : Multiplexer) : Prop :=
  exists d, destination_str msg = Some d /\ bc_unique_name (conn route s) = Some d.

(** The client has a rule that asks for the message; what the rule says of the
    destination does not matter for a message to the multiplexer itself. *)
Definition wants (msg : Message) (route : Route) (s : Multiplexer) (info : ClientInfo) : Prop :=
  exists r, r ∈ rules (match_rules info) /\
    (rule_spec r msg \/ addressed_to_mux msg route s /\ rule_spec_no_destination r msg).

(** The argument filters of all rules are for arguments 0 to 63. *)
Definition parsed_rules (s : Multiplexer) : Prop :=
  forall c info r, clients s !! c = Some info -> r ∈ rules (match_rules info) -> rule_ok r.

Lemma is_unicast_to_mux_iff msg route s : is_unicast_to_mux msg route s = true <-> addressed_to_mux msg route s.
Proof.
  unfold is_unicast_to_mux, addressed_to_mux. destruct (destination_str msg) as [d|]; [| naive_solver].
  destruct route; (destruct (bc_unique_name _) as [n|]; [rewrite String.eqb_eq; naive_solver | naive_solver]).
Qed.

Lemma should_forward_iff msg route s c info :
  parsed_rules s -> clients s !! c = Some info ->
  should_forward msg (is_unicast_to_mux msg route s) info = true <-> wants msg route s info.
Proof.
  intros Hp Hi. unfold should_forward, wants, cmr_matches, cmr_matches_ignoring_destination.
  assert (forall r, r ∈ rules (match_rules info) ->
    (matches r msg = true <-> rule_spec r msg) /\
    (matches_ignoring_destination r msg = true <-> rule_spec_no_destination r msg)) as Hr.
  { intros r Hin. split; [apply matches_iff | apply matches_ignoring_destination_iff]; by eapply Hp. }
  destruct (is_unicast_to_mux msg route s) eqn:Hu.
  - apply is_unicast_to_mux_iff in Hu. rewrite existsb_exists. setoid_rewrite <- list_elem_of_In. split.
    + intros (r & Hin & Hm). exists r. split; [done |]. right. split; [done | by apply Hr].
    + intros (r & Hin & [[Hm _]|[_ Hm]]); exists r; (split; [done | by apply Hr]).
  - assert (~ addressed_to_mux msg route s) as Hn by (rewrite <- is_unicast_to_mux_iff; by rewrite Hu).
    rewrite existsb_exists. setoid_rewrite <- list_elem_of_In. split.
    + intros (r & Hin & Hm). exists r. split; [done |]. left. by apply Hr.
    + intros (r & Hin & [Hm|[? _]]); [| done]. exists r. split; [done | by apply Hr].
Qed.

Definition rewritten (msg : Message) (s : Multiplexer) (info : ClientInfo) : Message :=
  match clone_portal_response_signal msg (default "" (bc_unique_name (conn Host s))) (unique_name info) with
  | Ok m => m
  | Err _ => msg
  end.

Lemma forward_signal_run msg unicast cs order w :
  forward_signal msg unicast cs order w =
  (tt, mkWorld (mux w) (log w ++ ((fun c => EvDeliver c msg) <$>
     List.filter (fun c => match cs !! c with
                           | Some info => should_forward msg unicast info
                           | None => false end) order))).
Proof.
  revert w. induction order as [|c order IH]; intros w; cbn [forward_signal List.filter].
  - unfold ret. rewrite app_nil_r. by destruct w.
  - destruct (cs !! c) as [info|]; [destruct (should_forward msg unicast info) |].
    + erewrite bind_run; [| apply send_to_open]. rewrite IH. cbn [mux log fmap list_fmap].
      by rewrite <- app_assoc.
    + erewrite bind_run; [| reflexivity]. apply IH.
    + erewrite bind_run; [| reflexivity]. apply IH.
Qed.

Lemma handle_portal_response_run msg w :
  exists p, handle_portal_response msg w =
    (bool_decide (is_Some (tracked msg (mux w))),
     mkWorld (with_portal p (mux w)) (log w ++
       match tracked msg (mux w) with
       | Some c => match clients (mux w) !! c with
                   | Some info => [EvDeliver c (rewritten msg (mux w) info)]
                   | None => []
                   end
       | None => []
       end)).
Proof.
  unfold handle_portal_response, tracked.
  assert (mkWorld (with_portal (portal_requests (mux w)) (mux w)) (log w ++ []) = w) as Hid
    by (rewrite app_nil_r; by destruct w as [[]]).
  destruct (is_portal_response_signal msg); [| exists (portal_requests (mux w)); cbn [mbind option_bind]; by rewrite Hid].
  destruct (path_str msg) as [path|]; [| exists (portal_requests (mux w)); cbn [mbind option_bind]; by rewrite Hid].
  exists (lookup_and_remove path (portal_requests (mux w))).1.
  erewrite bind_run; [| reflexivity]. cbn [mbind option_bind].
  destruct (requests (portal_requests (mux w)) !! path) as [[c t]|] eqn:Ep;
    cbn [fmap option_fmap option_map ppr_client_id].
  2:{ unfold ret. rewrite app_nil_r. done. }
  erewrite bind_run; [| reflexivity]. cbn [mux clients with_portal].
  destruct (clients (mux w) !! c) as [info|] eqn:Ec.
  - erewrite bind_run; [| erewrite bind_run; [| reflexivity]; apply send_to_open]. done.
  - erewrite bind_run; [| reflexivity]. unfold ret. by rewrite app_nil_r.
Qed.

(** C11. Signals of the buses reach exactly the clients they are for: a Response
    signal for a tracked portal request goes to the client that made the
    request, once, rewritten for it, or to nobody when that client has left;
    every other signal but NameOwnerChanged goes unchanged, once each, to the
    connected clients that have a rule all of whose filters accept it
    ([rule_spec], which says what each filter asks of a message), and to no
    other; for a signal addressed to the multiplexer itself the destination
    filter of the rule does not count.  Nothing is sent to a bus, and the clients
    stay as they are.  The channels of the clients are open, and the rules of
    clients come from [parse], as they do in every state that is reached
    ([MuxInv.reachable_rules_parsed]). *)
Theorem signal_delivery_exact {EL : EnvLaws} msg route w :
  is_signal msg = true -> is_name_owner_changed msg = false -> parsed_rules (mux w) ->
  let w' := (handle_bus_message msg route w).2 in
  clients (mux w') = clients (mux w) /\
  exists evs, log w' = log w ++ evs /\ sends evs = [] /\
    match tracked msg (mux w) with
    | Some c =>
        deliveries evs = match clients (mux w) !! c with
                         | Some info => [(c, rewritten msg (mux w) info)]
                         | None => []
                         end
    | None =>
        NoDup (deliveries evs) /\
        forall c m, (c, m) ∈ deliveries evs <->
          m = msg /\ exists info, clients (mux w) !! c = Some info /\ wants msg route (mux w) info
    end.
Proof.
  intros Hsig Hnoc Hparsed. cbv zeta. unfold handle_bus_message. rewrite Hnoc, Hsig.
  assert (is_method_return msg || is_error msg = false) as ->.
  { unfold is_method_return, is_error, is_signal in *. by destruct (msg_type msg). }
  erewrite bind_run; [| reflexivity]. unfold handle_bus_signal.
  destruct (handle_portal_response_run msg w) as [p Hp].
  erewrite bind_run; [| exact Hp]. destruct (tracked msg (mux w)) as [c|] eqn:Et.
  - rewrite bool_decide_eq_true_2 by eauto. split; [done |]. eexists. split; [done |].
    by destruct (clients (mux w) !! c).
  - rewrite bool_decide_eq_false_2 by (by intros [? ?]).
    erewrite bind_run; [| reflexivity]. erewrite bind_run; [| reflexivity].
    rewrite forward_signal_run. cbn [snd mux log clients with_portal].
    split; [done |]. eexists. split; [by rewrite app_nil_r |].
    set (P := fun c => match clients (mux w) !! c with Some info => _ | None => _ end).
    assert (forall l, sends ((fun c => EvDeliver c msg) <$> l) = [] /\
      deliveries ((fun c => EvDeliver c msg) <$> l) = (fun c => (c, msg)) <$> l) as Hmap.
    { induction l as [|x l [IH1 IH2]]; [done |]. split; [done |].
      cbn [fmap list_fmap deliveries omap list_omap]. by f_equal. }
    split; [apply Hmap |]. rewrite (proj2 (Hmap _)). split.
    + apply (NoDup_fmap_2 _). apply NoDup_ListNoDup, List.NoDup_filter, NoDup_ListNoDup.
      rewrite (clients_order_all (clients (mux w))). apply NoDup_elements.
    + intros c m. rewrite list_elem_of_fmap. setoid_rewrite list_elem_of_In. setoid_rewrite filter_In.
      setoid_rewrite <- list_elem_of_In. setoid_rewrite (clients_order_all (clients (mux w))).
      setoid_rewrite elem_of_elements. unfold P. split.
      * intros (d & [= -> ->] & Hd & Hw). split; [done |]. destruct (clients (mux w) !! d) as [info|] eqn:Hi; [| done].
        exists info. split; [done |]. by apply (should_forward_iff _ _ _ d).
      * intros (-> & info & Hi & Hw). exists c. split_and!; [done | by apply elem_of_dom_2 in Hi |].
        rewrite Hi. by apply (should_forward_iff _ _ _ c).
Qed.

End Bus.

(** ** What is not passed on *)

Section Dropped.
Context {ZB : Zbus} {E : Env}.

(** A NameOwnerChanged signal updates the routing table as its bus and its
    arguments say and has no other effect: no client gets it, not even one
    with a rule that matches it. *)
Lemma name_owner_changed_not_delivered msg route w name old new :
  is_name_owner_changed msg = true -> parse_name_owner_changed msg = Ok (name, old, new) ->
  (handle_bus_message msg route w).2
  = mkWorld (with_table (apply_change (table (mux w)) (mkNameOwnerChange route name old new)) (mux w))
      (log w).
Proof.
  intros Hn Hp. unfold handle_bus_message. rewrite Hn, Hp. by destruct route.
Qed.

(** C40. The multiplexer passes method calls only in one direction: a method call
    that a bus delivers to it (for a name it holds for a client) and a
    signal, reply or error that a client sends are dropped without effect, so
    a service behind the multiplexer can neither be called nor answer. *)
Theorem services_unreachable msg w :
  (is_method_call msg = true -> forall route, (handle_bus_message msg route w).2 = w) /\
  (is_method_call msg = false -> forall c, (handle_client_message c msg w).2 = w).
Proof.
  split.
  - intros Hm route. unfold handle_bus_message, is_name_owner_changed, is_method_return, is_error, is_signal,
      is_method_call in *. by destruct (msg_type msg).
  - intros Hm c. unfold handle_client_message. by rewrite Hm, andb_false_r.
Qed.

End Dropped.

(** ** Witnesses *)

Section Witnesses.
#[local] Existing Instance SimpleZbus.
#[local] Existing Instance SimpleZbusLaws.
#[local] Existing Instance SimpleEnv.

Definition ex_info : ClientInfo :=
  mkClientInfo ":mux.1" ∅ (mkClientMatchRules [set_type "signal" (empty_rule "type='signal'")])
    (mkClientCredentials 1000 (Some 42) 1000).

Definition ex_world : World := mkWorld (with_clients {[1 := ex_info]} s_mux) [].

Definition ex_daemon_call : Message :=
  s_call ":mux.1" 5 "org.freedesktop.DBus" "RequestName" (s_str_u32 "org.a" 0).

Lemma ex_connected : connected 1 ":mux.1" (mux ex_world).
Proof. by exists ex_info. Qed.

Lemma ex_gens r : 0 <= counter (gen r ex_world) < u32_modulus.
Proof. by destruct r. Qed.

Lemma ex_answerable msg : answerable 1 ":mux.1" msg.
Proof. by split. Qed.

Definition ex_forwarded : Message := s_call ":mux.1" 5 "org.a" "Frob" s_unit.

Lemma call_answered_or_forwarded_witness :
  (exists evs, log (handle_client_message 1 ex_daemon_call ex_world).2 = [] ++ evs /\
    answered 1 ":mux.1" ex_daemon_call evs) /\
  exists evs, log (handle_client_message 1 ex_forwarded ex_world).2 = [] ++ evs /\
    forwarded 1 Host ex_forwarded ex_world (handle_client_message 1 ex_forwarded ex_world).2 evs.
Proof.
  split.
  - exact (call_answered_or_forwarded 1 ":mux.1" ex_daemon_call ex_world ex_connected
      (ex_answerable _) eq_refl ex_gens).
  - destruct (call_answered_or_forwarded 1 ":mux.1" ex_forwarded ex_world ex_connected
      (ex_answerable _) eq_refl ex_gens) as (evs & Hl & [Hf|[_ [e He]]]); [by exists evs | done].
Defined.

Lemma call_reply_roundtrip_witness :
  exists m, log (handle_client_message 1 ex_forwarded ex_world).2 = [] ++ [EvSend Host m] /\
  forall reply r,
    is_method_return reply || is_error reply = true -> reply_serial reply = Some (serial m) ->
    clone_reply_with_serial reply 5 = Ok r ->
    let w1 := (handle_client_message 1 ex_forwarded ex_world).2 in
    let w2 := (handle_bus_message reply Host w1).2 in
    log w2 = log w1 ++ [EvDeliver 1 r] /\ entry w2 Host (serial m) = None /\
    msg_fields r = set_reply_serial (Some 5) (msg_fields reply) /\
    body_bytes r = body_bytes reply /\ signature r = signature reply.
Proof.
  exact (call_reply_roundtrip (fun _ _ _ => eq_refl) 1 ":mux.1" ex_forwarded ex_world ex_connected
    eq_refl eq_refl ex_gens eq_refl).
Defined.

(** Two replies to serial 1: to a call the multiplexer made itself, and to the client's. *)
Lemma first_reply_settles_witness :
  let w := (handle_client_message 1 ex_forwarded ex_world).2 in
  deliveries (drop (length (log w)) (log (run
    [InBus Host (Ok (Some (s_reply 1 1 (s_str "mux")))); InBus Host (Ok (Some (s_reply 2 1 (s_str "client"))))] w).2))
  = [(1, s_reply 1 5 (s_str "mux"))].
Proof.
  cbv zeta. rewrite (first_reply_settles (E := SimpleEnv) (fun _ _ _ => eq_refl) (s_reply 1 1 (s_str "mux")) (s_reply 2 1 (s_str "client"))
    Host 1 1 5 1 ":mux.1" (handle_client_message 1 ex_forwarded ex_world).2); [| try reflexivity ..].
  - vm_compute. reflexivity.
  - by exists ex_info.
Defined.

Definition ex_plain_signal : Message := s_signal "org.a" "Changed" "/a" None (s_str "x").

Lemma ex_parsed_rules : parsed_rules (mux ex_world).
Proof.
  intros c info r. cbn. intros [_ <-]%lookup_singleton_Some. cbn. intros ->%list_elem_of_singleton. apply empty_rule_ok.
Qed.

Lemma signal_delivery_exact_witness :
  let w' := (handle_bus_message ex_plain_signal Host ex_world).2 in
  clients (mux w') = clients (mux ex_world) /\
  exists evs, log w' = [] ++ evs /\ sends evs = [] /\ NoDup (deliveries evs) /\
    forall c m, (c, m) ∈ deliveries evs <->
      m = ex_plain_signal /\ exists info, clients (mux ex_world) !! c = Some info /\
        wants ex_plain_signal Host (mux ex_world) info.
Proof.
  exact (signal_delivery_exact (EL := env_with_laws _) (fun _ _ _ => eq_refl)
    ex_plain_signal Host ex_world eq_refl eq_refl ex_parsed_rules).
Defined.

Lemma name_owner_changed_not_delivered_witness :
  log (handle_bus_message ex_signal Host ex_world).2 = [] /\
  cmr_matches (match_rules ex_info) ex_signal = true.
Proof.
  split; [| reflexivity].
  rewrite (name_owner_changed_not_delivered ex_signal Host ex_world "org.kde.a" "" ":1.7" eq_refl eq_refl).
  reflexivity.
Defined.

End Witnesses.
