(* ===== verification/MuxRules.v ===== *)
(** * Match rules through the multiplexer

    The rules of the connected clients stay installed on both buses, over every
    run of the multiplexer; and what becomes of a rule that a client adds
    twice. *)

From S2P Require Import Prelude RustStr Zbus SimpleZbus Errors Message Routing NameQueue SerialMap MatchRules MatchRuleProofs Portal World SimpleEnv Router Multiplexer.
From Stdlib Require Import Ascii.

#[local] Open Scope Z_scope.

(** ** Users of a rule *)

Definition uses (rule : string) (i : ClientInfo) : Prop := rule ∈ rule_strings (match_rules i).

#[export] Instance uses_dec rule i : Decision (uses rule i).
Proof. unfold uses. apply _. Defined.

Definition use_count (rule : string) (i : ClientInfo) : Z := if decide (uses rule i) then 1 else 0.

Lemma use_count_ext rule i j : match_rules i = match_rules j -> use_count rule i = use_count rule j.
Proof.
  intros Hij. assert (uses rule i <-> uses rule j) by (unfold uses; by rewrite Hij).
  unfold use_count. repeat case_decide; naive_solver.
Qed.

(** How many clients have the rule. *)
Definition users (rule : string) (cs : gmap Z ClientInfo) : Z :=
  Z.of_nat (size (filter (fun kv => uses rule kv.2) cs)).

Lemma users_insert rule c i cs :
  cs !! c = None -> users rule (<[c := i]> cs) = use_count rule i + users rule cs.
Proof.
  intros Hc. unfold users, use_count. destruct (decide (uses rule i)).
  - rewrite map_filter_insert_True, map_size_insert_None; [lia | | done].
    apply map_lookup_filter_None. auto.
  - rewrite map_filter_insert_False, delete_id by done. lia.
Qed.

Lemma users_delete rule c i cs :
  cs !! c = Some i -> users rule cs = use_count rule i + users rule (delete c cs).
Proof.
  intros Hc. rewrite <- (insert_delete_id cs c i) at 1 by done. apply users_insert, lookup_delete_eq.
Qed.

Lemma users_set rule c i j cs :
  cs !! c = Some i -> users rule (<[c := j]> cs) = use_count rule j - use_count rule i + users rule cs.
Proof.
  intros Hc. rewrite (users_delete rule c i cs) by done.
  rewrite <- insert_delete_eq, users_insert by apply lookup_delete_eq. lia.
Qed.

Lemma users_nonneg rule cs : 0 <= users rule cs.
Proof. unfold users. lia. Qed.

(** Only the rules of the clients count. *)
Lemma users_ext rule cs cs' :
  (forall c, match_rules <$> cs' !! c = match_rules <$> cs !! c) -> users rule cs' = users rule cs.
Proof.
  intros Hc. assert (match_rules <$> cs' = match_rules <$> cs) as Hm.
  { apply map_eq. intros c. by rewrite !lookup_fmap. }
  assert (forall m : gmap Z ClientInfo, users rule m
    = Z.of_nat (size (filter (fun kv : Z * ClientMatchRules => rule ∈ rule_strings kv.2) (match_rules <$> m)))) as Hu.
  { intros m. unfold users. rewrite map_filter_fmap, map_size_fmap. done. }
  by rewrite !Hu, Hm.
Qed.

Lemma use_count_range rule i : 0 <= use_count rule i <= 1.
Proof. unfold use_count. case_decide; lia. Qed.

(** ** What the buses carry *)

Section Net.
Context {ZB : Zbus}.

Definition net1 (route : Route) (rule : string) (e : Event) : Z :=
  match e with
  | EvCall r (CallAddMatch x) => if decide ((r, x) = (route, rule)) then 1 else 0
  | EvCall r (CallRemoveMatch x) => if decide ((r, x) = (route, rule)) then -1 else 0
  | _ => 0
  end.

(** AddMatch minus RemoveMatch calls for [rule] on [route]: how often the bus
    daemon has the rule for the multiplexer's connection. *)
Definition net (route : Route) (rule : string) (evs : list Event) : Z :=
  foldr (fun e n => net1 route rule e + n) 0 evs.

Lemma net_app route rule l1 l2 : net route rule (l1 ++ l2) = net route rule l1 + net route rule l2.
Proof. induction l1 as [|e l1 IH]; simpl; [done |]. unfold net in *. simpl. rewrite IH. lia. Qed.

Lemma bus_key_inj r r' : bus_key r = bus_key r' -> r = r'.
Proof. by destruct r, r'. Qed.

(** ** Steps that have nothing to do with match rules *)

Context {E : Env}.

Definition referenced (route : Route) (rule : string) (s : Multiplexer) : nat :=
  count_of (match_rule_refcount s) (bus_key route, rule).

(** The same references, the same rules of the same clients, and no call about
    a rule in between. *)
Record same_rules (w w' : World) : Prop := mkSameRules {
  sr_counts : match_rule_refcount (mux w') = match_rule_refcount (mux w);
  sr_clients c : match_rules <$> clients (mux w') !! c = match_rules <$> clients (mux w) !! c;
  sr_log : exists evs, log w' = log w ++ evs /\ forall route rule, net route rule evs = 0;
}.

#[export] Instance same_rules_preorder : PreOrder same_rules.
Proof.
  split.
  - intros w. split; [done | done |]. exists []. by rewrite app_nil_r.
  - intros w1 w2 w3 [H1 H2 (e1 & L1 & N1)] [K1 K2 (e2 & L2 & N2)]. split; [congruence | by intros c; rewrite K2 |].
    exists (e1 ++ e2). split; [by rewrite L2, L1, app_assoc |]. intros r x. by rewrite net_app, N1, N2.
Qed.

Definition keeps {A} (m : M A) : Prop := forall w, same_rules w (m w).2.

Lemma keeps_ret {A} (a : A) : keeps (ret a).
Proof. by intros w. Qed.

Lemma keeps_get {A} (f : Multiplexer -> A) : keeps (get f).
Proof. by intros w. Qed.

Lemma keeps_bind {A B} (m : M A) (k : A -> M B) :
  keeps m -> (forall a, keeps (k a)) -> keeps (bind m k).
Proof.
  intros Hm Hk w. unfold bind. specialize (Hm w). destruct (m w) as [a w1]. etrans; [exact Hm | apply Hk].
Qed.

(** A change of the log without match rules. *)
Lemma same_rules_log s l evs :
  (forall route rule, net route rule evs = 0) -> same_rules (mkWorld s l) (mkWorld s (l ++ evs)).
Proof. intros Hn. split; [done | done |]. by exists evs. Qed.

Lemma keeps_call route req :
  match req with CallAddMatch _ | CallRemoveMatch _ => False | _ => True end ->
  keeps (call_method route req).
Proof.
  intros Hr [s l]. apply same_rules_log. intros r rule. unfold net. simpl. by destruct req.
Qed.

Lemma keeps_send c msg : keeps (send_to c msg).
Proof. intros [s l]. unfold send_to. case_match; [by apply same_rules_log | done]. Qed.

Lemma keeps_emit e : (forall route rule, net1 route rule e = 0) -> keeps (emit e).
Proof. intros He [s l]. apply same_rules_log. intros r rule. unfold net. simpl. by rewrite He. Qed.

Lemma keeps_now : keeps now.
Proof. by intros w. Qed.

(** A change of the state alone. *)
Lemma same_rules_mux s s' l :
  match_rule_refcount s' = match_rule_refcount s ->
  (forall c, match_rules <$> clients s' !! c = match_rules <$> clients s !! c) ->
  same_rules (mkWorld s l) (mkWorld s' l).
Proof. intros Hr Hc. split; [done | done |]. exists []. by rewrite app_nil_r. Qed.

Lemma keeps_modify f :
  (forall s, clients (f s) = clients s /\ match_rule_refcount (f s) = match_rule_refcount s) ->
  keeps (modify f).
Proof. intros Hf [s l]. destruct (Hf s) as [Hc Hr]. apply same_rules_mux; [done | by rewrite <- Hc]. Qed.

Lemma keeps_update {S A} (read : Multiplexer -> S) write (f : S -> S * A) :
  (forall x s, clients (write x s) = clients s /\
     match_rule_refcount (write x s) = match_rule_refcount s) ->
  keeps (update read write f).
Proof.
  intros Hf [s l]. unfold update. cbn [mux log]. destruct (f (read s)) as [x a].
  destruct (Hf x s) as [Hc Hr]. apply same_rules_mux; [done | by rewrite <- Hc].
Qed.

Lemma keeps_table f : keeps (update_table f).
Proof. by apply keeps_modify. Qed.

(** A change of a client that does not touch its rules. *)
Lemma keeps_client c f :
  (forall i, match_rules (f i) = match_rules i) -> keeps (update_client c f).
Proof.
  intros Hf [s l]. apply same_rules_mux; [done |]. intros c'. cbn [clients with_clients mux].
  destruct (decide (c = c')) as [->|Hne]; [| by rewrite lookup_alter_ne].
  rewrite lookup_alter_eq. destruct (clients s !! c') as [i|]; [| done]. simpl. by rewrite Hf.
Qed.

Lemma keeps_conn_send route msg : keeps (conn_send route msg).
Proof.
  intros [s l]. unfold conn_send. case_match; [by apply same_rules_log | done].
Qed.

End Net.

Ltac keep :=
  repeat first
    [ done
    | apply keeps_ret
    | apply keeps_get
    | apply keeps_now
    | apply keeps_send
    | apply keeps_conn_send
    | apply keeps_table
    | apply keeps_call; done
    | apply keeps_update; done
    | apply keeps_client; done
    | apply keeps_modify; done
    | apply keeps_bind; [| intros ?]
    | case_match ].

Section Rules.
Context {ZB : Zbus} {E : Env} (l0 : list Event).

(** ** The invariant *)

(** References and installed rules agree, and the references to a rule are its
    users and [slack] more. *)
Record rules_inv (slack : Route -> string -> Z) (w : World) : Prop := mkRulesInv {
  ri_counts : counts_ok (match_rule_refcount (mux w));
  ri_nodup c info : clients (mux w) !! c = Some info -> NoDup (rule_strings (match_rules info));
  ri_net : exists evs, log w = l0 ++ evs /\ forall route rule,
    net route rule evs = if decide (0 < referenced route rule (mux w))%nat then 1 else 0;
  ri_users route rule :
    users rule (clients (mux w)) + slack route rule = Z.of_nat (referenced route rule (mux w));
}.

Lemma same_rules_nodup w w' :
  same_rules w w' ->
  (forall c i, clients (mux w) !! c = Some i -> NoDup (rule_strings (match_rules i))) ->
  forall c i, clients (mux w') !! c = Some i -> NoDup (rule_strings (match_rules i)).
Proof.
  intros [_ Hc _] Hn c i Hi. specialize (Hc c). rewrite Hi in Hc.
  destruct (clients (mux w) !! c) as [j|] eqn:Hj; [| done]. injection Hc as ->. by eapply Hn.
Qed.

Lemma rules_inv_same slack w w' : same_rules w w' -> rules_inv slack w -> rules_inv slack w'.
Proof.
  intros Hs [H1 H2 (evs0 & Hl & Hnet) H4]. pose proof (same_rules_nodup _ _ Hs H2) as H2'.
  destruct Hs as [Hr Hc (evs & Hl' & Hn)]. split; unfold referenced in *; rewrite ?Hr; [done | done | |].
  - exists (evs0 ++ evs). split; [by rewrite Hl', Hl, app_assoc |]. intros route rule.
    rewrite net_app, Hnet, Hn. lia.
  - intros route rule. by rewrite (users_ext rule _ _ Hc).
Qed.

Lemma rules_inv_keeps {A} (m : M A) slack w : keeps m -> rules_inv slack w -> rules_inv slack (m w).2.
Proof. intros Hm. apply rules_inv_same, Hm. Qed.

(** ** References taken and dropped *)

Definition shift (slack : Route -> string -> Z) (route : Route) (rule : string) (d : Z)
    : Route -> string -> Z :=
  fun r x => if decide ((r, x) = (route, rule)) then slack r x + d else slack r x.

Lemma key_eq r (x : string) route rule : (bus_key r, x) = (bus_key route, rule) <-> (r, x) = (route, rule).
Proof. split; [intros [= ?%bus_key_inj ->]; congruence | by intros [= -> ->]]. Qed.

(** A change of the reference counts, with the calls it leads to. *)
Lemma rules_inv_refcount slack slack' w rc evs :
  rules_inv slack w -> counts_ok rc ->
  (forall r x, net r x evs
     = (if decide (0 < count_of rc (bus_key r, x))%nat then 1 else 0)
       - (if decide (0 < referenced r x (mux w))%nat then 1 else 0)) ->
  (forall r x, slack' r x - slack r x
     = Z.of_nat (count_of rc (bus_key r, x)) - Z.of_nat (referenced r x (mux w))) ->
  rules_inv slack' (mkWorld (with_refcount rc (mux w)) (log w ++ evs)).
Proof.
  intros [H1 H2 (evs0 & Hl & Hnet) H4] Hok Hn Hs.
  split; cbn [mux log match_rule_refcount with_refcount clients]; try done.
  - exists (evs0 ++ evs). rewrite Hl, <- app_assoc. split; [done |]. intros r x.
    rewrite net_app, Hnet, Hn. unfold referenced. cbn [match_rule_refcount with_refcount]. lia.
  - intros r x. specialize (H4 r x). specialize (Hs r x). unfold referenced in *.
    cbn [match_rule_refcount with_refcount] in *. lia.
Qed.

Lemma add_upstream_inv slack w route rule :
  rules_inv slack w -> rules_inv (shift slack route rule 1) (add_upstream route rule w).2.
Proof.
  intros Hw. pose proof (increment_spec (bus_key route) rule _ (ri_counts _ _ Hw)) as Hi.
  unfold add_upstream, bind, update, ret.
  destruct (increment (bus_key route) rule (match_rule_refcount (mux w))) as [rc first].
  destruct Hi as (Hok & -> & Hc).
  set (evs := if bool_decide (referenced route rule (mux w) = 0%nat)
              then [EvCall route (CallAddMatch rule)] else []).
  assert (rules_inv (shift slack route rule 1) (mkWorld (with_refcount rc (mux w)) (log w ++ evs))) as Hgoal.
  { apply (rules_inv_refcount slack); [done | done | |]; intros r x; unfold shift; rewrite Hc;
      rewrite (decide_ext _ _ _ _ (key_eq r x route rule)); fold (referenced r x (mux w)); unfold evs.
    - case_bool_decide; unfold net; simpl; repeat case_decide; simplify_eq; lia || congruence.
    - case_decide; lia. }
  unfold evs in Hgoal. fold (referenced route rule (mux w)).
  case_bool_decide; cbn [call_method snd]; [done |]. by rewrite app_nil_r in Hgoal.
Qed.

Lemma remove_upstream_inv slack w route rule :
  rules_inv slack w -> 0 < slack route rule ->
  rules_inv (shift slack route rule (-1)) (remove_upstream route rule w).2.
Proof.
  intros Hw Hpos. pose proof (users_nonneg rule (clients (mux w))) as Hu. pose proof (decrement_spec (bus_key route) rule _ (ri_counts _ _ Hw)) as Hi.
  pose proof (ri_users _ _ Hw route rule) as Hus.
  unfold remove_upstream, bind, update, ret.
  destruct (decrement (bus_key route) rule (match_rule_refcount (mux w))) as [rc last].
  destruct Hi as (Hok & -> & Hc).
  set (evs := if bool_decide (referenced route rule (mux w) = 1%nat)
              then [EvCall route (CallRemoveMatch rule)] else []).
  assert (rules_inv (shift slack route rule (-1)) (mkWorld (with_refcount rc (mux w)) (log w ++ evs))) as Hgoal.
  { apply (rules_inv_refcount slack); [done | done | |]; intros r x; unfold shift; rewrite Hc;
      rewrite (decide_ext _ _ _ _ (key_eq r x route rule)); fold (referenced r x (mux w)); unfold evs.
    - case_bool_decide; unfold net; simpl; repeat case_decide; simplify_eq; lia || congruence.
    - case_decide; simplify_eq; lia. }
  unfold evs in Hgoal. fold (referenced route rule (mux w)).
  case_bool_decide; cbn [call_method snd]; [done |]. by rewrite app_nil_r in Hgoal.
Qed.

Lemma rules_inv_ext slack slack' w :
  (forall r x, slack' r x = slack r x) -> rules_inv slack w -> rules_inv slack' w.
Proof.
  intros Hs [H1 H2 H3 H4]. split; try done. intros r x. specialize (H4 r x). specialize (Hs r x). lia.
Qed.

(** A client's rules change. *)
Lemma rules_inv_client slack slack' c info info' w :
  rules_inv slack w -> clients (mux w) !! c = Some info -> NoDup (rule_strings (match_rules info')) ->
  (forall r x, use_count x info' - use_count x info = slack r x - slack' r x) ->
  rules_inv slack' (mkWorld (with_clients (<[c := info']> (clients (mux w))) (mux w)) (log w)).
Proof.
  intros [H1 H2 H3 H4] Hc Hnd Hs. split; cbn [mux log clients with_clients match_rule_refcount]; try done.
  - intros c' i. rewrite lookup_insert_Some. intros [[-> <-]|[_ Hi]]; [done | by eapply H2].
  - intros r x. rewrite (users_set x c info) by done. specialize (H4 r x). specialize (Hs r x).
    unfold referenced in *. cbn [match_rule_refcount with_clients]. lia.
Qed.

(** ** The rules of one client *)

Lemma process_pair_string k v r r' : process_pair k v r = Ok r' -> rule_string r' = rule_string r.
Proof.
  unfold process_pair, arg_path_slice. intros Hp.
  repeat (case_match; [by simplify_eq |]).
  destruct (starts_with k "arg" && ends_with k "path");
    [| destruct (starts_with k "arg"); [| by simplify_eq]];
    destruct (arg_index k _); by simplify_eq/=.
Qed.

Lemma parse_loop_string fuel rem r r' : parse_loop fuel rem r = Some (Ok r') -> rule_string r' = rule_string r.
Proof.
  revert rem r. induction fuel as [|fuel IH]; intros rem r Hp; [done |]. cbn [parse_loop] in Hp.
  destruct (is_empty rem); [by simplify_eq |].
  set (rem' := if starts_with (trim_start rem) "," then _ else _) in *.
  destruct (is_empty rem'); [by simplify_eq |].
  destruct (parse_pair rem') as [[[k v] rest]|e]; [| done].
  destruct (process_pair k v r) as [r1|e] eqn:E1; [| done].
  apply IH in Hp. by apply process_pair_string in E1 as <-.
Qed.

Lemma parse_rule_string rule r : parse rule = Ok r -> rule_string r = rule.
Proof.
  unfold parse. case_match; [by intros [= <-] |].
  destruct (parse_loop _ _ _) as [res|] eqn:Ep; [| done]. simpl. intros ->.
  by apply parse_loop_string in Ep.
Qed.

Definition add_rule (r : MatchRule) (i : ClientInfo) : ClientInfo :=
  with_match_rules (cmr_add r (match_rules i)) i.

Definition remove_rule (rule : string) (i : ClientInfo) : ClientInfo :=
  with_match_rules (cmr_remove rule (match_rules i)).1 i.

Lemma uses_add x r i : uses x (add_rule r i) <-> x = rule_string r \/ uses x i.
Proof.
  unfold uses, add_rule. cbn [match_rules with_match_rules]. rewrite cmr_add_strings.
  case_bool_decide as Hin.
  - split; [by right | by intros [->|Hx]].
  - rewrite elem_of_app, list_elem_of_singleton. tauto.
Qed.

Lemma uses_remove x rule i : uses x (remove_rule rule i) <-> x <> rule /\ uses x i.
Proof.
  unfold uses, remove_rule. cbn [match_rules with_match_rules].
  by rewrite cmr_remove_strings, list_elem_of_filter.
Qed.

Lemma use_count_add x r i :
  use_count x (add_rule r i) = if decide (x = rule_string r) then 1 else use_count x i.
Proof.
  unfold use_count. pose proof (uses_add x r i).
  destruct (decide (x = rule_string r)), (decide (uses x (add_rule r i))), (decide (uses x i)); tauto.
Qed.

Lemma use_count_remove x rule i :
  use_count x (remove_rule rule i) = if decide (x = rule) then 0 else use_count x i.
Proof.
  unfold use_count. pose proof (uses_remove x rule i).
  destruct (decide (x = rule)), (decide (uses x (remove_rule rule i))), (decide (uses x i)); tauto.
Qed.

(** ** The handlers *)

Lemma keeps_reply c msg body : keeps (send_reply_to_client c msg body).
Proof. unfold send_reply_to_client. keep. Qed.

Lemma keeps_error c msg name text : keeps (send_error_to_client c msg name text).
Proof. unfold send_error_to_client. keep. Qed.

Lemma keeps_with_body t c msg k : (forall v, keeps (k v)) -> keeps (with_body t c msg k).
Proof. intros Hk. unfold with_body. case_match; [done | apply keeps_error]. Qed.

Lemma keeps_forward c msg route : keeps (forward_method_call c msg route).
Proof.
  unfold forward_method_call. apply keeps_bind.
  { unfold next_serial. apply keeps_update. intros x s. by destruct route. }
  intros fs. keep.
Qed.

Lemma keeps_handle_reply msg route : keeps (handle_reply msg route).
Proof. unfold handle_reply. keep. Qed.

Lemma keeps_find name : keeps (find_client_credentials name).
Proof. unfold find_client_credentials. keep. Qed.

Ltac keep_handler :=
  repeat first
    [ apply keeps_reply | apply keeps_error | apply keeps_forward | apply keeps_handle_reply
    | apply keeps_find
    | apply keeps_with_body; intros ? | progress keep ].

Lemma keeps_client_method c msg :
  default "" (member_str msg) <> "AddMatch" -> default "" (member_str msg) <> "RemoveMatch" ->
  keeps (handle_dbus_method c msg).
Proof.
  intros Ha Hr. unfold handle_dbus_method.
  rewrite (proj2 (String.eqb_neq _ "AddMatch") Ha), (proj2 (String.eqb_neq _ "RemoveMatch") Hr).
  unfold handle_hello, handle_request_name, request_name_as, request_on_bus, handle_release_name, handle_list_names,
    handle_list_activatable_names, list_activatable_names, handle_get_name_owner, get_name_owner,
    handle_name_has_owner, handle_get_id, handle_ping, handle_get_machine_id,
    handle_get_connection_unix_user, handle_get_connection_unix_process_id,
    handle_get_connection_credentials, handle_list_queued_owners, handle_introspect, handle_get_all.
  repeat (case_match; [keep_handler |]). keep_handler.
Qed.

Lemma keeps_forward_signal msg unicast cs order : keeps (forward_signal msg unicast cs order).
Proof.
  induction order as [|c order IH]; cbn [forward_signal]; [keep |]. apply keeps_bind; [keep | done].
Qed.

Lemma keeps_bus_message msg route : keeps (handle_bus_message msg route).
Proof.
  unfold handle_bus_message. case_match; [keep |]. apply keeps_bind.
  { case_match; [| keep]. unfold handle_bus_reply. keep_handler. }
  intros _. case_match; [| keep]. unfold handle_bus_signal, handle_portal_response.
  apply keeps_bind; [keep |]. intros handled. case_match; [keep |].
  apply keeps_bind; [keep | intros ?]. apply keeps_bind; [keep | intros ?]. apply keeps_forward_signal.
Qed.

(** The references an AddMatch takes that no client will give back: it takes
    one although the client has the rule already, or is gone. *)
Definition add_match_leak (c : Z) (msg : Message) (w : World) (rule : string) : Z :=
  match deserialize BStr msg with
  | Ok added =>
      match parse added with
      | Ok _ =>
          if decide (added = rule) then
            match clients (mux w) !! c with Some info => use_count rule info | None => 1 end
          else 0
      | Err _ => 0
      end
  | Err _ => 0
  end.

Lemma add_match_inv slack c msg w :
  rules_inv slack w ->
  rules_inv (fun r x => slack r x + add_match_leak c msg w x) (handle_add_match c msg w).2.
Proof.
  intros Hw. unfold handle_add_match, install_rule, with_body, add_match_leak.
  destruct (deserialize BStr msg) as [rule|e];
    [| apply (rules_inv_ext slack); [intros; lia | by apply rules_inv_keeps; [apply keeps_error |]]].
  destruct (parse rule) as [r|e] eqn:Ep;
    [| apply (rules_inv_ext slack); [intros; lia | by apply rules_inv_keeps; [apply keeps_error |]]].
  apply parse_rule_string in Ep. change (body_val BStr) with string in rule.
  set (leak := fun x => if decide (rule = x) then
     match clients (mux w) !! c with Some info => use_count x info | None => 1 end else 0).
  set (s0 := fun (r : Route) x => slack r x + leak x).
  set (s1 := shift (shift s0 Container rule (-1)) Host rule (-1)).
  assert (rules_inv s1 (update_client c (add_rule r) w).2) as H1.
  { unfold update_client. cbn [modify snd]. destruct (clients (mux w) !! c) as [i|] eqn:Ei.
    - rewrite (alter_as_insert _ _ _ i) by done. apply (rules_inv_client slack _ c i); try done.
      + apply cmr_add_nodup. by eapply ri_nodup.
      + intros rt x. rewrite use_count_add, Ep.
        unfold s1, shift, s0, leak. destruct rt; repeat case_decide; simplify_eq; lia || congruence.
    - rewrite alter_absent by done. apply (rules_inv_ext slack); [| by destruct w as [[]]].
      intros rt x. unfold s1, shift, s0, leak. destruct rt; repeat case_decide; simplify_eq; lia || congruence. }
  apply (add_upstream_inv _ _ Container rule) in H1.
  apply (add_upstream_inv _ _ Host rule) in H1.
  apply (rules_inv_keeps _ _ _ (keeps_reply c msg BodyUnit)) in H1. unfold bind. unfold bind in H1. revert H1. unfold add_rule.
  destruct (update_client c _ w) as [[] w1]; cbn [snd].
  destruct (add_upstream Container rule w1) as [[] w2]; cbn [snd].
  destruct (add_upstream Host rule w2) as [[] w3]; cbn [snd].
  apply rules_inv_ext. intros rt x. unfold s1, shift, s0, leak.
  destruct rt; repeat case_decide; simplify_eq; lia || congruence.
Qed.

Lemma remove_match_inv slack c msg w :
  (forall r x, 0 <= slack r x) -> rules_inv slack w -> rules_inv slack (handle_remove_match c msg w).2.
Proof.
  intros Hpos Hw. unfold handle_remove_match, with_body.
  destruct (deserialize BStr msg) as [rule|e]; [| by apply rules_inv_keeps; [apply keeps_error |]].
  unfold bind at 1 2, get. destruct (clients (mux w) !! c) as [i|] eqn:Ei; [| by apply rules_inv_keeps; [apply keeps_error |]].
  pose proof (cmr_remove_found rule (match_rules i)) as Hfound.
  destruct (cmr_remove rule (match_rules i)) as [rs removed] eqn:Er. cbn [snd] in Hfound. subst removed.
  assert (with_match_rules rs i = remove_rule rule i) as Hrs by (unfold remove_rule; by rewrite Er).
  unfold update_client, bind at 1, modify, ret at 1. rewrite (alter_as_insert _ _ _ i), Hrs by done.
  set (w1 := mkWorld _ (log w)).
  assert (NoDup (rule_strings (match_rules (remove_rule rule i)))) as Hnd.
  { unfold remove_rule. cbn [match_rules with_match_rules]. rewrite cmr_remove_strings.
    apply NoDup_filter. by eapply ri_nodup. }
  case_bool_decide as Hin; cbn [negb].
  - set (s1 := shift (shift slack Container rule 1) Host rule 1).
    assert (rules_inv s1 w1) as H1.
    { apply (rules_inv_client slack _ c i); try done. intros rt x. rewrite use_count_remove.
      unfold use_count, uses. unfold s1, shift.
      destruct rt; repeat case_decide; simplify_eq; lia || congruence. }
    pose proof (Hpos Container rule). pose proof (Hpos Host rule).
    apply (remove_upstream_inv _ _ Container rule) in H1;
      [| unfold s1, shift; repeat case_decide; simplify_eq; lia || congruence].
    apply (remove_upstream_inv _ _ Host rule) in H1;
      [| unfold s1, shift; repeat case_decide; simplify_eq; lia || congruence].
    apply (rules_inv_keeps _ _ _ (keeps_reply c msg BodyUnit)) in H1. unfold bind. unfold bind in H1. revert H1.
    destruct (remove_upstream Container rule w1) as [[] w2]; cbn [snd].
    destruct (remove_upstream Host rule w2) as [[] w3]; cbn [snd].
    apply rules_inv_ext. intros rt x. unfold s1, shift.
    destruct rt; repeat case_decide; simplify_eq; lia || congruence.
  - apply rules_inv_keeps; [apply keeps_error |]. apply (rules_inv_client slack _ c i); try done. intros rt x.
    rewrite use_count_remove. unfold use_count, uses. repeat case_decide; simplify_eq; lia || congruence.
Qed.

(** Were an id used again, the references of its first client would be lost. *)
Definition register_leak (h : Accepted) (w : World) (rule : string) : Z :=
  match clients (mux w) !! ac_client_id h with Some info => use_count rule info | None => 0 end.

Lemma register_inv slack h w :
  rules_inv slack w -> rules_inv (fun r x => slack r x + register_leak h w x) (register_client h w).2.
Proof.
  intros [H1 H2 H3 H4]. unfold register_leak, register_client, modify. cbn [snd].
  set (i0 := mkClientInfo _ _ _ _).
  assert (forall x, use_count x i0 = 0) as H0.
  { intros x. unfold use_count. case_decide as Hu; [| done]. by apply elem_of_nil in Hu. }
  split; cbn [mux log clients with_clients match_rule_refcount]; try done.
  - intros c info. rewrite lookup_insert_Some. intros [[<- <-]|[_ Hi]]; [constructor | by eapply H2].
  - intros r x. specialize (H4 r x). unfold referenced in *. cbn [match_rule_refcount with_clients].
    destruct (clients (mux w) !! ac_client_id h) as [i|] eqn:Ei.
    + rewrite (users_set x _ i) by done. rewrite H0. lia.
    + rewrite users_insert, H0 by done. lia.
Qed.

Lemma release_match_rules_inv slack rs w :
  (forall r x, 0 <= slack r x) ->
  rules_inv (fun r x => slack r x + Z.of_nat (occurrences x rs)) w ->
  rules_inv slack (release_match_rules rs w).2.
Proof.
  intros Hpos. revert w. induction rs as [|rule rs IH]; intros w Hw; cbn [release_match_rules].
  { revert Hw. apply rules_inv_ext. intros r x. change (occurrences x []) with 0%nat. lia. }
  pose proof (Hpos Container rule). pose proof (Hpos Host rule).
  assert (0 < occurrences rule (rule :: rs))%nat by (rewrite occurrences_cons, decide_True by done; lia).
  apply (remove_upstream_inv _ _ Container rule) in Hw; [| lia].
  apply (remove_upstream_inv _ _ Host rule) in Hw;
    [| unfold shift; case_decide; simplify_eq; lia].
  unfold bind. revert Hw.
  destruct (remove_upstream Container rule w) as [[] w1]; cbn [snd].
  destruct (remove_upstream Host rule w1) as [[] w2]; cbn [snd]. intros Hw. apply IH. revert Hw.
  apply rules_inv_ext. intros r x. unfold shift. rewrite !occurrences_cons.
  destruct r; repeat case_decide; simplify_eq; lia || congruence.
Qed.

Lemma occurrences_nodup x rs : NoDup rs -> Z.of_nat (occurrences x rs) = if decide (x ∈ rs) then 1 else 0.
Proof.
  induction rs as [|r rs IH]; intros Hnd; [done |]. apply NoDup_cons in Hnd as [Hni Hnd].
  rewrite occurrences_cons, Nat2Z.inj_add, (IH Hnd).
  repeat case_decide; rewrite ?elem_of_cons in *; simplify_eq; try tauto; naive_solver.
Qed.

Lemma keeps_transfer unique results : keeps (transfer_names unique results).
Proof.
  induction results as [|[name [[id new]|]] rest IH]; cbn [transfer_names]; [keep | |];
    (apply keeps_bind; [keep | intros _]); (apply keeps_bind; [keep | intros _]); done.
Qed.

Lemma keeps_unqueued unique names : keeps (release_unqueued unique names).
Proof.
  induction names as [|name rest IH]; cbn [release_unqueued]; [keep |].
  apply keeps_bind; [keep | done].
Qed.

Lemma keeps_leave c unique owned : keeps (leave_queues c unique owned).
Proof.
  unfold leave_queues. apply keeps_bind; [keep | intros _]. apply keeps_bind.
  { intros w. by apply keeps_update. }
  intros results. apply keeps_bind; [apply keeps_transfer | intros _]. apply keeps_unqueued.
Qed.

Lemma disconnect_inv slack h w :
  (forall r x, 0 <= slack r x) -> rules_inv slack w -> rules_inv slack (disconnect_client h w).2.
Proof.
  intros Hpos Hw. unfold disconnect_client. unfold bind at 1, get.
  set (rs := match clients (mux w) !! ac_client_id h with
             | Some info => rule_strings (match_rules info) | None => [] end).
  set (owned := match clients (mux w) !! ac_client_id h with
                | Some info => names_order (owned_names info) | None => [] end).
  assert (match clients (mux w) !! ac_client_id h with
          | Some info => (names_order (owned_names info), rule_strings (match_rules info))
          | None => ([], []) end = (owned, rs)) as ->
    by (unfold owned, rs; by destruct (clients (mux w) !! ac_client_id h)).
  assert (rules_inv (fun r x => slack r x + Z.of_nat (occurrences x rs))
    (modify (fun s => with_clients (delete (ac_client_id h) (clients s)) s) w).2) as H1.
  { unfold modify. cbn [snd]. destruct Hw as [H1 H2 H3 H4].
    split; cbn [mux log clients with_clients match_rule_refcount]; try done.
    - intros c info. rewrite lookup_delete_Some. intros [_ Hi]. by eapply H2.
    - intros r x. specialize (H4 r x). unfold referenced in *.
      cbn [match_rule_refcount with_clients]. unfold rs.
      destruct (clients (mux w) !! ac_client_id h) as [i|] eqn:Ei.
      + rewrite (users_delete x _ i) in H4 by done. rewrite occurrences_nodup by (by eapply H2).
        unfold use_count, uses in H4. repeat case_decide; done || lia.
      + rewrite delete_id by done. change (occurrences x []) with 0%nat. lia. }
  apply release_match_rules_inv in H1; [| done]. unfold bind at 1. unfold bind at 1.
  destruct (modify _ w) as [[] w1]. cbn [snd] in H1.
  destruct (release_match_rules rs w1) as [[] w2]. cbn [snd] in H1.
  by apply rules_inv_keeps; [apply keeps_leave |].
Qed.

(** The references left behind by one input, and by a run. *)
Definition leak1 (i : Input) (w : World) (rule : string) : Z :=
  match i with
  | InAccept (Ok h) => register_leak h w rule
  | InClient c msg =>
      if is_dbus_daemon_call msg && is_method_call msg
         && bool_decide (default "" (member_str msg) = "AddMatch")
      then add_match_leak c msg w rule else 0
  | _ => 0
  end.

Fixpoint leaks (inputs : list Input) (w : World) (rule : string) : Z :=
  match inputs with
  | [] => 0
  | i :: rest =>
      leak1 i w rule +
      match run_step i w with
      | (Some _, _) => 0
      | (None, w1) => leaks rest w1 rule
      end
  end.

Lemma leak1_nonneg i w rule : 0 <= leak1 i w rule.
Proof.
  unfold leak1, register_leak, add_match_leak.
  repeat (case_match; try lia); apply use_count_range.
Qed.

Lemma keeps_ext {A} (m : M A) slack slack' w :
  keeps m -> (forall r x, slack' r x = slack r x) -> rules_inv slack w -> rules_inv slack' (m w).2.
Proof. intros Hm Hs Hw. apply (rules_inv_ext slack); [done |]. by apply rules_inv_keeps. Qed.

Lemma client_message_inv slack c msg w :
  (forall r x, 0 <= slack r x) -> rules_inv slack w ->
  rules_inv (fun r x => slack r x + leak1 (InClient c msg) w x) (handle_client_message c msg w).2.
Proof.
  intros Hpos Hw. unfold handle_client_message. cbn [leak1].
  destruct (is_dbus_daemon_call msg && is_method_call msg); cbn [andb].
  - case_bool_decide as Ha.
    + unfold handle_dbus_method. rewrite Ha. by apply add_match_inv.
    + destruct (decide (default "" (member_str msg) = "RemoveMatch")) as [Hr|Hr].
      * apply (rules_inv_ext slack); [intros; lia |]. unfold handle_dbus_method. rewrite Hr.
        by apply remove_match_inv.
      * apply (keeps_ext _ slack); [by apply keeps_client_method | intros; lia | done].
  - eapply (keeps_ext _ slack); [| intros; lia | done].
    apply keeps_bind; [unfold router_route_for; keep |]. intros route. case_match; [| keep].
    apply keeps_bind; [apply keeps_forward |]. intros r. case_match; [keep | apply keeps_error].
Qed.

Lemma run_step_inv slack i w :
  (forall r x, 0 <= slack r x) -> rules_inv slack w ->
  rules_inv (fun r x => slack r x + leak1 i w x) (run_step i w).2.
Proof.
  intros Hpos Hw. assert (forall (m : M unit) slack', rules_inv slack' (m w).2 ->
    rules_inv slack' ((m ;! ret (@None Error)) w).2) as Hb.
  { intros m slack' Hm. unfold bind. by destruct (m w). }
  assert (rules_inv (fun r x => slack r x + 0) w) as H0 by (revert Hw; apply rules_inv_ext; intros; lia).
  destruct i as [[h|e]|h|route [[msg|]|e]|c msg|]; cbn [run_step]; try done; try apply Hb.
  - by apply register_inv.
  - apply disconnect_inv; [intros; cbn [leak1]; specialize (Hpos r x); lia | done].
  - by apply rules_inv_keeps; [apply keeps_bus_message |].
  - by apply client_message_inv.
  - revert H0. cbn [leak1]. generalize (fun (r : Route) x => slack r x + 0). intros slack'. revert slack' w Hw Hb.
    enough (keeps cleanup_tick) as Hk by (intros; by apply rules_inv_keeps).
    unfold cleanup_tick, router_cleanup_expired. apply keeps_bind; [by apply keeps_emit |]. intros _. keep.
Qed.

Lemma run_inv inputs slack w :
  (forall r x, 0 <= slack r x) -> rules_inv slack w ->
  rules_inv (fun r x => slack r x + leaks inputs w x) (run inputs w).2.
Proof.
  revert slack w. induction inputs as [|i inputs IH]; intros slack w Hpos Hw; cbn [run leaks].
  { revert Hw. apply rules_inv_ext. intros. lia. }
  unfold bind. pose proof (run_step_inv slack i w Hpos Hw) as H1.
  destruct (run_step i w) as [[e|] w1]; cbn [snd] in H1.
  - revert H1. apply rules_inv_ext. intros. lia.
  - apply IH in H1; [revert H1; apply rules_inv_ext; intros; lia |].
    intros r x. specialize (Hpos r x). pose proof (leak1_nonneg i w x). lia.
Qed.

End Rules.

(** ** Theorems *)

Section Theorems.
Context {ZB : Zbus} {E : Env}.

(** C12. Which rules are installed upstream, exactly: after any run of the
    multiplexer from a state without clients, whatever clients, buses and the
    clock do, each bus has as many references to a rule as there are connected
    clients with that rule and AddMatch calls that leaked a reference (by a
    client that had the rule already, or was gone); and the rule is installed
    on the bus (one more AddMatch than RemoveMatch went out for it) if that
    number is positive, and not installed otherwise.  In particular the rules
    of connected clients are always installed. *)
Theorem client_rules_installed inputs w0 :
  clients (mux w0) = ∅ -> match_rule_refcount (mux w0) = MatchRuleRefCount_new ->
  let w := (run inputs w0).2 in
  let needed rule := users rule (clients (mux w)) + leaks inputs w0 rule in
  exists evs, log w = log w0 ++ evs /\
    forall route rule,
      Z.of_nat (count_of (match_rule_refcount (mux w)) (bus_key route, rule)) = needed rule /\
      net route rule evs = (if decide (0 < needed rule) then 1 else 0).
Proof.
  intros Hc Hr. cbv zeta.
  destruct (run_inv (log w0) inputs (fun _ _ => 0) w0) as [H1 H2 (evs & Hlog & Hnet) H4]; [done | |].
  { split.
    - rewrite Hr. apply map_Forall_empty.
    - intros c info. rewrite Hc. done.
    - exists []. rewrite app_nil_r. split; [done |]. intros route rule. unfold referenced, count_of.
      rewrite Hr. cbn. rewrite lookup_empty. done.
    - intros route rule. rewrite Hc. unfold users, referenced, count_of. rewrite Hr. cbn.
      rewrite lookup_empty, map_filter_empty, map_size_empty. done. }
  exists evs. split; [done |]. intros route rule. specialize (H4 route rule). unfold referenced in *.
  split; [lia |]. rewrite Hnet. repeat case_decide; lia.
Qed.

(** *** A rule added twice *)

(** [m] leaves the references alone, and a client that is gone stays so. *)
Definition settled {A} (c : Z) (m : M A) : Prop :=
  forall w, match_rule_refcount (mux (m w).2) = match_rule_refcount (mux w) /\
    (clients (mux w) !! c = None -> clients (mux (m w).2) !! c = None).

Lemma settled_bind {A B} c (m : M A) (k : A -> M B) :
  settled c m -> (forall a, settled c (k a)) -> settled c (bind m k).
Proof.
  intros Hm Hk w. unfold bind. destruct (Hm w) as [H1 H2]. destruct (m w) as [a w1]. cbn [snd] in *.
  destruct (Hk a w1) as [H3 H4]. split; [by rewrite H3 | auto].
Qed.

Lemma settled_client c c' f : settled c (update_client c' f).
Proof.
  intros w. split; [done |]. intros Hc. unfold update_client. cbn.
  destruct (decide (c' = c)) as [->|Hne]; [by rewrite lookup_alter_eq, Hc | by rewrite lookup_alter_ne].
Qed.

Lemma settled_names c unique results owned :
  settled c (transfer_names unique results ;! release_unqueued unique owned).
Proof.
  apply settled_bind; [| intros _].
  - induction results as [|[name [[id new]|]] rest IH]; cbn [transfer_names]; [done | |];
      (apply settled_bind; [done | intros _]);
      (apply settled_bind; [done || apply settled_client | intros _]); done.
  - induction owned as [|name rest IH]; cbn [release_unqueued]; [done |].
    apply settled_bind; [| done]. intros w. unfold bind, get, ret, update_table, modify, call_method.
    by destruct (name_has_owner name (name_queue (mux w))).
Qed.

Lemma settled_leave c c' unique owned : settled c (leave_queues c' unique owned).
Proof.
  unfold leave_queues. apply settled_bind; [done | intros _].
  apply settled_bind; [| intros results; apply settled_names].
  intros w. unfold update. by destruct (remove_client_in _ _ _).
Qed.

Lemma send_reply_mux c msg body w : mux (send_reply_to_client c msg body w).2 = mux w.
Proof.
  unfold send_reply_to_client, bind, get. destruct (clients (mux w) !! c); [| done].
  destruct (mrb_build _ _); [| done]. unfold send_to. by destruct (tx_send _ _ _).
Qed.

Lemma add_upstream_mux route rule w :
  mux (add_upstream route rule w).2
  = with_refcount (increment (bus_key route) rule (match_rule_refcount (mux w))).1 (mux w).
Proof.
  unfold add_upstream, bind, update. destruct (increment _ _ _) as [rc first]. by destruct first.
Qed.

Lemma remove_upstream_mux route rule w :
  mux (remove_upstream route rule w).2
  = with_refcount (decrement (bus_key route) rule (match_rule_refcount (mux w))).1 (mux w).
Proof.
  unfold remove_upstream, bind, update. destruct (decrement _ _ _) as [rc last]. by destruct last.
Qed.

(** The second half of AddMatch takes a reference on each bus. *)
Lemma install_refs c msg (rule : string) w :
  counts_ok (match_rule_refcount (mux w)) ->
  let w' := (install_rule c msg rule w).2 in
  counts_ok (match_rule_refcount (mux w')) /\ clients (mux w') = clients (mux w) /\
  forall route, referenced route rule (mux w') = S (referenced route rule (mux w)).
Proof.
  intros Hok. cbv zeta. unfold install_rule, bind.
  pose proof (add_upstream_mux Container rule w) as H2.
  destruct (add_upstream Container rule w) as [[] w2]. cbn [snd] in H2.
  pose proof (add_upstream_mux Host rule w2) as H3.
  destruct (add_upstream Host rule w2) as [[] w3]. cbn [snd] in H3.
  rewrite send_reply_mux. unfold referenced. rewrite H3, H2. cbn [match_rule_refcount with_refcount clients].
  pose proof (increment_spec (bus_key Container) rule _ Hok) as Hi1.
  destruct (increment (bus_key Container) rule _) as [rc1 f1]. destruct Hi1 as (Hok1 & _ & Hc1).
  cbn [fst match_rule_refcount with_refcount]. pose proof (increment_spec (bus_key Host) rule _ Hok1) as Hi2.
  destruct (increment (bus_key Host) rule rc1) as [rc2 f2]. destruct Hi2 as (Hok2 & _ & Hc2). cbn [fst].
  split_and!; [done | done |].
  intros route. rewrite Hc2, Hc1, !(decide_ext _ _ _ _ (key_eq _ _ _ _)).
  destruct route; repeat case_decide; simplify_eq; congruence.
Qed.

Lemma add_match_refs c msg (rule : string) r info w :
  deserialize BStr msg = Ok rule -> parse rule = Ok r -> clients (mux w) !! c = Some info ->
  counts_ok (match_rule_refcount (mux w)) ->
  let w' := (handle_add_match c msg w).2 in
  counts_ok (match_rule_refcount (mux w')) /\ clients (mux w') !! c = Some (add_rule r info) /\
  forall route, referenced route rule (mux w') = S (referenced route rule (mux w)).
Proof.
  intros Hd Hp Hc Hok. cbv zeta. unfold handle_add_match, with_body. rewrite Hd, Hp.
  unfold bind. destruct (update_client c _ w) as [[] w1] eqn:E1. unfold update_client, modify in E1. injection E1 as <-.
  set (w1 := mkWorld _ _). destruct (install_refs c msg rule w1 Hok) as (Hok' & Hcl & Hr).
  split_and!; [done | | done]. rewrite Hcl. cbn. by rewrite lookup_alter_eq, Hc.
Qed.

Lemma release_match_rules_refs rs w route x :
  counts_ok (match_rule_refcount (mux w)) ->
  referenced route x (mux (release_match_rules rs w).2)
  = (referenced route x (mux w) - occurrences x rs)%nat.
Proof.
  revert w. induction rs as [|rule rs IH]; intros w Hok; cbn [release_match_rules].
  { change (occurrences x []) with 0%nat. cbn. lia. }
  unfold bind. pose proof (remove_upstream_mux Container rule w) as H1.
  destruct (remove_upstream Container rule w) as [[] w1]. cbn [snd] in H1.
  pose proof (remove_upstream_mux Host rule w1) as H2.
  destruct (remove_upstream Host rule w1) as [[] w2]. cbn [snd] in H2.
  pose proof (decrement_spec (bus_key Container) rule _ Hok) as Hd1.
  destruct (decrement (bus_key Container) rule _) as [rc1 f1]. destruct Hd1 as (Hok1 & _ & Hc1).
  rewrite H1 in H2. cbn [fst match_rule_refcount with_refcount] in H2.
  pose proof (decrement_spec (bus_key Host) rule _ Hok1) as Hd2.
  destruct (decrement (bus_key Host) rule rc1) as [rc2 f2]. destruct Hd2 as (Hok2 & _ & Hc2).
  cbn [fst] in H2. rewrite IH by (rewrite H2; done). unfold referenced. rewrite H2, occurrences_cons.
  cbn [match_rule_refcount with_refcount]. rewrite Hc2, Hc1.
  rewrite !(decide_ext _ _ _ _ (key_eq _ _ _ _)).
  destruct route; repeat case_decide; simplify_eq; try done; lia || congruence.
Qed.

Lemma release_match_rules_clients rs w : clients (mux (release_match_rules rs w).2) = clients (mux w).
Proof.
  revert w. induction rs as [|rule rs IH]; intros w; cbn [release_match_rules]; [done |].
  unfold bind. pose proof (remove_upstream_mux Container rule w) as H1.
  destruct (remove_upstream Container rule w) as [[] w1]. cbn [snd] in H1.
  pose proof (remove_upstream_mux Host rule w1) as H2.
  destruct (remove_upstream Host rule w1) as [[] w2]. cbn [snd] in H2.
  by rewrite IH, H2, H1.
Qed.

Lemma disconnect_refs h info w route x :
  clients (mux w) !! ac_client_id h = Some info -> counts_ok (match_rule_refcount (mux w)) ->
  let w' := (disconnect_client h w).2 in
  clients (mux w') !! ac_client_id h = None /\
  referenced route x (mux w')
    = (referenced route x (mux w) - occurrences x (rule_strings (match_rules info)))%nat.
Proof.
  intros Hc Hok. cbv zeta. set (c := ac_client_id h) in *. set (rs := rule_strings (match_rules info)).
  set (w3 := mkWorld (with_clients (delete c (clients (mux w))) (mux w)) (log w)).
  assert (disconnect_client h w
    = leave_queues c (ac_unique_name h) (names_order (owned_names info)) (release_match_rules rs w3).2) as ->.
  { unfold disconnect_client, bind, get, modify. fold c. rewrite Hc. fold rs w3.
    by destruct (release_match_rules rs w3) as [[] w4]. }
  pose proof (release_match_rules_refs rs w3 route x Hok) as Hr.
  pose proof (release_match_rules_clients rs w3) as Hcl.
  set (w4 := (release_match_rules rs w3).2) in *.
  assert (clients (mux w4) !! c = None) as Hnone by (rewrite Hcl; apply lookup_delete_eq).
  destruct (settled_leave c c (ac_unique_name h) (names_order (owned_names info)) w4) as [H1 H2].
  split; [auto |]. unfold referenced in *. by rewrite H1, Hr.
Qed.

Lemma disconnect_absent h w : clients (mux (disconnect_client h w).2) !! ac_client_id h = None.
Proof.
  set (c := ac_client_id h). set (w3 := mkWorld (with_clients (delete c (clients (mux w))) (mux w)) (log w)).
  assert (exists rs owned, disconnect_client h w
    = leave_queues c (ac_unique_name h) owned (release_match_rules rs w3).2) as (rs & owned & ->).
  { unfold disconnect_client, bind, get, modify. fold c.
    destruct (clients (mux w) !! c) as [i|];
      [exists (rule_strings (match_rules i)), (names_order (owned_names i)) | exists [], []];
      fold w3; by destruct (release_match_rules _ w3) as [[] ?]. }
  apply settled_leave. rewrite release_match_rules_clients. apply lookup_delete_eq.
Qed.

(** A rule added twice is never removed: the client's list keeps it once but
    the reference count is raised each time, so when the client leaves, one
    reference is left over on each bus for which no client exists. *)
Lemma duplicate_add_match_leaks h msg (rule : string) r info w route :
  clients (mux w) !! ac_client_id h = Some info -> counts_ok (match_rule_refcount (mux w)) ->
  NoDup (rule_strings (match_rules info)) ->
  deserialize BStr msg = Ok rule -> parse rule = Ok r ->
  rule ∉ rule_strings (match_rules info) ->
  let w' := ((handle_add_match (ac_client_id h) msg ;! handle_add_match (ac_client_id h) msg ;!
              disconnect_client h) w).2 in
  clients (mux w') !! ac_client_id h = None /\
  count_of (match_rule_refcount (mux w')) (bus_key route, rule)
    = S (count_of (match_rule_refcount (mux w)) (bus_key route, rule)).
Proof.
  intros Hc Hok Hnd Hd Hp Hni. cbv zeta. set (c := ac_client_id h) in *.
  assert ((handle_add_match c msg ;! handle_add_match c msg ;! disconnect_client h) w
    = disconnect_client h (handle_add_match c msg (handle_add_match c msg w).2).2) as ->.
  { unfold bind. destruct (handle_add_match c msg w) as [[] w1]. cbn [snd].
    by destruct (handle_add_match c msg w1). }
  destruct (add_match_refs c msg rule r info w Hd Hp Hc Hok) as (Hok1 & Hc1 & Hr1).
  destruct (add_match_refs c msg rule r _ _ Hd Hp Hc1 Hok1) as (Hok2 & Hc2 & Hr2).
  destruct (disconnect_refs h _ _ route rule Hc2 Hok2) as [H3 H4]. split; [done |].
  unfold referenced in *. rewrite H4, Hr2, Hr1.
  assert (Z.of_nat (occurrences rule (rule_strings (match_rules (add_rule r (add_rule r info))))) = 1).
  { rewrite occurrences_nodup by apply cmr_add_nodup, cmr_add_nodup, Hnd. apply decide_True.
    change (uses rule (add_rule r (add_rule r info))). apply uses_add. left. symmetry.
    by apply parse_rule_string. }
  lia.
Qed.

End Theorems.

(** ** Witnesses *)

Section Witnesses.
#[local] Existing Instance SimpleZbus.
#[local] Existing Instance SimpleZbusLaws.
#[local] Existing Instance SimpleEnv.

Definition ex_client : Accepted := mkAccepted 1 ":mux.1" (mkClientCredentials 1000 (Some 42) 1000).

Definition ex_add : Message :=
  s_call ":mux.1" 5 "org.freedesktop.DBus" "AddMatch" (s_str "type='signal'").

Definition ex_inputs : list Input := [InAccept (Ok ex_client); InClient 1 ex_add; InTick].

Lemma client_rules_installed_witness :
  let w := (run ex_inputs s_world).2 in
  let needed rule := users rule (clients (mux w)) + leaks ex_inputs s_world rule in
  exists evs, log w = [] ++ evs /\
    forall route rule,
      Z.of_nat (count_of (match_rule_refcount (mux w)) (bus_key route, rule)) = needed rule /\
      net route rule evs = (if decide (0 < needed rule) then 1 else 0).
Proof. exact (client_rules_installed ex_inputs s_world eq_refl eq_refl). Defined.

(** A rule added twice, and a rule added by a message that is still under way
    when its client leaves, outlive their client. *)
Example ex_leaks :
  leaks ex_inputs s_world "type='signal'" = 0 /\
  leaks [InAccept (Ok ex_client); InClient 1 ex_add; InClient 1 ex_add; InDisconnect ex_client]
    s_world "type='signal'" = 1 /\
  leaks [InAccept (Ok ex_client); InDisconnect ex_client; InClient 1 ex_add] s_world "type='signal'" = 1.
Proof. vm_compute. done. Qed.

Example ex_installed :
  rule_strings (match_rules (default (mkClientInfo "" ∅ (mkClientMatchRules []) (mkClientCredentials 0 None 0))
    (clients (mux (run ex_inputs s_world).2) !! 1))) = ["type='signal'"].
Proof. reflexivity. Qed.

Definition ex_registered : World := (register_client ex_client s_world).2.

Lemma duplicate_add_match_leaks_witness :
  let w' := ((handle_add_match 1 ex_add ;! handle_add_match 1 ex_add ;! disconnect_client ex_client)
               ex_registered).2 in
  clients (mux w') !! 1 = None /\
  count_of (match_rule_refcount (mux w')) (bus_key Host, "type='signal'") = 1%nat.
Proof.
  refine (duplicate_add_match_leaks ex_client ex_add "type='signal'" _ _ ex_registered Host
    eq_refl _ _ eq_refl eq_refl _).
  - apply map_Forall_empty.
  - constructor.
  - apply not_elem_of_nil.
Defined.
End Witnesses.
