(* ===== verification/MuxNames.v ===== *)
(** * Names through the multiplexer

    RequestName against the container bus on every branch, and what the
    disconnection of a client leaves behind. *)

From S2P Require Import Prelude RustStr Zbus SimpleZbus Errors Message Routing NameQueue SerialMap MatchRules Portal World SimpleEnv Router Multiplexer MuxRules.

#[local] Open Scope Z_scope.

(** ** What an operation leaves alone *)

Section Frames.
Context {ZB : Zbus} {E : Env}.

(** [m] does not change the part [f] of the state. *)
Definition untouched {A B} (f : Multiplexer -> B) (m : M A) : Prop :=
  forall w, f (mux (m w).2) = f (mux w).

Lemma untouched_bind {A B C} (f : Multiplexer -> C) (m : M A) (k : A -> M B) :
  untouched f m -> (forall a, untouched f (k a)) -> untouched f (bind m k).
Proof.
  intros Hm Hk w. unfold bind. specialize (Hm w). destruct (m w) as [a w1]. cbn [snd] in Hm.
  by rewrite Hk, Hm.
Qed.

Lemma untouched_upstream {C} (f : Multiplexer -> C) route rule :
  (forall rc s, f (with_refcount rc s) = f s) -> untouched f (remove_upstream route rule).
Proof.
  intros Hf w. unfold remove_upstream, bind, update. destruct (decrement _ _ _) as [rc last].
  by destruct last; cbn; rewrite Hf.
Qed.

Lemma untouched_release_rules {C} (f : Multiplexer -> C) rs :
  (forall rc s, f (with_refcount rc s) = f s) -> untouched f (release_match_rules rs).
Proof.
  intros Hf. induction rs as [|rule rs IH]; cbn [release_match_rules]; [done |].
  apply untouched_bind; [by apply untouched_upstream | intros _].
  apply untouched_bind; [by apply untouched_upstream | done].
Qed.

Lemma untouched_transfer {C} (f : Multiplexer -> C) unique results :
  (forall t s, f (with_table t s) = f s) -> (forall c s, f (with_clients c s) = f s) ->
  untouched f (transfer_names unique results).
Proof.
  intros Ht Hc. induction results as [|[name [[id new]|]] rest IH]; cbn [transfer_names]; [done | |];
    (apply untouched_bind; [by intros w; apply Ht | intros _]);
    (apply untouched_bind; [| done]); [by intros w; apply Hc | done].
Qed.

Lemma untouched_unqueued {C} (f : Multiplexer -> C) unique names :
  (forall t s, f (with_table t s) = f s) -> untouched f (release_unqueued unique names).
Proof.
  intros Ht. induction names as [|name rest IH]; cbn [release_unqueued]; [done |].
  apply untouched_bind; [| done]. apply untouched_bind; [done | intros q].
  destruct (name_has_owner name q); [done |]. apply untouched_bind; [by intros w; apply Ht | done].
Qed.

(** ** The calls of a disconnection *)

Definition release_call (name : string) : Event := EvCall Container (CallReleaseName name).

Lemma transfer_log unique results w :
  log (transfer_names unique results w).2
  = log w ++ omap (fun '(name, o) => match o with None => Some (release_call name) | Some _ => None end)
               results.
Proof.
  revert w. induction results as [|[name [[id new]|]] rest IH]; intros w; cbn [transfer_names].
  - by rewrite app_nil_r.
  - unfold bind, update_table, update_client, modify. rewrite IH. done.
  - unfold bind, update_table, modify, call_method, ret. rewrite IH. cbn [mux log].
    by rewrite <- app_assoc.
Qed.

Lemma unqueued_log unique names w :
  log (release_unqueued unique names w).2
  = log w ++ omap (fun name => if name_has_owner name (name_queue (mux w)) then None
                               else Some (release_call name)) names.
Proof.
  revert w. induction names as [|name rest IH]; intros w; cbn [release_unqueued].
  - by rewrite app_nil_r.
  - unfold bind, get. cbn [omap list_omap]. destruct (name_has_owner name (name_queue (mux w))) eqn:Eo.
    + unfold ret. by rewrite IH.
    + unfold update_table, modify, call_method, ret. rewrite IH. cbn [mux log]. by rewrite <- app_assoc.
Qed.

Lemma release_rules_log rs w : exists evs, log (release_match_rules rs w).2 = log w ++ evs.
Proof.
  revert w. induction rs as [|rule rs IH]; intros w; cbn [release_match_rules].
  { exists []. by rewrite app_nil_r. }
  assert (forall route w, exists evs, log (remove_upstream route rule w).2 = log w ++ evs) as Hu.
  { intros route w'. unfold remove_upstream, bind, update. destruct (decrement _ _ _) as [rc last].
    destruct last; cbn; eexists; [done | by rewrite app_nil_r]. }
  unfold bind. destruct (Hu Container w) as [e1 H1].
  destruct (remove_upstream Container rule w) as [[] w1]. cbn [snd] in H1.
  destruct (Hu Host w1) as [e2 H2]. destruct (remove_upstream Host rule w1) as [[] w2]. cbn [snd] in H2.
  destruct (IH w2) as [e3 H3]. exists (e1 ++ e2 ++ e3). by rewrite H3, H2, H1, <- !app_assoc.
Qed.

(** ** The names routed to the container *)

Definition routed (n : string) (w : World) : Prop := n ∈ container_names (table (mux w)).

#[export] Instance routed_dec n w : Decision (routed n w).
Proof. unfold routed. apply _. Defined.

Lemma routed_change n name old new w :
  routed n (update_table (on_container_name_change name old new) w).2 <->
  (n = name /\ new <> "") \/ (n <> name /\ routed n w).
Proof.
  unfold routed, update_table, modify, on_container_name_change. cbn [snd mux table routing_table router with_table with_router].
  destruct new as [|a new]; cbn [is_empty container_names]; [set_solver |].
  rewrite elem_of_union, elem_of_singleton. destruct (decide (n = name)); naive_solver.
Qed.

Lemma transfer_routes n unique results w :
  NoDup results.*1 ->
  routed n (transfer_names unique results w).2 <->
  (exists id new, (n, Some (id, new)) ∈ results /\ new <> "") \/ (n ∉ results.*1 /\ routed n w).
Proof.
  revert w. induction results as [|[name o] rest IH]; intros w Hnd; cbn [transfer_names].
  { cbn. setoid_rewrite elem_of_nil. naive_solver. }
  apply NoDup_cons in Hnd as [Hname Hnd]. cbn [fst] in Hname.
  assert (forall w1 new, routed n w1 <-> (n = name /\ new <> "") \/ (n <> name /\ routed n w) ->
    routed n (transfer_names unique rest w1).2 <->
    (exists id new', (n, Some (id, new')) ∈ rest /\ new' <> "") \/ (n = name /\ new <> "") \/
      (~ (n = name \/ n ∈ rest.*1) /\ routed n w)) as Hrest.
  { intros w1 new Hw1. rewrite (IH w1 Hnd), Hw1. destruct (decide (n = name)) as [->|Hne]; naive_solver. }
  assert (forall id new, (n, Some (id, new)) ∈ rest -> n <> name) as Hne
    by (intros id new Hin ->; apply Hname; by apply (list_elem_of_fmap_2 fst) in Hin).
  cbn [fmap list_fmap fst]. setoid_rewrite elem_of_cons. destruct o as [[id new]|].
  - set (w1 := (update_table (on_container_name_change name unique new) w).2).
    set (w2 := (update_client id (add_owned name) w1).2).
    change (bind _ _ w) with (transfer_names unique rest w2).
    rewrite (Hrest w2 new (routed_change n name unique new w)). split.
    + intros [(d & u & Hin & Hu)|[[-> Hu]|H]]; [left; exists d, u; auto | left; exists id, new; auto | by right].
    + intros [(d & u & [[= -> -> ->]|Hin] & Hu)|H]; [auto | left; eauto | auto].
  - set (w1 := (update_table (on_container_name_change name unique "") w).2).
    set (w2 := (call_method Container (CallReleaseName name) w1).2).
    change (bind _ _ w) with (transfer_names unique rest w2).
    rewrite (Hrest w2 "" (routed_change n name unique "" w)). split.
    + intros [(d & u & Hin & Hu)|[[-> []]|H]]; [left; exists d, u; auto | done | by right].
    + intros [(d & u & [[=]|Hin] & Hu)|H]; [left; eauto | auto].
Qed.

Lemma unqueued_routes n unique names w :
  routed n (release_unqueued unique names w).2 <->
  routed n w /\ (n ∉ names \/ name_has_owner n (name_queue (mux w)) = true).
Proof.
  revert w. induction names as [|name rest IH]; intros w; cbn [release_unqueued].
  { cbn. pose proof (not_elem_of_nil n). naive_solver. }
  unfold bind at 1 2, get. destruct (name_has_owner name (name_queue (mux w))) eqn:Eo.
  - unfold ret. rewrite IH, not_elem_of_cons. destruct (decide (n = name)) as [->|]; naive_solver.
  - set (w1 := (update_table (on_container_name_change name unique "") w).2).
    set (w2 := (call_method Container (CallReleaseName name) w1).2).
    change (routed n (release_unqueued unique rest w2).2 <-> routed n w /\
      (n ∉ name :: rest \/ name_has_owner n (name_queue (mux w)) = true)).
    assert (routed n w2 <-> (n = name /\ "" <> "") \/ (n <> name /\ routed n w)) as Hc by exact (routed_change n name unique "" w).
    rewrite IH, Hc, not_elem_of_cons. change (name_queue (mux w2)) with (name_queue (mux w)).
    destruct (decide (n = name)) as [->|Hne]; [rewrite Eo | tauto].
    split; [intros [[[_ []]|[? _]] _]; done | intros [_ [[? _]|?]]; done].
Qed.

(** The state and the calls of a disconnection. *)
Lemma disconnect_run {EL : EnvLaws} h w :
  manager_ok (name_queue (mux w)) ->
  let c := ac_client_id h in
  let owned := match clients (mux w) !! c with
               | Some info => names_order (owned_names info) | None => [] end in
  let out := remove_client_in (queues_order (name_queue (mux w))) c (name_queue (mux w)) in
  let w' := (disconnect_client h w).2 in
  name_queue (mux w') = out.1 /\
  portal_requests (mux w') = (prt_remove_client c (portal_requests (mux w))).1 /\
  serials_pending (mux w') = serials_pending (mux w) /\
  (forall n, routed n w' <->
     ((exists id new, (n, Some (id, new)) ∈ out.2 /\ new <> "") \/ (n ∉ out.2.*1 /\ routed n w)) /\
     (n ∉ owned \/ name_has_owner n out.1 = true)) /\
  exists evs, log w' = log w ++ evs ++
    omap (fun '(name, o) => match o with None => Some (release_call name) | Some _ => None end) out.2 ++
    omap (fun name => if name_has_owner name out.1 then None else Some (release_call name)) owned.
Proof.
  intros Hok c owned out. cbv zeta.
  set (rs := match clients (mux w) !! c with
             | Some info => rule_strings (match_rules info) | None => [] end).
  set (w3 := mkWorld (with_clients (delete c (clients (mux w))) (mux w)) (log w)).
  set (w4 := (release_match_rules rs w3).2).
  assert (disconnect_client h w = leave_queues c (ac_unique_name h) owned w4) as ->.
  { unfold disconnect_client, bind, get, modify, w4, rs, owned. fold c.
    destruct (clients (mux w) !! c); fold w3; by destruct (release_match_rules _ w3) as [[] ?]. }
  destruct (release_rules_log rs w3) as [evs Hl]. fold w4 in Hl.
  assert (name_queue (mux w4) = name_queue (mux w)) as Hq
    by apply (untouched_release_rules name_queue rs (fun _ _ => eq_refl) w3).
  assert (portal_requests (mux w4) = portal_requests (mux w)) as Hp
    by apply (untouched_release_rules portal_requests rs (fun _ _ => eq_refl) w3).
  assert (router (mux w4) = router (mux w)) as Hro
    by apply (untouched_release_rules router rs (fun _ _ => eq_refl) w3).
  assert (NoDup out.2.*1) as Hnd by apply (remove_client_in_refines _ c _ Hok (queues_order_all _)).
  unfold leave_queues, bind, update, ret. rewrite Hp. destruct (prt_remove_client c _) as [p n].
  cbn [mux log name_queue with_portal]. rewrite Hq. fold out.
  destruct out as [q results]. cbn [fst snd] in *.
  set (w5 := mkWorld _ (log w4)).
  assert (forall n, routed n w5 <-> routed n w) as Hr5 by (intros x; unfold routed, table, w5; cbn; by rewrite Hro).
  assert (serials_pending (mux w5) = serials_pending (mux w)) as Hsp5 by (unfold serials_pending, w5; cbn; by rewrite Hro).
  pose proof (fun x => transfer_routes x (ac_unique_name h) results w5 Hnd) as Hrt.
  assert (serials_pending (mux (transfer_names (ac_unique_name h) results w5).2) = serials_pending (mux w)) as Hs5
    by by rewrite untouched_transfer.
  pose proof (transfer_log (ac_unique_name h) results w5) as Ht.
  assert (name_queue (mux (transfer_names (ac_unique_name h) results w5).2) = q) as Hq5
    by by rewrite untouched_transfer.
  assert (portal_requests (mux (transfer_names (ac_unique_name h) results w5).2) = p) as Hp5
    by by rewrite untouched_transfer.
  destruct (transfer_names (ac_unique_name h) results w5) as [[] w6]. cbn [snd] in *.
  rewrite !untouched_unqueued, unqueued_log, Ht, Hq5 by done. split_and!; [done | done | done | |].
  { intros x. by rewrite unqueued_routes, Hrt, Hr5, Hq5. }
  exists evs. cbn [log w5]. by rewrite Hl, <- !app_assoc.
Qed.

End Frames.

(** ** Theorems *)

Section Theorems.
Context {ZB : Zbus} {E : Env}.

(** A waiter keeps the name owned when the owner leaves. *)
Lemma successor_keeps_owner q q' c name x :
  manager_ok q -> manager_ok q' -> owners q' name = Spec.leave c (owners q name) ->
  Spec.owned_by c (owners q name) -> Spec.successor (owners q name) = Some x -> name_has_owner name q' = true.
Proof.
  intros Hok Hok' Hq Ho Hs. destruct (manager_lookup q name Hok) as [[_ Hnil]|(o & ws & _ & Hl & _ & Hnd)];
    [by rewrite Hnil in Hs |]. cbn in Hnd.
  destruct (manager_lookup q' name Hok') as [[_ Hnil]|(o' & ws' & Hl' & _)]; [| unfold name_has_owner; by rewrite Hl'].
  rewrite Hnil, Hl in Hq. rewrite Hl in Ho, Hs. injection Ho as <-. destruct ws as [|n ws]; [done |].
  apply NoDup_cons in Hnd as [Hn _]. unfold Spec.leave in Hq.
  rewrite filter_cons_False, filter_cons_True in Hq; [done | | auto].
  intros He. apply Hn. cbn. rewrite He. apply list_elem_of_here.
Qed.

(** C20. What a client that disconnects leaves behind.  It is no longer connected,
    stands in no queue of names while all others keep their places, and has no
    portal request.  Each name it owned without a waiter is given back to the
    container bus and no longer routed there; one with a waiter goes on being
    routed there; other names that it did not hold are routed as before.  Its
    calls in flight are not forgotten: they stay, under its client id, until
    they are answered or time out. *)
Theorem disconnect_forgets_client {EL : EnvLaws} h w :
  manager_ok (name_queue (mux w)) ->
  let c := ac_client_id h in
  let w' := (disconnect_client h w).2 in
  clients (mux w') !! c = None /\
  manager_ok (name_queue (mux w')) /\
  (forall name, owners (name_queue (mux w')) name = Spec.leave c (owners (name_queue (mux w)) name)) /\
  (forall path p, requests (portal_requests (mux w')) !! path = Some p <->
     requests (portal_requests (mux w)) !! path = Some p /\ ppr_client_id p <> c) /\
  (forall name, Spec.owned_by c (owners (name_queue (mux w)) name) ->
     match Spec.successor (owners (name_queue (mux w)) name) with
     | None => ~ routed name w'
     | Some (_, u) => u <> "" -> routed name w'
     end) /\
  (forall name, ~ Spec.owned_by c (owners (name_queue (mux w)) name) ->
     (forall info, clients (mux w) !! c = Some info -> name ∉ owned_names info) -> routed name w' <-> routed name w) /\
  serials_pending (mux w') = serials_pending (mux w) /\
  exists evs, log w' = log w ++ evs /\
    forall name, Spec.owned_by c (owners (name_queue (mux w)) name) ->
      Spec.successor (owners (name_queue (mux w)) name) = None ->
      EvCall Container (CallReleaseName name) ∈ evs.
Proof.
  intros Hok c. cbv zeta.
  destruct (disconnect_run h w Hok) as (Hq & Hp & Hsp & Hrt & evs & Hl).
  destruct (remove_client_in_refines (queues_order (name_queue (mux w))) c _ Hok (queues_order_all _))
    as (Hok' & Hown & _ & Hres).
  fold c in Hq, Hp, Hl, Hrt. set (out := remove_client_in _ c _) in *.
  assert (forall name, name ∈ out.2.*1 <-> Spec.owned_by c (owners (name_queue (mux w)) name)) as Hreported.
  { intros name. rewrite list_elem_of_fmap. split.
    - intros ([n o] & -> & Hin). by apply Hres in Hin as [? _].
    - intros Ho. exists (name, Spec.successor (owners (name_queue (mux w)) name)). split; [done | by apply Hres]. }
  split_and!.
  - by apply disconnect_absent.
  - by rewrite Hq.
  - intros name. by rewrite Hq.
  - intros path p. rewrite Hp. unfold prt_remove_client. cbn [fst requests].
    by rewrite map_lookup_filter_Some.
  - intros name Ho. destruct (Spec.successor (owners (name_queue (mux w)) name)) as [[d u]|] eqn:Es; rewrite Hrt, Hreported;
      setoid_rewrite Hres.
    + intros Hu. split; [left; by exists d, u |]. right. by apply (successor_keeps_owner (name_queue (mux w)) out.1 c name (d, u)).
    + intros [[(d & u & [_ Hs] & _)|[Hn _]] _]; [congruence | done].
  - intros name Hn Hi. rewrite Hrt, Hreported. setoid_rewrite Hres. split.
    + intros [[(? & ? & [? _] & _)|[_ ?]] _]; done.
    + intros Hw. split; [by right |]. left. destruct (clients (mux w) !! c) as [info|] eqn:Ec; [| apply not_elem_of_nil].
      rewrite names_order_all, elem_of_elements. by apply Hi.
  - done.
  - eexists. split; [exact Hl |]. intros name Ho Hs. rewrite !elem_of_app. right. left.
    apply list_elem_of_omap. exists (name, None). split; [| done]. apply Hres. by rewrite Hs.
Qed.

(** A name that a leaving client held alone is given back twice: once for its
    queue, and again as a name without queue, because the name has no owner
    any more by the time that is tested. *)
Lemma leaving_owner_releases_twice {EL : EnvLaws} h info name e w :
  manager_ok (name_queue (mux w)) -> clients (mux w) !! ac_client_id h = Some info ->
  name ∈ owned_names info -> owners (name_queue (mux w)) name = [e] ->
  qe_client_id e = ac_client_id h ->
  exists evs1 evs2, log (disconnect_client h w).2 = log w ++ evs1 ++ evs2 /\
    EvCall Container (CallReleaseName name) ∈ evs1 /\
    EvCall Container (CallReleaseName name) ∈ evs2.
Proof.
  intros Hok Hi Hn He Hec. destruct (disconnect_run h w Hok) as (_ & _ & _ & _ & evs & Hl).
  destruct (remove_client_in_refines (queues_order (name_queue (mux w))) (ac_client_id h) _ Hok
    (queues_order_all _)) as (Hok' & Hown & _ & Hres).
  rewrite Hi, (app_assoc evs) in Hl. eexists _, _. split; [exact Hl |].
  rewrite elem_of_app, !list_elem_of_omap. split.
  - right. exists (name, None). split; [| done]. apply Hres. rewrite He.
    split; [unfold Spec.owned_by; simpl; congruence | done].
  - exists name. split; [by rewrite names_order_all, elem_of_elements |].
    destruct (manager_lookup _ name Hok') as [[Hnone _]|(o & ws & _ & Ho & _)].
    + unfold name_has_owner. by rewrite Hnone.
    + rewrite Hown, He in Ho. unfold Spec.leave in Ho. rewrite filter_cons_False in Ho by auto. done.
Qed.


End Theorems.

(** ** Witnesses *)

Section Witnesses.
#[local] Existing Instance SimpleZbus.
#[local] Existing Instance SimpleZbusLaws.

(** A container bus on which somebody else holds every name. *)
Definition busy_env : Env :=
  env_with (fun _ req => match req with
                         | CallRequestName _ _ => Ok (s_reply 1 1 (s_u32 3))
                         | _ => Ok (s_reply 1 1 (simple_body req))
                         end).

Definition ex_request : Message :=
  s_call ":mux.1" 5 "org.freedesktop.DBus" "RequestName" (s_str_u32 "org.a" 0).


#[local] Existing Instance SimpleEnv.

Definition ex_owner : World := (handle_request_name 1 ex_request ex_registered).2.

Lemma disconnect_forgets_client_witness :
  let w' := (disconnect_client ex_client ex_owner).2 in
  clients (mux w') !! 1 = None /\ manager_ok (name_queue (mux w')) /\
  owners (name_queue (mux w')) "org.a" = [] /\ routed "org.a" ex_owner /\ ~ routed "org.a" w' /\
  EvCall Container (CallReleaseName "org.a") ∈ log w'.
Proof.
  destruct (disconnect_forgets_client (EL := env_with_laws (fun _ req => Ok (s_reply 1 1 (simple_body req))))
    ex_client ex_owner) as (H1 & H2 & H3 & _ & H5 & _ & _ & evs & Hl & H7).
  - apply (bool_decide_unpack _). vm_compute. exact I.
  - split; [exact H1 |]. split; [exact H2 |]. split; [exact (H3 "org.a") |].
    split; [apply (bool_decide_unpack _); vm_compute; exact I |]. split; [exact (H5 "org.a" eq_refl) |].
    assert (EvCall Container (CallReleaseName "org.a") ∈ log ex_owner ++ evs) as Hin
      by (rewrite elem_of_app; right; exact (H7 "org.a" eq_refl eq_refl)).
    rewrite <- Hl in Hin. exact Hin.
Defined.

Lemma leaving_owner_releases_twice_witness :
  exists evs1 evs2, log (disconnect_client ex_client ex_owner).2 = log ex_owner ++ evs1 ++ evs2 /\
    EvCall Container (CallReleaseName "org.a") ∈ evs1 /\
    EvCall Container (CallReleaseName "org.a") ∈ evs2.
Proof.
  refine (leaving_owner_releases_twice (EL := env_with_laws _) ex_client _ "org.a"
    (mkQueueEntry 1 ":mux.1" false) ex_owner _ eq_refl _ eq_refl eq_refl).
  - apply (bool_decide_unpack _). vm_compute. exact I.
  - apply (bool_decide_unpack _). vm_compute. exact I.
Defined.
End Witnesses.
