(* ===== verification/Race.v ===== *)
(** * A race between a request and a disconnection

    The handlers of the main loop and the clean-up of client tasks run in
    parallel and take the locks of the state one at a time.  In
    [handle_request_name] (src/src/multiplexer.rs) the lock on the clients is
    released before the queues are locked, so a whole disconnection fits in
    between.  [request_name_as] is the part of the handler after that point. *)

From S2P Require Import Prelude RustStr Zbus SimpleZbus Errors Message Routing NameQueue SerialMap MatchRules MatchRuleProofs Portal World SimpleEnv Router Multiplexer Frames MuxRules MuxNames.

#[local] Open Scope Z_scope.

Section Orphan.
Context {ZB : Zbus} {E : Env} {EL : EnvLaws}.

(** [e] owns [name], lets nobody replace it, and its client is not connected. *)
Definition orphaned (name : string) (e : QueueEntry) (s : Multiplexer) : Prop :=
  manager_ok (name_queue s) /\ head (owners (name_queue s) name) = Some e /\
  qe_allow_replacement e = false /\ clients s !! qe_client_id e = None.

(** Inputs of other clients; ids are not used again. *)
Definition not_from (c : Z) (i : Input) : Prop :=
  match i with
  | InClient d _ => d <> c
  | InDisconnect h | InAccept (Ok h) => ac_client_id h <> c
  | _ => True
  end.

Section Frame.
Context (name : string) (e : QueueEntry).

#[export] Instance orphaned_table : Tolerates with_table (orphaned name e).
Proof. by intros x s. Qed.
#[export] Instance orphaned_serial_map : Tolerates with_serial_map (orphaned name e).
Proof. by intros x s. Qed.
#[export] Instance orphaned_conn route : Tolerates (with_conn route) (orphaned name e).
Proof. by intros x s. Qed.
#[export] Instance orphaned_refcount : Tolerates with_refcount (orphaned name e).
Proof. by intros x s. Qed.
#[export] Instance orphaned_portal : Tolerates with_portal (orphaned name e).
Proof. by intros x s. Qed.
#[export] Instance orphaned_client f : ToleratesClient f (orphaned name e).
Proof.
  intros c s (H1 & H2 & H3 & H4). split_and!; [done | done | done |]. cbn [clients with_clients].
  destruct (decide (c = qe_client_id e)) as [->|Hne]; [by rewrite lookup_alter_eq, H4 | by rewrite lookup_alter_ne].
Qed.

(** An operation on the queues that keeps the owner of [name]. *)
Lemma orphaned_queue q s :
  orphaned name e s -> manager_ok q -> head (owners q name) = Some e -> orphaned name e (with_name_queue q s).
Proof. by intros (_ & _ & ? & ?) Hq Ho. Qed.

Lemma request_keeps_head x r d l :
  head l = Some e -> qe_allow_replacement e = false -> head (Spec.request x r d l).1 = Some e.
Proof.
  intros Hl Ha. destruct l as [|o ws]; [done |]. injection Hl as ->. unfold Spec.request.
  rewrite Ha, andb_false_r. by repeat case_match.
Qed.

Lemma leave_keeps_head c l : head l = Some e -> c <> qe_client_id e -> head (Spec.leave c l) = Some e.
Proof.
  intros Hl Hc. destruct l as [|o ws]; [done |]. injection Hl as ->. unfold Spec.leave.
  by rewrite filter_cons_True.
Qed.

Lemma orphaned_wf s : orphaned name e s -> manager_ok (name_queue s).
Proof. by intros (? & _). Qed.

Lemma orphaned_request n c u f :
  preserves (orphaned name e) (update name_queue with_name_queue (request_name n c u f)).
Proof.
  apply preserves_queue_request; [apply orphaned_wf |]. intros s q Hs Hok Ho.
  pose proof Hs as (_ & Hh & Ha & _). apply orphaned_queue; [done | done |]. rewrite Ho.
  case_decide; [subst; by apply request_keeps_head | done].
Qed.

Lemma orphaned_release n c :
  c <> qe_client_id e -> preserves (orphaned name e) (update name_queue with_name_queue (release_name n c)).
Proof.
  intros Hc. apply preserves_queue_release; [apply orphaned_wf |]. intros s q Hs Hok Ho.
  pose proof Hs as (_ & Hh & _). apply orphaned_queue; [done | done |]. rewrite Ho.
  case_decide; [subst; by apply leave_keeps_head | done].
Qed.

Lemma orphaned_disconnect h :
  ac_client_id h <> qe_client_id e -> preserves (orphaned name e) (disconnect_client h).
Proof.
  intros Hc. apply preserves_disconnect_by; [apply _ .. | |].
  - intros s (H1 & H2 & H3 & H4). split_and!; [done | done | done |].
    cbn [clients with_clients]. by rewrite lookup_delete_ne.
  - apply preserves_queue_remove; [apply orphaned_wf |]. intros s q Hs Hok Ho.
    pose proof Hs as (_ & Hh & _). apply orphaned_queue; [done | done |]. rewrite Ho. by apply leave_keeps_head.
Qed.

Lemma orphaned_input i : not_from (qe_client_id e) i -> input_preserves (orphaned name e) i.
Proof.
  intros Hi. destruct i as [[h|err]|h|route [[msg|]|err]|c msg|]; constructor.
  - apply preserves_modify. intros s (H1 & H2 & H3 & H4). split_and!; [done | done | done |].
    cbn [clients with_clients]. by rewrite lookup_insert_ne.
  - by apply orphaned_disconnect.
  - apply preserves_bus_message; [apply _ .. |]. by apply preserves_handle_reply; apply _.
  - apply preserves_client_message; [intros; apply preserves_forward; apply _ |].
    apply preserves_dbus_method; [apply preserves_forward; apply _ | | | |].
    + apply preserves_request_name_by; [apply _ .. | |]; intros; [apply orphaned_request | by apply orphaned_release].
    + apply preserves_release_name_by; [apply _ .. | |]; intros; [walk | by apply orphaned_release].
    + apply preserves_add_match; apply _.
    + apply preserves_remove_match; apply _.
  - apply preserves_cleanup; [apply _ |]. unfold router_cleanup_expired. walk.
Qed.
End Frame.

(** The rest of the handler when the name is free and the bus answers. *)
Lemma late_request c msg name flags u reply w :
  manager_ok (name_queue (mux w)) -> owners (name_queue (mux w)) name = [] ->
  clients (mux w) !! c = None -> has_flag flags request_name_flags.ALLOW_REPLACEMENT = false ->
  bus_answer (log w) Container (CallRequestName name flags) = Ok reply ->
  orphaned name (mkQueueEntry c u false) (mux (request_name_as c msg name flags u w).2).
Proof.
  intros Hm Ho Hc Hf Hb. unfold request_name_as, bind at 1, update.
  destruct (request_name_spec (name_queue (mux w)) name c u flags Hm) as (Hok & Hr & Hq).
  rewrite Ho in Hr, Hq. cbn [Spec.request fst snd] in Hr, Hq. rewrite Hf in Hq. specialize (Hq name).
  rewrite decide_True in Hq by done.
  destruct (request_name name c u flags _) as [q r]. cbn [fst snd] in *. subst r.
  set (w1 := mkWorld _ _).
  assert (orphaned name (mkQueueEntry c u false) (mux w1)) as H1
    by (split_and!; [done | cbn; by rewrite Hq | done | done]).
  unfold request_on_bus. cbn [rq_forward_to_bus rq_reply_code]. unfold bind at 1, call_method.
  cbn [log w1]. rewrite Hb. cbv zeta.
  pose proof (preserves_reply (orphaned name (mkQueueEntry c u false))).
  assert (forall b : bool, preserves (orphaned name (mkQueueEntry c u false))
    ((if b then update_table (on_container_name_change name "" u) ;! update_client c (add_owned name) else ret tt) ;!
     send_reply_to_client c msg (BodyU32 request_name_reply.PRIMARY_OWNER))) as Hk by (intros b; walk).
  destruct (_ || _); [apply (Hk true) | apply (Hk false)]; exact H1.
Qed.

(** An answer adds to the log. *)
Lemma reply_log c msg body w : exists evs, log (send_reply_to_client c msg body w).2 = log w ++ evs.
Proof.
  unfold send_reply_to_client, bind, get, send_to, ret.
  repeat case_match; simplify_eq/=; solve [eexists; reflexivity | exists []; by rewrite app_nil_r].
Qed.

(** A name without owner is asked for on the container bus. *)
Lemma late_request_called c msg name flags u reply w :
  manager_ok (name_queue (mux w)) -> owners (name_queue (mux w)) name = [] ->
  bus_answer (log w) Container (CallRequestName name flags) = Ok reply ->
  exists evs, log (request_name_as c msg name flags u w).2 = log w ++ EvCall Container (CallRequestName name flags) :: evs.
Proof.
  intros Hm Ho Hb. unfold request_name_as, bind at 1, update.
  destruct (request_name_spec (name_queue (mux w)) name c u flags Hm) as (_ & Hr & _).
  rewrite Ho in Hr. cbn [Spec.request snd] in Hr.
  destruct (request_name name c u flags _) as [q r]. cbn [fst snd] in *. subst r.
  unfold request_on_bus. cbn [rq_forward_to_bus rq_reply_code]. unfold bind at 1, call_method. cbn [log]. rewrite Hb. cbv zeta.
  set (after := mkWorld _ (log w ++ _)).
  assert (forall w2, log w2 = log after -> exists evs,
    log (send_reply_to_client c msg (BodyU32 request_name_reply.PRIMARY_OWNER) w2).2
    = log w ++ EvCall Container (CallRequestName name flags) :: evs) as Hreply.
  { intros w2 Hw2. destruct (reply_log c msg (BodyU32 request_name_reply.PRIMARY_OWNER) w2) as [evs ->].
    exists evs. rewrite Hw2. cbn [log after]. by rewrite <- app_assoc. }
  destruct (_ || _); by apply Hreply.
Qed.

(** C33. Finding: a client that disconnects while its RequestName is being handled
    can become the owner of the name after it is gone.  Suppose nobody owns the
    name, the request does not allow replacement and the call to the container
    bus does not fail; if the disconnection comes after the handler has read the
    client's unique name and before it locks the queues, the name is requested
    on the container bus and owned by a client that is not connected, and it
    stays so whatever the other clients, the buses and the clock do. *)
Theorem late_request_orphans_name h msg (name : string) (flags : Z) info reply inputs w :
  let c := ac_client_id h in
  clients (mux w) !! c = Some info ->
  manager_ok (name_queue (mux w)) -> owners (name_queue (mux w)) name = [] ->
  has_flag flags request_name_flags.ALLOW_REPLACEMENT = false ->
  let w1 := (disconnect_client h w).2 in
  bus_answer (log w1) Container (CallRequestName name flags) = Ok reply ->
  Forall (not_from c) inputs ->
  let w2 := (request_name_as c msg name flags (unique_name info) w1).2 in
  let w3 := (run inputs w2).2 in
  (exists evs, log w2 = log w1 ++ EvCall Container (CallRequestName name flags) :: evs) /\
  get_primary_owner name (name_queue (mux w3)) = Some (c, unique_name info) /\
  clients (mux w3) !! c = None.
Proof.
  intros c Hc Hm Ho Hf w1 Hb Hin w2 w3.
  destruct (disconnect_run h w Hm) as (Hq & _).
  destruct (remove_client_in_refines (queues_order (name_queue (mux w))) c _ Hm (queues_order_all _))
    as (Hok & Hown & _).
  set (e := mkQueueEntry c (unique_name info) false).
  assert (manager_ok (name_queue (mux w1))) as Hm1 by (unfold w1; by rewrite Hq).
  assert (owners (name_queue (mux w1)) name = []) as Ho1 by (unfold w1; by rewrite Hq, Hown, Ho).
  assert (orphaned name e (mux w2)) as H2 by (by apply (late_request _ _ _ _ _ reply); [| | apply disconnect_absent | |]).
  assert (orphaned name e (mux w3)) as (Hm3 & Hh & _ & Hc3).
  { apply (preserves_run (orphaned name e)); [| done]. eapply Forall_impl; [done |].
    intros i Hi. by apply orphaned_input. }
  split; [by eapply late_request_called |]. split; [| done]. by rewrite get_primary_owner_head, Hh.
Qed.
End Orphan.

(** ** Witness *)

Section Witnesses.
#[local] Existing Instance SimpleZbus.
#[local] Existing Instance SimpleZbusLaws.
#[local] Existing Instance SimpleEnv.

#[local] Instance simple_laws : EnvLaws.
Proof. apply env_with_laws. Qed.

(** Another client asks for the name and waits in vain. *)
Definition ex_later : list Input :=
  [InAccept (Ok (mkAccepted 2 ":mux.2" (mkClientCredentials 1000 (Some 43) 1000)));
   InClient 2 (s_call ":mux.2" 2 "org.freedesktop.DBus" "RequestName" (s_str_u32 "org.a" 2));
   InTick].

Lemma late_request_orphans_name_witness :
  let w1 := (disconnect_client ex_client ex_registered).2 in
  let w2 := (request_name_as 1 ex_request "org.a" 0 ":mux.1" w1).2 in
  let w3 := (run ex_later w2).2 in
  (exists evs, log w2 = log w1 ++ EvCall Container (CallRequestName "org.a" 0) :: evs) /\
  get_primary_owner "org.a" (name_queue (mux w3)) = Some (1, ":mux.1") /\ clients (mux w3) !! 1 = None.
Proof.
  refine (late_request_orphans_name ex_client ex_request "org.a" 0
    (mkClientInfo ":mux.1" ∅ ClientMatchRules_new (mkClientCredentials 1000 (Some 42) 1000))
    (s_reply 1 1 (s_u32 1)) ex_later ex_registered eq_refl _ eq_refl eq_refl eq_refl _).
  - apply map_Forall_empty.
  - repeat constructor; done.
Defined.
End Witnesses.
