(* ===== verification/Isolation.v ===== *)
(** * Clients do not disturb each other

    What the multiplexer (src/src/multiplexer.rs) keeps for a client changes
    only through that client's own messages and its own coming and going: its
    unique name, its match rules, its credentials and its places in the queues
    of names.  Other clients can only add to the names it owns, when a name it
    waits for becomes free. *)

From S2P Require Import Prelude RustStr Zbus SimpleZbus Errors Message Routing NameQueue SerialMap MatchRules MatchRuleProofs Portal World SimpleEnv Router Multiplexer Frames MuxRules MuxNames Race.

#[local] Open Scope Z_scope.

(** The entries of a queue that belong to clients of [D], in their order. *)
Definition places (D : Z -> Prop) `{forall c, Decision (D c)} (l : list QueueEntry) : list QueueEntry :=
  filter (fun e => D (qe_client_id e)) l.

(** A client's record is as it was, except for names it has gained. *)
Definition record_kept (i0 i : option ClientInfo) : Prop :=
  match i0, i with
  | None, None => True
  | Some i0, Some i =>
      unique_name i = unique_name i0 /\ match_rules i = match_rules i0 /\ credentials i = credentials i0 /\
      owned_names i0 ⊆ owned_names i
  | _, _ => False
  end.

(** The lemmas of this file are for the clients of [D] and a state [s0]. *)
Section Isolation.
Context {ZB : Zbus} {E : Env} {EL : EnvLaws}.
Context (D : Z -> Prop) `{D_dec : forall c, Decision (D c)} (s0 : Multiplexer).

Definition kept (s : Multiplexer) : Prop :=
  manager_ok (name_queue s) /\
  (forall d, D d -> record_kept (clients s0 !! d) (clients s !! d)) /\
  (forall name, places D (owners (name_queue s) name) = places D (owners (name_queue s0) name)).

#[global] Instance kept_table : Tolerates with_table kept.
Proof. by intros x s. Qed.
#[global] Instance kept_serial_map : Tolerates with_serial_map kept.
Proof. by intros x s. Qed.
#[global] Instance kept_conn route : Tolerates (with_conn route) kept.
Proof. by intros x s. Qed.
#[global] Instance kept_refcount : Tolerates with_refcount kept.
Proof. by intros x s. Qed.
#[global] Instance kept_portal : Tolerates with_portal kept.
Proof. by intros x s. Qed.

(** A change of the clients that is harmless to those of [D]. *)
Lemma kept_clients m s :
  kept s -> (forall d, D d -> record_kept (clients s !! d) (m !! d)) -> kept (with_clients m s).
Proof.
  intros (Hm & Hc & Hp) Hd. split_and!; [done | | done]. intros d Hin. specialize (Hc d Hin).
  specialize (Hd d Hin). cbn [clients with_clients]. unfold record_kept in *.
  repeat case_match; try done. destruct Hc as (? & ? & ? & ?), Hd as (? & ? & ? & ?).
  split_and!; [congruence .. | by etrans].
Qed.

Lemma record_kept_refl i : record_kept i i.
Proof. by destruct i. Qed.

Lemma kept_other m c s :
  ~ D c -> kept s -> (forall d, d <> c -> m !! d = clients s !! d) -> kept (with_clients m s).
Proof.
  intros Hc Hs Hm. apply kept_clients; [done |]. intros d Hd.
  rewrite Hm by congruence. apply record_kept_refl.
Qed.

#[global] Instance kept_add_owned name : ToleratesClient (add_owned name) kept.
Proof.
  intros c s Hs. apply kept_clients; [done |]. intros d Hd.
  destruct (decide (c = d)) as [->|Hne]; [rewrite lookup_alter_eq | rewrite lookup_alter_ne by done; apply record_kept_refl].
  destruct (clients s !! d) as [i|]; [| done]. split_and!; [done .. |]. cbn. apply union_subseteq_r.
Qed.

Lemma kept_alter c f : ~ D c -> preserves kept (update_client c f).
Proof.
  intros Hc. apply preserves_modify. intros s Hs. apply (kept_other _ c); [done | done |].
  intros d Hd. by rewrite lookup_alter_ne.
Qed.

(** ** The queues *)

Lemma places_leave c l : ~ D c -> places D (Spec.leave c l) = places D l.
Proof.
  intros Hc. unfold places, Spec.leave. rewrite list_filter_filter. apply list_filter_iff.
  intros e. split; [by intros [? _] | intros He; split; [done |]]. congruence.
Qed.

Lemma places_other e : ~ D (qe_client_id e) -> places D [e] = [].
Proof. intros He. unfold places. by rewrite filter_cons_False. Qed.

Lemma places_request e r d l : ~ D (qe_client_id e) -> places D (Spec.request e r d l).1 = places D l.
Proof.
  intros He. unfold Spec.request. destruct l as [|o ws]; [by apply places_other |].
  repeat case_match; try done; cbn [fst].
  - unfold places. by rewrite filter_cons_False.
  - unfold places. rewrite filter_app. fold (places D [e]). by rewrite places_other, app_nil_r.
Qed.

Lemma kept_wf s : kept s -> manager_ok (name_queue s).
Proof. by intros (? & _). Qed.

Lemma kept_queue q s :
  kept s -> manager_ok q ->
  (forall n, places D (owners q n) = places D (owners (name_queue s) n)) -> kept (with_name_queue q s).
Proof. intros (Hm & Hc & Hp) Hq Hn. split_and!; [done | done |]. intros n. cbn [name_queue with_name_queue]. by rewrite Hn. Qed.

Lemma kept_request n c u f :
  ~ D c -> preserves kept (update name_queue with_name_queue (request_name n c u f)).
Proof.
  intros Hc. apply preserves_queue_request; [apply kept_wf |]. intros s q Hs Hok Ho.
  apply kept_queue; [done | done |]. intros n'. rewrite Ho. case_decide; [subst; by apply places_request | done].
Qed.

Lemma kept_release n c : ~ D c -> preserves kept (update name_queue with_name_queue (release_name n c)).
Proof.
  intros Hc. apply preserves_queue_release; [apply kept_wf |]. intros s q Hs Hok Ho.
  apply kept_queue; [done | done |]. intros n'. rewrite Ho. case_decide; [subst; by apply places_leave | done].
Qed.

Lemma kept_remove c :
  ~ D c -> preserves kept (fun w => update name_queue with_name_queue
    (remove_client_in (queues_order (name_queue (mux w))) c) w).
Proof.
  intros Hc. apply preserves_queue_remove; [apply kept_wf |]. intros s q Hs Hok Ho.
  apply kept_queue; [done | done |]. intros n. rewrite Ho. by apply places_leave.
Qed.

(** ** Inputs *)

Lemma kept_disconnect h : ~ D (ac_client_id h) -> preserves kept (disconnect_client h).
Proof.
  intros Hc. apply preserves_disconnect_by; [apply _ .. | |].
  - intros s Hs. apply (kept_other _ (ac_client_id h)); [done | done |]. intros d Hd. by rewrite lookup_delete_ne.
  - by apply kept_remove.
Qed.

Lemma kept_rules c msg :
  ~ D c -> preserves kept (handle_add_match c msg) /\ preserves kept (handle_remove_match c msg).
Proof.
  intros Hc. pose proof (preserves_reply kept). pose proof (preserves_error kept).
  assert (forall f, preserves kept (update_client c f)) by (intros f; by apply kept_alter).
  assert (forall route rule, preserves kept (add_upstream route rule)) by (intros; apply preserves_add_upstream; apply _).
  assert (forall route rule, preserves kept (remove_upstream route rule)) by (intros; apply preserves_remove_upstream; apply _).
  split; (apply preserves_with_body; intros rule; unfold install_rule; walk).
Qed.

Lemma kept_input i : (forall d, D d -> not_from d i) -> input_preserves kept i.
Proof.
  intros Hi. destruct i as [[h|err]|h|route [[msg|]|err]|c msg|]; constructor; cbn [not_from] in Hi.
  - apply preserves_modify. intros s Hs. apply (kept_other _ (ac_client_id h)); [naive_solver | done |].
    intros d Hd. by rewrite lookup_insert_ne.
  - apply kept_disconnect. naive_solver.
  - apply preserves_bus_message; [apply _ .. |]. by apply preserves_handle_reply; apply _.
  - assert (~ D c) as Hc by naive_solver. destruct (kept_rules c msg Hc) as [H1 H2].
    apply preserves_client_message; [intros; apply preserves_forward; apply _ |].
    apply preserves_dbus_method; [apply preserves_forward; apply _ | | | done | done].
    + apply preserves_request_name_by; [apply _ .. | |]; intros; [by apply kept_request | by apply kept_release].
    + apply preserves_release_name_by; [apply _ .. | |]; intros; [by apply kept_alter | by apply kept_release].
  - apply preserves_cleanup; [apply _ |]. unfold router_cleanup_expired. walk.
Qed.
End Isolation.

Section Theorems.
Context {ZB : Zbus} {E : Env} {EL : EnvLaws}.

(** Isolation: whatever the other clients, the buses and the clock do,
    the clients of a set [D] keep their unique names, match rules, credentials
    and the names they own, stay connected (or absent), and keep their places
    in the queue of every name: nobody outside [D] can remove one of them from
    a queue, add one, or make one overtake another. *)
Lemma clients_isolated (D : Z -> Prop) `{forall c, Decision (D c)} inputs w :
  manager_ok (name_queue (mux w)) ->
  Forall (fun i => forall d, D d -> not_from d i) inputs ->
  let s' := mux (run inputs w).2 in
  (forall d, D d -> record_kept (clients (mux w) !! d) (clients s' !! d)) /\
  (forall name, places D (owners (name_queue s') name) = places D (owners (name_queue (mux w)) name)).
Proof.
  intros Hm Hin. cut (kept D (mux w) (mux (run inputs w).2)); [by intros (_ & ? & ?) |].
  apply (preserves_run (kept D (mux w))).
  - eapply Forall_impl; [done |]. intros i Hi. by apply kept_input.
  - split_and!; [done | intros; apply record_kept_refl | done].
Qed.
End Theorems.

(** ** Witness *)

Section Witnesses.
#[local] Existing Instance SimpleZbus.
#[local] Existing Instance SimpleEnv.

#[local] Instance ex_env_laws : EnvLaws.
Proof. apply env_with_laws. Qed.

(** A second client asks for the first one's name, adds a rule and leaves. *)
Definition ex_visitor : list Input :=
  let h := mkAccepted 2 ":mux.2" (mkClientCredentials 1000 (Some 43) 1000) in
  let call member body := InClient 2 (s_call ":mux.2" 2 "org.freedesktop.DBus" member body) in
  [InAccept (Ok h); call "RequestName" (s_str_u32 "org.a" 2); call "AddMatch" (s_str "type='signal'");
   InTick; InDisconnect h].

Lemma clients_isolated_witness :
  let s' := mux (run ex_visitor ex_owner).2 in
  record_kept (clients (mux ex_owner) !! 1) (clients s' !! 1) /\
  places (fun c => c = 1) (owners (name_queue s') "org.a") = [mkQueueEntry 1 ":mux.1" false].
Proof.
  destruct (clients_isolated (fun c => c = 1) ex_visitor ex_owner) as [H1 H2].
  - apply (bool_decide_unpack _). vm_compute. exact I.
  - repeat constructor; by intros d ->.
  - split; [by apply H1 | exact (H2 "org.a")].
Defined.
End Witnesses.
