(* ===== verification/Auth.v ===== *)
(** * SASL authentication (src/src/auth.rs)

    The server side of the EXTERNAL mechanism, over a reader of lines.  The
    code runs on a [BufReader] that takes the bytes of the socket in chunks of
    any size; the reference it is compared with reads the same bytes from one
    string.  [hex::decode] and [hex::encode] are parameters, and so are the
    process' own UID and the failures of the socket. *)

From S2P Require Import Prelude RustStr Zbus SimpleZbus Errors.
From Stdlib Require Import Ascii.

#[local] Open Scope Z_scope.

(** ** Strings from bytes *)

Definition LF : ascii := ascii_of_nat 10.
Definition CR : ascii := ascii_of_nat 13.
Definition CRLF : string := String CR (String LF "").

(** One character at the front of UTF-8 data: its length, or how many bytes
    are in error ([None]: the data ends within a character). *)
Definition cont (s : string) (lo hi : Z) (bad : nat) (k : string -> option nat + nat)
    : option nat + nat :=
  match s with
  | EmptyString => inl None
  | String b s' => if in_range lo hi (byte_val b) then k s' else inl (Some bad)
  end.

Definition utf8_char (s : string) : option nat + nat :=
  match s with
  | EmptyString => inr 0%nat
  | String a s1 =>
      let x := byte_val a in
      if x <? 0x80 then inr 1%nat
      else if in_range 0xC2 0xDF x then cont s1 0x80 0xBF 1 (fun _ => inr 2%nat)
      else if in_range 0xE0 0xEF x then
        cont s1 (if x =? 0xE0 then 0xA0 else 0x80) (if x =? 0xED then 0x9F else 0xBF) 1 (fun s2 =>
        cont s2 0x80 0xBF 2 (fun _ => inr 3%nat))
      else if in_range 0xF0 0xF4 x then
        cont s1 (if x =? 0xF0 then 0x90 else 0x80) (if x =? 0xF4 then 0x8F else 0xBF) 1 (fun s2 =>
        cont s2 0x80 0xBF 2 (fun s3 =>
        cont s3 0x80 0xBF 3 (fun _ => inr 4%nat)))
      else inl (Some 1%nat)
  end.

(** [String::from_utf8]: [None] when valid, else the position of the error.
    [skip] counts the bytes of the current character still to pass. *)
Fixpoint utf8_error (skip pos : nat) (s : string) : option (nat * option nat) :=
  match s with
  | EmptyString => None
  | String _ s' =>
      match skip with
      | S k => utf8_error k (S pos) s'
      | O =>
          match utf8_char s with
          | inl len => Some (pos, len)
          | inr n => utf8_error (n - 1) (S pos) s'
          end
      end
  end.

Definition utf8_error_text (e : nat * option nat) : string :=
  let at_ := " from index " +:+ to_dec (Z.of_nat e.1) in
  match e.2 with
  | Some n => "invalid utf-8 sequence of " +:+ to_dec (Z.of_nat n) +:+ " bytes" +:+ at_
  | None => "incomplete utf-8 byte sequence" +:+ at_
  end.

(** The text of the [ParseIntError] of [s.parse::<u32>()]. *)
Fixpoint digits_error (max acc : Z) (s : string) : string :=
  match s with
  | EmptyString => ""
  | String c s' =>
      match digit_val c with
      | None => "invalid digit found in string"
      | Some d =>
          let acc' := acc * 10 + d in
          if max <? acc' then "number too large to fit in target type" else digits_error max acc' s'
      end
  end.

Definition parse_int_error_text (max : Z) (s : string) : string :=
  match s with
  | EmptyString => "cannot parse integer from empty string"
  | String c s' =>
      if Ascii.eqb c "+" && negb (is_empty s') then digits_error max 0 s' else digits_error max 0 s
  end.

Definition u32_max : Z := u32_modulus - 1.

(** ** Readers of lines *)

(** What [AsyncBufReadExt::read_line] needs of a reader: the bytes up to and
    including the next newline, or up to the end of the data; the bytes held
    in the reader's buffer; and a bound on what is left. *)
Class LineSource (R : Type) := {
  read_until_newline : R -> result IoError string * R;
  buffer : R -> string;
  bytes_left : R -> nat;
}.

Class LineSourceLaws (R : Type) {L : LineSource R} : Prop := {
  read_consumes r line r' :
    read_until_newline r = (Ok line, r') -> (String.length line + bytes_left r' <= bytes_left r)%nat;
}.

(** The bytes as one string: the reference. *)
#[export] Instance Plain : LineSource string := {|
  read_until_newline := fun s =>
    match find_char LF s with
    | Some i => (Ok (str_take (S i) s), str_drop (S i) s)
    | None => (Ok s, "")
    end;
  buffer := fun s => s;
  bytes_left := String.length;
|}.

(** [BufReader] over a socket: [br_in] is what the next reads return, each an
    error or the bytes that have arrived, at most the 8 KiB of the buffer; the
    end of the list is the end of the stream. *)
Record BufReader := mkBufReader {
  br_buf : string;
  br_in : list (result IoError string);
}.

Fixpoint buf_read_until (buf : string) (ins : list (result IoError string))
    : result IoError string * BufReader :=
  match find_char LF buf with
  | Some i => (Ok (str_take (S i) buf), mkBufReader (str_drop (S i) buf) ins)
  | None =>
      match ins with
      | [] => (Ok buf, mkBufReader "" [])
      | Err e :: rest => (Err e, mkBufReader "" rest)
      | Ok chunk :: rest =>
          if is_empty chunk then (Ok buf, mkBufReader "" rest)
          else
            let '(r, b) := buf_read_until chunk rest in
            (match r with Ok line => Ok (buf +:+ line) | Err e => Err e end, b)
      end
  end.

Definition input_length (ins : list (result IoError string)) : nat :=
  foldr (fun c n => match c with Ok s => String.length s | Err _ => 0 end + n)%nat 0%nat ins.

#[export] Instance Buffered : LineSource BufReader := {|
  read_until_newline := fun b => buf_read_until (br_buf b) (br_in b);
  buffer := br_buf;
  bytes_left := fun b => (String.length (br_buf b) + input_length (br_in b))%nat;
|}.

(** ** The protocol *)

(** The server's side of authentication; [uuid] is the random part of a new
    GUID, 32 hexadecimal digits from the uuid crate. *)
Record SaslAuth := mkSaslAuth {
  sasl_server_guid : string;
}.

Definition generate_guid (uuid : string) : string := uuid.
Definition SaslAuth_new (uuid : string) : SaslAuth := mkSaslAuth (generate_guid uuid).
Definition SaslAuth_default (uuid : string) : SaslAuth := SaslAuth_new uuid.
Definition with_guid (guid : string) : SaslAuth := mkSaslAuth guid.
Definition sasl_guid (self : SaslAuth) : string := sasl_server_guid self.

Record AuthResult := mkAuthResult {
  ar_uid : Z;
  ar_buffered_data : string;
}.

Section Auth.
Context `{ZB : Zbus} {R : Type} {L : LineSource R}.
Context (server_guid : string) (own_uid : Z).
Context (hex_decode : string -> result string string).
(* the error of the next write to the socket, given what was written before *)
Context (write_error : list string -> option IoError).

Record Conn := mkConn {
  reader : R;
  written : list string;
}.

(** Code that may fail with an [Error]; [?] is its bind. *)
Definition C (A : Type) : Type := Conn -> result Error A * Conn.

Definition c_ret {A} (a : A) : C A := fun c => (Ok a, c).
Definition c_fail {A} (e : Error) : C A := fun c => (Err e, c).
Definition c_bind {A B} (m : C A) (k : A -> C B) : C B :=
  fun c => let '(r, c') := m c in match r with Ok a => k a c' | Err e => (Err e, c') end.

Definition write_all (s : string) : C unit :=
  fun c => match write_error (written c) with
           | Some e => (Err (Io e), c)
           | None => (Ok tt, mkConn (reader c) (written c ++ [s]))
           end.

(** [if line.ends_with(c) { line.pop(); }] *)
Definition pop_if (c : ascii) (line : string) : string :=
  if ends_with line (String c "") then str_take (String.length line - 1) line else line.

Definition strip_newline (line : string) : string := pop_if CR (pop_if LF line).

Definition read_line : C string :=
  fun c =>
    let '(r, rd) := read_until_newline (reader c) in
    let c' := mkConn rd (written c) in
    match r with
    | Err e => (Err (Io e), c')
    | Ok raw =>
        match utf8_error 0 0 raw with
        | Some _ => (Err (Io (mkIoError InvalidDataKind "stream did not contain valid UTF-8")), c')
        | None =>
            let line := strip_newline raw in
            if is_empty line then (Err (Io (mkIoError UnexpectedEof "Empty line")), c')
            else (Ok line, c')
        end
    end.

Definition invalid_data {A} (text : string) : result Error A := Err (Auth (InvalidData text)).

Definition parse_hex_uid (hex : string) : result Error Z :=
  match hex_decode hex with
  | Err e => invalid_data ("Invalid hex: " +:+ e)
  | Ok bytes =>
      match utf8_error 0 0 bytes with
      | Some e => invalid_data ("Invalid UTF-8: " +:+ utf8_error_text e)
      | None =>
          match parse_uint u32_max bytes with
          | Some uid => Ok uid
          | None => invalid_data ("Invalid UID: " +:+ parse_int_error_text u32_max bytes)
          end
      end
  end.

Definition lift {A} (r : result Error A) : C A := fun c => (r, c).

Definition complete_auth (uid : Z) : C AuthResult :=
  c_bind (write_all ("OK " +:+ server_guid +:+ CRLF)) (fun _ =>
  c_bind read_line (fun line =>
  c_bind
    (if String.eqb line "NEGOTIATE_UNIX_FD" then
       c_bind (write_all ("AGREE_UNIX_FD" +:+ CRLF)) (fun _ =>
       c_bind read_line (fun line =>
       if negb (String.eqb line "BEGIN") then c_fail (Auth ExpectedBegin) else c_ret tt))
     else if negb (String.eqb line "BEGIN") then c_fail (Auth ExpectedBegin)
     else c_ret tt) (fun _ =>
  fun c => (Ok (mkAuthResult uid (buffer (reader c))), c)))).

(** What one iteration of the loop does with a line: finish, or go round again
    after a REJECTED. *)
Definition auth_line (line : string) : C (option AuthResult) :=
  let reject := c_bind (write_all ("REJECTED EXTERNAL" +:+ CRLF)) (fun _ => c_ret None) in
  let finish uid := c_bind (complete_auth uid) (fun a => c_ret (Some a)) in
  match strip_prefix "AUTH EXTERNAL " line with
  | Some hex_uid => c_bind (lift (parse_hex_uid hex_uid)) finish
  | None =>
      if String.eqb line "AUTH EXTERNAL" then
        c_bind (write_all ("DATA" +:+ CRLF)) (fun _ =>
        c_bind read_line (fun line =>
        match strip_prefix "DATA " line with
        | Some hex_uid => c_bind (lift (parse_hex_uid hex_uid)) finish
        | None =>
            if String.eqb line "DATA" then finish own_uid
            else c_fail (Auth (InvalidData ("Expected DATA response, got: " +:+ line)))
        end))
      else if String.eqb line "AUTH" then reject
      else if starts_with line "AUTH " then reject
      else if String.eqb line "CANCEL" then reject
      else if String.eqb line "ERROR" || starts_with line "ERROR " then reject
      else c_fail (Auth (InvalidData ("Unexpected line: " +:+ line)))
  end.

(** The loop; [None] when [fuel] runs out. *)
Fixpoint auth_loop (fuel : nat) (c : Conn) : option (result Error AuthResult * Conn) :=
  match fuel with
  | O => None
  | S fuel' =>
      match c_bind read_line auth_line c with
      | (Ok (Some a), c') => Some (Ok a, c')
      | (Ok None, c') => auth_loop fuel' c'
      | (Err e, c') => Some (Err e, c')
      end
  end.

End Auth.

Arguments Conn R : clear implicits.
Arguments C {ZB} R A.

(** [stream.read_exact] of one byte, before the [BufReader] is made. *)
Definition read_null (ins : list (result IoError string)) : result IoError ascii * list (result IoError string) :=
  match ins with
  | [] => (Err (mkIoError UnexpectedEof "early eof"), [])
  | Err e :: rest => (Err e, rest)
  | Ok EmptyString :: rest => (Err (mkIoError UnexpectedEof "early eof"), rest)
  | Ok (String b s) :: rest => (Ok b, if is_empty s then rest else Ok s :: rest)
  end.

Definition NUL : ascii := ascii_of_nat 0.

(** [authenticate_server] on a socket; every round reads a byte at least, so the
    length of the input is fuel enough (lemma [auth_returns]). *)
Definition authenticate_server `{Zbus} (server_guid : string) (own_uid : Z)
    (hex_decode : string -> result string string) (write_error : list string -> option IoError)
    (ins : list (result IoError string)) : option (result Error AuthResult * Conn BufReader) :=
  let '(r, rest) := read_null ins in
  let c := mkConn (mkBufReader "" rest) [] in
  match r with
  | Err e => Some (Err (Io e), c)
  | Ok b =>
      if negb (Ascii.eqb b NUL) then Some (Err (Auth ExpectedNullByte), c)
      else auth_loop server_guid own_uid hex_decode write_error (S (input_length rest)) c
  end.

(** The same protocol on the bytes as one string. *)
Definition authenticate_plain `{Zbus} (server_guid : string) (own_uid : Z)
    (hex_decode : string -> result string string) (write_error : list string -> option IoError)
    (data : string) : option (result Error AuthResult * Conn string) :=
  match data with
  | EmptyString => Some (Err (Io (mkIoError UnexpectedEof "early eof")), mkConn "" [])
  | String b s =>
      if negb (Ascii.eqb b NUL) then Some (Err (Auth ExpectedNullByte), mkConn s [])
      else auth_loop server_guid own_uid hex_decode write_error (S (String.length s)) (mkConn s [])
  end.

Definition encode_uid (hex_encode : string -> string) (uid : Z) : string := hex_encode (to_dec uid).

(** ** Lemmas on lines *)

Lemma find_char_app_r c s t :
  str_contains_char c s = false ->
  find_char c (s +:+ t) = (fun i => String.length s + i)%nat <$> find_char c t.
Proof.
  induction s as [|a s IH]; intros H; [by rewrite str_app_nil_l; destruct (find_char c t) |].
  cbn [str_contains_char] in H. apply orb_false_iff in H as [Ha Hs].
  rewrite str_app_cons. cbn [find_char]. rewrite Ha, IH by done. by destruct (find_char c t).
Qed.

Lemma str_take_drop_app i s t :
  (i <= String.length s)%nat ->
  str_take i (s +:+ t) = str_take i s /\ str_drop i (s +:+ t) = str_drop i s +:+ t.
Proof.
  revert i. induction s as [|a s IH]; intros [|i] Hi; simpl in Hi; try lia; try done.
  rewrite str_app_cons. simpl. by destruct (IH i ltac:(lia)) as [-> ->].
Qed.

Lemma str_take_drop_app_r s i t :
  str_take (String.length s + i) (s +:+ t) = s +:+ str_take i t /\
  str_drop (String.length s + i) (s +:+ t) = str_drop i t.
Proof.
  induction s as [|a s [IH1 IH2]]; [done |]. rewrite !str_app_cons. simpl.
  by rewrite IH1, IH2.
Qed.

Lemma str_take_drop_length i s :
  (String.length (str_take i s) + String.length (str_drop i s) <= String.length s)%nat.
Proof. revert s. induction i as [|i IH]; intros [|a s]; simpl; try lia. specialize (IH s). lia. Qed.

Lemma find_char_lt c s i : find_char c s = Some i -> (i < String.length s)%nat.
Proof.
  intros (p & r & -> & -> & _)%find_char_split. rewrite str_length_app. simpl. lia.
Qed.

(** ** Both readers consume what they return *)

#[export] Instance Plain_laws : LineSourceLaws string.
Proof.
  constructor. intros s line r'. cbn [read_until_newline bytes_left Plain].
  destruct (find_char LF s) as [i|]; intros [= <- <-].
  - apply (str_take_drop_length (S i) s).
  - simpl. lia.
Qed.

Lemma buf_read_until_consumes ins buf line b' :
  buf_read_until buf ins = (Ok line, b') ->
  (String.length line + (String.length (br_buf b') + input_length (br_in b')) <=
     String.length buf + input_length ins)%nat.
Proof.
  revert buf line b'. induction ins as [|c ins IH]; intros buf line b'; cbn [buf_read_until];
    destruct (find_char LF buf) as [i|]; try (intros [= <- <-]; cbn [br_buf br_in]).
  1, 3: pose proof (str_take_drop_length (S i) buf) as Hl; cbn [str_take str_drop] in *; unfold input_length in *; lia.
  - simpl. lia.
  - destruct c as [chunk|e]; [| done]. destruct chunk as [|a chunk]; cbn [is_empty].
    + intros [= <- <-]. simpl. lia.
    + destruct (buf_read_until (String a chunk) ins) as [[line'|e] b] eqn:E; intros [= <- <-].
      apply IH in E. rewrite str_length_app. cbn [input_length foldr] in *.
      unfold input_length in *. lia.
Qed.

#[export] Instance Buffered_laws : LineSourceLaws BufReader.
Proof. constructor. intros [buf ins] line b'. apply buf_read_until_consumes. Qed.

(** ** Termination *)

Section Terminates.
Context `{ZB : Zbus} {R : Type} {L : LineSource R} {LL : LineSourceLaws R}.
Context (server_guid : string) (own_uid : Z).
Context (hex_decode : string -> result string string) (write_error : list string -> option IoError).

(** No computation of the protocol puts bytes back. *)
Definition shrinks {A} (m : C R A) : Prop :=
  forall c, is_ok (m c).1 = true -> (bytes_left (reader (m c).2) <= bytes_left (reader c))%nat.

Lemma shrinks_bind {A B} (m : C R A) (k : A -> C R B) :
  shrinks m -> (forall a, shrinks (k a)) -> shrinks (c_bind m k).
Proof.
  intros Hm Hk c. unfold c_bind. specialize (Hm c). destruct (m c) as [[a|e] c']; simpl in *; [| done].
  intros Hok. specialize (Hk a c' Hok). specialize (Hm eq_refl). lia.
Qed.

Lemma shrinks_ret {A} (a : A) : shrinks (c_ret a).
Proof. intros c _. done. Qed.

Lemma shrinks_lift {A} (r : result Error A) : shrinks (lift r).
Proof. intros c _. done. Qed.

Lemma shrinks_fail {A} (e : Error) : shrinks (@c_fail _ R A e).
Proof. intros c _. done. Qed.

Lemma shrinks_write s : shrinks (write_all (R := R) write_error s).
Proof. intros c. unfold write_all. by destruct (write_error (written c)). Qed.

Lemma strip_newline_empty : strip_newline "" = "".
Proof. done. Qed.

(** A line that was read is not empty, so reading it took a byte. *)
Lemma read_line_consumes c line c' :
  read_line c = (Ok line, c') -> (bytes_left (reader c') < bytes_left (reader c))%nat.
Proof.
  unfold read_line. destruct (read_until_newline (reader c)) as [[raw|e] rd] eqn:E; [| done].
  destruct (utf8_error 0 0 raw); [done |]. case_match eqn:Hem; [done |]. intros [= <- <-]. cbn [reader].
  apply read_consumes in E. destruct raw as [|a raw]; [done |]. simpl in E. lia.
Qed.

Lemma shrinks_read_line : shrinks (read_line (R := R)).
Proof.
  intros c. destruct (read_line c) as [[line|e] c'] eqn:E; [| done].
  intros _. apply read_line_consumes in E. simpl. lia.
Qed.

Lemma shrinks_if {A} (b : bool) (m n : C R A) : shrinks m -> shrinks n -> shrinks (if b then m else n).
Proof. by destruct b. Qed.

Ltac shrink tac :=
  repeat first
    [ tac | apply shrinks_write | apply shrinks_read_line | apply shrinks_fail | apply shrinks_ret
    | apply shrinks_lift | apply shrinks_if | apply shrinks_bind; [| intros] ].

Lemma shrinks_complete uid : shrinks (complete_auth server_guid write_error uid).
Proof. unfold complete_auth. shrink fail. intros c _. done. Qed.

Lemma shrinks_auth_line line :
  shrinks (auth_line server_guid own_uid hex_decode write_error line).
Proof.
  unfold auth_line.
  destruct (strip_prefix "AUTH EXTERNAL " line); shrink ltac:(apply shrinks_complete || case_match).
Qed.

(** Every round of the loop reads a line, so the bytes left bound the rounds. *)
Lemma auth_loop_terminates fuel c :
  (bytes_left (reader c) < fuel)%nat ->
  exists r, auth_loop server_guid own_uid hex_decode write_error fuel c = Some r.
Proof.
  revert c. induction fuel as [|fuel IH]; intros c Hf; [lia |]. cbn [auth_loop].
  unfold c_bind. destruct (read_line c) as [[line|e] c1] eqn:E1; [| by eexists].
  apply read_line_consumes in E1.
  pose proof (shrinks_auth_line line c1) as Hs.
  destruct (auth_line _ _ _ _ line c1) as [[[a|]|e] c2]; [by eexists | | by eexists].
  apply IH. specialize (Hs eq_refl). simpl in Hs. lia.
Qed.
End Terminates.

Lemma auth_returns `{ZB : Zbus} (server_guid : string) (own_uid : Z)
    (hex_decode : string -> result string string) (write_error : list string -> option IoError)
    (ins : list (result IoError string)) :
  exists r, authenticate_server server_guid own_uid hex_decode write_error ins = Some r.
Proof.
  unfold authenticate_server. destruct (read_null ins) as [[b|e] rest]; [| by eexists].
  case_match; [by eexists |]. apply auth_loop_terminates. simpl. lia.
Qed.

(** C28. Authentication always ends: whatever the client sends, in whatever
    pieces, and whichever reads and writes fail, [authenticate_server] returns
    a result after at most one round per byte received - the loop that answers
    REJECTED cannot go round without consuming input. *)
Theorem auth_terminates `{ZB : Zbus} (server_guid : string) (own_uid : Z)
    (hex_decode : string -> result string string) (write_error : list string -> option IoError)
    (ins : list (result IoError string)) :
  exists r, authenticate_server server_guid own_uid hex_decode write_error ins = Some r.
Proof. apply auth_returns. Qed.

(** ** The reference *)

Definition arrived (ins : list (result IoError string)) : string :=
  foldr (fun c s => match c with Ok chunk => chunk +:+ s | Err _ => s end) "" ins.

(** A chunk of a read that did not fail before the end of the stream. *)
Definition good_chunk (c : result IoError string) : Prop :=
  match c with Ok s => s <> "" | Err _ => False end.

#[export] Instance good_chunk_dec c : Decision (good_chunk c).
Proof. destruct c; simpl; apply _. Defined.

(** The chunks of a reader, with the string that the reference still holds. *)
Definition reads_as (b : BufReader) (s : string) : Prop :=
  Forall good_chunk (br_in b) /\ br_buf b +:+ arrived (br_in b) = s.

Lemma input_length_arrived ins :
  Forall good_chunk ins -> input_length ins = String.length (arrived ins).
Proof.
  induction 1 as [|[chunk|e] ins Hc _ IH]; [done | | done]. simpl. by rewrite str_length_app, IH.
Qed.

(** A line read across chunks is the line of the whole string. *)
Lemma buf_read_until_plain ins buf :
  Forall good_chunk ins ->
  exists line b' s',
    buf_read_until buf ins = (Ok line, b') /\
    read_until_newline (buf +:+ arrived ins) = (Ok line, s') /\ reads_as b' s'.
Proof.
  intros Hins. revert buf. induction Hins as [|c ins Hc Hins IH]; intros buf; cbn [buf_read_until].
  - cbn [arrived foldr]. rewrite str_app_nil_r. cbn [read_until_newline Plain].
    destruct (find_char LF buf) as [i|]; do 3 eexists; split_and!; try reflexivity;
      (split; [constructor |]); [apply str_app_nil_r | done].
  - destruct (find_char LF buf) as [i|] eqn:E.
    + pose proof (find_char_lt _ _ _ E) as Hlt. apply find_char_split in E as (p & r & -> & -> & Hp).
      cbn [read_until_newline Plain]. rewrite str_app_assoc, str_app_cons, find_char_app by done.
      rewrite <- str_app_cons, <- str_app_assoc.
      destruct (str_take_drop_app (S (String.length p)) (p +:+ String LF r) (arrived (c :: ins)))
        as [-> ->]; [lia |].
      do 3 eexists. split_and!; [reflexivity.. |]. split; [by constructor | done].
    + apply find_char_None in E. destruct c as [[|a chunk]|e]; [done | | done].
      destruct (IH (String a chunk)) as (line & b' & s' & Hr & Hp & Hb).
      cbn [is_empty]. rewrite Hr. exists (buf +:+ line), b', s'. split_and!; [done | | done].
      cbn [arrived foldr]. revert Hp. cbn [read_until_newline Plain].
      rewrite (find_char_app_r LF buf) by done. fold (arrived ins).
      destruct (find_char LF (String a chunk +:+ arrived ins)) as [i|]; cbn [fmap option_fmap option_map]; intros [= <- <-]; [| done].
      rewrite <- Nat.add_succ_r.
      destruct (str_take_drop_app_r buf (S i) (String a chunk +:+ arrived ins)) as [-> ->]. done.
Qed.

Section Refinement.
Context `{ZB : Zbus} (server_guid : string) (own_uid : Z).
Context (hex_decode : string -> result string string) (write_error : list string -> option IoError).

Definition conn_rel (c1 : Conn BufReader) (c2 : Conn string) : Prop :=
  reads_as (reader c1) (reader c2) /\ written c1 = written c2.

(** Two runs that agree: the same error, or values that [RA] relates. *)
Definition agree {A} (RA : A -> A -> Prop) (x : result Error A * Conn BufReader)
    (y : result Error A * Conn string) : Prop :=
  conn_rel x.2 y.2 /\
  match x.1, y.1 with
  | Ok a, Ok b => RA a b
  | Err e, Err e' => e = e'
  | _, _ => False
  end.

(** [m1] on chunks does what [m2] does on the whole string. *)
Definition sim {A} (RA : Conn BufReader -> Conn string -> A -> A -> Prop)
    (m1 : C BufReader A) (m2 : C string A) : Prop :=
  forall c1 c2, conn_rel c1 c2 -> agree (RA (m1 c1).2 (m2 c2).2) (m1 c1) (m2 c2).

Definition same {A} : Conn BufReader -> Conn string -> A -> A -> Prop := fun _ _ a b => a = b.

(** The result and the chunks not read yet are the result of the reference. *)
Definition same_auth (c1 : Conn BufReader) (c2 : Conn string) (a b : AuthResult) : Prop :=
  ar_uid a = ar_uid b /\ ar_buffered_data a +:+ arrived (br_in (reader c1)) = ar_buffered_data b.

Definition same_auth_opt (c1 : Conn BufReader) (c2 : Conn string) (a b : option AuthResult) : Prop :=
  match a, b with
  | Some a, Some b => same_auth c1 c2 a b
  | None, None => True
  | _, _ => False
  end.

Lemma sim_bind {A B} (RB : Conn BufReader -> Conn string -> B -> B -> Prop)
    (m1 : C BufReader A) m2 (k1 : A -> C BufReader B) k2 :
  sim same m1 m2 -> (forall a, sim RB (k1 a) (k2 a)) -> sim RB (c_bind m1 k1) (c_bind m2 k2).
Proof.
  intros Hm Hk c1 c2 Hc. specialize (Hm c1 c2 Hc). unfold c_bind.
  destruct (m1 c1) as [[a|e] c1'], (m2 c2) as [[b|e'] c2'], Hm as [Hc' Hr]; simpl in *; try done.
  unfold same in Hr. subst b. apply (Hk a _ _ Hc').
Qed.

Lemma sim_ret {A} (a : A) : sim same (c_ret a) (c_ret a).
Proof. by intros c1 c2 Hc. Qed.

Lemma sim_none : sim same_auth_opt (c_ret None) (c_ret None).
Proof. by intros c1 c2 Hc. Qed.

Lemma sim_lift {A} (r : result Error A) : sim same (lift r) (lift r).
Proof. intros c1 c2 Hc. split; [done |]. simpl. by destruct r. Qed.

Lemma sim_fail {A} (RA : Conn BufReader -> Conn string -> A -> A -> Prop) (e : Error) :
  sim RA (c_fail e) (c_fail e).
Proof. by intros c1 c2 Hc. Qed.

Lemma sim_write s : sim same (write_all write_error s) (write_all write_error s).
Proof.
  intros c1 c2 [Hb Hw]. unfold write_all, agree. rewrite Hw.
  destruct (write_error (written c2)); by split.
Qed.

Lemma sim_read_line : sim same read_line read_line.
Proof.
  intros [[buf ins] w1] [s2 w2] [[Hg Hs] Hw]. simpl in *. subst s2 w2.
  destruct (buf_read_until_plain ins buf Hg) as (line & b' & s' & Hr & Hp & Hb).
  unfold read_line, agree. cbn [reader written]. cbn [read_until_newline Buffered br_buf br_in].
  rewrite Hr, Hp. repeat case_match; simplify_eq/=; (split; [by split | done]).
Qed.

Lemma sim_if {A} RA (b : bool) (m1 n1 : C BufReader A) m2 n2 :
  sim RA m1 m2 -> sim RA n1 n2 -> sim RA (if b then m1 else n1) (if b then m2 else n2).
Proof. by destruct b. Qed.

Ltac simulate tac :=
  repeat first
    [ tac | apply sim_write | apply sim_read_line | apply sim_fail | apply sim_ret | apply sim_none
    | apply sim_lift | apply sim_if | apply sim_bind; [| intros] ].

Lemma sim_complete_auth uid :
  sim same_auth (complete_auth server_guid write_error uid) (complete_auth server_guid write_error uid).
Proof.
  unfold complete_auth. simulate fail.
  intros [[buf ins] w1] [s2 w2] [[Hg Hs] Hw]. simpl in *. by subst.
Qed.

(** The end of [auth_line]'s success branches. *)
Lemma sim_finish m1 m2 :
  sim same_auth m1 m2 ->
  sim same_auth_opt (c_bind m1 (fun a => c_ret (Some a))) (c_bind m2 (fun a => c_ret (Some a))).
Proof.
  intros Hm c1 c2 Hc. specialize (Hm c1 c2 Hc). unfold c_bind.
  by destruct (m1 c1) as [[a|e] c1'], (m2 c2) as [[b|e'] c2'], Hm as [Hc' Hr].
Qed.

Lemma sim_auth_line line :
  sim same_auth_opt (auth_line server_guid own_uid hex_decode write_error line)
    (auth_line server_guid own_uid hex_decode write_error line).
Proof.
  unfold auth_line. destruct (strip_prefix "AUTH EXTERNAL " line);
    simulate ltac:((apply sim_finish, sim_complete_auth) || case_match).
Qed.

Lemma auth_loop_agree fuel c1 c2 :
  conn_rel c1 c2 ->
  match auth_loop server_guid own_uid hex_decode write_error fuel c1,
        auth_loop server_guid own_uid hex_decode write_error fuel c2 with
  | Some x, Some y => agree (same_auth x.2 y.2) x y
  | None, None => True
  | _, _ => False
  end.
Proof.
  revert c1 c2. induction fuel as [|fuel IH]; intros c1 c2 Hc; cbn [auth_loop]; [done |].
  pose proof (sim_bind same_auth_opt _ _ _ _ sim_read_line sim_auth_line c1 c2 Hc) as [Hc' Hr].
  destruct (c_bind read_line _ c1) as [[[a|]|e] c1'], (c_bind read_line _ c2) as [[[b|]|e'] c2'];
    simpl in *; try done. by apply IH.
Qed.
End Refinement.

Lemma auth_chunks_agree `{ZB : Zbus} (server_guid : string) (own_uid : Z)
    (hex_decode : string -> result string string) (write_error : list string -> option IoError)
    (ins : list (result IoError string)) :
  Forall good_chunk ins ->
  exists x y,
    authenticate_server server_guid own_uid hex_decode write_error ins = Some x /\
    authenticate_plain server_guid own_uid hex_decode write_error (arrived ins) = Some y /\
    written x.2 = written y.2 /\ Forall good_chunk (br_in (reader x.2)) /\
    match x.1, y.1 with
    | Ok a, Ok b =>
        ar_uid a = ar_uid b /\
        ar_buffered_data a +:+ arrived (br_in (reader x.2)) = ar_buffered_data b
    | Err e, Err e' => e = e'
    | _, _ => False
    end.
Proof.
  intros Hg. pose proof (auth_returns server_guid own_uid hex_decode write_error ins) as [x Hx].
  rewrite Hx. revert Hx. unfold authenticate_server, authenticate_plain.
  destruct Hg as [|[[|b s]|e] ins Hc Hg]; try done; cbn [read_null arrived foldr].
  { intros [= <-]. eexists _, _. split_and!; try done. }
  rewrite str_app_cons.
  set (rest := if is_empty s then ins else Ok s :: ins).
  assert (reads_as (mkBufReader "" rest) (s +:+ arrived ins) /\
          input_length rest = String.length (s +:+ arrived ins)) as [Hrel Hlen].
  { subst rest. destruct s as [|a s]; simpl; [by rewrite input_length_arrived by done |].
    split; [by repeat constructor |]. rewrite str_length_app. simpl.
    by rewrite input_length_arrived. }
  case_match; [intros [= <-]; eexists _, _; split_and!; try done; apply Hrel |].
  fold (arrived ins). rewrite Hlen. intros Hx.
  pose proof (auth_loop_agree server_guid own_uid hex_decode write_error
    (S (String.length (s +:+ arrived ins))) (mkConn (mkBufReader "" rest) [])
    (mkConn (s +:+ arrived ins) []) ltac:(by split)) as Ha.
  rewrite Hx in Ha. destruct (auth_loop _ _ _ _ _ (mkConn (s +:+ _) [])) as [y|]; [| done].
  destruct Ha as [[[Hg' _] Hw] Hr]. exists x, y. by split_and!.
Qed.

(** C18. Authentication does not depend on how the kernel cuts the stream: for
    any chunks in which the client's bytes arrive, [authenticate_server] on the
    [BufReader] accepts or fails exactly as the protocol run on all the bytes at
    once, with the same UID or error and the same replies written; and the
    buffered data it hands over, followed by the chunks not read yet, is
    exactly what follows BEGIN - no byte of the first messages is lost or
    doubled. *)
Theorem auth_chunking_independent `{ZB : Zbus} (server_guid : string) (own_uid : Z)
    (hex_decode : string -> result string string) (write_error : list string -> option IoError)
    (ins : list (result IoError string)) :
  Forall good_chunk ins ->
  exists x y,
    authenticate_server server_guid own_uid hex_decode write_error ins = Some x /\
    authenticate_plain server_guid own_uid hex_decode write_error (arrived ins) = Some y /\
    written x.2 = written y.2 /\
    match x.1, y.1 with
    | Ok a, Ok b =>
        ar_uid a = ar_uid b /\
        ar_buffered_data a +:+ arrived (br_in (reader x.2)) = ar_buffered_data b
    | Err e, Err e' => e = e'
    | _, _ => False
    end.
Proof.
  intros Hg. destruct (auth_chunks_agree server_guid own_uid hex_decode write_error ins Hg)
    as (x & y & Hx & Hy & Hw & _ & Hr). by exists x, y.
Qed.

(** ** The EXTERNAL exchange *)

Definition printable (a : ascii) : bool := in_range 32 126 (byte_val a).

Definition hex_char (a : ascii) : bool := in_range 48 57 (byte_val a) || in_range 97 102 (byte_val a).

Lemma all_chars_impl (f g : ascii -> bool) s :
  (forall a, f a = true -> g a = true) -> all_chars f s = true -> all_chars g s = true.
Proof.
  intros Hfg. induction s as [|a s IH]; [done |]. simpl.
  intros [Ha Hs]%andb_true_iff. by rewrite Hfg, IH.
Qed.

Lemma utf8_ascii s pos : all_chars (fun a => byte_val a <? 0x80) s = true -> utf8_error 0 pos s = None.
Proof.
  revert pos. induction s as [|a s IH]; intros pos; [done |]. cbn [all_chars].
  intros [Ha Hs]%andb_true_iff. cbn [utf8_error utf8_char]. rewrite Ha. by apply IH.
Qed.

Lemma printable_ascii a : printable a = true -> (byte_val a <? 0x80) = true.
Proof. unfold printable, in_range. intros [_ H%Z.leb_le]%andb_true_iff. apply Z.ltb_lt. lia. Qed.

Lemma hex_printable a : hex_char a = true -> printable a = true.
Proof. unfold hex_char, printable, in_range. lia. Qed.

Lemma printable_no_LF s : all_chars printable s = true -> str_contains_char LF s = false.
Proof.
  induction s as [|a s IH]; [done |]. cbn [all_chars str_contains_char].
  intros [Ha Hs]%andb_true_iff. rewrite IH by done. rewrite orb_false_r.
  destruct (Ascii.eqb_spec a LF) as [->|]; [by vm_compute in Ha | done].
Qed.

Lemma digit_char_ascii d : 0 <= d <= 9 -> (byte_val (digit_char d) <? 0x80) = true.
Proof.
  intros H. assert (d = 0 \/ d = 1 \/ d = 2 \/ d = 3 \/ d = 4 \/ d = 5 \/ d = 6 \/ d = 7 \/
    d = 8 \/ d = 9) as Hd by lia. by repeat destruct Hd as [->|Hd]; [..|subst].
Qed.

Lemma dec_digits_ascii fuel n acc :
  all_chars (fun a => byte_val a <? 0x80) acc = true ->
  all_chars (fun a => byte_val a <? 0x80) (dec_digits fuel n acc) = true.
Proof.
  revert n acc. induction fuel as [|fuel IH]; intros n acc Ha; cbn [dec_digits]; [done |].
  pose proof (Z.mod_pos_bound n 10 ltac:(lia)).
  assert (all_chars (fun a => byte_val a <? 0x80) (String (digit_char (n mod 10)) acc) = true) as Ha'.
  { cbn [all_chars]. rewrite digit_char_ascii by lia. done. }
  case_match; [done | by apply IH].
Qed.

Lemma str_take_last s c : str_take (String.length (s +:+ String c "") - 1) (s +:+ String c "") = s.
Proof.
  rewrite str_length_app. simpl. rewrite Nat.add_sub. apply str_take_app.
Qed.

Lemma pop_if_last c s : pop_if c (s +:+ String c "") = s.
Proof.
  unfold pop_if. rewrite (proj2 (ends_with_iff _ _)) by (by exists s). apply str_take_last.
Qed.

Lemma strip_newline_CRLF s : strip_newline (s +:+ CRLF) = s.
Proof.
  unfold strip_newline, CRLF.
  replace (s +:+ String CR (String LF "")) with ((s +:+ String CR "") +:+ String LF "")
    by by rewrite str_app_assoc.
  by rewrite !pop_if_last.
Qed.

(** A printable line followed by CR LF is read whole, and nothing after it. *)
Lemma read_line_plain `{ZB : Zbus} line rest w :
  all_chars printable line = true -> is_empty line = false ->
  read_line (mkConn (line +:+ CRLF +:+ rest) w) = (Ok line, mkConn rest w).
Proof.
  intros Hp He. unfold read_line. cbn [reader written read_until_newline Plain].
  assert (line +:+ CRLF +:+ rest = (line +:+ String CR "") +:+ String LF rest) as ->
    by by rewrite str_app_assoc.
  assert (str_contains_char LF (line +:+ String CR "") = false) as Hlf
    by by rewrite str_contains_char_app, printable_no_LF.
  rewrite find_char_app by done. rewrite str_drop_S_app.
  assert (str_take (S (String.length (line +:+ String CR ""))) ((line +:+ String CR "") +:+ String LF rest)
          = line +:+ CRLF) as ->.
  { replace (S (String.length (line +:+ String CR ""))) with (String.length (line +:+ CRLF))
      by (rewrite !str_length_app; simpl; lia).
    replace ((line +:+ String CR "") +:+ String LF rest) with ((line +:+ CRLF) +:+ rest)
      by (unfold CRLF; by rewrite !str_app_assoc). apply str_take_app. }
  rewrite utf8_ascii.
  - by rewrite strip_newline_CRLF, He.
  - rewrite all_chars_app. rewrite (all_chars_impl _ _ _ printable_ascii Hp). done.
Qed.

(** What a client sends to authenticate as [hex]: in the AUTH line or after a
    DATA challenge, with or without the negotiation of file descriptors. *)
Definition client_script (challenge negotiate : bool) (hex : string) : string :=
  String NUL
    ((if challenge then "AUTH EXTERNAL" +:+ CRLF +:+ "DATA " else "AUTH EXTERNAL ") +:+
     hex +:+ CRLF +:+ (if negotiate then "NEGOTIATE_UNIX_FD" +:+ CRLF else "") +:+ "BEGIN" +:+ CRLF).

Definition server_script (challenge negotiate : bool) (guid : string) : list string :=
  (if challenge then ["DATA" +:+ CRLF] else []) ++ ["OK " +:+ guid +:+ CRLF] ++
  (if negotiate then ["AGREE_UNIX_FD" +:+ CRLF] else []).

Section External.
Context `{ZB : Zbus} (server_guid : string) (own_uid : Z).
Context (hex_decode : string -> result string string) (hex_encode : string -> string).
(* the documented behaviour of the hex crate *)
Context (hex_roundtrip : forall s, hex_decode (hex_encode s) = Ok s).
Context (hex_alphabet : forall s, all_chars hex_char (hex_encode s) = true).

Let no_error : list string -> option IoError := fun _ => None.

Lemma parse_encode_uid uid :
  0 <= uid < u32_modulus -> parse_hex_uid hex_decode (encode_uid hex_encode uid) = Ok uid.
Proof.
  intros Hu. unfold parse_hex_uid, encode_uid. rewrite hex_roundtrip.
  unfold to_dec at 1. rewrite utf8_ascii by by apply dec_digits_ascii.
  rewrite parse_uint_to_dec; [done | |]; unfold u32_max, u32_modulus in *; lia.
Qed.

Lemma hex_line_printable s : all_chars printable (hex_encode s) = true.
Proof. apply (all_chars_impl hex_char); [apply hex_printable | apply hex_alphabet]. Qed.

Lemma complete_auth_plain uid (negotiate : bool) rest w :
  complete_auth server_guid no_error uid
    (mkConn ((if negotiate then "NEGOTIATE_UNIX_FD" +:+ CRLF else "") +:+ "BEGIN" +:+ CRLF +:+ rest) w) =
  (Ok (mkAuthResult uid rest),
   mkConn rest (w ++ ["OK " +:+ server_guid +:+ CRLF] ++
                (if negotiate then ["AGREE_UNIX_FD" +:+ CRLF] else []))).
Proof.
  unfold complete_auth, c_bind at 1, write_all at 1. cbn [no_error reader written].
  destruct negotiate.
  - rewrite str_app_assoc. unfold c_bind at 1. rewrite read_line_plain by done.
    rewrite String.eqb_refl. unfold c_bind, write_all. cbn [no_error reader written].
    rewrite read_line_plain by done. simpl. by rewrite <- !app_assoc.
  - rewrite str_app_nil_l. unfold c_bind. by rewrite read_line_plain by done.
Qed.

Lemma authenticate_plain_script challenge negotiate uid rest :
  0 <= uid < u32_modulus ->
  authenticate_plain server_guid own_uid hex_decode no_error
    (client_script challenge negotiate (encode_uid hex_encode uid) +:+ rest) =
  Some (Ok (mkAuthResult uid rest), mkConn rest (server_script challenge negotiate server_guid)).
Proof.
  intros Hu. unfold authenticate_plain, client_script. rewrite str_app_cons.
  rewrite Ascii.eqb_refl. cbn [negb].
  set (hex := encode_uid hex_encode uid). set (fuel := String.length _).
  pose proof (parse_encode_uid uid Hu : parse_hex_uid hex_decode hex = Ok uid) as Hparse.
  pose proof (hex_line_printable (to_dec uid) : all_chars printable hex = true) as Hprint.
  rewrite !str_app_assoc. cbn [auth_loop]. unfold c_bind at 1. unfold server_script.
  destruct challenge; rewrite ?str_app_assoc.
  - rewrite read_line_plain by done. unfold auth_line.
    change (strip_prefix "AUTH EXTERNAL " "AUTH EXTERNAL") with (@None string).
    rewrite String.eqb_refl. unfold c_bind at 1, write_all at 1. cbn [no_error reader written].
    rewrite <- (str_app_assoc "DATA " hex). unfold c_bind at 1. rewrite read_line_plain; [| | done].
    + rewrite (proj2 (strip_prefix_Some "DATA " _ hex) eq_refl), Hparse.
      unfold c_bind, lift. by rewrite complete_auth_plain.
    + by rewrite all_chars_app, Hprint.
  - rewrite <- (str_app_assoc "AUTH EXTERNAL " hex). rewrite read_line_plain; [| | done].
    + unfold auth_line. rewrite (proj2 (strip_prefix_Some "AUTH EXTERNAL " _ hex) eq_refl), Hparse.
      unfold c_bind, lift. by rewrite complete_auth_plain.
    + by rewrite all_chars_app, Hprint.
Qed.

End External.

(** The exchange on chunks, from the exchange on the whole string. *)
Lemma external_auth_chunks `{ZB : Zbus} (server_guid : string) (own_uid : Z)
    (hex_decode : string -> result string string) (hex_encode : string -> string)
    (challenge negotiate : bool) (uid : Z) (rest : string) (ins : list (result IoError string)) :
  (forall s, hex_decode (hex_encode s) = Ok s) ->
  (forall s, all_chars hex_char (hex_encode s) = true) ->
  0 <= uid < u32_modulus ->
  Forall good_chunk ins ->
  arrived ins = client_script challenge negotiate (encode_uid hex_encode uid) +:+ rest ->
  exists a c,
    authenticate_server server_guid own_uid hex_decode (fun _ => None) ins = Some (Ok a, c) /\
    ar_uid a = uid /\
    ar_buffered_data a +:+ arrived (br_in (reader c)) = rest /\
    written c = server_script challenge negotiate server_guid /\
    Forall good_chunk (br_in (reader c)).
Proof.
  intros Hhex Halpha Hu Hg Hins.
  destruct (auth_chunks_agree server_guid own_uid hex_decode (fun _ => None) ins Hg)
    as ([r c] & y & Hx & Hy & Hw & Hg' & Hr).
  rewrite Hins, (authenticate_plain_script server_guid own_uid hex_decode hex_encode Hhex Halpha) in Hy
    by done.
  injection Hy as <-. simpl in *. destruct r as [a|e]; [| done]. destruct Hr as [Hu' Hb].
  by exists a, c.
Qed.

(** Any UID is accepted: whichever UID a client claims - in the AUTH line or
    in answer to the DATA challenge, with or without negotiating file
    descriptors, its bytes arriving in any pieces - the server answers OK (and
    AGREE_UNIX_FD) and reports that UID, and hands over exactly the bytes that
    follow BEGIN.  The UID of the peer's socket does not take part in it, though
    the module says that EXTERNAL authenticates by socket credentials. *)
Lemma external_auth_any_uid `{ZB : Zbus} (server_guid : string) (own_uid : Z)
    (hex_decode : string -> result string string) (hex_encode : string -> string)
    (challenge negotiate : bool) (uid : Z) (rest : string) (ins : list (result IoError string)) :
  (forall s, hex_decode (hex_encode s) = Ok s) ->
  (forall s, all_chars hex_char (hex_encode s) = true) ->
  0 <= uid < u32_modulus ->
  Forall good_chunk ins ->
  arrived ins = client_script challenge negotiate (encode_uid hex_encode uid) +:+ rest ->
  exists a c,
    authenticate_server server_guid own_uid hex_decode (fun _ => None) ins = Some (Ok a, c) /\
    ar_uid a = uid /\
    ar_buffered_data a +:+ arrived (br_in (reader c)) = rest /\
    written c = server_script challenge negotiate server_guid.
Proof.
  intros Hhex Halpha Hu Hg Hins.
  destruct (external_auth_chunks server_guid own_uid hex_decode hex_encode challenge negotiate uid rest ins
    Hhex Halpha Hu Hg Hins) as (a & c & Ha & Hu' & Hb & Hw & _). by exists a, c.
Qed.

(** ** Examples *)

(** A hex codec. *)
Definition hex_digit (n : N) : ascii := ascii_of_N (if n <? 10 then 48 + n else 87 + n)%N.

Fixpoint simple_hex_encode (s : string) : string :=
  match s with
  | EmptyString => ""
  | String a s' =>
      String (hex_digit (N_of_ascii a / 16)%N)
        (String (hex_digit (N_of_ascii a mod 16)%N) (simple_hex_encode s'))
  end.

Definition hex_val (a : ascii) : option N :=
  let n := N_of_ascii a in
  if (48 <=? n)%N && (n <=? 57)%N then Some (n - 48)%N
  else if (97 <=? n)%N && (n <=? 102)%N then Some (n - 87)%N
  else None.

Fixpoint simple_hex_decode (s : string) : result string string :=
  match s with
  | EmptyString => Ok ""
  | String a (String b s') =>
      match hex_val a, hex_val b with
      | Some x, Some y =>
          match simple_hex_decode s' with
          | Ok r => Ok (String (ascii_of_N (16 * x + y)%N) r)
          | Err e => Err e
          end
      | _, _ => Err "Invalid character"
      end
  | String _ EmptyString => Err "Odd number of digits"
  end.

Lemma simple_hex_byte a :
  exists x y, hex_val (hex_digit (N_of_ascii a / 16)%N) = Some x /\
    hex_val (hex_digit (N_of_ascii a mod 16)%N) = Some y /\ ascii_of_N (16 * x + y)%N = a /\
    hex_char (hex_digit (N_of_ascii a / 16)%N) = true /\ hex_char (hex_digit (N_of_ascii a mod 16)%N) = true.
Proof. destruct a as [[] [] [] [] [] [] [] []]; vm_compute; eauto 10. Qed.

Lemma simple_hex_roundtrip s : simple_hex_decode (simple_hex_encode s) = Ok s.
Proof.
  induction s as [|a s IH]; [done |]. cbn [simple_hex_encode simple_hex_decode].
  destruct (simple_hex_byte a) as (x & y & -> & -> & E & _). by rewrite IH, E.
Qed.

Lemma simple_hex_alphabet s : all_chars hex_char (simple_hex_encode s) = true.
Proof.
  induction s as [|a s IH]; [done |]. cbn [simple_hex_encode all_chars].
  destruct (simple_hex_byte a) as (x & y & _ & _ & _ & -> & ->). done.
Qed.

(** A stream cut within a line and within the first message. *)
Definition ex_chunks : list (result IoError string) :=
  [Ok (String NUL "AUTH EXT"); Ok ("ERNAL " +:+ simple_hex_encode "1000" +:+ CRLF +:+ "BEG");
   Ok ("IN" +:+ CRLF +:+ "l12"); Ok "345"].

Lemma auth_chunking_independent_witness :
  exists x y,
    @authenticate_server SimpleZbus "guid" 0 simple_hex_decode (fun _ => None) ex_chunks = Some x /\
    @authenticate_plain SimpleZbus "guid" 0 simple_hex_decode (fun _ => None) (arrived ex_chunks) = Some y /\
    written x.2 = written y.2 /\
    match x.1, y.1 with
    | Ok a, Ok b =>
        ar_uid a = ar_uid b /\
        ar_buffered_data a +:+ arrived (br_in (reader x.2)) = ar_buffered_data b
    | Err e, Err e' => e = e'
    | _, _ => False
    end.
Proof.
  apply (@auth_chunking_independent SimpleZbus "guid" 0 simple_hex_decode (fun _ => None) ex_chunks).
  apply (bool_decide_unpack _). vm_compute. exact I.
Defined.

Lemma external_auth_any_uid_witness :
  exists a c,
    @authenticate_server SimpleZbus "guid" 0 simple_hex_decode (fun _ => None) ex_chunks = Some (Ok a, c) /\
    ar_uid a = 1000 /\
    ar_buffered_data a +:+ arrived (br_in (reader c)) = "l12345" /\
    written c = server_script false false "guid".
Proof.
  apply (@external_auth_any_uid SimpleZbus "guid" 0 simple_hex_decode simple_hex_encode false false
           1000 "l12345" ex_chunks).
  - apply simple_hex_roundtrip.
  - apply simple_hex_alphabet.
  - by vm_compute.
  - apply (bool_decide_unpack _). vm_compute. exact I.
  - reflexivity.
Defined.
