(* ===== verification/Client.v ===== *)
(** * Client connections (src/src/client.rs)

    [ClientHandler]: accepting a client, framing the messages it sends, and the
    task that runs both directions of its socket.  The read side is a future
    that [select!] polls: it is modelled as the state it holds between polls,
    with the steps of a task (bytes arriving, a poll of the read, a message to
    send) in any order.  Sizes are [u32]s that wrap around, as in a release
    build; an index out of range is a panic. *)

From S2P Require Import Prelude RustStr Zbus SimpleZbus Errors Message Auth.
From Stdlib Require Import Ascii.

#[local] Open Scope Z_scope.

(** ** Data *)

(** [cc_tx] is the room in the connection's channel; [None] when nobody
    receives from it any more. *)
Record ClientConnection := mkClientConnection {
  cc_id : Z;
  cc_unique_name : string;
  cc_owned_names : gset string;
  cc_tx : option nat;
  cc_uid : Z;
  cc_pid : option Z;
  cc_gid : Z;
}.

Definition cc_with_names (names : gset string) (self : ClientConnection) : ClientConnection :=
  mkClientConnection (cc_id self) (cc_unique_name self) names (cc_tx self) (cc_uid self) (cc_pid self) (cc_gid self).

Definition add_owned_name (name : string) (self : ClientConnection) : ClientConnection :=
  cc_with_names ({[name]} ∪ cc_owned_names self) self.

Definition remove_owned_name (name : string) (self : ClientConnection) : bool * ClientConnection :=
  (bool_decide (name ∈ cc_owned_names self), cc_with_names (cc_owned_names self ∖ {[name]}) self).

(** [self.tx.send(msg).await]: [None] while the call waits for room. *)
Definition cc_send `{ZB : Zbus} (self : ClientConnection) : option (result Error ClientConnection) :=
  match cc_tx self with
  | None => Some (Err (Errors.Client Disconnected))
  | Some O => None
  | Some (S room) =>
      Some (Ok (mkClientConnection (cc_id self) (cc_unique_name self) (cc_owned_names self) (Some room)
                  (cc_uid self) (cc_pid self) (cc_gid self)))
  end.

Definition cc_is_closed (self : ClientConnection) : bool :=
  match cc_tx self with None => true | Some _ => false end.

(** The receiving side of a socket: the bytes that have arrived and were not
    read yet, and what a read finds after them - nothing so far, or the end of
    the stream or an error. *)
Record Socket := mkSocket {
  arrived_bytes : list Z;
  closed : option IoError;
}.

Record ClientHandler := mkClientHandler {
  client : ClientConnection;
  stream : Socket;
  read_buf : list Z;
  pending_data : list Z;
  pending_pos : nat;
}.

Definition with_stream (x : Socket) (h : ClientHandler) : ClientHandler :=
  mkClientHandler (client h) x (read_buf h) (pending_data h) (pending_pos h).
Definition with_read_buf (x : list Z) (h : ClientHandler) : ClientHandler :=
  mkClientHandler (client h) (stream h) x (pending_data h) (pending_pos h).
Definition with_pending (x : list Z) (pos : nat) (h : ClientHandler) : ClientHandler :=
  mkClientHandler (client h) (stream h) (read_buf h) x pos.

(** What the multiplexer reads of a handler. *)
Definition ch_id (self : ClientHandler) : Z := cc_id (client self).
Definition ch_unique_name (self : ClientHandler) : string := cc_unique_name (client self).
Definition ch_uid (self : ClientHandler) : Z := cc_uid (client self).
Definition ch_pid (self : ClientHandler) : option Z := cc_pid (client self).
Definition ch_gid (self : ClientHandler) : Z := cc_gid (client self).

(** ** Accepting a client *)

(** [CLIENT_ID_COUNTER.fetch_add(1)]: the old value. *)
Definition next_client_id (counter : Z) : Z * Z := (counter, wrap64 (counter + 1)).

Definition mux_name (id : Z) : string := ":mux." +:+ to_dec id.

Definition bytes_of (s : string) : list Z := byte_val <$> String.list_ascii_of_string s.

Definition eof : IoError := mkIoError UnexpectedEof "early eof".

(** [vec![0u8; 16384]] *)
Definition initial_read_buf : list Z := replicate (Z.to_nat 16384) 0.

Section Accept.
Context `{ZB : Zbus}.
Context (server_guid : string) (own_uid : Z).
Context (hex_decode : string -> result string string) (write_error : list string -> option IoError).

(** [pid_t] is signed: [p as u32] wraps. *)
Definition peer_pid_gid (peer_cred : result IoError (option Z * Z)) : option Z * Z :=
  match peer_cred with
  | Ok (p, g) => (wrap32 <$> p, g)
  | Err _ => (None, 0)
  end.

(** The new counter comes first: an id is used up even if authentication fails.
    The receiver of the connection's channel is dropped when the function
    returns.  [ins] is what the client writes, piece by piece; the handler comes
    with the pieces that authentication has not read, which reach its socket
    later. *)
Definition accept (counter : Z) (peer_cred : result IoError (option Z * Z)) (ins : list (result IoError string))
    : Z * option (result Error (ClientHandler * list (result IoError string))) :=
  let '(id, counter') := next_client_id counter in
  let '(pid, gid) := peer_pid_gid peer_cred in
  (counter',
   match authenticate_server server_guid own_uid hex_decode write_error ins with
   | None => None
   | Some (Err e, _) => Some (Err e)
   | Some (Ok (mkAuthResult uid buffered_data), c) =>
       Some (Ok (mkClientHandler (mkClientConnection id (mux_name id) ∅ None uid pid gid)
                   (mkSocket [] None) initial_read_buf (bytes_of buffered_data) 0, br_in (reader c)))
   end).

(** ** Replies made by the handler *)

Definition create_hello_reply (self : ClientHandler) (original_msg : Message) : result Error Message :=
  let name := cc_unique_name (client self) in
  mrb_build (BodyStr name) (mrb_set_destination name (MethodReturnBuilder_new original_msg)).

Definition create_request_name_reply (self : ClientHandler) (original_msg : Message) (res : Z)
    : result Error Message :=
  mrb_build (BodyU32 res)
    (mrb_set_destination (cc_unique_name (client self)) (MethodReturnBuilder_new original_msg)).

Definition create_error_reply (self : ClientHandler) (original_msg : Message) (error_name message : string)
    : result Error Message :=
  eb_build message
    (eb_set_destination (cc_unique_name (client self)) (ErrorBuilder_new original_msg error_name)).
End Accept.

(** ** Framing *)

Definition le_field (off : nat) (header : list Z) : Z := le_value (take 4 (drop off header)).
Definition be_field (off : nat) (header : list Z) : Z := be_value (take 4 (drop off header)).
Definition u32_field (off : nat) (header : list Z) : Z :=
  if is_little header then le_field off header else be_field off header.

Definition body_len (header : list Z) : Z := u32_field 4 header.
Definition fields_len (header : list Z) : Z := u32_field 12 header.

(** [(fields_len + 7) & !7] and [16 + fields_len_padded + body_len], in [u32]. *)
Definition fields_len_padded (header : list Z) : Z :=
  Z.land (wrap32 (fields_len header + 7)) (u32_modulus - 1 - 7).

Definition total_size (header : list Z) : Z :=
  wrap32 (wrap32 (16 + fields_len_padded header) + body_len header).

Definition remaining (header : list Z) : Z := wrap32 (total_size header - 16).

(** [buf[off..off + bs.len()].copy_from_slice(bs)], in range. *)
Definition copy_at (off : nat) (bs buf : list Z) : list Z :=
  take off buf ++ bs ++ drop (off + length bs) buf.

(** What the read future holds between polls: the part of the header it has, or
    the header and how many bytes after it are in [read_buf]. *)
Inductive ReadFuture :=
| ReadingHeader (got : list Z)
| ReadingRest (header : list Z) (filled : nat).

Section ReadMessage.
Context `{ZB : Zbus}.

Inductive Poll :=
| Ready (r : result Error (option Message))
| Pending (f : ReadFuture)
| Panic.

(** The first part of [read_exact] and [read_exact_into_buf]: up to [len] bytes
    of the data left over from authentication. *)
Definition take_pending (len : Z) (h : ClientHandler) : list Z * ClientHandler :=
  if (pending_pos h <? length (pending_data h))%nat then
    let pending_remaining := drop (pending_pos h) (pending_data h) in
    let to_copy := Z.to_nat (Z.min (Z.of_nat (length pending_remaining)) len) in
    let pos := (pending_pos h + to_copy)%nat in
    (take to_copy pending_remaining,
     if (length (pending_data h) <=? pos)%nat then with_pending [] 0 h
     else with_pending (pending_data h) pos h)
  else ([], h).

(** One poll of [stream.read_exact] that still needs [need] bytes. *)
Definition take_stream (need : Z) (h : ClientHandler) : list Z * ClientHandler :=
  let avail := arrived_bytes (stream h) in
  let n := Z.to_nat (Z.min (Z.of_nat (length avail)) need) in
  (take n avail, with_stream (mkSocket (drop n avail) (closed (stream h))) h).

Definition endian_of (header : list Z) : Endian := if is_little header then Little else Big.

(** The end of [read_message]. *)
Definition finish (header : list Z) (h : ClientHandler) : Poll * ClientHandler :=
  let total := total_size header in
  if Z.of_nat (length (read_buf h)) <? total then (Panic, h)
  else
    match from_bytes (endian_of header) (take (Z.to_nat total) (read_buf h)) with
    | Ok msg => (Ready (Ok (Some msg)), h)
    | Err e => (Ready (Err (DBus e)), h)
    end.

Definition poll_rest (header : list Z) (filled : nat) (h : ClientHandler) : Poll * ClientHandler :=
  let '(bs, h1) := take_stream (remaining header - Z.of_nat filled) h in
  let h2 := with_read_buf (copy_at (16 + filled) bs (read_buf h1)) h1 in
  let filled' := (filled + length bs)%nat in
  if Z.of_nat filled' =? remaining header then finish header h2
  else match closed (stream h2) with
       | Some e => (Ready (Err (Io e)), h2)
       | None => (Pending (ReadingRest header filled'), h2)
       end.

(** [read_exact_into_buf(16, remaining)] up to its first poll of the stream; it is
    the last step of a read but for the decoding. *)
Definition read_exact_into_buf (header : list Z) (h : ClientHandler) : Poll * ClientHandler :=
  let '(bs, h1) := take_pending (remaining header) h in
  if (length (read_buf h1) <? 16 + length bs)%nat then (Panic, h1)
  else
    let h2 := with_read_buf (copy_at 16 bs (read_buf h1)) h1 in
    if Z.of_nat (length bs) <? remaining header then
      if Z.of_nat (length (read_buf h2)) <? 16 + remaining header then (Panic, h2)
      else poll_rest header (length bs) h2
    else finish header h2.

(** From the parsing of the header to the first poll of the rest. *)
Definition begin_rest (header : list Z) (h : ClientHandler) : Poll * ClientHandler :=
  let total := total_size header in
  let h1 :=
    if Z.of_nat (length (read_buf h)) <? total
    then with_read_buf (read_buf h ++ replicate (Z.to_nat total - length (read_buf h)) 0) h
    else h in
  let h2 := with_read_buf (copy_at 0 header (read_buf h1)) h1 in
  if 0 <? remaining header then read_exact_into_buf header h2 else finish header h2.

Definition poll_header (got : list Z) (h : ClientHandler) : Poll * ClientHandler :=
  let '(bs, h1) := take_stream (16 - Z.of_nat (length got)) h in
  let got' := got ++ bs in
  if (length got' =? 16)%nat then begin_rest got' h1
  else match closed (stream h1) with
       | Some e =>
           (Ready (match io_kind e with UnexpectedEof => Ok None | _ => Err (Io e) end), h1)
       | None => (Pending (ReadingHeader got'), h1)
       end.

(** A poll of [read_message], from its start ([None]) or from where it is. *)
Definition read_message (f : option ReadFuture) (h : ClientHandler) : Poll * ClientHandler :=
  match f with
  | None => let '(bs, h1) := take_pending 16 h in poll_header bs h1
  | Some (ReadingHeader got) => poll_header got h
  | Some (ReadingRest header filled) => poll_rest header filled h
  end.
End ReadMessage.

(** ** Sending *)

Definition FDS_MAX : nat := 253.

(** What goes out on the socket: bytes, with the descriptors attached to them. *)
Record Sent `{Zbus} := mkSent { sent_bytes : list Z; sent_fds : list Fd }.

Section Send.
Context `{ZB : Zbus}.
(* rustix: whether an ancillary buffer made with cmsg_space!(ScmRights(max)) takes the descriptors *)
Context (push : nat -> list Fd -> bool).
(* the results of the system calls: [sendmsg], [write_all], [writable] *)
Context (sendmsg : list Z -> list Fd -> result IoError nat).
Context (write_result : list Z -> result IoError unit) (writable : result IoError unit).

(** The sending of the buffer and the descriptors in one [sendmsg]. *)
Definition fd_sendmsg (buffer : list Z) (fds : list Fd) : result IoError nat :=
  if match fds with [] => false | _ => negb (push FDS_MAX fds) end
  then Err (mkIoError InvalidInput "too many file descriptors")
  else
    match sendmsg buffer fds with
    | Err e => Err e
    | Ok sent =>
        if (sent =? 0)%nat && negb (bool_decide (buffer = []))
        then Err (mkIoError WriteZero "failed to write to buffer")
        else Ok sent
    end.

Definition write_all_bytes (bs : list Z) : result Error (list Sent) :=
  match write_result bs with Ok _ => Ok [mkSent _ bs []] | Err e => Err (Io e) end.

(** The result with what was sent when it is [Ok]. *)
Definition send_message (msg : Message) : result Error (list Sent) :=
  let fds := body_fds msg in
  let bytes := data_bytes msg in
  match fds with
  | [] => write_all_bytes bytes
  | _ =>
      match writable with
      | Err e => Err (Io e)
      | Ok _ =>
          match fd_sendmsg bytes fds with
          | Err e => Err (Io e)
          | Ok sent =>
              if (sent =? length bytes)%nat then Ok [mkSent _ bytes fds]
              else
                match write_all_bytes (drop sent bytes) with
                | Ok rest => Ok (mkSent _ (take sent bytes) fds :: rest)
                | Err e => Err e
                end
          end
      end
  end.

Definition send_hello_reply (self : ClientHandler) (original_msg : Message) : result Error (list Sent) :=
  let? reply := create_hello_reply self original_msg in send_message reply.
End Send.

(** ** The task of a client *)

Inductive TaskStatus := Running | Exited | Panicked.

#[export] Instance TaskStatus_eq_dec : EqDecision TaskStatus.
Proof. solve_decision. Defined.

Section Task.
Context `{ZB : Zbus}.

(** [inbound] is what the task has sent to the multiplexer; [outbound] the
    messages it has written to its socket. *)
Record Task := mkTask {
  handler : ClientHandler;
  future : option ReadFuture;
  inbound : list (Z * Message);
  outbound : list Message;
  status : TaskStatus;
}.

Definition Task_new (h : ClientHandler) : Task := mkTask h None [] [] Running.

(** What can happen next: bytes or the end of the stream arrive at the socket;
    the task is woken and polls the read, [inbound_open] telling whether the
    multiplexer still receives; a message for the client is taken from the
    outbound channel, with the result of [send_message]. *)
Inductive TaskStep :=
| Arrive (bs : list Z)
| Close (e : IoError)
| PollRead (inbound_open : bool)
| Outbound (msg : Message) (r : result Error unit).

(** The branch [result = self.read_message()] of [select!]: a future that is not
    ready is kept while no other branch runs. *)
Definition poll_read (inbound_open : bool) (t : Task) : Task :=
  let '(p, h) := read_message (future t) (handler t) in
  match p with
  | Pending f => mkTask h (Some f) (inbound t) (outbound t) Running
  | Ready (Ok (Some msg)) =>
      if inbound_open then mkTask h None (inbound t ++ [(cc_id (client h), msg)]) (outbound t) Running
      else mkTask h None (inbound t) (outbound t) Exited
  | Ready (Ok None) => mkTask h None (inbound t) (outbound t) Exited
  | Ready (Err _) => mkTask h None (inbound t) (outbound t) Exited
  | Panic => mkTask h None (inbound t) (outbound t) Panicked
  end.

(** The branch [Some(msg) = outbound_rx.recv()]: [select!] drops the future of
    the other branch before it runs the handler of this one. *)
Definition send_outbound (msg : Message) (r : result Error unit) (t : Task) : Task :=
  match r with
  | Ok _ => mkTask (handler t) None (inbound t) (outbound t ++ [msg]) Running
  | Err _ => mkTask (handler t) None (inbound t) (outbound t) Exited
  end.

Definition on_socket (f : Socket -> Socket) (t : Task) : Task :=
  mkTask (with_stream (f (stream (handler t))) (handler t)) (future t) (inbound t) (outbound t)
    (status t).

(** Nothing arrives after the end of the stream. *)
Definition arrive (bs : list Z) (s : Socket) : Socket :=
  match closed s with
  | None => mkSocket (arrived_bytes s ++ bs) None
  | Some _ => s
  end.

Definition close_socket (e : IoError) (s : Socket) : Socket :=
  mkSocket (arrived_bytes s) (match closed s with None => Some e | c => c end).

Definition task_step (t : Task) (l : TaskStep) : Task :=
  match status t with
  | Running =>
      match l with
      | Arrive bs => on_socket (arrive bs) t
      | Close e => on_socket (close_socket e) t
      | PollRead inbound_open => poll_read inbound_open t
      | Outbound msg r => send_outbound msg r t
      end
  | _ => t
  end.

Definition run_task (ls : list TaskStep) (t : Task) : Task := fold_left task_step ls t.
End Task.

(** ** Lemmas on sizes *)

(** The size of a message by the D-Bus specification. *)
Definition message_size (header : list Z) : Z :=
  16 + 8 * ((fields_len header + 7) / 8) + body_len header.

Lemma land_not7 x : 0 <= x < u32_modulus -> Z.land x (u32_modulus - 1 - 7) = 8 * (x / 8).
Proof.
  intros Hx. change (u32_modulus - 1 - 7) with (Z.ldiff (Z.ones 32) (Z.ones 3)).
  rewrite Z.mul_comm. change 8 with (2 ^ 3) at 2. rewrite <- Z.shiftl_mul_pow2 by lia.
  change 8 with (2 ^ 3). rewrite <- Z.shiftr_div_pow2 by lia.
  rewrite <- Z.ldiff_ones_r by lia.
  apply Z.bits_inj'. intros n Hn. rewrite Z.land_spec, !Z.ldiff_spec.
  destruct (decide (n < 32)) as [Hlt|Hge].
  - rewrite (Z.ones_spec_low 32) by lia. by destruct (Z.testbit x n), (Z.testbit (Z.ones 3) n).
  - replace (Z.testbit x n) with false; [done |]. symmetry.
    destruct (decide (x = 0)) as [->|Hne]; [apply Z.bits_0 |].
    apply Z.bits_above_log2; [lia |]. apply Z.log2_lt_pow2; [lia |].
    unfold u32_modulus in Hx. apply (Z.lt_le_trans _ (2 ^ 32)); [lia |].
    apply Z.pow_le_mono_r; lia.
Qed.

(** The code computes the size modulo 2^32. *)
Lemma total_size_mod header :
  0 <= fields_len header < u32_modulus ->
  total_size header = message_size header mod u32_modulus.
Proof.
  intros Hf. unfold total_size, message_size, fields_len_padded, wrap32.
  rewrite land_not7 by (apply Z.mod_pos_bound; done).
  rewrite Zplus_mod_idemp_l.
  assert (8 * (((fields_len header + 7) mod u32_modulus) / 8) =
          (8 * ((fields_len header + 7) / 8)) mod u32_modulus) as ->.
  { unfold u32_modulus in *. set (x := fields_len header + 7) in *.
    destruct (decide (x < 2 ^ 32)) as [Hlt|Hge].
    - rewrite (Z.mod_small x) by lia. rewrite Z.mod_small; [done |].
      Z.to_euclidean_division_equations. lia.
    - replace (x mod 2 ^ 32) with (x - 2 ^ 32) by (apply (Z.mod_unique _ _ 1); lia).
      replace (x / 8) with (2 ^ 29) by (Z.to_euclidean_division_equations; lia).
      replace ((x - 2 ^ 32) / 8) with 0 by (Z.to_euclidean_division_equations; lia). done. }
  replace (16 + _ mod u32_modulus + body_len header)
    with ((8 * ((fields_len header + 7) / 8)) mod u32_modulus + (16 + body_len header)) by lia.
  rewrite Zplus_mod_idemp_l. f_equal. lia.
Qed.

(** ** One poll of the read, as a function of the bytes not delivered yet *)

Lemma copy_at_prefix off bs buf :
  (off + length bs <= length buf)%nat ->
  take (off + length bs) (copy_at off bs buf) = take off buf ++ bs /\
  length (copy_at off bs buf) = length buf.
Proof.
  intros Hl. unfold copy_at. split.
  - rewrite app_assoc, take_app_le by (rewrite length_app, length_take; lia).
    apply take_ge. rewrite length_app, length_take. lia.
  - rewrite !length_app, length_take, length_drop. lia.
Qed.

Lemma take_prefix_le {A} (n m : nat) (l l' : list A) :
  (n <= m)%nat -> take m l = take m l' -> take n l = take n l'.
Proof.
  intros Hn E. rewrite <- (Nat.min_l n m Hn), <- !take_take, E. done.
Qed.

Section Framing.
Context `{ZB : Zbus}.

Definition left_over (h : ClientHandler) : list Z := drop (pending_pos h) (pending_data h).

(** The bytes the future holds, and those it will read. *)
Definition held (f : option ReadFuture) (h : ClientHandler) : list Z :=
  match f with
  | None => []
  | Some (ReadingHeader got) => got
  | Some (ReadingRest _ filled) => take (16 + filled) (read_buf h)
  end.

Definition unread (f : option ReadFuture) (h : ClientHandler) : list Z :=
  held f h ++ left_over h ++ arrived_bytes (stream h).

Definition buf_ok (h : ClientHandler) : Prop :=
  (16 <= length (read_buf h))%nat /\ Z.of_nat (length (read_buf h)) < u32_modulus.

(** The future and the handler fit together. *)
Definition reading_ok (f : option ReadFuture) (h : ClientHandler) : Prop :=
  buf_ok h /\
  match f with
  | None => True
  | Some (ReadingHeader got) => (length got < 16)%nat /\ left_over h = []
  | Some (ReadingRest header filled) =>
      length header = 16%nat /\ take 16 (read_buf h) = header /\ 16 <= total_size header /\
      total_size header <= Z.of_nat (length (read_buf h)) /\
      Z.of_nat filled <= total_size header - 16 /\ left_over h = []
  end.

Lemma left_over_read_buf b h : left_over (with_read_buf b h) = left_over h.
Proof. done. Qed.

Lemma take_pending_spec len h :
  0 <= len ->
  let '(bs, h') := take_pending len h in
  bs = take (Z.to_nat len) (left_over h) /\ left_over h' = drop (Z.to_nat len) (left_over h) /\
  stream h' = stream h /\ read_buf h' = read_buf h /\ client h' = client h.
Proof.
  intros Hlen. unfold take_pending, left_over.
  destruct (Nat.ltb_spec (pending_pos h) (length (pending_data h))) as [Hlt|Hge].
  - set (r := drop (pending_pos h) (pending_data h)).
    assert (length r = length (pending_data h) - pending_pos h)%nat as Hr by apply length_drop.
    set (n := Z.to_nat (Z.min (Z.of_nat (length r)) len)).
    assert (take n r = take (Z.to_nat len) r /\ drop n r = drop (Z.to_nat len) r) as [-> Hd].
    { destruct (decide (len <= Z.of_nat (length r))).
      - by replace n with (Z.to_nat len) by lia.
      - split; [rewrite !take_ge by lia; done | rewrite !drop_ge by lia; done]. }
    rewrite <- Hd. subst r. rewrite drop_drop.
    destruct (Nat.leb_spec (length (pending_data h)) (pending_pos h + n)); cbn; [| done].
    rewrite (drop_ge (pending_data h) (pending_pos h + n)) by lia. done.
  - rewrite drop_ge by lia. rewrite take_nil, drop_nil. done.
Qed.

Lemma take_stream_spec need h :
  0 <= need ->
  let '(bs, h') := take_stream need h in
  bs = take (Z.to_nat need) (arrived_bytes (stream h)) /\
  arrived_bytes (stream h') = drop (Z.to_nat need) (arrived_bytes (stream h)) /\
  closed (stream h') = closed (stream h) /\ left_over h' = left_over h /\
  read_buf h' = read_buf h /\ client h' = client h.
Proof.
  intros Hn. unfold take_stream, left_over. cbn.
  set (l := arrived_bytes (stream h)).
  destruct (decide (need <= Z.of_nat (length l))).
  - by rewrite Z.min_r by lia.
  - rewrite Z.min_l by lia. rewrite !take_ge, !drop_ge by lia. done.
Qed.

(** The message that the first [total] bytes make. *)
Definition decode_frame (frame : list Z) : result Error (option Message) :=
  match from_bytes (endian_of frame) frame with
  | Ok msg => Ok (Some msg)
  | Err e => Err (DBus e)
  end.

Definition header_end (e : IoError) : result Error (option Message) :=
  match io_kind e with UnexpectedEof => Ok None | _ => Err (Io e) end.

(** A poll that found [u] to read and [c] after it. *)
Definition polled (u : list Z) (c : option IoError) (p : Poll) (h' : ClientHandler) : Prop :=
  closed (stream h') = c /\
  let waits := exists f', p = Pending f' /\ reading_ok (Some f') h' /\ unread (Some f') h' = u /\
                          arrived_bytes (stream h') = [] in
  let total := total_size (take 16 u) in
  if (length u <? 16)%nat then match c with Some e => p = Ready (header_end e) | None => waits end
  else if total <? 16 then p = Panic
  else if Z.of_nat (length u) <? total then match c with Some e => p = Ready (Err (Io e)) | None => waits end
  else p = Ready (decode_frame (take (Z.to_nat total) u)) /\
       unread None h' = drop (Z.to_nat total) u /\ reading_ok None h'.

Lemma remaining_total header : 16 <= total_size header -> remaining header = total_size header - 16.
Proof.
  intros H. unfold remaining, wrap32. apply Z.mod_small.
  pose proof (Z.mod_pos_bound (wrap32 (16 + fields_len_padded header) + body_len header) u32_modulus).
  unfold total_size, wrap32, u32_modulus in *. lia.
Qed.

Lemma total_size_range header : 0 <= total_size header < u32_modulus.
Proof. apply Z.mod_pos_bound. done. Qed.

Lemma endian_of_take16 u n : (16 <= n)%nat -> endian_of (take n u) = endian_of (take 16 u).
Proof. intros Hn. unfold endian_of, is_little. rewrite !lookup_take_lt by lia. done. Qed.

(** The end of a read with the whole frame in the buffer. *)
Lemma finish_polled u header c h :
  take 16 u = header -> (16 <= length u)%nat ->
  16 <= total_size header -> total_size header <= Z.of_nat (length u) ->
  total_size header <= Z.of_nat (length (read_buf h)) -> buf_ok h -> closed (stream h) = c ->
  take (Z.to_nat (total_size header)) (read_buf h) = take (Z.to_nat (total_size header)) u ->
  left_over h ++ arrived_bytes (stream h) = drop (Z.to_nat (total_size header)) u ->
  polled u c (finish header h).1 (finish header h).2.
Proof.
  intros <- Hlu H16 Hu Hb Hok Hc Htake Hdrop. unfold finish.
  rewrite (proj2 (Z.ltb_ge _ _)) by lia. rewrite Htake.
  assert (polled u c (Ready (decode_frame (take (Z.to_nat (total_size (take 16 u))) u))) h) as Hp.
  { split; [done |]. cbv zeta. rewrite (proj2 (Nat.ltb_ge _ _)) by lia.
    rewrite (proj2 (Z.ltb_ge (total_size _) 16)) by lia.
    rewrite (proj2 (Z.ltb_ge _ _)) by lia. split_and!; [done | exact Hdrop | by split]. }
  unfold decode_frame in Hp. rewrite endian_of_take16 in Hp by lia.
  by destruct (from_bytes _ _).
Qed.

(** A read that goes on waiting, or fails with what follows the bytes. *)
Lemma rest_waits u header c p h :
  take 16 u = header -> (16 <= length u)%nat ->
  16 <= total_size header -> Z.of_nat (length u) < total_size header -> closed (stream h) = c ->
  match c with
  | Some e => p = Ready (Err (Io e))
  | None => exists f', p = Pending f' /\ reading_ok (Some f') h /\ unread (Some f') h = u /\
                       arrived_bytes (stream h) = []
  end ->
  polled u c p h.
Proof.
  intros <- Hlu H16 Hu Hc Hp. split; [done |]. cbv zeta.
  rewrite (proj2 (Nat.ltb_ge _ _)) by lia. rewrite (proj2 (Z.ltb_ge (total_size _) 16)) by lia.
  by rewrite (proj2 (Z.ltb_lt _ _)) by lia.
Qed.

Lemma poll_rest_polled header filled h :
  reading_ok (Some (ReadingRest header filled)) h ->
  polled (unread (Some (ReadingRest header filled)) h) (closed (stream h))
    (poll_rest header filled h).1 (poll_rest header filled h).2.
Proof.
  intros (Hok & Hlh & Hhead & H16 & Hbuf & Hfill & Hlo). unfold poll_rest.
  rewrite remaining_total by done. unfold unread. cbn [held]. rewrite Hlo, app_nil_l.
  set (need := total_size header - 16 - Z.of_nat filled).
  pose proof (take_stream_spec need h ltac:(lia)) as Hts.
  destruct (take_stream need h) as [bs h1]. destruct Hts as (-> & Hav & Hc & Hlo1 & Hrb & _).
  rewrite <- Hc. set (avail := arrived_bytes (stream h)) in *.
  set (bs := take (Z.to_nat need) avail) in *. rewrite Hrb.
  set (u := take (16 + filled) (read_buf h) ++ avail).
  assert (length bs <= Z.to_nat need)%nat as Hbs by (subst bs; rewrite length_take; lia).
  destruct (copy_at_prefix (16 + filled) bs (read_buf h)) as [Hpre Hlen]; [lia |].
  set (buf := copy_at (16 + filled) bs (read_buf h)) in *. clearbody buf.
  assert (length u = 16 + filled + length avail)%nat as Hlu
    by (subst u; rewrite length_app, length_take; lia).
  assert (take 16 u = header) as Hu16.
  { subst u. rewrite take_app_le by (rewrite length_take; lia). rewrite take_take, Nat.min_l by lia. done. }
  destruct Hok as [Hok1 Hok2].
  destruct (Z.eqb_spec (Z.of_nat (filled + length bs)) (total_size header - 16)) as [Heq|Hne].
  - assert (need <= Z.of_nat (length avail)) by (subst bs; rewrite length_take in *; lia).
    apply finish_polled; rewrite ?left_over_read_buf; cbn [read_buf stream with_read_buf]; try done; try lia.
    + split; cbn [read_buf with_read_buf]; rewrite Hlen; lia.
    + replace (Z.to_nat (total_size header)) with (16 + filled + length bs)%nat by lia.
      rewrite Hpre. subst u. rewrite take_app_ge by (rewrite length_take; lia).
      f_equal. rewrite length_take. subst bs. f_equal. rewrite length_take in *. lia.
    + rewrite Hlo1, Hlo, Hav, app_nil_l.
      subst u. rewrite drop_app_ge by (rewrite length_take; lia). f_equal. rewrite length_take. lia.
  - assert (Z.of_nat (length avail) < need) by (subst bs; rewrite length_take in *; lia).
    assert (bs = avail) as Hbsa by (subst bs; apply take_ge; lia).
    change (stream (with_read_buf buf h1)) with (stream h1).
    destruct (closed (stream h1)) as [e|] eqn:Ec; apply (rest_waits u header); try done; try lia.
    eexists. split; [reflexivity |]. unfold unread, reading_ok, buf_ok.
    cbn [fst snd]. rewrite left_over_read_buf, Hlo1, Hlo. cbn [held read_buf with_read_buf stream].
    rewrite Hav, Hlen, drop_ge by lia. rewrite Nat.add_assoc, Hpre, Hbsa, !app_nil_r.
    split_and!; try done; try lia. rewrite <- Hhead.
    apply (take_prefix_le _ (16 + filled)); [lia |].
    rewrite <- (Nat.min_l (16 + filled) (16 + filled + length bs)) at 1 by lia.
    rewrite <- take_take, Hpre, take_app_le by (rewrite length_take; lia). rewrite take_take, Nat.min_id. done.
Qed.

(** A header whose size is below 16 asks for almost 4 GiB more than the buffer has. *)
Lemma small_total_panics u c p h :
  (16 <= length u)%nat -> total_size (take 16 u) < 16 -> closed (stream h) = c -> p = Panic ->
  polled u c p h.
Proof.
  intros Hu Ht Hc ->. split; [done |]. cbv zeta. rewrite (proj2 (Nat.ltb_ge _ _)) by lia.
  by rewrite (proj2 (Z.ltb_lt _ _)).
Qed.

Lemma begin_rest_small header h :
  length header = 16%nat -> buf_ok h -> total_size header < 16 ->
  (begin_rest header h).1 = Panic /\ closed (stream (begin_rest header h).2) = closed (stream h).
Proof.
  intros Hlh [Hb1 Hb2] Ht. unfold begin_rest.
  pose proof (total_size_range header) as Hr.
  assert (remaining header = total_size header - 16 + u32_modulus) as Hrem.
  { unfold remaining, wrap32. symmetry. apply (Z.mod_unique _ _ (-1)); unfold u32_modulus in *; lia. }
  rewrite (proj2 (Z.ltb_ge _ (total_size header))) by lia.
  rewrite (proj2 (Z.ltb_lt 0 _)) by (unfold u32_modulus in *; lia).
  set (h2 := with_read_buf _ h). unfold read_exact_into_buf.
  pose proof (take_pending_spec (remaining header) h2 ltac:(unfold u32_modulus in *; lia)) as Htp.
  destruct (take_pending (remaining header) h2) as [bs h3]. destruct Htp as (_ & _ & Hst & Hrb & _).
  assert (length (read_buf h3) = length (read_buf h)) as Hl3.
  { rewrite Hrb. subst h2. apply (copy_at_prefix 0 header (read_buf h)). lia. }
  assert (closed (stream h3) = closed (stream h)) as Hc3 by by rewrite Hst.
  destruct (Nat.ltb_spec (length (read_buf h3)) (16 + length bs)); [done |].
  destruct (copy_at_prefix 16 bs (read_buf h3)) as [_ Hl4]; [lia |].
  rewrite (proj2 (Z.ltb_lt (Z.of_nat (length bs)) _)) by lia.
  cbn [read_buf with_read_buf]. rewrite Hl4, (proj2 (Z.ltb_lt _ (16 + _))) by lia. done.
Qed.

Lemma read_exact_into_buf_polled header h :
  length header = 16%nat -> buf_ok h -> take 16 (read_buf h) = header ->
  16 <= total_size header <= Z.of_nat (length (read_buf h)) ->
  polled (header ++ left_over h ++ arrived_bytes (stream h)) (closed (stream h))
    (read_exact_into_buf header h).1 (read_exact_into_buf header h).2.
Proof.
  intros Hlh [Hb1 Hb2] Hpre [H16 Hl]. set (u := header ++ _). unfold read_exact_into_buf.
  rewrite remaining_total by lia.
  pose proof (take_pending_spec (total_size header - 16) h ltac:(lia)) as Htp.
  destruct (take_pending (total_size header - 16) h) as [bs h3].
  destruct Htp as (Hbs & Hlo3 & Hst3 & Hrb3 & _).
  assert (length bs <= Z.to_nat (total_size header - 16))%nat as Hlbs by (subst bs; rewrite length_take; lia).
  rewrite Hrb3, (proj2 (Nat.ltb_ge _ _)) by lia.
  destruct (copy_at_prefix 16 bs (read_buf h)) as [Hpre4 Hlen4]; [lia |]. rewrite Hpre in Hpre4.
  set (h4 := with_read_buf _ h3).
  assert (read_buf h4 = copy_at 16 bs (read_buf h)) as Hrb4 by done. rewrite <- Hrb4 in Hpre4, Hlen4.
  assert (left_over h4 = left_over h3 /\ stream h4 = stream h) as [Hlo4 Hst4] by done. clearbody h4.
  assert (buf_ok h4) as Hok4 by (split; lia).
  assert (take 16 u = header) as Hu16 by (subst u; rewrite take_app_le by lia; by rewrite take_ge by lia).
  destruct (Z.ltb_spec (Z.of_nat (length bs)) (total_size header - 16)) as [Hlt|Hge].
  - rewrite (proj2 (Z.ltb_ge _ _)) by lia.
    assert (bs = left_over h) as Hall by (rewrite Hbs; apply take_ge; rewrite Hbs, length_take in Hlt; lia).
    assert (left_over h4 = []) as Hnil by (rewrite Hlo4, Hlo3; apply drop_ge; rewrite <- Hall; lia).
    assert (unread (Some (ReadingRest header (length bs))) h4 = u) as <-.
    { unfold unread. cbn [held]. rewrite Hnil, Hpre4, Hst4, Hall. subst u. by rewrite <- app_assoc. }
    rewrite <- Hst4. apply poll_rest_polled. split; [done |]. split_and!; try done; try lia.
    rewrite <- (Nat.min_l 16 (16 + length bs)) at 1 by lia.
    rewrite <- take_take, Hpre4, take_app_le, take_ge by lia. done.
  - rewrite Hbs, length_take in Hge. apply finish_polled; rewrite ?Hst4; try done; try lia.
    + subst u. rewrite !length_app. lia.
    + subst u. rewrite !length_app. lia.
    + replace (Z.to_nat (total_size header)) with (16 + length bs)%nat by (rewrite Hbs, length_take; lia).
      rewrite Hpre4. subst u. rewrite take_app_ge by lia. f_equal.
      replace (16 + length bs - length header)%nat with (length bs) by lia.
      rewrite Hbs, length_take, take_app_le by lia. f_equal. lia.
    + rewrite Hlo4, Hlo3. subst u. rewrite drop_app_ge by lia. rewrite drop_app_le by lia.
      do 2 f_equal. lia.
Qed.

Lemma begin_rest_polled header h :
  length header = 16%nat -> buf_ok h ->
  polled (header ++ left_over h ++ arrived_bytes (stream h)) (closed (stream h))
    (begin_rest header h).1 (begin_rest header h).2.
Proof.
  intros Hlh Hok. set (u := header ++ _).
  assert (take 16 u = header) as Hu16 by (subst u; rewrite take_app_le by lia; by rewrite take_ge by lia).
  assert (16 <= length u)%nat as Hlu by (subst u; rewrite length_app; lia).
  destruct (decide (total_size header < 16)) as [Hsmall|H16].
  { destruct (begin_rest_small header h Hlh Hok Hsmall) as [-> Hc].
    apply small_total_panics; [done | by rewrite Hu16 | done | done]. }
  destruct Hok as [Hb1 Hb2]. pose proof (total_size_range header) as Hr. unfold begin_rest.
  set (h1 := if _ <? _ then _ else h).
  assert (total_size header <= Z.of_nat (length (read_buf h1)) /\ buf_ok h1 /\
          left_over h1 = left_over h /\ stream h1 = stream h) as (Hl1 & [Hb3 Hb4] & Hlo1 & Hst1).
  { subst h1. destruct (Z.ltb_spec (Z.of_nat (length (read_buf h))) (total_size header)); [| by split_and!].
    unfold buf_ok. cbn [read_buf with_read_buf]. rewrite length_app, length_replicate. split_and!; try done; lia. }
  clearbody h1.
  destruct (copy_at_prefix 0 header (read_buf h1)) as [Hpre Hlen]; [lia |].
  rewrite take_0, app_nil_l, Nat.add_0_l, Hlh in Hpre.
  set (h2 := with_read_buf _ h1).
  assert (read_buf h2 = copy_at 0 header (read_buf h1)) as Hrb2 by done. rewrite <- Hrb2 in Hpre, Hlen.
  assert (left_over h2 = left_over h /\ stream h2 = stream h) as [Hlo2 Hst2] by done. clearbody h2.
  assert (buf_ok h2) as Hok2 by (split; lia).
  destruct (Z.ltb_spec 0 (remaining header)) as [Hpos|Hzero]; rewrite remaining_total in * by lia.
  - subst u. rewrite <- Hlo2, <- Hst2. apply read_exact_into_buf_polled; try done. lia.
  - apply finish_polled; try done; try lia.
    + congruence.
    + replace (Z.to_nat (total_size header)) with 16%nat by lia. by rewrite Hpre, Hu16.
    + rewrite Hlo2, Hst2. subst u. rewrite drop_app_ge by lia.
      replace (Z.to_nat (total_size header) - length header)%nat with 0%nat by lia. done.
Qed.

Lemma poll_header_polled got h :
  (length got <= 16)%nat -> ((length got < 16)%nat -> left_over h = []) -> buf_ok h ->
  polled (got ++ left_over h ++ arrived_bytes (stream h)) (closed (stream h))
    (poll_header got h).1 (poll_header got h).2.
Proof.
  intros Hl Hlo Hok. unfold poll_header. set (need := 16 - Z.of_nat (length got)).
  pose proof (take_stream_spec need h ltac:(lia)) as Hts.
  destruct (take_stream need h) as [bs h1]. destruct Hts as (-> & Hav & Hc & Hlo1 & Hrb & _).
  set (avail := arrived_bytes (stream h)) in *. set (bs := take (Z.to_nat need) avail).
  assert (buf_ok h1) as Hok1 by (unfold buf_ok; by rewrite Hrb).
  assert (got ++ left_over h ++ avail = (got ++ bs) ++ left_over h1 ++ arrived_bytes (stream h1)) as Hu.
  { rewrite Hlo1, Hav. destruct (decide (length got < 16)%nat) as [Hlt|Hge].
    - rewrite Hlo by done. rewrite !app_nil_l, <- app_assoc. subst bs. by rewrite take_drop.
    - subst bs. replace (Z.to_nat need) with 0%nat by lia. by rewrite take_0, app_nil_r. }
  rewrite <- Hc. destruct (Nat.eqb_spec (length (got ++ bs)) 16) as [Heq|Hne].
  - rewrite Hu. by apply begin_rest_polled.
  - rewrite length_app in Hne. subst bs. rewrite length_take in Hne.
    assert (left_over h1 = [] /\ arrived_bytes (stream h1) = []) as [Hl1 Ha1].
    { rewrite Hlo1, Hav. split; [apply Hlo; lia | apply drop_ge; lia]. }
    rewrite Hu, Hl1, Ha1, !app_nil_r. set (bs := take (Z.to_nat need) avail) in *.
    assert (length (got ++ bs) < 16)%nat as Hlt by (subst bs; rewrite length_app, length_take; lia).
    destruct (closed (stream h1)) as [e|] eqn:Ec; (split; [done |]); cbv zeta;
      rewrite (proj2 (Nat.ltb_lt _ _)) by done; [done |].
    eexists. split; [reflexivity |]. unfold unread. cbn [fst snd held]. rewrite Hl1, Ha1, app_nil_r.
    by split.
Qed.

(** The outcome of a poll depends on the bytes not delivered yet and on what
    follows them alone - not on which of them sit in the future, in the data left
    over from authentication or in the socket. *)
Lemma read_message_polled f h :
  reading_ok f h ->
  polled (unread f h) (closed (stream h)) (read_message f h).1 (read_message f h).2.
Proof.
  intros Hr. destruct f as [[got|header filled]|]; cbn [read_message].
  - destruct Hr as (Hok & Hl & Hlo). apply poll_header_polled; [lia | done | done].
  - by apply poll_rest_polled.
  - destruct Hr as [Hok _]. unfold unread. cbn [held]. rewrite app_nil_l.
    pose proof (take_pending_spec 16 h ltac:(lia)) as Htp.
    destruct (take_pending 16 h) as [bs h1]. destruct Htp as (Hbs & Hlo & Hst & Hrb & _).
    rewrite <- Hst. rewrite <- (take_drop (Z.to_nat 16) (left_over h)), <- app_assoc, <- Hlo, <- Hbs.
    apply poll_header_polled.
    + rewrite Hbs, length_take. lia.
    + intros Hlt. rewrite Hlo. apply drop_ge. rewrite Hbs, length_take in Hlt. lia.
    + unfold buf_ok. by rewrite Hrb.
Qed.

Lemma read_message_client f h : client (read_message f h).2 = client h.
Proof.
  assert (forall len h', client (take_pending len h').2 = client h') as Hp.
  { intros len h'. unfold take_pending. by repeat case_match. }
  assert (forall header h', client (finish header h').2 = client h') as Hf.
  { intros header h'. unfold finish. by repeat case_match. }
  assert (forall header filled h', client (poll_rest header filled h').2 = client h') as Hr.
  { intros header filled h'. unfold poll_rest, take_stream.
    case_match; [by rewrite Hf | by case_match]. }
  assert (forall header h', client (begin_rest header h').2 = client h') as Hb.
  { intros header h'. unfold begin_rest. set (h1 := if _ <? _ then _ else h').
    assert (client h1 = client h') as Hh1 by (subst h1; by case_match). clearbody h1.
    case_match; [| by rewrite Hf]. set (h2 := with_read_buf _ h1). unfold read_exact_into_buf.
    pose proof (Hp (remaining header) h2) as Hp'.
    destruct (take_pending (remaining header) h2) as [bs h3]. cbn [snd] in Hp'.
    change (client h2) with (client h1) in Hp'.
    repeat case_match; rewrite ?Hr, ?Hf; cbn; congruence. }
  assert (forall got h', client (poll_header got h').2 = client h') as Hh.
  { intros got h'. unfold poll_header, take_stream. case_match; [by rewrite Hb | by case_match]. }
  destruct f as [[got|header filled]|]; cbn [read_message]; [apply Hh | apply Hr |].
  pose proof (Hp 16 h) as Hp'. destruct (take_pending 16 h) as [bs h1]. by rewrite Hh.
Qed.

(** ** Runs of a task *)

(** The bytes that reach the socket in a run: none once it is closed. *)
Fixpoint arrivals (is_open : bool) (ls : list TaskStep) : list Z :=
  match ls with
  | [] => []
  | Arrive bs :: ls' => (if is_open then bs else []) ++ arrivals is_open ls'
  | Close _ :: ls' => arrivals false ls'
  | _ :: ls' => arrivals is_open ls'
  end.

(** No message is sent to the client while the read holds part of a frame. *)
Fixpoint undisturbed (ls : list TaskStep) (t : Task) : Prop :=
  match ls with
  | [] => True
  | l :: ls' =>
      match l with Outbound _ _ => held (future t) (handler t) = [] | _ => True end /\
      undisturbed ls' (task_step t l)
  end.

#[export] Instance undisturbed_dec ls t : Decision (undisturbed ls t).
Proof. revert t. induction ls as [|[] ls IH]; intros t; simpl; apply _. Defined.

(** A message is a frame: as many bytes as its header says, decoded. *)
Definition framed (id : Z) (frame : list Z) (x : Z * Message) : Prop :=
  x.1 = id /\ Z.of_nat (length frame) = total_size (take 16 frame) /\ 16 <= total_size (take 16 frame) /\
  from_bytes (endian_of frame) frame = Ok x.2.

Definition task_ok (t : Task) : Prop := status t = Running -> reading_ok (future t) (handler t).

(** [bytes] is what the client has sent so far. *)
Definition accounts (id : Z) (bytes : list Z) (t : Task) : Prop :=
  exists frames rest,
    bytes = concat frames ++ rest /\ Forall2 (framed id) frames (inbound t) /\
    (status t = Running -> rest = unread (future t) (handler t)).

Lemma poll_read_running t :
  task_ok t -> status t = Running ->
  polled (unread (future t) (handler t)) (closed (stream (handler t)))
    (read_message (future t) (handler t)).1 (read_message (future t) (handler t)).2.
Proof. intros Hok Hs. apply read_message_polled. by apply Hok. Qed.

(** What a poll adds to the messages delivered, and what it leaves. *)
Lemma poll_read_cases b t :
  task_ok t -> status t = Running ->
  let u := unread (future t) (handler t) in
  let t' := poll_read b t in
  task_ok t' /\ client (handler t') = client (handler t) /\
  ((status t' = Running /\ inbound t' = inbound t /\ unread (future t') (handler t') = u) \/
   (status t' <> Running /\ inbound t' = inbound t) \/
   (exists frame msg, status t' = Running /\ u = frame ++ unread (future t') (handler t') /\
      inbound t' = inbound t ++ [(cc_id (client (handler t)), msg)] /\
      framed (cc_id (client (handler t))) frame (cc_id (client (handler t)), msg))).
Proof.
  intros Hok Hs u t'. pose proof (poll_read_running t Hok Hs) as [_ Hp]. fold u in Hp.
  pose proof (read_message_client (future t) (handler t)) as Hcl.
  subst t'. unfold poll_read. destruct (read_message (future t) (handler t)) as [p h]. cbn [fst snd] in *.
  assert (forall f', p = Pending f' -> reading_ok (Some f') h -> unread (Some f') h = u ->
    task_ok (mkTask h (Some f') (inbound t) (outbound t) Running)) as Hpend by (by intros f' -> ? ? ?).
  cbv zeta in Hp.
  destruct (length u <? 16)%nat eqn:E16.
  { destruct (closed (stream (handler t))) as [e|].
    - subst p. unfold header_end. by destruct (io_kind e); (split; [done | split; [done | right; left]]).
    - destruct Hp as (f' & -> & Hr & Hu & _). split; [by intros _ | split; [done | by left]]. }
  destruct (total_size (take 16 u) <? 16) eqn:Et.
  { subst p. by (split; [done | split; [done | right; left]]). }
  destruct (Z.of_nat (length u) <? total_size (take 16 u)) eqn:Eu.
  { destruct (closed (stream (handler t))) as [e|].
    - subst p. by (split; [done | split; [done | right; left]]).
    - destruct Hp as (f' & -> & Hr & Hu & _). split; [by intros _ | split; [done | by left]]. }
  destruct Hp as (-> & Hu & Hr). unfold decode_frame.
  set (frame := take (Z.to_nat (total_size (take 16 u))) u) in *.
  apply Nat.ltb_ge in E16. apply Z.ltb_ge in Et, Eu.
  assert (take 16 frame = take 16 u) as Hf16 by (subst frame; rewrite take_take, Nat.min_l by lia; done).
  destruct (from_bytes (endian_of frame) frame) as [msg|e] eqn:Efb.
  - destruct b; [| by (split; [done | split; [done | right; left]])].
    split; [by intros _ | split; [done | right; right]]. exists frame, msg.
    split; [done |]. split; [| split; [by rewrite Hcl |]].
    + cbn [future handler]. rewrite Hu. subst frame. by rewrite take_drop.
    + split; [done |]. rewrite Hf16. split; [| by split].
      subst frame. rewrite length_take. lia.
  - by (split; [done | split; [done | right; left]]).
Qed.

Lemma unread_arrive f h bs s :
  unread f (with_stream (mkSocket (arrived_bytes (stream h) ++ bs) s) h) = unread f h ++ bs.
Proof. unfold unread. destruct f as [[]|]; simpl; by rewrite <- !app_assoc. Qed.

Lemma reading_ok_stream f h s : reading_ok f h -> reading_ok f (with_stream s h).
Proof. by destruct f as [[]|]. Qed.

Definition socket_open (s : Socket) : bool := match closed s with None => true | Some _ => false end.

Definition still_open (is_open : bool) (l : TaskStep) : bool :=
  match l with Close _ => false | _ => is_open end.

Lemma arrivals_cons is_open l ls :
  arrivals is_open (l :: ls) = arrivals is_open [l] ++ arrivals (still_open is_open l) ls.
Proof. destruct l; simpl; by rewrite ?app_nil_r. Qed.

Lemma task_step_accounts id bytes is_open t l :
  task_ok t -> accounts id bytes t -> cc_id (client (handler t)) = id ->
  (status t = Running -> socket_open (stream (handler t)) = is_open) ->
  match l with Outbound _ _ => held (future t) (handler t) = [] | _ => True end ->
  let t' := task_step t l in
  task_ok t' /\ accounts id (bytes ++ arrivals is_open [l]) t' /\ cc_id (client (handler t')) = id /\
  (status t' = Running -> socket_open (stream (handler t')) = still_open is_open l).
Proof.
  intros Hok (frames & rest & -> & HF & Hrest) Hid Hopen Hl t'. subst t'. unfold task_step.
  rewrite <- app_assoc. destruct (status t) eqn:Hs.
  2, 3: split; [done |]; split; [by exists frames, (rest ++ arrivals is_open [l]); rewrite Hs | by rewrite Hs].
  specialize (Hrest eq_refl). specialize (Hopen eq_refl). pose proof (Hok Hs) as Hr. rewrite Hrest. clear Hrest.
  destruct l as [bs|e|b|msg r]; cbn [arrivals]; rewrite ?app_nil_r.
  - unfold on_socket. rewrite <- Hopen.
    assert (unread (future t) (handler t) ++ (if socket_open (stream (handler t)) then bs else []) =
            unread (future t) (with_stream (arrive bs (stream (handler t))) (handler t))) as ->.
    { unfold arrive, socket_open. destruct (stream (handler t)) as [av [e|]] eqn:Est; cbn.
      - rewrite app_nil_r. unfold unread, left_over, held. cbn. by rewrite Est.
      - pose proof (unread_arrive (future t) (handler t) bs None) as Hu. rewrite Est in Hu. by cbn in Hu. }
    split; [intros _; by apply reading_ok_stream |]. split; [| split; [done |]].
    + eexists frames, _. split; [reflexivity |]. by split.
    + intros _. cbn. by destruct (stream (handler t)) as [av [e|]].
  - unfold on_socket. split; [intros _; by apply reading_ok_stream |]. split; [| split; [done |]].
    + eexists frames, _. split; [reflexivity |]. split; [done |]. intros _.
      unfold unread. by destruct (future t) as [[]|].
    + intros _. unfold socket_open. cbn. by destruct (closed (stream (handler t))).
  - pose proof (poll_read_running t Hok Hs) as [Hc _].
    destruct (poll_read_cases b t Hok Hs) as (Hok' & Hcl & Hcase). split; [done |].
    assert (closed (stream (handler (poll_read b t))) = closed (stream (handler t))) as Hc'.
    { unfold poll_read. destruct (read_message _ _) as [p h]. by repeat case_match. }
    split; [| split; [congruence |]].
    + destruct Hcase as [(Hs' & Hin & Hu)|[(Hs' & Hin)|(frame & m & Hs' & Hu & Hin & Hfr)]].
      * exists frames, (unread (future t) (handler t)). rewrite Hin, Hu. done.
      * exists frames, (unread (future t) (handler t)). rewrite Hin. done.
      * rewrite Hu. unfold accounts. rewrite Hin. exists (frames ++ [frame]), (unread (future (poll_read b t)) (handler (poll_read b t))).
        rewrite concat_app. cbn [concat].
        rewrite app_nil_r, <- app_assoc. split; [reflexivity |]. split; [| done].
        rewrite <- Hid in HF |- *. by apply Forall2_app; [| constructor].
    + intros _. unfold socket_open in *. by rewrite Hc'.
  - unfold send_outbound. destruct r as [u|e]; cbn.
    + split; [intros _; split; [apply Hr | done] |]. split; [| done].
      eexists frames, _. split; [reflexivity |]. split; [done |]. intros _.
      unfold unread. by rewrite Hl.
    + split; [done |]. split; [| done]. eexists frames, _. split; [reflexivity |]. by split.
Qed.

Lemma run_task_accounts id ls bytes is_open t :
  task_ok t -> accounts id bytes t -> cc_id (client (handler t)) = id ->
  (status t = Running -> socket_open (stream (handler t)) = is_open) -> undisturbed ls t ->
  accounts id (bytes ++ arrivals is_open ls) (run_task ls t).
Proof.
  revert bytes is_open t. induction ls as [|l ls IH]; intros bytes is_open t Hok Hacc Hid Hop Hund.
  - cbn [arrivals]. by rewrite app_nil_r.
  - destruct Hund as [Hl Hund]. rewrite arrivals_cons, app_assoc.
    destruct (task_step_accounts id bytes is_open t l Hok Hacc Hid Hop Hl) as (Hok' & Hacc' & Hid' & Hop').
    by apply (IH _ _ (task_step t l)).
Qed.
End Framing.
