(* ===== verification/ClientProofs.v ===== *)
(** * Properties of client connections (src/src/client.rs) *)

From S2P Require Import Prelude RustStr Zbus SimpleZbus Errors Message Auth Client.
From Stdlib Require Import Ascii.

#[local] Open Scope Z_scope.

Section Properties.
Context `{ZB : Zbus}.

(** C15. Framing loses and invents nothing: however the bytes of a client are cut
    into arrivals and whenever the read is polled, as long as no message is
    written to the client while a frame is half read, the bytes sent so far are
    the frames of the messages handed to the multiplexer, in order, each as long
    as its header says and decoded as it is, followed by the bytes still to be
    read. *)
Theorem framing_accounts_for_bytes (h : ClientHandler) (ls : list TaskStep) :
  buf_ok h -> undisturbed ls (Task_new h) ->
  let t := run_task ls (Task_new h) in
  exists frames rest,
    unread None h ++ arrivals (socket_open (stream h)) ls = concat frames ++ rest /\
    Forall2 (framed (cc_id (client h))) frames (inbound t) /\
    (status t = Running -> rest = unread (future t) (handler t)).
Proof.
  intros Hb Hu t. apply run_task_accounts; try done.
  exists [], (unread None h). split; [done |]. split; [constructor | done].
Qed.

(** A poll that waits has taken all there was into the future. *)
Definition waits_after (t : Task) : Prop :=
  exists f' h', read_message (future t) (handler t) = (Pending f', h') /\
    left_over h' = [] /\ arrived_bytes (stream h') = [].

Lemma incomplete_waits (t : Task) :
  let u := unread (future t) (handler t) in
  reading_ok (future t) (handler t) -> closed (stream (handler t)) = None ->
  (length u < 16)%nat \/ 16 <= total_size (take 16 u) /\ Z.of_nat (length u) < total_size (take 16 u) ->
  waits_after t.
Proof.
  intros u Hr Hc Hpart. pose proof (read_message_polled _ _ Hr) as [_ Hp]. cbv zeta in Hp. fold u in Hp.
  rewrite Hc in Hp.
  assert (exists f', (read_message (future t) (handler t)).1 = Pending f' /\
            reading_ok (Some f') (read_message (future t) (handler t)).2 /\
            arrived_bytes (stream (read_message (future t) (handler t)).2) = []) as (f' & Hf & Hok & Hav).
  { destruct (Nat.ltb_spec (length u) 16); [naive_solver |].
    destruct Hpart as [|[H16 Hlt]]; [lia |].
    rewrite (proj2 (Z.ltb_ge _ 16)), (proj2 (Z.ltb_lt _ _)) in Hp by lia. naive_solver. }
  exists f', (read_message (future t) (handler t)).2. split; [| split; [| done]].
  - rewrite <- Hf. by destruct (read_message _ _).
  - destruct Hok as [_ Hok]. destruct f'; tauto.
Qed.

(** C36. A message sent to a client in the middle of a read loses the bytes read:
    [select!] drops the unfinished [read_message], and with it the part of the
    frame it has taken from the socket.  After a poll of an incomplete frame
    followed by any outbound message nothing of the frame is left, and the next
    bytes of the client are taken for a header; had the poll not happened, all
    the bytes would still be there. *)
Theorem cancelled_read_loses_bytes (t : Task) (msg : Message) :
  let u := unread (future t) (handler t) in
  status t = Running -> reading_ok (future t) (handler t) -> closed (stream (handler t)) = None ->
  (length u < 16)%nat \/ 16 <= total_size (take 16 u) /\ Z.of_nat (length u) < total_size (take 16 u) ->
  let t' := run_task [PollRead true; Outbound msg (Ok tt)] t in
  status t' = Running /\ inbound t' = inbound t /\ outbound t' = outbound t ++ [msg] /\
  unread (future t') (handler t') = [] /\
  (held (future t) (handler t) = [] ->
   let t'' := run_task [Outbound msg (Ok tt)] t in unread (future t'') (handler t'') = u).
Proof.
  intros u Hs Hr Hc Hpart t'.
  assert (t' = send_outbound msg (Ok tt) (poll_read true t) /\ status (poll_read true t) = Running /\
          inbound (poll_read true t) = inbound t /\ outbound (poll_read true t) = outbound t /\
          left_over (handler (poll_read true t)) = [] /\ arrived_bytes (stream (handler (poll_read true t))) = [])
    as (-> & Hs' & Hin & Hout & Hlo & Hav).
  { assert (waits_after t) as (f' & h' & Hp & Hlo & Hav) by by apply incomplete_waits.
    subst t'. unfold run_task, task_step, poll_read. cbn [fold_left]. rewrite Hs, Hp. by split_and!. }
  split; [done |]. split; [done |]. split; [by cbn; rewrite Hout |]. split.
  - unfold unread. cbn [send_outbound held future handler]. by rewrite Hlo, Hav.
  - intros Hheld. unfold run_task, task_step. cbn [fold_left]. rewrite Hs.
    subst u. unfold unread. cbn [send_outbound held future handler]. by rewrite Hheld.
Qed.

Definition is_byte (b : Z) : Prop := 0 <= b < 256.

#[export] Instance is_byte_dec b : Decision (is_byte b).
Proof. unfold is_byte. apply _. Defined.

Lemma le_value_range l : Forall is_byte l -> 0 <= le_value l < u32_modulus.
Proof.
  intros Hl. unfold le_value, u32_modulus.
  destruct l as [|a [|b [|c [|d [|]]]]]; try lia.
  repeat apply Forall_cons in Hl as [? Hl]. unfold is_byte in *. lia.
Qed.

Lemma fields_len_range header : Forall is_byte header -> 0 <= fields_len header < u32_modulus.
Proof.
  intros H. assert (Forall is_byte (take 4 (drop 12 header))) as H' by by apply Forall_take, Forall_drop.
  unfold fields_len, u32_field, le_field, be_field, be_value.
  destruct (is_little header); apply le_value_range; [done |]. by apply Forall_reverse.
Qed.

(** C37. A header can crash the task of its client: a poll that has a whole
    header panics exactly when the size of the message it announces, modulo
    2^32, is below 16 - a header field length and body length that sum to about
    4 GiB.  A read of any other header never panics.  The panic ends the task in
    place, before the part of [handle_new_client] that releases the client's
    names, match rules and queue entries. *)
Theorem oversized_header_panics (t : Task) (inbound_open : bool) :
  let u := unread (future t) (handler t) in
  status t = Running -> reading_ok (future t) (handler t) -> Forall is_byte u ->
  status (task_step t (PollRead inbound_open)) = Panicked <->
  (16 <= length u)%nat /\ message_size (take 16 u) mod u32_modulus < 16.
Proof.
  intros u Hs Hr Hbytes.
  rewrite <- total_size_mod by by apply fields_len_range, Forall_take.
  pose proof (read_message_polled _ _ Hr) as [_ Hp]. cbv zeta in Hp. fold u in Hp.
  unfold task_step, poll_read. rewrite Hs.
  destruct (read_message (future t) (handler t)) as [p h]. cbn [fst snd] in Hp.
  destruct (Nat.ltb_spec (length u) 16).
  { split; [| lia]. destruct (closed _) as [e|]; [| by destruct Hp as (f' & -> & _)].
    subst p. unfold header_end. by destruct (io_kind e). }
  destruct (Z.ltb_spec (total_size (take 16 u)) 16); [by subst p |].
  split; [| lia]. destruct (Z.of_nat (length u) <? total_size (take 16 u)).
  - destruct (closed _) as [e|]; [by subst p | by destruct Hp as (f' & -> & _)].
  - destruct Hp as (-> & _). unfold decode_frame. by destruct (from_bytes _ _), inbound_open.
Qed.

(** ** Sending *)

Definition all_bytes (l : list Sent) : list Z := concat (sent_bytes <$> l).
Definition all_fds (l : list Sent) : list Fd := concat (sent_fds <$> l).

(** C30. A message is written whole: whenever [send_message] succeeds, after
    however short a [sendmsg], the bytes on the socket are those of the message,
    in order, and its file descriptors go out once, with the first bytes.  It
    succeeds when the ancillary buffer takes the descriptors, [sendmsg] takes at
    least a byte and the rest can be written; and when the buffer has no room for
    the descriptors it fails, whatever [sendmsg] would do. *)
Theorem send_message_whole (push : nat -> list Fd -> bool) (sendmsg : list Z -> list Fd -> result IoError nat)
    (write_result : list Z -> result IoError unit) (msg : Message) :
  (forall bs fds n, sendmsg bs fds = Ok n -> (n <= length bs)%nat) ->
  let fds := body_fds msg in
  let send := send_message push sendmsg write_result (Ok tt) msg in
  (forall out, send = Ok out ->
     all_bytes out = data_bytes msg /\ all_fds out = fds /\
     exists first rest, out = first :: rest /\ sent_fds first = fds) /\
  (push FDS_MAX fds = true -> (forall bs, exists n, sendmsg bs fds = Ok (S n)) -> (forall bs, write_result bs = Ok tt) ->
     is_ok send = true) /\
  (fds <> [] -> push FDS_MAX fds = false -> send = Err (Io (mkIoError InvalidInput "too many file descriptors"))).
Proof.
  intros Hlaw. cbv zeta. unfold send_message, write_all_bytes.
  destruct (body_fds msg) as [|fd fds] eqn:Ef.
  { split_and!; [| by intros _ _ -> | done]. intros out. destruct (write_result (data_bytes msg)); [| done].
    intros [= <-]. unfold all_bytes, all_fds. cbn. rewrite app_nil_r. by split_and!; [..| eexists _, _]. }
  unfold fd_sendmsg. split_and!; [| | by intros _ ->].
  - intros out. destruct (push FDS_MAX (fd :: fds)); [| done]. cbn [negb].
    destruct (sendmsg (data_bytes msg) (fd :: fds)) as [sent|e] eqn:Es; [| done].
    destruct ((sent =? 0)%nat && _); [done |]. apply Hlaw in Es.
    destruct (Nat.eqb_spec sent (length (data_bytes msg))).
    + intros [= <-]. unfold all_bytes, all_fds. cbn. rewrite !app_nil_r. by split_and!; [..| eexists _, _].
    + destruct (write_result (drop sent (data_bytes msg))); [| done]. intros [= <-].
      unfold all_bytes, all_fds. cbn. rewrite !app_nil_r, take_drop. by split_and!; [..| eexists _, _].
  - intros -> Hs Hw. destruct (Hs (data_bytes msg)) as [n ->]. cbn [negb Nat.eqb andb].
    case_match; [done |]. by rewrite Hw.
Qed.

(** ** Accepting *)

Lemma bytes_of_app s t : bytes_of (s +:+ t) = bytes_of s ++ bytes_of t.
Proof. unfold bytes_of. induction s as [|a s IH]; [done |]. rewrite str_app_cons. cbn. by rewrite IH. Qed.

(** What [accept] hands over for a client that authenticates: a socket that is
    open, and of the bytes behind BEGIN those read with it and those to come. *)
Lemma accept_hands_over (server_guid : string) (own_uid : Z)
    (hex_decode : string -> result string string) (hex_encode : string -> string)
    (counter : Z) (cred : result IoError (option Z * Z))
    (challenge negotiate : bool) (uid : Z) (rest : string) (ins : list (result IoError string)) :
  (forall s, hex_decode (hex_encode s) = Ok s) ->
  (forall s, all_chars hex_char (hex_encode s) = true) ->
  0 <= uid < u32_modulus -> Forall good_chunk ins ->
  arrived ins = client_script challenge negotiate (encode_uid hex_encode uid) +:+ rest ->
  exists h later,
    accept server_guid own_uid hex_decode (fun _ => None) counter cred ins =
      (wrap64 (counter + 1), Some (Ok (h, later))) /\
    client h = mkClientConnection counter (mux_name counter) ∅ None uid
                 (peer_pid_gid cred).1 (peer_pid_gid cred).2 /\
    unread None h ++ bytes_of (arrived later) = bytes_of rest /\ Forall good_chunk later /\
    buf_ok h /\ socket_open (stream h) = true.
Proof.
  intros Hhex Halpha Hu Hg Hins.
  destruct (external_auth_chunks server_guid own_uid hex_decode hex_encode challenge negotiate uid rest
    ins Hhex Halpha Hu Hg Hins) as ([uid' buf] & c & Ha & Hu' & Hb & _ & Hg').
  unfold accept. cbn [next_client_id]. rewrite Ha. destruct (peer_pid_gid cred) as [p g].
  eexists _, _. split; [reflexivity |]. cbn [ar_uid ar_buffered_data fst snd] in *. subst uid'.
  split; [done |]. split_and!.
  - unfold unread, left_over. cbn [held pending_pos pending_data stream].
    rewrite drop_0, app_nil_l. cbn [arrived_bytes]. by rewrite app_nil_r, <- bytes_of_app, Hb.
  - done.
  - unfold buf_ok, initial_read_buf. cbn [read_buf]. rewrite length_replicate.
    unfold u32_modulus. lia.
  - done.
Qed.

(** ** The channel of a connection *)

Lemma task_step_client t l : client (handler (task_step t l)) = client (handler t).
Proof.
  unfold task_step. destruct (status t); try done. destruct l as [bs|e|b|msg [u|e]]; try done.
  unfold poll_read. pose proof (read_message_client (future t) (handler t)) as Hc.
  destruct (read_message _ _) as [p h]. cbn [snd] in Hc. by repeat case_match.
Qed.

Lemma run_task_client ls t : client (handler (run_task ls t)) = client (handler t).
Proof.
  revert t. induction ls as [|l ls IH]; intros t; [done |].
  etransitivity; [apply (IH (task_step t l)) | apply task_step_client].
Qed.

(** Finding: the channel of a [ClientConnection] is closed from the start.
    [accept] drops the receiver it creates, so whatever the client and its task
    do, [ClientConnection::send] fails with [Disconnected] and [is_closed]
    reports a closed channel while the client is connected. *)
Lemma accepted_channel_closed server_guid own_uid hex_decode write_error counter cred ins n h later ls :
  accept server_guid own_uid hex_decode write_error counter cred ins = (n, Some (Ok (h, later))) ->
  let self := client (handler (run_task ls (Task_new h))) in
  cc_is_closed self = true /\ cc_send self = Some (Err (Errors.Client Disconnected)).
Proof.
  intros Ha self. subst self. rewrite run_task_client. cbn [Task_new handler].
  unfold accept in Ha. destruct (next_client_id counter), (peer_pid_gid cred). injection Ha as _ Ha.
  destruct (authenticate_server _ _ _ _ _) as [[[[uid buf]|e] c]|]; try done. by injection Ha as <- _.
Qed.

(** ** Unique names *)

(** The counter after [n] clients, from its initial value 1. *)
Fixpoint counter_after (n : nat) : Z :=
  match n with O => 1 | S n' => (next_client_id (counter_after n')).2 end.

Lemma counter_after_value n : Z.of_nat n < u64_modulus - 1 -> counter_after n = Z.of_nat n + 1.
Proof.
  induction n as [|n IH]; intros Hn; [done |]. cbn [counter_after next_client_id snd].
  rewrite IH by lia. unfold wrap64. rewrite Z.mod_small; [| unfold u64_modulus in *]; lia.
Qed.

(** Unique names are unique: of the first 2^64 - 1 clients that connect, no
    two get the same [:mux.<id>] name. *)
Lemma client_names_distinct (i j : nat) :
  Z.of_nat i < u64_modulus - 1 -> Z.of_nat j < u64_modulus - 1 -> i <> j ->
  mux_name (next_client_id (counter_after i)).1 <> mux_name (next_client_id (counter_after j)).1.
Proof.
  intros Hi Hj Hij. cbn [next_client_id fst]. rewrite !counter_after_value by done. unfold mux_name.
  intros E. assert (to_dec (Z.of_nat i + 1) = to_dec (Z.of_nat j + 1)) as E' by (by simplify_eq/=).
  apply to_dec_inj in E'; unfold u64_modulus in *; lia.
Qed.
End Properties.

(** ** Examples *)

Definition ex_client : ClientConnection := mkClientConnection 7 ":mux.7" ∅ None 1000 (Some 42) 100.

Definition ex_handler (pending avail : list Z) : ClientHandler :=
  mkClientHandler ex_client (mkSocket avail None) (replicate 40 0) pending 0.

Definition ex_msg : @Message SimpleZbus := s_call ":mux.7" 3 "org.freedesktop.DBus" "Ping" s_unit.
Definition ex_bytes : list Z := s_data ex_msg.

(** A header that announces 2^32 bytes: its body length is 2^32 - 16. *)
Definition ex_oversized : list Z := [108; 1; 0; 1; 240; 255; 255; 255; 1; 0; 0; 0; 0; 0; 0; 0].

Lemma ex_handler_ok pending avail : reading_ok None (ex_handler pending avail).
Proof. split; [| done]. split; cbn; [lia | done]. Qed.

(** The first message arrives in two pieces, and the second half; a reply is
    sent between the two. *)
Definition ex_run : list (@TaskStep SimpleZbus) :=
  [PollRead true; Arrive (drop 20 ex_bytes); PollRead true; Outbound ex_msg (Ok tt); Arrive (take 9 ex_bytes);
   PollRead true].

Lemma framing_accounts_for_bytes_witness :
  exists frames rest,
    take 20 ex_bytes ++ drop 20 ex_bytes ++ take 9 ex_bytes = concat frames ++ rest /\
    Forall2 (@framed SimpleZbus 7) frames [(7, ex_msg)] /\ rest = take 9 ex_bytes.
Proof.
  destruct (@framing_accounts_for_bytes SimpleZbus (ex_handler (take 20 ex_bytes) []) ex_run)
    as (frames & rest & Hb & HF & Hr).
  - apply ex_handler_ok.
  - repeat split.
  - exists frames, rest. split; [exact Hb |]. split; [exact HF |]. exact (Hr eq_refl).
Defined.

(** The task in the middle of a frame, with a signal to deliver. *)
Definition ex_task : @Task SimpleZbus := Task_new (ex_handler [] (take 12 ex_bytes)).

Lemma cancelled_read_loses_bytes_witness :
  let t' := run_task [PollRead true; Outbound ex_msg (Ok tt)] ex_task in
  unread (future t') (handler t') = [] /\
  unread (future (run_task [Outbound ex_msg (Ok tt)] ex_task))
    (handler (run_task [Outbound ex_msg (Ok tt)] ex_task)) = take 12 ex_bytes.
Proof.
  destruct (@cancelled_read_loses_bytes SimpleZbus ex_task ex_msg) as (_ & _ & _ & Hu & Hkeep).
  - reflexivity.
  - apply ex_handler_ok.
  - reflexivity.
  - left. vm_compute. lia.
  - split; [exact Hu | exact (Hkeep eq_refl)].
Defined.

Lemma oversized_header_panics_witness :
  status (@task_step SimpleZbus (Task_new (ex_handler [] ex_oversized)) (PollRead true)) = Panicked.
Proof.
  apply (@oversized_header_panics SimpleZbus (Task_new (ex_handler [] ex_oversized)) true).
  - reflexivity.
  - apply ex_handler_ok.
  - apply (bool_decide_unpack _). vm_compute. exact I.
  - split; [vm_compute; lia | reflexivity].
Defined.

(** A message with two descriptors, of which the kernel takes five bytes first. *)
Definition ex_fd_msg : @Message SimpleZbus := s_call ":mux.7" 3 "org.example" "Pass" (s_handles [4; 5]).
Definition ex_sendmsg (bs fds : list Z) : result IoError nat := Ok (Nat.min 5 (length bs)).

(** An ancillary buffer with room for as many descriptors as it was made for, and one more. *)
Definition ex_push (max : nat) (fds : list Z) : bool := (length fds <=? S max)%nat.

Lemma send_message_whole_witness :
  exists out, @send_message SimpleZbus ex_push ex_sendmsg (fun _ => Ok tt) (Ok tt) ex_fd_msg = Ok out /\
    all_bytes out = s_data ex_fd_msg /\ all_fds out = [4; 5] /\ length out = 2%nat.
Proof.
  destruct (@send_message_whole SimpleZbus ex_push ex_sendmsg (fun _ => Ok tt) ex_fd_msg) as (H & _).
  - intros bs fds n [= <-]. apply (Nat.le_min_r 5 (length bs)).
  - eexists. split; [reflexivity |]. destruct (H _ eq_refl) as (Hb & Hf & _).
    split; [exact Hb |]. split; [exact Hf | reflexivity].
Defined.

Lemma accepted_channel_closed_witness :
  exists h later, @accept SimpleZbus "guid" 0 simple_hex_decode (fun _ => None) 7 (Ok (Some 42, 100)) ex_chunks =
      (8, Some (Ok (h, later))) /\
    cc_is_closed (client (handler (@run_task SimpleZbus [PollRead true] (Task_new h)))) = true.
Proof.
  destruct (@accept_hands_over SimpleZbus "guid" 0 simple_hex_decode simple_hex_encode 7
    (Ok (Some 42, 100)) false false 1000 "l12345" ex_chunks) as (h & later & Hh & _);
    [apply simple_hex_roundtrip | apply simple_hex_alphabet | by vm_compute
    | apply (bool_decide_unpack _); vm_compute; exact I | reflexivity |].
  exists h, later. split; [exact Hh |].
  apply (@accepted_channel_closed SimpleZbus "guid" 0 simple_hex_decode (fun _ => None) 7 (Ok (Some 42, 100))
    ex_chunks 8 h later [PollRead true] Hh).
Defined.

Lemma client_names_distinct_witness :
  mux_name (next_client_id (counter_after 2)).1 <> mux_name (next_client_id (counter_after 5)).1.
Proof. by apply (client_names_distinct 2 5). Defined.
