(* ===== verification/Stream.v ===== *)
(** * From the client's socket to the main loop (src/src/client.rs)

    The round trip of a stream of messages: what a client writes, through
    authentication, the read buffer and the framing of [read_message], is what
    its task hands to the multiplexer. *)

From S2P Require Import Prelude RustStr Zbus SimpleZbus Errors Message Auth Client ClientProofs.
From Stdlib Require Import Ascii.

#[local] Open Scope Z_scope.

Section Stream.
Context `{ZB : Zbus}.

(** The serialized form of a message is as long as its header says and decodes
    to the message. *)
Definition wire_ok (msg : Message) : Prop := framed 0 (data_bytes msg) (0, msg).

Definition wire (msgs : list Message) : list Z := concat (data_bytes <$> msgs).

(** The multiplexer receives and the socket takes what is written to it. *)
Definition cooperative (l : TaskStep) : Prop :=
  match l with PollRead false | Outbound _ (Err _) => False | _ => True end.

(** The task has handed over all of [msgs] but [ms], whose bytes it has still to
    read or, the last ones [more], to receive. *)
Definition transferring (id : Z) (msgs ms : list Message) (more : list Z) (t : Task) : Prop :=
  exists done, msgs = done ++ ms /\ inbound t = pair id <$> done /\ cc_id (client (handler t)) = id /\
  match status t with
  | Running =>
      task_ok t /\ unread (future t) (handler t) ++ more = wire ms /\
      (socket_open (stream (handler t)) = false -> more = [])
  | Exited => ms = []
  | Panicked => False
  end.

(** ** One poll *)

(** The first frame of what has arrived of a stream of messages. *)
Lemma first_frame u more m ms :
  wire_ok m -> u ++ more = wire (m :: ms) -> (16 <= length u)%nat ->
  total_size (take 16 u) = Z.of_nat (length (data_bytes m)) /\ 16 <= total_size (take 16 u).
Proof.
  intros (_ & Hl & H16 & _) Hu Hlen. cbn [fst snd] in *.
  assert (take 16 u = take 16 (data_bytes m)) as ->; [| lia].
  transitivity (take 16 (u ++ more)); [by rewrite take_app_le |]. rewrite Hu. cbn.
  rewrite take_app_le by lia. done.
Qed.

Lemma frame_taken u more m ms :
  u ++ more = wire (m :: ms) -> (length (data_bytes m) <= length u)%nat ->
  take (length (data_bytes m)) u = data_bytes m /\ drop (length (data_bytes m)) u ++ more = wire ms.
Proof.
  intros Hu Hlen. cbn in Hu. split.
  - rewrite <- (take_app_le u more) by done. rewrite Hu. by rewrite take_app_length.
  - rewrite <- drop_app_le by done. rewrite Hu. by rewrite drop_app_length.
Qed.

Lemma decode_sent m : wire_ok m -> decode_frame (data_bytes m) = Ok (Some m).
Proof. intros (_ & _ & _ & Hd). unfold decode_frame. cbn [snd] in Hd. by rewrite Hd. Qed.

Lemma wire_length m ms : wire_ok m -> (16 <= length (wire (m :: ms)))%nat.
Proof. intros (_ & Hl & H16 & _). unfold wire. cbn. rewrite length_app. lia. Qed.

(** What a poll finds in such a stream: it waits, or takes one message, or meets
    the end of a stream that has been read completely. *)
Lemma poll_stream t more ms :
  task_ok t -> status t = Running -> Forall wire_ok ms ->
  unread (future t) (handler t) ++ more = wire ms ->
  (socket_open (stream (handler t)) = false -> more = []) ->
  let '(p, h) := read_message (future t) (handler t) in
  client h = client (handler t) /\ closed (stream h) = closed (stream (handler t)) /\
  ((exists f, p = Pending f /\ reading_ok (Some f) h /\ unread (Some f) h = unread (future t) (handler t) /\
      (more = [] -> ms = [])) \/
   (exists r, p = Ready r /\ (forall m, r <> Ok (Some m)) /\ ms = [] /\ socket_open (stream (handler t)) = false) \/
   (exists m ms', ms = m :: ms' /\ p = Ready (Ok (Some m)) /\ reading_ok None h /\ unread None h ++ more = wire ms')).
Proof.
  intros Hok Hs Hwire Hu Hend. pose proof (poll_read_running t Hok Hs) as [Hc Hp].
  pose proof (read_message_client (future t) (handler t)) as Hcl.
  destruct (read_message (future t) (handler t)) as [p h]. cbn [fst snd] in *.
  split; [done |]. split; [done |]. set (u := unread _ _) in *. cbv zeta in Hp. unfold socket_open in *.
  destruct ms as [|m ms].
  { apply app_nil in Hu as [Hu _]. rewrite Hu in Hp. cbn [length Nat.ltb Nat.leb] in Hp. destruct (closed (stream (handler t))) as [e|].
    - right; left. exists (header_end e). split_and!; [done | | done | done]. intros m. unfold header_end. by case_match.
    - left. destruct Hp as (f & ? & ? & Hf & _). exists f. by rewrite Hu, Hf. }
  apply Forall_cons in Hwire as [Hm Hwire].
  assert (length u + length more = length (wire (m :: ms)))%nat as Hlen by (by rewrite <- Hu, length_app).
  pose proof (wire_length m ms Hm) as H16.
  destruct (Nat.ltb_spec (length u) 16) as [Hlt|Hge].
  { destruct (closed (stream (handler t))) as [e|]; [rewrite (Hend eq_refl) in Hlen; simpl in Hlen; lia |].
    left. destruct Hp as (f & ? & ? & ? & _). exists f. split_and!; try done. intros ->. simpl in Hlen. lia. }
  destruct (first_frame u more m ms Hm Hu Hge) as [Htot Hmin].
  rewrite (proj2 (Z.ltb_ge _ 16)) in Hp by done. rewrite Htot in Hp.
  destruct (Z.ltb_spec (Z.of_nat (length u)) (Z.of_nat (length (data_bytes m)))) as [Hlt|Hge'].
  { assert (more <> []) as Hmore.
    { intros ->. unfold wire in Hlen. cbn in Hlen. rewrite length_app in Hlen. lia. }
    destruct (closed (stream (handler t))) as [e|]; [by destruct Hmore; apply Hend |].
    left. destruct Hp as (f & ? & ? & ? & _). by exists f. }
  right; right. exists m, ms. rewrite Nat2Z.id in Hp. destruct Hp as (-> & Hun & Hr).
  destruct (frame_taken u more m ms Hu) as [Ht Hd]; [lia |]. rewrite Ht, (decode_sent m Hm), Hun. done.
Qed.

Lemma transferring_poll id msgs ms more t :
  Forall wire_ok ms -> transferring id msgs ms more t ->
  exists ms', transferring id msgs ms' more (task_step t (PollRead true)) /\ Forall wire_ok ms' /\
    (length ms' <= length ms)%nat /\ (more = [] -> length ms' = pred (length ms)).
Proof.
  intros Hw Ht. pose proof Ht as (sent & Hm & Hin & Hid & Hst). unfold task_step.
  destruct (status t) eqn:Hs; [| subst ms | done].
  2: { exists []. split; [done | by split_and!]. }
  destruct Hst as (Hok & Hu & Hend). pose proof (poll_stream t more ms Hok Hs Hw Hu Hend) as Hp.
  unfold poll_read. destruct (read_message _ _) as [p h]. destruct Hp as (Hcl & Hclosed & Hcase).
  assert (socket_open (stream h) = false -> more = []) as Hend' by (unfold socket_open in *; by rewrite Hclosed).
  destruct Hcase as [(f & -> & Hr & Hf & Hnil)|[(r & -> & Hno & -> & _)|(m & ms' & -> & -> & Hr & Hw')]].
  - exists ms. split; [| split_and!; [done | done | intros Hmore; by rewrite (Hnil Hmore)]].
    exists sent. cbn [inbound handler status future]. rewrite Hcl, Hf. split_and!; try done. by intros _.
  - exists []. split; [| by split_and!]. exists sent.
    destruct r as [[m|]|e]; [by destruct (Hno m) | |]; cbn; by rewrite Hcl.
  - apply Forall_cons in Hw as [_ Hw]. exists ms'. split; [| split_and!; [done | simpl; lia | done]].
    exists (sent ++ [m]). rewrite <- app_assoc, fmap_app. cbn [inbound handler status future]. rewrite Hcl, Hin, Hid. split_and!; try done.
    by intros _.
Qed.

(** ** A run *)

(** Where the task does not run any more, nothing is left to come. *)
Lemma transferring_stopped id msgs ms more more' t :
  status t <> Running -> transferring id msgs ms more t -> transferring id msgs ms more' t.
Proof. intros Hs (sent & ? & ? & ? & Hst). exists sent. by destruct (status t). Qed.

Lemma poll_keeps_socket b t :
  task_ok t -> status t = Running ->
  socket_open (stream (handler (poll_read b t))) = socket_open (stream (handler t)).
Proof.
  intros Hok Hs. destruct (poll_read_running t Hok Hs) as [Hc _]. unfold poll_read.
  destruct (read_message _ _) as [p h]. cbn [snd] in Hc. by repeat case_match; cbn [handler]; unfold socket_open; rewrite Hc.
Qed.

Lemma arrivals_closed ls : arrivals false ls = [].
Proof. induction ls as [|[] ls IH]; done. Qed.

(** Bytes or the end of the stream reach the socket. *)
Lemma transferring_socket id msgs ms more more' f t :
  status t = Running -> transferring id msgs ms more t ->
  unread (future t) (with_stream (f (stream (handler t))) (handler t)) ++ more' =
    unread (future t) (handler t) ++ more ->
  (socket_open (f (stream (handler t))) = false -> socket_open (stream (handler t)) = true -> more' = []) ->
  (more = [] -> more' = []) ->
  transferring id msgs ms more' (on_socket f t).
Proof.
  intros Hs (sent & Hm & Hin & Hid & Hst) Hu Hend Hmore. rewrite Hs in Hst. destruct Hst as (Hok & Hw & He).
  exists sent. cbn [on_socket inbound handler client with_stream status stream future]. rewrite Hs.
  split_and!; try done; [by rewrite Hu |].
  intros Ho. destruct (socket_open (stream (handler t))) eqn:Eo; [by apply Hend | by apply Hmore, He].
Qed.

Lemma transferring_arrive id msgs ms bs more t :
  status t = Running ->
  transferring id msgs ms ((if socket_open (stream (handler t)) then bs else []) ++ more) t ->
  transferring id msgs ms more (on_socket (arrive bs) t).
Proof.
  intros Hs Ht. apply (transferring_socket _ _ _ _ _ _ _ Hs Ht).
  - unfold arrive, socket_open. destruct (stream (handler t)) as [av [e|]] eqn:Est; cbn [closed].
    + unfold unread, left_over, held. cbn. by rewrite Est.
    + pose proof (unread_arrive (future t) (handler t) bs None) as Hua. rewrite Est in Hua. cbn [arrived_bytes] in *.
      by rewrite Hua, <- app_assoc.
  - unfold arrive, socket_open. by destruct (closed (stream (handler t))) eqn:Ec; cbn [closed].
  - by intros [_ ?]%app_nil.
Qed.

Lemma transferring_step id msgs ms l ls t :
  cooperative l -> match l with Outbound _ _ => held (future t) (handler t) = [] | _ => True end ->
  Forall wire_ok ms ->
  transferring id msgs ms (arrivals (socket_open (stream (handler t))) (l :: ls)) t ->
  let t' := task_step t l in
  exists ms', Forall wire_ok ms' /\ (length ms' <= length ms)%nat /\
    transferring id msgs ms' (arrivals (socket_open (stream (handler t'))) ls) t'.
Proof.
  intros Hco Hl Hw Ht. cbv zeta. destruct (decide (status t = Running)) as [Hs|Hs].
  2: { exists ms. split; [done |]. split; [done |]. pose proof (transferring_stopped _ _ _ _ [] t Hs Ht) as Hstop.
       unfold task_step. destruct (status t) eqn:Hs'; [done | |]; apply (transferring_stopped _ _ _ []); congruence. }
  unfold task_step. rewrite Hs. destruct l as [bs|e|b|msg r]; cbn [arrivals] in Ht.
  - exists ms. split; [done |]. split; [done |].
    replace (socket_open (stream (handler (on_socket (arrive bs) t)))) with (socket_open (stream (handler t)))
      by (unfold arrive, socket_open; cbn; by destruct (stream (handler t)) as [av [e|]]).
    by apply transferring_arrive.
  - exists ms. split; [done |]. split; [done |]. rewrite arrivals_closed in Ht.
    replace (socket_open (stream (handler (on_socket (close_socket e) t)))) with false
      by (unfold socket_open; cbn; by destruct (closed (stream (handler t)))).
    rewrite arrivals_closed. apply (transferring_socket _ _ _ [] _ _ _ Hs Ht); [| done ..].
    unfold unread. by destruct (future t) as [[]|].
  - destruct b; [| done]. pose proof Ht as (_ & _ & _ & _ & Hst). rewrite Hs in Hst. destruct Hst as (Hok & _).
    apply transferring_poll in Ht as (ms' & Ht & Hw' & Hle & _); [| done]. exists ms'. split; [done |]. split; [done |].
    unfold task_step in Ht. rewrite Hs in Ht. by rewrite poll_keeps_socket.
  - exists ms. split; [done |]. split; [done |]. destruct r as [x|e]; [| done].
    destruct Ht as (sent & Hm & Hin & Hid & Hst). rewrite Hs in Hst. destruct Hst as (Hok & Hu & Hend).
    exists sent. cbn [send_outbound inbound handler client status future].
    split_and!; try done; [intros _; split; [apply Hok, Hs | done] |].
    rewrite <- Hu. unfold unread. by rewrite Hl.
Qed.

Lemma transferring_run id msgs ms ls t :
  Forall cooperative ls -> undisturbed ls t -> Forall wire_ok ms ->
  transferring id msgs ms (arrivals (socket_open (stream (handler t))) ls) t ->
  exists ms', Forall wire_ok ms' /\ (length ms' <= length ms)%nat /\ transferring id msgs ms' [] (run_task ls t).
Proof.
  revert ms t. induction ls as [|l ls IH]; intros ms t Hco Hund Hw Ht; [by exists ms |].
  apply Forall_cons in Hco as [Hl Hco]. destruct Hund as [Hd Hund].
  destruct (transferring_step _ _ _ _ _ _ Hl Hd Hw Ht) as (ms' & Hw' & Hle & Ht').
  destruct (IH ms' (task_step t l) Hco Hund Hw' Ht') as (ms'' & Hw'' & Hle' & Ht''). exists ms''. split_and!; [done | lia | done].
Qed.

(** Once all bytes are there, each poll hands over one message. *)
Lemma transferring_polls id msgs ms n t :
  Forall wire_ok ms -> transferring id msgs ms [] t -> (length ms <= n)%nat ->
  transferring id msgs [] [] (run_task (replicate n (PollRead true)) t).
Proof.
  revert ms t. induction n as [|n IH]; intros ms t Hw Ht Hn.
  - by destruct ms; [| simpl in Hn; lia].
  - destruct (transferring_poll _ _ _ _ _ Hw Ht) as (ms' & Ht' & Hw' & _ & Hl). apply (IH ms'); [done | done |].
    rewrite Hl by done. lia.
Qed.

Lemma stream_delivered h ls msgs n :
  buf_ok h -> Forall cooperative ls -> undisturbed ls (Task_new h) -> Forall wire_ok msgs ->
  unread None h ++ arrivals (socket_open (stream h)) ls = wire msgs -> (length msgs <= n)%nat ->
  let t := run_task (ls ++ replicate n (PollRead true)) (Task_new h) in
  inbound t = pair (cc_id (client h)) <$> msgs /\ status t <> Panicked.
Proof.
  intros Hb Hco Hund Hw Hu Hn t. subst t. unfold run_task. rewrite fold_left_app.
  destruct (transferring_run (cc_id (client h)) msgs msgs ls (Task_new h) Hco Hund Hw) as (ms & Hw' & _ & Ht).
  { exists []. cbn [Task_new status handler future inbound client]. split_and!; try done.
    intros Ho. rewrite Ho. apply arrivals_closed. }
  assert (length ms <= n)%nat as Hms.
  { destruct Ht as (sent & -> & _). rewrite length_app in Hn. lia. }
  destruct (transferring_polls _ _ _ n _ Hw' Ht Hms) as (sent & Hs & Hin & _ & Hst).
  rewrite app_nil_r in Hs. subst sent. split; [done |]. unfold run_task in Hst. intros E. by rewrite E in Hst.
Qed.

(** *** A client that waits *)

(** Bytes that arrive, and polls of the read. *)
Definition reading (l : TaskStep) : Prop :=
  match l with Arrive _ | PollRead true => True | _ => False end.

Lemma reading_cooperative ls : Forall reading ls -> Forall cooperative ls.
Proof. intros Hls. eapply Forall_impl; [exact Hls |]. by intros [| |[]|]. Qed.

Lemma reading_undisturbed ls t : Forall reading ls -> undisturbed ls t.
Proof.
  intros Hls. revert t. induction Hls as [|l ls Hl _ IH]; intros t; [done |]. split; [by destruct l | apply IH].
Qed.

(** While its socket is open the task goes on. *)
Lemma reading_runs id msgs ms more l t :
  reading l -> Forall wire_ok ms -> transferring id msgs ms more t -> status t = Running ->
  socket_open (stream (handler t)) = true ->
  let t' := task_step t l in
  status t' = Running /\ socket_open (stream (handler t')) = true /\ outbound t' = outbound t.
Proof.
  intros Hl Hw (sent & _ & _ & _ & Hst) Hs Ho. cbv zeta. unfold task_step. rewrite Hs in *. destruct Hst as (Hok & Hu & Hend).
  destruct l as [bs|e|[]|m r]; try done.
  - cbn. unfold arrive, socket_open in *. by destruct (closed (stream (handler t))) eqn:Hc; cbn; rewrite ?Hc.
  - pose proof (poll_stream t more ms Hok Hs Hw Hu Hend) as Hp. rewrite poll_keeps_socket by done.
    unfold poll_read. destruct (read_message _ _) as [p h]. destruct Hp as (_ & _ & Hcase).
    destruct Hcase as [(f & -> & _)|[(r & _ & _ & _ & Hc)|(m & ms' & _ & -> & _)]]; [done | congruence | done].
Qed.

(** The task runs, has handed over [done], and has nothing left to read. *)
Definition waiting (id : Z) (done : list Message) (t : Task) : Prop :=
  status t = Running /\ socket_open (stream (handler t)) = true /\ transferring id done [] [] t.

Lemma waiting_inbound id done t : waiting id done t -> inbound t = pair id <$> done.
Proof. intros (_ & _ & sent & Hs & Hin & _). by rewrite app_nil_r in Hs; subst. Qed.

Lemma reading_run id msgs ms ls t :
  Forall reading ls -> Forall wire_ok ms -> status t = Running -> socket_open (stream (handler t)) = true ->
  transferring id msgs ms (arrivals true ls) t ->
  let t' := run_task ls t in
  status t' = Running /\ socket_open (stream (handler t')) = true /\ outbound t' = outbound t.
Proof.
  intros Hls. revert ms t. induction Hls as [|l ls Hl Hls IH]; intros ms t Hw Hs Ho Ht; [done |].
  assert (Hco : cooperative l) by (by destruct l as [| |[]|]).
  destruct (reading_runs _ _ _ _ _ _ Hl Hw Ht Hs Ho) as (Hs1 & Ho1 & Hout).
  destruct (transferring_step id msgs ms l ls t Hco) as (ms' & Hw' & _ & Ht'); [by destruct l | done | by rewrite Ho |].
  rewrite Ho1 in Ht'. destruct (IH ms' (task_step t l) Hw' Hs1 Ho1 Ht') as (Hs2 & Ho2 & Hout2).
  split_and!; [done | done |]. by rewrite <- Hout.
Qed.

(** The bytes of one message arrive, in pieces, and are polled for. *)
Lemma waiting_message id done m ls t :
  waiting id done t -> wire_ok m -> Forall reading ls -> arrivals true ls = data_bytes m ->
  let t' := run_task (ls ++ [PollRead true]) t in
  waiting id (done ++ [m]) t' /\ outbound t' = outbound t.
Proof.
  intros (Hs & Ho & sent & Hm & Hin & Hid & Hst) Hw Hls Harr. rewrite app_nil_r in Hm. subst sent.
  rewrite Hs in Hst. destruct Hst as (Hok & Hu & _). rewrite app_nil_r in Hu.
  assert (Forall wire_ok [m]) as Hw1 by (by constructor).
  assert (forall ls', arrivals true ls' = data_bytes m -> transferring id (done ++ [m]) [m] (arrivals true ls') t) as Ht.
  { intros ls' ->. exists done. rewrite Hs. split_and!; try done; [| by rewrite Ho]. rewrite Hu. cbn. by rewrite app_nil_r. }
  assert (Forall reading (ls ++ [PollRead true])) as Hall by (apply Forall_app; split; [done | by repeat constructor]).
  assert (arrivals true (ls ++ [PollRead true]) = data_bytes m) as Harr'.
  { rewrite <- Harr. clear - Hls. induction Hls as [|[| |[]|] ls Hl _ IH]; try done. cbn. by rewrite IH. }
  destruct (reading_run id (done ++ [m]) [m] _ t Hall Hw1 Hs Ho (Ht _ Harr')) as (Hs1 & Ho1 & Hout).
  split; [| done]. split_and!; [done | done |].
  destruct (transferring_run id (done ++ [m]) [m] ls t) as (ms & Hw' & Hle & Htr);
    [by apply reading_cooperative | by apply reading_undisturbed | done | rewrite Ho; by apply Ht |].
  unfold run_task. rewrite fold_left_app. by apply (transferring_polls id _ ms 1).
Qed.

(** A message is written to the client. *)
Lemma waiting_outbound id done m t :
  waiting id done t ->
  let t' := task_step t (Outbound m (Ok tt)) in
  waiting id done t' /\ outbound t' = outbound t ++ [m].
Proof.
  intros (Hs & Ho & Ht). cbv zeta. pose proof Ht as (_ & _ & _ & _ & Hst). rewrite Hs in Hst. destruct Hst as (_ & Hu & _).
  assert (held (future t) (handler t) = []) as Hh.
  { unfold unread in Hu. rewrite app_nil_r in Hu. cbn in Hu. by apply app_nil in Hu as [? _]. }
  destruct (transferring_step id done [] (Outbound m (Ok tt)) [] t) as (ms' & _ & Hle & Ht');
    [done | done | constructor | by cbn [arrivals] |].
  destruct ms'; [| simpl in Hle; lia]. cbn [arrivals] in Ht'. revert Ht'. unfold waiting, task_step. rewrite Hs. by intros Ht'.
Qed.

(** The messages a client writes are the messages the multiplexer gets: if
    the bytes of a sequence of messages reach the socket, cut anywhere and with
    the read polled at any time, and messages for the client are written only
    between frames, then after at most one more poll per message the task has
    handed over exactly these messages, in order, under the client's id. *)
Lemma stream_roundtrip h ls msgs :
  buf_ok h -> Forall cooperative ls -> undisturbed ls (Task_new h) -> Forall wire_ok msgs ->
  unread None h ++ arrivals (socket_open (stream h)) ls = wire msgs ->
  let t := run_task (ls ++ replicate (length msgs) (PollRead true)) (Task_new h) in
  inbound t = pair (cc_id (client h)) <$> msgs /\ status t <> Panicked.
Proof. intros. by apply stream_delivered. Qed.

(** C14. From the first byte to the main loop: a client that authenticates and
    then writes a sequence of messages, all of it cut into arbitrary pieces, is
    accepted under the next client id with the UID it claimed.  The bytes that
    authentication has not read reach the socket of the client's task later, in
    any pieces, between its polls and the messages written to the client; if no
    message is written to the client while the task holds part of a frame
    ([undisturbed]; otherwise bytes are lost, [cancelled_read_loses_bytes]), the
    inbound channel is open and writes succeed, then after at most one more poll
    per message the task has handed over exactly these messages, in order. *)
Theorem connection_roundtrip (server_guid : string) (own_uid : Z)
    (hex_decode : string -> result string string) (hex_encode : string -> string)
    (counter : Z) (cred : result IoError (option Z * Z))
    (challenge negotiate : bool) (uid : Z) (rest : string) (ins : list (result IoError string)) msgs :
  (forall s, hex_decode (hex_encode s) = Ok s) ->
  (forall s, all_chars hex_char (hex_encode s) = true) ->
  0 <= uid < u32_modulus -> Forall good_chunk ins ->
  arrived ins = client_script challenge negotiate (encode_uid hex_encode uid) +:+ rest ->
  Forall wire_ok msgs -> bytes_of rest = wire msgs ->
  exists h later,
    accept server_guid own_uid hex_decode (fun _ => None) counter cred ins =
      (wrap64 (counter + 1), Some (Ok (h, later))) /\
    cc_id (client h) = counter /\ cc_uid (client h) = uid /\
    forall ls, arrivals true ls = bytes_of (arrived later) -> Forall cooperative ls -> undisturbed ls (Task_new h) ->
      let t := run_task (ls ++ replicate (length msgs) (PollRead true)) (Task_new h) in
      inbound t = pair counter <$> msgs /\ status t <> Panicked.
Proof.
  intros Hhex Halpha Hu Hg Hins Hw Hb.
  destruct (accept_hands_over server_guid own_uid hex_decode hex_encode counter cred challenge negotiate uid rest
    ins Hhex Halpha Hu Hg Hins) as (h & later & Ha & Hcl & Hun & _ & Hbuf & Hc).
  exists h, later. split; [done |]. rewrite Hcl. split; [done |]. split; [done |]. intros ls Harr Hco Hund.
  pose proof (stream_delivered h ls msgs (length msgs) Hbuf Hco Hund Hw) as Hs. rewrite Hcl in Hs. apply Hs; [| done].
  by rewrite Hc, Harr, Hun.
Qed.
End Stream.

(** ** Witnesses *)

Lemma stream_roundtrip_witness :
  inbound (run_task ((ex_run ++ [Arrive (drop 9 ex_bytes)]) ++ replicate 2 (PollRead true))
    (Task_new (ex_handler (take 20 ex_bytes) []))) = [(7, ex_msg); (7, ex_msg)].
Proof.
  apply (@stream_roundtrip SimpleZbus (ex_handler (take 20 ex_bytes) []) (ex_run ++ [Arrive (drop 9 ex_bytes)])
           [ex_msg; ex_msg]).
  - apply ex_handler_ok.
  - by repeat constructor.
  - by repeat constructor.
  - assert (@wire_ok SimpleZbus ex_msg) by (split_and!; [reflexivity .. | done | vm_compute; reflexivity]).
    by repeat constructor.
  - vm_compute. reflexivity.
Defined.

(** A zbus whose messages are their bytes, to send real byte strings through
    authentication; it stands for no code of the repository. *)
Definition RawZbus : Zbus := {|
  Message := list Z;
  Builder := unit;
  ZError := string;
  Fd := Z;
  Signature := unit;
  zerror_text := id;
  method_error_name := fun _ => None;
  msg_fields := fun _ => mkFields MethodCall None None None None None None;
  serial_num := wire_serial;
  data_bytes := id;
  from_bytes := fun _ bs => Ok bs;
  deserialize := fun _ _ => Err "no body";
  body_bytes := drop 16;
  signature := fun _ => tt;
  body_fds := fun _ => [];
  try_to_owned := Ok;
  new_method_return := fun _ => Err "no builder";
  new_error := fun _ _ => Err "no builder";
  builder_from := fun _ => tt;
  b_destination := fun _ => Ok;
  b_path := fun _ => Ok;
  b_reply_serial := fun _ => id;
  b_serial := fun _ => id;
  b_build := fun _ _ => Err "no builder";
  b_build_raw := fun _ _ _ _ => Err "no builder";
  builder_fields := fun _ => mkFields MethodCall None None None None None None;
  bus_name_try_from := Ok;
  error_name_try_from := Ok;
  object_path_try_from := Ok;
|}.

(** Two calls with bodies of two bytes and none. *)
Definition ex_frame1 : list Z := [108; 1; 0; 1; 2; 0; 0; 0; 5; 0; 0; 0; 0; 0; 0; 0; 104; 105].
Definition ex_frame2 : list Z := [108; 1; 0; 1; 0; 0; 0; 0; 6; 0; 0; 0; 0; 0; 0; 0].

Definition text_of (bs : list Z) : string := foldr (fun b s => String (ascii_of_nat (Z.to_nat b)) s) "" bs.

(** BEGIN arrives with the first bytes of the first message. *)
Definition ex_connection : list (result IoError string) :=
  [Ok (String NUL "AUTH EXT"); Ok ("ERNAL " +:+ simple_hex_encode "1000" +:+ CRLF +:+ "BEG");
   Ok ("IN" +:+ CRLF +:+ text_of (take 9 ex_frame1)); Ok (text_of (drop 9 ex_frame1)); Ok (text_of ex_frame2)].

(** The rest of the messages arrives, the last one after an answer was written. *)
Definition ex_later : list (@TaskStep RawZbus) :=
  [PollRead true; Arrive (drop 9 ex_frame1); PollRead true; Outbound (ZB := RawZbus) ex_frame2 (Ok tt);
   Arrive (take 5 ex_frame2); PollRead true; Arrive (drop 5 ex_frame2)].

Lemma connection_roundtrip_witness :
  exists h later,
    @accept RawZbus "guid" 0 simple_hex_decode (fun _ => None) 7 (Ok (Some 42, 100)) ex_connection =
      (8, Some (Ok (h, later))) /\
    inbound (@run_task RawZbus (ex_later ++ [PollRead true; PollRead true]) (Task_new h)) = [(7, ex_frame1); (7, ex_frame2)].
Proof.
  destruct (@connection_roundtrip RawZbus "guid" 0 simple_hex_decode simple_hex_encode 7
    (Ok (Some 42, 100)) false false 1000 (text_of (ex_frame1 ++ ex_frame2)) ex_connection [ex_frame1; ex_frame2])
    as (h & later & Ha & _ & _ & Hin).
  - apply simple_hex_roundtrip.
  - apply simple_hex_alphabet.
  - by vm_compute.
  - apply (bool_decide_unpack _). vm_compute. exact I.
  - reflexivity.
  - repeat constructor; done.
  - reflexivity.
  - exists h, later. split; [exact Ha |]. vm_compute in Ha. injection Ha as <- <-.
    apply (Hin ex_later); [vm_compute; reflexivity | by repeat constructor | by repeat constructor].
Defined.
