(* ===== verification/MuxInv.v ===== *)
(** * The well-formed states of the multiplexer

    What holds of src/src/multiplexer.rs's state between any two inputs: the
    names of clients, the queues of names, the match rules and their reference
    counts, the serial generators and the pending calls.  Each part is kept by
    every handler (with the calculus of [Frames]), so a run from the start never
    leaves these states. *)

From S2P Require Import Prelude RustStr Zbus SimpleZbus Errors Message Routing NameQueue SerialMap MatchRules MatchRuleProofs Portal World SimpleEnv Router Multiplexer Frames MuxCalls MuxRules Client.

#[local] Open Scope Z_scope.

(** ** The parts *)

(** Ids are 64 bits wide, and a client's unique name tells its id. *)
Definition clients_named (s : Multiplexer) : Prop :=
  forall c info, clients s !! c = Some info ->
    0 <= c < u64_modulus /\ unique_name info = mux_name c.

(** Queues are well formed, and who stands in one is connected under the name
    noted there, unless it is the client [leaving]. *)
Definition names_ok (leaving : option Z) (s : Multiplexer) : Prop :=
  clients_named s /\ manager_ok (name_queue s) /\
  forall n e, e ∈ owners (name_queue s) n ->
    leaving = Some (qe_client_id e) \/
    exists info, clients s !! qe_client_id e = Some info /\ unique_name info = qe_unique_name e.

Definition rules_ok (s : Multiplexer) : Prop :=
  counts_ok (match_rule_refcount s) /\
  forall c info, clients s !! c = Some info -> NoDup (rule_strings (match_rules info)).

(** Serials are 32 bits wide; those of calls in flight are not zero. *)
Definition serials_ok (s : Multiplexer) : Prop :=
  (forall route, 0 <= counter (serial_gen (conn route s)) < u32_modulus) /\
  (forall k p, pending (serials_pending s) !! k = Some p ->
     1 <= sk_serial k < u32_modulus /\ 1 <= pc_client_serial p < u32_modulus) /\
  sm_timeout (serials_pending s) = from_secs 30.

Record wf_mux (s : Multiplexer) : Prop := mkWfMux {
  wf_names : names_ok None s;
  wf_rules : rules_ok s;
  wf_serials : serials_ok s;
}.

Section Invariant.
Context {ZB : Zbus} {ZL : ZbusLaws} {E : Env} {EL : EnvLaws}.

(** A client is accepted under the name that goes with its id. *)
Definition input_ok (i : Input) : Prop :=
  match i with
  | InAccept (Ok h) =>
      0 <= ac_client_id h < u64_modulus /\ ac_unique_name h = mux_name (ac_client_id h)
  | _ => True
  end.

(** ** Names *)

(** Only the names of clients and the queues matter. *)
Lemma names_ok_ext leaving s s' :
  (forall c, unique_name <$> clients s' !! c = unique_name <$> clients s !! c) ->
  name_queue s' = name_queue s -> names_ok leaving s -> names_ok leaving s'.
Proof.
  intros Hc Hq (Hn & Hm & He). unfold names_ok, clients_named. rewrite Hq.
  assert (forall c i', clients s' !! c = Some i' ->
            exists i, clients s !! c = Some i /\ unique_name i = unique_name i') as Hfw.
  { intros c i' Hi. specialize (Hc c). rewrite Hi in Hc. simpl in Hc.
    destruct (clients s !! c) as [i|]; [| done]. exists i. split; [done | by injection Hc]. }
  split_and!; [| done |].
  - intros c i' (i & Hi & <-)%Hfw. by apply Hn.
  - intros n e [Hl|(i & Hi & Hu)]%He; [by left | right].
    specialize (Hc (qe_client_id e)). rewrite Hi in Hc. simpl in Hc.
    destruct (clients s' !! qe_client_id e) as [i'|]; [| done]. exists i'. split; [done | injection Hc as ->; done].
Qed.

#[local] Ltac names_frame := intros x s; by apply names_ok_ext.

#[export] Instance names_ok_table l : Tolerates with_table (names_ok l).
Proof. names_frame. Qed.
#[export] Instance names_ok_serial_map l : Tolerates with_serial_map (names_ok l).
Proof. names_frame. Qed.
#[export] Instance names_ok_conn l route : Tolerates (with_conn route) (names_ok l).
Proof. names_frame. Qed.
#[export] Instance names_ok_refcount l : Tolerates with_refcount (names_ok l).
Proof. names_frame. Qed.
#[export] Instance names_ok_portal l : Tolerates with_portal (names_ok l).
Proof. names_frame. Qed.

Lemma names_ok_client l f :
  (forall i, unique_name (f i) = unique_name i) -> ToleratesClient f (names_ok l).
Proof.
  intros Hf c s. apply names_ok_ext; [| done]. intros c'. cbn [clients with_clients].
  destruct (decide (c' = c)) as [->|Hc]; [rewrite lookup_alter_eq | by rewrite lookup_alter_ne].
  destruct (clients s !! c) as [i|]; simpl; [by rewrite Hf | done].
Qed.

#[export] Instance names_ok_add_owned l name : ToleratesClient (add_owned name) (names_ok l).
Proof. by apply names_ok_client. Qed.
#[export] Instance names_ok_drop_owned l name : ToleratesClient (drop_owned name) (names_ok l).
Proof. by apply names_ok_client. Qed.
#[export] Instance names_ok_match_rules l (f : ClientMatchRules -> ClientMatchRules) :
  ToleratesClient (fun i => with_match_rules (f (match_rules i)) i) (names_ok l).
Proof. by apply names_ok_client. Qed.

(** Who stands in a queue after an operation stood there before, or asked. *)
Lemma names_ok_queue l l' q s :
  names_ok l s -> manager_ok q ->
  (forall n e, e ∈ owners q n -> e ∈ owners (name_queue s) n /\ (l = Some (qe_client_id e) -> l' = l) \/
     exists info, clients s !! qe_client_id e = Some info /\ unique_name info = qe_unique_name e) ->
  names_ok l' (with_name_queue q s).
Proof.
  intros (Hn & Hm & He) Hq Hsub. split_and!; [done | done |]. cbn [name_queue with_name_queue clients].
  intros n e [[Hin Hl]|Hc]%Hsub; [| by right]. destruct (He n e Hin) as [He'|?]; [| by right].
  left. by rewrite Hl.
Qed.

Lemma request_entries e r d l x : x ∈ (Spec.request e r d l).1 -> x = e \/ x ∈ l.
Proof.
  unfold Spec.request. destruct l as [|o ws]; [intros ?%list_elem_of_singleton; by left |].
  repeat case_match; cbn [fst]; auto.
  - intros [->|?]%elem_of_cons; auto.
  - intros [?|?%list_elem_of_singleton]%elem_of_app; auto.
Qed.

Lemma release_entries c l x : x ∈ Spec.leave c l -> x ∈ l.
Proof. unfold Spec.leave. rewrite list_elem_of_filter. tauto. Qed.

Lemma names_ok_release l n c :
  preserves (names_ok l) (update name_queue with_name_queue (release_name n c)).
Proof.
  apply preserves_queue_release; [by intros s (_ & ? & _) |]. intros s q Hw Hok Ho.
  apply (names_ok_queue l); [done | done |]. intros n' e. rewrite Ho.
  case_decide; [subst; intros ?%release_entries | intros ?]; left; split; congruence || done.
Qed.

Lemma names_ok_request n c f w info :
  clients (mux w) !! c = Some info -> names_ok None (mux w) ->
  names_ok None (mux (update name_queue with_name_queue (request_name n c (unique_name info) f) w).2).
Proof.
  intros Hc Hw. unfold update. pose proof Hw as (_ & Hm & _).
  destruct (request_name_spec (name_queue (mux w)) n c (unique_name info) f Hm) as (Hok & _ & Ho).
  destruct (request_name n c _ f _) as [q r]. cbn [fst snd mux] in *.
  apply (names_ok_queue None); [done | done |]. intros n' e. rewrite Ho.
  case_decide; [subst | by left]. intros [->|Hin]%request_entries; [right; by exists info | by left].
Qed.

Lemma names_ok_on_bus c msg name flags unique r :
  preserves (names_ok None) (request_on_bus c msg name flags unique r).
Proof.
  pose proof (names_ok_release None name c). pose proof (preserves_reply (names_ok None)).
  pose proof (preserves_error (names_ok None)). unfold request_on_bus. walk.
Qed.

Lemma names_ok_request_name c msg : preserves (names_ok None) (handle_request_name c msg).
Proof.
  unfold handle_request_name. apply preserves_with_body. intros [name flags] w Hw.
  unfold bind at 1, get. destruct (clients (mux w) !! c) as [info|] eqn:Hc; [| done].
  unfold request_name_as, bind at 1. pose proof (names_ok_request name c flags w info Hc Hw) as H1.
  destruct (update _ _ _ w) as [r w1]. cbn [snd] in H1. by apply names_ok_on_bus.
Qed.

Lemma names_ok_release_name c msg : preserves (names_ok None) (handle_release_name c msg).
Proof.
  unfold handle_release_name. apply preserves_with_body. intros name.
  apply preserves_bind; [apply names_ok_release | intros r].
  apply preserves_bind; [walk | intros _; apply preserves_reply].
Qed.

Lemma names_ok_register h :
  0 <= ac_client_id h < u64_modulus /\ ac_unique_name h = mux_name (ac_client_id h) ->
  preserves (names_ok None) (register_client h).
Proof.
  intros [Hr Hh] w (Hn & Hm & He). unfold register_client, modify. cbn [snd mux]. split_and!.
  - intros c info. cbn [clients with_clients]. rewrite lookup_insert_Some. intros [[<- <-]|[_ Hi]]; [done | by apply Hn].
  - done.
  - cbn [name_queue clients with_clients]. intros n e [?|(info & Hi & Hu)]%He; [done | right].
    destruct (decide (ac_client_id h = qe_client_id e)) as [Heq|Hne]; simplify_map_eq; [| by eauto].
    eexists. split; [by rewrite Heq; apply lookup_insert_eq |]. cbn [unique_name].
    rewrite Hh, <- Hu. symmetry. rewrite Heq. by apply Hn.
Qed.

Lemma names_ok_leave c unique owned w :
  names_ok (Some c) (mux w) -> names_ok None (mux (leave_queues c unique owned w).2).
Proof.
  intros Hw. unfold leave_queues, bind at 1, ret.
  assert (preserves (names_ok (Some c))
    (let! _ := update portal_requests with_portal (prt_remove_client c) in ret tt)) as Hp by walk.
  specialize (Hp w Hw). unfold bind in Hp at 1. unfold bind at 1.
  destruct (update portal_requests _ _ w) as [? w1]. cbn [ret snd] in Hp. unfold bind at 1.
  pose proof Hp as (_ & Hm & _).
  destruct (remove_client_in_refines (queues_order (name_queue (mux w1))) c _ Hm
    (queues_order_all _)) as (Hok & Ho & _).
  unfold update. destruct (remove_client_in _ c _) as [q results]. cbn [fst snd] in *.
  assert (names_ok None (with_name_queue q (mux w1))) as H2.
  { apply (names_ok_queue (Some c)); [done | done |]. intros n' e. rewrite Ho. unfold Spec.leave.
    rewrite list_elem_of_filter. intros [Hne Hin]. left. split; [done |]. congruence. }
  refine (preserves_bind (names_ok None) _ _ _ _ (mkWorld _ _) H2).
  - apply preserves_transfer; apply _.
  - intros _. apply preserves_unqueued. apply _.
Qed.

Lemma names_ok_disconnect h : preserves (names_ok None) (disconnect_client h).
Proof.
  intros w (Hn & Hm & He). unfold disconnect_client, bind at 1, get.
  destruct (match clients (mux w) !! ac_client_id h with Some _ => _ | None => _ end) as [owned rs].
  unfold bind at 1, modify. set (w1 := mkWorld _ _).
  assert (names_ok (Some (ac_client_id h)) (mux w1)) as H1.
  { split_and!; [| done |]; cbn [mux w1 clients name_queue with_clients].
    - intros c info. cbn [clients with_clients]. rewrite lookup_delete_Some. intros [_ Hi]. by apply Hn.
    - intros n e [?|(info & Hi & Hu)]%He; [done |].
      destruct (decide (ac_client_id h = qe_client_id e)) as [<-|Hne]; [by left | right].
      exists info. by rewrite lookup_delete_ne. }
  unfold bind at 1. pose proof (preserves_release_rules (names_ok (Some (ac_client_id h))) rs w1 H1) as H2.
  destruct (release_match_rules rs w1) as [[] w2]. by apply names_ok_leave.
Qed.

Lemma names_ok_input i : input_ok i -> input_preserves (names_ok None) i.
Proof.
  intros Hi. destruct i as [[h|e]|h|route [[msg|]|e]|c msg|]; constructor.
  - by apply names_ok_register.
  - apply names_ok_disconnect.
  - apply preserves_bus_message; [apply _ .. |]. by apply preserves_handle_reply; apply _.
  - apply preserves_client_message; [intros; apply preserves_forward; apply _ |].
    apply preserves_dbus_method.
    + apply preserves_forward; apply _.
    + apply names_ok_request_name.
    + apply names_ok_release_name.
    + apply preserves_add_match; apply _.
    + apply preserves_remove_match; apply _.
  - apply preserves_cleanup; [apply _ |]. unfold router_cleanup_expired. walk.
Qed.

(** ** Match rules *)

Lemma rules_ok_ext s s' :
  (forall c, match_rules <$> clients s' !! c = match_rules <$> clients s !! c) ->
  match_rule_refcount s' = match_rule_refcount s -> rules_ok s -> rules_ok s'.
Proof.
  intros Hc Hr (Hn & Hm). split; [by rewrite Hr |]. intros c info Hi. specialize (Hc c). rewrite Hi in Hc.
  destruct (clients s !! c) as [i|] eqn:Ei; [| done]. injection Hc as ->. by eapply Hm.
Qed.

#[local] Ltac rules_frame := intros x s; by apply rules_ok_ext.

#[export] Instance rules_ok_table : Tolerates with_table rules_ok.
Proof. rules_frame. Qed.
#[export] Instance rules_ok_serial_map : Tolerates with_serial_map rules_ok.
Proof. rules_frame. Qed.
#[export] Instance rules_ok_conn route : Tolerates (with_conn route) rules_ok.
Proof. rules_frame. Qed.
#[export] Instance rules_ok_name_queue : Tolerates with_name_queue rules_ok.
Proof. rules_frame. Qed.
#[export] Instance rules_ok_portal : Tolerates with_portal rules_ok.
Proof. rules_frame. Qed.

Lemma rules_ok_client f :
  (forall i, NoDup (rule_strings (match_rules i)) -> NoDup (rule_strings (match_rules (f i)))) ->
  ToleratesClient f rules_ok.
Proof.
  intros Hf c s (Hn & Hm). split; [done |]. cbn [clients with_clients]. intros c' i'.
  rewrite lookup_alter_Some. intros [(<- & i & Hi & ->)|[_ Hi]]; [apply Hf |]; by eapply Hm.
Qed.

#[export] Instance rules_ok_add_owned name : ToleratesClient (add_owned name) rules_ok.
Proof. by apply rules_ok_client. Qed.
#[export] Instance rules_ok_drop_owned name : ToleratesClient (drop_owned name) rules_ok.
Proof. by apply rules_ok_client. Qed.

Lemma rules_ok_increment bus rule :
  preserves rules_ok (update match_rule_refcount with_refcount (increment bus rule)).
Proof.
  intros w [Hok Hn]. unfold update. pose proof (increment_spec bus rule _ Hok) as Hi.
  destruct (increment _ _ _) as [rc first]. destruct Hi as (Hok' & _). by split.
Qed.

Lemma rules_ok_decrement bus rule :
  preserves rules_ok (update match_rule_refcount with_refcount (decrement bus rule)).
Proof.
  intros w [Hok Hn]. unfold update. pose proof (decrement_spec bus rule _ Hok) as Hi.
  destruct (decrement _ _ _) as [rc last]. destruct Hi as (Hok' & _). by split.
Qed.

#[local] Hint Resolve rules_ok_increment rules_ok_decrement : frames.

Lemma rules_ok_add_upstream route rule : preserves rules_ok (add_upstream route rule).
Proof. unfold add_upstream. walk. Qed.

Lemma rules_ok_remove_upstream route rule : preserves rules_ok (remove_upstream route rule).
Proof. unfold remove_upstream. walk. Qed.

#[export] Instance rules_ok_add_rule r :
  ToleratesClient (fun info => with_match_rules (cmr_add r (match_rules info)) info) rules_ok.
Proof. apply rules_ok_client. intros i. apply cmr_add_nodup. Qed.

(** Rules that are left of those a client had. *)
Lemma rules_ok_fewer c info rs s :
  clients s !! c = Some info -> sublist (rule_strings rs) (rule_strings (match_rules info)) ->
  rules_ok s -> rules_ok (with_clients (alter (with_match_rules rs) c (clients s)) s).
Proof.
  intros Hc Hsub [Hok Hn]. split; [done |]. cbn [clients with_clients]. intros c' i'.
  rewrite lookup_alter_Some. intros [(<- & i & Hi & ->)|[_ Hi]]; [| by eapply Hn].
  eapply sublist_NoDup; [exact (Hn _ _ Hc) | exact Hsub].
Qed.

#[local] Hint Resolve rules_ok_add_upstream rules_ok_remove_upstream preserves_reply preserves_error : frames.

Lemma rules_ok_add_match c msg : preserves rules_ok (handle_add_match c msg).
Proof.
  unfold handle_add_match, install_rule. apply preserves_with_body. intros rule. case_match; [| walk].
  walk.
Qed.

Lemma rules_ok_remove_match c msg : preserves rules_ok (handle_remove_match c msg).
Proof.
  unfold handle_remove_match. apply preserves_with_body. intros rule w Hw.
  unfold bind at 1, get. revert w Hw. intros w Hw. destruct (clients (mux w) !! c) as [info|] eqn:Hc.
  - pose proof (cmr_remove_strings rule (match_rules info)) as Hs.
    destruct (cmr_remove rule (match_rules info)) as [rs removed]. cbn [fst] in Hs.
    unfold bind at 1. unfold bind at 1. unfold update_client, modify, ret. cbn [fst snd].
    match goal with |- rules_ok (mux (_ ?w1).2) => assert (rules_ok (mux w1)) as H1 end.
    { eapply rules_ok_fewer; [done | | done]. rewrite Hs. apply sublist_filter. }
    revert H1. generalize (mkWorld (with_clients (alter (with_match_rules rs) c (clients (mux w))) (mux w)) (log w)).
    assert (preserves rules_ok (if negb removed then
      send_error_to_client c msg error_names.MATCH_RULE_NOT_FOUND "Match rule not found"
      else remove_upstream Container rule ;! remove_upstream Host rule ;!
           send_reply_to_client c msg BodyUnit)) as Hk by walk.
    exact Hk.
  - unfold bind at 1, ret. cbn [negb]. by apply preserves_error.
Qed.

Lemma rules_ok_release_rules rs : preserves rules_ok (release_match_rules rs).
Proof.
  induction rs as [|rule rs IH]; cbn [release_match_rules]; [walk |].
  apply preserves_bind; [walk | intros _]. apply preserves_bind; [walk | done].
Qed.

Lemma rules_ok_disconnect h : preserves rules_ok (disconnect_client h).
Proof.
  unfold disconnect_client. apply preserves_bind; [walk | intros cs]. case_match.
  apply preserves_bind.
  - apply preserves_modify. intros s [Hok Hn]. split; [done |]. cbn [clients with_clients].
    intros c i. rewrite lookup_delete_Some. intros [_ Hi]. by eapply Hn.
  - intros _. apply preserves_bind; [apply rules_ok_release_rules |]. intros _. apply preserves_leave; apply _.
Qed.

Lemma rules_ok_input i : input_preserves rules_ok i.
Proof.
  destruct i as [[h|e]|h|route [[msg|]|e]|c msg|]; constructor.
  - apply preserves_modify. intros s [Hok Hn]. split; [done |]. cbn [clients with_clients].
    intros c i. rewrite lookup_insert_Some. intros [[_ <-]|[_ Hi]]; [constructor | by eapply Hn].
  - apply rules_ok_disconnect.
  - apply preserves_bus_message; [apply _ .. |]. by apply preserves_handle_reply; apply _.
  - apply preserves_client_message; [intros; apply preserves_forward; apply _ |].
    apply preserves_dbus_method; [apply preserves_forward; apply _ | | | |].
    + apply preserves_request_name; apply _.
    + apply preserves_release_name; apply _.
    + apply rules_ok_add_match.
    + apply rules_ok_remove_match.
  - apply preserves_cleanup; [apply _ |]. unfold router_cleanup_expired. walk.
Qed.

(** *** Rules as they were parsed *)

Lemma parsed_rules_ext s s' :
  (forall c, match_rules <$> clients s' !! c = match_rules <$> clients s !! c) -> parsed_rules s -> parsed_rules s'.
Proof.
  intros Hc Hs c info r Hi. specialize (Hc c). rewrite Hi in Hc.
  destruct (clients s !! c) as [i|] eqn:Ei; [| done]. injection Hc as ->. by eapply Hs.
Qed.

#[local] Ltac parsed_frame := intros x s; by apply parsed_rules_ext.

#[local] Instance parsed_rules_table : Tolerates with_table parsed_rules.
Proof. parsed_frame. Qed.
#[local] Instance parsed_rules_serial_map : Tolerates with_serial_map parsed_rules.
Proof. parsed_frame. Qed.
#[local] Instance parsed_rules_conn route : Tolerates (with_conn route) parsed_rules.
Proof. parsed_frame. Qed.
#[local] Instance parsed_rules_name_queue : Tolerates with_name_queue parsed_rules.
Proof. parsed_frame. Qed.
#[local] Instance parsed_rules_portal : Tolerates with_portal parsed_rules.
Proof. parsed_frame. Qed.
#[local] Instance parsed_rules_refcount : Tolerates with_refcount parsed_rules.
Proof. parsed_frame. Qed.

Lemma parsed_rules_client f :
  (forall i r, r ∈ rules (match_rules (f i)) -> r ∈ rules (match_rules i) \/ rule_ok r) ->
  ToleratesClient f parsed_rules.
Proof.
  intros Hf c s Hs c' i' r. cbn [clients with_clients]. rewrite lookup_alter_Some.
  intros [(<- & i & Hi & ->)|[_ Hi]]; [| by eapply Hs]. intros [Hr|Hr]%Hf; [by eapply Hs | done].
Qed.

#[local] Instance parsed_rules_add_owned name : ToleratesClient (add_owned name) parsed_rules.
Proof. apply parsed_rules_client. auto. Qed.
#[local] Instance parsed_rules_drop_owned name : ToleratesClient (drop_owned name) parsed_rules.
Proof. apply parsed_rules_client. auto. Qed.

Lemma parsed_rules_add_match c msg : preserves parsed_rules (handle_add_match c msg).
Proof.
  unfold handle_add_match, install_rule. apply preserves_with_body. intros rule.
  destruct (parse rule) as [r|e] eqn:Hp; [| walk].
  assert (ToleratesClient (fun info => with_match_rules (cmr_add r (match_rules info)) info) parsed_rules) as Ht.
  { apply parsed_rules_client. intros i r'. cbn [match_rules with_match_rules]. unfold cmr_add. case_match; [| by left].
    cbn [rules]. rewrite elem_of_app, list_elem_of_singleton. intros [?| ->]; [by left | right]. by eapply parse_ok. }
  apply preserves_bind; [| intros; walk]. intros w Hw. by apply Ht.
Qed.

Lemma parsed_rules_remove_match c msg : preserves parsed_rules (handle_remove_match c msg).
Proof.
  unfold handle_remove_match. apply preserves_with_body. intros rule w Hw.
  set (rest := fun removed : bool => if negb removed then _ else _).
  assert (forall b, preserves parsed_rules (rest b)) as Hrest by (intros b; unfold rest; walk).
  unfold bind at 1, get. destruct (clients (mux w) !! c) as [info|] eqn:Hc; [| by apply Hrest].
  destruct (cmr_remove rule (match_rules info)) as [rs removed] eqn:Hr. injection Hr as <- _.
  apply Hrest. intros c' i' r. cbn [mux clients with_clients]. rewrite lookup_alter_Some.
  intros [(<- & i & Hi & ->)|[_ Hi]]; [| by eapply Hw]. cbn [match_rules with_match_rules rules].
  intros [_ Hin]%list_elem_of_filter. exact (Hw _ _ _ Hc Hin).
Qed.

Lemma parsed_rules_input i : input_preserves parsed_rules i.
Proof.
  destruct i as [[h|e]|h|route [[msg|]|e]|c msg|]; constructor.
  - apply preserves_modify. intros s Hs c i r. cbn [clients with_clients].
    rewrite lookup_insert_Some. intros [[_ <-]|[_ Hi]]; [by intros ?%elem_of_nil | by eapply Hs].
  - unfold disconnect_client. apply preserves_bind; [walk | intros cs]. case_match.
    apply preserves_bind.
    + apply preserves_modify. intros s Hs c i r. cbn [clients with_clients].
      rewrite lookup_delete_Some. intros [_ Hi]. by eapply Hs.
    + intros _. apply preserves_bind; [apply preserves_release_rules; apply _ |]. intros _. apply preserves_leave; apply _.
  - apply preserves_bus_message; [apply _ .. |]. by apply preserves_handle_reply; apply _.
  - apply preserves_client_message; [intros; apply preserves_forward; apply _ |].
    apply preserves_dbus_method; [apply preserves_forward; apply _ | | | |].
    + apply preserves_request_name; apply _.
    + apply preserves_release_name; apply _.
    + apply parsed_rules_add_match.
    + apply parsed_rules_remove_match.
  - apply preserves_cleanup; [apply _ |]. unfold router_cleanup_expired. walk.
Qed.

(** The rules of clients are rules that were parsed, whatever comes in. *)
Lemma reachable_rules_parsed inputs w : parsed_rules (mux w) -> parsed_rules (mux (run inputs w).2).
Proof. apply (preserves_run parsed_rules). apply Forall_true. apply parsed_rules_input. Qed.

(** ** Serials *)

Lemma serials_ok_ext s s' : router s' = router s -> serials_ok s -> serials_ok s'.
Proof. unfold serials_ok, serials_pending, conn. by intros ->. Qed.

#[local] Ltac serials_frame := intros x s; by apply serials_ok_ext.

#[export] Instance serials_ok_table : Tolerates with_table serials_ok.
Proof. intros t s (Hg & Hp & Ht). split_and!; [| done | done]. intros route. apply (Hg route). Qed.
#[export] Instance serials_ok_refcount : Tolerates with_refcount serials_ok.
Proof. serials_frame. Qed.
#[export] Instance serials_ok_name_queue : Tolerates with_name_queue serials_ok.
Proof. serials_frame. Qed.
#[export] Instance serials_ok_portal : Tolerates with_portal serials_ok.
Proof. serials_frame. Qed.
#[export] Instance serials_ok_clients : Tolerates with_clients serials_ok.
Proof. serials_frame. Qed.
#[export] Instance serials_ok_client f : ToleratesClient f serials_ok.
Proof. intros c s. apply (tolerates (write := with_clients)). Qed.

Lemma serials_ok_forward c msg route : preserves serials_ok (forward_method_call c msg route).
Proof.
  intros w (Hg & Hp & Ht). destruct (forward_method_call c msg route w) as [res w'] eqn:Ef.
  apply forward_spec in Ef. pose proof (next_upcoming (gen route w)) as Hn.
  pose proof (next_counter (gen route w)) as Hc. pose proof (upcoming_range _ (Hg route)) as Hr.
  destruct (next (gen route w)) as [g fs]. cbn [fst snd] in *. subst fs. destruct Ef as (Hgen & Hto & Hres).
  specialize (Hc (Hg route)).
  split_and!; [| | by rewrite Hto].
  - intros r. specialize (Hgen r). unfold gen in Hgen. rewrite Hgen. by case_decide; [| apply Hg].
  - destruct res as [[]|e]; [| by destruct Hres as [_ ->]].
    destruct Hres as (m & _ & _ & ->). intros k p. rewrite lookup_insert_Some.
    intros [[<- <-]|[_ Hk]]; [| by apply Hp]. cbn [sk_serial pc_client_serial].
    split; [unfold gen in *; lia | apply serial_num_range].
Qed.

Lemma serials_ok_shrink m s :
  pending m ⊆ pending (serials_pending s) -> sm_timeout m = sm_timeout (serials_pending s) ->
  serials_ok s -> serials_ok (with_serial_map m s).
Proof.
  intros Hsub Hto (Hg & Hp & Ht). split_and!.
  - intros route. rewrite conn_with_serial_map. apply Hg.
  - intros k p Hk. apply Hp. by eapply lookup_weaken.
  - by rewrite <- Ht.
Qed.

Lemma serials_ok_reply msg route : preserves serials_ok (handle_reply msg route).
Proof.
  unfold handle_reply. case_match; [| walk]. apply preserves_bind; [| intros; walk].
  intros w Hw. unfold update, sm_remove. cbn [snd mux].
  apply serials_ok_shrink; [apply delete_subseteq | done | done].
Qed.

Lemma serials_ok_cleanup : preserves serials_ok router_cleanup_expired.
Proof.
  unfold router_cleanup_expired. apply preserves_bind; [walk | intros t w Hw].
  unfold update, sm_cleanup_expired. cbn [snd mux].
  apply serials_ok_shrink; [apply map_filter_subseteq | done | done].
Qed.

Lemma serials_ok_input i : input_preserves serials_ok i.
Proof.
  destruct i as [[h|e]|h|route [[msg|]|e]|c msg|]; constructor.
  - unfold register_client. walk.
  - unfold disconnect_client. apply preserves_bind; [walk | intros cs]. case_match.
    apply preserves_bind; [walk | intros _]. apply preserves_bind; [apply preserves_release_rules; apply _ |].
    intros _. apply preserves_leave; apply _.
  - apply preserves_bus_message; [apply _ .. |]. apply serials_ok_reply.
  - apply preserves_client_message; [intros; apply serials_ok_forward |].
    apply preserves_dbus_method; [apply serials_ok_forward | | | |].
    + apply preserves_request_name; apply _.
    + apply preserves_release_name; apply _.
    + apply preserves_add_match; apply _.
    + apply preserves_remove_match; apply _.
  - apply preserves_cleanup; [apply _ | apply serials_ok_cleanup].
Qed.

(** ** Runs *)

Lemma wf_mux_run inputs w : Forall input_ok inputs -> wf_mux (mux w) -> wf_mux (mux (run inputs w).2).
Proof.
  intros Hi [H1 H2 H3]. split.
  - apply (preserves_run (names_ok None)); [| done]. eapply Forall_impl; [done |]. intros i. apply names_ok_input.
  - apply (preserves_run rules_ok); [| done]. apply Forall_true. apply rules_ok_input.
  - apply (preserves_run serials_ok); [| done]. apply Forall_true. apply serials_ok_input.
Qed.

Lemma wf_mux_fresh container_name host_name server_guid : wf_mux (fresh container_name host_name server_guid).
Proof.
  split.
  - split_and!; [by intros c info | apply map_Forall_empty |].
    intros n e. unfold owners. cbn. rewrite lookup_empty. by intros ?%elem_of_nil.
  - split; [apply map_Forall_empty | by intros c info].
  - split_and!; [by intros [] | | done]. intros k p. cbn. by rewrite lookup_empty.
Qed.

Lemma wf_mux_start w : wf_mux (mux w) -> wf_mux (mux (Multiplexer_new w).2).
Proof.
  intros [H1 H2 H3]. split.
  - revert w H1 H2 H3. enough (preserves (names_ok None) Multiplexer_new) as H by (intros; by apply H).
    unfold Multiplexer_new, sync_tables, list_names, list_activatable_names, subscribe_name_changes. walk.
  - revert w H1 H2 H3. enough (preserves rules_ok Multiplexer_new) as H by (intros; by apply H).
    unfold Multiplexer_new, sync_tables, list_names, list_activatable_names, subscribe_name_changes. walk.
  - revert w H1 H2 H3. enough (preserves serials_ok Multiplexer_new) as H by (intros; by apply H).
    unfold Multiplexer_new, sync_tables, list_names, list_activatable_names, subscribe_name_changes. walk.
Qed.

(** ** Credentials *)

Lemma find_credentials_unique p l i :
  i ∈ l -> p i = true -> (forall j, j ∈ l -> p j = true -> j = i) ->
  find_credentials p l = Some (credentials i).
Proof.
  induction l as [|j l IH]; intros Hin Hi Hall; simpl; [by apply elem_of_nil in Hin |].
  destruct (p j) eqn:Hj.
  - by rewrite (Hall j) by (done || apply list_elem_of_here).
  - apply IH; [| done | intros k Hk; apply Hall; by apply list_elem_of_further].
    apply elem_of_cons in Hin as [->|]; congruence || done.
Qed.

Lemma find_credentials_first p l1 i l2 :
  Forall (fun j => p j = false) l1 -> p i = true ->
  find_credentials p (l1 ++ i :: l2) = Some (credentials i).
Proof.
  intros Hl Hi. induction Hl as [|j l1 Hj _ IH]; simpl; [by rewrite Hi | by rewrite Hj].
Qed.

Lemma find_credentials_none p l : Forall (fun j => p j = false) l -> find_credentials p l = None.
Proof. induction 1 as [|j l Hj _ IH]; simpl; [done | by rewrite Hj]. Qed.

Lemma clients_values_elem cs i : i ∈ clients_values cs <-> exists c, cs !! c = Some i.
Proof.
  unfold clients_values. rewrite list_elem_of_omap. split.
  - intros (c & _ & Hc). by exists c.
  - intros [c Hc]. exists c. split; [| done]. rewrite clients_order_all, elem_of_elements. by eapply elem_of_dom_2.
Qed.

Lemma mux_name_inj c c' :
  0 <= c < u64_modulus -> 0 <= c' < u64_modulus -> mux_name c = mux_name c' -> c = c'.
Proof.
  intros Hc Hc' Heq. assert (to_dec c = to_dec c') as Hd by (by injection Heq).
  unfold u64_modulus in *. apply to_dec_inj in Hd; lia.
Qed.

(** A RequestName the queue forwards and the bus grants. *)
Lemma request_granted c msg (name : string) (flags : Z) info q r reply (code : Z) w :
  deserialize BStrU32 msg = Ok (name, flags) -> clients (mux w) !! c = Some info ->
  request_name name c (unique_name info) flags (name_queue (mux w)) = (q, r) -> rq_forward_to_bus r = true ->
  bus_answer (log w) Container (CallRequestName name flags) = Ok reply ->
  deserialize BU32 reply = Ok code -> code = 1 \/ code = 4 ->
  mux (handle_request_name c msg w).2 =
    with_clients (<[c := add_owned name info]> (clients (mux w)))
      (with_table (on_container_name_change name "" (unique_name info) (table (mux w)))
         (with_name_queue q (mux w))).
Proof.
  intros Hd Hi Hr Hf Hb Hc Hcode. unfold handle_request_name, with_body, request_name_as, request_on_bus. rewrite Hd.
  unfold bind at 1 2, get at 1. rewrite Hi. unfold update at 1. rewrite Hr, Hf.
  unfold bind at 1, call_method. cbn [mux log]. rewrite Hb. cbv zeta. rewrite Hc.
  assert ((code =? request_name_reply.PRIMARY_OWNER) || (code =? request_name_reply.ALREADY_OWNER) = true)
    as -> by (by destruct Hcode as [->| ->]).
  unfold bind, update_table, update_client, modify. rewrite send_reply_mux.
  cbn [mux log clients with_table with_router with_name_queue]. by rewrite (alter_as_insert _ _ _ info).
Qed.

(** The credentials behind a name no client bears as its unique name. *)
Lemma find_client_first name l1 c info l2 w :
  (forall d i, clients (mux w) !! d = Some i -> unique_name i <> name) ->
  clients_order (clients (mux w)) = l1 ++ c :: l2 ->
  Forall (fun d => forall i, clients (mux w) !! d = Some i -> name ∉ owned_names i) l1 ->
  clients (mux w) !! c = Some info -> name ∈ owned_names info ->
  (find_client_credentials name w).1 = Some (credentials info).
Proof.
  intros Hu Ho Hl1 Hc Hin. unfold find_client_credentials, bind, get.
  rewrite find_credentials_none.
  - cbn [fst ret]. unfold clients_values. rewrite Ho, omap_app. cbn [omap list_omap]. rewrite Hc.
    apply find_credentials_first; [| by apply bool_decide_eq_true].
    apply Forall_forall. intros j (d & Hd & Hj)%list_elem_of_omap.
    rewrite Forall_forall in Hl1. apply bool_decide_eq_false. by eapply Hl1.
  - apply Forall_forall. intros j (d & Hd)%clients_values_elem. apply String.eqb_neq. by eapply Hu.
Qed.

(** ** Theorems *)

(** C8. Every state the multiplexer can be in between two inputs is well formed:
    after start-up (whatever the buses answer to it) and any sequence of inputs,
    each handled without interruption, in which clients register under the
    unique names of their ids ([input_ok], as [accept] names them), each client
    bears the unique name of its 64-bit id; each queue of names has an owner,
    holds no client twice, and everybody in it is connected under the name
    noted there; no reference count is zero and no client holds a rule twice;
    serial counters fit 32 bits, every call in flight has nonzero 32-bit
    serials, and calls time out after 30 seconds. *)
Theorem reachable_states_wf container_name host_name server_guid inputs l :
  Forall input_ok inputs ->
  let w0 := mkWorld (fresh container_name host_name server_guid) l in
  wf_mux (mux (run inputs (Multiplexer_new w0).2).2).
Proof. intros Hi. apply wf_mux_run; [done |]. apply wf_mux_start, wf_mux_fresh. Qed.

(** Asking for a connected client by its unique name finds that client's
    credentials, in whatever order the clients are visited and whatever names
    they own. *)
Lemma credentials_by_unique_name c info w :
  wf_mux (mux w) -> clients (mux w) !! c = Some info ->
  find_client_credentials (mux_name c) w = (Some (credentials info), w).
Proof.
  intros [(Hn & _) _ _] Hc. unfold find_client_credentials, bind, get.
  rewrite (find_credentials_unique _ _ info); [done | | |].
  - apply clients_values_elem. by exists c.
  - apply String.eqb_eq. by apply Hn.
  - intros j (c' & Hc')%clients_values_elem Hj%String.eqb_eq.
    destruct (Hn c info Hc) as [Hr _]. destruct (Hn c' j Hc') as [Hr' Hu].
    assert (c' = c) as -> by (apply mux_name_inj; congruence). congruence.
Qed.

(** C35. A client that is replaced as the owner of a name keeps it in its list of
    owned names: when another client takes the name over (and the bus agrees),
    the new client owns it in the queue, yet both list it, and who asks for
    the credentials behind the name gets those of whichever of the two the
    hash map yields first. *)
Theorem replaced_owner_still_listed c msg (name : string) (flags : Z) info o ws old reply (code : Z) w :
  wf_mux (mux w) -> deserialize BStrU32 msg = Ok (name, flags) -> clients (mux w) !! c = Some info ->
  owners (name_queue (mux w)) name = o :: ws -> qe_allow_replacement o = true ->
  has_flag flags request_name_flags.REPLACE_EXISTING = true ->
  c ∉ map qe_client_id (o :: ws) ->
  clients (mux w) !! qe_client_id o = Some old -> name ∈ owned_names old ->
  bus_answer (log w) Container (CallRequestName name flags) = Ok reply ->
  deserialize BU32 reply = Ok code -> code = 1 \/ code = 4 ->
  (forall d i, clients (mux w) !! d = Some i -> unique_name i <> name) ->
  let w' := (handle_request_name c msg w).2 in
  get_primary_owner name (name_queue (mux w')) = Some (c, unique_name info) /\
  (exists new, clients (mux w') !! c = Some new /\ name ∈ owned_names new) /\
  clients (mux w') !! qe_client_id o = Some old /\
  forall l1 l2, clients_order (clients (mux w')) = l1 ++ qe_client_id o :: l2 ->
    Forall (fun d => forall i, clients (mux w') !! d = Some i -> name ∉ owned_names i) l1 ->
    (find_client_credentials name w').1 = Some (credentials old).
Proof.
  intros Hwf Hd Hi Ho Hallow Hrepl Hc Hold Hown Hb Hcode Hgr Huniq. cbv zeta.
  destruct Hwf as [(Hn & Hm & _) _ _].
  destruct (request_name_spec (name_queue (mux w)) name c (unique_name info) flags Hm) as (Hok & Hr & Hq).
  rewrite Ho in Hr, Hq. unfold Spec.request in Hr, Hq. rewrite Hrepl, Hallow in Hr, Hq.
  cbn [qe_client_id map] in Hc, Hr, Hq. apply not_elem_of_cons in Hc as [Hc1 Hc2].
  rewrite decide_False in Hr, Hq by congruence. rewrite decide_False in Hr, Hq by done.
  cbn [andb fst snd] in Hr, Hq.
  destruct (request_name name c (unique_name info) flags (name_queue (mux w))) as [q r] eqn:Er.
  cbn [fst snd] in *. specialize (Hq name). rewrite decide_True in Hq by done.
  assert (rq_forward_to_bus r = true) as Hf by (by rewrite Hr).
  set (w' := (handle_request_name c msg w).2).
  assert (clients (mux w') = <[c := add_owned name info]> (clients (mux w)) /\ name_queue (mux w') = q)
    as [Hcl Hnq] by (unfold w'; by rewrite (request_granted c msg name flags info q r reply code)).
  assert (clients (mux w') !! qe_client_id o = Some old) as Hold'
    by (rewrite Hcl, lookup_insert_ne by congruence; done).
  split_and!; [| | done |].
  - rewrite Hnq. by rewrite get_primary_owner_head, Hq.
  - exists (add_owned name info). rewrite Hcl, lookup_insert_eq. split; [done |].
    cbn [owned_names add_owned with_owned_names]. set_solver.
  - intros l1 l2 Hord Hl1. apply (find_client_first name l1 (qe_client_id o) old l2); try done.
    intros d i. rewrite Hcl, lookup_insert_Some. intros [[<- <-]|[_ Hd']]; [exact (Huniq c info Hi) | exact (Huniq d i Hd')].
Qed.

End Invariant.

(** ** Witnesses *)

Section Witnesses.
#[local] Existing Instance SimpleZbus.
#[local] Existing Instance SimpleZbusLaws.
#[local] Existing Instance SimpleEnv.

#[local] Instance simple_laws : EnvLaws.
Proof. apply env_with_laws. Qed.

Definition ex_first : Accepted := mkAccepted 1 ":mux.1" (mkClientCredentials 1000 (Some 42) 1000).
Definition ex_second : Accepted := mkAccepted 2 ":mux.2" (mkClientCredentials 1001 (Some 43) 1000).

(** The second client owns a name and lets others replace it. *)
Definition ex_names : list Input :=
  [InAccept (Ok ex_first); InAccept (Ok ex_second);
   InClient 2 (s_call ":mux.2" 2 "org.freedesktop.DBus" "RequestName" (s_str_u32 "org.a" 1))].

Definition ex_take_over : Message :=
  s_call ":mux.1" 2 "org.freedesktop.DBus" "RequestName" (s_str_u32 "org.a" 2).

Lemma ex_names_ok : Forall input_ok ex_names.
Proof. by repeat (constructor; [done |]). Qed.

Definition ex_started : World := (run ex_names (Multiplexer_new s_world).2).2.

Lemma reachable_states_wf_witness : wf_mux (mux ex_started).
Proof.
  exact (reachable_states_wf (Some ":1.88") (Some ":1.9") "0123" ex_names []
    ex_names_ok).
Defined.

Lemma ex_started_wf : wf_mux (mux ex_started).
Proof. apply (wf_mux_run); [apply ex_names_ok |]. apply wf_mux_start, wf_mux_fresh. Qed.

Lemma credentials_by_unique_name_witness :
  find_client_credentials ":mux.1" ex_started = (Some (mkClientCredentials 1000 (Some 42) 1000), ex_started).
Proof.
  refine (credentials_by_unique_name 1
    (mkClientInfo ":mux.1" ∅ ClientMatchRules_new (mkClientCredentials 1000 (Some 42) 1000))
    ex_started ex_started_wf _).
  vm_compute. reflexivity.
Defined.

(** The name's new owner has the user id 1000. *)
Lemma replaced_owner_still_listed_witness :
  let w' := (handle_request_name 1 ex_take_over ex_started).2 in
  get_primary_owner "org.a" (name_queue (mux w')) = Some (1, ":mux.1") /\
  (find_client_credentials "org.a" w').1 = Some (mkClientCredentials 1001 (Some 43) 1000).
Proof.
  destruct (replaced_owner_still_listed 1 ex_take_over "org.a" 2
    (mkClientInfo ":mux.1" ∅ ClientMatchRules_new (mkClientCredentials 1000 (Some 42) 1000))
    (mkQueueEntry 2 ":mux.2" true) []
    (mkClientInfo ":mux.2" {["org.a"]} ClientMatchRules_new (mkClientCredentials 1001 (Some 43) 1000))
    (s_reply 1 1 (s_u32 1)) 1 ex_started) as (H1 & _ & _ & H2).
  - apply ex_started_wf.
  - reflexivity.
  - vm_compute. reflexivity.
  - vm_compute. reflexivity.
  - reflexivity.
  - reflexivity.
  - apply (bool_decide_unpack _). vm_compute. exact I.
  - vm_compute. reflexivity.
  - apply (bool_decide_unpack _). vm_compute. exact I.
  - reflexivity.
  - reflexivity.
  - by left.
  - assert (map_Forall (fun _ i => unique_name i <> "org.a") (clients (mux ex_started))) as Hall
      by (apply (bool_decide_unpack _); vm_compute; exact I). exact Hall.
  - split; [exact H1 |]. apply (H2 [] [1]); [vm_compute; reflexivity | constructor].
Defined.
End Witnesses.
