(* ===== verification/RaceRules.v ===== *)
(** * A race between AddMatch and a disconnection

    [handle_add_match] (src/src/multiplexer.rs) adds the rule to the client's
    under the lock on the clients, releases it, and takes the lock on the
    reference counts.  [install_rule] is the part of the handler after the first
    lock; a disconnection fits in between. *)

From S2P Require Import Prelude RustStr Zbus SimpleZbus Errors Message Routing NameQueue SerialMap MatchRules MatchRuleProofs Portal World SimpleEnv Router Multiplexer Frames MuxRules MuxNames Client MuxInv.

#[local] Open Scope Z_scope.

Section AddMatch.
Context {ZB : Zbus} {E : Env} {EL : EnvLaws}.

(** C34. Finding: a disconnection in the middle of an AddMatch corrupts the
    reference counts.  [handle_add_match] adds the rule to the client's and
    releases the clients before it counts the reference; a client that leaves in
    between gives back a reference it never took.  If other clients use the
    rule, one of theirs is lost until the handler goes on - with one such
    client, the rule is not installed on either bus meanwhile; if nobody uses
    it, a reference that belongs to no client stays. *)
Theorem interrupted_add_match_miscounts h msg (rule : string) r info w :
  let c := ac_client_id h in
  clients (mux w) !! c = Some info -> rules_ok (mux w) ->
  deserialize BStr msg = Ok rule -> parse rule = Ok r ->
  let w1 := (update_client c (add_rule r) w).2 in
  let w2 := (disconnect_client h w1).2 in
  let w3 := (install_rule c msg rule w2).2 in
  handle_add_match c msg w = install_rule c msg rule w1 /\
  clients (mux w3) !! c = None /\
  forall route,
    referenced route rule (mux w2) = pred (referenced route rule (mux w)) /\
    referenced route rule (mux w3) = S (pred (referenced route rule (mux w))).
Proof.
  intros c Hc Hwf Hd Hp w1 w2 w3. pose proof Hwf as [Hok Hnd].
  assert (clients (mux w1) !! c = Some (add_rule r info)) as Hc1 by (cbn; by rewrite lookup_alter_eq, Hc).
  assert (forall route, referenced route rule (mux w2) = pred (referenced route rule (mux w))) as Hw2.
  { intros route. unfold w2. destruct (disconnect_refs h _ w1 route rule Hc1 Hok) as [_ ->].
    assert (occurrences rule (rule_strings (match_rules (add_rule r info))) = 1%nat) as ->; [| by rewrite Nat.sub_1_r].
    apply (inj Z.of_nat). rewrite occurrences_nodup by by (apply cmr_add_nodup; exact (Hnd c info Hc)). apply decide_True.
    change (uses rule (add_rule r info)). apply uses_add. left. symmetry. by apply parse_rule_string. }
  assert (counts_ok (match_rule_refcount (mux w2))) as Hok2.
  { apply (rules_ok_disconnect h w1). apply (rules_ok_client (add_rule r)); [| done]. intros i Hi. by apply cmr_add_nodup. }
  destruct (install_refs c msg rule w2 Hok2) as (_ & Hcl & Hr). split_and!.
  - unfold handle_add_match, with_body. by rewrite Hd, Hp.
  - unfold w3. rewrite Hcl. apply disconnect_absent.
  - intros route. split; [apply Hw2 |]. unfold w3. by rewrite Hr, Hw2.
Qed.
End AddMatch.


(** ** Witness *)

Section Witnesses.
#[local] Existing Instance SimpleZbus.
#[local] Existing Instance SimpleEnv.

#[local] Instance race_laws : EnvLaws.
Proof. apply env_with_laws. Qed.

Definition ex_rule : MatchRule :=
  match parse "type='signal'" with Ok r => r | Err _ => empty_rule "" end.

(** The only client with the rule is gone, and a reference is left. *)
Lemma interrupted_add_match_miscounts_witness :
  let w1 := (update_client 1 (add_rule ex_rule) ex_registered).2 in
  let w3 := (install_rule 1 ex_add "type='signal'" (disconnect_client ex_client w1).2).2 in
  clients (mux w3) !! 1 = None /\ referenced Host "type='signal'" (mux w3) = 1%nat.
Proof.
  destruct (interrupted_add_match_miscounts ex_client ex_add "type='signal'" ex_rule
    (mkClientInfo ":mux.1" ∅ ClientMatchRules_new (mkClientCredentials 1000 (Some 42) 1000)) ex_registered)
    as (_ & H1 & H2).
  - reflexivity.
  - split; [apply map_Forall_empty |]. intros c i. cbn. rewrite lookup_insert_Some, lookup_empty.
    intros [[_ <-]|[_ ?]]; [constructor | done].
  - reflexivity.
  - vm_compute. reflexivity.
  - split; [exact H1 | exact (proj2 (H2 Host))].
Defined.
End Witnesses.
