(* ===== verification/Interleave.v ===== *)
(** * Handlers that are interrupted

    In [Multiplexer] a handler runs in one go.  In src/src/multiplexer.rs the
    main loop and the tasks of the clients run in parallel, and a task that
    waits for a lock, a bus or a channel lets others run.  Here the handlers are
    programs over atomic actions: one action is what the code does under one
    guard, or one call to a bus.  Where a second guard is taken under a first
    one, both are one action, at the time of the second: until then nobody else
    sees what was written under the first.  Guards that the code holds across a
    call to a bus (those of the reference counts, in AddMatch, RemoveMatch and
    at the end of a client) are not held here, so there are more interleavings
    than the code has, not fewer.  Run without interruption they are the handlers
    of [Multiplexer]; the theorems are about every interleaving of their
    actions. *)

From S2P Require Import Prelude RustStr Zbus SimpleZbus Errors Message Routing NameQueue SerialMap MatchRules MatchRuleProofs Portal World SimpleEnv Router Multiplexer Frames MuxCalls MuxRules MuxNames Race Isolation Client MuxInv.

#[local] Open Scope Z_scope.

(** ** Programs *)

Section Prog.
Context {ZB : Zbus}.

(** A step changes the world and goes on with what it found there. *)
Inductive Prog (A : Type) : Type :=
| Done (a : A)
| Step (f : World -> World) (k : World -> Prog A).
Arguments Done {A} a.
Arguments Step {A} f k.

(** An action of the monad as one step. *)
Definition Act {A B} (m : M B) (k : B -> Prog A) : Prog A := Step (fun w => (m w).2) (fun w => k (m w).1).

Fixpoint pbind {A B} (p : Prog A) (k : A -> Prog B) : Prog B :=
  match p with
  | Done a => k a
  | Step f k' => Step f (fun w => pbind (k' w) k)
  end.

Definition act {A} (m : M A) : Prog A := Act m Done.

(** The program run without interruption. *)
Fixpoint atomically {A} (p : Prog A) : M A :=
  match p with
  | Done a => ret a
  | Step f k => fun w => atomically (k w) (f w)
  end.
End Prog.
Arguments Done {_ A} a.
Arguments Step {_ A} f k.

Notation "'let&' x ':=' m 'in' k" := (Act m (fun x => k))
  (at level 10, x pattern, m at level 100, k at level 200) : rust_scope.
Notation "p '&;' q" := (pbind p (fun _ => q)) (at level 60, right associativity) : rust_scope.

Section Handlers.
Context {ZB : Zbus} {E : Env}.

(** ** Calls of clients *)

Definition with_body_async (t : body_type) (client_id : Z) (msg : Message) (k : body_val t -> Prog unit) : Prog unit :=
  match deserialize t msg with
  | Ok v => k v
  | Err e =>
      act (send_error_to_client client_id msg error_names.INVALID_ARGS ("Invalid arguments: " +:+ zerror_text e))
  end.

(** The bus has granted the name: both tables under their guards. *)
Definition record_owner (client_id : Z) (name unique : string) : M unit :=
  update_table (on_container_name_change name "" unique) ;! update_client client_id (add_owned name).

Definition request_name_as_async (client_id : Z) (msg : Message) (name : string) (flags : Z) (unique : string)
    : Prog unit :=
  let& queue_result := update name_queue with_name_queue (request_name name client_id unique flags) in
  if rq_forward_to_bus queue_result then
    let& result := call_method Container (CallRequestName name flags) in
    match result with
    | Ok reply =>
        let bus_reply_code : Z := match deserialize BU32 reply with Ok code => code | Err _ => 0 end in
        (if (bus_reply_code =? request_name_reply.PRIMARY_OWNER)
            || (bus_reply_code =? request_name_reply.ALREADY_OWNER)
         then act (record_owner client_id name unique) else Done tt) &;
        act (send_reply_to_client client_id msg (BodyU32 (rq_reply_code queue_result)))
    | Err e =>
        let& _ := update name_queue with_name_queue (release_name name client_id) in
        act (send_error_to_client client_id msg error_names.FAILED ("RequestName failed: " +:+ zerror_text e))
    end
  else act (send_reply_to_client client_id msg (BodyU32 (rq_reply_code queue_result))).

Definition handle_request_name_async (client_id : Z) (msg : Message) : Prog unit :=
  with_body_async BStrU32 client_id msg (fun '(name, flags) =>
    let& cs := get clients in
    match cs !! client_id with
    | None => Done tt
    | Some c => request_name_as_async client_id msg name flags (unique_name c)
    end).

(** A waiter has become the owner: both tables under their guards. *)
Definition promote (client_id new_owner_id : Z) (name new_owner_name : string) : M unit :=
  update_table (on_container_name_change name "" new_owner_name) ;!
  update_client client_id (drop_owned name) ;!
  update_client new_owner_id (add_owned name).

Definition handle_release_name_async (client_id : Z) (msg : Message) : Prog unit :=
  with_body_async BStr client_id msg (fun name =>
    let& queue_result := update name_queue with_name_queue (release_name name client_id) in
    (match rl_new_owner queue_result with
     | Some (new_owner_id, new_owner_name) => act (promote client_id new_owner_id name new_owner_name)
     | None =>
         if rl_forward_to_bus queue_result then
           let& unique := get (fun s => unique_name <$> clients s !! client_id) in
           let& result := call_method Container (CallReleaseName name) in
           match result with
           | Ok _ =>
               (match unique with
                | Some u => act (update_table (on_container_name_change name u ""))
                | None => Done tt
                end) &;
               act (update_client client_id (drop_owned name))
           | Err _ => Done tt
           end
         else act (update_client client_id (drop_owned name))
     end) &;
    act (send_reply_to_client client_id msg (BodyU32 (rl_reply_code queue_result)))).

(** The reference count and the call that goes with it. *)
Definition add_upstream_async (route : Route) (rule : string) : Prog unit :=
  let& first := update match_rule_refcount with_refcount (increment (bus_key route) rule) in
  if first then let& _ := call_method route (CallAddMatch rule) in Done tt else Done tt.

Definition remove_upstream_async (route : Route) (rule : string) : Prog unit :=
  let& last := update match_rule_refcount with_refcount (decrement (bus_key route) rule) in
  if last then let& _ := call_method route (CallRemoveMatch rule) in Done tt else Done tt.

Definition handle_add_match_async (client_id : Z) (msg : Message) : Prog unit :=
  with_body_async BStr client_id msg (fun rule_string =>
    match parse rule_string with
    | Err e =>
        act (send_error_to_client client_id msg error_names.MATCH_RULE_INVALID
               ("Invalid match rule: " +:+ match_rule_error_text e))
    | Ok rule =>
        let& _ := update_client client_id (fun info => with_match_rules (cmr_add rule (match_rules info)) info) in
        add_upstream_async Container rule_string &;
        add_upstream_async Host rule_string &;
        act (send_reply_to_client client_id msg BodyUnit)
    end).

(** [info.match_rules.remove(&rule_string)] under the guard of the clients. *)
Definition drop_rule (client_id : Z) (rule_string : string) : M bool :=
  let! cs := get clients in
  match cs !! client_id with
  | Some info =>
      let '(rs, removed) := cmr_remove rule_string (match_rules info) in
      update_client client_id (with_match_rules rs) ;! ret removed
  | None => ret false
  end.

Definition handle_remove_match_async (client_id : Z) (msg : Message) : Prog unit :=
  with_body_async BStr client_id msg (fun rule_string =>
    let& removed := drop_rule client_id rule_string in
    if negb removed then
      act (send_error_to_client client_id msg error_names.MATCH_RULE_NOT_FOUND "Match rule not found")
    else
      remove_upstream_async Container rule_string &;
      remove_upstream_async Host rule_string &;
      act (send_reply_to_client client_id msg BodyUnit)).

Definition forward_method_call_async (client_id : Z) (msg : Message) (route : Route) : Prog (result Error unit) :=
  let client_serial := serial msg in
  let& forwarded_serial := next_serial route in
  match clone_message_with_serial msg forwarded_serial with
  | Err e => Done (Err e)
  | Ok forwarded_msg =>
      let& sent := conn_send route forwarded_msg in
      match sent with
      | Err e => Done (Err e)
      | Ok _ =>
          let& t := now in
          let& _ := modify (fun s => with_serial_map
            (sm_insert t route forwarded_serial client_id client_serial (serials_pending s)) s) in
          Done (Ok tt)
      end
  end.

(** The methods of the daemon that write nothing are one action: where they are
    interrupted does not show in the state. *)
Definition handle_dbus_method_async (client_id : Z) (msg : Message) : Prog unit :=
  let member := default "" (member_str msg) in
  if String.eqb member "RequestName" then handle_request_name_async client_id msg
  else if String.eqb member "ReleaseName" then handle_release_name_async client_id msg
  else if String.eqb member "AddMatch" then handle_add_match_async client_id msg
  else if String.eqb member "RemoveMatch" then handle_remove_match_async client_id msg
  else if bool_decide (member ∈ daemon_methods) then act (handle_dbus_method client_id msg)
  else
    pbind (forward_method_call_async client_id msg Container) (fun r =>
    match r with
    | Ok _ => Done tt
    | Err _ => act (send_error_to_client client_id msg error_names.UNKNOWN_METHOD ("Unknown method: " +:+ member))
    end).

Definition handle_client_message_async (client_id : Z) (msg : Message) : Prog unit :=
  if is_dbus_daemon_call msg && is_method_call msg then handle_dbus_method_async client_id msg
  else
    let destination := default "" (destination_str msg) in
    let& route := router_route_for destination in
    if is_method_call msg then
      pbind (forward_method_call_async client_id msg route) (fun r =>
      match r with
      | Ok _ => Done tt
      | Err e =>
          act (send_error_to_client client_id msg error_names.FAILED ("Failed to forward: " +:+ error_text e))
      end)
    else Done tt.

(** ** Messages of the buses *)

(** A message for a client, under the read guard of the clients. *)
Definition deliver (client_id : Z) (message : ClientInfo -> Multiplexer -> Message) : M unit :=
  let! cs := get clients in
  match cs !! client_id with
  | Some info =>
      let! msg := get (message info) in
      let! _ := send_to client_id msg in ret tt
  | None => ret tt
  end.

Definition handle_bus_reply_async (msg : Message) (route : Route) : Prog unit :=
  let& r := handle_reply msg route in
  match r with
  | Ok (Some (client_id, client_serial)) =>
      (if negb (is_error msg) then
         match extract_request_handle msg with
         | Some request_path =>
             let& t := now in
             act (modify (fun s => with_portal (prt_register t request_path client_id (portal_requests s)) s))
         | None => Done tt
         end
       else Done tt) &;
      act (deliver client_id (fun _ _ =>
        match clone_reply_with_serial msg client_serial with Ok m => m | Err _ => msg end))
  | Ok None => Done tt
  | Err _ => Done tt
  end.

Definition handle_portal_response_async (msg : Message) : Prog bool :=
  if is_portal_response_signal msg then
    match path_str msg with
    | Some path =>
        let& client := update portal_requests with_portal (lookup_and_remove path) in
        match client with
        | Some client_id =>
            act (deliver client_id (fun info s =>
              match clone_portal_response_signal msg (default "" (bc_unique_name (conn Host s))) (unique_name info) with
              | Ok m => m
              | Err _ => msg
              end)) &;
            Done true
        | None => Done false
        end
    | None => Done false
    end
  else Done false.

(** The loop over the clients runs under one read guard. *)
Definition forward_to_matching (msg : Message) (route : Route) : M unit :=
  let! unicast := get (is_unicast_to_mux msg route) in
  let! cs := get clients in
  forward_signal msg unicast cs (clients_order cs).

Definition handle_bus_signal_async (msg : Message) (route : Route) : Prog unit :=
  pbind (handle_portal_response_async msg) (fun handled =>
    if handled then Done tt else act (forward_to_matching msg route)).

Definition handle_bus_message_async (msg : Message) (route : Route) : Prog unit :=
  if is_name_owner_changed msg then
    match parse_name_owner_changed msg with
    | Ok (name, old_owner, new_owner) =>
        match route with
        | Container => act (update_table (on_container_name_change name old_owner new_owner))
        | Host => act (update_table (on_host_name_change name old_owner new_owner))
        end
    | Err _ => Done tt
    end
  else
    (if is_method_return msg || is_error msg then handle_bus_reply_async msg route else Done tt) &;
    (if is_signal msg then handle_bus_signal_async msg route else Done tt).

Definition cleanup_tick_async : Prog unit :=
  let& _ := emit EvTick in
  let& _ := router_cleanup_expired in
  let& t := now in
  let& _ := update portal_requests with_portal (prt_cleanup_expired t) in Done tt.

(** ** The end of a client *)

Fixpoint release_match_rules_async (rs : list string) : Prog unit :=
  match rs with
  | [] => Done tt
  | rule :: rest =>
      remove_upstream_async Container rule &; remove_upstream_async Host rule &; release_match_rules_async rest
  end.

Fixpoint transfer_names_async (unique : string) (results : list (string * option (Z * string))) : Prog unit :=
  match results with
  | [] => Done tt
  | (name, Some (new_owner_id, new_owner_name)) :: rest =>
      let& _ := (update_table (on_container_name_change name unique new_owner_name) ;!
                 update_client new_owner_id (add_owned name)) in
      transfer_names_async unique rest
  | (name, None) :: rest =>
      let& _ := update_table (on_container_name_change name unique "") in
      let& _ := call_method Container (CallReleaseName name) in
      transfer_names_async unique rest
  end.

Fixpoint release_unqueued_async (unique : string) (names : list string) : Prog unit :=
  match names with
  | [] => Done tt
  | name :: rest =>
      let& queue := get name_queue in
      if name_has_owner name queue then release_unqueued_async unique rest
      else
        let& _ := update_table (on_container_name_change name unique "") in
        let& _ := call_method Container (CallReleaseName name) in
        release_unqueued_async unique rest
  end.

(** [clients.remove(&client_id)], with what the client leaves behind. *)
Definition unregister_client (client_id : Z) : M (list string * list string) :=
  let! cs := get clients in
  let remains :=
    match cs !! client_id with
    | Some info => (names_order (owned_names info), rule_strings (match_rules info))
    | None => ([], [])
    end in
  modify (fun s => with_clients (delete client_id (clients s)) s) ;! ret remains.

Definition disconnect_client_async (h : Accepted) : Prog unit :=
  let client_id := ac_client_id h in
  let& remains := unregister_client client_id in
  release_match_rules_async remains.2 &;
  let& _ := update portal_requests with_portal (prt_remove_client client_id) in
  let& queue_results := (fun w =>
    update name_queue with_name_queue
      (remove_client_in (queues_order (name_queue (mux w))) client_id) w) in
  transfer_names_async (ac_unique_name h) queue_results &;
  release_unqueued_async (ac_unique_name h) remains.1.
End Handlers.

(** ** Without interruption *)

Section Atomic.
Context {ZB : Zbus} {ZL : ZbusLaws} {E : Env}.

Lemma atomically_bind {A B} (p : Prog A) (k : A -> Prog B) w :
  atomically (pbind p k) w = bind (atomically p) (fun a => atomically (k a)) w.
Proof. revert w. induction p as [a|f k' IH]; intros w; [done | apply IH]. Qed.

Lemma atomically_act {A} (m : M A) w : atomically (act m) w = m w.
Proof. cbn. unfold ret. by destruct (m w). Qed.

(** Programs that do the same. *)
Definition same {A} (m m' : M A) : Prop := forall w, m w = m' w.

Lemma same_refl {A} (m : M A) : same m m.
Proof. by intros w. Qed.

Lemma same_bind {A B} (m m' : M A) (k k' : A -> M B) :
  same m m' -> (forall a, same (k a) (k' a)) -> same (bind m k) (bind m' k').
Proof. intros Hm Hk w. unfold bind. rewrite Hm. destruct (m' w) as [a w1]. apply Hk. Qed.

Lemma same_pbind {A B} (p : Prog A) (k : A -> Prog B) m k' :
  same (atomically p) m -> (forall a, same (atomically (k a)) (k' a)) ->
  same (atomically (pbind p k)) (bind m k').
Proof. intros Hm Hk w. rewrite atomically_bind. by apply same_bind. Qed.

Lemma same_Act {A B} (m m' : M B) (k : B -> Prog A) k' :
  same m m' -> (forall b, same (atomically (k b)) (k' b)) -> same (atomically (Act m k)) (bind m' k').
Proof. intros Hm Hk w. cbn. unfold bind. rewrite <- Hm. destruct (m w) as [b w1]. apply Hk. Qed.

Lemma same_act {A} (m m' : M A) : same m m' -> same (atomically (act m)) m'.
Proof. intros Hm w. rewrite atomically_act. apply Hm. Qed.

Lemma bind_assoc {A B C} (m : M A) (f : A -> M B) (g : B -> M C) :
  same (bind (bind m f) g) (bind m (fun a => bind (f a) g)).
Proof. intros w. unfold bind. by destruct (m w). Qed.

Lemma same_trans {A} (m1 m2 m3 : M A) : same m1 m2 -> same m2 m3 -> same m1 m3.
Proof. intros H1 H2 w. by rewrite H1. Qed.

(** Compare action by action. *)
Ltac sync :=
  repeat match goal with
    | |- _ => apply same_refl
    | |- same (atomically (act _)) _ => apply same_act
    | |- same (atomically (pbind _ _)) (bind _ _) => apply same_pbind; [| intros ?]
    | |- same (atomically (Act _ _)) (bind _ _) => apply same_Act; [| intros ?]
    | |- same (bind _ _) (bind _ _) => apply same_bind; [| intros ?]
    | |- _ => case_match
    end.

Lemma with_body_same t c msg k k' :
  (forall v, same (atomically (k v)) (k' v)) -> same (atomically (with_body_async t c msg k)) (with_body t c msg k').
Proof. intros Hk. unfold with_body_async, with_body. case_match; [apply Hk | sync]. Qed.

Lemma request_name_same c msg : same (atomically (handle_request_name_async c msg)) (handle_request_name c msg).
Proof.
  unfold handle_request_name_async, handle_request_name. apply with_body_same. intros [name flags].
  apply same_Act; [apply same_refl | intros cs]. case_match; [| sync].
  unfold request_name_as_async, request_name_as, request_on_bus. sync.
Qed.

Lemma release_name_same c msg : same (atomically (handle_release_name_async c msg)) (handle_release_name c msg).
Proof. unfold handle_release_name_async, handle_release_name. apply with_body_same. intros name. sync. Qed.

Lemma add_upstream_same route rule : same (atomically (add_upstream_async route rule)) (add_upstream route rule).
Proof. unfold add_upstream_async, add_upstream. sync. Qed.

Lemma remove_upstream_same route rule : same (atomically (remove_upstream_async route rule)) (remove_upstream route rule).
Proof. unfold remove_upstream_async, remove_upstream. sync. Qed.

Lemma add_match_same c msg : same (atomically (handle_add_match_async c msg)) (handle_add_match c msg).
Proof.
  unfold handle_add_match_async, handle_add_match, install_rule. apply with_body_same. intros rule.
  case_match; [| sync]. apply same_Act; [apply same_refl | intros _].
  apply same_pbind; [apply add_upstream_same | intros _]. apply same_pbind; [apply add_upstream_same | intros _]. sync.
Qed.

Lemma remove_match_same c msg : same (atomically (handle_remove_match_async c msg)) (handle_remove_match c msg).
Proof.
  unfold handle_remove_match_async, handle_remove_match. apply with_body_same. intros rule.
  eapply same_trans; [| apply bind_assoc]. apply same_Act; [apply same_refl | intros removed].
  case_match; [sync |].
  apply same_pbind; [apply remove_upstream_same | intros _]. apply same_pbind; [apply remove_upstream_same | intros _]. sync.
Qed.

Lemma forward_same c msg route :
  same (atomically (forward_method_call_async c msg route)) (forward_method_call c msg route).
Proof. unfold forward_method_call_async, forward_method_call. sync. Qed.

Lemma dbus_method_same c msg : same (atomically (handle_dbus_method_async c msg)) (handle_dbus_method c msg).
Proof.
  unfold handle_dbus_method_async. cbv zeta.
  destruct (String.eqb_spec (default "" (member_str msg)) "RequestName") as [He|_].
  { unfold handle_dbus_method. rewrite He. apply request_name_same. }
  destruct (String.eqb_spec (default "" (member_str msg)) "ReleaseName") as [He|_].
  { unfold handle_dbus_method. rewrite He. apply release_name_same. }
  destruct (String.eqb_spec (default "" (member_str msg)) "AddMatch") as [He|_].
  { unfold handle_dbus_method. rewrite He. apply add_match_same. }
  destruct (String.eqb_spec (default "" (member_str msg)) "RemoveMatch") as [He|_].
  { unfold handle_dbus_method. rewrite He. apply remove_match_same. }
  case_bool_decide as Hd; [sync |]. rewrite dispatch_other by done.
  apply same_pbind; [apply forward_same | intros r]. sync.
Qed.

Lemma client_message_same c msg : same (atomically (handle_client_message_async c msg)) (handle_client_message c msg).
Proof.
  unfold handle_client_message_async, handle_client_message. case_match; [apply dbus_method_same |].
  apply same_Act; [apply same_refl | intros route]. case_match; [| sync].
  apply same_pbind; [apply forward_same | intros r]. sync.
Qed.

Lemma bus_reply_same msg route : same (atomically (handle_bus_reply_async msg route)) (handle_bus_reply msg route).
Proof. unfold handle_bus_reply_async, handle_bus_reply, deliver. sync. Qed.

Lemma portal_response_same msg : same (atomically (handle_portal_response_async msg)) (handle_portal_response msg).
Proof.
  unfold handle_portal_response_async, handle_portal_response. sync.
  intros w. rewrite atomically_bind, <- bind_assoc. revert w. apply same_bind; [sync | intros _; sync].
Qed.

Lemma bus_message_same msg route : same (atomically (handle_bus_message_async msg route)) (handle_bus_message msg route).
Proof.
  unfold handle_bus_message_async, handle_bus_message. case_match; [sync |].
  apply same_pbind; [case_match; [apply bus_reply_same | sync] | intros _]. case_match; [| sync].
  unfold handle_bus_signal_async, handle_bus_signal.
  apply same_pbind; [apply portal_response_same | intros handled]. sync.
Qed.

Lemma cleanup_tick_same : same (atomically cleanup_tick_async) cleanup_tick.
Proof. unfold cleanup_tick_async, cleanup_tick. sync. Qed.

Lemma release_rules_same rs : same (atomically (release_match_rules_async rs)) (release_match_rules rs).
Proof.
  induction rs as [|rule rs IH]; [sync |]. cbn [release_match_rules_async release_match_rules].
  do 2 (apply same_pbind; [apply remove_upstream_same | intros _]). apply IH.
Qed.

(** [let _ = m.await;] *)
Lemma same_ignored {A B} (m : M B) (k : B -> Prog A) k' :
  (forall b, same (atomically (k b)) k') -> same (atomically (Act m k)) (let! _ := (let! _ := m in ret tt) in k').
Proof. intros Hk w. cbn. unfold bind, ret. destruct (m w) as [b w1]. apply Hk. Qed.

Lemma transfer_same unique results : same (atomically (transfer_names_async unique results)) (transfer_names unique results).
Proof.
  induction results as [|[name [[id new]|]] rest IH]; [sync | |]; cbn [transfer_names_async transfer_names].
  - intros w. rewrite <- (bind_assoc (update_table _)). apply same_Act; [apply same_refl | intros _; apply IH].
  - apply same_Act; [apply same_refl | intros _]. apply same_ignored. intros _. apply IH.
Qed.

Lemma unqueued_same unique names : same (atomically (release_unqueued_async unique names)) (release_unqueued unique names).
Proof.
  induction names as [|name rest IH]; [sync |]. cbn [release_unqueued_async release_unqueued].
  intros w. rewrite bind_assoc. revert w. apply same_Act; [apply same_refl | intros queue].
  case_match; [intros w; apply IH |]. intros w. rewrite bind_assoc. revert w.
  apply same_Act; [apply same_refl | intros _]. apply same_ignored. intros _. apply IH.
Qed.

Lemma disconnect_same h : same (atomically (disconnect_client_async h)) (disconnect_client h).
Proof.
  intros w. unfold disconnect_client_async, disconnect_client. cbv zeta.
  rewrite (same_Act _ _ _ _ (same_refl _) (fun _ => same_refl _)). unfold unregister_client.
  rewrite bind_assoc. unfold bind at 1 4, get.
  destruct (match clients (mux w) !! ac_client_id h with Some _ => _ | None => _ end) as [owned rs].
  rewrite bind_assoc. revert w. apply same_bind; [apply same_refl | intros _]. intros w. unfold bind at 1, ret at 1.
  cbn [fst snd]. revert w. apply same_pbind; [apply release_rules_same | intros _]. unfold leave_queues.
  apply same_ignored. intros _. apply same_Act; [apply same_refl | intros results].
  apply same_pbind; [apply transfer_same | intros _; apply unqueued_same].
Qed.
End Atomic.

(** ** Interleaving *)

Section Interleaving.
Context {ZB : Zbus} {E : Env}.

(** What the main loop runs for an input, and what tasks of clients do around
    their handlers. *)
Definition handler_of (i : Input) : Prog unit :=
  match i with
  | InBus route (Ok (Some msg)) => handle_bus_message_async msg route
  | InClient client_id msg => handle_client_message_async client_id msg
  | InTick => cleanup_tick_async
  | _ => Done tt
  end.

Definition task_of (i : Input) : Prog unit :=
  match i with
  | InAccept (Ok h) => act (register_client h)
  | InDisconnect h => disconnect_client_async h
  | _ => Done tt
  end.

(** The state, what is left of the current handler, and what is left of the
    tasks. *)
Record Threads := mkThreads {
  shared : World;
  main_thread : Prog unit;
  task_threads : list (Prog unit);
}.

(** An input is taken up, by the main loop once it is done with the last one or
    by a task; or one of them performs an action.  The label is the input the
    main loop takes up, with the state it is taken up in. *)
Inductive interleave (P : Input -> Prop) : Threads -> option (Input * World) -> Threads -> Prop :=
| il_input i w ts : P i ->
    interleave P (mkThreads w (Done tt) ts) (Some (i, w)) (mkThreads w (handler_of i) ts)
| il_task i w p ts : P i ->
    interleave P (mkThreads w p ts) None (mkThreads w p (ts ++ [task_of i]))
| il_main w f k ts :
    interleave P (mkThreads w (Step f k) ts) None (mkThreads (f w) (k w) ts)
| il_step w p ts1 f k ts2 :
    interleave P (mkThreads w p (ts1 ++ Step f k :: ts2)) None (mkThreads (f w) p (ts1 ++ k w :: ts2)).

Definition interleaved (P : Input -> Prop) (s s' : Threads) : Prop := exists ls, trace (interleave P) s ls s'.

#[export] Instance interleaved_preorder P : PreOrder (interleaved P).
Proof.
  split; [intros s; exists []; constructor |]. intros s1 s2 s3 [l1 H1] [l2 H2]. exists (l1 ++ l2). by eapply trace_app.
Qed.

Lemma interleaved_once P s l s' : interleave P s l s' -> interleaved P s s'.
Proof. intros Hs. exists [l]. econstructor; [exact Hs | constructor]. Qed.

Lemma interleaved_l P s l s1 s2 : interleave P s l s1 -> interleaved P s1 s2 -> interleaved P s s2.
Proof. intros Hs. etrans; [by eapply interleaved_once | done]. Qed.

(** All actions of a program keep an invariant, whatever state that satisfies it
    they find. *)
Fixpoint all_acts {A} (I : Multiplexer -> Prop) (p : Prog A) : Prop :=
  match p with
  | Done _ => True
  | Step f k => forall w, I (mux w) -> I (mux (f w)) /\ all_acts I (k w)
  end.

Lemma all_acts_bind {A B} I (p : Prog A) (k : A -> Prog B) :
  all_acts I p -> (forall a, all_acts I (k a)) -> all_acts I (pbind p k).
Proof. induction p as [a|f k' IH]; intros Hp Hk; [apply Hk |]. intros w Hw. destruct (Hp w Hw) as [Hf Hk']. split; [done |]. by apply IH. Qed.

(** The rest of a program may rely on what the action found out. *)
Lemma all_acts_then {A B} I (Q : B -> Prop) (m : M B) (k : B -> Prog A) :
  (forall w, I (mux w) -> I (mux (m w).2) /\ Q (m w).1) -> (forall b, Q b -> all_acts I (k b)) ->
  all_acts I (Act m k).
Proof. intros Hm Hk w Hw. destruct (Hm w Hw) as [H1 H2]. split; [done | by apply Hk]. Qed.

Lemma all_acts_Act {A B} I (m : M B) (k : B -> Prog A) :
  preserves I m -> (forall b, all_acts I (k b)) -> all_acts I (Act m k).
Proof. intros Hm Hk w Hw. split; [by apply Hm | apply Hk]. Qed.

Lemma all_acts_act {A} I (m : M A) : preserves I m -> all_acts I (act m).
Proof. intros Hm. by apply all_acts_Act. Qed.

(** An invariant that every action of every handler keeps holds at every point
    of every interleaving. *)
Lemma interleaved_invariant (P : Input -> Prop) (I : Multiplexer -> Prop) s s' :
  (forall i, P i -> all_acts I (handler_of i) /\ all_acts I (task_of i)) ->
  I (mux (shared s)) -> all_acts I (main_thread s) -> Forall (all_acts I) (task_threads s) ->
  interleaved P s s' -> I (mux (shared s')).
Proof.
  intros HP. revert s s'.
  enough (forall s s', interleaved P s s' ->
    I (mux (shared s)) /\ all_acts I (main_thread s) /\ Forall (all_acts I) (task_threads s) ->
    I (mux (shared s')) /\ all_acts I (main_thread s') /\ Forall (all_acts I) (task_threads s')) as H.
  { intros s s' HI Hm Ht Hs. by apply (H s s'). }
  intros s s' [ls Htr]. induction Htr as [s|s l s1 ls s2 Hst _ IH]; [done |]. intros (HI & Hm & Ht). apply IH. clear IH.
  destruct Hst as [i w ts Hi|i w p ts Hi|w f k ts|w p ts1 f k ts2]; cbn [shared main_thread task_threads] in *.
  - split_and!; [done | by apply HP | done].
  - split_and!; [done | done |]. apply Forall_app. split; [done |]. constructor; [by apply HP | done].
  - destruct (Hm w HI) as [Hf Hk]. by split_and!.
  - apply Forall_app in Ht as [Ht1 Ht]. apply Forall_cons in Ht as [Ha Ht2]. destruct (Ha w HI) as [Hf Hk].
    split_and!; [done | done |]. apply Forall_app. split; [done |]. by constructor.
Qed.

(** From a state in which nothing is under way. *)
Lemma interleaved_from (P : Input -> Prop) (I : Multiplexer -> Prop) w s :
  (forall i, P i -> all_acts I (handler_of i) /\ all_acts I (task_of i)) ->
  I (mux w) -> interleaved P (mkThreads w (Done tt) []) s -> I (mux (shared s)).
Proof. intros HP Hw Hs. by eapply interleaved_invariant; [.. | exact Hs]. Qed.
End Interleaving.

(** ** Which actions keep an invariant *)

Section Acts.
Context {ZB : Zbus} {ZL : ZbusLaws} {E : Env} (I : Multiplexer -> Prop).

(** What client [c] does to the state is harmless to [I]. *)
Record harmless (c : Z) : Prop := {
  hl_request n u f : preserves I (update name_queue with_name_queue (request_name n c u f));
  hl_release n : preserves I (update name_queue with_name_queue (release_name n c));
  hl_drop_owned name : preserves I (update_client c (drop_owned name));
  hl_add_rule r :
    preserves I (update_client c (fun info => with_match_rules (cmr_add r (match_rules info)) info));
  hl_drop_rule rule : preserves I (drop_rule c rule);
  hl_forward msg route : all_acts I (forward_method_call_async c msg route);
  hl_call msg : preserves I (forward_method_call c msg Container);
  hl_unregister : preserves I (unregister_client c);
  hl_remove : preserves I (fun w => update name_queue with_name_queue
    (remove_client_in (queues_order (name_queue (mux w))) c) w);
}.

Context {T1 : Tolerates with_table I} {T2 : Tolerates with_portal I}
  {T3 : forall name, ToleratesClient (add_owned name) I}.
Hypothesis count_up : forall route rule,
  preserves I (update match_rule_refcount with_refcount (increment (bus_key route) rule)).
Hypothesis count_down : forall route rule,
  preserves I (update match_rule_refcount with_refcount (decrement (bus_key route) rule)).

Lemma acts_forward {T4 : Tolerates with_serial_map I} {T5 : forall route, Tolerates (with_conn route) I} c msg route :
  all_acts I (forward_method_call_async c msg route).
Proof.
  unfold forward_method_call_async, next_serial.
  repeat ((apply all_acts_Act; [walk | intros ?]) || case_match || done).
Qed.

#[local] Hint Resolve preserves_reply preserves_error preserves_forward_signal : frames.

Ltac acts :=
  repeat match goal with
    | |- all_acts _ (Done _) => exact Logic.I
    | |- all_acts _ (act _) => apply all_acts_act
    | |- all_acts _ (Act _ _) => apply all_acts_Act; [| intros ?]
    | |- all_acts _ (pbind _ _) => apply all_acts_bind; [| intros ?]
    | |- preserves _ _ => solve [eauto with frames | walk]
    | |- _ => case_match
    end.

Lemma acts_with_body t c msg k :
  (forall v, all_acts I (k v)) -> all_acts I (with_body_async t c msg k).
Proof. intros Hk. unfold with_body_async. case_match; [apply Hk | acts]. Qed.

Lemma acts_request_name c msg : harmless c -> all_acts I (handle_request_name_async c msg).
Proof.
  intros Hc. pose proof (hl_request c Hc). pose proof (hl_release c Hc). unfold handle_request_name_async.
  apply acts_with_body. intros [name flags]. acts. unfold request_name_as_async, record_owner. acts.
Qed.

Lemma acts_release_name c msg : harmless c -> all_acts I (handle_release_name_async c msg).
Proof.
  intros Hc. pose proof (hl_release c Hc). pose proof (hl_drop_owned c Hc). unfold handle_release_name_async, promote.
  apply acts_with_body. intros name. acts.
Qed.

Lemma acts_add_upstream route rule : all_acts I (add_upstream_async route rule).
Proof. unfold add_upstream_async. acts. Qed.

Lemma acts_remove_upstream route rule : all_acts I (remove_upstream_async route rule).
Proof. unfold remove_upstream_async. acts. Qed.

Lemma acts_add_match c msg : harmless c -> all_acts I (handle_add_match_async c msg).
Proof.
  intros Hc. pose proof (hl_add_rule c Hc). unfold handle_add_match_async. apply acts_with_body. intros rule.
  case_match; [| acts]. apply all_acts_Act; [done | intros _].
  do 2 (apply all_acts_bind; [apply acts_add_upstream | intros _]). acts.
Qed.

Lemma acts_remove_match c msg : harmless c -> all_acts I (handle_remove_match_async c msg).
Proof.
  intros Hc. pose proof (hl_drop_rule c Hc). unfold handle_remove_match_async. apply acts_with_body. intros rule.
  apply all_acts_Act; [done | intros removed]. case_match; [acts |].
  do 2 (apply all_acts_bind; [apply acts_remove_upstream | intros _]). acts.
Qed.

Lemma acts_dbus_method c msg : harmless c -> all_acts I (handle_dbus_method_async c msg).
Proof.
  intros Hc. unfold handle_dbus_method_async. cbv zeta.
  destruct (String.eqb_spec (default "" (member_str msg)) "RequestName"); [by apply acts_request_name |].
  destruct (String.eqb_spec (default "" (member_str msg)) "ReleaseName"); [by apply acts_release_name |].
  destruct (String.eqb_spec (default "" (member_str msg)) "AddMatch"); [by apply acts_add_match |].
  destruct (String.eqb_spec (default "" (member_str msg)) "RemoveMatch"); [by apply acts_remove_match |].
  case_bool_decide.
  - apply all_acts_act, preserves_other_method; [by apply hl_call |].
    unfold state_methods. rewrite !elem_of_cons, elem_of_nil. tauto.
  - apply all_acts_bind; [by apply hl_forward | intros r]. acts.
Qed.

Lemma acts_client_message c msg : harmless c -> all_acts I (handle_client_message_async c msg).
Proof.
  intros Hc. unfold handle_client_message_async. case_match; [by apply acts_dbus_method |].
  apply all_acts_Act; [unfold router_route_for; walk | intros route]. case_match; [| acts].
  apply all_acts_bind; [by apply hl_forward | intros r]. acts.
Qed.

Lemma preserves_deliver c message : preserves I (deliver c message).
Proof. unfold deliver. walk. Qed.

Lemma acts_bus_message msg route :
  (forall m r, preserves I (handle_reply m r)) -> all_acts I (handle_bus_message_async msg route).
Proof.
  intros Hr. pose proof preserves_deliver. unfold handle_bus_message_async. case_match; [acts |].
  apply all_acts_bind; [case_match; [unfold handle_bus_reply_async | done]; acts | intros _].
  case_match; [unfold handle_bus_signal_async, handle_portal_response_async, forward_to_matching | done]. acts.
Qed.

Lemma acts_tick : preserves I router_cleanup_expired -> all_acts I cleanup_tick_async.
Proof. intros Hc. unfold cleanup_tick_async. acts. Qed.

Lemma acts_release_rules rs : all_acts I (release_match_rules_async rs).
Proof.
  induction rs as [|rule rs IH]; cbn [release_match_rules_async]; [done |].
  do 2 (apply all_acts_bind; [apply acts_remove_upstream | intros _]). apply IH.
Qed.

Lemma acts_transfer unique results : all_acts I (transfer_names_async unique results).
Proof. induction results as [|[name [[id new]|]] rest IH]; cbn [transfer_names_async]; [done | |]; acts; exact IH. Qed.

Lemma acts_unqueued unique names : all_acts I (release_unqueued_async unique names).
Proof. induction names as [|name rest IH]; cbn [release_unqueued_async]; [done |]; acts; exact IH. Qed.

Lemma acts_disconnect h : harmless (ac_client_id h) -> all_acts I (disconnect_client_async h).
Proof.
  intros Hc. unfold disconnect_client_async. apply all_acts_Act; [by apply hl_unregister | intros remains].
  apply all_acts_bind; [apply acts_release_rules | intros _]. apply all_acts_Act; [walk | intros _].
  apply all_acts_Act; [by apply hl_remove | intros results].
  apply all_acts_bind; [apply acts_transfer | intros _; apply acts_unqueued].
Qed.
End Acts.

(** ** The invariants *)

Section Invariants.
Context {ZB : Zbus} {ZL : ZbusLaws} {E : Env} {EL : EnvLaws}.

Lemma preserves_unregister I c :
  (forall s, I s -> I (with_clients (delete c (clients s)) s)) -> preserves I (unregister_client c).
Proof.
  intros HI. unfold unregister_client. apply preserves_bind; [walk | intros cs]. cbv zeta.
  apply preserves_bind; [| intros _; walk]. by apply preserves_modify.
Qed.

(** All that inputs of the kind [P] start keeps [I]. *)
Lemma acts_inputs (P : Input -> Prop) (I : Multiplexer -> Prop)
    {T1 : Tolerates with_table I} {T2 : Tolerates with_portal I} {T3 : forall name, ToleratesClient (add_owned name) I} :
  (forall route rule, preserves I (update match_rule_refcount with_refcount (increment (bus_key route) rule))) ->
  (forall route rule, preserves I (update match_rule_refcount with_refcount (decrement (bus_key route) rule))) ->
  (forall m r, preserves I (handle_reply m r)) -> preserves I router_cleanup_expired ->
  (forall c msg, P (InClient c msg) -> harmless I c) ->
  (forall h, P (InDisconnect h) -> harmless I (ac_client_id h)) ->
  (forall h, P (InAccept (Ok h)) -> preserves I (register_client h)) ->
  forall i, P i -> all_acts I (handler_of i) /\ all_acts I (task_of i).
Proof.
  intros Hup Hdown Hr Hc Hm Hd Ha i Hi.
  destruct i as [[h|e]|h|route [[msg|]|e]|c msg|]; split; try done; cbn [handler_of task_of].
  - by apply all_acts_act, Ha.
  - by apply acts_disconnect; auto.
  - by apply acts_bus_message.
  - apply acts_client_message; eauto.
  - by apply acts_tick.
Qed.

(** *** Names *)

Definition names_wf (s : Multiplexer) : Prop := clients_named s /\ manager_ok (name_queue s).

#[local] Instance names_wf_table : Tolerates with_table names_wf.
Proof. by intros x s. Qed.
#[local] Instance names_wf_serial_map : Tolerates with_serial_map names_wf.
Proof. by intros x s. Qed.
#[local] Instance names_wf_conn route : Tolerates (with_conn route) names_wf.
Proof. by intros x s. Qed.
#[local] Instance names_wf_refcount : Tolerates with_refcount names_wf.
Proof. by intros x s. Qed.
#[local] Instance names_wf_portal : Tolerates with_portal names_wf.
Proof. by intros x s. Qed.

Lemma names_wf_client f : (forall i, unique_name (f i) = unique_name i) -> ToleratesClient f names_wf.
Proof.
  intros Hf c s [Hn Hm]. split; [| done]. intros c' i'. cbn [clients with_clients].
  rewrite lookup_alter_Some. intros [(<- & i & Hi & ->)|[_ Hi]]; [rewrite Hf |]; by apply Hn.
Qed.

#[local] Instance names_wf_add_owned name : ToleratesClient (add_owned name) names_wf.
Proof. by apply names_wf_client. Qed.
#[local] Instance names_wf_drop_owned name : ToleratesClient (drop_owned name) names_wf.
Proof. by apply names_wf_client. Qed.
#[local] Instance names_wf_match_rules r : ToleratesClient (with_match_rules r) names_wf.
Proof. by apply names_wf_client. Qed.
#[local] Instance names_wf_add_rule r :
  ToleratesClient (fun info => with_match_rules (cmr_add r (match_rules info)) info) names_wf.
Proof. by apply names_wf_client. Qed.

Lemma names_wf_harmless c : harmless names_wf c.
Proof.
  assert (forall s, names_wf s -> manager_ok (name_queue s)) as Hm by (by intros s [_ ?]).
  assert (forall s q, names_wf s -> manager_ok q -> names_wf (with_name_queue q s)) as Hq by (by intros s q [? _] ?).
  split.
  - intros n u f. apply preserves_queue_request; auto.
  - intros n. apply preserves_queue_release; auto.
  - intros name. apply preserves_client, _.
  - intros r. apply preserves_client, _.
  - intros rule. unfold drop_rule. walk.
  - apply acts_forward; apply _.
  - intros msg. apply preserves_forward; apply _.
  - apply preserves_unregister. intros s [Hn Hq']. split; [| done].
    intros c' i. cbn [clients with_clients]. rewrite lookup_delete_Some. intros [_ Hi]. by apply Hn.
  - apply preserves_queue_remove; auto.
Qed.

Lemma names_wf_register h : input_ok (InAccept (Ok h)) -> preserves names_wf (register_client h).
Proof.
  intros [Hr Hh]. apply preserves_modify. intros s [Hn Hm]. split; [| done]. intros c info.
  cbn [clients with_clients]. rewrite lookup_insert_Some. intros [[<- <-]|[_ Hi]]; [done | by apply Hn].
Qed.

Lemma names_wf_inputs i : input_ok i -> all_acts names_wf (handler_of i) /\ all_acts names_wf (task_of i).
Proof.
  apply (acts_inputs input_ok names_wf).
  - intros route rule. apply preserves_update, _.
  - intros route rule. apply preserves_update, _.
  - intros msg route. apply preserves_handle_reply, _.
  - unfold router_cleanup_expired. walk.
  - intros c msg _. apply names_wf_harmless.
  - intros h _. apply names_wf_harmless.
  - apply names_wf_register.
Qed.

(** *** Match rules *)

Lemma rules_ok_drop_rule c rule : preserves rules_ok (drop_rule c rule).
Proof.
  intros w Hw. unfold drop_rule, bind, get. destruct (clients (mux w) !! c) as [info|] eqn:Hc; [| done].
  pose proof (cmr_remove_strings rule (match_rules info)) as Hs.
  destruct (cmr_remove rule (match_rules info)) as [rs removed]. cbn [fst] in Hs.
  eapply rules_ok_fewer; [done | | done]. rewrite Hs. apply sublist_filter.
Qed.

Lemma rules_ok_harmless c : harmless rules_ok c.
Proof.
  split; try (intros; solve [walk]).
  - apply rules_ok_drop_rule.
  - apply acts_forward; apply _.
  - apply preserves_unregister. intros s [Hok Hn]. split; [done |].
    intros c' i. cbn [clients with_clients]. rewrite lookup_delete_Some. intros [_ Hi]. by eapply Hn.
  - intros w Hw. by apply preserves_update; [apply _ |].
Qed.

Lemma rules_ok_inputs i : input_ok i -> all_acts rules_ok (handler_of i) /\ all_acts rules_ok (task_of i).
Proof.
  apply (acts_inputs input_ok rules_ok).
  - intros route rule. apply rules_ok_increment.
  - intros route rule. apply rules_ok_decrement.
  - intros msg route. apply preserves_handle_reply, _.
  - unfold router_cleanup_expired. walk.
  - intros c msg _. apply rules_ok_harmless.
  - intros h _. apply rules_ok_harmless.
  - intros h _. apply input_preserves_accept, rules_ok_input.
Qed.
(** *** Serials *)

Lemma serials_ok_next route w :
  serials_ok (mux w) ->
  serials_ok (mux (next_serial route w).2) /\ 1 <= (next_serial route w).1 < u32_modulus.
Proof.
  intros (Hg & Hp & Ht). unfold next_serial, update.
  pose proof (next_upcoming (serial_gen (conn route (mux w)))) as Hn.
  pose proof (next_counter _ (Hg route)) as Hc. pose proof (upcoming_range _ (Hg route)) as Hr.
  destruct (next (serial_gen (conn route (mux w)))) as [g fs]. cbn [fst snd mux] in *. subst fs.
  split; [| lia]. split_and!.
  - intros r. rewrite conn_with_conn. case_decide; [exact Hc | apply Hg].
  - by destruct route.
  - by destruct route.
Qed.

Lemma serials_ok_insert t route fs c (n : Z) s :
  1 <= fs < u32_modulus -> 1 <= n < u32_modulus -> serials_ok s ->
  serials_ok (with_serial_map (sm_insert t route fs c n (serials_pending s)) s).
Proof.
  intros Hf Hn (Hg & Hp & Ht). split_and!; [| | done].
  - intros r. rewrite conn_with_serial_map. apply Hg.
  - intros k p. cbn. rewrite lookup_insert_Some. intros [[<- <-]|[_ Hk]]; [done | by apply Hp].
Qed.

Lemma serials_ok_harmless c : harmless serials_ok c.
Proof.
  split; try (intros; solve [walk | unfold drop_rule; walk]).
  - intros msg route. unfold forward_method_call_async.
    apply (all_acts_then _ (fun fs => 1 <= fs < u32_modulus)); [apply serials_ok_next | intros fs Hfs]. case_match; [| done].
    apply all_acts_Act; [walk | intros sent]. case_match; [| done].
    apply all_acts_Act; [walk | intros t]. apply all_acts_Act; [| done].
    apply preserves_modify. intros s. apply serials_ok_insert; [done | apply serial_num_range].
  - intros msg. apply serials_ok_forward.
  - intros w Hw. by apply preserves_update; [apply _ |].
Qed.

Lemma serials_ok_inputs i : input_ok i -> all_acts serials_ok (handler_of i) /\ all_acts serials_ok (task_of i).
Proof.
  apply (acts_inputs input_ok serials_ok).
  - intros route rule. apply preserves_update, _.
  - intros route rule. apply preserves_update, _.
  - apply serials_ok_reply.
  - apply serials_ok_cleanup.
  - intros c msg _. apply serials_ok_harmless.
  - intros h _. apply serials_ok_harmless.
  - intros h _. apply input_preserves_accept, serials_ok_input.
Qed.
(** *** Other clients *)

Lemma kept_harmless (D : Z -> Prop) `{forall c, Decision (D c)} s0 c : ~ D c -> harmless (kept D s0) c.
Proof.
  intros Hc. split.
  - intros n u f. by apply kept_request.
  - intros n. by apply kept_release.
  - intros name. by apply kept_alter.
  - intros r. by apply kept_alter.
  - intros rule. assert (forall f, preserves (kept D s0) (update_client c f)) by (intros f; by apply kept_alter).
    unfold drop_rule. walk.
  - apply acts_forward; apply _.
  - intros msg. apply preserves_forward; apply _.
  - apply preserves_unregister. intros s Hs. apply (kept_other _ _ _ c); [done | done |].
    intros d Hd. by rewrite lookup_delete_ne.
  - by apply kept_remove.
Qed.

Lemma kept_inputs (D : Z -> Prop) `{forall c, Decision (D c)} s0 i :
  (forall d, D d -> not_from d i) -> all_acts (kept D s0) (handler_of i) /\ all_acts (kept D s0) (task_of i).
Proof.
  apply (acts_inputs (fun i => forall d, D d -> not_from d i) (kept D s0)).
  - intros route rule. apply preserves_update, _.
  - intros route rule. apply preserves_update, _.
  - intros msg route. apply preserves_handle_reply, _.
  - unfold router_cleanup_expired. walk.
  - intros c msg Hi. apply kept_harmless. naive_solver.
  - intros h Hi. apply kept_harmless. naive_solver.
  - intros h Hi. apply input_preserves_accept, kept_input. done.
Qed.
End Invariants.

(** ** Schedules *)

Section Schedules.
Context {ZB : Zbus} {ZL : ZbusLaws} {E : Env} {EL : EnvLaws}.

(** Who goes next. *)
Inductive Choice :=
| ChInput (i : Input)
| ChTask (i : Input)
| ChMain
| ChStep (task : nat).

Definition perform (p : Prog unit) (w : World) : World * Prog unit :=
  match p with
  | Done a => (w, Done a)
  | Step f k => (f w, k w)
  end.

Definition choose (c : Choice) (s : Threads) : Threads :=
  match c with
  | ChInput i =>
      match main_thread s with
      | Done _ => mkThreads (shared s) (handler_of i) (task_threads s)
      | Step _ _ => s
      end
  | ChTask i => mkThreads (shared s) (main_thread s) (task_threads s ++ [task_of i])
  | ChMain => let '(w, p) := perform (main_thread s) (shared s) in mkThreads w p (task_threads s)
  | ChStep n =>
      match task_threads s !! n with
      | Some p =>
          let '(w, p') := perform p (shared s) in mkThreads w (main_thread s) (<[n := p']> (task_threads s))
      | None => s
      end
  end.

Definition schedule (cs : list Choice) (s : Threads) : Threads := fold_left (fun s c => choose c s) cs s.

Definition chosen (P : Input -> Prop) (c : Choice) : Prop :=
  match c with ChInput i | ChTask i => P i | _ => True end.

(** The steps a choice comes to; a choice of somebody who has nothing to do is
    passed over. *)
Definition choice_labels (c : Choice) (s : Threads) : list (option (Input * World)) :=
  match c with
  | ChInput i => match main_thread s with Done _ => [Some (i, shared s)] | Step _ _ => [] end
  | ChTask _ => [None]
  | ChMain => match main_thread s with Done _ => [] | Step _ _ => [None] end
  | ChStep n => match task_threads s !! n with Some (Step _ _) => [None] | _ => [] end
  end.

Fixpoint schedule_labels (cs : list Choice) (s : Threads) : list (option (Input * World)) :=
  match cs with
  | [] => []
  | c :: rest => choice_labels c s ++ schedule_labels rest (choose c s)
  end.

Lemma choose_trace P c s : chosen P c -> trace (interleave P) s (choice_labels c s) (choose c s).
Proof.
  assert (forall s1 l s2, interleave P s1 l s2 -> trace (interleave P) s1 [l] s2) as H1
    by (intros; econstructor; [done | constructor]).
  intros Hc. destruct s as [w p ts], c as [i|i| |n]; cbn [choose choice_labels main_thread shared task_threads] in *.
  - destruct p as [[]|f k]; [by apply H1, il_input | constructor].
  - by apply H1, (il_task _ i).
  - destruct p as [a|f k]; [constructor | apply H1, il_main].
  - destruct (ts !! n) as [q|] eqn:Hn; [| constructor]. destruct q as [a|f k]; cbn [perform].
    + rewrite list_insert_id by done. constructor.
    + rewrite insert_take_drop by (by eapply lookup_lt_Some).
      rewrite <- (take_drop_middle ts n _ Hn) at 1. apply H1, il_step.
Qed.

Lemma schedule_trace P cs s :
  Forall (chosen P) cs -> trace (interleave P) s (schedule_labels cs s) (schedule cs s).
Proof.
  intros Hcs. revert s. induction Hcs as [|c cs Hc _ IH]; intros s; [constructor |].
  eapply trace_app; [by apply choose_trace | apply IH].
Qed.

Lemma schedule_interleaved P cs s : Forall (chosen P) cs -> interleaved P s (schedule cs s).
Proof. intros Hcs. eexists. by apply schedule_trace. Qed.

(** ** Sequential runs *)

Lemma main_runs P w p ts : interleaved P (mkThreads w p ts) (mkThreads (atomically p w).2 (Done tt) ts).
Proof.
  revert w. induction p as [[]|f k IH]; intros w; [done |]. eapply interleaved_l; [apply il_main |]. apply IH.
Qed.

Lemma task_runs P w q ts p :
  interleaved P (mkThreads w q (ts ++ [p])) (mkThreads (atomically p w).2 q (ts ++ [Done tt])).
Proof.
  revert w. induction p as [[]|f k IH]; intros w; [done |]. eapply interleaved_l; [apply il_step |]. apply IH.
Qed.

Lemma run_step_atomically i w :
  (run_step i w).2 = (atomically (task_of i) (atomically (handler_of i) w).2).2.
Proof.
  destruct i as [[h|e]|h|route [[msg|]|e]|c msg|]; cbn [run_step handler_of task_of]; try done.
  - cbn [atomically]. unfold bind, ret at 2. cbn [snd]. rewrite disconnect_same. by destruct (disconnect_client h w).
  - cbn [atomically]. unfold bind. rewrite bus_message_same. by destruct (handle_bus_message msg route w).
  - cbn [atomically]. unfold bind. rewrite client_message_same. by destruct (handle_client_message c msg w).
Qed.

Lemma run_step_interleaves P i w ts :
  P i ->
  interleaved P (mkThreads w (Done tt) ts) (mkThreads (run_step i w).2 (Done tt) (ts ++ [Done tt])).
Proof.
  intros Hi. eapply interleaved_l; [by apply (il_input P i) |]. etrans; [apply main_runs |].
  eapply interleaved_l; [by apply (il_task P i) |]. rewrite run_step_atomically. apply task_runs.
Qed.

Lemma run_interleaves P inputs w ts :
  Forall P inputs ->
  exists ts', interleaved P (mkThreads w (Done tt) ts) (mkThreads (run inputs w).2 (Done tt) (ts ++ ts')) /\
    Forall (eq (Done tt)) ts'.
Proof.
  intros Hin. revert w ts. induction Hin as [|i inputs Hi _ IH]; intros w ts.
  { exists []. rewrite app_nil_r. by split; [reflexivity |]. }
  pose proof (run_step_interleaves P i w ts Hi) as Hstep. cbn [run]. unfold bind at 1.
  destruct (run_step i w) as [[e|] w1]; cbn [snd] in Hstep.
  - exists [Done tt]. split; [done | by repeat constructor].
  - destruct (IH w1 (ts ++ [Done tt])) as (ts' & Hr & Hd). exists (Done tt :: ts').
    split; [| by constructor]. rewrite cons_middle, app_assoc. by etrans.
Qed.

(** ** Theorems *)

(** The handlers as programs over atomic actions are the handlers: the
    run of the main loop over any inputs, one after the other, is one of the
    interleavings, and at its end nothing is left half done.  So what holds of
    all interleavings holds of [run]. *)
Lemma sequential_runs_interleave P inputs w :
  Forall P inputs ->
  exists ts, interleaved P (mkThreads w (Done tt) []) (mkThreads (run inputs w).2 (Done tt) ts) /\
    Forall (eq (Done tt)) ts.
Proof. intros Hin. exact (run_interleaves P inputs w [] Hin). Qed.

(** C9. However the handler of the main loop, the ends of clients and the
    registration of new ones interrupt each other, between any two actions:
    clients carry the names that go with their ids, queues of names and
    reference counts are well formed, a client's rules are distinct, and serial
    numbers in flight are in range. *)
Theorem interleaved_states_wf w s :
  wf_mux (mux w) -> interleaved input_ok (mkThreads w (Done tt) []) s ->
  clients_named (mux (shared s)) /\ manager_ok (name_queue (mux (shared s))) /\
  rules_ok (mux (shared s)) /\ serials_ok (mux (shared s)).
Proof.
  intros [(Hn & Hm & _) Hr Hs] Hil.
  assert (names_wf (mux (shared s))) as [? ?] by (by eapply interleaved_from; [apply names_wf_inputs | |]).
  split_and!; [done | done | |].
  - eapply interleaved_from; [apply rules_ok_inputs | exact Hr | exact Hil].
  - eapply interleaved_from; [apply serials_ok_inputs | exact Hs | exact Hil].
Qed.

(** C10. Isolation under interruption: whatever the other clients, the buses
    and the clock do, and wherever their handlers interrupt each other, the
    clients of a set [D] keep their unique names, match rules, credentials and
    the names they own, stay connected (or absent), and keep their places in
    the queue of every name: nobody outside [D] can remove one of them from a
    queue, add one, or make one overtake another. *)
Theorem interleaved_clients_isolated (D : Z -> Prop) `{forall c, Decision (D c)} w s :
  manager_ok (name_queue (mux w)) ->
  interleaved (fun i => forall d, D d -> not_from d i) (mkThreads w (Done tt) []) s ->
  let s' := mux (shared s) in
  (forall d, D d -> record_kept (clients (mux w) !! d) (clients s' !! d)) /\
  (forall name, places D (owners (name_queue s') name) = places D (owners (name_queue (mux w)) name)).
Proof.
  intros Hm Hil. cut (kept D (mux w) (mux (shared s))); [by intros (_ & ? & ?) |].
  eapply interleaved_from; [apply (kept_inputs D) | | exact Hil].
  split_and!; [done | intros; apply record_kept_refl | done].
Qed.
End Schedules.

(** ** Witnesses *)

Section Witnesses.
#[local] Existing Instance SimpleZbus.
#[local] Existing Instance SimpleZbusLaws.
#[local] Existing Instance SimpleEnv.

#[local] Instance ex_simple_laws : EnvLaws.
Proof. apply env_with_laws. Qed.

Definition ex_idle (w : World) : Threads := mkThreads w (Done tt) [].

Definition ex_finished (p : Prog unit) : bool := match p with Done _ => true | Step _ _ => false end.

(** The first client leaves when the handler of its RequestName has just read
    its unique name. *)
Definition ex_preempted : list Choice :=
  [ChInput (InClient 1 (s_call ":mux.1" 2 "org.freedesktop.DBus" "RequestName" (s_str_u32 "org.b" 0))); ChMain;
   ChTask (InDisconnect ex_first); ChStep 0; ChStep 0; ChStep 0; ChMain; ChMain; ChMain; ChMain].

Lemma interleaved_states_wf_witness :
  let s := schedule ex_preempted (ex_idle ex_started) in
  get_primary_owner "org.b" (name_queue (mux (shared s))) = Some (1, ":mux.1") /\
  clients (mux (shared s)) !! 1 = None /\ forallb ex_finished (main_thread s :: task_threads s) = true /\
  manager_ok (name_queue (mux (shared s))) /\ serials_ok (mux (shared s)).
Proof.
  intros s. assert (interleaved input_ok (ex_idle ex_started) s) as Hil
    by (apply schedule_interleaved; by repeat constructor).
  destruct (interleaved_states_wf _ _ ex_started_wf Hil) as (_ & Hm & _ & Hs).
  refine (conj _ (conj _ (conj _ (conj Hm Hs)))); vm_compute; reflexivity.
Defined.

(** A second client asks for the first one's name and leaves before its handler
    is done. *)
Definition ex_intruder : list Choice :=
  let h := mkAccepted 2 ":mux.2" (mkClientCredentials 1000 (Some 43) 1000) in
  [ChTask (InAccept (Ok h)); ChStep 0;
   ChInput (InClient 2 (s_call ":mux.2" 2 "org.freedesktop.DBus" "RequestName" (s_str_u32 "org.a" 2))); ChMain;
   ChTask (InDisconnect h); ChStep 1; ChMain; ChStep 1; ChMain; ChStep 1].

Lemma interleaved_clients_isolated_witness :
  let s := mux (shared (schedule ex_intruder (ex_idle ex_owner))) in
  record_kept (clients (mux ex_owner) !! 1) (clients s !! 1) /\
  places (fun c => c = 1) (owners (name_queue s) "org.a") = [mkQueueEntry 1 ":mux.1" false].
Proof.
  destruct (interleaved_clients_isolated (fun c => c = 1) ex_owner (schedule ex_intruder (ex_idle ex_owner)))
    as [H1 H2].
  - apply (bool_decide_unpack _). vm_compute. exact Logic.I.
  - apply schedule_interleaved. repeat constructor; by intros d ->.
  - split; [by apply H1 | exact (H2 "org.a")].
Defined.
End Witnesses.
