(* ===== verification/InterleaveRules.v ===== *)
(** * Match rules when handlers are interrupted

    The handlers of AddMatch and RemoveMatch and the end of a client change the
    rules of a client under one lock and the reference counts under another
    (src/src/multiplexer.rs), so between their actions the counts and the rules
    do not agree, and [RaceRules] shows that a reference can be lost for a
    while or leak.  Here every interrupted handler has an account of the
    references it still has to take and of the calls it still has to make; with
    all accounts added the books balance at every point of every interleaving,
    and between two inputs of the main loop no rule of a connected client is
    missing on a bus. *)

From S2P Require Import Prelude RustStr Zbus SimpleZbus Errors Message Routing NameQueue SerialMap MatchRules MatchRuleProofs Portal World SimpleEnv Router Multiplexer MuxRules Interleave.

#[local] Open Scope Z_scope.

(** ** Programs that have nothing to do with match rules *)

Create HintDb quiet.

Section Quiet.
Context {ZB : Zbus} {ZL : ZbusLaws} {E : Env}.

(** Every action of a program is a step of [R]. *)
Fixpoint all_steps {A} (R : World -> World -> Prop) (p : Prog A) : Prop :=
  match p with
  | Done _ => True
  | Step f k => forall w, R w (f w) /\ all_steps R (k w)
  end.

Definition quiet {A} (p : Prog A) : Prop := all_steps same_rules p.

Lemma quiet_pbind {A B} (p : Prog A) (k : A -> Prog B) : quiet p -> (forall a, quiet (k a)) -> quiet (pbind p k).
Proof. induction p as [a|f k' IH]; intros Hp Hk; [apply Hk |]. intros w. destruct (Hp w). split; [done | by apply IH]. Qed.

Lemma quiet_Act {A B} (m : M B) (k : B -> Prog A) : keeps m -> (forall b, quiet (k b)) -> quiet (Act m k).
Proof. intros Hm Hk w. split; [apply Hm | apply Hk]. Qed.

Lemma quiet_act {A} (m : M A) : keeps m -> quiet (act m).
Proof. intros Hm. by apply quiet_Act. Qed.

Lemma keeps_next_serial route : keeps (next_serial route).
Proof. unfold next_serial. apply keeps_update. intros x s. by destruct route. Qed.

Lemma keeps_deliver c message : keeps (deliver c message).
Proof. unfold deliver. keep. Qed.

#[local] Hint Resolve keeps_reply keeps_error keeps_handle_reply keeps_next_serial keeps_deliver keeps_conn_send
  keeps_now keeps_table keeps_send keeps_forward keeps_client_method : quiet.

Ltac hush :=
  repeat match goal with
    | |- quiet (Done _) => exact Logic.I
    | |- quiet (act _) => apply quiet_act
    | |- quiet (Act _ _) => apply quiet_Act; [| intros ?]
    | |- quiet (pbind _ _) => apply quiet_pbind; [| intros ?]
    | |- keeps _ => solve [eauto with quiet | keep | intros w; by apply keeps_update]
    | |- _ => case_match
    end.

Lemma quiet_with_body t c msg k : (forall v, quiet (k v)) -> quiet (with_body_async t c msg k).
Proof. intros Hk. unfold with_body_async. case_match; [apply Hk | hush]. Qed.

Lemma quiet_request_name c msg : quiet (handle_request_name_async c msg).
Proof. apply quiet_with_body. intros [name flags]. unfold request_name_as_async, record_owner. hush. Qed.

Lemma quiet_release_name c msg : quiet (handle_release_name_async c msg).
Proof. apply quiet_with_body. intros name. unfold promote. hush. Qed.

Lemma quiet_forward c msg route : quiet (forward_method_call_async c msg route).
Proof. unfold forward_method_call_async. cbv zeta. hush. Qed.

Lemma quiet_bus_message msg route : quiet (handle_bus_message_async msg route).
Proof.
  unfold handle_bus_message_async, handle_bus_reply_async, handle_bus_signal_async, handle_portal_response_async,
    forward_to_matching.
  pose proof keeps_forward_signal. hush.
Qed.

Lemma quiet_tick : quiet cleanup_tick_async.
Proof. unfold cleanup_tick_async, router_cleanup_expired. apply quiet_Act; [by apply keeps_emit | intros _]. hush. Qed.

Lemma quiet_transfer unique results : quiet (transfer_names_async unique results).
Proof. induction results as [|[name [[id new]|]] rest IH]; cbn [transfer_names_async]; hush; exact IH. Qed.

Lemma quiet_unqueued unique names : quiet (release_unqueued_async unique names).
Proof. induction names as [|name rest IH]; cbn [release_unqueued_async]; hush; exact IH. Qed.

(** All methods of the daemon but two. *)
Lemma quiet_dbus_method c msg :
  default "" (member_str msg) <> "AddMatch" -> default "" (member_str msg) <> "RemoveMatch" ->
  quiet (handle_dbus_method_async c msg).
Proof.
  intros Ha Hr. unfold handle_dbus_method_async. cbv zeta.
  rewrite (proj2 (String.eqb_neq _ "AddMatch") Ha), (proj2 (String.eqb_neq _ "RemoveMatch") Hr).
  case_match; [apply quiet_request_name |]. case_match; [apply quiet_release_name |].
  case_match; [hush |]. apply quiet_pbind; [apply quiet_forward | intros r]. hush.
Qed.
End Quiet.

(** ** Accounts *)

(** The accounts are for one rule on one bus; [l0] is the log at the start. *)
Section Accounts.
Context {ZB : Zbus} {ZL : ZbusLaws} {E : Env} (l0 : list Event) (route : Route) (rule : string).

(** [owed] references will still be taken (given back, when negative), and
    [due] calls will still go out. *)
Record books (owed due : Z) (w : World) : Prop := mkBooks {
  bk_rules : counts_ok (match_rule_refcount (mux w));
  bk_nodup c info : clients (mux w) !! c = Some info -> NoDup (rule_strings (match_rules info));
  bk_users : users rule (clients (mux w)) <= Z.of_nat (referenced route rule (mux w)) + owed;
  bk_calls : exists evs, log w = l0 ++ evs /\
    net route rule evs + due = if decide (0 < referenced route rule (mux w))%nat then 1 else 0;
}.

Lemma books_same owed due w w' : same_rules w w' -> books owed due w -> books owed due w'.
Proof.
  intros Hs [H1 H2 H3 (evs0 & Hl & Hnet)]. pose proof (same_rules_nodup _ _ Hs H2) as H2'.
  destruct Hs as [Hr Hc (evs & Hl' & Hn)]. split; unfold referenced in *; rewrite ?Hr; [done | done | |].
  - by rewrite (users_ext rule _ _ Hc).
  - exists (evs0 ++ evs). split; [by rewrite Hl', Hl, app_assoc |]. rewrite net_app, Hn. lia.
Qed.

(** A program with an account that stays within [ok], whatever the accounts of
    the others and whenever it is interrupted, and that ends with [Q]. *)
Fixpoint pays {A} (ok : Z -> Z -> Prop) (p : Prog A) (Q : A -> Z -> Z -> Prop) (owed due : Z) : Prop :=
  ok owed due /\
  match p with
  | Done a => Q a owed due
  | Step f k => forall w owed_others due_others,
      books (owed_others + owed) (due_others + due) w ->
      exists owed' due', books (owed_others + owed') (due_others + due') (f w) /\ pays ok (k w) Q owed' due'
  end.

Lemma pays_ok {A} ok (p : Prog A) Q owed due : pays ok p Q owed due -> ok owed due.
Proof. destruct p; by intros [? _]. Qed.

Lemma pays_bind {A B} ok (p : Prog A) (k : A -> Prog B) Q owed due :
  pays ok p (fun a => pays ok (k a) Q) owed due -> pays ok (pbind p k) Q owed due.
Proof.
  revert owed due. induction p as [a|f k' IH]; intros owed due [Hok Hp]; [exact Hp |].
  split; [done |]. intros w oo do Hb. destruct (Hp w oo do Hb) as (o' & d' & Hb' & Hk). exists o', d'.
  split; [done | by apply IH].
Qed.

Lemma pays_mono {A} ok (p : Prog A) (Q Q' : A -> Z -> Z -> Prop) owed due :
  (forall a o d, ok o d -> Q a o d -> Q' a o d) -> pays ok p Q owed due -> pays ok p Q' owed due.
Proof.
  intros HQ. revert owed due. induction p as [a|f k IH]; intros owed due [Hok Hp]; (split; [done |]).
  { by apply HQ. }
  intros w oo do Hb. destruct (Hp w oo do Hb) as (o' & d' & Hb' & Hk). exists o', d'. split; [done | by apply IH].
Qed.

Lemma pays_quiet {A} ok (p : Prog A) (Q : A -> Z -> Z -> Prop) owed due :
  quiet p -> ok owed due -> (forall a, Q a owed due) -> pays ok p Q owed due.
Proof.
  intros Hp Hok HQ. induction p as [a|f k IH]; (split; [done |]); [done |].
  intros w oo do Hb. destruct (Hp w) as [Hs Hk]. exists owed, due. split; [by eapply books_same | by apply IH].
Qed.

Lemma pays_Act {A B} ok (m : M B) (k : B -> Prog A) Q owed due :
  ok owed due ->
  (forall w oo do, books (oo + owed) (do + due) w ->
     exists owed' due', books (oo + owed') (do + due') (m w).2 /\ pays ok (k (m w).1) Q owed' due') ->
  pays ok (Act m k) Q owed due.
Proof. intros Hok Hm. by split. Qed.

(** One if a reference to [x] on [r] is one to the rule of the books. *)
Definition here (r : Route) (x : string) : Z := if decide ((r, x) = (route, rule)) then 1 else 0.

Lemma count_here (rc : MatchRuleRefCount) r x (n : nat) :
  (if decide ((bus_key route, rule) = (bus_key r, x)) then n else count_of rc (bus_key route, rule))
  = if decide ((r, x) = (route, rule)) then n else count_of rc (bus_key route, rule).
Proof. rewrite (decide_ext _ _ _ _ (key_eq route rule r x)). repeat case_decide; congruence. Qed.

Lemma books_increment r x owed due w :
  books owed due w ->
  let res := update match_rule_refcount with_refcount (increment (bus_key r) x) w in
  books (owed - here r x) (due + (if res.1 then here r x else 0)) res.2.
Proof.
  intros [H1 H2 H3 (evs & Hl & Hn)]. unfold update, here. pose proof (increment_spec (bus_key r) x _ H1) as Hi.
  destruct (increment _ _ _) as [rc first]. destruct Hi as (Hok & -> & Hc). cbn [fst snd].
  specialize (Hc (bus_key route, rule)). rewrite count_here in Hc. unfold referenced in *.
  split; unfold referenced; cbn [mux log match_rule_refcount with_refcount clients]; [done | done | |].
  - rewrite Hc. case_decide; lia.
  - exists evs. split; [done |]. rewrite Hc. clear Hc. case_bool_decide; repeat case_decide; simplify_eq; lia.
Qed.

Lemma books_decrement r x owed due w :
  books owed due w ->
  let res := update match_rule_refcount with_refcount (decrement (bus_key r) x) w in
  books (owed + here r x) (due - (if res.1 then here r x else 0)) res.2.
Proof.
  intros [H1 H2 H3 (evs & Hl & Hn)]. unfold update, here. pose proof (decrement_spec (bus_key r) x _ H1) as Hi.
  destruct (decrement _ _ _) as [rc last]. destruct Hi as (Hok & -> & Hc). cbn [fst snd].
  specialize (Hc (bus_key route, rule)). rewrite count_here in Hc. unfold referenced in *.
  split; unfold referenced; cbn [mux log match_rule_refcount with_refcount clients]; [done | done | |].
  - rewrite Hc. case_decide; lia.
  - exists evs. split; [done |]. rewrite Hc. clear Hc. case_bool_decide; repeat case_decide; simplify_eq; lia.
Qed.

(** What a call adds to the number of rules installed. *)
Lemma books_call r req owed due w :
  books owed due w -> books owed (due - net1 route rule (EvCall r req)) (call_method r req w).2.
Proof.
  intros [H1 H2 H3 (evs & Hl & Hn)]. split; [done | done | done |]. exists (evs ++ [EvCall r req]).
  cbn [call_method snd mux log]. rewrite Hl, <- app_assoc, net_app. split; [done |]. rewrite <- Hn.
  unfold net at 2. simpl. lia.
Qed.

Lemma pays_add_upstream r x owed due :
  pays (fun _ _ => True) (add_upstream_async r x) (fun _ o d => o = owed - here r x /\ d = due) owed due.
Proof.
  apply pays_Act; [done |]. intros w oo do Hb. apply (books_increment r x) in Hb.
  destruct (update _ _ _ w) as [first w1]. cbn [fst snd] in *.
  exists (owed - here r x), (due + if first then here r x else 0).
  rewrite !Z.add_sub_assoc, Z.add_assoc. split; [done |]. destruct first; [| split; [done |]; lia].
  apply pays_Act; [done |]. intros w2 oo2 do2 Hb2. exists (owed - here r x), due. split; [| done].
  apply (books_call r (CallAddMatch x)) in Hb2.
  replace (do2 + due) with (do2 + (due + here r x) - net1 route rule (EvCall r (CallAddMatch x))); [done |].
  unfold here, net1. lia.
Qed.

Lemma pays_remove_upstream (ok : Z -> Z -> Prop) r x owed due :
  ok owed due -> ok (owed + here r x) due -> ok (owed + here r x) (due - here r x) ->
  pays ok (remove_upstream_async r x) (fun _ o d => o = owed + here r x /\ d = due) owed due.
Proof.
  intros K1 K2 K3. apply pays_Act; [done |]. intros w oo do Hb. apply (books_decrement r x) in Hb.
  destruct (update _ _ _ w) as [last w1]. cbn [fst snd] in *.
  exists (owed + here r x), (due - if last then here r x else 0).
  rewrite Z.add_sub_assoc, Z.add_assoc. split; [done |]. destruct last; [| by rewrite Z.sub_0_r].
  apply pays_Act; [done |]. intros w2 oo2 do2 Hb2. exists (owed + here r x), due. split; [| done].
  apply (books_call r (CallRemoveMatch x)) in Hb2.
  replace (do2 + due) with (do2 + (due - here r x) - net1 route rule (EvCall r (CallRemoveMatch x))); [done |].
  unfold here, net1. case_decide; lia.
Qed.

(** A rule is on both buses, so it is on the one of the books. *)
Lemma here_both x : here Container x + here Host x = if decide (x = rule) then 1 else 0.
Proof. unfold here. destruct route; repeat case_decide; simplify_eq; lia || congruence. Qed.

(** ** The handlers of match rules *)

(** The clients change, and with them what is owed. *)
Lemma books_clients owed owed' due m w :
  books owed due w ->
  (forall c info, m !! c = Some info -> NoDup (rule_strings (match_rules info))) ->
  users rule m - users rule (clients (mux w)) <= owed' - owed ->
  books owed' due (mkWorld (with_clients m (mux w)) (log w)).
Proof.
  intros [H1 H2 H3 H4] Hn Hu. split; cbn [mux log clients match_rule_refcount with_clients]; [done | done | | done].
  unfold referenced in *. cbn [match_rule_refcount with_clients]. lia.
Qed.

Lemma books_set owed owed' due c info info' w :
  books owed due w -> clients (mux w) !! c = Some info -> NoDup (rule_strings (match_rules info')) ->
  use_count rule info' - use_count rule info <= owed' - owed ->
  books owed' due (mkWorld (with_clients (<[c := info']> (clients (mux w))) (mux w)) (log w)).
Proof.
  intros Hb Hc Hn Hu. apply (books_clients owed); [done | |].
  - intros c' i. rewrite lookup_insert_Some. intros [[_ <-]|[_ Hi]]; [done | by eapply bk_nodup].
  - rewrite (users_set rule c info) by done. lia.
Qed.

Lemma books_add_rule c r owed due w :
  books owed due w ->
  books (owed + if decide (rule_string r = rule) then 1 else 0) due (update_client c (add_rule r) w).2.
Proof.
  intros Hb. unfold update_client, modify. cbn [snd]. destruct (clients (mux w) !! c) as [i|] eqn:Hi.
  - rewrite (alter_as_insert _ _ _ i) by done. apply (books_set owed _ _ c i); [done | done | |].
    + apply cmr_add_nodup. by eapply bk_nodup.
    + rewrite use_count_add. pose proof (use_count_range rule i). repeat case_decide; congruence || lia.
  - rewrite alter_absent by done. apply (books_clients owed); [done | by eapply bk_nodup |]. case_decide; lia.
Qed.

(** Dropping a rule, with the references to give back for it. *)
Lemma books_drop_rule c x owed due w :
  books owed due w ->
  let res := drop_rule c x w in
  books (owed - if res.1 then (if decide (x = rule) then 1 else 0) else 0) due res.2.
Proof.
  intros Hb. unfold drop_rule, bind, get. destruct (clients (mux w) !! c) as [i|] eqn:Hi;
    [| cbn; by rewrite Z.sub_0_r].
  pose proof (cmr_remove_found x (match_rules i)) as Hf.
  destruct (cmr_remove x (match_rules i)) as [rs removed] eqn:Er. cbn [snd] in Hf. subst removed.
  assert (with_match_rules rs i = remove_rule x i) as Hrs by (unfold remove_rule; by rewrite Er).
  unfold update_client, modify, ret. cbn [fst snd]. rewrite (alter_as_insert _ _ _ i), Hrs by done.
  apply (books_set owed _ _ c i); [done | done | |].
  - unfold remove_rule. cbn [match_rules with_match_rules]. rewrite cmr_remove_strings.
    apply NoDup_filter. by eapply bk_nodup.
  - rewrite use_count_remove. unfold use_count, uses. case_bool_decide; repeat case_decide; simplify_eq; lia || done.
Qed.

Definition settled_up {A} (_ : A) (owed due : Z) : Prop := owed = 0 /\ due = 0.

Definition anything (owed due : Z) : Prop := True.

#[local] Hint Resolve keeps_reply keeps_error keeps_deliver : quiet.

Lemma pays_say {A} ok (m : M A) : keeps m -> ok 0 0 -> pays ok (act m) settled_up 0 0.
Proof. intros Hm Hok. apply pays_quiet; [by apply quiet_act | done | done]. Qed.

Lemma pays_add_match c msg : pays anything (handle_add_match_async c msg) settled_up 0 0.
Proof.
  unfold handle_add_match_async, with_body_async. destruct (deserialize BStr msg) as [x|e];
    [| apply pays_say; [apply keeps_error | done]].
  destruct (parse x) as [r|e] eqn:Ep; [| apply pays_say; [apply keeps_error | done]].
  apply parse_rule_string in Ep. apply pays_Act; [done |]. intros w oo do Hb.
  exists (here Container x + here Host x), 0. rewrite here_both, <- Ep. split.
  { apply (books_add_rule c r) in Hb. by rewrite Z.add_0_r in Hb. }
  rewrite Ep, <- here_both. apply pays_bind. eapply pays_mono; [| apply pays_add_upstream].
  intros [] o d _ [-> ->]. apply pays_bind. eapply pays_mono; [| apply pays_add_upstream].
  intros [] o d _ [-> ->]. replace (_ - _ - _) with 0 by lia. apply pays_say; [apply keeps_reply | done].
Qed.

Lemma pays_remove_match c msg : pays anything (handle_remove_match_async c msg) settled_up 0 0.
Proof.
  unfold handle_remove_match_async, with_body_async. destruct (deserialize BStr msg) as [x|e];
    [| apply pays_say; [apply keeps_error | done]].
  apply pays_Act; [done |]. intros w oo do Hb. apply (books_drop_rule c x) in Hb.
  destruct (drop_rule c x w) as [[] w1]; cbn [fst snd negb] in *.
  - exists (- (here Container x + here Host x)), 0. rewrite here_both. split.
    { by rewrite !Z.add_0_r, <- Z.add_opp_r in *. }
    rewrite <- here_both. apply pays_bind. eapply pays_mono; [| by apply pays_remove_upstream].
    intros [] o d _ [-> ->]. apply pays_bind. eapply pays_mono; [| by apply pays_remove_upstream].
    intros [] o d _ [-> ->]. replace (_ + _ + _) with 0 by lia. apply pays_say; [apply keeps_reply | done].
  - exists 0, 0. rewrite Z.sub_0_r in Hb. split; [done |]. apply pays_say; [apply keeps_error | done].
Qed.

Lemma pays_client_message c msg : pays anything (handle_client_message_async c msg) settled_up 0 0.
Proof.
  unfold handle_client_message_async. destruct (is_dbus_daemon_call msg && is_method_call msg).
  - destruct (decide (default "" (member_str msg) = "AddMatch")) as [Ha|Ha];
      [| destruct (decide (default "" (member_str msg) = "RemoveMatch")) as [Hr|Hr]].
    + unfold handle_dbus_method_async. rewrite Ha. apply pays_add_match.
    + unfold handle_dbus_method_async. rewrite Hr. apply pays_remove_match.
    + apply pays_quiet; [by apply quiet_dbus_method | done | done].
  - apply pays_quiet; [| done | done]. apply quiet_Act; [unfold router_route_for; keep | intros r].
    case_match; [| done]. apply quiet_pbind; [apply quiet_forward | intros res].
    case_match; [done | apply quiet_act, keeps_error].
Qed.

(** What the main loop runs for an input. *)
Lemma pays_handler i : pays anything (handler_of i) settled_up 0 0.
Proof.
  destruct i as [[h|e]|h|r [[msg|]|e]|c msg|]; cbn [handler_of]; try done.
  - apply pays_quiet; [apply quiet_bus_message | done | done].
  - apply pays_client_message.
  - apply pays_quiet; [apply quiet_tick | done | done].
Qed.

(** ** The tasks *)

(** A task only gives references back. *)
Definition giving_back (owed due : Z) : Prop := owed <= 0 /\ due <= 0.

Lemma here_range r x : 0 <= here r x <= 1.
Proof. unfold here. case_decide; lia. Qed.

Lemma pays_release_rules rs :
  pays giving_back (release_match_rules_async rs) settled_up (- Z.of_nat (occurrences rule rs)) 0.
Proof.
  induction rs as [|x rs IH]; cbn [release_match_rules_async]; [done |].
  rewrite occurrences_cons. pose proof (here_both x) as Hx.
  pose proof (here_range Container x). pose proof (here_range Host x).
  replace (- Z.of_nat _) with (- Z.of_nat (occurrences rule rs) - here Container x - here Host x)
    by (repeat case_decide; simplify_eq; lia).
  apply pays_bind. eapply pays_mono; [| apply pays_remove_upstream; unfold giving_back; lia].
  intros [] o d _ [-> ->]. apply pays_bind. eapply pays_mono; [| apply pays_remove_upstream; unfold giving_back; lia].
  intros [] o d _ [-> ->]. by replace (_ - _ - _ + _ + _) with (- Z.of_nat (occurrences rule rs)) by lia.
Qed.

Lemma books_unregister c owed due w :
  books owed due w ->
  let res := unregister_client c w in
  books (owed - Z.of_nat (occurrences rule res.1.2)) due res.2.
Proof.
  intros Hb. unfold unregister_client, bind, get, modify, ret. cbn [fst snd].
  apply (books_clients owed); [done | |].
  - intros c' i. rewrite lookup_delete_Some. intros [_ Hi]. by eapply bk_nodup.
  - destruct (clients (mux w) !! c) as [i|] eqn:Hi; cbn [snd].
    + rewrite (users_delete rule c i (clients (mux w))) by done. unfold use_count, uses.
      rewrite occurrences_nodup by (by eapply bk_nodup). repeat case_decide; done || lia.
    + rewrite delete_id by done. change (occurrences rule []) with 0%nat. lia.
Qed.

Lemma pays_disconnect h : pays giving_back (disconnect_client_async h) settled_up 0 0.
Proof.
  unfold disconnect_client_async. apply pays_Act; [done |]. intros w oo do Hb.
  apply (books_unregister (ac_client_id h)) in Hb. destruct (unregister_client _ w) as [[owned rs] w1].
  cbn [fst snd] in *. exists (- Z.of_nat (occurrences rule rs)), 0.
  rewrite !Z.add_0_r, <- Z.add_opp_r in *. split; [done |].
  apply pays_bind. eapply pays_mono; [| apply pays_release_rules]. intros [] o d Hok [-> ->].
  apply pays_quiet; [| done | done]. apply quiet_Act; [keep | intros _].
  apply quiet_Act; [intros w2; by apply keeps_update | intros results].
  apply quiet_pbind; [apply quiet_transfer | intros _; apply quiet_unqueued].
Qed.

Lemma pays_register h : pays giving_back (act (register_client h)) settled_up 0 0.
Proof.
  apply pays_Act; [done |]. intros w oo do Hb. exists 0, 0. split; [| done].
  apply (books_clients (oo + 0)); [done | |].
  - intros c i. rewrite lookup_insert_Some. intros [[_ <-]|[_ Hi]]; [constructor | by eapply bk_nodup].
  - set (i0 := mkClientInfo _ _ _ _).
    assert (use_count rule i0 = 0) as H0 by (unfold use_count; case_decide as Hu; [by apply elem_of_nil in Hu | done]).
    destruct (clients (mux w) !! ac_client_id h) as [i|] eqn:Hi.
    + rewrite (users_set rule _ i) by done. pose proof (use_count_range rule i). lia.
    + rewrite users_insert by done. lia.
Qed.

Lemma pays_task i : pays giving_back (task_of i) settled_up 0 0.
Proof.
  destruct i as [[h|e]|h|r [[msg|]|e]|c msg|]; cbn [task_of]; try done; [apply pays_register | apply pays_disconnect].
Qed.

(** ** Interleaving *)

Definition total (f : Z * Z -> Z) (l : list (Z * Z)) : Z := foldr (fun a n => f a + n) 0 l.

Lemma total_app f l1 l2 : total f (l1 ++ l2) = total f l1 + total f l2.
Proof. unfold total. induction l1 as [|a l1 IH]; simpl; lia. Qed.

(** Everybody has an account, and the books balance. *)
Definition balanced (s : Threads) : Prop :=
  exists owed due accounts,
    pays anything (main_thread s) settled_up owed due /\
    Forall2 (fun p a => pays giving_back p settled_up a.1 a.2) (task_threads s) accounts /\
    books (owed + total fst accounts) (due + total snd accounts) (shared s).

Lemma balanced_step P s l s' : interleave P s l s' -> balanced s -> balanced s'.
Proof.
  intros Hst (owed & due & accounts & Hm & Ht & Hb).
  destruct Hst as [i w ts _|i w p ts _|w f k ts|w p ts1 f k ts2]; cbn [shared main_thread task_threads] in *.
  - destruct Hm as [_ [-> ->]]. exists 0, 0, accounts. split_and!; [apply pays_handler | done | done].
  - exists owed, due, (accounts ++ [(0, 0)]). rewrite !total_app. split_and!; [done | | by rewrite !Z.add_0_r].
    apply Forall2_app; [done |]. constructor; [apply pays_task | constructor].
  - destruct Hm as [_ Hm]. rewrite Z.add_comm, (Z.add_comm due) in Hb. destruct (Hm _ _ _ Hb) as (o' & d' & Hb' & Hk).
    exists o', d', accounts. rewrite Z.add_comm, (Z.add_comm d'). by split_and!.
  - apply Forall2_app_inv_l in Ht as (a1 & a2 & H1 & H2 & ->).
    apply Forall2_cons_inv_l in H2 as ([o d] & a2' & [_ Hp] & H2 & ->). rewrite !total_app in Hb. cbn [fst snd] in Hp.
    destruct (Hp w (owed + total fst a1 + total fst a2') (due + total snd a1 + total snd a2')) as (o' & d' & Hb' & Hk).
    { revert Hb. cbn [total foldr fst snd]. fold (total fst a2') (total snd a2').
      replace (owed + (total fst a1 + (o + total fst a2'))) with (owed + total fst a1 + total fst a2' + o) by lia.
      by replace (due + (total snd a1 + (d + total snd a2'))) with (due + total snd a1 + total snd a2' + d) by lia. }
    exists owed, due, (a1 ++ (o', d') :: a2'). rewrite !total_app. split_and!; [done | |].
    + apply Forall2_app; [done |]. by constructor.
    + revert Hb'. cbn [total foldr fst snd]. fold (total fst a2') (total snd a2').
      replace (owed + (total fst a1 + (o' + total fst a2'))) with (owed + total fst a1 + total fst a2' + o') by lia.
      by replace (due + (total snd a1 + (d' + total snd a2'))) with (due + total snd a1 + total snd a2' + d') by lia.
Qed.

Lemma balanced_interleaved P s s' : interleaved P s s' -> balanced s -> balanced s'.
Proof. intros [ls Htr]. induction Htr as [s|s l s1 ls s2 Hst _ IH]; [done |]. intros Hb. apply IH. by eapply balanced_step. Qed.

Lemma giving_back_total ts accounts :
  Forall2 (fun p a => pays giving_back p settled_up a.1 a.2) ts accounts ->
  total fst accounts <= 0 /\ total snd accounts <= 0 /\
  (Forall (eq (Done tt)) ts -> total fst accounts = 0 /\ total snd accounts = 0).
Proof.
  induction 1 as [|p [o d] ts accounts Hp _ (IH1 & IH2 & IH3)]; [done |].
  pose proof (pays_ok _ _ _ _ _ Hp) as [Ho Hd]. cbn [total foldr fst snd] in *. fold (total fst accounts) (total snd accounts).
  split_and!; [lia | lia |]. intros Hdone. apply Forall_cons in Hdone as [<- Hdone]. destruct Hp as [_ [-> ->]].
  destruct (IH3 Hdone) as [-> ->]. done.
Qed.

(** Between two inputs of the main loop. *)
Lemma books_idle s :
  balanced s -> main_thread s = Done tt ->
  users rule (clients (mux (shared s))) <= Z.of_nat (referenced route rule (mux (shared s))) /\
  exists evs, log (shared s) = l0 ++ evs /\
    (if decide (0 < referenced route rule (mux (shared s)))%nat then 1 else 0) <= net route rule evs /\
    (Forall (eq (Done tt)) (task_threads s) ->
     net route rule evs = if decide (0 < referenced route rule (mux (shared s)))%nat then 1 else 0).
Proof.
  intros (owed & due & accounts & Hm & Ht & [_ _ Hu (evs & Hl & Hn)]) Hi. rewrite Hi in Hm.
  destruct Hm as [_ [-> ->]]. destruct (giving_back_total _ _ Ht) as (Ho & Hd & Hdone).
  split; [lia |]. exists evs. split_and!; [done | lia |]. intros Hts. destruct (Hdone Hts) as [_ Hz]. lia.
Qed.

Lemma balanced_start w :
  log w = l0 -> clients (mux w) = ∅ -> match_rule_refcount (mux w) = MatchRuleRefCount_new ->
  balanced (mkThreads w (Done tt) []).
Proof.
  intros Hl Hc Hr. exists 0, 0, []. split_and!; [done | constructor |].
  split; cbn [shared]; unfold referenced, count_of; rewrite ?Hc, ?Hr.
  - apply map_Forall_empty.
  - done.
  - cbn. rewrite lookup_empty. unfold users. by rewrite map_filter_empty, map_size_empty.
  - exists []. rewrite app_nil_r. cbn. by rewrite lookup_empty.
Qed.
End Accounts.

Section Theorems.
Context {ZB : Zbus} {ZL : ZbusLaws} {E : Env}.

(** C13. No rule of a connected client is missing on a bus: in every interleaving
    of the main loop with the tasks of clients, at every moment between two
    inputs of the main loop, however many clients are in the middle of being
    disconnected, each bus has at least as many references to a rule as there
    are connected clients with it, and if there is one the rule is installed
    there (more AddMatch than RemoveMatch calls went out for it).  When no task
    is under way either, a rule is installed, once, if and only if it is
    referenced. *)
Theorem interleaved_rules_installed P w0 s :
  clients (mux w0) = ∅ -> match_rule_refcount (mux w0) = MatchRuleRefCount_new ->
  interleaved P (mkThreads w0 (Done tt) []) s -> main_thread s = Done tt ->
  exists evs, log (shared s) = log w0 ++ evs /\
    forall route rule,
      let n := users rule (clients (mux (shared s))) in
      let references := Z.of_nat (referenced route rule (mux (shared s))) in
      n <= references /\ (0 < n -> 0 < net route rule evs) /\
      (Forall (eq (Done tt)) (task_threads s) ->
       net route rule evs = if decide (0 < references) then 1 else 0).
Proof.
  intros Hc Hr Hil Hidle.
  assert (forall route rule, balanced (log w0) route rule s) as Hb.
  { intros route rule. eapply balanced_interleaved; [exact Hil | by apply balanced_start]. }
  destruct (books_idle _ _ _ _ (Hb Host "") Hidle) as (_ & evs & Hl & _). exists evs. split; [done |].
  intros route rule. destruct (books_idle _ _ _ _ (Hb route rule) Hidle) as (Hu & evs' & Hl' & Hn & Hd).
  rewrite Hl in Hl'. apply app_inv_head in Hl' as <-. cbv zeta.
  split_and!; [done | |].
  - intros Hpos. case_decide; lia.
  - intros Hts. rewrite (Hd Hts). repeat case_decide; lia.
Qed.
End Theorems.

(** ** Witness *)

Section Witnesses.
#[local] Existing Instance SimpleZbus.
#[local] Existing Instance SimpleZbusLaws.
#[local] Existing Instance SimpleEnv.

(** The second client has a rule and leaves while the first one adds the same
    rule: each does a few actions in turn, and the task of the second client
    still has to give back its reference on the host bus when the handler is
    done. *)
Definition ex_handover : list Choice :=
  let first := mkAccepted 1 ":mux.1" (mkClientCredentials 1000 (Some 42) 1000) in
  let second := mkAccepted 2 ":mux.2" (mkClientCredentials 1001 (Some 43) 1000) in
  let add c name := ChInput (InClient c (s_call name 5 "org.freedesktop.DBus" "AddMatch" (s_str "type='signal'"))) in
  [ChTask (InAccept (Ok first)); ChStep 0; ChTask (InAccept (Ok second)); ChStep 1;
   add 2 ":mux.2"; ChMain; ChMain; ChMain; ChMain; ChMain; ChMain;
   add 1 ":mux.1"; ChMain; ChTask (InDisconnect second); ChStep 2; ChStep 2; ChMain; ChStep 2;
   ChMain; ChMain; ChMain; ChMain].

Lemma interleaved_rules_installed_witness :
  let s := schedule ex_handover (mkThreads s_world (Done tt) []) in
  exists evs, log (shared s) = evs /\ users "type='signal'" (clients (mux (shared s))) = 1 /\
    forallb ex_finished (task_threads s) = false /\
    forall route, 0 < net route "type='signal'" evs.
Proof.
  intros s. assert (interleaved (fun _ => True) (mkThreads s_world (Done tt) []) s) as Hil
    by (apply schedule_interleaved; by repeat constructor).
  destruct (interleaved_rules_installed (fun _ => True) s_world s eq_refl eq_refl Hil eq_refl) as (evs & Hl & Hr).
  exists evs. refine (conj Hl (conj _ (conj _ _))); [vm_compute; reflexivity | vm_compute; reflexivity |].
  intros route. apply (Hr route). vm_compute. reflexivity.
Defined.
End Witnesses.
