(* ===== verification/InterleaveCalls.v ===== *)
(** * Calls and replies when handlers are interrupted

    [Router.reply_correlation] is about the router's operations, one after the
    other.  Here they are parts of the handlers of src/src/multiplexer.rs, which
    the tasks of clients interrupt: between drawing a serial, sending the call
    and recording it anything may happen that a task does.  The theorem says
    what every interleaving of the whole multiplexer sends to the buses and
    delivers to clients, input by input, that calls of clients that stay are
    answered or forwarded, and that replies find their callers. *)

From S2P Require Import Prelude RustStr Zbus SimpleZbus Errors Message Routing NameQueue SerialMap MatchRules MatchRuleProofs Portal World SimpleEnv Router Multiplexer MuxCalls Interleave InterleaveRules.

#[local] Open Scope Z_scope.

(** ** What is sent and delivered *)

(** The clients that stay, with their unique names. *)
Class Staying := stays : Z -> string -> Prop.

Section Traffic.
Context {ZB : Zbus} {ZL : ZbusLaws} {E : Env} {St : Staying}.

Definition visible (e : Event) : Prop :=
  match e with EvSend _ _ | EvDeliver _ _ => True | _ => False end.

#[export] Instance visible_dec e : Decision (visible e).
Proof. destruct e; apply _. Defined.

(** From [w] to [w'] the messages [l] were sent or delivered. *)
Definition emits (l : list Event) (w w' : World) : Prop :=
  exists evs, log w' = log w ++ evs /\ filter visible evs = l.

Lemma emits_nil w w' : log w' = log w -> emits [] w w'.
Proof. intros Hl. exists []. by rewrite app_nil_r. Qed.

Lemma emits_trans l1 l2 w1 w2 w3 : emits l1 w1 w2 -> emits l2 w2 w3 -> emits (l1 ++ l2) w1 w3.
Proof.
  intros (e1 & H1 & F1) (e2 & H2 & F2). exists (e1 ++ e2). by rewrite H2, H1, app_assoc, filter_app, F1, F2.
Qed.

(** The router is left alone, nobody who stays is disconnected, and what is sent
    or delivered is of the kind [D]. *)
Record traffic (D : Event -> Prop) (w w' : World) : Prop := mkTraffic {
  tr_gen r : gen r w' = gen r w;
  tr_pending : serials_pending (mux w') = serials_pending (mux w);
  tr_stays c u : stays c u -> connected c u (mux w) -> connected c u (mux w');
  tr_emits : exists l, emits l w w' /\ Forall D l;
}.

#[export] Instance traffic_preorder D : PreOrder (traffic D).
Proof.
  split.
  - intros w. split; [done | done | done |]. exists []. split; [by apply emits_nil | constructor].
  - intros w1 w2 w3 [G1 P1 S1 (l1 & E1 & D1)] [G2 P2 S2 (l2 & E2 & D2)]. split; [congruence | congruence | auto |].
    exists (l1 ++ l2). split; [by eapply emits_trans | by apply Forall_app].
Qed.

Lemma traffic_mono (D D' : Event -> Prop) w w' : (forall e, D e -> D' e) -> traffic D w w' -> traffic D' w w'.
Proof. intros HD [G P S (l & He & Hl)]. split; [done | done | done |]. exists l. split; [done | by eapply Forall_impl]. Qed.

(** Nothing is sent or delivered. *)
Definition apart : World -> World -> Prop := traffic (fun _ => False).

Lemma apart_traffic D w w' : apart w w' -> traffic D w w'.
Proof. by apply traffic_mono. Qed.

Lemma apart_emits w w' : apart w w' -> emits [] w w'.
Proof. intros [_ _ _ (l & He & Hl)]. destruct l as [|e l]; [done | by apply Forall_cons in Hl as []]. Qed.

Definition within {A} (D : Event -> Prop) (m : M A) : Prop := forall w, traffic D w (m w).2.

Section Within.
Context (D : Event -> Prop).

Lemma within_ret {A} (a : A) : within D (ret a).
Proof. by intros w. Qed.

Lemma within_get {A} (f : Multiplexer -> A) : within D (get f).
Proof. by intros w. Qed.

Lemma within_now : within D now.
Proof. by intros w. Qed.

Lemma within_bind {A B} (m : M A) (k : A -> M B) :
  within D m -> (forall a, within D (k a)) -> within D (bind m k).
Proof. intros Hm Hk w. unfold bind. specialize (Hm w). destruct (m w) as [a w1]. etrans; [exact Hm | apply Hk]. Qed.

Lemma traffic_log s l evs : Forall D (filter visible evs) -> traffic D (mkWorld s l) (mkWorld s (l ++ evs)).
Proof. intros HD. split; [done | done | done |]. eexists. split; [by exists evs | done]. Qed.

Lemma within_call r req : within D (call_method r req).
Proof. intros [s l]. apply traffic_log. constructor. Qed.

Lemma within_emit e : (visible e -> D e) -> within D (emit e).
Proof. intros He [s l]. apply traffic_log. cbn. case_decide; repeat constructor. auto. Qed.

Lemma within_send c msg : D (EvDeliver c msg) -> within D (send_to c msg).
Proof. intros Hd [s l]. unfold send_to. case_match; [| done]. apply traffic_log. by repeat constructor. Qed.

Lemma traffic_mux s s' l :
  (forall r, conn r s' = conn r s) -> serials_pending s' = serials_pending s ->
  (forall c u, stays c u -> connected c u s -> connected c u s') -> traffic D (mkWorld s l) (mkWorld s' l).
Proof.
  intros Hc Hp Hs. split; [| done | done | exists []; split; [by apply emits_nil | constructor]].
  intros r. unfold gen. cbn [mux]. by rewrite Hc.
Qed.

Lemma within_modify f :
  (forall s, (forall r, conn r (f s) = conn r s) /\ serials_pending (f s) = serials_pending s /\
     forall c u, stays c u -> connected c u s -> connected c u (f s)) ->
  within D (modify f).
Proof. intros Hf [s l]. by apply traffic_mux; apply Hf. Qed.

Lemma within_update {S A} (read : Multiplexer -> S) write (f : S -> S * A) :
  (forall x s, (forall r, conn r (write x s) = conn r s) /\ serials_pending (write x s) = serials_pending s /\
     clients (write x s) = clients s) ->
  within D (update read write f).
Proof.
  intros Hf [s l]. unfold update. cbn [mux log]. destruct (f (read s)) as [x a].
  destruct (Hf x s) as (Hc & Hp & Hcl). apply traffic_mux; [done | done |]. intros c u _. unfold connected. by rewrite Hcl.
Qed.

Lemma within_table f : within D (update_table f).
Proof. apply within_modify. intros s. split_and!; [by intros [] | done | done]. Qed.

Lemma within_client c f : (forall i, unique_name (f i) = unique_name i) -> within D (update_client c f).
Proof.
  intros Hf. apply within_modify. intros s. split_and!; [done | done |]. intros d u _ Hd.
  by apply (quiet_update_client d u c f Hf (mkWorld s [])).
Qed.
End Within.
End Traffic.

Ltac flow :=
  repeat first
    [ done
    | apply within_ret | apply within_get | apply within_now | apply within_call
    | apply within_table | apply within_client; done
    | apply within_send; done
    | apply within_update; done
    | apply within_modify; done
    | apply within_bind; [| intros ?]
    | case_match ].

(** ** Handlers that do not forward *)

Section Calm.
Context {ZB : Zbus} {ZL : ZbusLaws} {E : Env} {St : Staying}.

Definition to_client (c : Z) (e : Event) : Prop := match e with EvDeliver d _ => d = c | _ => False end.
Definition delivery (e : Event) : Prop := match e with EvDeliver _ _ => True | _ => False end.

Definition flows {A} (D : Event -> Prop) (p : Prog A) : Prop := all_steps (traffic D) p.

Lemma flows_bind {A B} D (p : Prog A) (k : A -> Prog B) : flows D p -> (forall a, flows D (k a)) -> flows D (pbind p k).
Proof. induction p as [a|f k' IH]; intros Hp Hk; [apply Hk |]. intros w. destruct (Hp w). split; [done | by apply IH]. Qed.

Lemma flows_Act {A B} D (m : M B) (k : B -> Prog A) : within D m -> (forall b, flows D (k b)) -> flows D (Act m k).
Proof. intros Hm Hk w. split; [apply Hm | apply Hk]. Qed.

Lemma flows_act {A} D (m : M A) : within D m -> flows D (act m).
Proof. intros Hm. by apply flows_Act. Qed.

Lemma within_reply c msg body : within (to_client c) (send_reply_to_client c msg body).
Proof. unfold send_reply_to_client. flow. Qed.

Lemma within_error c msg name text : within (to_client c) (send_error_to_client c msg name text).
Proof. unfold send_error_to_client. flow. Qed.

Lemma within_with_body t c msg k :
  (forall v, within (to_client c) (k v)) -> within (to_client c) (with_body t c msg k).
Proof. intros Hk. unfold with_body. case_match; [done | apply within_error]. Qed.

Lemma within_find D name : within D (find_client_credentials name).
Proof. unfold find_client_credentials. flow. Qed.

Lemma within_deliver D c message : (forall m, D (EvDeliver c m)) -> within D (deliver c message).
Proof. intros HD. unfold deliver. flow. Qed.

#[local] Hint Resolve within_reply within_error within_find within_table : quiet.

Ltac calm :=
  repeat match goal with
    | |- flows _ (Done _) => exact Logic.I
    | |- flows _ (act _) => apply flows_act
    | |- flows _ (Act _ _) => apply flows_Act; [| intros ?]
    | |- flows _ (pbind _ _) => apply flows_bind; [| intros ?]
    | |- within _ _ => solve [eauto with quiet | flow | intros w; by apply within_update]
    | |- _ => case_match
    end.

Lemma flows_with_body t c msg k : (forall v, flows (to_client c) (k v)) -> flows (to_client c) (with_body_async t c msg k).
Proof. intros Hk. unfold with_body_async. case_match; [apply Hk | calm]. Qed.

Lemma flows_request_name c msg : flows (to_client c) (handle_request_name_async c msg).
Proof. apply flows_with_body. intros [name flags]. unfold request_name_as_async, record_owner. calm. Qed.

Lemma flows_release_name c msg : flows (to_client c) (handle_release_name_async c msg).
Proof. apply flows_with_body. intros name. unfold promote. calm. Qed.

Lemma flows_add_upstream D r x : flows D (add_upstream_async r x).
Proof. unfold add_upstream_async. calm. Qed.

Lemma flows_remove_upstream D r x : flows D (remove_upstream_async r x).
Proof. unfold remove_upstream_async. calm. Qed.

Lemma flows_add_match c msg : flows (to_client c) (handle_add_match_async c msg).
Proof.
  apply flows_with_body. intros x. case_match; [| calm]. apply flows_Act; [calm | intros _].
  do 2 (apply flows_bind; [apply flows_add_upstream | intros _]). calm.
Qed.

Lemma flows_remove_match c msg : flows (to_client c) (handle_remove_match_async c msg).
Proof.
  apply flows_with_body. intros x. apply flows_Act; [unfold drop_rule; calm | intros removed]. case_match; [calm |].
  do 2 (apply flows_bind; [apply flows_remove_upstream | intros _]). calm.
Qed.

(** The methods of the daemon answer the caller and nobody else. *)
Lemma within_daemon_method c msg :
  default "" (member_str msg) ∈ daemon_methods ->
  default "" (member_str msg) <> "AddMatch" -> default "" (member_str msg) <> "RemoveMatch" ->
  within (to_client c) (handle_dbus_method c msg).
Proof.
  intros Hin Ha Hr. unfold handle_dbus_method. set (member := default "" (member_str msg)) in *.
  rewrite (proj2 (String.eqb_neq _ "AddMatch") Ha), (proj2 (String.eqb_neq _ "RemoveMatch") Hr).
  unfold daemon_methods in Hin. rewrite !elem_of_cons, elem_of_nil in Hin.
  repeat (case_match; [unfold handle_hello, handle_request_name, request_name_as, request_on_bus, handle_release_name,
    handle_list_names, handle_list_activatable_names, list_activatable_names, handle_get_name_owner, get_name_owner,
    handle_name_has_owner, handle_get_id, handle_ping, handle_get_machine_id, handle_get_connection_unix_user,
    handle_get_connection_unix_process_id, handle_get_connection_credentials, handle_list_queued_owners,
    handle_introspect, handle_get_all; repeat (apply within_with_body; intros ?);
    repeat first [solve [eauto with quiet] | progress flow] |]).
  exfalso. repeat destruct Hin as [Hin|Hin]; try done; by rewrite Hin, ?String.eqb_refl in *.
Qed.

(** *** Signals *)

Lemma within_forward_signal msg unicast cs order : within delivery (forward_signal msg unicast cs order).
Proof.
  induction order as [|c order IH]; cbn [forward_signal]; [flow |]. apply within_bind; [flow | done].
Qed.

Lemma flows_signal msg route : flows delivery (handle_bus_signal_async msg route).
Proof.
  pose proof within_forward_signal. assert (forall c f, within delivery (deliver c f)) by (intros; by apply within_deliver).
  unfold handle_bus_signal_async, handle_portal_response_async, forward_to_matching. calm.
Qed.

(** *** Tasks *)

Lemma flows_release_rules D rs : flows D (release_match_rules_async rs).
Proof.
  induction rs as [|x rs IH]; cbn [release_match_rules_async]; [done |].
  do 2 (apply flows_bind; [apply flows_remove_upstream | intros _]). apply IH.
Qed.

Lemma flows_transfer D unique results : flows D (transfer_names_async unique results).
Proof. induction results as [|[name [[id new]|]] rest IH]; cbn [transfer_names_async]; calm; exact IH. Qed.

Lemma flows_unqueued D unique names : flows D (release_unqueued_async unique names).
Proof. induction names as [|name rest IH]; cbn [release_unqueued_async]; calm; exact IH. Qed.

(** Nobody who stays disconnects or is registered anew under another name. *)
Definition lets_stay (i : Input) : Prop :=
  forall c u, stays c u ->
    match i with
    | InAccept (Ok h) => ac_client_id h = c -> ac_unique_name h = u
    | InDisconnect h => ac_client_id h <> c
    | _ => True
    end.

Lemma within_register D h : lets_stay (InAccept (Ok h)) -> within D (register_client h).
Proof.
  intros Hi. apply within_modify. intros s. split_and!; [done | done |]. intros c u Hc (info & Hl & Hu).
  unfold connected. cbn [clients with_clients]. destruct (decide (ac_client_id h = c)) as [<-|Hne].
  - eexists. rewrite lookup_insert_eq. split; [done |]. by apply (Hi _ _ Hc).
  - exists info. by rewrite lookup_insert_ne.
Qed.

Lemma within_unregister D h : lets_stay (InDisconnect h) -> within D (unregister_client (ac_client_id h)).
Proof.
  intros Hi. unfold unregister_client. apply within_bind; [flow | intros cs]. apply within_bind; [| intros _; flow].
  apply within_modify. intros s. split_and!; [done | done |]. intros c u Hc (info & Hl & Hu).
  exists info. cbn [clients with_clients]. by rewrite lookup_delete_ne by exact (Hi _ _ Hc).
Qed.

(** A task sends and delivers nothing. *)
Lemma task_apart i : lets_stay i -> all_steps apart (task_of i).
Proof.
  intros Hi. destruct i as [[h|e]|h|r [[msg|]|e]|c msg|]; cbn [task_of]; try done.
  - by apply flows_act, within_register.
  - unfold disconnect_client_async. apply flows_Act; [by apply within_unregister | intros remains].
    apply flows_bind; [apply flows_release_rules | intros _]. apply flows_Act; [calm | intros _].
    apply flows_Act; [calm | intros results].
    apply flows_bind; [apply flows_transfer | intros _; apply flows_unqueued].
Qed.
End Calm.

(** ** A handler among the tasks *)

Section Interfered.
Context {ZB : Zbus} {ZL : ZbusLaws} {E : Env} {St : Staying}.

(** The program runs from [w] to [w'] and returns [a], with steps of tasks
    before, between and after its actions. *)
Inductive interfered {A} : Prog A -> World -> A -> World -> Prop :=
| if_done a w : interfered (Done a) w a w
| if_step f k w a w' : interfered (k w) (f w) a w' -> interfered (Step f k) w a w'
| if_other p w w1 a w' : apart w w1 -> interfered p w1 a w' -> interfered p w a w'.

Lemma interfered_done {A} (a b : A) w w' : interfered (Done a) w b w' -> b = a /\ apart w w'.
Proof.
  intros H. remember (Done a) as p eqn:Hp. revert Hp.
  induction H as [b w|f k w b w' H IH|p w w1 b w' Ho H IH]; intros Hp; [| done |].
  - by injection Hp as ->.
  - destruct (IH Hp) as [-> Ha]. split; [done | by etrans].
Qed.

Lemma interfered_bind {A B} (p : Prog A) (k : A -> Prog B) w b w' :
  interfered (pbind p k) w b w' -> exists a w1, interfered p w a w1 /\ interfered (k a) w1 b w'.
Proof.
  intros H. remember (pbind p k) as q eqn:Hq. revert p Hq.
  induction H as [b w|f k' w b w' H IH|q w w1 b w' Ho H IH]; intros p Hq.
  - destruct p as [a|]; [| done]. exists a, w. split; [constructor |]. cbn in Hq. rewrite <- Hq. constructor.
  - destruct p as [a|f0 k0].
    + exists a, w. split; [constructor |]. cbn in Hq. rewrite <- Hq. by constructor.
    + cbn in Hq. injection Hq as -> ->. destruct (IH (k0 w) eq_refl) as (a & w1 & H1 & H2).
      exists a, w1. split; [by constructor | done].
  - destruct (IH p Hq) as (a & w2 & H1 & H2). exists a, w2. split; [by eapply if_other | done].
Qed.

Lemma interfered_Act {A B} (m : M B) (k : B -> Prog A) w a w' :
  interfered (Act m k) w a w' -> exists w1, apart w w1 /\ interfered (k (m w1).1) (m w1).2 a w'.
Proof.
  intros H. remember (Act m k) as p eqn:Hp. revert Hp.
  induction H as [b w|f k' w b w' H IH|q w w1 b w' Ho H IH]; intros Hp; [done | |].
  - injection Hp as -> ->. exists w. split; [reflexivity | done].
  - destruct (IH Hp) as (w2 & Ha & H2). exists w2. split; [by etrans | done].
Qed.

Lemma interfered_act {A} (m : M A) w a w' :
  interfered (act m) w a w' -> exists w1, apart w w1 /\ a = (m w1).1 /\ apart (m w1).2 w'.
Proof. intros (w1 & H1 & H2)%interfered_Act. apply interfered_done in H2 as [-> H2]. eauto. Qed.

Lemma interfered_flows {A} D (p : Prog A) w a w' : flows D p -> interfered p w a w' -> traffic D w w'.
Proof.
  intros Hf. induction 1 as [b w|f k w b w' H IH|p w w1 b w' Ho H IH]; [done | |].
  - destruct (Hf w) as [H1 H2]. etrans; [exact H1 | by apply IH].
  - etrans; [by apply apart_traffic | by apply IH].
Qed.

(** What happens between two states in which the main loop is idle. *)
Fixpoint handled (w : World) (inputs : list (Input * World)) (w' : World) : Prop :=
  match inputs with
  | [] => w = w'
  | (i, v) :: rest => v = w /\ exists w1, interfered (handler_of i) w tt w1 /\ handled w1 rest w'
  end.

Lemma trace_handled P s ls s' :
  (forall i, P i -> lets_stay i) ->
  trace (interleave P) s ls s' -> Forall (all_steps apart) (task_threads s) -> main_thread s' = Done tt ->
  exists w1, interfered (main_thread s) (shared s) tt w1 /\ handled w1 (omap id ls) (shared s').
Proof.
  intros HP. induction 1 as [s|s l s1 ls s2 Hst _ IH]; intros Ht Hd.
  { exists (shared s). rewrite Hd. split; [constructor | done]. }
  destruct Hst as [i w ts _|i w p ts Hi|w f k ts|w p ts1 f k ts2]; cbn [shared main_thread task_threads omap list_omap id] in *.
  - exists w. split; [constructor |]. split; [done |]. by apply IH.
  - apply IH; [| done]. apply Forall_app. split; [done |]. constructor; [by apply task_apart, HP | done].
  - destruct (IH Ht Hd) as (w1 & H1 & H2). exists w1. split; [by constructor | done].
  - apply Forall_app in Ht as [Ht1 Ht]. apply Forall_cons in Ht as [Ha Ht2]. destruct (Ha w) as [Hw Hk].
    destruct IH as (w1 & H1 & H2); [| done |].
    + apply Forall_app. split; [done |]. by constructor.
    + exists w1. split; [by eapply if_other | done].
Qed.
End Interfered.

(** ** What each input leads to *)

Section Effects.
Context {ZB : Zbus} {ZL : ZbusLaws} {E : Env} {St : Staying}.

(** What a client gets for a reply to its call with serial [cs]. *)
Definition reply_for (msg : Message) (cs : Z) : Message :=
  match clone_reply_with_serial msg cs with Ok m => m | Err _ => msg end.

(** A method the multiplexer answers itself. *)
Definition own_call (msg : Message) : bool :=
  is_dbus_daemon_call msg && bool_decide (default "" (member_str msg) ∈ daemon_methods).

(** The message cannot be copied, or the connection does not take the copy. *)
Definition unsendable (route : Route) (msg : Message) : Prop :=
  exists fs e, clone_message_with_serial msg fs = Err e \/
    exists m l ze, clone_message_with_serial msg fs = Ok m /\ bus_send l route m = Err ze.

(** The messages [l] are for [c], and when it stays, can be answered and was
    connected in [w], they are one answer to [msg]. *)
Definition settled (c : Z) (msg : Message) (w : World) (l : list Event) : Prop :=
  Forall (to_client c) l /\
  forall u, stays c u -> connected c u (mux w) -> answerable c u msg ->
    exists r, l = [EvDeliver c r] /\ is_answer_to msg u r.

(** What an input that is taken up in [w] leads to: what the router does for it,
    and the messages that are sent and delivered. *)
Definition explains (iw : Input * World) (h : router_label * list Event) : Prop :=
  let '(i, w) := iw in
  match i with
  | InClient c msg =>
      if is_method_call msg then
        if own_call msg then h.1 = LOther /\ settled c msg w h.2
        else
          (exists route m t, h = (LForward route c (serial msg) (serial m) t, [EvSend route m]) /\
             msg_fields m = msg_fields msg /\ body_bytes m = body_bytes msg) \/
          (exists route, h.1 = LFailed route /\ unsendable route msg /\ settled c msg w h.2)
      else h = (LOther, [])
  | InBus route (Ok (Some msg)) =>
      if is_method_return msg || is_error msg then
        match reply_serial msg with
        | Some rs => exists answer, h.1 = LReply route rs answer /\
            match answer with
            | Some (c, cs) =>
                (h.2 = [] \/ h.2 = [EvDeliver c (reply_for msg cs)]) /\
                forall u, stays c u -> connected c u (mux w) -> (forall l m, tx_send l c m = true) ->
                  h.2 = [EvDeliver c (reply_for msg cs)]
            | None => h.2 = []
            end
        | None => h = (LOther, [])
        end
      else h.1 = LOther /\ Forall delivery h.2
  | InTick => exists t, h = (LCleanup t, [])
  | _ => h = (LOther, [])
  end.

Lemma settled_apart c msg w w1 l : apart w w1 -> settled c msg w1 l -> settled c msg w l.
Proof. intros Ha [H1 H2]. split; [done |]. intros u Hs Hc. apply H2; [done | by eapply tr_stays]. Qed.

Lemma explains_apart i w w1 h : apart w w1 -> explains (i, w1) h -> explains (i, w) h.
Proof.
  intros Ha. destruct i as [[?|?]|?|r [[msg|]|e]|c msg|]; cbn [explains]; try done.
  - case_match; [| done]. case_match; [| done]. intros (answer & Hh & Hx). exists answer. split; [done |].
    destruct answer as [[c cs]|]; [| done]. destruct Hx as [Hx1 Hx2]. split; [done |].
    intros u Hs Hc. apply (Hx2 u); [done | by eapply tr_stays].
  - case_match; [| done]. case_match.
    + intros [Hl Hs]. split; [done | by eapply settled_apart].
    + intros [Hf|(route & Hl & Hu & Hs)]; [by left | right]. exists route. split_and!; [done | done |].
      by eapply settled_apart.
Qed.

(** *** Programs that answer a call *)

Section Answers.
Context (c : Z) (u : string) (msg : Message) (Hstays : stays c u).

Fixpoint replies {A} (p : Prog A) : Prop :=
  match p with
  | Done _ => False
  | Step f k => forall w, connected c u (mux w) ->
      traffic (fun _ => False) w (f w) /\ replies (k w) \/
      connected c u (mux (f w)) /\ flows (fun _ => False) (k w) /\
        exists r, emits [EvDeliver c r] w (f w) /\ is_answer_to msg u r
  end.

Lemma interfered_replies {A} (p : Prog A) w a w' :
  replies p -> connected c u (mux w) -> interfered p w a w' ->
  exists r, emits [EvDeliver c r] w w' /\ is_answer_to msg u r.
Proof.
  intros Hp Hc H. induction H as [b w|f k w b w' H IH|p w w1 b w' Ho H IH]; [done | |].
  - destruct (Hp w Hc) as [[Ht Hk]|(Hc1 & Hk & r & He & Hr)].
    + destruct IH as (r & He & Hr); [done | by eapply tr_stays |]. exists r. split; [| done].
      by apply (emits_trans [] _ _ (f w)); [apply apart_emits |].
    + exists r. split; [| done]. apply (emits_trans [EvDeliver c r] [] w (f w)); [done |].
      apply apart_emits. by eapply interfered_flows.
  - destruct IH as (r & He & Hr); [done | by eapply tr_stays |]. exists r. split; [| done].
    by apply (emits_trans [] _ _ w1); [apply apart_emits |].
Qed.

Lemma visible_messages evs r :
  sends evs = [] -> deliveries evs = [(c, r)] -> filter visible evs = [EvDeliver c r].
Proof.
  assert (forall l, sends l = [] -> deliveries l = [] -> filter visible l = []) as Hnil.
  { induction l as [|[] l IH]; intros Hs Hd; try done; apply IH; done. }
  induction evs as [|[] evs IH]; intros Hs Hd; try done; cbn in Hs, Hd; try (by apply IH).
  injection Hd as -> -> Hd. cbn. by rewrite Hnil.
Qed.

Lemma replies_act (m : M unit) : MuxCalls.effect c u (answered c u msg) m -> replies (act m).
Proof.
  intros Hm w Hc. right. destruct (Hm w Hc) as (Hc1 & evs & Hl & Hs & r & Hd & Hr). split_and!; [done | done |].
  exists r. split; [| done]. exists evs. split; [done | by apply visible_messages].
Qed.

Lemma replies_Act {A B} (m : M B) (k : B -> Prog A) :
  within (fun _ => False) m -> (forall w, connected c u (mux w) -> replies (k (m w).1)) -> replies (Act m k).
Proof. intros Hm Hk w Hc. left. auto. Qed.

Lemma replies_bind {A B} (p : Prog A) (k : A -> Prog B) :
  flows (fun _ => False) p -> (forall a, replies (k a)) -> replies (pbind p k).
Proof.
  intros Hp Hk. induction p as [a|f k' IH]; [apply Hk |]. intros w Hc. destruct (Hp w) as [H1 H2]. left.
  split; [done | by apply IH].
Qed.

Context (Hans : answerable c u msg).

Lemma replies_reply body : replies (act (send_reply_to_client c msg body)).
Proof. by apply replies_act, answers_reply. Qed.

Lemma replies_error name text : name ∈ mux_error_names -> replies (act (send_error_to_client c msg name text)).
Proof. intros Hn. by apply replies_act, answers_error. Qed.

Lemma replies_with_body t k : (forall v, replies (k v)) -> replies (with_body_async t c msg k).
Proof. intros Hk. unfold with_body_async. case_match; [done | apply replies_error; unfold mux_error_names; set_solver]. Qed.

Ltac respond :=
  repeat match goal with
    | |- replies (act (send_reply_to_client _ _ _)) => apply replies_reply
    | |- replies (act (send_error_to_client _ _ _ _)) => apply replies_error; unfold mux_error_names; set_solver
    | |- replies (Act _ _) => apply replies_Act; [flow; intros w; by apply within_update | intros ? _]
    | |- replies (pbind _ _) => apply replies_bind; [| intros ?]
    | |- flows _ (Done _) => exact Logic.I
    | |- flows _ (act _) => apply flows_act; flow
    | |- flows _ (Act _ _) => apply flows_Act; [flow | intros ?]
    | |- flows _ (pbind _ _) => apply flows_bind; [| intros ?]
    | |- _ => case_match
    end.

Lemma replies_request_name : replies (handle_request_name_async c msg).
Proof.
  apply replies_with_body. intros [name flags]. apply replies_Act; [flow |]. intros w (info & Hi & Hu).
  cbn [get fst]. rewrite Hi. unfold request_name_as_async, record_owner. respond.
Qed.

Lemma replies_release_name : replies (handle_release_name_async c msg).
Proof. apply replies_with_body. intros name. unfold promote. respond. Qed.

Lemma replies_add_match : replies (handle_add_match_async c msg).
Proof.
  apply replies_with_body. intros x. case_match; [| respond]. apply replies_Act; [flow | intros w _].
  do 2 (apply replies_bind; [apply flows_add_upstream | intros _]). respond.
Qed.

Lemma replies_remove_match : replies (handle_remove_match_async c msg).
Proof.
  apply replies_with_body. intros x. apply replies_Act; [unfold drop_rule; flow | intros w _]. case_match; [respond |].
  do 2 (apply replies_bind; [apply flows_remove_upstream | intros _]). respond.
Qed.

Lemma replies_daemon_method :
  default "" (member_str msg) ∈ daemon_methods -> replies (act (handle_dbus_method c msg)).
Proof.
  intros Hin. destruct (member_str msg) as [name|] eqn:En.
  - by apply replies_act, (answers_dispatch c u msg Hans name).
  - apply (bool_decide_pack _) in Hin. by vm_compute in Hin.
Qed.
End Answers.

(** The time limit and the counters are in order. *)
Definition ready (w : World) : Prop :=
  sm_timeout (serials_pending (mux w)) = from_secs 30 /\ forall r, 0 <= counter (gen r w) < u32_modulus.

Lemma ready_apart w w' : apart w w' -> ready w -> ready w'.
Proof. intros [G P _ _] [Ht Hc]. split; [by rewrite P | intros r; by rewrite G]. Qed.

Lemma ready_obeys w l w' : ready w -> (forall route, obeys route w l w') -> ready w'.
Proof.
  intros [Ht Hc] Ho. split; [by destruct (Ho Host Ht (Hc Host)) |]. intros r. destruct (Ho r Ht (Hc r)) as [_ -> _ _ _].
  case_match; [by apply next_counter | done].
Qed.

(** An input leads to [h], which is what the router and the others see of it. *)
Definition effect (i : Input) (w w' : World) : Prop :=
  exists h, explains (i, w) h /\ emits h.2 w w' /\ forall route, obeys route w h.1 w'.

Lemma effect_traffic D i w w' :
  traffic D w w' -> (forall l, Forall D l -> emits l w w' -> explains (i, w) (LOther, l)) -> effect i w w'.
Proof.
  intros [Hg Hp _ (l & He & Hl)] Hx. exists (LOther, l). split_and!; [by apply Hx | done |].
  intros route. by apply effect_other.
Qed.

Lemma effect_quiet i w w' : apart w w' -> explains (i, w) (LOther, []) -> effect i w w'.
Proof. intros Ha Hx. apply (effect_traffic _ _ _ _ Ha). by intros [|x l] Hl; [| apply Forall_cons in Hl as []]. Qed.

Lemma emits_inj l1 l2 w w' : emits l1 w w' -> emits l2 w w' -> l1 = l2.
Proof. intros (e1 & H1 & F1) (e2 & H2 & F2). rewrite H1 in H2. apply app_inv_head in H2. congruence. Qed.

(** A program that answers its caller, and talks to nobody else. *)
Lemma interfered_settled c msg (p : Prog unit) w w' l :
  interfered p w tt w' -> flows (to_client c) p ->
  (forall u, stays c u -> answerable c u msg -> replies c u msg p) -> emits l w w' -> settled c msg w l.
Proof.
  intros H Hf Hr He. destruct (interfered_flows _ _ _ _ _ Hf H) as [_ _ _ (l' & He' & Hl)].
  rewrite (emits_inj _ _ _ _ He He') in *. split; [done |]. intros u Hs Hc Ha.
  destruct (interfered_replies c u msg Hs p w tt w' (Hr u Hs Ha) Hc H) as (r & Hd & Hans).
  exists r. split; [by eapply emits_inj | done].
Qed.

Lemma next_serial_spec r w :
  let '(g, fs) := next (gen r w) in
  (next_serial r w).1 = fs /\ log (next_serial r w).2 = log w /\
  (forall r', gen r' (next_serial r w).2 = if decide (r' = r) then g else gen r' w) /\
  serials_pending (mux (next_serial r w).2) = serials_pending (mux w) /\
  clients (mux (next_serial r w).2) = clients (mux w).
Proof.
  unfold next_serial, update, gen. destruct (next (serial_gen (conn r (mux w)))) as [g fs]. cbn [fst snd mux log].
  split_and!; [done | done | | by destruct r | by destruct r]. intros r'. rewrite conn_with_conn. by case_decide.
Qed.

(** Those who stay are connected as long as they were. *)
Definition loyal (w w' : World) : Prop :=
  forall d u, stays d u -> connected d u (mux w) -> connected d u (mux w').

#[local] Instance loyal_preorder : PreOrder loyal.
Proof. split; [by intros w d u | intros w1 w2 w3 H1 H2 d u Hs Hc; auto]. Qed.

Lemma loyal_apart w w' : apart w w' -> loyal w w'.
Proof. intros Ha d u. by apply (tr_stays _ _ _ Ha). Qed.

Lemma loyal_clients w w' : clients (mux w') = clients (mux w) -> loyal w w'.
Proof. intros He d u _. unfold connected. by rewrite He. Qed.

(** The call goes out and is recorded, while tasks run. *)
Lemma interfered_record c cs r fs m w res w' :
  interfered (let& sent := conn_send r m in
    match sent with
    | Err e => Done (Err e)
    | Ok _ =>
        let& t := now in
        let& _ := modify (fun s => with_serial_map (sm_insert t r fs c cs (serials_pending s)) s) in
        Done (Ok tt)
    end) w res w' ->
  (forall r', gen r' w' = gen r' w) /\ loyal w w' /\
  match res with
  | Ok _ => exists t, emits [EvSend r m] w w' /\
      serials_pending (mux w') = sm_insert t r fs c cs (serials_pending (mux w))
  | Err _ => emits [] w w' /\ serials_pending (mux w') = serials_pending (mux w) /\
      exists l ze, bus_send l r m = Err ze
  end.
Proof.
  intros H. apply interfered_Act in H as (w1 & A1 & H). unfold conn_send in H.
  destruct (bus_send (log w1) r m) as [[]|e] eqn:Hsend; cbn [fst snd] in H.
  - set (w2 := mkWorld (mux w1) (log w1 ++ [EvSend r m])) in *.
    assert (emits [EvSend r m] w w2) as E2.
    { apply (emits_trans [] [EvSend r m] w w1); [by apply apart_emits | by exists [EvSend r m]]. }
    apply interfered_Act in H as (w3 & A3 & H). apply interfered_Act in H as (w4 & A4 & H). cbn [fst snd now] in *.
    apply interfered_done in H as [-> A5]. unfold modify in A5. cbn [snd] in A5.
    assert (apart w2 w4) as A24 by (by etrans).
    destruct (A1) as [G1 P1 _ _], (A24) as [G4 P4 _ _], (A5) as [G5 P5 _ _]. split_and!.
    + intros r'. rewrite G5. unfold gen at 1. cbn [mux]. rewrite conn_with_serial_map.
      change (gen r' w4 = gen r' w). rewrite G4. exact (G1 r').
    + transitivity w1; [by apply loyal_apart |]. transitivity w2; [by apply loyal_clients |].
      transitivity w4; [by apply loyal_apart |]. by apply loyal_apart in A5.
    + exists (clock (log w3)). split.
      * apply (emits_trans [EvSend r m] [] w w2); [done |]. apply (emits_trans [] [] w2 w4).
        -- by apply apart_emits.
        -- by apply apart_emits in A5.
      * rewrite P5. cbn [mux]. change (serials_pending (with_serial_map ?x _)) with x. by rewrite P4, <- P1.
  - apply interfered_done in H as [-> A2]. assert (apart w w') as A by (by etrans). destruct (A) as [G P _ _].
    split_and!; [done | by apply loyal_apart | by apply apart_emits | done | eauto].
Qed.

(** A call that is forwarded while tasks run. *)
Lemma interfered_forward c msg r w res w' :
  interfered (forward_method_call_async c msg r) w res w' ->
  let '(g, fs) := next (gen r w) in
  (forall r', gen r' w' = if decide (r' = r) then g else gen r' w) /\ loyal w w' /\
  match res with
  | Ok _ => exists m t, clone_message_with_serial msg fs = Ok m /\ emits [EvSend r m] w w' /\
      serials_pending (mux w') = sm_insert t r fs c (serial msg) (serials_pending (mux w))
  | Err _ => emits [] w w' /\ serials_pending (mux w') = serials_pending (mux w) /\ unsendable r msg
  end.
Proof.
  intros H. unfold forward_method_call_async in H. apply interfered_Act in H as (w1 & A1 & H).
  pose proof (next_serial_spec r w1) as Hn. rewrite (tr_gen _ _ _ A1 r) in Hn.
  destruct (next (gen r w)) as [g fs]. destruct (next_serial r w1) as [n w2]. cbn [fst snd] in Hn, H.
  destruct Hn as (-> & Hl2 & Hg2 & Hp2 & Hc2). rewrite (tr_pending _ _ _ A1) in Hp2.
  assert (emits [] w w2) as E2 by (apply (emits_trans [] [] w w1); [by apply apart_emits | by apply emits_nil]).
  assert (forall r', gen r' w2 = if decide (r' = r) then g else gen r' w) as G2.
  { intros r'. rewrite Hg2. case_decide; [done | apply (tr_gen _ _ _ A1)]. }
  assert (loyal w w2) as L2 by (transitivity w1; [by apply loyal_apart | by apply loyal_clients]).
  destruct (clone_message_with_serial msg fs) as [m|e] eqn:Hcl.
  - apply interfered_record in H as (G3 & L3 & H3). split_and!; [intros r'; by rewrite G3 | by etrans |].
    destruct res as [[]|e]; rewrite Hp2 in H3.
    + destruct H3 as (t & E3 & P3). exists m, t. split_and!; [done | | done]. by apply (emits_trans [] [EvSend r m] w w2).
    + destruct H3 as (E3 & P3 & l & ze & Hs). split_and!; [by apply (emits_trans [] [] w w2) | done |].
      exists fs, e. right. by exists m, l, ze.
  - apply interfered_done in H as [-> A3]. destruct (A3) as [G3 P3 _ _].
    split_and!; [intros r'; by rewrite G3 | transitivity w2; [done | by apply loyal_apart] | | by rewrite P3 |].
    + apply (emits_trans [] [] w w2); [done | by apply apart_emits].
    + exists fs, e. by left.
Qed.

(** ... and answered with an error when that fails. *)
Lemma interfered_call c msg r (p : result Error unit -> Prog unit) w w' :
  ready w -> is_method_call msg = true -> own_call msg = false -> p (Ok tt) = Done tt ->
  (forall e, exists name text, p (Err e) = act (send_error_to_client c msg name text) /\ name ∈ mux_error_names) ->
  interfered (pbind (forward_method_call_async c msg r) p) w tt w' -> effect (InClient c msg) w w'.
Proof.
  intros [_ Hc] Hmc Hown Hok Herr H. apply interfered_bind in H as (res & w1 & Hf & H). apply interfered_forward in Hf.
  pose proof (upcoming_range _ (Hc r)) as Hr. rewrite <- next_upcoming in Hr.
  destruct (next (gen r w)) as [g fs] eqn:En. cbn [snd] in Hr. destruct Hf as (G1 & L1 & H1). destruct res as [[]|e].
  - rewrite Hok in H. apply interfered_done in H as [_ A2]. destruct H1 as (m & t & Hm & E1 & P1).
    apply clone_with_serial_ok in Hm as (Hs & Hfl & Hb & _); [| lia].
    destruct (A2) as [G2 P2 _ _]. exists (LForward r c (serial msg) fs t, [EvSend r m]). split_and!.
    + cbn [explains]. rewrite Hmc, Hown. left. exists r, m, t. by rewrite Hs.
    + apply (emits_trans [EvSend r m] [] w w1); [done | by apply apart_emits].
    + intros route. apply (effect_forward _ _ _ _ _ fs _ g); [done | done | intros r'; by rewrite G2 | |];
        by rewrite P2, P1.
  - destruct H1 as (E1 & P1 & Hu). destruct (Herr e) as (name & text & Hp & Hn). rewrite Hp in H.
    assert (flows (to_client c) (act (send_error_to_client c msg name text))) as Hfl by apply flows_act, within_error.
    destruct (interfered_flows _ _ _ _ _ Hfl H) as [G2 P2 _ (l & E2 & Hl)].
    exists (LFailed r, l). split_and!; [| by apply (emits_trans [] l w w1) |].
    + cbn [explains]. rewrite Hmc, Hown. right. exists r. split_and!; [done | done |].
      apply (interfered_settled c msg _ _ _ l) in H as [K1 K2]; [| done | | done].
      * split; [done |]. intros u Hs Hcon. apply K2; [done | by apply L1].
      * intros u Hs Ha. by apply replies_act, answers_error.
    + intros route. apply effect_failed; [intros r'; by rewrite G2, En | by rewrite P2].
Qed.

(** What tasks do before does not matter. *)
Lemma obeys_apart route w w1 l w' : apart w w1 -> obeys route w1 l w' -> obeys route w l w'.
Proof.
  intros [Hg Hp _ _] Ho Ht Hc. destruct Ho as [H1 H2 H3 H4 H5]; [by rewrite Hp | by rewrite Hg |].
  unfold entry in *. rewrite Hg in *. setoid_rewrite Hp in H4. setoid_rewrite Hp in H5. by split.
Qed.

Lemma effect_apart i w w1 w' : apart w w1 -> effect i w1 w' -> effect i w w'.
Proof.
  intros Ha (h & Hx & He & Ho). exists h. split_and!; [by eapply explains_apart | | intros route; by eapply obeys_apart].
  apply (emits_trans [] h.2 w w1); [by apply apart_emits | done].
Qed.

Lemma effect_settled c msg (p : Prog unit) w w' :
  is_method_call msg = true -> own_call msg = true -> interfered p w tt w' -> flows (to_client c) p ->
  (forall u, stays c u -> answerable c u msg -> replies c u msg p) -> effect (InClient c msg) w w'.
Proof.
  intros Hmc Hown H Hf Hr. apply (effect_traffic (to_client c)); [by eapply interfered_flows |].
  intros l _ He. cbn [explains]. rewrite Hmc, Hown. split; [done | by eapply interfered_settled].
Qed.

Lemma daemon_effect c msg w w' :
  ready w -> is_dbus_daemon_call msg = true -> is_method_call msg = true ->
  interfered (handle_dbus_method_async c msg) w tt w' -> effect (InClient c msg) w w'.
Proof.
  intros Hw Hd Hmc. unfold handle_dbus_method_async. set (member := default "" (member_str msg)).
  assert (member ∈ daemon_methods -> own_call msg = true) as Hown
    by (intros; unfold own_call; by rewrite Hd, bool_decide_eq_true_2).
  repeat match goal with
    | |- context [String.eqb member ?name] =>
        destruct (String.eqb_spec member name) as [Hm|?];
        [assert (own_call msg = true) by (apply Hown; rewrite Hm; unfold daemon_methods; set_solver);
         intros Hi; eapply effect_settled; [done | done | exact Hi | | intros u Hu Ha] |]
    end;
    [apply flows_request_name | by apply replies_request_name | apply flows_release_name | by apply replies_release_name
    | apply flows_add_match | by apply replies_add_match | apply flows_remove_match | by apply replies_remove_match |].
  case_bool_decide as Hin; intros Hi.
  - eapply effect_settled; [done | by apply Hown | exact Hi | by apply flows_act, within_daemon_method |].
    intros u Hu Ha. by apply replies_daemon_method.
  - revert Hi. apply interfered_call; [done | done | | done |].
    + unfold own_call. by rewrite Hd, bool_decide_eq_false_2.
    + intros e. eexists _, _. split; [done |]. unfold mux_error_names. set_solver.
Qed.

Lemma client_effect c msg w w' :
  ready w -> interfered (handle_client_message_async c msg) w tt w' -> effect (InClient c msg) w w'.
Proof.
  intros Hw. unfold handle_client_message_async. destruct (is_dbus_daemon_call msg && is_method_call msg) eqn:Hd.
  { apply andb_true_iff in Hd as [Hd Hmc]. by apply daemon_effect. }
  intros H. apply interfered_Act in H as (w1 & A1 & H). apply (effect_apart _ w w1); [done |].
  cbn [router_route_for get fst snd] in H. destruct (is_method_call msg) eqn:Hmc.
  - rewrite andb_true_r in Hd. revert H. apply interfered_call; [by eapply ready_apart | done | | done |].
    + unfold own_call. by rewrite Hd.
    + intros e. eexists _, _. split; [done |]. unfold mux_error_names. set_solver.
  - apply interfered_done in H as [_ A2]. apply effect_quiet; [done |]. cbn [explains]. by rewrite Hmc.
Qed.

(** At most one message is delivered, to the client it is for; one is when the
    client is connected and its channel open. *)
Definition delivered (c : Z) (m : Message) (w : World) (l : list Event) : Prop :=
  (l = [] \/ l = [EvDeliver c m]) /\
  forall u, stays c u -> connected c u (mux w) -> (forall l m, tx_send l c m = true) -> l = [EvDeliver c m].

Lemma deliver_emits c m w : exists l, emits l w (deliver c (fun _ _ => m) w).2 /\ delivered c m w l.
Proof.
  unfold deliver, bind, get, delivered, connected. destruct (clients (mux w) !! c) as [info|] eqn:Hi.
  2:{ exists []. split; [by apply emits_nil |]. split; [by left |]. by intros u _ (? & ? & _). }
  unfold send_to. destruct (tx_send (log w) c m) eqn:Ht.
  - exists [EvDeliver c m]. split; [by exists [EvDeliver c m] |]. split; [by right | done].
  - exists []. split; [by apply emits_nil |]. split; [by left |]. intros u _ _ Ho. by rewrite Ho in Ht.
Qed.

(** The rest of the handler of a reply, once it is known whose it is. *)
Lemma interfered_deliver (p : Prog unit) c m w w' :
  flows (fun _ => False) p -> interfered (p &; act (deliver c (fun _ _ => m))) w tt w' ->
  (forall r, gen r w' = gen r w) /\ serials_pending (mux w') = serials_pending (mux w) /\
  exists l, emits l w w' /\ delivered c m w l.
Proof.
  intros Hp H. apply interfered_bind in H as ([] & w1 & H1 & H). apply (interfered_flows _ _ _ _ _ Hp) in H1.
  apply interfered_act in H as (w2 & A2 & _ & A3). assert (apart w w2) as A by (by etrans).
  assert (traffic (fun _ => True) w2 (deliver c (fun _ _ => m) w2).2) as D by (by apply within_deliver).
  destruct (A) as [G1 P1 S1 _], D as [G2 P2 _ _], (A3) as [G3 P3 _ _].
  split_and!; [intros r; by rewrite G3, G2 | by rewrite P3, P2 |].
  destruct (deliver_emits c m w2) as (l & He & Hl1 & Hl2). exists l. split; [| split; [done |]].
  - rewrite <- (app_nil_r l). apply (emits_trans [] (l ++ []) w w2); [by apply apart_emits |].
    by apply (emits_trans l [] _ _ _ He), apart_emits.
  - intros u Hs Hc. apply (Hl2 u); [done | by apply S1].
Qed.

Lemma effect_replied route msg rs w w1 w' l :
  is_method_return msg || is_error msg = true ->
  reply_serial msg = Some rs -> (forall r, gen r w1 = gen r w) ->
  serials_pending (mux w1) = (sm_remove route rs (serials_pending (mux w))).1 -> log w1 = log w ->
  (forall r, gen r w' = gen r w1) -> serials_pending (mux w') = serials_pending (mux w1) -> emits l w1 w' ->
  match fst <$> entry w route rs with Some (c, cs) => delivered c (reply_for msg cs) w l | None => l = [] end ->
  effect (InBus route (Ok (Some msg))) w w'.
Proof.
  intros Hty Hrs G1 P1 L1 G2 P2 He Hl. exists (LReply route rs (fst <$> entry w route rs), l). split_and!.
  - cbn [explains]. rewrite Hty, Hrs. by eexists.
  - by apply (emits_trans [] l w w1); [apply emits_nil |].
  - intros r. apply effect_reply; [intros r'; by rewrite G2 | by rewrite P2].
Qed.

Lemma reply_effect msg route w w' :
  is_method_return msg || is_error msg = true ->
  interfered (handle_bus_reply_async msg route) w tt w' -> effect (InBus route (Ok (Some msg))) w w'.
Proof.
  intros Hty H. apply interfered_Act in H as (w0 & A0 & H). apply (effect_apart _ w w0); [done |].
  unfold handle_reply in H. destruct (reply_serial msg) as [rs|] eqn:Hrs; cbn [fst snd ret] in H.
  2:{ apply interfered_done in H as [_ A1]. apply effect_quiet; [done |]. cbn [explains]. by rewrite Hty, Hrs. }
  unfold bind, update, sm_remove, ret in H. cbn [fst snd] in H.
  set (w1 := mkWorld _ (log w0)) in H.
  assert (forall r, gen r w1 = gen r w0) as G1 by (intros r; unfold gen, w1; cbn [mux]; by rewrite conn_with_serial_map).
  assert (fst <$> entry w0 route rs
    = (fun p => (pc_client_id p, pc_client_serial p)) <$> pending (serials_pending (mux w0)) !! mkSerialKey route rs) as Ha
    by (unfold entry; by destruct (pending (serials_pending (mux w0)) !! _)).
  destruct (pending (serials_pending (mux w0)) !! mkSerialKey route rs) as [pc|]; cbn in H, Ha.
  - apply interfered_deliver in H as (G2 & P2 & l & He & Hl).
    + apply (effect_replied route msg rs w0 w1 w' l); try done. by rewrite Ha.
    + clear H. repeat case_match; try done. apply flows_Act; [flow | intros t]. apply flows_act. flow.
  - apply interfered_done in H as [_ A2]. destruct (A2) as [G2 P2 _ _].
    apply (effect_replied route msg rs w0 w1 w' []); try done; [by apply apart_emits | by rewrite Ha].
Qed.

Lemma bus_effect msg route w w' :
  interfered (handle_bus_message_async msg route) w tt w' -> effect (InBus route (Ok (Some msg))) w w'.
Proof.
  intros H. destruct (is_method_return msg || is_error msg) eqn:Hty.
  - destruct (reply_is_no_signal msg Hty) as [Hsig Hnoc]. unfold handle_bus_message_async in H.
    rewrite Hnoc, Hty, Hsig in H. apply interfered_bind in H as ([] & w1 & H1 & H2).
    apply interfered_done in H2 as [_ A2]. apply reply_effect in H1 as (h & Hx & He & Ho); [| done].
    destruct (A2) as [G2 P2 _ _]. exists h. split_and!; [done | |].
    + rewrite <- (app_nil_r h.2). by apply (emits_trans _ [] _ _ _ He), apart_emits.
    + intros r Ht Hg. destruct (Ho r Ht Hg) as [K1 K2 K3 K4 K5].
      split; [by rewrite P2 | by rewrite G2 | done | | done]. intros n. rewrite <- K4. unfold entry. by rewrite P2.
  - apply (effect_traffic delivery); [| intros l Hl _; cbn [explains]; by rewrite Hty].
    refine (interfered_flows _ _ _ _ _ _ H).
    unfold handle_bus_message_async. rewrite Hty. repeat case_match; try done; try (apply flows_act, within_table).
    apply flows_bind; [done | intros _]. apply flows_signal.
Qed.

Lemma tick_effect w w' : interfered cleanup_tick_async w tt w' -> effect InTick w w'.
Proof.
  intros H. apply interfered_Act in H as (w1 & A1 & H).
  assert (apart w (emit EvTick w1).2) as A2 by (etrans; [exact A1 | by apply within_emit]).
  apply interfered_Act in H as (w2 & A3 & H). apply (effect_apart _ w w2); [by etrans |].
  clear w w1 A1 A2 A3. unfold router_cleanup_expired, bind, now, update in H. cbn [fst snd] in H.
  assert (apart (mkWorld (with_serial_map (sm_cleanup_expired (clock (log w2)) (serials_pending (mux w2))).1 (mux w2)) (log w2)) w')
    as A. { refine (interfered_flows _ _ _ _ _ _ H). apply flows_Act; [flow | intros t]. apply flows_Act; [flow | done]. }
  destruct (A) as [G P _ _]. exists (LCleanup (clock (log w2)), []). split_and!; [by eexists | by apply apart_emits in A |].
  intros route. apply effect_cleanup; [| by rewrite P].
  intros r. rewrite G. unfold gen. cbn [mux]. by rewrite conn_with_serial_map.
Qed.

Lemma handler_effect i w w' : ready w -> interfered (handler_of i) w tt w' -> effect i w w'.
Proof.
  destruct i as [[h|e]|h|r [[msg|]|e]|c msg|]; cbn [handler_of]; intros Hw H;
    try (by apply interfered_done in H as [_ A]; apply effect_quiet).
  - by apply bus_effect.
  - by apply client_effect.
  - by apply tick_effect.
Qed.

Lemma handled_effects inputs w w' :
  ready w -> handled w inputs w' ->
  exists hs, Forall2 explains inputs hs /\ emits (concat hs.*2) w w' /\ forall route, trace (obeys route) w hs.*1 w'.
Proof.
  revert w. induction inputs as [|[i v] inputs IH]; intros w Hw; cbn [handled].
  { intros ->. exists []. split_and!; [constructor | by apply emits_nil | constructor]. }
  intros (-> & w1 & H1 & H2). destruct (handler_effect i w w1 Hw H1) as (h & Hx1 & He1 & Ho).
  destruct (IH w1 (ready_obeys _ _ _ Hw Ho) H2) as (hs & Hx & He & Htr). exists (h :: hs).
  split_and!; [by constructor | by eapply emits_trans | intros route; by econstructor].
Qed.

Lemma drawn_length route ls : (drawn route ls <= length ls)%nat.
Proof. unfold drawn. induction ls as [|l ls IH]; simpl; [done |]. destruct (draws route l); simpl; lia. Qed.
End Effects.

(** ** Theorem *)

Section Theorems.
Context {ZB : Zbus} {ZL : ZbusLaws} {E : Env} {St : Staying}.

End Theorems.

(** ** Witness *)

Section Witnesses.
#[local] Existing Instance SimpleZbus.
#[local] Existing Instance SimpleZbusLaws.
#[local] Existing Instance SimpleEnv.

(** Two clients call a service under the same serial of their own; the first one
    is half forwarded when the second one, which has no names and no rules,
    leaves, and gets its reply afterwards. *)
Definition ex_crossing : list Choice :=
  let first := mkAccepted 1 ":mux.1" (mkClientCredentials 1000 (Some 42) 1000) in
  let second := mkAccepted 2 ":mux.2" (mkClientCredentials 1001 (Some 43) 1000) in
  [ChTask (InAccept (Ok first)); ChStep 0; ChTask (InAccept (Ok second)); ChStep 1;
   ChInput (InClient 2 (s_call ":mux.2" 5 "org.a" "G" s_unit)); ChMain; ChMain; ChMain; ChMain; ChMain;
   ChInput (InClient 1 (s_call ":mux.1" 5 "org.a" "F" s_unit)); ChMain; ChMain;
   ChTask (InDisconnect second); ChStep 2; ChMain; ChStep 2; ChMain; ChMain; ChStep 2;
   ChInput (InBus Host (Ok (Some (s_reply 9 2 s_unit)))); ChMain; ChMain].

Definition ex_crossed : Threads := schedule ex_crossing (mkThreads s_world (Done tt) []).

(** The first client stays. *)
#[local] Instance ex_stays : Staying := fun c u => c = 1 /\ u = ":mux.1".

Lemma ex_crossing_stays : Forall (chosen lets_stay) ex_crossing.
Proof. repeat constructor; by intros c u [-> ->]. Qed.

End Witnesses.
