(* ===== verification/Session.v ===== *)
(** * Whole sessions

    What the parts of the multiplexer do together: a client is authenticated
    (src/src/auth.rs), accepted and read from (src/src/client.rs), registered
    and served (src/src/multiplexer.rs), and reads the answers off its socket. *)

From S2P Require Import Prelude RustStr Zbus SimpleZbus Errors Message Routing NameQueue SerialMap MatchRules Portal World SimpleEnv Router Multiplexer Frames MuxCalls MuxRules MuxNames Race Isolation Auth Client ClientProofs Stream MuxInv.

#[local] Open Scope Z_scope.

Section Session.
Context {ZB : Zbus} {ZL : ZbusLaws} {E : Env}.

(** What [handle_new_client] keeps of the handler it got from [accept]. *)
Definition accepted_of (h : ClientHandler) : Accepted :=
  mkAccepted (ch_id h) (ch_unique_name h) (mkClientCredentials (ch_uid h) (ch_pid h) (ch_gid h)).

(** What the client's task hands over is what the main loop receives. *)
Definition inputs_of (msgs : list (Z * Message)) : list Input := (fun x => InClient x.1 x.2) <$> msgs.

(** ** Calls to the daemon, one after the other *)

(** A call the multiplexer answers itself. *)
Definition own_call (msg : Message) : Prop :=
  is_method_call msg = true /\ is_dbus_daemon_call msg = true /\
  exists name, member_str msg = Some name /\ name ∈ daemon_methods.

Lemma own_call_answered c u msg :
  own_call msg -> answerable c u msg -> effect c u (answered c u msg) (handle_client_message c msg).
Proof.
  intros (Hm & Hd & name & Hn & Hin) Ha. unfold handle_client_message. rewrite Hm, Hd.
  by apply (answers_dispatch c u msg Ha name).
Qed.

(** A client that writes a call, in the pieces [cut] says, and waits: its task
    reads what there is and hands over what it finds, the main loop handles
    that, and the task writes to the socket what was put into the client's
    channel; then the client goes on with the next call. *)
Fixpoint lockstep (c : Z) (cuts : list (list TaskStep)) (t : Task) (w : World) : Task * World :=
  match cuts with
  | [] => (t, w)
  | cut :: rest =>
      let t1 := run_task (cut ++ [PollRead true]) t in
      let w1 := (run (inputs_of (drop (length (inbound t)) (inbound t1))) w).2 in
      let answers := snd <$> filter (fun x => x.1 = c) (deliveries (drop (length (log w)) (log w1))) in
      let t2 := run_task ((fun r => Outbound r (Ok tt)) <$> answers) t1 in
      lockstep c rest t2 w1
  end.

(** One call is read, handled and answered. *)
Lemma lockstep_round c u done m cut t w :
  waiting c done t -> connected c u (mux w) -> own_call m -> answerable c u m -> wire_ok m ->
  Forall reading cut -> arrivals true cut = data_bytes m ->
  exists r t2 w1 evs,
    (forall rest, lockstep c (cut :: rest) t w = lockstep c rest t2 w1) /\ waiting c (done ++ [m]) t2 /\
    outbound t2 = outbound t ++ [r] /\ is_answer_to m u r /\ connected c u (mux w1) /\
    log w1 = log w ++ evs /\ sends evs = [] /\ deliveries evs = [(c, r)].
Proof.
  intros Ht Hc Ho Ha Hm Hcut Harr.
  destruct (waiting_message c done m cut t Ht Hm Hcut Harr) as [Ht1 Hout1].
  destruct (own_call_answered c u m Ho Ha w Hc) as (Hc1 & evs & Hl & Hs & r & Hd & Hr).
  set (t1 := run_task (cut ++ [PollRead true]) t) in *.
  assert (drop (length (inbound t)) (inbound t1) = [(c, m)]) as Hin.
  { rewrite (waiting_inbound _ _ _ Ht), (waiting_inbound _ _ _ Ht1), fmap_app. by rewrite drop_app_length. }
  destruct (waiting_outbound c (done ++ [m]) r t1 Ht1) as [Ht2 Hout2].
  exists r, (task_step t1 (Outbound r (Ok tt))), (handle_client_message c m w).2, evs.
  split_and!; try done; [| by rewrite Hout2, Hout1].
  intros rest. cbn [lockstep]. fold t1. rewrite Hin. cbn [inputs_of fmap list_fmap run run_step fst snd]. unfold bind, ret.
  destruct (handle_client_message c m w) as [[] w1]. cbn [fst snd] in *. rewrite Hl, drop_app_length, Hd.
  rewrite filter_cons_True by done. done.
Qed.

Lemma lockstep_answered c u msgs cuts done t w :
  waiting c done t -> connected c u (mux w) -> Forall own_call msgs -> Forall (answerable c u) msgs -> Forall wire_ok msgs ->
  Forall2 (fun m cut => Forall reading cut /\ arrivals true cut = data_bytes m) msgs cuts ->
  let '(t', w') := lockstep c cuts t w in
  exists rs evs, Forall2 (fun m r => is_answer_to m u r) msgs rs /\ waiting c (done ++ msgs) t' /\
    outbound t' = outbound t ++ rs /\ log w' = log w ++ evs /\ sends evs = [] /\ deliveries evs = pair c <$> rs.
Proof.
  intros Ht Hc Hown Hans Hw Hcuts. revert done t w Ht Hc. induction Hcuts as [|m cut msgs cuts [Hcut Harr] _ IH]; intros done t w Ht Hc.
  { cbn [lockstep]. exists [], []. rewrite !app_nil_r. by split_and!. }
  apply Forall_cons in Hown as [Ho Hown], Hans as [Ha Hans], Hw as [Hm Hw].
  destruct (lockstep_round c u done m cut t w Ht Hc Ho Ha Hm Hcut Harr)
    as (r & t2 & w1 & evs1 & Hstep & Ht2 & Hout & Hr & Hc1 & Hl & Hs & Hd).
  rewrite Hstep. specialize (IH Hown Hans Hw (done ++ [m]) t2 w1 Ht2 Hc1). destruct (lockstep c cuts t2 w1) as [t' w'].
  destruct IH as (rs & evs2 & Hrs & Ht' & Hout' & Hl' & Hs' & Hd'). exists (r :: rs), (evs1 ++ evs2).
  rewrite <- app_assoc in Ht'. split_and!; [by constructor | done | | | |].
  - by rewrite Hout', Hout, <- app_assoc.
  - by rewrite Hl', Hl, app_assoc.
  - by rewrite sends_app, Hs.
  - by rewrite deliveries_app, Hd, Hd'.
Qed.

End Session.

(** ** Who a client is *)

Section Identity.
Context {ZB : Zbus} {ZL : ZbusLaws} {E : Env} {EL : EnvLaws}.

Lemma unix_user_of_client c msg d info w :
  wf_mux (mux w) -> clients (mux w) !! d = Some info -> deserialize BStr msg = Ok (mux_name d) ->
  handle_get_connection_unix_user c msg w = send_reply_to_client c msg (BodyU32 (uid (credentials info))) w.
Proof.
  intros Hwf Hd Hb. unfold handle_get_connection_unix_user, with_body. rewrite Hb.
  assert (String.eqb (mux_name d) "org.freedesktop.DBus" = false) as -> by done.
  unfold bind. by rewrite (credentials_by_unique_name d info).
Qed.

(** C32. The user id a client claims is the one others are told: whichever UID a
    client names in its authentication, it is accepted, and from then on,
    whatever the other clients, the buses and the clock do, GetConnectionUnixUser
    on the client's unique name answers that UID.  No step compares it with the
    credentials of the socket. *)
Theorem claimed_uid_reported (server_guid : string) (own_uid : Z)
    (hex_decode : string -> result string string) (hex_encode : string -> string)
    (counter : Z) (cred : result IoError (option Z * Z))
    (challenge negotiate : bool) (claimed : Z) (rest : string) (ins : list (result IoError string)) w :
  (forall s, hex_decode (hex_encode s) = Ok s) ->
  (forall s, all_chars hex_char (hex_encode s) = true) ->
  0 <= claimed < u32_modulus -> Forall good_chunk ins ->
  arrived ins = client_script challenge negotiate (encode_uid hex_encode claimed) +:+ rest ->
  wf_mux (mux w) -> 0 <= counter < u64_modulus ->
  exists h later,
    accept server_guid own_uid hex_decode (fun _ => None) counter cred ins =
      (wrap64 (counter + 1), Some (Ok (h, later))) /\
    forall inputs c msg, Forall input_ok inputs -> Forall (not_from counter) inputs ->
      deserialize BStr msg = Ok (mux_name counter) ->
      let w' := (run (InAccept (Ok (accepted_of h)) :: inputs) w).2 in
      handle_get_connection_unix_user c msg w' = send_reply_to_client c msg (BodyU32 claimed) w'.
Proof.
  intros Hhex Halpha Hu Hg Hins Hwf Hid.
  destruct (accept_hands_over server_guid own_uid hex_decode hex_encode counter cred challenge negotiate claimed rest
    ins Hhex Halpha Hu Hg Hins) as (h & later & Ha & Hcl & _).
  exists h, later. split; [done |]. intros inputs c msg Hok Hnot Hb. cbv zeta.
  assert (input_ok (InAccept (Ok (accepted_of h)))) as Hacc.
  { unfold input_ok, accepted_of, ch_id, ch_unique_name. by rewrite Hcl. }
  assert (wf_mux (mux (run [InAccept (Ok (accepted_of h))] w).2)) as Hwf1 by (apply wf_mux_run; [by constructor | done]).
  set (w1 := (run [InAccept (Ok (accepted_of h))] w).2) in *.
  change (run (InAccept (Ok (accepted_of h)) :: inputs) w) with (run inputs w1).
  assert (clients (mux w1) !! counter =
    Some (mkClientInfo (mux_name counter) ∅ ClientMatchRules_new
            (mkClientCredentials claimed (peer_pid_gid cred).1 (peer_pid_gid cred).2))) as Hc1.
  { unfold w1. cbn [run run_step]. unfold bind, register_client, modify, ret, accepted_of,
      ch_id, ch_unique_name, ch_uid, ch_pid, ch_gid. rewrite Hcl. cbn. apply lookup_insert_eq. }
  assert (kept (fun d => d = counter) (mux w1) (mux (run inputs w1).2)) as (_ & Hkept & _).
  { apply (preserves_run (kept (fun d => d = counter) (mux w1))).
    - eapply Forall_impl; [done |]. intros i Hi. apply kept_input. by intros d ->.
    - split_and!; [apply (wf_names _ Hwf1) | intros; apply record_kept_refl | done]. }
  specialize (Hkept counter eq_refl). rewrite Hc1 in Hkept. unfold record_kept in Hkept.
  destruct (clients (mux (run inputs w1).2) !! counter) as [info|] eqn:Ei; [| done].
  destruct Hkept as (_ & _ & Hcred & _).
  rewrite (unix_user_of_client c msg counter info) by (done || by apply wf_mux_run). by rewrite Hcred.
Qed.

(** ** What clients learn about queues *)

Lemma list_queued_owners_entries self name :
  list_queued_owners name self = map qe_unique_name (owners self name).
Proof.
  unfold list_queued_owners, owners. destruct (queues self !! name) as [q|]; [| done].
  unfold all_owners, queue_entries. by destruct (primary_owner q).
Qed.

(** ListQueuedOwners answers with the owner and the waiters of the queue, in
    order; so for a name nobody has asked for, or one that is owned on a bus by
    somebody else, it answers an empty list and not the error NameHasNoOwner. *)
Lemma queued_owners_answer c msg name w :
  deserialize BStr msg = Ok name ->
  handle_list_queued_owners c msg w =
    send_reply_to_client c msg (BodyStrs (map qe_unique_name (owners (name_queue (mux w)) name))) w.
Proof.
  intros Hb. unfold handle_list_queued_owners, with_body. rewrite Hb. unfold bind, get.
  by rewrite list_queued_owners_entries.
Qed.
End Identity.

(** ** Witnesses *)

Section Witnesses.
#[local] Existing Instance SimpleZbus.
#[local] Existing Instance SimpleZbusLaws.
#[local] Existing Instance SimpleEnv.

#[local] Instance session_laws : EnvLaws.
Proof. apply env_with_laws. Qed.

(** A client that claims to be root. *)
Definition ex_root : list (result IoError string) :=
  [Ok (String NUL "AUTH EXTERNAL "); Ok (simple_hex_encode "0" +:+ CRLF +:+ "BEGIN" +:+ CRLF)].

Definition ex_who : Message := s_call ":mux.3" 4 "org.freedesktop.DBus" "GetConnectionUnixUser" (s_str ":mux.7").

Lemma claimed_uid_reported_witness :
  exists h later,
    accept "guid" 1000 simple_hex_decode (fun _ => None) 7 (Ok (Some 42, 100)) ex_root = (8, Some (Ok (h, later))) /\
    let w' := (run [InAccept (Ok (accepted_of h)); InTick] s_world).2 in
    handle_get_connection_unix_user 3 ex_who w' = send_reply_to_client 3 ex_who (BodyU32 0) w'.
Proof.
  destruct (claimed_uid_reported "guid" 1000 simple_hex_decode simple_hex_encode 7 (Ok (Some 42, 100)) false false 0 ""
    ex_root s_world) as (h & later & Ha & Hw).
  - apply simple_hex_roundtrip.
  - apply simple_hex_alphabet.
  - by vm_compute.
  - apply (bool_decide_unpack _). vm_compute. exact I.
  - reflexivity.
  - apply wf_mux_fresh.
  - by vm_compute.
  - exists h, later. split; [exact Ha |]. by apply (Hw [InTick]); [repeat constructor .. |].
Defined.

(** Two Pings, the first cut in two. *)
Definition ex_cuts : list (list TaskStep) :=
  [[Arrive (take 20 ex_bytes); PollRead true; Arrive (drop 20 ex_bytes)]; [Arrive ex_bytes]].

Lemma ex_ping_call : own_call ex_msg /\ wire_ok ex_msg.
Proof.
  split.
  - split_and!; [done | done |]. exists "Ping". split; [done |]. apply (bool_decide_unpack _). vm_compute. exact I.
  - split_and!; [reflexivity .. | done | vm_compute; reflexivity].
Qed.

Lemma ex_cuts_whole :
  Forall2 (fun m cut => Forall reading cut /\ arrivals true cut = data_bytes m) [ex_msg; ex_msg] ex_cuts.
Proof. repeat constructor; vm_compute; reflexivity. Qed.

End Witnesses.
