(* ===== verification/Channels.v ===== *)
(** * Channels between the main loop and the client tasks

    The bounded channels of src/src/multiplexer.rs and the tasks of
    src/src/client.rs around them.  Every client task reads messages from its
    socket and sends them to the one inbound channel; the main loop takes them
    from there, runs the handler of [Multiplexer] and sends what it delivers to
    the outbound channels of the clients.  A send into a full channel waits, and
    the main loop holds the lock on the clients meanwhile, so that no client can
    come or go.  What the handlers do to the state is their effect in
    [Multiplexer]; their deliveries are the ones they log. *)

From S2P Require Import Prelude RustStr Zbus SimpleZbus Errors Message Routing NameQueue SerialMap MatchRules Portal World SimpleEnv Router Multiplexer MuxCalls.

#[local] Open Scope Z_scope.

(** [mpsc::channel(1024)] and [mpsc::channel(256)] *)
Definition INBOUND_CAPACITY : nat := Z.to_nat 1024.
Definition OUTBOUND_CAPACITY : nat := Z.to_nat 256.

Section Channels.
Context {ZB : Zbus} {E : Env}.

(** Where the loop of [ClientHandler::run] is: in [select!], in
    [inbound_tx.send(...).await] or in [self.send_message(...).await]. *)
Inductive Phase :=
| AtSelect
| SendingInbound (msg : Message)
| Writing (msg : Message).

(** A client task and the outbound channel it receives from. *)
Record Peer := mkPeer {
  phase : Phase;
  outbound_rx : list Message;
}.

(** [to_deliver] is what the handler that runs in the main loop has still to send. *)
Record System := mkSystem {
  world : World;
  client_msg_rx : list (Z * Message);
  to_deliver : list (Z * Message);
  peers : gmap Z Peer;
}.

Inductive Move :=
| Read (c : Z) (msg : Message)   (* [read_message] returns a message *)
| SendInbound (c : Z)            (* [inbound_tx.send] completes *)
| RecvOutbound (c : Z)           (* [outbound_rx.recv] returns a message *)
| Written (c : Z)                (* [send_message] completes *)
| Exit (c : Z)                   (* the loop breaks; the outbound channel closes *)
| Handle                         (* the main loop takes a message of a client *)
| HandleBus (route : Route) (msg : Message)
| Tick
| Deliver                        (* [info.tx.send] completes *)
| Join (h : Accepted)
| Leave (h : Accepted).

Definition set_peer (c : Z) (p : Peer) (s : System) : System :=
  mkSystem (world s) (client_msg_rx s) (to_deliver s) (<[c := p]> (peers s)).

(** The main loop runs a handler: its deliveries are still to be sent. *)
Definition handle_input (i : Input) (rx : list (Z * Message)) (s : System) : System :=
  let w' := (run_step i (world s)).2 in
  mkSystem w' rx (deliveries (drop (length (log (world s))) (log w'))) (peers s).

(** What the tasks do between inputs of the main loop, with the lock on the
    clients: only while the main loop is not waiting for a channel. *)
Definition change_clients (i : Input) (ps : gmap Z Peer) (s : System) : System :=
  mkSystem (run_step i (world s)).2 (client_msg_rx s) (to_deliver s) ps.

Definition main_idle (s : System) : bool := match to_deliver s with [] => true | _ => false end.

(** A channel is tokio's [mpsc]: first in, first out, and a send completes only
    while fewer messages than the capacity wait.  That is its documented
    behaviour and part of the model, not something the theorems show. *)
Definition exec (l : Move) (s : System) : option System :=
  match l with
  | Read c msg =>
      match peers s !! c with
      | Some (mkPeer AtSelect q) => Some (set_peer c (mkPeer (SendingInbound msg) q) s)
      | _ => None
      end
  | SendInbound c =>
      match peers s !! c with
      | Some (mkPeer (SendingInbound msg) q) =>
          if (length (client_msg_rx s) <? INBOUND_CAPACITY)%nat
          then Some (mkSystem (world s) (client_msg_rx s ++ [(c, msg)]) (to_deliver s)
                       (<[c := mkPeer AtSelect q]> (peers s)))
          else None
      | _ => None
      end
  | RecvOutbound c =>
      match peers s !! c with
      | Some (mkPeer AtSelect (msg :: q)) => Some (set_peer c (mkPeer (Writing msg) q) s)
      | _ => None
      end
  | Written c =>
      match peers s !! c with
      | Some (mkPeer (Writing _) q) => Some (set_peer c (mkPeer AtSelect q) s)
      | _ => None
      end
  | Exit c =>
      match peers s !! c with
      | Some (mkPeer AtSelect _) | Some (mkPeer (Writing _) _) =>
          Some (mkSystem (world s) (client_msg_rx s) (to_deliver s) (delete c (peers s)))
      | _ => None
      end
  | Handle =>
      match to_deliver s, client_msg_rx s with
      | [], (c, msg) :: rx => Some (handle_input (InClient c msg) rx s)
      | _, _ => None
      end
  | HandleBus route msg =>
      if main_idle s then Some (handle_input (InBus route (Ok (Some msg))) (client_msg_rx s) s) else None
  | Tick => if main_idle s then Some (handle_input InTick (client_msg_rx s) s) else None
  | Deliver =>
      match to_deliver s with
      | [] => None
      | (c, msg) :: rest =>
          match peers s !! c with
          | Some (mkPeer p q) =>
              if (length q <? OUTBOUND_CAPACITY)%nat
              then Some (mkSystem (world s) (client_msg_rx s) rest (<[c := mkPeer p (q ++ [msg])]> (peers s)))
              else None
          | None => Some (mkSystem (world s) (client_msg_rx s) rest (peers s))
          end
      end
  | Join h =>
      if main_idle s then
        match peers s !! ac_client_id h with
        | None => Some (change_clients (InAccept (Ok h)) (<[ac_client_id h := mkPeer AtSelect []]> (peers s)) s)
        | Some _ => None
        end
      else None
  | Leave h =>
      if main_idle s then
        match peers s !! ac_client_id h with
        | None => Some (change_clients (InDisconnect h) (peers s) s)
        | Some _ => None
        end
      else None
  end.

Definition move (s : System) (l : Move) (s' : System) : Prop := exec l s = Some s'.

Fixpoint exec_all (ls : list Move) (s : System) : option System :=
  match ls with
  | [] => Some s
  | l :: rest => match exec l s with Some s' => exec_all rest s' | None => None end
  end.

Definition System_new (w : World) : System := mkSystem w [] [] ∅.

(** ** Bounds and blocking *)

Definition bounded (s : System) : Prop :=
  (length (client_msg_rx s) <= INBOUND_CAPACITY)%nat /\
  map_Forall (fun _ p => (length (outbound_rx p) <= OUTBOUND_CAPACITY)%nat) (peers s).

(** The tasks that wait for room in the inbound channel. *)
Definition is_sending (p : Peer) : Prop := match phase p with SendingInbound _ => True | _ => False end.

#[export] Instance is_sending_dec p : Decision (is_sending p).
Proof. unfold is_sending. destruct (phase p); apply _. Defined.

Definition waiting (s : System) : nat := size (filter (fun kv => is_sending kv.2) (peers s)).

(** The inbound channel has room for every task that wants to send. *)
Definition has_room (s : System) : Prop := (length (client_msg_rx s) + waiting s <= INBOUND_CAPACITY)%nat.

(** The main loop waits for the outbound channel of [c], which is full, while the
    task of [c] waits for the inbound channel, which is full too. *)
Definition locked (c : Z) (s : System) : Prop :=
  exists msg rest msg' q, to_deliver s = (c, msg) :: rest /\
    peers s !! c = Some (mkPeer (SendingInbound msg') q) /\
    (OUTBOUND_CAPACITY <= length q)%nat /\ (INBOUND_CAPACITY <= length (client_msg_rx s))%nat.

(** Moves that need nothing new from a client or a bus. *)
Definition internal (l : Move) : bool :=
  match l with SendInbound _ | RecvOutbound _ | Written _ | Deliver => true | _ => false end.

(** *** Histories *)

(** What the main loop has handled, and what went into and out of the outbound
    channel of [c], along a sequence of moves. *)
Fixpoint history {A} (f : Move -> System -> list A) (ls : list Move) (s : System) : list A :=
  match ls with
  | [] => []
  | l :: rest => f l s ++ match exec l s with Some s' => history f rest s' | None => [] end
  end.

Definition of_client (c : Z) (l : list (Z * Message)) : list Message :=
  omap (fun '(d, m) => if decide (d = c) then Some m else None) l.

Definition was_read (c : Z) (l : Move) (_ : System) : list Message :=
  match l with Read d m => if decide (d = c) then [m] else [] | _ => [] end.

Definition was_handled (c : Z) (l : Move) (s : System) : list Message :=
  match l with Handle => of_client c (take 1 (client_msg_rx s)) | _ => [] end.

Definition was_delivered (c : Z) (l : Move) (s : System) : list Message :=
  match l, peers s !! c with Deliver, Some _ => of_client c (take 1 (to_deliver s)) | _, _ => [] end.

Definition was_received (c : Z) (l : Move) (s : System) : list Message :=
  match l, peers s !! c with
  | RecvOutbound d, Some p => if decide (d = c) then take 1 (outbound_rx p) else []
  | _, _ => []
  end.

(** The message a task has read and not sent on. *)
Definition in_hand (c : Z) (s : System) : list Message :=
  match peers s !! c with Some (mkPeer (SendingInbound m) _) => [m] | _ => [] end.

Definition queued (c : Z) (s : System) : list Message :=
  match peers s !! c with Some p => outbound_rx p | None => [] end.

(** ** Lemmas *)

(** One move, by cases on what enables it. *)
#[local] Ltac by_move H :=
  unfold exec, main_idle, set_peer, handle_input, change_clients in H;
  repeat (case_match; simplify_eq/=).

Lemma bounded_step s l s' : bounded s -> exec l s = Some s' -> bounded s'.
Proof.
  intros [Hi Ho] H.
  assert (forall c p q, peers s !! c = Some (mkPeer p q) -> (length q <= OUTBOUND_CAPACITY)%nat) as Hq
    by (intros c p q Hc; exact (Ho c _ Hc)).
  destruct l; by_move H; split; cbn [client_msg_rx peers]; rewrite ?length_app; cbn [length];
    bool_facts; try lia; try done; try (apply map_Forall_insert_2; [| done]; cbn [outbound_rx]; rewrite ?length_app;
    cbn [length]; try match goal with Hc : peers s !! _ = Some _ |- _ => apply Hq in Hc; cbn [length] in Hc end; lia).
  all: try by apply map_Forall_delete.
Qed.

Lemma exec_all_invariant (I : System -> Prop) :
  (forall s l s', I s -> exec l s = Some s' -> I s') ->
  forall ls s s', I s -> exec_all ls s = Some s' -> I s'.
Proof.
  intros Hstep ls. induction ls as [|l ls IH]; intros s s' Hs H; simpl in H; [congruence |].
  destruct (exec l s) as [s1|] eqn:E1; [| done]. eauto.
Qed.

Lemma locked_step c s l s' : locked c s -> exec l s = Some s' -> locked c s'.
Proof.
  intros (msg & rest & msg' & q & Ht & Hp & Hq & Hi) H.
  assert (forall d p, peers s !! d = Some p -> d = c -> p = mkPeer (SendingInbound msg') q) as Hc
    by (intros d p Hd ->; congruence).
  destruct l; by_move H; bool_facts; try lia; exists msg, rest, msg', q; cbn; split_and!; try done;
    match goal with
    | Hd : peers s !! ?d = Some ?p |- _ => destruct (decide (d = c)) as [->|Hne]; [by specialize (Hc _ _ Hd eq_refl) |]
    end; by rewrite ?lookup_insert_ne, ?lookup_delete_ne.
Qed.

Lemma waiting_set (ps : gmap Z Peer) c p p' :
  ps !! c = Some p ->
  (size (filter (fun kv => is_sending kv.2) (<[c := p']> ps)) + (if decide (is_sending p) then 1 else 0)
   = size (filter (fun kv => is_sending kv.2) ps) + (if decide (is_sending p') then 1 else 0))%nat.
Proof. apply (size_filter_set is_sending). Qed.

Lemma internal_step s l s' :
  internal l = true -> exec l s = Some s' -> world s' = world s /\ (has_room s -> has_room s').
Proof.
  intros Hl H. destruct l; try done; by_move H; (split; [done |]); unfold has_room, waiting; cbn;
    intros Hr; rewrite ?length_app; cbn [length]; try done;
    match goal with
    | Hp : peers s !! ?c = Some ?p |- context [<[?c := ?p']> (peers s)] =>
        pose proof (waiting_set (peers s) c p p' Hp) as Hw
    end; unfold is_sending in *; cbn [phase] in *; repeat case_decide; lia || done.
Qed.

Lemma internal_all ls s s' :
  forallb internal ls = true -> exec_all ls s = Some s' -> world s' = world s /\ (has_room s -> has_room s').
Proof.
  revert s. induction ls as [|l ls IH]; intros s Hl H; simpl in *; [naive_solver |].
  apply andb_true_iff in Hl as [Hl Hls]. destruct (exec l s) as [s1|] eqn:E1; [| done].
  destruct (internal_step s l s1 Hl E1) as [Hw Hr]. destruct (IH s1 Hls H) as [Hw' Hr'].
  split; [congruence | auto].
Qed.

Lemma sending_waits c s p : peers s !! c = Some p -> is_sending p -> (1 <= waiting s)%nat.
Proof.
  intros Hp Hs. pose proof (waiting_set (peers s) c p (mkPeer AtSelect []) Hp) as H.
  unfold waiting. rewrite (decide_True (P := is_sending p)) in H by done.
  rewrite (decide_False (P := is_sending (mkPeer AtSelect []))) in H by (intros []). lia.
Qed.

(** The last steps of a delivery to [c]. *)
Lemma deliver_to c msg rest s :
  to_deliver s = (c, msg) :: rest ->
  (forall p q, peers s !! c = Some (mkPeer p q) -> (length q < OUTBOUND_CAPACITY)%nat) ->
  exists s', exec_all [Deliver] s = Some s' /\ to_deliver s' = rest.
Proof.
  intros Ht Hq. simpl. rewrite Ht. destruct (peers s !! c) as [[p q]|]; [| by eexists].
  specialize (Hq p q eq_refl). apply Nat.ltb_lt in Hq. rewrite Hq. by eexists.
Qed.

Lemma recv_and_deliver_to c msg rest q0 q s :
  to_deliver s = (c, msg) :: rest -> peers s !! c = Some (mkPeer AtSelect (q0 :: q)) ->
  (length q < OUTBOUND_CAPACITY)%nat ->
  exists s', exec_all [RecvOutbound c; Deliver] s = Some s' /\ to_deliver s' = rest.
Proof.
  intros Ht Hp Hq. cbn [exec_all]. cbn [exec]. rewrite Hp.
  apply (deliver_to c msg); [done |]. intros p q'. cbn. rewrite lookup_insert_eq. intros [= _ <-]. done.
Qed.

(** With room in the inbound channel, the next delivery gets through. *)
Lemma deliver_one c msg rest s :
  bounded s -> has_room s -> to_deliver s = (c, msg) :: rest ->
  exists ls s', forallb internal ls = true /\ exec_all ls s = Some s' /\ to_deliver s' = rest.
Proof.
  intros [_ Ho] Hr Ht.
  destruct (peers s !! c) as [[p q]|] eqn:Hp.
  2:{ destruct (deliver_to c msg rest s Ht) as (s' & ? & ?); [congruence |]. by exists [Deliver], s'. }
  specialize (Ho c _ Hp). cbn [outbound_rx] in Ho.
  destruct q as [|q0 q].
  { destruct (deliver_to c msg rest s Ht) as (s' & ? & ?); [| by exists [Deliver], s'].
    rewrite Hp. intros ?? [= _ <-]. by apply Nat.ltb_lt. }
  cbn [length] in Ho. destruct p as [|m|m].
  - destruct (recv_and_deliver_to c msg rest q0 q s Ht Hp Ho) as (s' & ? & ?).
    by exists [RecvOutbound c; Deliver], s'.
  - pose proof (sending_waits c s _ Hp I) as Hw. unfold has_room in Hr.
    assert (length (client_msg_rx s) <? INBOUND_CAPACITY = true)%nat as Hlt by (apply Nat.ltb_lt; lia).
    destruct (recv_and_deliver_to c msg rest q0 q (mkSystem (world s) (client_msg_rx s ++ [(c, m)]) (to_deliver s)
      (<[c := mkPeer AtSelect (q0 :: q)]> (peers s))) Ht) as (s' & Hs' & ?); [apply lookup_insert_eq | done |].
    exists [SendInbound c; RecvOutbound c; Deliver], s'. split_and!; [done | | done].
    rewrite <- Hs'. cbn [exec_all]. cbn [exec]. by rewrite Hp, Hlt.
  - destruct (recv_and_deliver_to c msg rest q0 q (set_peer c (mkPeer AtSelect (q0 :: q)) s) Ht)
      as (s' & Hs' & ?); [apply lookup_insert_eq | done |].
    exists [Written c; RecvOutbound c; Deliver], s'. split_and!; [done | | done].
    rewrite <- Hs'. cbn [exec_all]. cbn [exec]. by rewrite Hp.
Qed.

(** *** Work left *)

(** How many internal moves the tasks and the main loop can still make. *)
Definition peer_work (p : Peer) : nat :=
  (2 * length (outbound_rx p) + match phase p with AtSelect => 0 | _ => 1 end)%nat.

Definition peers_work (ps : gmap Z Peer) : nat := map_fold (fun _ p n => (peer_work p + n)%nat) 0%nat ps.

Definition work (s : System) : nat := (3 * length (to_deliver s) + peers_work (peers s))%nat.

Lemma peers_work_set c p p' (ps : gmap Z Peer) :
  ps !! c = Some p -> (peers_work (<[c := p']> ps) + peer_work p = peers_work ps + peer_work p')%nat.
Proof.
  intros Hp. unfold peers_work. rewrite <- insert_delete_eq.
  rewrite (map_fold_insert_L _ _ c p'); [| lia | by apply lookup_delete_eq].
  rewrite (map_fold_delete_L _ _ c p ps); [lia | lia | done].
Qed.

Lemma internal_work s l s' : internal l = true -> exec l s = Some s' -> (work s' < work s)%nat.
Proof.
  intros Hl H. destruct l; try done; by_move H; unfold work; cbn [to_deliver peers];
    try match goal with
    | Hp : peers s !! ?c = Some ?p |- context [<[?c := ?p']> (peers s)] =>
        pose proof (peers_work_set c p p' (peers s) Hp) as Hw
    end; unfold peer_work in *; cbn [phase outbound_rx length] in *; rewrite ?length_app in *; cbn [length] in *;
    repeat match goal with Ht : to_deliver s = _ |- _ => rewrite Ht; clear Ht end; cbn [length]; lia.
Qed.

Lemma internal_all_work ls s s' :
  forallb internal ls = true -> exec_all ls s = Some s' -> (length ls + work s' <= work s)%nat.
Proof.
  revert s. induction ls as [|l ls IH]; intros s Hl H; simpl in *; [simplify_eq; lia |].
  apply andb_true_iff in Hl as [Hl Hls]. destruct (exec l s) as [s1|] eqn:E1; [| done].
  pose proof (internal_work s l s1 Hl E1). specialize (IH s1 Hls H). lia.
Qed.

(** *** Order *)

Lemma of_client_app c l1 l2 : of_client c (l1 ++ l2) = of_client c l1 ++ of_client c l2.
Proof. apply omap_app. Qed.

(** What the tasks of other clients do does not matter to [c]. *)
#[local] Ltac at_client :=
  rewrite ?lookup_insert, ?lookup_delete; repeat case_decide; simplify_eq/=;
  repeat match goal with
         | H : peers _ !! _ = _ |- _ => rewrite H
         | H : to_deliver _ = _ |- _ => rewrite H
         end;
  rewrite ?app_nil_r, <- ?app_assoc; simpl; try done;
  repeat case_decide; simplify_eq/=; rewrite ?app_nil_r; try done.

Lemma inbound_step c s l s' :
  exec l s = Some s' ->
  of_client c (client_msg_rx s) ++ in_hand c s ++ was_read c l s
  = was_handled c l s ++ of_client c (client_msg_rx s') ++ in_hand c s'.
Proof.
  intros H. destruct l as [d m|d|d|d|d| | | | |h|h]; by_move H; unfold in_hand, was_read, was_handled; cbn;
    rewrite ?of_client_app; unfold of_client; at_client.
Qed.

Lemma outbound_step c s l s' :
  exec l s = Some s' -> l <> Exit c ->
  (queued c s ++ was_delivered c l s = was_received c l s ++ queued c s').
Proof.
  intros H Hl. destruct l as [d m|d|d|d|d| | | | |h|h]; by_move H; unfold queued, was_delivered, was_received; cbn;
    unfold of_client; at_client.
Qed.

(** A channel that takes [entering] in and gives [leaving] out in order. *)
Lemma history_fifo {A} (P : Move -> Prop) (entering leaving : Move -> System -> list A)
    (content : System -> list A) ls s s' :
  (forall s l s', exec l s = Some s' -> P l -> content s ++ entering l s = leaving l s ++ content s') ->
  Forall P ls -> exec_all ls s = Some s' ->
  content s ++ history entering ls s = history leaving ls s ++ content s'.
Proof.
  intros Hstep HP. revert s. induction HP as [|l ls Hl _ IH]; intros s H; simpl in *.
  { simplify_eq. by rewrite app_nil_r. }
  destruct (exec l s) as [s1|] eqn:E1; [| done].
  rewrite app_assoc, (Hstep s l s1 E1 Hl), <- !app_assoc, (IH s1 H). done.
Qed.

(** ** Theorems *)

(** The tasks and the main loop keep the order of the channels: what a client's task has read is what the main loop has handled
    of it, followed by what waits in the inbound channel and what the task is
    about to send; and as long as its task has not exited, which drops what
    waits, what was delivered to a client is what its task has taken from the
    outbound channel, followed by what waits there. *)
Lemma channels_fifo ls w s c :
  exec_all ls (System_new w) = Some s ->
  history (was_read c) ls (System_new w)
    = history (was_handled c) ls (System_new w) ++ of_client c (client_msg_rx s) ++ in_hand c s /\
  (Exit c ∉ ls ->
   history (was_delivered c) ls (System_new w)
     = history (was_received c) ls (System_new w) ++ queued c s).
Proof.
  intros H. split.
  - apply (history_fifo (fun _ => True) (was_read c) (was_handled c)
      (fun s => of_client c (client_msg_rx s) ++ in_hand c s) ls (System_new w) s);
      [| by apply Forall_true | done].
    intros s0 l s1 H1 _. rewrite <- app_assoc. by apply inbound_step.
  - intros Hx. apply (history_fifo (fun l => l <> Exit c) (was_delivered c) (was_received c)
      (queued c) ls (System_new w) s); [intros; by apply outbound_step | | done].
    apply Forall_forall. intros l Hl ->. done.
Qed.

(** C17. The main loop always gets to the end of an input while the inbound channel
    has room for the tasks that want to send: however tasks and main loop are
    scheduled, as long as clients read what is written to them, at most
    [work s] moves are possible without new input, and whenever no move is
    left everything the handler had to deliver is delivered. *)
Theorem main_loop_progress ls w s ls' s' :
  exec_all ls (System_new w) = Some s ->
  (length (client_msg_rx s) + waiting s <= INBOUND_CAPACITY)%nat ->
  forallb internal ls' = true -> exec_all ls' s = Some s' ->
  (length ls' <= work s)%nat /\ world s' = world s /\
  (to_deliver s' = [] \/ exists l s'', internal l = true /\ exec l s' = Some s'').
Proof.
  intros H Hr Hl' H'. apply (exec_all_invariant bounded bounded_step) in H;
    [| split; [apply Nat.le_0_l | apply map_Forall_empty]].
  pose proof (exec_all_invariant bounded bounded_step ls' s s' H H') as Hb.
  destruct (internal_all ls' s s' Hl' H') as [Hw Hroom].
  pose proof (internal_all_work ls' s s' Hl' H'). split_and!; [lia | done |].
  destruct (to_deliver s') as [|[c msg] rest] eqn:Ht; [by left | right].
  destruct (deliver_one c msg rest s' Hb (Hroom Hr) Ht) as ([|l ls2] & s2 & Hi & Hs & Ht2).
  - injection Hs as <-. rewrite Ht in Ht2. apply (f_equal length) in Ht2. simpl in Ht2. lia.
  - simpl in Hi, Hs. apply andb_true_iff in Hi as [Hi _]. destruct (exec l s') as [s3|] eqn:E3; [eauto | done].
Qed.

(** C31. The main loop and a client task can wait for each other for ever: once
    the main loop waits for the full outbound channel of a client whose task
    waits for the full inbound channel, no sequence of moves of anybody
    changes that, and the main loop handles no further input. *)
Theorem deadlock_is_permanent c s ls s' :
  locked c s -> exec_all ls s = Some s' ->
  locked c s' /\ exec Handle s' = None /\ exec Deliver s' = None /\
  (forall route msg, exec (HandleBus route msg) s' = None) /\
  (forall h, exec (Join h) s' = None /\ exec (Leave h) s' = None).
Proof.
  intros Hl H. pose proof (exec_all_invariant (locked c) (locked_step c) ls s s' Hl H) as Hl'.
  split; [done |]. destruct Hl' as (msg & rest & msg' & q & Ht & Hp & Hq & _).
  cbn [exec]. unfold main_idle. rewrite Ht, Hp.
  assert (length q <? OUTBOUND_CAPACITY = false)%nat as -> by (by apply Nat.ltb_ge). done.
Qed.


(** [locked], as a test. *)
Definition is_locked (c : Z) (s : System) : bool :=
  match to_deliver s, peers s !! c with
  | (d, _) :: _, Some (mkPeer (SendingInbound _) q) =>
      (d =? c) && (OUTBOUND_CAPACITY <=? length q)%nat && (INBOUND_CAPACITY <=? length (client_msg_rx s))%nat
  | _, _ => false
  end.

Lemma is_locked_spec c s : is_locked c s = true -> locked c s.
Proof.
  unfold is_locked, locked. destruct (to_deliver s) as [|[d m] rest]; [done |].
  destruct (peers s !! c) as [[[|m'|m'] q]|]; [done | | done | done]. intros [[H1 H2]%andb_true_iff H3]%andb_true_iff.
  apply Z.eqb_eq in H1 as ->. apply Nat.leb_le in H2, H3. by exists m, rest, m', q.
Qed.
End Channels.

(** ** Witnesses *)

Section Witnesses.
#[local] Existing Instance SimpleZbus.
#[local] Existing Instance SimpleZbusLaws.
#[local] Existing Instance SimpleEnv.

Definition ex_joiner : Accepted := mkAccepted 1 ":mux.1" (mkClientCredentials 1000 (Some 42) 1000).
Definition ex_ping : Message := s_call ":mux.1" 5 "org.freedesktop.DBus" "Ping" s_unit.

Definition repeat_moves (n : nat) (ls : list Move) : list Move := concat (replicate n ls).

(** A client pings and its task never gets to read the answers. *)
Definition ex_flood : list Move :=
  [Join ex_joiner] ++ repeat_moves INBOUND_CAPACITY [Read 1 ex_ping; SendInbound 1] ++
  repeat_moves OUTBOUND_CAPACITY [Handle; Deliver; Read 1 ex_ping; SendInbound 1] ++
  [Handle; Read 1 ex_ping; SendInbound 1; Read 1 ex_ping].

Lemma ex_flood_locks :
  match exec_all ex_flood (System_new s_world) with Some s => is_locked 1 s | None => false end = true.
Proof. vm_compute. reflexivity. Qed.

Lemma deadlock_is_permanent_witness :
  exists s, exec_all ex_flood (System_new s_world) = Some s /\
    forall ls s', exec_all ls s = Some s' -> exec Handle s' = None /\ exec Deliver s' = None.
Proof.
  pose proof ex_flood_locks as H. destruct (exec_all ex_flood (System_new s_world)) as [s|]; [| done].
  exists s. split; [reflexivity |]. intros ls s' Hs.
  destruct (deadlock_is_permanent 1 s ls s' (is_locked_spec 1 s H) Hs) as (_ & H1 & H2 & _). by split.
Defined.

(** A client pings twice; one answer is on its way to it. *)
Definition ex_moves : list Move :=
  [Join ex_joiner; Read 1 ex_ping; SendInbound 1; Read 1 ex_ping; Handle; Deliver; SendInbound 1;
   RecvOutbound 1; Handle].

Definition ex_system : System := default (System_new s_world) (exec_all ex_moves (System_new s_world)).

Lemma ex_moves_run : exec_all ex_moves (System_new s_world) = Some ex_system.
Proof.
  assert (match exec_all ex_moves (System_new s_world) with Some _ => true | None => false end = true) as H
    by (vm_compute; reflexivity).
  unfold ex_system. by destruct (exec_all ex_moves (System_new s_world)).
Qed.

Lemma channels_fifo_witness :
  history (was_read 1) ex_moves (System_new s_world)
    = history (was_handled 1) ex_moves (System_new s_world) ++ of_client 1 (client_msg_rx ex_system)
      ++ in_hand 1 ex_system /\
  length (history (was_read 1) ex_moves (System_new s_world)) = 2%nat /\
  length (history (was_delivered 1) ex_moves (System_new s_world)) = 1%nat.
Proof.
  split; [| split; vm_compute; reflexivity].
  exact (proj1 (channels_fifo ex_moves s_world ex_system 1 ex_moves_run)).
Defined.

Definition ex_served : System :=
  default ex_system (exec_all [Written 1; Deliver] ex_system).

Lemma ex_served_run : exec_all [Written 1; Deliver] ex_system = Some ex_served.
Proof.
  assert (match exec_all [Written 1; Deliver] ex_system with Some _ => true | None => false end = true) as H
    by (vm_compute; reflexivity).
  unfold ex_served. by destruct (exec_all [Written 1; Deliver] ex_system).
Qed.

Lemma main_loop_progress_witness :
  length (to_deliver ex_system) = 1%nat /\ (2 <= work ex_system)%nat /\ world ex_served = world ex_system /\
  (to_deliver ex_served = [] \/ exists l s'', internal l = true /\ exec l ex_served = Some s'').
Proof.
  split; [vm_compute; reflexivity |].
  refine (main_loop_progress ex_moves s_world ex_system [Written 1; Deliver] ex_served ex_moves_run _ eq_refl ex_served_run).
  apply (bool_decide_unpack _). vm_compute. exact I.
Defined.
End Witnesses.
