(* ===== verification/Locks.v ===== *)
(** * The locks of the multiplexer

    The state of the multiplexer is shared between the main loop and the tasks
    of the clients behind six tokio [RwLock]s (src/src/multiplexer.rs,
    src/src/router.rs).  This file keeps of every function only what it does
    with them: which lock it takes, how, what it waits for while its guards are
    alive, and in which order the guards are dropped.  [ordered] checks such a
    program against an order of the locks; tasks whose programs pass can never
    wait for each other's locks in a circle. *)

From S2P Require Import Prelude.

(** ** Programs over locks *)

Inductive Lock := LTable | LRefcount | LQueue | LPortal | LSerials | LClients.
Inductive Mode := Read | Write.

(** What a task waits for other than a lock: an answer of a bus, room in the
    channel of a client, or its own input. *)
Inductive WaitFor := Bus | Channel | Input.

#[export] Instance Lock_eq_dec : EqDecision Lock.
Proof. solve_decision. Defined.
#[export] Instance Mode_eq_dec : EqDecision Mode.
Proof. solve_decision. Defined.
#[export] Instance WaitFor_eq_dec : EqDecision WaitFor.
Proof. solve_decision. Defined.

(** [With m l p] is a block that holds a guard of [l] while it runs [p]. *)
Inductive Prog :=
| Skip
| Wait (e : WaitFor)
| Seq (p q : Prog)
| Choose (p q : Prog)
| Loop (p : Prog)
| With (m : Mode) (l : Lock) (p : Prog).

Declare Scope lock_scope.
#[local] Open Scope lock_scope.
Notation "p ;; q" := (Seq p q) (at level 100, q at level 200, right associativity) : lock_scope.
Notation "p <|> q" := (Choose p q) (at level 65, right associativity) : lock_scope.
Definition maybe (p : Prog) : Prog := Choose p Skip.

(** ** The functions of the multiplexer *)

(** [info.tx.send(...).await] under the read guard of the clients, if the client
    is there and its message can be built. *)
Definition send_reply_to_client_locks : Prog := With Read LClients (maybe (Wait Channel)).
Definition send_error_to_client_locks : Prog := With Read LClients (maybe (Wait Channel)).
Definition with_body_locks (p : Prog) : Prog := send_error_to_client_locks <|> p.

Definition find_client_credentials_locks : Prog := With Read LClients Skip.
Definition handle_hello_locks : Prog := With Read LClients (maybe (Wait Channel)).

Definition handle_request_name_locks : Prog :=
  with_body_locks
    (With Read LClients Skip ;;
     maybe
       (With Write LQueue Skip ;;
        ((Wait Bus ;;
          ((maybe (With Write LTable (With Write LClients Skip)) ;; send_reply_to_client_locks)
           <|> With Write LQueue send_error_to_client_locks))
         <|> send_reply_to_client_locks))).

Definition handle_release_name_locks : Prog :=
  with_body_locks
    (With Write LQueue Skip ;;
     (With Write LTable (With Write LClients Skip)
      <|> (With Read LClients Skip ;; Wait Bus ;;
           maybe (maybe (With Write LTable Skip) ;; With Write LClients Skip))
      <|> With Write LClients Skip) ;;
     send_reply_to_client_locks).

Definition handle_list_names_locks : Prog := With Read LTable Skip ;; send_reply_to_client_locks.
Definition handle_list_activatable_names_locks : Prog :=
  Wait Bus ;; (send_reply_to_client_locks <|> send_error_to_client_locks).
Definition handle_get_name_owner_locks : Prog :=
  with_body_locks (With Read LTable Skip ;; Wait Bus ;; (send_reply_to_client_locks <|> send_error_to_client_locks)).
Definition handle_name_has_owner_locks : Prog := with_body_locks (With Read LTable Skip ;; send_reply_to_client_locks).

(** GetConnectionUnixUser, GetConnectionUnixProcessID, GetConnectionCredentials. *)
Definition handle_get_connection_locks : Prog :=
  with_body_locks
    (send_reply_to_client_locks
     <|> (find_client_credentials_locks ;; (send_reply_to_client_locks <|> send_error_to_client_locks))).

(** The guard of the queue lives until the end of the function. *)
Definition handle_list_queued_owners_locks : Prog := with_body_locks (With Read LQueue send_reply_to_client_locks).

(** The guard of the reference counts lives until the end of the function. *)
Definition handle_add_match_locks : Prog :=
  with_body_locks
    (send_error_to_client_locks
     <|> (With Write LClients Skip ;;
          With Write LRefcount (maybe (Wait Bus) ;; maybe (Wait Bus) ;; send_reply_to_client_locks))).

Definition handle_remove_match_locks : Prog :=
  with_body_locks
    (With Write LClients Skip ;;
     (send_error_to_client_locks
      <|> With Write LRefcount (maybe (Wait Bus) ;; maybe (Wait Bus) ;; send_reply_to_client_locks))).

Definition forward_method_call_locks : Prog := maybe (Wait Bus ;; maybe (With Write LSerials Skip)).
Definition handle_reply_locks : Prog := maybe (With Write LSerials Skip).

Definition handle_dbus_method_locks : Prog :=
  handle_hello_locks <|> handle_request_name_locks <|> handle_release_name_locks <|> handle_list_names_locks
  <|> handle_list_activatable_names_locks <|> handle_get_name_owner_locks <|> handle_name_has_owner_locks
  <|> send_reply_to_client_locks (* GetId, Ping, GetMachineId, Introspect, GetAll *)
  <|> handle_get_connection_locks <|> handle_list_queued_owners_locks <|> handle_add_match_locks <|> handle_remove_match_locks
  <|> (forward_method_call_locks ;; maybe send_error_to_client_locks).

Definition handle_client_message_locks : Prog :=
  handle_dbus_method_locks
  <|> (With Read LTable Skip ;; maybe (forward_method_call_locks ;; maybe send_error_to_client_locks)).

Definition handle_bus_message_locks : Prog :=
  maybe (With Write LTable Skip)
  <|> (maybe (handle_reply_locks ;; maybe (maybe (With Write LPortal Skip) ;; With Read LClients (maybe (Wait Channel)))) ;;
       maybe
         ((With Write LPortal Skip ;; With Read LClients (maybe (Wait Channel)))
          <|> (maybe (With Write LPortal Skip) ;; With Read LClients (Loop (maybe (Wait Channel)))))).

Definition cleanup_tick_locks : Prog := With Write LSerials Skip ;; With Write LPortal Skip.

(** A new connection only spawns a task. *)
Definition main_loop_locks : Prog :=
  Loop (Wait Input ;; (Skip <|> handle_bus_message_locks <|> handle_client_message_locks <|> cleanup_tick_locks)).

Definition disconnect_client_locks : Prog :=
  With Write LClients Skip ;;
  maybe (With Write LRefcount (Loop (maybe (Wait Bus) ;; maybe (Wait Bus)))) ;;
  With Write LPortal Skip ;;
  With Write LQueue Skip ;;
  Loop (With Write LTable (With Write LClients Skip) <|> (With Write LTable Skip ;; Wait Bus)) ;;
  Loop (With Read LQueue Skip ;; maybe (With Write LTable Skip ;; Wait Bus)).

(** The task of a client: authentication, registration, messages, clean-up. *)
Definition handle_new_client_locks : Prog :=
  Wait Input ;; maybe (With Write LClients Skip ;; Loop (Wait Input) ;; disconnect_client_locks).

(** ** What a program does *)

Inductive Act :=
| Acquire (m : Mode) (l : Lock)
| Release (l : Lock)
| Await (e : WaitFor).

(** The sequences of actions a program can perform. *)
Inductive script : Prog -> list Act -> Prop :=
| script_skip : script Skip []
| script_wait e : script (Wait e) [Await e]
| script_seq p q a b : script p a -> script q b -> script (Seq p q) (a ++ b)
| script_left p q a : script p a -> script (Choose p q) a
| script_right p q a : script q a -> script (Choose p q) a
| script_stop p : script (Loop p) []
| script_again p a b : script p a -> script (Loop p) b -> script (Loop p) (a ++ b)
| script_with m l p a : script p a -> script (With m l p) (Acquire m l :: a ++ [Release l]).

(** ** The order of the locks *)

Definition rank (l : Lock) : nat :=
  match l with LTable => 0 | LRefcount => 1 | LQueue => 2 | LPortal => 3 | LSerials => 4 | LClients => 5 end.

(** A task waits for its own input without locks, and for a bus with the lock of
    the reference counts at most. *)
Definition may_await (e : WaitFor) (held : list Lock) : Prop :=
  match e with
  | Bus => Forall (fun l => l = LRefcount) held
  | Channel => True
  | Input => held = []
  end.

#[export] Instance may_await_dec e held : Decision (may_await e held).
Proof. destruct e; apply _. Defined.

(** Every lock is taken after the locks below it. *)
Fixpoint ordered (held : list Lock) (p : Prog) : bool :=
  match p with
  | Skip => true
  | Wait e => bool_decide (may_await e held)
  | Seq p q | Choose p q => ordered held p && ordered held q
  | Loop p => ordered held p
  | With _ l p => bool_decide (Forall (fun l' => rank l' < rank l)%nat held) && ordered (l :: held) p
  end.

(** ** Tasks and locks at run time *)

Record LockTask := mkLockTask {
  todo : list Act;
  held : list (Lock * Mode);
  queued : bool;
}.

(** The tasks, and for every lock who waits for it: tokio's locks are fair. *)
Record State := mkState {
  tasks : list LockTask;
  queue : Lock -> list (nat * Mode);
}.

Definition start (scripts : list (list Act)) : State :=
  mkState ((fun a => mkLockTask a [] false) <$> scripts) (fun _ => []).

Definition set_queue (l : Lock) (q : list (nat * Mode)) (f : Lock -> list (nat * Mode)) : Lock -> list (nat * Mode) :=
  fun l' => if decide (l' = l) then q else f l'.

(** Readers share a lock, a writer has it alone. *)
Definition compatible (m : Mode) (l : Lock) (ts : list LockTask) : Prop :=
  Forall (fun t => Forall (fun h : Lock * Mode => h.1 = l -> m = Read /\ h.2 = Read) (held t)) ts.

Inductive Label := Internal | External (e : WaitFor).

Inductive step (s : State) : Label -> State -> Prop :=
| step_request i t m l a :
    tasks s !! i = Some t -> todo t = Acquire m l :: a -> queued t = false ->
    step s Internal
      (mkState (<[i := mkLockTask (todo t) (held t) true]> (tasks s)) (set_queue l (queue s l ++ [(i, m)]) (queue s)))
| step_grant i t m l a q :
    tasks s !! i = Some t -> todo t = Acquire m l :: a -> queue s l = (i, m) :: q ->
    compatible m l (tasks s) ->
    step s Internal
      (mkState (<[i := mkLockTask a ((l, m) :: held t) false]> (tasks s)) (set_queue l q (queue s)))
| step_release i t l a :
    tasks s !! i = Some t -> todo t = Release l :: a ->
    step s Internal
      (mkState (<[i := mkLockTask a (List.filter (fun h => negb (bool_decide (h.1 = l))) (held t)) false]> (tasks s)) (queue s))
| step_await i t e a :
    tasks s !! i = Some t -> todo t = Await e :: a ->
    step s (External e) (mkState (<[i := mkLockTask a (held t) false]> (tasks s)) (queue s)).

Definition finished (s : State) : Prop := Forall (fun t => todo t = []) (tasks s).

(** What is left to do: two steps for a lock, one for the rest. *)
Definition task_work (t : LockTask) : nat := 2 * length (todo t) - (if queued t then 1 else 0).
Definition lock_work (s : State) : nat := sum_list_with task_work (tasks s).

(** ** Programs that pass the check are disciplined *)

(** The rest of a script keeps to the order, given the locks held. *)
Fixpoint disciplined (held : list (Lock * Mode)) (todo : list Act) : Prop :=
  match todo with
  | [] => held = []
  | Acquire m l :: a => Forall (fun h => rank h.1 < rank l)%nat held /\ disciplined ((l, m) :: held) a
  | Release l :: a => exists m rest, held = (l, m) :: rest /\ Forall (fun h => h.1 <> l) rest /\ disciplined rest a
  | Await e :: a => may_await e held.*1 /\ disciplined held a
  end.

Lemma script_disciplined p a held rest :
  script p a -> ordered held.*1 p = true -> disciplined held rest -> disciplined held (a ++ rest).
Proof.
  intros Hs. revert held rest.
  induction Hs as [| e | p q a b Ha IHa Hb IHb | p q a Ha IH | p q a Ha IH | p | p a b Ha IHa Hb IHb | m l p a Ha IH];
    intros held rest; cbn [ordered].
  - done.
  - rewrite bool_decide_eq_true. by split.
  - rewrite andb_true_iff, <- app_assoc. intros [Hp Hq] Hr. apply IHa; [done |]. by apply IHb.
  - rewrite andb_true_iff. intros [Hp _]. by apply IH.
  - rewrite andb_true_iff. intros [_ Hq]. by apply IH.
  - done.
  - rewrite <- app_assoc. intros Hp Hr. apply IHa; [done |]. by apply IHb.
  - rewrite andb_true_iff, bool_decide_eq_true, Forall_fmap. intros [Hr Hp] Hrest. cbn [app disciplined].
    split; [done |]. rewrite <- app_assoc. apply IH; [done |]. exists m, held. split; [done |].
    split; [| done]. eapply Forall_impl; [done |]. intros h Hh Heq. cut (rank l < rank l)%nat; [lia |]. rewrite <- Heq at 1. exact Hh.
Qed.

(** ** The invariant *)

Definition task_at (s : State) (i : nat) (t : LockTask) : Prop := tasks s !! i = Some t.

Record inv (s : State) : Prop := {
  inv_disciplined i t : task_at s i t -> disciplined (held t) (todo t);
  inv_queued l i m : (i, m) ∈ queue s l ->
    exists t a, task_at s i t /\ todo t = Acquire m l :: a /\ queued t = true;
  inv_waits i t m l a : task_at s i t -> todo t = Acquire m l :: a -> queued t = true -> (i, m) ∈ queue s l;
  inv_once l : NoDup (queue s l);
  inv_exclusive i j t u l m : task_at s i t -> task_at s j u -> (l, Write) ∈ held t -> (l, m) ∈ held u -> i = j;
}.

Lemma inv_start scripts : Forall (fun a => disciplined [] a) scripts -> inv (start scripts).
Proof.
  intros Hs. assert (forall i t, task_at (start scripts) i t -> exists a, t = mkLockTask a [] false /\ disciplined [] a) as Ht.
  { intros i t. unfold task_at. cbn. rewrite list_lookup_fmap. destruct (scripts !! i) as [a|] eqn:E; [| done].
    intros [= <-]. exists a. split; [done |]. by eapply Forall_lookup_1 in Hs. }
  split.
  - by intros i t (a & -> & Ha)%Ht.
  - intros l i m Hin. by apply elem_of_nil in Hin.
  - by intros i t m l b (a & -> & _)%Ht.
  - intros l. constructor.
  - intros i j t u l m (a & -> & _)%Ht _ Hin. by apply elem_of_nil in Hin.
Qed.

(** A step changes one task and the queues. *)
Lemma inv_update s i t t' f :
  inv s -> task_at s i t -> disciplined (held t') (todo t') ->
  (forall l j m, (j, m) ∈ f l ->
     j <> i /\ (j, m) ∈ queue s l \/ j = i /\ queued t' = true /\ exists a, todo t' = Acquire m l :: a) ->
  (forall l j m, j <> i -> (j, m) ∈ queue s l -> (j, m) ∈ f l) ->
  (forall m l a, todo t' = Acquire m l :: a -> queued t' = true -> (i, m) ∈ f l) ->
  (forall l, NoDup (f l)) ->
  (forall l m, (l, m) ∈ held t' -> (l, m) ∈ held t \/ compatible m l (tasks s)) ->
  inv (mkState (<[i := t']> (tasks s)) f).
Proof.
  intros Hinv Ht Hd Hq1 Hq2 Hq3 Hnd Hh.
  assert (forall j u, task_at (mkState (<[i := t']> (tasks s)) f) j u ->
            j = i /\ u = t' \/ j <> i /\ task_at s j u) as Hat.
  { intros j u. unfold task_at. cbn [tasks]. rewrite list_lookup_insert_Some. naive_solver. }
  assert (task_at (mkState (<[i := t']> (tasks s)) f) i t') as Hi.
  { unfold task_at. cbn [tasks]. apply list_lookup_insert_eq. by eapply lookup_lt_Some. }
  assert (forall j u, j <> i -> task_at s j u -> task_at (mkState (<[i := t']> (tasks s)) f) j u) as Hkeep.
  { intros j u Hne Hu. unfold task_at. cbn [tasks]. by rewrite list_lookup_insert_ne. }
  assert (forall l m m' j u, compatible m l (tasks s) -> task_at s j u -> (l, m') ∈ held u -> m = Read /\ m' = Read) as Hcomp.
  { intros l m m' j u Hc Hu Hin. eapply Forall_lookup_1 in Hc; [| exact Hu].
    rewrite Forall_forall in Hc. by apply (Hc (l, m')). }
  split.
  - intros j u [[-> ->]|[Hne Hu]]%Hat; [done | by eapply inv_disciplined].
  - cbn [queue]. intros l j m [[Hne Hin]|(-> & Hqd & a & Ha)]%Hq1; [| by exists t', a].
    destruct (inv_queued s Hinv l j m Hin) as (u & a & Hu & ? & ?). exists u, a. by split; [apply Hkeep |].
  - cbn [queue]. intros j u m l a [[-> ->]|[Hne Hu]]%Hat Ha Hqd; [by eapply Hq3 |].
    apply Hq2; [done |]. by eapply inv_waits.
  - exact Hnd.
  - intros j k u v l m [[-> ->]|[Hj Hu]]%Hat [[-> ->]|[Hk Hv]]%Hat Hw Hm; [done | | |].
    + destruct (Hh _ _ Hw) as [Hold|Hc]; [by eapply inv_exclusive |].
      by destruct (Hcomp _ _ _ _ _ Hc Hv Hm).
    + destruct (Hh _ _ Hm) as [Hold|Hc]; [by eapply (inv_exclusive s Hinv j i) |].
      by destruct (Hcomp _ _ _ _ _ Hc Hu Hw).
    + by eapply (inv_exclusive s Hinv j k).
Qed.

(** A task that does not wait for a lock is in no queue. *)
Lemma not_queued s i t l m :
  inv s -> task_at s i t -> queued t = false \/ (forall m l a, todo t <> Acquire m l :: a) -> (i, m) ∉ queue s l.
Proof.
  intros Hinv Ht Hn Hin. destruct (inv_queued s Hinv l i m Hin) as (u & a & Hu & Ha & Hq).
  unfold task_at in *. simplify_eq. destruct Hn as [Hn|Hn]; [congruence | by eapply Hn].
Qed.

Lemma release_filter (l : Lock) (m : Mode) (rest : list (Lock * Mode)) :
  Forall (fun h => h.1 <> l) rest ->
  List.filter (fun h => negb (bool_decide (h.1 = l))) ((l, m) :: rest) = rest.
Proof.
  intros Hr. cbn [List.filter fst]. rewrite bool_decide_true by done. cbn [negb].
  induction Hr as [|h rest Hh _ IH]; [done |]. cbn [List.filter]. by rewrite bool_decide_false, IH.
Qed.

(** A step of a task that is in no queue and takes no lock. *)
Lemma inv_no_lock s i t t' :
  inv s -> task_at s i t -> (forall m l a, todo t <> Acquire m l :: a) -> disciplined (held t') (todo t') ->
  queued t' = false -> (forall h, h ∈ held t' -> h ∈ held t) ->
  inv (mkState (<[i := t']> (tasks s)) (queue s)).
Proof.
  intros Hinv Ht Hn Hd Hq Hh. apply (inv_update s i t); try done.
  - intros l j m Hin. left. split; [intros -> | done]. by eapply not_queued in Hin; [| | | right].
  - congruence.
  - intros l. apply (inv_once s Hinv).
  - intros l m Hin. left. by apply Hh.
Qed.

Lemma inv_request s i t m l a :
  inv s -> task_at s i t -> todo t = Acquire m l :: a -> queued t = false ->
  inv (mkState (<[i := mkLockTask (todo t) (held t) true]> (tasks s)) (set_queue l (queue s l ++ [(i, m)]) (queue s))).
Proof.
  intros Hinv Ht Ha Hq.
  assert (forall l' m', (i, m') ∉ queue s l') as Hn by (intros; eapply not_queued; [done | done | by left]).
  apply (inv_update s i t); try done; unfold set_queue.
  - exact (inv_disciplined s Hinv i t Ht).
  - intros l' j m'. case_decide; [subst l' |]; [rewrite elem_of_app, list_elem_of_singleton; intros [Hin|[= -> ->]] | intros Hin].
    + left. split; [intros ->; by apply Hn in Hin | done].
    + right. split; [done |]. split; [done |]. by exists a.
    + left. split; [intros ->; by apply Hn in Hin | done].
  - intros l' j m' Hne Hin. case_decide; [subst; apply elem_of_app; by left | done].
  - cbn [todo]. rewrite Ha. intros m' l' a' [= <- <- <-] _. rewrite decide_True by done.
    apply elem_of_app. right. by apply list_elem_of_singleton.
  - intros l'. case_decide; [subst l' | apply (inv_once s Hinv)]. apply NoDup_app.
    split; [apply (inv_once s Hinv) |]. split; [| apply NoDup_singleton].
    intros x Hx Hx'. apply list_elem_of_singleton in Hx' as ->. by apply Hn in Hx.
  - by left.
Qed.

Lemma inv_grant s i t m l a q :
  inv s -> task_at s i t -> todo t = Acquire m l :: a -> queue s l = (i, m) :: q -> compatible m l (tasks s) ->
  inv (mkState (<[i := mkLockTask a ((l, m) :: held t) false]> (tasks s)) (set_queue l q (queue s))).
Proof.
  intros Hinv Ht Ha Hq Hc. pose proof (inv_disciplined s Hinv i t Ht) as Hd. rewrite Ha in Hd. destruct Hd as [_ Hd].
  pose proof (inv_once s Hinv l) as Hnd. rewrite Hq in Hnd. apply NoDup_cons in Hnd as [Hni Hnd].
  assert (forall l' m', (i, m') ∈ queue s l' -> l' = l /\ m' = m) as Honly.
  { intros l' m' Hin. destruct (inv_queued s Hinv _ _ _ Hin) as (u & b & Hu & Hb & _).
    unfold task_at in *. simplify_eq. rewrite Ha in Hb. by simplify_eq. }
  apply (inv_update s i t); try done; unfold set_queue.
  - intros l' j m' Hin. left. revert Hin. case_decide as Hl; [subst l' |]; intros Hin.
    + assert ((j, m') ∈ queue s l) as Hin' by (rewrite Hq; by right). split; [intros -> | done].
      apply Honly in Hin' as [_ ->]. by destruct Hni.
    + split; [intros -> | done]. by destruct Hl; apply (Honly _ m').
  - intros l' j m' Hne Hin. case_decide; [subst l' | done]. rewrite Hq in Hin.
    apply elem_of_cons in Hin as [[= -> _]|?]; done.
  - intros l'. case_decide; [done | apply (inv_once s Hinv)].
  - cbn [held]. intros l' m' [[= -> ->]|?]%elem_of_cons; [by right | by left].
Qed.

Lemma inv_step s x s' : inv s -> step s x s' -> inv s'.
Proof.
  intros Hinv Hst. destruct Hst as [i t m l a Ht Ha Hq|i t m l a q Ht Ha Hq Hc|i t l a Ht Ha|i t e a Ht Ha].
  - by eapply inv_request.
  - by eapply inv_grant.
  - pose proof (inv_disciplined s Hinv i t Ht) as Hd. rewrite Ha in Hd. destruct Hd as (m & rest & Hh & Hr & Hd).
    rewrite Hh, release_filter by done.
    apply (inv_no_lock s i t); try done; [congruence |]. cbn [held]. rewrite Hh. by right.
  - pose proof (inv_disciplined s Hinv i t Ht) as Hd. rewrite Ha in Hd. destruct Hd as [_ Hd].
    apply (inv_no_lock s i t); try done. congruence.
Qed.

(** ** Progress *)

(** Some lock can be asked for, granted or released, or whoever waits for a lock
    waits for a task that waits for something else. *)
Lemma blocked_by_event s l :
  inv s -> queue s l <> [] ->
  (exists s', step s Internal s') \/
  exists j u e a, task_at s j u /\ todo u = Await e :: a /\ held u <> [].
Proof.
  intros Hinv. remember (6 - rank l)%nat as n eqn:Hn. revert l Hn.
  induction n as [n IH] using lt_wf_ind. intros l -> Hq.
  destruct (queue s l) as [|[i m] q] eqn:El; [done |].
  destruct (inv_queued s Hinv l i m) as (t & a & Ht & Ha & _); [rewrite El; by left |].
  destruct (decide (compatible m l (tasks s))) as [Hc|Hc]; [left; eexists; by eapply step_grant |].
  apply not_Forall_Exists in Hc; [| apply _]. apply Exists_exists in Hc as (u & Hu & Hc).
  apply not_Forall_Exists in Hc; [| apply _]. apply Exists_exists in Hc as ([l0 m0] & Hin & Hc).
  assert (l0 = l) as -> by (destruct (decide (l0 = l)); [done | by destruct Hc]).
  apply list_elem_of_lookup in Hu as [j Hj]. pose proof (inv_disciplined s Hinv j u Hj) as Hd.
  assert (held u <> []) as Hne by (intros E; rewrite E in Hin; by apply elem_of_nil in Hin).
  destruct (todo u) as [|[m' l'|l'|e] b] eqn:Eu; cbn [disciplined] in Hd.
  - done.
  - destruct Hd as [Hr _]. rewrite Forall_forall in Hr. specialize (Hr _ Hin). cbn [fst] in Hr.
    assert (rank l' <= 5)%nat by (destruct l'; simpl; lia).
    destruct (queued u) eqn:Equ; [| left; eexists; by eapply step_request].
    apply (IH (6 - rank l')%nat ltac:(lia) l' eq_refl).
    pose proof (inv_waits s Hinv j u m' l' b Hj Eu Equ) as Hw. intros E. rewrite E in Hw. by apply elem_of_nil in Hw.
  - left. eexists. by eapply step_release.
  - right. by exists j, u, e, b.
Qed.

(** The same for one task that wants a lock. *)
Lemma lock_progress s i t m l a :
  inv s -> task_at s i t -> todo t = Acquire m l :: a ->
  (exists s', step s Internal s') \/
  exists j u e b, task_at s j u /\ todo u = Await e :: b /\ held u <> [].
Proof.
  intros Hinv Ht Ha. destruct (queued t) eqn:Eq; [| left; eexists; by eapply step_request].
  apply (blocked_by_event s l Hinv). pose proof (inv_waits s Hinv i t m l a Ht Ha Eq) as Hw.
  intros E. rewrite E in Hw. by apply elem_of_nil in Hw.
Qed.

Lemma inv_progress s : inv s -> finished s \/ exists x s', step s x s'.
Proof.
  intros Hinv. destruct (decide (Forall (fun t => todo t = []) (tasks s))) as [Hf|Hf]; [by left | right].
  apply not_Forall_Exists in Hf; [| apply _]. apply Exists_exists in Hf as (t & Hin & Ht).
  apply list_elem_of_lookup in Hin as [i Hi]. destruct (todo t) as [|[m l|l|e] a] eqn:Ea; [done | ..].
  - destruct (lock_progress s i t m l a Hinv Hi Ea) as [[s' Hs]|(j & u & e & b & Hu & Hb & _)];
      [by eauto | eexists _, _; by eapply step_await].
  - eexists _, _. by eapply step_release.
  - eexists _, _. by eapply step_await.
Qed.

(** ** Every step is work done *)

Lemma sum_insert {A} (f : A -> nat) i x y (l : list A) :
  l !! i = Some x -> (sum_list_with f (<[i := y]> l) + f x = sum_list_with f l + f y)%nat.
Proof.
  revert i. induction l as [|z l IH]; intros [|i] Hi; simplify_eq/=; [lia |]. specialize (IH i Hi). lia.
Qed.

Lemma step_work s x s' : step s x s' -> (lock_work s' < lock_work s)%nat.
Proof.
  intros Hst. unfold lock_work.
  assert (forall i t t', tasks s !! i = Some t -> (task_work t' < task_work t)%nat ->
    (sum_list_with task_work (<[i := t']> (tasks s)) < sum_list_with task_work (tasks s))%nat) as Hsum.
  { intros i t t' Ht Hlt. pose proof (sum_insert task_work i t t' _ Ht). lia. }
  destruct Hst as [i t m l a Ht Ha Hq|i t m l a q Ht Ha Hq Hc|i t l a Ht Ha|i t e a Ht Ha]; cbn [tasks];
    apply (Hsum i t _ Ht); unfold task_work; cbn [todo queued]; rewrite Ha; cbn [length];
    [rewrite Hq | destruct (queued t) ..]; lia.
Qed.

Lemma trace_work s xs s' : trace step s xs s' -> (length xs + lock_work s' <= lock_work s)%nat.
Proof. induction 1 as [|s x s1 xs s2 Hst _ IH]; [done |]. apply step_work in Hst. cbn [length]. lia. Qed.

Lemma work_start scripts : lock_work (start scripts) = (2 * length (concat scripts))%nat.
Proof.
  unfold lock_work, start. cbn [tasks]. induction scripts as [|a scripts IH]; [done |].
  cbn [fmap list_fmap sum_list_with concat]. rewrite length_app, IH. unfold task_work. cbn [todo queued]. lia.
Qed.


(** ** The multiplexer *)

Lemma mux_disciplined main clients :
  script main_loop_locks main -> Forall (script handle_new_client_locks) clients ->
  Forall (fun a => disciplined [] a) (main :: clients).
Proof.
  intros Hm Hc.
  assert (forall p a, script p a -> ordered [] p = true -> disciplined [] a) as Hd.
  { intros p a Hp Ho. rewrite <- (app_nil_r a). by apply (script_disciplined p). }
  constructor; [by eapply Hd |]. eapply Forall_impl; [done |]. intros a Ha. by eapply Hd.
Qed.

(** C16. Locks never deadlock: the main loop and any number of client tasks,
    however they branch and interleave, hold a write lock alone, and never block
    each other through locks only.  At every point of every run some task can
    go on or all are done; a task that wants a lock waits, if no lock can be
    passed on, for a task that holds one across a call to a bus or the channel
    of a client; across a call to a bus only the lock on the reference counts is
    held; and a run has at most two steps for each action of its tasks. *)
Theorem locks_never_deadlock main clients xs s :
  script main_loop_locks main -> Forall (script handle_new_client_locks) clients ->
  trace step (start (main :: clients)) xs s ->
  (finished s \/ exists x s', step s x s') /\
  (forall i t m l a, task_at s i t -> todo t = Acquire m l :: a ->
     (exists s', step s Internal s') \/
     exists j u e b, task_at s j u /\ todo u = Await e :: b /\ e <> Input /\ held u <> []) /\
  (forall i t a, task_at s i t -> todo t = Await Bus :: a -> Forall (fun h => h.1 = LRefcount) (held t)) /\
  (forall i j t u l m, task_at s i t -> task_at s j u -> (l, Write) ∈ held t -> (l, m) ∈ held u -> i = j) /\
  (length xs <= 2 * length (concat (main :: clients)))%nat.
Proof.
  intros Hm Hc Htr.
  assert (inv s) as Hinv.
  { eapply (trace_invariant step inv); [| | exact Htr]; [intros ? ? ?; apply inv_step |].
    apply inv_start. by apply mux_disciplined. }
  split_and!.
  - by apply inv_progress.
  - intros i t m l a Ht Ha.
    destruct (lock_progress s i t m l a Hinv Ht Ha) as [?|(j & u & e & b & Hu & Hb & Hh)]; [by left | right].
    exists j, u, e, b. split_and!; try done. intros ->.
    pose proof (inv_disciplined s Hinv j u Hu) as Hd. rewrite Hb in Hd. destruct Hd as [Hd _].
    by apply fmap_nil_inv in Hd.
  - intros i t a Ht Ha. pose proof (inv_disciplined s Hinv i t Ht) as Hd. rewrite Ha in Hd.
    destruct Hd as [Hd _]. by apply Forall_fmap in Hd.
  - by apply inv_exclusive.
  - pose proof (trace_work _ _ _ Htr) as Hw. rewrite work_start in Hw. lia.
Qed.

(** ** Witness *)

(** The main loop cleans up, while a client that has come and gone is being
    removed. *)
Definition ex_tick : list Act :=
  [Await Input; Acquire Write LSerials; Release LSerials; Acquire Write LPortal; Release LPortal].

Definition ex_visit : list Act :=
  [Await Input; Acquire Write LClients; Release LClients; Acquire Write LClients; Release LClients;
   Acquire Write LPortal; Release LPortal; Acquire Write LQueue; Release LQueue].

Lemma ex_tick_script : script main_loop_locks ex_tick.
Proof.
  apply (script_again _ ex_tick []); [| constructor]. apply (script_seq _ _ [_]); [constructor |].
  do 3 apply script_right. apply (script_seq _ _ [_; _] [_; _]); apply (script_with _ _ _ []); constructor.
Qed.

Lemma ex_visit_script : script handle_new_client_locks ex_visit.
Proof.
  assert (forall m l, script (With m l Skip) [Acquire m l; Release l]) as Hw
    by (intros m l; apply (script_with _ _ _ []); constructor).
  apply (script_seq _ _ [_]); [constructor |]. apply script_left.
  apply (script_seq _ _ [_; _]); [apply Hw |]. apply (script_seq _ _ []); [constructor |].
  apply (script_seq _ _ [_; _]); [apply Hw |]. apply (script_seq _ _ []); [apply script_right; constructor |].
  apply (script_seq _ _ [_; _]); [apply Hw |]. apply (script_seq _ _ [_; _] []); [apply Hw |].
  apply (script_seq _ _ [] []); constructor.
Qed.

(** Both tasks have read their input and the client waits to be registered. *)
Lemma locks_never_deadlock_witness :
  exists s, trace step (start [ex_tick; ex_visit]) [External Input; External Input; Internal] s /\
    queue s LClients = [(1%nat, Write)] /\ (finished s \/ exists x s', step s x s').
Proof.
  assert (exists s, trace step (start [ex_tick; ex_visit]) [External Input; External Input; Internal] s /\
    queue s LClients = [(1%nat, Write)]) as (s & Htr & Hq).
  { eexists. split.
    - eapply trace_cons; [by eapply (step_await _ 0 (mkLockTask ex_tick [] false)) |].
      eapply trace_cons; [by eapply (step_await _ 1 (mkLockTask ex_visit [] false)) |].
      eapply trace_cons; [by eapply (step_request _ 1 (mkLockTask (tail ex_visit) [] false)) |]. apply trace_nil.
    - reflexivity. }
  exists s. split; [exact Htr |]. split; [exact Hq |].
  refine (proj1 (locks_never_deadlock _ _ _ _ ex_tick_script _ Htr)).
  repeat constructor. apply ex_visit_script.
Defined.
