(* ===== verification/Startup.v ===== *)
(** * Start-up and shutdown

    [Multiplexer::new] with the file of its listening socket, the bus
    connections it opens, the [Drop] of the multiplexer and [main]
    (src/src/multiplexer.rs, src/src/bus_connection.rs, src/src/main.rs).  Paths
    are lists of components; the file system is what stands at each path, and
    any of its operations may be refused by the system.  The parsing of the
    command line and the set-up of logging are left out. *)

From S2P Require Import Prelude RustStr Zbus SimpleZbus Errors Message Routing NameQueue SerialMap MatchRules Portal World SimpleEnv Router Multiplexer Frames Client MuxInv.

#[local] Open Scope Z_scope.

(** ** The file system *)

Abbreviation Path := (list string).

Inductive Node := Directory | SocketFile | OtherFile.

#[export] Instance Node_eq_dec : EqDecision Node.
Proof. solve_decision. Defined.

Abbreviation Files := (gmap Path Node).

(** What the system can refuse. *)
Inductive FileOp := RemoveFile (p : Path) | CreateDir (p : Path) | Bind (p : Path).

(** [Path::parent]: [None] for the root and the empty path. *)
Definition parent (p : Path) : option Path :=
  match p with [] => None | _ => Some (removelast p) end.

Definition path_exists (p : Path) (fs : Files) : bool := bool_decide (is_Some (fs !! p)).

Section Files.
Context (refused : FileOp -> option IoError).

Definition io_error (text : string) : IoError := mkIoError OtherIo text.

Definition remove_file (p : Path) (fs : Files) : result IoError unit * Files :=
  match refused (RemoveFile p), fs !! p with
  | Some e, _ => (Err e, fs)
  | None, None => (Err (io_error "No such file or directory"), fs)
  | None, Some Directory => (Err (io_error "Is a directory"), fs)
  | None, Some _ => (Ok tt, delete p fs)
  end.

(** The directories on the way to a path, outermost first, itself included. *)
Definition ancestors (p : Path) : list Path := (fun n => take n p) <$> seq 1 (length p).

Fixpoint create_dirs (ps : list Path) (fs : Files) : result IoError unit * Files :=
  match ps with
  | [] => (Ok tt, fs)
  | p :: rest =>
      match fs !! p, refused (CreateDir p) with
      | Some Directory, _ => create_dirs rest fs
      | Some _, _ => (Err (io_error "File exists"), fs)
      | None, Some e => (Err e, fs)
      | None, None => create_dirs rest (<[p := Directory]> fs)
      end
  end.

Definition create_dir_all (p : Path) (fs : Files) : result IoError unit * Files :=
  create_dirs (ancestors p) fs.

(** [UnixListener::bind] *)
Definition bind_socket (p : Path) (fs : Files) : result IoError unit * Files :=
  match fs !! p, refused (Bind p) with
  | Some _, _ => (Err (io_error "Address already in use"), fs)
  | None, Some e => (Err e, fs)
  | None, None => (Ok tt, <[p := SocketFile]> fs)
  end.
End Files.

(** ** Connections *)

Section Startup.
Context {ZB : Zbus} {E : Env}.

(** The system and the buses at start-up; a connection is told by its unique name. *)
Class Host_system := {
  refused : FileOp -> option IoError;
  connect_address : string -> result ZError (option string);
  connect_default_session : result ZError (option string);
  random_guid : string;
}.

Context {HS : Host_system}.

Definition BusConnection_connect (address : string) : result Error BusConnection :=
  let? name := lift_zbus (connect_address address) in
  Ok (mkBusConnection name SerialGenerator_new).

Definition connect_session (address : option string) : result Error BusConnection :=
  let? name := lift_zbus (match address with
                          | Some addr => connect_address addr
                          | None => connect_default_session
                          end) in
  Ok (mkBusConnection name SerialGenerator_new).

(** The next item of the stream of a bus, as the main loop gets it. *)
Definition recv (next : option (result ZError Message)) : result Error (option Message) :=
  match next with
  | Some (Ok msg) => Ok (Some msg)
  | Some (Err e) => Err (DBus e)
  | None => Ok None
  end.

(** ** [Multiplexer::new] *)

(** The connections, the routing table and the subscriptions, once the socket
    is there. *)
Definition connect_and_sync (container_bus : string) (host_bus : option string) : result Error World :=
  match BusConnection_connect container_bus with
  | Err e => Err e
  | Ok container_conn =>
      match connect_session host_bus with
      | Err e => Err e
      | Ok host_conn =>
          let s := fresh (bc_unique_name container_conn) (bc_unique_name host_conn) random_guid in
          match Multiplexer_new (mkWorld s []) with
          | (Err e, _) => Err e
          | (Ok _, w) => Ok w
          end
      end
  end.

Definition new (listen_path : Path) (container_bus : string) (host_bus : option string) (fs : Files)
    : result Error World * Files :=
  match (if path_exists listen_path fs then remove_file refused listen_path fs else (Ok tt, fs)) with
  | (Err e, fs) => (Err (Io e), fs)
  | (Ok _, fs) =>
      match (match parent listen_path with
             | Some p => create_dir_all refused p fs
             | None => (Ok tt, fs)
             end) with
      | (Err e, fs) => (Err (Io e), fs)
      | (Ok _, fs) =>
          match bind_socket refused listen_path fs with
          | (Err e, fs) => (Err (Io e), fs)
          | (Ok _, fs) => (connect_and_sync container_bus host_bus, fs)
          end
      end
  end.

(** [Drop for Multiplexer] *)
Definition drop_multiplexer (listen_path : Path) (fs : Files) : Files :=
  if path_exists listen_path fs then (remove_file refused listen_path fs).2 else fs.

(** ** [main] *)

Record Args := mkArgs {
  listen : Path;
  container_bus : string;
  host_bus : option string;
  log_level : string;
}.

(** [inputs] is what wakes the main loop up before Ctrl-C does; the multiplexer
    is dropped when [select!] is over.  A signal that kills the process (SIGTERM
    included, for which the code has no handler) runs no destructor, and a panic
    of the main thread is not modelled. *)
Definition main (args : Args) (inputs : list Input) (fs : Files) : result Error unit * Files :=
  match new (listen args) (container_bus args) (host_bus args) fs with
  | (Err e, fs) => (Err e, fs)
  | (Ok w, fs) =>
      (match (run inputs w).1 with Some e => Err e | None => Ok tt end,
       drop_multiplexer (listen args) fs)
  end.

(** ** Lemmas *)

Lemma create_dirs_keeps p ps fs :
  p ∉ ps -> (create_dirs refused ps fs).2 !! p = fs !! p.
Proof.
  revert fs. induction ps as [|x ps IH]; intros fs Hp; cbn [create_dirs]; [done |].
  apply not_elem_of_cons in Hp as [Hx Hp].
  destruct (fs !! x) as [[]|] eqn:Ex; try done; [by apply IH |].
  destruct (refused (CreateDir x)); [done |]. rewrite IH by done. by rewrite lookup_insert_ne.
Qed.

Lemma ancestors_length p x : x ∈ ancestors p -> (length x <= length p)%nat.
Proof.
  unfold ancestors. intros (n & -> & Hn)%list_elem_of_fmap. rewrite length_take. lia.
Qed.

Lemma parent_length p q : parent p = Some q -> (length q < length p)%nat.
Proof.
  unfold parent. intros Hp. assert (p <> []) as Hne by (by intros ->).
  assert (q = removelast p) as -> by (destruct p; congruence).
  rewrite (app_removelast_last (A := string) EmptyString Hne) at 2. rewrite length_app. simpl. lia.
Qed.

(** Making the parent directories does not touch the path itself. *)
Lemma parent_dirs_keep p q fs : parent p = Some q -> (create_dir_all refused q fs).2 !! p = fs !! p.
Proof.
  intros Hp. apply create_dirs_keeps. intros Hin%ancestors_length. apply parent_length in Hp. lia.
Qed.

(** What [new] does to the socket's path, by how far it gets. *)
Lemma new_socket listen_path container_bus host_bus fs :
  let '(r, fs') := new listen_path container_bus host_bus fs in
  (fs' !! listen_path = Some SocketFile /\ r = connect_and_sync container_bus host_bus) \/
  (exists e, r = Err (Io e) /\ (fs' !! listen_path = None \/ fs' !! listen_path = fs !! listen_path)).
Proof.
  unfold new.
  destruct (if path_exists listen_path fs then _ else _) as [r1 fs1] eqn:E1.
  assert (fs1 !! listen_path = None \/ fs1 !! listen_path = fs !! listen_path) as H1.
  { unfold remove_file in E1. repeat case_match; simplify_eq; rewrite ?lookup_delete_eq; auto. }
  destruct r1 as [[]|e]; [| right; eauto].
  destruct (match parent listen_path with Some p => _ | None => _ end) as [r2 fs2] eqn:E2.
  assert (fs2 !! listen_path = fs1 !! listen_path) as H2.
  { destruct (parent listen_path) as [p|] eqn:Ep; [| congruence].
    rewrite <- (parent_dirs_keep listen_path p fs1 Ep). by rewrite E2. }
  rewrite <- H2 in H1. destruct r2 as [[]|e]; [| right; eauto].
  unfold bind_socket. destruct (fs2 !! listen_path) as [n|] eqn:E3; [right; rewrite E3; eauto |].
  destruct (refused (Bind listen_path)); [right; rewrite E3; eauto |].
  left. by rewrite lookup_insert_eq.
Qed.

Lemma drop_removes p fs :
  fs !! p = Some SocketFile -> refused (RemoveFile p) = None -> drop_multiplexer p fs = delete p fs.
Proof.
  intros Hp Hr. unfold drop_multiplexer, path_exists, remove_file. rewrite Hp, Hr.
  by rewrite bool_decide_eq_true_2 by eauto.
Qed.

(** The main loop ends only when a bus does. *)
Definition ends_with (e : Error) (i : Input) : Prop :=
  exists route, i = InBus route (Err e) \/
    (i = InBus route (Ok None) /\ e = ConnectionClosed (bus_title route)).

Lemma run_step_ends i w e : (run_step i w).1 = Some e -> ends_with e i.
Proof.
  destruct i as [[h|e']|h|route [[msg|]|e']|c msg|]; cbn [run_step]; unfold bind, ret; try (by repeat case_match).
  - intros [= <-]. exists route. by right.
  - intros [= <-]. exists route. by left.
Qed.

Lemma run_ends inputs w e : (run inputs w).1 = Some e -> exists i, i ∈ inputs /\ ends_with e i.
Proof.
  revert w. induction inputs as [|i inputs IH]; intros w; cbn [run]; [done |].
  unfold bind. destruct (run_step i w) as [[e'|] w1] eqn:Ei.
  - cbn [ret fst]. intros [= ->]. exists i. split; [apply list_elem_of_here |].
    apply (run_step_ends i w). by rewrite Ei.
  - intros (j & Hj & Hend)%IH. exists j. split; [by apply list_elem_of_further | done].
Qed.

Lemma run_continues inputs w : (run inputs w).1 = None -> Forall (fun i => forall e, ~ ends_with e i) inputs.
Proof.
  revert w. induction inputs as [|i inputs IH]; intros w; cbn [run]; [constructor |].
  unfold bind. destruct (run_step i w) as [[e'|] w1] eqn:Ei; [done |]. intros Hn. constructor; [| by eapply IH].
  intros e (route & [->|[-> ->]]); done.
Qed.

(** ** Theorems *)

(** C27. Shutdown: a multiplexer that has started and is ended by a bus or by
    Ctrl-C leaves no socket behind, unless the system refuses the removal;
    no other file is touched by the shutdown; the process fails with error
    [e] only if a bus connection broke with [e] or, for a closed one, [e] says
    which, and succeeds exactly if none did. *)
Theorem main_cleans_up args inputs fs w fs1 :
  new (listen args) (container_bus args) (host_bus args) fs = (Ok w, fs1) ->
  refused (RemoveFile (listen args)) = None ->
  let '(r, fs') := main args inputs fs in
  fs1 !! listen args = Some SocketFile /\ fs' = delete (listen args) fs1 /\
  (r = Ok tt <-> Forall (fun i => forall e, ~ ends_with e i) inputs) /\
  (forall e, r = Err e -> exists i, i ∈ inputs /\ ends_with e i).
Proof.
  intros Hn Hr. unfold main. rewrite Hn.
  pose proof (new_socket (listen args) (container_bus args) (host_bus args) fs) as Hs. rewrite Hn in Hs.
  destruct Hs as [[Hs _]|(e & He & _)]; [| done]. split_and!; [done | by apply drop_removes | |].
  - destruct (run inputs w).1 as [e|] eqn:Er.
    + split; [done |]. intros Hall. destruct (run_ends inputs w e Er) as (i & Hi & Hend).
      rewrite Forall_forall in Hall. by destruct (Hall i Hi e).
    + split; [intros _; by eapply run_continues | done].
  - intros e He. destruct (run inputs w).1 as [e'|] eqn:Er; [| done]. simplify_eq. by eapply run_ends.
Qed.

(** C39. Finding: a start that fails after the socket is made leaves the socket's
    file behind: if connecting to a bus, reading its names or subscribing to it
    fails (every error but an I/O error), [main] returns that error with the
    file in place and nobody listening. *)
Theorem failed_start_leaves_socket args inputs fs e fs' :
  new (listen args) (container_bus args) (host_bus args) fs = (Err e, fs') -> (forall e', e <> Io e') ->
  main args inputs fs = (Err e, fs') /\ fs' !! listen args = Some SocketFile.
Proof.
  intros Hn Hio. unfold main. rewrite Hn. split; [done |].
  pose proof (new_socket (listen args) (container_bus args) (host_bus args) fs) as Hs. rewrite Hn in Hs.
  destruct Hs as [[Hs _]|(e' & [= ->] & _)]; [done | by destruct (Hio e')].
Qed.

(** Starting again works: whatever a previous run left at the path, a start
    removes it (unless it is a directory or the removal is refused) and, if the
    parent directory is there, nothing is refused and the buses answer,
    succeeds with the socket in place. *)
Lemma restart_replaces_socket listen_path container_bus host_bus fs w :
  (forall op, refused op = None) -> fs !! listen_path <> Some Directory ->
  (forall p, parent listen_path = Some p -> Forall (fun q => fs !! q = Some Directory) (ancestors p)) ->
  connect_and_sync container_bus host_bus = Ok w ->
  new listen_path container_bus host_bus fs = (Ok w, <[listen_path := SocketFile]> fs).
Proof.
  intros Hr Hd Hp Hc. unfold new.
  assert ((if path_exists listen_path fs then remove_file refused listen_path fs else (Ok tt, fs))
    = (Ok tt, delete listen_path fs)) as ->.
  { unfold path_exists, remove_file. rewrite Hr. destruct (fs !! listen_path) as [[]|] eqn:Ef; try done.
    by rewrite delete_id. }
  assert ((match parent listen_path with
           | Some p => create_dir_all refused p (delete listen_path fs)
           | None => (Ok tt, delete listen_path fs) end) = (Ok tt, delete listen_path fs)) as ->.
  { destruct (parent listen_path) as [p|] eqn:Ep; [| done]. specialize (Hp p eq_refl).
    assert (forall q, q ∈ ancestors p -> q <> listen_path) as Hne.
    { intros q Hq%ancestors_length ->. apply parent_length in Ep. lia. }
    unfold create_dir_all. revert Hp Hne. induction (ancestors p) as [|q qs IH]; intros Hp Hne; [done |].
    apply Forall_cons in Hp as [Hq Hp]. cbn [create_dirs].
    rewrite lookup_delete_ne by (intros <-; by apply (Hne listen_path (list_elem_of_here _ _))). rewrite Hq.
    apply IH; [done |]. intros x Hx. apply Hne. by apply list_elem_of_further. }
  unfold bind_socket. rewrite lookup_delete_eq, Hr, Hc. by rewrite insert_delete_eq.
Qed.

End Startup.

(** ** Witnesses *)

Section Witnesses.
#[local] Existing Instance SimpleZbus.
#[local] Existing Instance SimpleZbusLaws.
#[local] Existing Instance SimpleEnv.

(** Nothing is refused; the container bus is at one address only. *)
#[local] Instance ex_system : Host_system := {|
  refused := fun _ => None;
  connect_address := fun addr =>
    if String.eqb addr "unix:path=/run/bus" then Ok (Some ":1.88") else Err "no such bus";
  connect_default_session := Ok (Some ":1.9");
  random_guid := "0123";
|}.

Definition ex_path : Path := ["run"; "mux"; "bus"].
Definition ex_args : Args := mkArgs ex_path "unix:path=/run/bus" None "info".

(** The directories exist, and a socket of an earlier run. *)
Definition ex_files : Files :=
  <[ex_path := SocketFile]> (<[["run"; "mux"] := Directory]> (<[["run"] := Directory]> ∅)).

Definition ex_start : World :=
  match connect_and_sync "unix:path=/run/bus" None with Ok w => w | Err _ => s_world end.

Lemma ex_start_ok : connect_and_sync "unix:path=/run/bus" None = Ok ex_start.
Proof.
  assert (match connect_and_sync "unix:path=/run/bus" None with Ok _ => true | Err _ => false end = true) as H
    by (vm_compute; reflexivity).
  unfold ex_start. by destruct (connect_and_sync _ _).
Qed.

Lemma restart_replaces_socket_witness :
  new ex_path "unix:path=/run/bus" None ex_files = (Ok ex_start, <[ex_path := SocketFile]> ex_files).
Proof.
  refine (restart_replaces_socket ex_path "unix:path=/run/bus" None ex_files ex_start (fun _ => eq_refl) _ _ ex_start_ok).
  - apply (bool_decide_unpack _). vm_compute. exact I.
  - intros p [= <-]. apply (bool_decide_unpack _). vm_compute. exact I.
Defined.

Lemma ex_new : new ex_path "unix:path=/run/bus" None ex_files = (Ok ex_start, <[ex_path := SocketFile]> ex_files).
Proof. unfold new. rewrite ex_start_ok. reflexivity. Qed.

Lemma main_cleans_up_witness :
  main ex_args [InTick; InBus Host (recv None); InTick] ex_files
    = (Err (ConnectionClosed "host bus"), (main ex_args [InTick; InBus Host (recv None); InTick] ex_files).2) /\
  (main ex_args [InTick; InBus Host (recv None); InTick] ex_files).2 = delete ex_path (<[ex_path := SocketFile]> ex_files).
Proof.
  pose proof (main_cleans_up ex_args [InTick; InBus Host (recv None); InTick] ex_files ex_start
    (<[ex_path := SocketFile]> ex_files) ex_new eq_refl) as H.
  destruct (main ex_args _ ex_files) as [r fs'] eqn:Em. destruct H as (_ & -> & Hok & Herr). split; [| reflexivity].
  cbn [snd]. f_equal. destruct r as [[]|e].
  - pose proof (proj1 Hok eq_refl) as Hf. apply Forall_cons in Hf as [_ Hf]. apply Forall_cons in Hf as [Hf _].
    destruct (Hf (ConnectionClosed "host bus")). exists Host. by right.
  - destruct (Herr e eq_refl) as (i & Hi & route & Hend).
    rewrite !elem_of_cons, elem_of_nil in Hi.
    destruct Hi as [->|[->|[->|[]]]], Hend as [|[? ->]]; try done. simplify_eq. done.
Defined.

Lemma failed_start_leaves_socket_witness :
  main (mkArgs ex_path "unix:path=/nowhere" None "info") [] ∅
    = (Err (DBus "no such bus"), (new ex_path "unix:path=/nowhere" None ∅).2) /\
  (new ex_path "unix:path=/nowhere" None ∅).2 !! ex_path = Some SocketFile.
Proof.
  refine (failed_start_leaves_socket (mkArgs ex_path "unix:path=/nowhere" None "info") [] ∅ (DBus "no such bus") _ eq_refl _).
  done.
Defined.
End Witnesses.
