(* ===== verification/UnitTests.v ===== *)
(** * The unit tests of the sources, on the model

    The [#[test]] functions of the files under src/src as boolean definitions
    over the model: a test passes if it evaluates to [true].  They check that
    the model behaves as the authors of the code expect of the code.  Sleeping
    threads are a later time of the clock; the tests of messages run on the
    concrete [SimpleZbus].  Left out are the tests of random numbers and of
    derived Debug output. *)

From S2P Require Import Prelude RustStr Zbus SimpleZbus Errors Message Routing NameQueue SerialMap MatchRules Portal World Auth Client.

#[local] Open Scope Z_scope.

Definition assert_eq {A} `{EqDecision A} (left right : A) : bool := bool_decide (left = right).
Definition is_none {A} (o : option A) : bool := match o with None => true | Some _ => false end.
Definition is_some {A} (o : option A) : bool := negb (is_none o).

(** ** Name queues *)

Module NameQueueTests.

#[local] Abbreviation name := "org.example.Test" (only parsing).

Definition test_first_request_becomes_owner : bool :=
  let mgr := NameQueueManager_new in
  let '(mgr, result) := request_name name 1 ":mux.1" 0 mgr in
  assert_eq (rq_reply_code result) request_name_reply.PRIMARY_OWNER && rq_forward_to_bus result &&
  is_none (rq_replaced_owner result).

Definition test_already_owner : bool :=
  let mgr := NameQueueManager_new in
  let mgr := (request_name name 1 ":mux.1" 0 mgr).1 in
  let '(mgr, result) := request_name name 1 ":mux.1" 0 mgr in
  assert_eq (rq_reply_code result) request_name_reply.ALREADY_OWNER && negb (rq_forward_to_bus result).

Definition test_queue_without_do_not_queue : bool :=
  let mgr := NameQueueManager_new in
  let mgr := (request_name name 1 ":mux.1" 0 mgr).1 in
  let '(mgr, result) := request_name name 2 ":mux.2" 0 mgr in
  assert_eq (rq_reply_code result) request_name_reply.IN_QUEUE && negb (rq_forward_to_bus result).

Definition test_do_not_queue_flag : bool :=
  let mgr := NameQueueManager_new in
  let mgr := (request_name name 1 ":mux.1" 0 mgr).1 in
  let '(mgr, result) := request_name name 2 ":mux.2" request_name_flags.DO_NOT_QUEUE mgr in
  assert_eq (rq_reply_code result) request_name_reply.EXISTS && negb (rq_forward_to_bus result).

Definition test_replacement_with_allow_replacement : bool :=
  let mgr := NameQueueManager_new in
  let mgr := (request_name name 1 ":mux.1" request_name_flags.ALLOW_REPLACEMENT mgr).1 in
  let '(mgr, result) := request_name name 2 ":mux.2" request_name_flags.REPLACE_EXISTING mgr in
  assert_eq (rq_reply_code result) request_name_reply.PRIMARY_OWNER && rq_forward_to_bus result &&
  assert_eq (rq_replaced_owner result) (Some ":mux.1") &&
  assert_eq (list_queued_owners name mgr) [":mux.2"; ":mux.1"].

Definition test_replacement_denied_without_allow : bool :=
  let mgr := NameQueueManager_new in
  let mgr := (request_name name 1 ":mux.1" 0 mgr).1 in
  let '(mgr, result) := request_name name 2 ":mux.2" request_name_flags.REPLACE_EXISTING mgr in
  assert_eq (rq_reply_code result) request_name_reply.IN_QUEUE && negb (rq_forward_to_bus result) &&
  is_none (rq_replaced_owner result).

Definition test_release_by_owner_promotes_waiter : bool :=
  let mgr := NameQueueManager_new in
  let mgr := (request_name name 1 ":mux.1" 0 mgr).1 in
  let mgr := (request_name name 2 ":mux.2" 0 mgr).1 in
  let '(mgr, result) := release_name name 1 mgr in
  assert_eq (rl_reply_code result) release_name_reply.RELEASED && negb (rl_forward_to_bus result) &&
  assert_eq (rl_new_owner result) (Some (2, ":mux.2")) &&
  assert_eq (list_queued_owners name mgr) [":mux.2"].

Definition test_release_last_owner : bool :=
  let mgr := NameQueueManager_new in
  let mgr := (request_name name 1 ":mux.1" 0 mgr).1 in
  let '(mgr, result) := release_name name 1 mgr in
  assert_eq (rl_reply_code result) release_name_reply.RELEASED && rl_forward_to_bus result && is_none (rl_new_owner result).

Definition test_release_non_owner : bool :=
  let mgr := NameQueueManager_new in
  let mgr := (request_name name 1 ":mux.1" 0 mgr).1 in
  let '(mgr, result) := release_name name 3 mgr in
  assert_eq (rl_reply_code result) release_name_reply.NOT_OWNER && negb (rl_forward_to_bus result).

Definition test_release_nonexistent : bool :=
  let mgr := NameQueueManager_new in
  let '(mgr, result) := release_name "org.example.Unknown" 1 mgr in
  assert_eq (rl_reply_code result) release_name_reply.NON_EXISTENT && negb (rl_forward_to_bus result).

Definition test_release_from_queue : bool :=
  let mgr := NameQueueManager_new in
  let mgr := (request_name name 1 ":mux.1" 0 mgr).1 in
  let mgr := (request_name name 2 ":mux.2" 0 mgr).1 in
  let mgr := (request_name name 3 ":mux.3" 0 mgr).1 in
  let '(mgr, result) := release_name name 2 mgr in
  assert_eq (rl_reply_code result) release_name_reply.RELEASED && negb (rl_forward_to_bus result) &&
  is_none (rl_new_owner result) && assert_eq (list_queued_owners name mgr) [":mux.1"; ":mux.3"].

Definition test_list_queued_owners : bool :=
  let mgr := NameQueueManager_new in
  let mgr := (request_name name 1 ":mux.1" 0 mgr).1 in
  let mgr := (request_name name 2 ":mux.2" 0 mgr).1 in
  let mgr := (request_name name 3 ":mux.3" 0 mgr).1 in
  assert_eq (list_queued_owners name mgr) [":mux.1"; ":mux.2"; ":mux.3"].

Definition test_list_queued_owners_empty : bool :=
  let mgr := NameQueueManager_new in
  assert_eq (list_queued_owners "org.example.Unknown" mgr) [].

Definition test_remove_client_primary_owner : bool :=
  let mgr := NameQueueManager_new in
  let mgr := (request_name name 1 ":mux.1" 0 mgr).1 in
  let mgr := (request_name name 2 ":mux.2" 0 mgr).1 in
  let '(mgr, results) := remove_client 1 mgr in
  assert_eq (length results) 1%nat && assert_eq (results !! 0%nat) (Some (name, Some (2, ":mux.2"))) &&
  assert_eq (list_queued_owners name mgr) [":mux.2"].

Definition test_remove_client_from_queue : bool :=
  let mgr := NameQueueManager_new in
  let mgr := (request_name name 1 ":mux.1" 0 mgr).1 in
  let mgr := (request_name name 2 ":mux.2" 0 mgr).1 in
  let '(mgr, results) := remove_client 2 mgr in
  assert_eq results [] && assert_eq (list_queued_owners name mgr) [":mux.1"].

Definition test_multiple_names_per_client : bool :=
  let mgr := NameQueueManager_new in
  let mgr := (request_name "org.example.Test1" 1 ":mux.1" 0 mgr).1 in
  let mgr := (request_name "org.example.Test2" 1 ":mux.1" 0 mgr).1 in
  let mgr := (request_name "org.example.Test1" 2 ":mux.2" 0 mgr).1 in
  let '(mgr, results) := remove_client 1 mgr in
  let test1_result := find (fun '(n, _) => String.eqb n "org.example.Test1") results in
  let test2_result := find (fun '(n, _) => String.eqb n "org.example.Test2") results in
  assert_eq (length results) 2%nat && is_some test1_result && is_some test2_result &&
  assert_eq (snd <$> test1_result) (Some (Some (2, ":mux.2"))) &&
  assert_eq (snd <$> test2_result) (Some None).

End NameQueueTests.

(** ** Pending calls and serials *)

Module SerialMapTests.

Definition test_serial_map_insert_remove : bool :=
  let map := sm_insert 0 Host 100 1 5 SerialMap_new in
  let '(map, call) := sm_remove Host 100 map in
  assert_eq (pc_client_id <$> call) (Some 1) && assert_eq (pc_client_serial <$> call) (Some 5) &&
  is_none (sm_remove Host 100 map).2.

Definition test_serial_map_different_routes : bool :=
  let map := sm_insert 0 Host 100 1 5 SerialMap_new in
  let map := sm_insert 0 Container 100 2 10 map in
  let '(map, host_call) := sm_remove Host 100 map in
  let '(map, container_call) := sm_remove Container 100 map in
  assert_eq (pc_client_id <$> host_call) (Some 1) && assert_eq (pc_client_id <$> container_call) (Some 2).

Definition test_serial_generator : bool :=
  let '(gen, n1) := next SerialGenerator_new in
  let '(gen, n2) := next gen in
  let '(gen, n3) := next gen in
  assert_eq n1 1 && assert_eq n2 2 && assert_eq n3 3.

Definition test_serial_map_multiple_clients_same_serial : bool :=
  let map := sm_insert 0 Host 100 1 1 SerialMap_new in
  let map := sm_insert 0 Host 101 2 1 map in
  let '(map, call1) := sm_remove Host 100 map in
  let '(map, call2) := sm_remove Host 101 map in
  assert_eq (pc_client_id <$> call1) (Some 1) && assert_eq (pc_client_serial <$> call1) (Some 1) &&
  assert_eq (pc_client_id <$> call2) (Some 2) && assert_eq (pc_client_serial <$> call2) (Some 1).

Definition test_serial_map_collision_scenario : bool :=
  let map := sm_insert 0 Host 1001 1 1 SerialMap_new in
  let map := sm_insert 0 Host 1002 2 1 map in
  assert_eq (sm_len map) 2%nat.

Definition test_pending_for_client : bool :=
  let map := sm_insert 0 Host 100 1 1 SerialMap_new in
  let map := sm_insert 0 Host 101 1 2 map in
  let map := sm_insert 0 Host 102 1 3 map in
  let map := sm_insert 0 Host 200 2 1 map in
  let map := sm_insert 0 Container 201 2 2 map in
  assert_eq (pending_for_client 1 map) 3%nat && assert_eq (pending_for_client 2 map) 2%nat &&
  assert_eq (pending_for_client 999 map) 0%nat.

Definition from_millis (ms : Z) : Z := ms * 1000000.

Definition test_cleanup_expired : bool :=
  let map := with_timeout (from_millis 50) in
  let map := sm_insert 0 Host 100 1 5 map in
  let map := sm_insert 0 Host 101 2 10 map in
  let len_before := sm_len map in
  let '(map, cleaned) := sm_cleanup_expired (from_millis 100) map in
  assert_eq len_before 2%nat && assert_eq cleaned 2%nat && assert_eq (sm_len map) 0%nat.

Definition test_cleanup_expired_partial : bool :=
  let map := with_timeout (from_millis 100) in
  let map := sm_insert 0 Host 100 1 5 map in
  let map := sm_insert (from_millis 60) Host 101 2 10 map in
  let '(map, cleaned) := sm_cleanup_expired (from_millis 120) map in
  let len := sm_len map in
  let '(map, remaining) := sm_remove Host 101 map in
  assert_eq cleaned 1%nat && assert_eq len 1%nat && assert_eq (pc_client_id <$> remaining) (Some 2).

Definition test_serial_key_equality : bool :=
  let key1 := mkSerialKey Host 100 in
  let key2 := mkSerialKey Host 100 in
  let key3 := mkSerialKey Container 100 in
  let key4 := mkSerialKey Host 101 in
  assert_eq key1 key2 && negb (assert_eq key1 key3) && negb (assert_eq key1 key4).

End SerialMapTests.

(** ** Routing *)

Module RoutingTests.

Definition test_container_priority : bool :=
  let table := on_host_name_change "org.example.Service" "" ":1.100" RoutingTable_new in
  let table := on_container_name_change "org.example.Service" "" ":1.50" table in
  assert_eq (route_for "org.example.Service" table) Container.

Definition test_host_fallback : bool :=
  let table := on_host_name_change "org.example.HostOnly" "" ":1.100" RoutingTable_new in
  assert_eq (route_for "org.example.HostOnly" table) Host.

Definition test_unknown_defaults_to_host : bool :=
  assert_eq (route_for "org.example.Unknown" RoutingTable_new) Host.

Definition test_unique_name_routing : bool :=
  let table := register_unique_name ":1.50" Container RoutingTable_new in
  let table := register_unique_name ":1.100" Host table in
  assert_eq (route_for ":1.50" table) Container && assert_eq (route_for ":1.100" table) Host.

Definition test_name_release : bool :=
  let table := on_container_name_change "org.example.Service" "" ":1.50" RoutingTable_new in
  let owned := route_for "org.example.Service" table in
  let table := on_container_name_change "org.example.Service" ":1.50" "" table in
  assert_eq owned Container && assert_eq (route_for "org.example.Service" table) Host.

End RoutingTests.

(** ** Portal requests *)

Module PortalTests.

Definition test_tracker_basic : bool :=
  let path := "/org/freedesktop/portal/desktop/request/1_156/token123" in
  let tracker := prt_register 0 path 42 PortalRequestTracker_new in
  let '(tracker, first) := lookup_and_remove path tracker in
  let '(tracker, second) := lookup_and_remove path tracker in
  assert_eq first (Some 42) && assert_eq second None.

Definition test_tracker_remove_client : bool :=
  let tracker := prt_register 0 "/path/1" 1 PortalRequestTracker_new in
  let tracker := prt_register 0 "/path/2" 1 tracker in
  let tracker := prt_register 0 "/path/3" 2 tracker in
  let '(tracker, removed) := prt_remove_client 1 tracker in
  let '(tracker, r1) := lookup_and_remove "/path/1" tracker in
  let '(tracker, r2) := lookup_and_remove "/path/2" tracker in
  let '(tracker, r3) := lookup_and_remove "/path/3" tracker in
  assert_eq removed 2%nat && assert_eq r1 None && assert_eq r2 None && assert_eq r3 (Some 2).

End PortalTests.

(** ** Match rules *)

Module MatchRuleTests.

(** [MatchRule::parse(rule).unwrap()], with what is asserted of the rule. *)
Definition unwrap_parse (rule : string) (asserts : MatchRule -> bool) : bool :=
  match parse rule with Ok r => asserts r | Err _ => false end.

Definition is_err {E A} (r : result E A) : bool := match r with Err _ => true | Ok _ => false end.

Definition test_parse_empty_rule : bool :=
  unwrap_parse "" (fun rule => is_none (mr_type rule) && is_none (mr_sender rule)).

Definition test_parse_type_signal : bool :=
  unwrap_parse "type='signal'" (fun rule => assert_eq (mr_type rule) (Some "signal")).

Definition test_parse_multiple_fields : bool :=
  unwrap_parse "type='signal',interface='org.freedesktop.DBus',member='NameOwnerChanged'" (fun rule =>
    assert_eq (mr_type rule) (Some "signal") &&
    assert_eq (mr_interface rule) (Some "org.freedesktop.DBus") &&
    assert_eq (mr_member rule) (Some "NameOwnerChanged")).

Definition test_parse_sender_interface : bool :=
  unwrap_parse "sender='org.gnome.Shell',interface='org.gnome.Shell.Extensions'" (fun rule =>
    assert_eq (mr_sender rule) (Some "org.gnome.Shell") &&
    assert_eq (mr_interface rule) (Some "org.gnome.Shell.Extensions")).

Definition test_parse_path : bool :=
  unwrap_parse "path='/org/freedesktop/DBus'" (fun rule =>
    assert_eq (mr_path rule) (Some "/org/freedesktop/DBus")).

Definition test_parse_path_namespace : bool :=
  unwrap_parse "path_namespace='/org/freedesktop'" (fun rule =>
    assert_eq (mr_path_namespace rule) (Some "/org/freedesktop")).

Definition test_parse_arg0 : bool :=
  unwrap_parse "arg0='test.Name'" (fun rule => assert_eq (mr_args rule !! 0) (Some "test.Name")).

Definition test_parse_arg0path : bool :=
  unwrap_parse "arg0path='/org/example'" (fun rule =>
    assert_eq (mr_arg_paths rule !! 0) (Some "/org/example")).

Definition test_parse_complex_rule : bool :=
  unwrap_parse "type='signal',sender='org.freedesktop.DBus',interface='org.freedesktop.DBus',member='NameOwnerChanged',path='/org/freedesktop/DBus',arg0='com.example.Service'" (fun rule =>
    assert_eq (mr_type rule) (Some "signal") &&
    assert_eq (mr_sender rule) (Some "org.freedesktop.DBus") &&
    assert_eq (mr_interface rule) (Some "org.freedesktop.DBus") &&
    assert_eq (mr_member rule) (Some "NameOwnerChanged") &&
    assert_eq (mr_path rule) (Some "/org/freedesktop/DBus") &&
    assert_eq (mr_args rule !! 0) (Some "com.example.Service")).

Definition test_parse_eavesdrop : bool :=
  unwrap_parse "eavesdrop='true'" mr_eavesdrop &&
  unwrap_parse "eavesdrop='false'" (fun rule => negb (mr_eavesdrop rule)).

Definition test_parse_invalid_format : bool := is_err (parse "type").

Definition test_parse_unclosed_quote : bool := is_err (parse "type='signal").

Definition test_parse_high_arg_index : bool :=
  is_err (parse "arg64='test'") && negb (is_err (parse "arg63='test'")).

Definition test_client_match_rules_add_remove : bool :=
  let rules := ClientMatchRules_new in
  let empty := cmr_is_empty rules in
  unwrap_parse "type='signal'" (fun rule =>
    let rules := cmr_add rule rules in
    let len1 := cmr_len rules in
    unwrap_parse "type='signal'" (fun rule2 =>
      let rules := cmr_add rule2 rules in
      let len2 := cmr_len rules in
      unwrap_parse "type='method_call'" (fun rule3 =>
        let rules := cmr_add rule3 rules in
        let len3 := cmr_len rules in
        let '(rules, removed1) := cmr_remove "type='signal'" rules in
        let len4 := cmr_len rules in
        let '(rules, removed2) := cmr_remove "type='signal'" rules in
        empty && assert_eq len1 1%nat && assert_eq len2 1%nat && assert_eq len3 2%nat &&
        removed1 && assert_eq len4 1%nat && negb removed2 && assert_eq (cmr_len rules) 1%nat))).

Definition test_parse_with_whitespace : bool :=
  unwrap_parse "  type='signal' , interface='org.example'  " (fun rule =>
    assert_eq (mr_type rule) (Some "signal") && assert_eq (mr_interface rule) (Some "org.example")).

Definition test_parse_destination : bool :=
  unwrap_parse "destination=':1.42'" (fun rule => assert_eq (mr_destination rule) (Some ":1.42")).

Definition test_match_rule_refcount_basic : bool :=
  let '(refcount, add1) := increment "container" "type='signal'" MatchRuleRefCount_new in
  let '(refcount, add2) := increment "container" "type='signal'" refcount in
  let '(refcount, del1) := decrement "container" "type='signal'" refcount in
  let '(refcount, del2) := decrement "container" "type='signal'" refcount in
  let '(refcount, del3) := decrement "container" "type='signal'" refcount in
  add1 && negb add2 && negb del1 && del2 && negb del3.

Definition test_match_rule_refcount_multiple_buses : bool :=
  let '(refcount, add1) := increment "container" "type='signal'" MatchRuleRefCount_new in
  let '(refcount, add2) := increment "host" "type='signal'" refcount in
  let '(refcount, del1) := decrement "container" "type='signal'" refcount in
  let '(refcount, del2) := decrement "host" "type='signal'" refcount in
  add1 && add2 && del1 && del2.

Definition contains (l : list string) (x : string) : bool := bool_decide (x ∈ l).

Definition test_match_rule_refcount_rules_for_bus : bool :=
  let refcount := (increment "container" "type='signal'" MatchRuleRefCount_new).1 in
  let refcount := (increment "container" "interface='org.example'" refcount).1 in
  let refcount := (increment "host" "type='signal'" refcount).1 in
  let container_rules := rules_for_bus "container" refcount in
  let host_rules := rules_for_bus "host" refcount in
  assert_eq (length container_rules) 2%nat && contains container_rules "type='signal'" &&
  contains container_rules "interface='org.example'" &&
  assert_eq (length host_rules) 1%nat && contains host_rules "type='signal'".

Definition test_client_match_rules_rule_strings : bool :=
  unwrap_parse "type='signal'" (fun rule1 =>
    unwrap_parse "interface='org.example'" (fun rule2 =>
      let rules := cmr_add rule2 (cmr_add rule1 ClientMatchRules_new) in
      let strings := rule_strings rules in
      assert_eq (length strings) 2%nat && contains strings "type='signal'" &&
      contains strings "interface='org.example'")).

End MatchRuleTests.

(** ** Messages *)

Module MessageTests.
#[local] Existing Instance SimpleZbus.

(** [.unwrap()] *)
Definition unwrap {T A} (r : result T A) (k : A -> bool) : bool := match r with Ok a => k a | Err _ => false end.

(** zbus numbers the messages of a process from 1. *)
Definition create_test_method_call : Message :=
  mkSMessage (mkFields MethodCall (Some "org.test.Destination") None (Some "org.test.Interface")
    (Some "TestMethod") (Some "/org/test/Path") None) 1 (s_str_u32 "hello" 42).

Definition create_test_method_return (request : Message) : Message :=
  match new_method_return request with
  | Ok b => mkSMessage (builder_fields b) 2 (s_str_u32 "response" 123)
  | Err _ => request
  end.

Definition same_body (a b : Message) : bool :=
  unwrap (deserialize BStrU32 a) (fun x => unwrap (deserialize BStrU32 b) (fun y => assert_eq x y)).

Definition test_clone_message_with_serial : bool :=
  let original := create_test_method_call in
  unwrap (clone_message_with_serial original 9999) (fun cloned =>
    assert_eq (serial cloned) 9999 && negb (assert_eq (serial cloned) (serial original)) &&
    assert_eq (destination_str cloned) (destination_str original) &&
    assert_eq (interface_str cloned) (interface_str original) &&
    assert_eq (member_str cloned) (member_str original) && assert_eq (path_str cloned) (path_str original) &&
    same_body original cloned).

Definition test_clone_message_with_serial_zero_rejected : bool :=
  negb (is_ok (clone_message_with_serial create_test_method_call 0)).

Definition test_clone_message_preserves_message_type : bool :=
  let original := create_test_method_call in
  unwrap (clone_message_with_serial original 5000) (fun cloned => is_method_call original && is_method_call cloned).

Definition test_clone_reply_with_serial : bool :=
  let original_reply := create_test_method_return create_test_method_call in
  unwrap (clone_reply_with_serial original_reply 7777) (fun cloned_reply =>
    assert_eq (reply_serial cloned_reply) (Some 7777) &&
    negb (assert_eq (reply_serial cloned_reply) (reply_serial original_reply)) &&
    is_method_return cloned_reply && same_body original_reply cloned_reply).

Definition test_clone_reply_with_serial_zero_rejected : bool :=
  negb (is_ok (clone_reply_with_serial (create_test_method_return create_test_method_call) 0)).

Definition test_clone_message_different_serials : bool :=
  let original := create_test_method_call in
  unwrap (clone_message_with_serial original 100) (fun clone1 =>
  unwrap (clone_message_with_serial original 200) (fun clone2 =>
  unwrap (clone_message_with_serial original 300) (fun clone3 =>
    assert_eq (serial clone1) 100 && assert_eq (serial clone2) 200 && assert_eq (serial clone3) 300 &&
    assert_eq (destination_str clone1) (destination_str clone2) &&
    assert_eq (destination_str clone2) (destination_str clone3)))).

Definition test_message_ext_serial : bool := 0 <? serial create_test_method_call.

Definition test_message_ext_is_method_call : bool :=
  let msg := create_test_method_call in
  is_method_call msg && negb (is_method_return msg) && negb (is_error msg) && negb (is_signal msg).

Definition test_message_ext_is_method_return : bool :=
  let reply := create_test_method_return create_test_method_call in
  is_method_return reply && negb (is_method_call reply) && negb (is_error reply) && negb (is_signal reply).

Definition test_message_ext_reply_serial : bool :=
  let request := create_test_method_call in
  let reply := create_test_method_return request in
  assert_eq (reply_serial reply) (Some (serial request)) && assert_eq (reply_serial request) None.

Definition test_is_dbus_daemon_call : bool :=
  let daemon_call :=
    mkSMessage (mkFields MethodCall (Some "org.freedesktop.DBus") None (Some "org.freedesktop.DBus")
      (Some "ListNames") (Some "/org/freedesktop/DBus") None) 1 s_unit in
  is_dbus_daemon_call daemon_call && negb (is_dbus_daemon_call create_test_method_call).

Definition test_method_return_builder : bool :=
  let request := create_test_method_call in
  unwrap (mrb_build (BodyStr "test response") (mrb_set_destination ":1.123" (MethodReturnBuilder_new request)))
    (fun reply =>
      is_method_return reply && assert_eq (destination_str reply) (Some ":1.123") &&
      assert_eq (reply_serial reply) (Some (serial request)) &&
      unwrap (deserialize BStr reply) (fun body => assert_eq body "test response")).

Definition test_error_builder : bool :=
  let request := create_test_method_call in
  unwrap (eb_build "Something went wrong" (eb_set_destination ":1.123" (ErrorBuilder_new request error_names.FAILED)))
    (fun error =>
      is_error error && assert_eq (destination_str error) (Some ":1.123") &&
      assert_eq (reply_serial error) (Some (serial request))).

End MessageTests.

(** ** Authentication, clients, threads *)

Module OtherTests.
#[local] Existing Instance SimpleZbus.

Definition test_parse_hex_uid : bool :=
  MessageTests.unwrap (parse_hex_uid simple_hex_decode (simple_hex_encode "1000")) (fun uid => assert_eq uid 1000).

Definition test_encode_uid : bool :=
  let encoded := encode_uid simple_hex_encode 1000 in
  MessageTests.unwrap (simple_hex_decode encoded) (fun uid_str => assert_eq uid_str "1000").

(** The counter of the process, where the other tests have left it. *)
Definition test_client_id_generation (counter : Z) : bool :=
  let '(id1, counter) := next_client_id counter in
  let '(id2, counter) := next_client_id counter in
  negb (assert_eq id1 id2).

Definition test_client_credentials_clone : bool :=
  let creds := mkClientCredentials 1000 (Some 12345) 1000 in
  assert_eq (World.uid creds) 1000 && assert_eq (World.pid creds) (Some 12345) && assert_eq (World.gid creds) 1000.

Definition test_client_credentials_without_pid : bool :=
  let creds := mkClientCredentials 1000 None 1000 in
  assert_eq (World.uid creds) 1000 && is_none (World.pid creds) && assert_eq (World.gid creds) 1000.

(** Ten threads draw a hundred serials each: a thousand draws from the atomic
    counter, in whatever order the threads come to it. *)
Definition test_serial_generator_thread_safety : bool :=
  bool_decide (NoDup (serials 1000 SerialGenerator_new)).

End OtherTests.

(** Every test passes. *)
Lemma unit_tests_pass :
  forallb id (
  [NameQueueTests.test_first_request_becomes_owner;
   NameQueueTests.test_already_owner;
   NameQueueTests.test_queue_without_do_not_queue;
   NameQueueTests.test_do_not_queue_flag;
   NameQueueTests.test_replacement_with_allow_replacement;
   NameQueueTests.test_replacement_denied_without_allow;
   NameQueueTests.test_release_by_owner_promotes_waiter;
   NameQueueTests.test_release_last_owner;
   NameQueueTests.test_release_non_owner;
   NameQueueTests.test_release_nonexistent;
   NameQueueTests.test_release_from_queue;
   NameQueueTests.test_list_queued_owners;
   NameQueueTests.test_list_queued_owners_empty;
   NameQueueTests.test_remove_client_primary_owner;
   NameQueueTests.test_remove_client_from_queue;
   NameQueueTests.test_multiple_names_per_client] ++
  [SerialMapTests.test_serial_map_insert_remove;
   SerialMapTests.test_serial_map_different_routes;
   SerialMapTests.test_serial_generator;
   SerialMapTests.test_serial_map_multiple_clients_same_serial;
   SerialMapTests.test_serial_map_collision_scenario;
   SerialMapTests.test_pending_for_client;
   SerialMapTests.test_cleanup_expired;
   SerialMapTests.test_cleanup_expired_partial;
   SerialMapTests.test_serial_key_equality] ++
  [RoutingTests.test_container_priority;
   RoutingTests.test_host_fallback;
   RoutingTests.test_unknown_defaults_to_host;
   RoutingTests.test_unique_name_routing;
   RoutingTests.test_name_release] ++
  [PortalTests.test_tracker_basic;
   PortalTests.test_tracker_remove_client] ++
  [MatchRuleTests.test_parse_empty_rule;
   MatchRuleTests.test_parse_type_signal;
   MatchRuleTests.test_parse_multiple_fields;
   MatchRuleTests.test_parse_sender_interface;
   MatchRuleTests.test_parse_path;
   MatchRuleTests.test_parse_path_namespace;
   MatchRuleTests.test_parse_arg0;
   MatchRuleTests.test_parse_arg0path;
   MatchRuleTests.test_parse_complex_rule;
   MatchRuleTests.test_parse_eavesdrop;
   MatchRuleTests.test_parse_invalid_format;
   MatchRuleTests.test_parse_unclosed_quote;
   MatchRuleTests.test_parse_high_arg_index;
   MatchRuleTests.test_client_match_rules_add_remove;
   MatchRuleTests.test_parse_with_whitespace;
   MatchRuleTests.test_parse_destination;
   MatchRuleTests.test_match_rule_refcount_basic;
   MatchRuleTests.test_match_rule_refcount_multiple_buses;
   MatchRuleTests.test_match_rule_refcount_rules_for_bus;
   MatchRuleTests.test_client_match_rules_rule_strings] ++
  [MessageTests.test_clone_message_with_serial;
   MessageTests.test_clone_message_with_serial_zero_rejected;
   MessageTests.test_clone_message_preserves_message_type;
   MessageTests.test_clone_reply_with_serial;
   MessageTests.test_clone_reply_with_serial_zero_rejected;
   MessageTests.test_clone_message_different_serials;
   MessageTests.test_message_ext_serial;
   MessageTests.test_message_ext_is_method_call;
   MessageTests.test_message_ext_is_method_return;
   MessageTests.test_message_ext_reply_serial;
   MessageTests.test_is_dbus_daemon_call;
   MessageTests.test_method_return_builder;
   MessageTests.test_error_builder] ++
  [OtherTests.test_parse_hex_uid;
   OtherTests.test_encode_uid;
   OtherTests.test_client_id_generation 1;
   OtherTests.test_client_credentials_clone;
   OtherTests.test_client_credentials_without_pid;
   OtherTests.test_serial_generator_thread_safety]) = true.
Proof. vm_compute. reflexivity. Qed.
