(* ===== verification/IntegrationTests.v ===== *)
(** * Integration tests of the sources, on the model

    The test functions of src/tests/match_rules_tests.rs and
    src/tests/auth_integration.rs that need no bus daemon, as boolean
    definitions over the model: a test passes if it evaluates to [true].
    Messages are those of [SimpleZbus].  In the tests of authentication every
    [write_all] of the client is one chunk of the server's input, and what the
    client reads is what the server has written. *)

From S2P Require Import Prelude RustStr Zbus SimpleZbus Errors Message MatchRules Auth UnitTests.
From Stdlib Require Import Ascii.

#[local] Open Scope Z_scope.

(** ** Match rules *)

Module MatchRulesIntegration.
#[local] Existing Instance SimpleZbus.
Import MatchRuleTests.

Definition create_test_signal_with_body (interface member path : string) (sender : option string) (body : SBody)
    : Message :=
  mkSMessage (mkFields Signal None sender (Some interface) (Some member) (Some path) None) 1 body.

Definition create_test_signal (interface member path : string) (sender : option string) : Message :=
  create_test_signal_with_body interface member path sender s_unit.

(** [MatchRule::parse(rule).unwrap().matches(&signal)] *)
Definition rule_matches (rule : string) (signal : Message) : bool :=
  unwrap_parse rule (fun r => matches r signal).
Definition rule_misses (rule : string) (signal : Message) : bool :=
  unwrap_parse rule (fun r => negb (matches r signal)).

Definition test_match_signal_type : bool :=
  let rule := "type='signal'" in
  let method_call :=
    mkSMessage (mkFields MethodCall None None (Some "org.example.Interface") (Some "TestMethod")
      (Some "/org/example") None) 1 s_unit in
  rule_matches rule (create_test_signal "org.example.Interface" "TestSignal" "/org/example" None) &&
  rule_misses rule method_call.

Definition test_match_interface : bool :=
  let rule := "type='signal',interface='org.freedesktop.DBus'" in
  rule_matches rule (create_test_signal "org.freedesktop.DBus" "NameOwnerChanged" "/org/freedesktop/DBus" None) &&
  rule_misses rule (create_test_signal "org.gnome.Shell" "ExtensionStatusChanged" "/org/gnome/Shell" None).

Definition test_match_member : bool :=
  let rule := "type='signal',member='NameOwnerChanged'" in
  rule_matches rule (create_test_signal "org.freedesktop.DBus" "NameOwnerChanged" "/org/freedesktop/DBus" None) &&
  rule_misses rule (create_test_signal "org.freedesktop.DBus" "NameAcquired" "/org/freedesktop/DBus" None).

Definition test_match_sender : bool :=
  let rule := "type='signal',sender='org.freedesktop.DBus'" in
  let signal sender := create_test_signal "org.freedesktop.DBus" "NameOwnerChanged" "/org/freedesktop/DBus" sender in
  rule_matches rule (signal (Some "org.freedesktop.DBus")) && rule_misses rule (signal (Some ":1.42")).

Definition test_match_path : bool :=
  let rule := "type='signal',path='/org/freedesktop/DBus'" in
  let signal path := create_test_signal "org.freedesktop.DBus" "NameOwnerChanged" path None in
  rule_matches rule (signal "/org/freedesktop/DBus") && rule_misses rule (signal "/org/example").

Definition test_match_path_namespace : bool :=
  let rule := "type='signal',path_namespace='/org/freedesktop'" in
  let signal path := create_test_signal "org.freedesktop.DBus" "Test" path None in
  rule_matches rule (signal "/org/freedesktop") && rule_matches rule (signal "/org/freedesktop/DBus") &&
  rule_matches rule (signal "/org/freedesktop/DBus/Local") &&
  rule_misses rule (create_test_signal "org.gnome.Shell" "Test" "/org/gnome/Shell" None).

Definition test_match_arg0 : bool :=
  let rule := "type='signal',arg0='com.example.Service'" in
  let signal name := create_test_signal_with_body "org.freedesktop.DBus" "NameOwnerChanged" "/org/freedesktop/DBus"
    None (s_str3 name "" ":1.100") in
  rule_matches rule (signal "com.example.Service") && rule_misses rule (signal "com.other.Service").

Definition test_match_arg0path : bool :=
  let rule := "type='signal',arg0path='/org/example/'" in
  let rule_no_slash := "type='signal',arg0path='/org/example'" in
  let signal path arg := create_test_signal_with_body "org.example" "PathChanged" path None (s_str arg) in
  rule_matches rule (signal "/org/example" "/org/example/") &&
  rule_matches rule (signal "/org/example" "/org/example/child") &&
  rule_misses rule (signal "/org/example" "/org/other") &&
  rule_matches rule_no_slash (signal "/org/example" "/org/") &&
  rule_matches rule_no_slash (signal "/" "/") &&
  rule_misses rule_no_slash (signal "/org/example" "/org/example/child").

Definition test_match_complex_rule : bool :=
  let rule := "type='signal',sender='org.freedesktop.DBus',interface='org.freedesktop.DBus',member='NameOwnerChanged',path='/org/freedesktop/DBus'" in
  let signal member sender := create_test_signal "org.freedesktop.DBus" member "/org/freedesktop/DBus" (Some sender) in
  rule_matches rule (signal "NameOwnerChanged" "org.freedesktop.DBus") &&
  rule_misses rule (signal "NameOwnerChanged" ":1.1") && rule_misses rule (signal "NameAcquired" "org.freedesktop.DBus").

Definition test_empty_rule_matches_all_signals : bool :=
  rule_matches "" (create_test_signal "org.example.A" "Signal1" "/a" None) &&
  rule_matches "" (create_test_signal "org.example.B" "Signal2" "/b" None).

Definition test_client_match_rules_filtering : bool :=
  unwrap_parse "type='signal',interface='org.freedesktop.DBus',member='NameOwnerChanged'" (fun rule1 =>
  unwrap_parse "type='signal',sender=':1.100'" (fun rule2 =>
    let rules := cmr_add rule2 (cmr_add rule1 ClientMatchRules_new) in
    cmr_matches rules (create_test_signal "org.freedesktop.DBus" "NameOwnerChanged" "/org/freedesktop/DBus" None) &&
    cmr_matches rules (create_test_signal "com.example.MyService" "TestSignal" "/" (Some ":1.100")) &&
    negb (cmr_matches rules (create_test_signal "org.random.Interface" "RandomSignal" "/random" (Some ":1.999"))))).

Definition test_client_match_rules_empty : bool :=
  negb (cmr_matches ClientMatchRules_new (create_test_signal "org.example" "Test" "/" None)).

Definition test_match_rule_parse_errors : bool :=
  is_err (parse "type") && is_err (parse "type='signal") && is_err (parse "arg99='test'").

Definition test_match_rule_destination : bool :=
  let signal := mkSMessage (mkFields Signal (Some ":1.42") None (Some "org.example") (Some "Test") (Some "/test") None)
    1 s_unit in
  rule_matches "destination=':1.42'" signal.

Definition test_match_rule_with_whitespace : bool :=
  unwrap_parse "  type='signal'  " (fun rule1 =>
  unwrap_parse "type='signal', interface='org.example'" (fun rule2 =>
  unwrap_parse "type='signal' ,interface='org.example'" (fun rule3 =>
    assert_eq (mr_type rule1) (Some "signal") && assert_eq (mr_type rule2) (Some "signal") &&
    assert_eq (mr_interface rule2) (Some "org.example") && assert_eq (mr_type rule3) (Some "signal") &&
    assert_eq (mr_interface rule3) (Some "org.example")))).

Definition test_match_rules_name_owner_changed_filter : bool :=
  let rule := "type='signal',sender='org.freedesktop.DBus',interface='org.freedesktop.DBus',member='NameOwnerChanged',arg0='com.example.MyApp'" in
  let signal name owner := create_test_signal_with_body "org.freedesktop.DBus" "NameOwnerChanged"
    "/org/freedesktop/DBus" (Some "org.freedesktop.DBus") (s_str3 name "" owner) in
  rule_matches rule (signal "com.example.MyApp" ":1.50") && rule_misses rule (signal "com.other.Service" ":1.51").

Definition test_multiple_arg_filters : bool :=
  let rule := "type='signal',arg0='hello',arg1='world'" in
  let signal arg1 := create_test_signal_with_body "org.example" "Test" "/" None (s_str2 "hello" arg1) in
  rule_matches rule (signal "world") && rule_misses rule (signal "other").

Definition test_add_remove_match_rules : bool :=
  let rule_str := "type='signal',interface='org.example'" in
  unwrap_parse rule_str (fun rule =>
  unwrap_parse "type='signal',member='OtherSignal'" (fun rule2 =>
    let rules := cmr_add rule ClientMatchRules_new in
    let rules_dup := cmr_add rule rules in
    let rules2 := cmr_add rule2 rules_dup in
    let '(rules3, removed) := cmr_remove rule_str rules2 in
    let '(rules4, removed_again) := cmr_remove rule_str rules3 in
    assert_eq (cmr_len rules) 1%nat && assert_eq (cmr_len rules_dup) 1%nat && assert_eq (cmr_len rules2) 2%nat &&
    removed && assert_eq (cmr_len rules3) 1%nat && negb removed_again && assert_eq (cmr_len rules4) 1%nat)).

Lemma match_rules_integration_pass :
  forallb id
    [test_match_signal_type; test_match_interface; test_match_member; test_match_sender; test_match_path;
     test_match_path_namespace; test_match_arg0; test_match_arg0path; test_match_complex_rule;
     test_empty_rule_matches_all_signals; test_client_match_rules_filtering; test_client_match_rules_empty;
     test_match_rule_parse_errors; test_match_rule_destination; test_match_rule_with_whitespace;
     test_match_rules_name_owner_changed_filter; test_multiple_arg_filters; test_add_remove_match_rules] = true.
Proof. vm_compute. reflexivity. Qed.
End MatchRulesIntegration.

(** ** Authentication *)

Module AuthIntegration.
#[local] Existing Instance SimpleZbus.

(** The UID of the process that runs the tests. *)
Definition getuid : Z := 1000.

Definition guid : string := "0123456789abcdef0123456789abcdef".

(** [auth.authenticate_server(&mut server_stream).await], with what the client
    sends before it closes its end. *)
Definition serve (server_guid : string) (sent : list string) : option (result Error AuthResult * list string) :=
  match authenticate_server server_guid getuid simple_hex_decode (fun _ => None) (Ok <$> sent) with
  | Some (r, c) => Some (r, written c)
  | None => None
  end.

Definition line (s : string) : string := s +:+ CRLF.
Definition null_byte : string := String NUL "".

(** The lines the client reads; a test that asserts [starts_with("OK ")] gets
    the line with the GUID. *)
Definition answers (server_guid : string) (sent : list string) (responses : list string)
    (asserts : AuthResult -> bool) : bool :=
  match serve server_guid sent with
  | Some (Ok a, w) => assert_eq w (line <$> responses) && asserts a
  | _ => false
  end.

Definition fails (sent : list string) (responses : list string) (asserts : Error -> bool) : bool :=
  match serve guid sent with
  | Some (Err e, w) => assert_eq w (line <$> responses) && asserts e
  | _ => false
  end.

(** [err.to_string().contains(text)] *)
Fixpoint contains (text : string) (s : string) : bool :=
  starts_with s text || match s with EmptyString => false | String _ s' => contains text s' end.

Definition ok_line (server_guid : string) : string := "OK " +:+ server_guid.
Definition auth_uid (uid : Z) : string := line ("AUTH EXTERNAL " +:+ encode_uid simple_hex_encode uid).

(** [client_auth_external]: what the client sends, and the lines it asserts. *)
Definition client_auth_external (uid : Z) (negotiate_fd : bool) : list string :=
  [null_byte; auth_uid uid] ++ (if negotiate_fd then [line "NEGOTIATE_UNIX_FD"] else []) ++ [line "BEGIN"].
Definition client_auth_external_challenge_response (uid : Z) (negotiate_fd : bool) : list string :=
  [null_byte; line "AUTH EXTERNAL"; line ("DATA " +:+ encode_uid simple_hex_encode uid)] ++
  (if negotiate_fd then [line "NEGOTIATE_UNIX_FD"] else []) ++ [line "BEGIN"].
Definition agreed (negotiate_fd : bool) : list string := if negotiate_fd then ["AGREE_UNIX_FD"] else [].

Definition test_external_auth_success : bool :=
  answers guid (client_auth_external getuid false) [ok_line guid] (fun a => assert_eq (ar_uid a) getuid).

Definition test_external_auth_challenge_response : bool :=
  answers guid (client_auth_external_challenge_response getuid false) ["DATA"; ok_line guid]
    (fun a => assert_eq (ar_uid a) getuid).

Definition test_external_auth_challenge_response_with_fd : bool :=
  answers guid (client_auth_external_challenge_response getuid true) (["DATA"; ok_line guid] ++ agreed true)
    (fun a => assert_eq (ar_uid a) getuid).

Definition test_external_auth_empty_data_response : bool :=
  answers guid [null_byte; line "AUTH EXTERNAL"; line "DATA"; line "BEGIN"] ["DATA"; ok_line guid]
    (fun a => assert_eq (ar_uid a) getuid).

Definition test_external_auth_with_custom_guid : bool :=
  let custom_guid := "abcdef0123456789abcdef0123456789" in
  answers (sasl_guid (with_guid custom_guid)) (client_auth_external getuid false) [ok_line custom_guid] (fun _ => true).

Definition test_external_auth_with_fd_negotiation : bool :=
  answers guid (client_auth_external getuid true) (ok_line guid :: agreed true) (fun a => assert_eq (ar_uid a) getuid).

Definition test_external_auth_different_uid : bool :=
  answers guid (client_auth_external 0 false) [ok_line guid] (fun a => assert_eq (ar_uid a) 0).

(** A client that is rejected some times and then authenticates properly. *)
Definition recovers (tries : list string) : bool :=
  answers guid ([null_byte] ++ (line <$> tries) ++ [auth_uid getuid; line "BEGIN"])
    (((fun _ => "REJECTED EXTERNAL") <$> tries) ++ [ok_line guid]) (fun _ => true).

Definition test_auth_mechanism_query : bool := recovers ["AUTH"].
Definition test_unsupported_mechanism_rejected : bool := recovers ["AUTH DBUS_COOKIE_SHA1 some_data"; "AUTH ANONYMOUS"].
Definition test_cancel_and_retry : bool := recovers ["AUTH"; "CANCEL"].
Definition test_error_recovery : bool := recovers ["ERROR something went wrong"].

Definition test_missing_null_byte : bool :=
  fails [String (ascii_of_nat 1) ""] [] (fun err => contains "null byte" (error_text err)).

Definition test_invalid_hex_uid : bool :=
  fails [null_byte; line "AUTH EXTERNAL not_valid_hex!"] [] (fun _ => true).

Definition test_invalid_uid_format : bool :=
  fails [null_byte; line ("AUTH EXTERNAL " +:+ simple_hex_encode "not_a_number")] [] (fun _ => true).

Definition test_missing_begin_after_ok : bool :=
  fails [null_byte; auth_uid getuid; line "DATA something"] [ok_line guid]
    (fun err => contains "BEGIN" (error_text err)).

Definition test_missing_begin_after_fd_negotiation : bool :=
  fails [null_byte; auth_uid getuid; line "NEGOTIATE_UNIX_FD"; line "DATA something"] (ok_line guid :: agreed true)
    (fun _ => true).

Definition test_client_disconnect_during_auth : bool := fails [null_byte] [] (fun _ => true).

Definition test_unexpected_command : bool :=
  fails [null_byte; line "FOOBAR unknown command"] [] (fun _ => true).

Definition test_various_uid_values : bool :=
  forallb (fun test_uid =>
    answers guid (client_auth_external test_uid false) [ok_line guid] (fun a => assert_eq (ar_uid a) test_uid))
    [0; 1; 1000; 65534; 65535; 999999].

(** Each connection has its own exchange. *)
Definition test_multiple_concurrent_auths : bool :=
  let authenticated_uids := omap (fun sent =>
    match serve guid sent with Some (Ok a, _) => Some (ar_uid a) | _ => None end)
    (replicate 5 (client_auth_external getuid false)) in
  assert_eq (length authenticated_uids) 5%nat && forallb (fun u => assert_eq u getuid) authenticated_uids.

Definition test_slow_client_auth : bool :=
  answers guid [null_byte; auth_uid getuid; line "BEGIN"] [ok_line guid] (fun _ => true).

Definition test_empty_external_arg : bool := fails [null_byte; line "AUTH EXTERNAL "] [] (fun _ => true).

Definition test_large_uid_number : bool :=
  answers guid (client_auth_external u32_max false) [ok_line guid] (fun a => assert_eq (ar_uid a) u32_max).

Definition test_uid_encoding_roundtrip : bool :=
  forallb (fun uid =>
    match simple_hex_decode (encode_uid simple_hex_encode uid) with
    | Ok decoded_str => assert_eq (parse_uint u32_max decoded_str) (Some uid)
    | Err _ => false
    end) [0; 1; 500; 1000; 65534; 65535; 999999; u32_max].

Definition test_uid_encoding_format : bool :=
  let encoded := encode_uid simple_hex_encode 1000 in
  assert_eq encoded "31303030" &&
  match simple_hex_decode encoded with Ok decoded => assert_eq decoded "1000" | Err _ => false end.

Lemma auth_integration_pass :
  forallb id
    [test_external_auth_success; test_external_auth_challenge_response; test_external_auth_challenge_response_with_fd;
     test_external_auth_empty_data_response; test_external_auth_with_custom_guid;
     test_external_auth_with_fd_negotiation; test_external_auth_different_uid; test_auth_mechanism_query;
     test_unsupported_mechanism_rejected; test_cancel_and_retry; test_error_recovery; test_missing_null_byte;
     test_invalid_hex_uid; test_invalid_uid_format; test_missing_begin_after_ok;
     test_missing_begin_after_fd_negotiation; test_client_disconnect_during_auth; test_unexpected_command;
     test_various_uid_values; test_multiple_concurrent_auths; test_slow_client_auth; test_empty_external_arg;
     test_large_uid_number; test_uid_encoding_roundtrip; test_uid_encoding_format] = true.
Proof. vm_compute. reflexivity. Qed.
End AuthIntegration.
